(* ===== verification/_CoqProject ===== *)
-Q . S2P
Prelude.v
Arch.v
Pmem.v
PmemSpec.v
PVar.v
TxCache.v
Transaction.v
TxAttempt.v
Replay.v
ReplaySpec.v
UserTx.v
Util.v
PList.v
PListUpd.v
PListSeg.v
PListRemove.v
PListPop.v
PListFront.v
PListSorted.v
PListSortedRec.v
PListSortedSafe.v
PListBefore.v
PListRing.v
PListRound.v
PListLinear.v
PListJournal.v
PListEquiv.v
ListRepr.v
Kernel.v
ListTx.v
Sched.v
SchedInv.v
SchedDemo.v
SchedSpec.v
SchedVal.v
SchedOps.v
SchedTick.v
SchedSwitch.v
RollForward.v
Blocking.v
BlockingOps.v
Queue.v
QueueRing.v
QueueOps.v
Semaphore.v
SemaphoreOps.v
EventGroup.v
EventGroupOps.v
Heap.v
HeapSpec.v
Timer.v
TimerOps.v
TimerSpec.v
Containers.v
ContainersSpec.v
Refs.v
RefsSpec.v
System.v
Syscall.v
SyscallSpec.v
Create.v
CreateTx.v
CreateOps.v
Boot.v
BootOps.v
BootSystem.v
SysCreate.v
UserNew.v
