(* ===== verification/Prelude.v ===== *)
(** * IntOS: a verification library of its kernel

    IntOS is an operating system for devices that lose power at any time and keep
    their data in byte-addressable persistent memory. Its kernel promises that a
    task goes on after a power failure as if none had happened: what tasks do to
    persistent memory is undone or completed, system calls that have returned are
    replayed, and the kernel's own lists are rolled forward. This library models
    that machinery and proves what it achieves, and where it falls short.

    ** How programs and power failures are modelled

    Prelude: a routine is a tree of atomic actions on a store ([prog]): read,
    update, fail, return. [exec] runs it; [crash_states] lists the stores that a
    power failure may leave, one in front of every update; [runs] and [always] are
    the rules by which both are proved at once. [zoom] runs a routine on a
    component of a larger store through a [Lens]. A failure is a panic ([assert!],
    [unwrap], an index) or undefined behaviour. Volatile state that a failure
    loses is not part of the store or is reset by the model of the reboot.

    ** The parts

    - Arch (src/util.rs, src/board): machine words. [usize] has 16, 32 or 64 bits,
      a parameter ([Arch]); arithmetic wraps, as in the release profile; the
      constants of a board are the class [Board].
    - Pmem, PmemSpec (src/pmem.rs): persistent memory as bytes, the undo journal as
      the bytes of its buffer. The abstract journal is the list of saved ranges.
    - PVar: words in persistent memory, with the rules for logged stores.
    - TxCache, Transaction, TxAttempt (src/transaction.rs): the cache of results
      with its packed commit word, the wrappers that run a closure as a
      transaction, and transactions that ask for a retry.
    - Replay, ReplaySpec (src/syscalls.rs): the replay cache of system calls.
    - UserTx (src/transaction.rs, src/user/transaction.rs, src/task.rs): user
      transactions, non-volatile loops, and the recovery of a task.
    - Util (src/util.rs, src/critical.rs, src/vec.rs): clocks, sorting, critical
      sections, persistent arrays.
    - PList and the PList files (src/list.rs, second half): doubly linked lists
      over a store of nodes, with the operation log by which every operation
      recovers. PListUpd gives an operation as a sequence of assignments, PListSeg
      relates a store to the contents of its lists; one file for each operation.
      PListJournal has the operations without the log (no opt_list), which save
      what they write to in the undo journal; PListEquiv compares both.
    - ListRepr, Kernel, ListTx (src/list.rs, first half, src/task.rs): all lists of
      the kernel in one store, the tasks, and the composite operations that move a
      task between lists, with their log.
    - Sched (src/task.rs, src/time.rs, src/recover.rs): the tick handler,
      delaying, switching, recovery and booting. SchedInv is the invariant,
      SchedSpec the abstract scheduler (contents of the lists and states of the
      tasks), SchedVal, SchedOps, SchedTick and SchedSwitch the refinement;
      RollForward runs recoveries that go wrong.
    - Blocking, BlockingOps: the loop that the blocking system calls share.
    - Queue, QueueRing, QueueOps (src/queue.rs), Semaphore, SemaphoreOps
      (src/semaphore.rs), EventGroup, EventGroupOps (src/event_group.rs): the
      objects, whose memory is changed by transactions and whose waiters are moved
      by composite list operations.
    - Heap, HeapSpec (src/heap.rs): the bump allocators.
    - Timer, TimerOps, TimerSpec (src/time.rs): the daemon of the software timers,
      its commands and the calls that send them. The functions that timers call
      back and the layout of a message are parameters. TimerOps is about the list
      of the active timers, TimerSpec about the daemon.
    - Containers, ContainersSpec (src/user/pvec.rs, src/user/pqueue.rs): the
      vectors and queues of applications on the undo journal.
    - Refs, RefsSpec (src/user/pbox.rs, src/user/pstatics.rs, src/user/pmutex.rs): the
      pointers of applications, whose types say what has been read, logged and
      written. A transaction over them is a tree of method calls ([client]), of which
      [typed] says that it type-checks. UserNew has the constructors of boxes, vectors,
      queues and mutexes, which are system calls, and the locking of a mutex.

    - System: ticks, switches and the calls of tasks in any order, the states that
      they reach, and the invariant of the whole.

    - Syscall, SyscallSpec (src/syscalls.rs, [jit_recovery] in src/task.rs): the macros
      around the system calls and their recovery, and the calls. SyscallSpec is about a
      transaction as a tree of calls whose branches are their results ([caller]).
    - Create, CreateTx, CreateOps (the constructors in src/queue.rs, src/semaphore.rs,
      src/event_group.rs and src/time.rs): transactions that allocate an object and
      write its fields. The layouts of the objects, which the compiler chooses, are a
      record of offsets. CreateTx has the rules for a transaction on one journal.
    - Boot, BootOps, BootSystem (src/task.rs, src/heap.rs, src/arch.rs): the static
      variables, creating tasks, the boot sequence and the reboot. BootOps proves that
      every creation extends the scheduler by one task, from blank memory on;
      BootSystem composes the boot with [System].
    - SysCreate (src/syscalls.rs): the calls that create and allocate.

    A definition has the name of the Rust function where that is free; a prefix
    tells apart functions that share one (journal_recover, tx_run, pm_alloc).

    ** What the theorems show

    - Persistent memory: rolling back after a power failure at any point, also
      during the rollback, restores the memory ([PmemSpec]); a result and the
      commit of its transaction become visible in one store ([TxCache]); a session
      of transactions that is interrupted any number of times ends as without
      interruption ([UserTx.session_exactly_once]); recorded system calls are read
      back in their order ([ReplaySpec]), so that a transaction that is executed again
      repeats none of its calls and goes on where it was ([SyscallSpec]); a call returns
      in one step ([Syscall]), unless power fails twice.
    - Lists: every operation has its effect on the contents, touches nothing else,
      and is rolled forward from every store that a power failure leaves, with the
      exceptions stated next to it. The journaled operations leave the same lists
      and are undone from wherever they are interrupted ([PListEquiv]).
    - Scheduler: every operation keeps the invariant and refines a step of the
      abstract scheduler; the tick wakes exactly the tasks whose time has come;
      a task of the highest priority runs, and none of them starves while nobody blocks or
      is woken and the current task heads its ready list. No reachable state of the system
      (in the release build, without overflows of the time or waits of the idle task)
      fails, and all are well typed ([System]); but a tick between a delay and its switch
      can starve a task, as an execution there shows.
    - Booting: the boot sequence runs to its end from blank memory, with the tasks
      that were registered, in disjoint heaps, and the first one of the highest
      priority current; what runs afterwards never fails ([BootSystem]). For one
      configuration of two tasks every single power failure during the boot is executed: the next
      boot ends with the same memory, tasks and current task, but may differ in the rings of
      the ready lists and in the nesting of critical sections, as findings show.
    - Creation: an object is made in fresh memory of the heap, or there is none and the caller
      is told so, or, for a semaphore, the kernel panics ([CreateOps]).
    - Objects: an attempt of a system call serves it, fails or blocks the caller;
      the transactions of a queue are atomic; a send with a timeout returns if its caller
      is run again and is not woken for ever within a tick.
    - Timers: every command and every expiry is a step of the abstract timers,
      whose list stays sorted and true to their flags; a timer that expires is called back
      inside of a user transaction; the daemon sleeps until the first one expires; putting a timer back survives power failures.
    - Heaps: blocks are aligned, inside of the heap and disjoint; allocations roll
      back.
    - Containers: a transaction of operations is one on lists and rolls back, but for the
      elements that it has stored over behind popping them; iterators yield every element once.
    - Typed pointers: what a transaction writes before it reads is not rolled back, but a
      transaction that type-checks ends after any power failures as without them
      ([RefsSpec]).
    - Shortcomings of the code are theorems too: the executions in [RollForward],
      [SemaphoreOps], [EventGroupOps], [HeapSpec], [TimerSpec], [ContainersSpec],
      [System], [Syscall], [CreateOps], [BootSystem] and [RefsSpec], and the bounds on packed words in [TxCache] and [UserTx].

    ** Fuel

    Loops take fuel and fail as undefined when it runs out, so that a theorem that
    gives the result of a loop shows that it ends. The journal's loop has the
    length of the journal as fuel (each record is longer than a byte); loops over
    a list and the tick handler have the number of nodes of the store. The loop of
    the daemon, which has no end, and locking a mutex take a number of rounds. [retry] and
    [take_loop] have any fuel: the number of attempts depends on the other tasks;
    [QueueOps.queue_send_returns] bounds it by the number of ticks asked for and that of
    the wake-ups within a tick.

    ** Not modelled

    - The stack, the initial registers, the name and the function of a task; the
      set-up of devices and cycle counters at the start. The theorems about the boot
      are for a system without the timer daemon, whose creation is defined.
    - The code of the processors (src/arch) and of the boards (src/board) in
      assembly and device registers. A yield is a parameter: any program that the
      rest of the system may run.
    - The marker traits, by which the compiler keeps pointers from crossing the
      borders of transactions, and the unsafe conversions between pointers.
    - What the kernel does without the default features opt_list and crash_safe,
      apart from the operations on one list; statistics, tests, applications and benchmarks, the build
      script.
    - Data races: the system has one processor, and the kernel works with
      interrupts off. Compiler and cache reordering of stores is not modelled. *)

From Stdlib Require Export ZArith Lia.
From stdpp Require Export prelude gmap.

#[global] Set Default Goal Selector "!".

(** ** Programs over a persistent store

    A kernel routine is a tree of atomic actions on a state [S]: a read of the
    state, an atomic update of the state, a failure, or a result. *)

Inductive failure :=
| Panic       (* assert!, unwrap of None, panic!, index out of bounds *)
| Undefined.  (* unwrap_unchecked of None, dangling pointer, write past a buffer *)

Inductive prog (S A : Type) : Type :=
| Ret (a : A)
| Read (k : S → prog S A)
| Write (f : S → S) (k : prog S A)
| Fail (e : failure).
Arguments Ret {S A} a.
Arguments Read {S A} k.
Arguments Write {S A} f k.
Arguments Fail {S A} e.

Inductive result (S A : Type) : Type :=
| Done (a : A) (s : S)
| Failed (e : failure).
Arguments Done {S A} a s.
Arguments Failed {S A} e.

Fixpoint bind {S A B} (p : prog S A) (k : A → prog S B) : prog S B :=
  match p with
  | Ret a => k a
  | Read g => Read (λ s, bind (g s) k)
  | Write f p' => Write f (bind p' k)
  | Fail e => Fail e
  end.

Declare Scope prog_scope.
Delimit Scope prog_scope with prog.
Bind Scope prog_scope with prog.

Notation "'let*' x := p 'in' q" := (bind p (λ x, q))
  (at level 10, x pattern, p at level 100, q at level 200,
   format "'let*'  x  :=  p  'in' '//' q") : prog_scope.
Notation "p ;;; q" := (bind p (λ _, q))
  (at level 100, q at level 200, right associativity, format "p  ;;; '//' q") : prog_scope.
#[global] Open Scope prog_scope.

Definition get {S} : prog S S := Read (λ s, Ret s).
Definition gets {S A} (f : S → A) : prog S A := Read (λ s, Ret (f s)).
Definition modify {S} (f : S → S) : prog S unit := Write f (Ret tt).
Definition skip {S} : prog S unit := Ret tt.
Definition when {S} (b : bool) (p : prog S unit) : prog S unit := if b then p else skip.
Definition assert_ {S} (b : bool) : prog S unit := if b then skip else Fail Panic.
Definition unwrap {S A} (o : option A) : prog S A :=
  match o with Some a => Ret a | None => Fail Panic end.
Definition unwrap_unchecked {S A} (o : option A) : prog S A :=
  match o with Some a => Ret a | None => Fail Undefined end.

(** [exec]: the crash-free execution. *)
Fixpoint exec {S A} (p : prog S A) (s : S) : result S A :=
  match p with
  | Ret a => Done a s
  | Read k => exec (k s) s
  | Write f p' => exec p' (f s)
  | Fail e => Failed e
  end.

(** [crash_states p s]: the stores a power failure during [p] may leave behind,
    one per atomic write boundary, from the initial store to the final one. *)
Fixpoint crash_states {S A} (p : prog S A) (s : S) : list S :=
  match p with
  | Ret _ => [s]
  | Read k => crash_states (k s) s
  | Write f p' => s :: crash_states p' (f s)
  | Fail _ => [s]
  end.

(** [crash_at n p s]: the store when power fails after exactly [n] writes. *)
Definition crash_at {S A} (n : nat) (p : prog S A) (s : S) : option S :=
  crash_states p s !! n.

Section prog_lemmas.
Context {S : Type}.
Implicit Types s : S.

Lemma exec_bind {A B} (p : prog S A) (k : A → prog S B) s :
  exec (bind p k) s =
  match exec p s with Done a s' => exec (k a) s' | Failed e => Failed e end.
Proof. revert s; induction p; intros s; simpl; auto. Qed.

Lemma exec_bind_done {A B} (p : prog S A) (k : A → prog S B) s a s' :
  exec p s = Done a s' → exec (bind p k) s = exec (k a) s'.
Proof. intros E. by rewrite exec_bind, E. Qed.

Lemma exec_bind_inv {A B} (p : prog S A) (k : A → prog S B) s b s'' :
  exec (bind p k) s = Done b s'' →
  ∃ a s', exec p s = Done a s' ∧ exec (k a) s' = Done b s''.
Proof. rewrite exec_bind. destruct (exec p s); [eauto|done]. Qed.

Lemma crash_states_bind {A B} (p : prog S A) (k : A → prog S B) s c :
  c ∈ crash_states (bind p k) s →
  c ∈ crash_states p s ∨
  ∃ a s', exec p s = Done a s' ∧ c ∈ crash_states (k a) s'.
Proof.
  revert s; induction p as [a|g IH|f p IH|e]; intros s; simpl; intros Hc.
  - right; eauto.
  - by apply IH.
  - apply elem_of_cons in Hc as [->|Hc]; [left; constructor|].
    destruct (IH _ Hc) as [?|?]; [left; by constructor|by right].
  - by left.
Qed.

Lemma crash_states_start {A} (p : prog S A) s : s ∈ crash_states p s.
Proof. revert s; induction p; intros s; simpl; auto; constructor. Qed.

Lemma crash_states_final {A} (p : prog S A) s a s' :
  exec p s = Done a s' → s' ∈ crash_states p s.
Proof.
  revert s; induction p; intros s; simpl; intros E; simplify_eq; auto;
    [constructor|constructor; auto].
Qed.

Lemma crash_states_bind_l {A B} (p : prog S A) (k : A → prog S B) s c :
  c ∈ crash_states p s → c ∈ crash_states (bind p k) s.
Proof.
  revert s; induction p as [a|g IH|f p IH|e]; intros s; simpl; intros Hc; auto.
  - apply list_elem_of_singleton in Hc as ->. apply crash_states_start.
  - apply elem_of_cons in Hc as [->|Hc]; [constructor|constructor; auto].
Qed.

Lemma crash_states_bind_r {A B} (p : prog S A) (k : A → prog S B) s a s' c :
  exec p s = Done a s' → c ∈ crash_states (k a) s' →
  c ∈ crash_states (bind p k) s.
Proof.
  revert s; induction p as [b|g IH|f p IH|e]; intros s; simpl; intros E Hc;
    simplify_eq; auto. constructor; auto.
Qed.

(** Invariants of every store a program goes through. *)
Definition always {A} (P : S → Prop) (p : prog S A) (s : S) : Prop :=
  ∀ c, c ∈ crash_states p s → P c.

Lemma always_bind {A B} (P : S → Prop) (p : prog S A) (k : A → prog S B) s :
  always P p s →
  (∀ a s', exec p s = Done a s' → always P (k a) s') →
  always P (bind p k) s.
Proof.
  intros Hp Hk c [Hc|(a & s' & E & Hc)]%crash_states_bind; [by apply Hp|].
  by eapply Hk.
Qed.

Lemma always_ret {A} (P : S → Prop) (a : A) s : P s → always P (Ret a) s.
Proof. intros ? c ->%list_elem_of_singleton. done. Qed.

Lemma always_write {A} (P : S → Prop) f (p : prog S A) s :
  P s → always P p (f s) → always P (Write f p) s.
Proof. intros ? Hp c [->|Hc]%elem_of_cons; [done|by apply Hp]. Qed.

Lemma always_read {A} (P : S → Prop) k (s : S) :
  always P (k s : prog S A) s → always P (Read k) s.
Proof. done. Qed.

Lemma always_fail {A} (P : S → Prop) e (s : S) : P s → always P (Fail e : prog S A) s.
Proof. intros ? c ->%list_elem_of_singleton. done. Qed.

Lemma always_final {A} (P : S → Prop) (p : prog S A) s a s' :
  always P p s → exec p s = Done a s' → P s'.
Proof. intros Hp E. eapply Hp, crash_states_final, E. Qed.

Lemma always_start {A} (P : S → Prop) (p : prog S A) s : always P p s → P s.
Proof. intros Hp. apply Hp, crash_states_start. Qed.

Lemma always_impl {A} (P Q : S → Prop) (p : prog S A) s :
  (∀ c, P c → Q c) → always P p s → always Q p s.
Proof. intros HPQ Hp c Hc. by apply HPQ, Hp. Qed.
End prog_lemmas.

(** ** Crash Hoare logic

    [runs I p s Q]: from [s] the program [p] terminates without failure, with a
    result and a store related by [Q]; whenever power fails on the way the store
    satisfies the crash condition [I]. *)

Definition runs {S A} (I : S → Prop) (p : prog S A) (s : S) (Q : A → S → Prop) : Prop :=
  always I p s ∧ ∃ a s', exec p s = Done a s' ∧ Q a s'.

Section runs.
Context {S : Type}.
Implicit Types (s : S) (I : S → Prop).

Lemma runs_ret {A} I (a : A) s (Q : A → S → Prop) : I s → Q a s → runs I (Ret a) s Q.
Proof. intros. split; [by apply always_ret|eauto]. Qed.

Lemma runs_read {A} I k s (Q : A → S → Prop) : runs I (k s) s Q → runs I (Read k) s Q.
Proof. done. Qed.

Lemma runs_write {A} I f (p : prog S A) s (Q : A → S → Prop) :
  I s → runs I p (f s) Q → runs I (Write f p) s Q.
Proof. intros ? [Hal Hex]. split; [by apply always_write|done]. Qed.

Lemma runs_bind {A B} I (p : prog S A) (k : A → prog S B) s (Q : A → S → Prop) (R : B → S → Prop) :
  runs I p s Q → (∀ a s', Q a s' → runs I (k a) s' R) → runs I (bind p k) s R.
Proof.
  intros [Hal (a & s' & E & HQ)] Hk. destruct (Hk _ _ HQ) as [Hal' (b & s'' & E' & HR)]. split.
  - apply always_bind; [done|]. intros a' s1 E1. rewrite E in E1. by simplify_eq.
  - exists b, s''. by rewrite exec_bind, E.
Qed.

Lemma runs_mono {A} I (p : prog S A) s (Q R : A → S → Prop) :
  runs I p s Q → (∀ a s', Q a s' → R a s') → runs I p s R.
Proof. intros [Hal (a & s' & E & HQ)] HR. split; [done|]. exists a, s'. auto. Qed.

Lemma runs_crash {A} I J (p : prog S A) s (Q : A → S → Prop) :
  runs I p s Q → (∀ c, I c → J c) → runs J p s Q.
Proof. intros [Hal ?] HIJ. split; [by eapply always_impl|done]. Qed.

Lemma runs_start {A} I (p : prog S A) s (Q : A → S → Prop) : runs I p s Q → I s.
Proof. intros [Hal _]. by eapply always_start. Qed.

(** A program whose execution is known and whose stores all satisfy [I]. *)
Lemma runs_intro {A} I (p : prog S A) s a s' (Q : A → S → Prop) :
  always I p s → exec p s = Done a s' → Q a s' → runs I p s Q.
Proof. intros. split; eauto. Qed.

(** The result of a program that runs. *)
Lemma runs_exec {A} I (p : prog S A) s (Q : A → S → Prop) :
  runs I p s Q → ∃ a s', exec p s = Done a s' ∧ Q a s'.
Proof. intros [_ ?]. done. Qed.

Lemma runs_always {A} I (p : prog S A) s (Q : A → S → Prop) : runs I p s Q → always I p s.
Proof. by intros [? _]. Qed.

Lemma runs_assert I b s (Q : unit → S → Prop) : b = true → I s → Q tt s → runs I (assert_ b) s Q.
Proof. intros ->. by apply runs_ret. Qed.
End runs.

Create HintDb prog.
#[export] Hint Resolve crash_states_start crash_states_final : prog.
#[export] Hint Resolve always_ret always_fail always_write : prog.

(** Walk through the reads and the trivial ends of a program under [always]. *)
Ltac always_simpl :=
  repeat first
    [ progress cbn
    | apply always_read
    | apply always_ret; solve [eauto]
    | apply always_fail; solve [eauto] ].

(** ** Components inside a larger store

    [Lens S T] says that a store of type [T] has a component of type [S]; a
    program over the component runs inside the larger store by [zoom]. *)

Class Lens (S T : Type) := {
  lget : T → S;
  lset : S → T → T;
}.

Class LensLaws (S T : Type) `{!Lens S T} : Prop := {
  lget_lset : ∀ (s : S) (t : T), lget (lset s t) = s;
  lset_lget : ∀ t : T, lset (lget t) t = t;
  lset_lset : ∀ (s1 s2 : S) (t : T), lset s1 (lset s2 t) = lset s1 t;
}.

Fixpoint zoom {S T A} `{!Lens S T} (p : prog S A) : prog T A :=
  match p with
  | Ret a => Ret a
  | Read k => Read (λ t, zoom (k (lget t)))
  | Write f p' => Write (λ t, lset (f (lget t)) t) (zoom p')
  | Fail e => Fail e
  end.

Section zoom_lemmas.
Context {S T : Type} `{!Lens S T, !LensLaws S T}.

Lemma exec_zoom {A} (p : prog S A) (t : T) :
  exec (zoom p) t =
  match exec p (lget t) with
  | Done a s => Done a (lset s t)
  | Failed e => Failed e
  end.
Proof.
  revert t; induction p as [a|g IH|f p IH|e]; intros t; simpl; auto.
  - by rewrite lset_lget.
  - rewrite IH, lget_lset.
    destruct (exec p (f (lget t))); [by rewrite lset_lset|done].
Qed.

Lemma exec_zoom_done {A} (p : prog S A) (t : T) a s :
  exec p (lget t) = Done a s → exec (zoom p) t = Done a (lset s t).
Proof. intros E. by rewrite exec_zoom, E. Qed.

Lemma crash_states_zoom {A} (p : prog S A) (t : T) :
  crash_states (zoom p) t = (λ s, lset s t) <$> crash_states p (lget t).
Proof.
  revert t; induction p as [a|g IH|f p IH|e]; intros t; simpl; auto.
  - by rewrite lset_lget.
  - rewrite IH, lget_lset, lset_lget. f_equal.
    apply list_fmap_ext; intros i s _. by rewrite lset_lset.
  - by rewrite lset_lget.
Qed.

Lemma always_zoom {A} (P : T → Prop) (p : prog S A) (t : T) :
  always (λ s, P (lset s t)) p (lget t) → always P (zoom p) t.
Proof.
  intros Hp c. rewrite crash_states_zoom.
  intros (s & -> & Hs)%list_elem_of_fmap. by apply Hp.
Qed.

Lemma runs_zoom {A} (I : T → Prop) (p : prog S A) (t : T) (Q : A → T → Prop) :
  runs (λ s, I (lset s t)) p (lget t) (λ a s, Q a (lset s t)) → runs I (zoom p) t Q.
Proof.
  intros [Hal (a & s & E & HQ)]. split; [by apply always_zoom|].
  exists a, (lset s t). split; [by apply exec_zoom_done|done].
Qed.
End zoom_lemmas.

(** ** Lists used as byte arrays and tables *)

Section list_lemmas.
Context {A : Type}.
Implicit Types l k : list A.

(** [slice i n l]: the [n] elements of [l] from index [i]. *)
Definition slice (i n : nat) l : list A := take n (drop i l).

Lemma length_slice i n l : i + n ≤ length l → length (slice i n l) = n.
Proof. intros. unfold slice. rewrite length_take, length_drop. lia. Qed.

Lemma lookup_slice i n l j : j < n → slice i n l !! j = l !! (i + j).
Proof.
  intros. unfold slice. rewrite lookup_take_lt by done. apply lookup_drop.
Qed.

Lemma inserts_slice i n l : i + n ≤ length l → list_inserts i (slice i n l) l = l.
Proof.
  intros Hle. apply list_eq; intros j.
  destruct (decide (i ≤ j < i + n)) as [Hj|Hj].
  - rewrite list_lookup_inserts; rewrite ?length_slice; try lia.
    rewrite lookup_slice by lia. f_equal; lia.
  - destruct (decide (j < i)); [by rewrite list_lookup_inserts_lt|].
    rewrite list_lookup_inserts_ge; [done|]. rewrite length_slice; lia.
Qed.

Lemma slice_inserts i k l :
  i + length k ≤ length l → slice i (length k) (list_inserts i k l) = k.
Proof.
  intros Hle. apply list_eq; intros j.
  destruct (decide (j < length k)) as [Hj|Hj].
  - rewrite lookup_slice by done. rewrite list_lookup_inserts by lia. f_equal; lia.
  - rewrite !lookup_ge_None_2; rewrite ?length_slice; rewrite ?length_inserts; lia || done.
Qed.

Lemma inserts_snoc i k x l :
  list_inserts i (k ++ [x]) l = list_inserts i k (<[i + length k := x]> l).
Proof.
  revert i; induction k as [|y k IH]; intros i; simpl.
  - by rewrite Nat.add_0_r.
  - rewrite IH. do 3 f_equal. lia.
Qed.

Lemma lookup_inserts_full i k l j :
  i + length k ≤ length l →
  list_inserts i k l !! j =
  if decide (i ≤ j < i + length k) then k !! (j - i) else l !! j.
Proof.
  intros Hle. case_decide as Hj.
  - apply list_lookup_inserts; lia.
  - destruct (decide (j < i)); [by rewrite list_lookup_inserts_lt|].
    apply list_lookup_inserts_ge; lia.
Qed.

Lemma inserts_twice i k l :
  i + length k ≤ length l → list_inserts i k (list_inserts i k l) = list_inserts i k l.
Proof.
  intros Hle. apply list_eq; intros j. rewrite !lookup_inserts_full;
    rewrite ?length_inserts; try done. by case_decide.
Qed.

Lemma slice_inserts_ne i n k o l :
  i + n ≤ length l → o + length k ≤ length l → (i + n ≤ o ∨ o + length k ≤ i) →
  slice i n (list_inserts o k l) = slice i n l.
Proof.
  intros H1 H2 Hd. apply list_eq; intros j.
  destruct (decide (j < n)).
  - rewrite !lookup_slice by done. rewrite lookup_inserts_full by done.
    rewrite decide_False by lia. done.
  - rewrite !lookup_ge_None_2; rewrite ?length_slice; rewrite ?length_inserts; lia || done.
Qed.
End list_lemmas.
