(* ===== verification/Arch.v ===== *)
(** * Machine words, target constants and the utilities of [util.rs]

    The width of [usize] is that of the target: 16 bits on the MSP430, 32 on
    the Cortex-M boards, 64 for host tests. Arithmetic wraps, as in the release
    profile the firmware is built with. *)

From S2P Require Import Prelude.

Open Scope Z_scope.

(** The width of [usize] and the build switch [debug_assertions]. *)
Class Arch := {
  word_bits : Z;
  word_bits_cases : word_bits = 16 ∨ word_bits = 32 ∨ word_bits = 64;
  debug_assertions : bool;
}.

Definition msp430 : Arch :=
  {| word_bits := 16; word_bits_cases := or_introl eq_refl; debug_assertions := false |}.
Definition cortex_m : Arch :=
  {| word_bits := 32; word_bits_cases := or_intror (or_introl eq_refl);
     debug_assertions := false |}.
Definition cortex_m_debug : Arch :=
  {| word_bits := 32; word_bits_cases := or_intror (or_introl eq_refl);
     debug_assertions := true |}.

(** The cargo features the modelled code tests. *)
Record features := {
  profile_tx : bool;
  power_failure : bool;
  msp430_use_timerb : bool;
}.

Section words.
Context `{Arch}.

Definition usize_mod : Z := 2 ^ word_bits.
Definition wrap (z : Z) : Z := z mod usize_mod.
Definition uadd (a b : Z) : Z := wrap (a + b).
Definition usub (a b : Z) : Z := wrap (a - b).
Definition umul (a b : Z) : Z := wrap (a * b).
Definition unot (a : Z) : Z := wrap (Z.lnot a).
Definition checked_add (a b : Z) : option Z :=
  if a + b <? usize_mod then Some (a + b) else None.

Definition is_usize (z : Z) : Prop := 0 ≤ z < usize_mod.

(** [size_of::<usize>()], and [ARCH_ALIGN]. *)
Definition usize_bytes : nat := Z.to_nat (word_bits / 8).
Definition ARCH_ALIGN : Z := word_bits / 8.

(** [util.rs]: rounding an address up. *)
Definition align_up (addr align : Z) : Z :=
  Z.land (usub (uadd addr align) 1) (unot (usub align 1)).

Definition arch_addr_align_up (addr : Z) : Z :=
  Z.land (usub (uadd addr ARCH_ALIGN) 1) (unot (usub ARCH_ALIGN 1)).

Lemma word_bits_pos : 0 < word_bits.
Proof. destruct word_bits_cases as [->|[->| ->]]; lia. Qed.

Lemma usize_mod_pos : 0 < usize_mod.
Proof. apply Z.pow_pos_nonneg; pose proof word_bits_pos; lia. Qed.

Lemma wrap_range z : is_usize (wrap z).
Proof. apply Z.mod_pos_bound, usize_mod_pos. Qed.

Lemma wrap_small z : is_usize z → wrap z = z.
Proof. apply Z.mod_small. Qed.

Lemma uadd_small a b : 0 ≤ a + b < usize_mod → uadd a b = a + b.
Proof. apply wrap_small. Qed.

Lemma usub_small a b : 0 ≤ a - b < usize_mod → usub a b = a - b.
Proof. apply wrap_small. Qed.

Lemma usize_mod_ge : 65536 ≤ usize_mod.
Proof. unfold usize_mod. destruct word_bits_cases as [->|[->| ->]]; lia. Qed.

Lemma usize_bytes_cases : usize_bytes = 2%nat ∨ usize_bytes = 4%nat ∨ usize_bytes = 8%nat.
Proof. unfold usize_bytes. destruct word_bits_cases as [->|[->| ->]]; vm_compute; auto. Qed.

Lemma ARCH_ALIGN_usize_bytes : ARCH_ALIGN = Z.of_nat usize_bytes.
Proof.
  unfold ARCH_ALIGN, usize_bytes.
  destruct word_bits_cases as [->|[->| ->]]; done.
Qed.

Lemma usize_mod_bytes : usize_mod = 256 ^ Z.of_nat usize_bytes.
Proof.
  unfold usize_mod, usize_bytes.
  destruct word_bits_cases as [->|[->| ->]]; done.
Qed.

(** Clearing the low bits of a word. *)
Lemma land_unot_ones z k :
  is_usize z → 0 ≤ k < word_bits → Z.land z (unot (2 ^ k - 1)) = 2 ^ k * (z / 2 ^ k).
Proof.
  intros Hz Hk. unfold unot, wrap, usize_mod.
  rewrite <-Z.land_ones by lia. rewrite (Z.land_comm (Z.lnot _)), Z.land_assoc.
  rewrite (Z.land_ones z) by lia. rewrite Z.mod_small by exact Hz.
  rewrite <-Z.ldiff_land.
  replace (2 ^ k - 1) with (Z.ones k) by (rewrite Z.ones_equiv; lia).
  rewrite Z.ldiff_ones_r, Z.shiftl_mul_pow2, Z.shiftr_div_pow2 by lia. lia.
Qed.

Lemma align_up_pow2 addr k :
  0 ≤ k < word_bits → 0 ≤ addr → addr + 2 ^ k ≤ usize_mod - 1 →
  align_up addr (2 ^ k) = 2 ^ k * ((addr + 2 ^ k - 1) / 2 ^ k).
Proof.
  intros Hk Ha Hov. unfold align_up.
  assert (0 < 2 ^ k) by (apply Z.pow_pos_nonneg; lia).
  assert (2 ^ k < usize_mod) by (apply Z.pow_lt_mono_r; lia).
  rewrite uadd_small by lia. rewrite !usub_small by lia.
  apply land_unot_ones; [split; lia|done].
Qed.
End words.

(** ** Little-endian words in byte arrays *)

Fixpoint le_bytes (n : nat) (z : Z) : list Z :=
  match n with
  | O => []
  | S n => z mod 256 :: le_bytes n (z / 256)
  end.

Fixpoint le_value (bs : list Z) : Z :=
  match bs with
  | [] => 0
  | b :: bs => b + 256 * le_value bs
  end.

Lemma length_le_bytes n z : length (le_bytes n z) = n.
Proof. revert z; induction n; intros; simpl; auto. Qed.

Lemma le_value_bytes n z : 0 ≤ z < 256 ^ Z.of_nat n → le_value (le_bytes n z) = z.
Proof.
  revert z; induction n as [|n IH]; intros z Hz; [simpl in *; lia|].
  rewrite Nat2Z.inj_succ, Z.pow_succ_r in Hz by lia. cbn [le_bytes le_value].
  rewrite IH.
  - pose proof (Z.div_mod z 256). lia.
  - split; [apply Z.div_pos; lia|apply Z.div_lt_upper_bound; lia].
Qed.

Definition usize_to_bytes `{Arch} (z : Z) : list Z := le_bytes usize_bytes z.
Definition usize_of_bytes (bs : list Z) : Z := le_value bs.

Lemma length_usize_to_bytes `{Arch} z : length (usize_to_bytes z) = usize_bytes.
Proof. apply length_le_bytes. Qed.

Lemma usize_of_to_bytes `{Arch} z : is_usize z → usize_of_bytes (usize_to_bytes z) = z.
Proof. intros Hz. apply le_value_bytes. rewrite <-usize_mod_bytes. exact Hz. Qed.

(** ** Board constants (board/mod.rs and the boards' own files) *)

Class Board := {
  HEAP_SIZE : Z;
  PM_HEAP_SIZE_PER_TASK : Z;
  PM_HEAP_SIZE : Z;
  BOOT_PM_HEAP_SIZE : Z;
  PM_JOURNAL_SIZE : Z;
  TASK_NUM_LIMIT : nat;
  TX_CACHE_SZ : Z;
}.

Definition qemu : Board := {|
  HEAP_SIZE := 8; PM_HEAP_SIZE_PER_TASK := 800; PM_HEAP_SIZE := 800 * (6 - 1);
  BOOT_PM_HEAP_SIZE := 1024; PM_JOURNAL_SIZE := 1024; TASK_NUM_LIMIT := 6;
  TX_CACHE_SZ := 64;
|}.

Definition msp430fr5994 : Board := {|
  HEAP_SIZE := 2; PM_HEAP_SIZE_PER_TASK := 256; PM_HEAP_SIZE := 512;
  BOOT_PM_HEAP_SIZE := 4; PM_JOURNAL_SIZE := 128; TASK_NUM_LIMIT := 3;
  TX_CACHE_SZ := 32;
|}.

(** ** Theorems *)

(** Rounding an address up to a power of two gives the least multiple of it
    that is not below the address, as long as the sum does not overflow. *)
Theorem align_up_least `{Arch} (addr k : Z) :
  0 ≤ k < word_bits → 0 ≤ addr → addr + 2 ^ k ≤ usize_mod - 1 →
  let r := align_up addr (2 ^ k) in
  (2 ^ k | r) ∧ addr ≤ r ∧ ∀ z, (2 ^ k | z) → addr ≤ z → r ≤ z.
Proof.
  intros Hk Ha Hov r. subst r. rewrite align_up_pow2 by done.
  assert (Hp : 0 < 2 ^ k) by (apply Z.pow_pos_nonneg; lia).
  pose proof (Z.div_mod (addr + 2 ^ k - 1) (2 ^ k)) as Hd.
  pose proof (Z.mod_pos_bound (addr + 2 ^ k - 1) (2 ^ k)) as Hm.
  split_and!; [by apply Z.divide_factor_l|nia|].
  intros z [q ->] Hz. rewrite Z.mul_comm. apply Z.mul_le_mono_nonneg_r; [lia|].
  enough ((addr + 2 ^ k - 1) / 2 ^ k < q + 1) by lia. apply Z.div_lt_upper_bound; nia.
Qed.

Module example.
#[local] Existing Instance cortex_m.

Example align_up_least_witness :
  let r := align_up 13 (2 ^ 3) in (2 ^ 3 | r) ∧ 13 ≤ r ∧ ∀ z, (2 ^ 3 | z) → 13 ≤ z → r ≤ z.
Proof. apply (align_up_least 13 3); vm_compute; intuition congruence. Defined.
End example.
