(* ===== verification/Pmem.v ===== *)
(** * Persistent memory and its undo journal ([pmem.rs])

    Persistent objects live in a byte array addressed by [usize]; the journal is
    the byte buffer of [struct Journal]. Every byte copied and every word stored
    is one atomic write, so a power failure may fall between any two of them. *)

From S2P Require Import Prelude Arch.

Definition JOURNAL_MAGIC : Z := 0xABCD.

Record Journal := {
  magic_header : Z;
  tail : Z;
  logs : list Z;
  magic_footer : Z;
}.

(** The store of this component: the objects' bytes and one journal. *)
Record pmem := {
  bytes : list Z;
  journal : Journal;
}.

Definition set_bytes (f : list Z → list Z) (s : pmem) : pmem :=
  {| bytes := f (bytes s); journal := journal s |}.
Definition set_journal (f : Journal → Journal) (s : pmem) : pmem :=
  {| bytes := bytes s; journal := f (journal s) |}.
Definition set_tail (t : Z) (j : Journal) : Journal :=
  {| magic_header := magic_header j; tail := t; logs := logs j;
     magic_footer := magic_footer j |}.
Definition set_logs (f : list Z → list Z) (j : Journal) : Journal :=
  {| magic_header := magic_header j; tail := tail j; logs := f (logs j);
     magic_footer := magic_footer j |}.

Section journal.
Context `{Arch, Board}.

Definition JOURNAL_SIZE : Z := PM_JOURNAL_SIZE.

(** [Journal::new] *)
Definition journal_new : Journal :=
  {| magic_header := JOURNAL_MAGIC; tail := 0;
     logs := replicate (Z.to_nat JOURNAL_SIZE) 0; magic_footer := JOURNAL_MAGIC |}.

(** [Journal::init] *)
Definition journal_init : prog pmem unit :=
  modify (set_journal (λ j, {| magic_header := magic_header j; tail := tail j;
                               logs := logs j; magic_footer := JOURNAL_MAGIC |}));;;
  modify (set_journal (λ j, {| magic_header := JOURNAL_MAGIC; tail := tail j;
                               logs := logs j; magic_footer := magic_footer j |}));;;
  modify (set_journal (set_tail 0)).

(** [Journal::clear], [Journal::is_empty] *)
Definition journal_clear : prog pmem unit := modify (set_journal (set_tail 0)).
Definition journal_is_empty (j : Journal) : bool := tail j =? 0.

(** [Journal::check_integrity]: a [debug_assert!]. *)
Definition check_integrity : prog pmem unit :=
  let* j := gets journal in
  assert_ (negb debug_assertions ||
           ((magic_footer j =? JOURNAL_MAGIC) && (magic_header j =? JOURNAL_MAGIC))).

(** One byte of persistent memory; an address outside of it is not an object. *)
Definition read_byte (a : Z) : prog pmem Z :=
  let* m := gets bytes in unwrap_unchecked (m !! Z.to_nat a).
Definition write_byte (a b : Z) : prog pmem unit :=
  let* m := gets bytes in
  if decide (Z.to_nat a < length m)%nat then modify (set_bytes (<[Z.to_nat a := b]>))
  else Fail Undefined.
Definition read_log (o : Z) : prog pmem Z :=
  let* j := gets journal in unwrap_unchecked (logs j !! Z.to_nat o).
Definition write_log (o b : Z) : prog pmem unit :=
  let* j := gets journal in
  if decide (Z.to_nat o < length (logs j))%nat
  then modify (set_journal (set_logs (<[Z.to_nat o := b]>)))
  else Fail Undefined.

(** [copy_nonoverlapping] from an object into the log, and back. *)
Fixpoint copy_to_log (n : nat) (src dst : Z) : prog pmem unit :=
  match n with
  | O => skip
  | S n => let* b := read_byte src in
           write_log dst b;;;
           copy_to_log n (src + 1) (dst + 1)
  end.

Fixpoint copy_from_log (n : nat) (src dst : Z) : prog pmem unit :=
  match n with
  | O => skip
  | S n => let* b := read_log src in
           write_byte dst b;;;
           copy_from_log n (src + 1) (dst + 1)
  end.

(** The bounds check of [&self.logs[i]] and the [usize] accesses through it. *)
Definition index_log (i : Z) : prog pmem unit := assert_ (i <? JOURNAL_SIZE).
Definition write_log_usize (o v : Z) : prog pmem unit :=
  index_log o;;;
  let* j := gets journal in
  if decide (Z.to_nat o + usize_bytes ≤ length (logs j))%nat
  then modify (set_journal (set_logs (list_inserts (Z.to_nat o) (usize_to_bytes v))))
  else Fail Undefined.
Definition read_log_usize (o : Z) : prog pmem Z :=
  index_log o;;;
  let* j := gets journal in
  if decide (Z.to_nat o + usize_bytes ≤ length (logs j))%nat
  then Ret (usize_of_bytes (slice (Z.to_nat o) usize_bytes (logs j)))
  else Fail Undefined.

(** [Journal::append_log_of::<T>(obj)], with [obj_sz = size_of::<T>()]. *)
Definition append_log_of (obj obj_sz : Z) : prog pmem unit :=
  let obj_sz_aligned := arch_addr_align_up obj_sz in
  check_integrity;;;
  let record_sz := uadd (uadd obj_sz_aligned ARCH_ALIGN) ARCH_ALIGN in
  let* t := gets (λ s, tail (journal s)) in
  assert_ (uadd t record_sz <=? JOURNAL_SIZE);;;
  index_log t;;;
  copy_to_log (Z.to_nat obj_sz) obj t;;;
  write_log_usize (uadd t obj_sz_aligned) obj;;;
  write_log_usize (uadd (uadd t obj_sz_aligned) ARCH_ALIGN) obj_sz;;;
  modify (set_journal (set_tail (uadd t record_sz))).

(** [Journal::recover]: undo the records from the last to the first. *)
Fixpoint recover_loop (fuel : nat) (ptr : Z) : prog pmem Z :=
  if ptr <=? 0 then Ret ptr else
  match fuel with
  | O => Fail Undefined
  | S fuel =>
      let* size := read_log_usize (usub ptr ARCH_ALIGN) in
      let aligned_size := arch_addr_align_up size in
      let* object_addr := read_log_usize (usub ptr (umul ARCH_ALIGN 2)) in
      let object_log_addr := usub (usub ptr (umul ARCH_ALIGN 2)) aligned_size in
      index_log object_log_addr;;;
      copy_from_log (Z.to_nat size) object_log_addr object_addr;;;
      recover_loop fuel (usub ptr (uadd (umul ARCH_ALIGN 2) aligned_size))
  end.

Definition journal_recover : prog pmem unit :=
  let* ptr := gets (λ s, tail (journal s)) in
  let* ptr := recover_loop (Z.to_nat ptr) ptr in
  assert_ (ptr =? 0);;;
  modify (set_journal (set_tail 0)).

(** Storing an object of [length bs] bytes at [a]. *)
Fixpoint write_bytes (a : Z) (bs : list Z) : prog pmem unit :=
  match bs with
  | [] => skip
  | b :: bs => write_byte a b;;; write_bytes (a + 1) bs
  end.

(** Loading [n] bytes at [a]. *)
Fixpoint read_bytes (a : Z) (n : nat) : prog pmem (list Z) :=
  match n with
  | O => Ret []
  | S n => let* b := read_byte a in
           let* bs := read_bytes (a + 1) n in
           Ret (b :: bs)
  end.

(** [PMPtr::create_log], [PMPtr::as_mut], [PMVar::borrow_mut]: log the object
    and hand out a mutable reference to it, here its address. *)
Definition as_mut (obj obj_sz : Z) : prog pmem Z :=
  append_log_of obj obj_sz;;; Ret obj.

(** [PMVar::set] *)
Definition pmvar_set (var : Z) (new_val : list Z) : prog pmem unit :=
  append_log_of var (Z.of_nat (length new_val));;;
  write_bytes var new_val.
End journal.
