(* ===== verification/PmemSpec.v ===== *)
(** * Undo logging: the abstract journal, and [pmem.rs] against it

    The abstract journal is the list of the byte ranges saved so far with their
    old contents. [log_repr] relates it to the journal's buffer, [undo] is what a
    roll-back must achieve; the theorems say that [append_log_of] adds a record
    atomically and that [recover] performs [undo], also when recovery itself is
    interrupted any number of times. *)

From S2P Require Import Prelude Arch Pmem.

(** ** The abstract undo log *)

Record entry := { e_addr : nat; e_old : list Z }.

Definition restore (e : entry) (m : list Z) : list Z := list_inserts (e_addr e) (e_old e) m.
Definition undo (es : list entry) (m : list Z) : list Z := foldr restore m es.
Definition entry_fits (m : list Z) (e : entry) : Prop :=
  (e_addr e + length (e_old e) ≤ length m)%nat.
Definition covers (e : entry) (a n : nat) : Prop :=
  (e_addr e ≤ a ∧ a + n ≤ e_addr e + length (e_old e))%nat.

Lemma undo_snoc es e m : undo (es ++ [e]) m = undo es (restore e m).
Proof. unfold undo. by rewrite foldr_app. Qed.

Lemma length_restore e m : length (restore e m) = length m.
Proof. apply length_inserts. Qed.

Lemma length_undo es m : length (undo es m) = length m.
Proof. induction es as [|e es IH]; [done|]. simpl. by rewrite length_restore. Qed.

Lemma lookup_restore e m i :
  entry_fits m e →
  restore e m !! i =
  if decide (e_addr e ≤ i < e_addr e + length (e_old e))%nat
  then e_old e !! (i - e_addr e)%nat else m !! i.
Proof. intros. by apply lookup_inserts_full. Qed.

Lemma restore_slice a n m :
  (a + n ≤ length m)%nat → restore {| e_addr := a; e_old := slice a n m |} m = m.
Proof. intros. by apply inserts_slice. Qed.

Lemma undo_agree (R : nat → Prop) es m1 m2 :
  length m1 = length m2 → Forall (entry_fits m1) es →
  (∀ i, ¬ R i → m1 !! i = m2 !! i) → ∀ i, ¬ R i → undo es m1 !! i = undo es m2 !! i.
Proof.
  intros Hlen Hfit Hag. induction Hfit as [|e es He Hes IH]; [done|]. intros i Hi; simpl.
  unfold entry_fits in He. rewrite !lookup_restore.
  - case_decide; auto.
  - unfold entry_fits. rewrite length_undo. lia.
  - unfold entry_fits. rewrite length_undo. done.
Qed.

(** Overwriting a range that the log covers is invisible to a roll-back. *)
Lemma undo_covered es e a bs m :
  Forall (entry_fits m) es → e ∈ es → covers e a (length bs) →
  undo es (list_inserts a bs m) = undo es m.
Proof.
  intros Hfit He [Hc1 Hc2]. induction Hfit as [|e' es He' Hes IH]; [by apply elem_of_nil in He|].
  simpl. apply elem_of_cons in He as [<-|He]; [|by rewrite IH].
  unfold entry_fits in He'. apply list_eq; intros i. rewrite !lookup_restore.
  - case_decide as Hi; [done|].
    apply (undo_agree (λ i, (e_addr e ≤ i < e_addr e + length (e_old e))%nat)); try done.
    + apply length_inserts.
    + eapply Forall_impl; [exact Hes|]. intros e''. unfold entry_fits. by rewrite length_inserts.
    + intros j Hj. rewrite lookup_inserts_full by lia. rewrite decide_False by lia. done.
  - unfold entry_fits. rewrite length_undo. lia.
  - unfold entry_fits. rewrite length_undo, length_inserts. lia.
Qed.

(** ** Representation of the log in the journal's buffer *)

Section repr.
Context `{Arch, Board}.

(** The journal lies in the lower half of the address space, and the size of
    a Rust object is at most [isize::MAX]. *)
Definition board_ok : Prop := 0 ≤ JOURNAL_SIZE ∧ JOURNAL_SIZE + 32 ≤ usize_mod / 2.
Definition is_object (a n : Z) : Prop := 0 ≤ a < usize_mod ∧ 0 ≤ n < usize_mod / 2.

Definition aligned_size (n : nat) : nat :=
  Z.to_nat (arch_addr_align_up (Z.of_nat n)).

Definition entry_ok (e : entry) : Prop :=
  is_object (Z.of_nat (e_addr e)) (Z.of_nat (length (e_old e))).

Definition record_bytes (e : entry) (pad : list Z) : list Z :=
  e_old e ++ pad ++ usize_to_bytes (Z.of_nat (e_addr e)) ++
  usize_to_bytes (Z.of_nat (length (e_old e))).

Inductive log_repr : list Z → list entry → Prop :=
| log_nil : log_repr [] []
| log_snoc l es e pad :
    log_repr l es → entry_ok e →
    (length (e_old e) + length pad = aligned_size (length (e_old e)))%nat →
    log_repr (l ++ record_bytes e pad) (es ++ [e]).

(** [jrepr es j]: the journal [j] holds the records [es]. *)
Definition jrepr (es : list entry) (j : Journal) : Prop :=
  magic_header j = JOURNAL_MAGIC ∧ magic_footer j = JOURNAL_MAGIC ∧
  Z.of_nat (length (logs j)) = JOURNAL_SIZE ∧
  ∃ l rest, logs j = l ++ rest ∧ tail j = Z.of_nat (length l) ∧ log_repr l es.

(** [undoes es m0 s]: rolling [s] back with its records [es] yields [m0]. *)
Definition undoes (es : list entry) (m0 : list Z) (s : pmem) : Prop :=
  jrepr es (journal s) ∧ Forall (entry_fits (bytes s)) es ∧ undo es (bytes s) = m0.

Lemma arch_align_pow2 : ∃ k, ARCH_ALIGN = 2 ^ k ∧ 0 ≤ k < word_bits.
Proof.
  unfold ARCH_ALIGN.
  destruct word_bits_cases as [->|[->| ->]]; [exists 1|exists 2|exists 3]; done.
Qed.

Lemma ARCH_ALIGN_bounds : 2 ≤ ARCH_ALIGN ≤ 8.
Proof. unfold ARCH_ALIGN. destruct word_bits_cases as [->|[->| ->]]; done. Qed.

Lemma usize_half : usize_mod = 2 * (usize_mod / 2) ∧ 32768 ≤ usize_mod / 2.
Proof. unfold usize_mod. destruct word_bits_cases as [->|[->| ->]]; done. Qed.

Lemma arch_addr_align_up_bounds n :
  0 ≤ n → n + 9 ≤ usize_mod → n ≤ arch_addr_align_up n < n + ARCH_ALIGN.
Proof.
  intros Hn Hov. change (arch_addr_align_up n) with (align_up n ARCH_ALIGN).
  destruct arch_align_pow2 as (k & Hk & Hkb). pose proof ARCH_ALIGN_bounds as Hb.
  rewrite Hk in *. rewrite align_up_pow2 by lia.
  pose proof (Z.div_mod (n + 2 ^ k - 1) (2 ^ k)).
  pose proof (Z.mod_pos_bound (n + 2 ^ k - 1) (2 ^ k)). lia.
Qed.

Lemma aligned_size_bounds n :
  Z.of_nat n + 9 ≤ usize_mod → (n ≤ aligned_size n < n + usize_bytes)%nat.
Proof.
  intros Hov. unfold aligned_size.
  pose proof (arch_addr_align_up_bounds (Z.of_nat n)).
  rewrite ARCH_ALIGN_usize_bytes in *. lia.
Qed.

Lemma arch_addr_align_up_nat n :
  Z.of_nat n + 9 ≤ usize_mod → arch_addr_align_up (Z.of_nat n) = Z.of_nat (aligned_size n).
Proof.
  intros. unfold aligned_size. pose proof (arch_addr_align_up_bounds (Z.of_nat n)). lia.
Qed.

Lemma length_record_bytes e pad :
  length (record_bytes e pad) =
  (length (e_old e) + length pad + usize_bytes + usize_bytes)%nat.
Proof. unfold record_bytes. rewrite !length_app, !length_usize_to_bytes. lia. Qed.

Lemma slice_app_mid (a b c : list Z) :
  slice (length a) (length b) (a ++ b ++ c) = b.
Proof.
  unfold slice. rewrite drop_app_length. apply take_app_length.
Qed.
End repr.

(** ** Word and range accesses of the log buffer *)

Section accesses.
Context `{Arch, Board}.

Lemma exec_index_log s o :
  (Z.of_nat o < JOURNAL_SIZE) → exec (index_log (Z.of_nat o)) s = Done tt s.
Proof. intros. unfold index_log. by rewrite (proj2 (Z.ltb_lt _ _)). Qed.

Lemma exec_read_log_usize s a v c :
  logs (journal s) = a ++ usize_to_bytes v ++ c → is_usize v →
  Z.of_nat (length (logs (journal s))) = JOURNAL_SIZE →
  exec (read_log_usize (Z.of_nat (length a))) s = Done v s.
Proof.
  intros Hl Hv Hlen. unfold read_log_usize.
  assert (Hle : (length a + usize_bytes ≤ length (logs (journal s)))%nat).
  { rewrite Hl, !length_app, length_usize_to_bytes. lia. }
  pose proof usize_bytes_cases.
  erewrite exec_bind_done; [|apply exec_index_log; lia]. cbn.
  rewrite Nat2Z.id, decide_True by done. cbn. rewrite Hl.
  rewrite <-(length_usize_to_bytes v), slice_app_mid. by rewrite usize_of_to_bytes.
Qed.

Lemma exec_write_log_usize s o v :
  (o + usize_bytes ≤ length (logs (journal s)))%nat →
  Z.of_nat (length (logs (journal s))) = JOURNAL_SIZE →
  exec (write_log_usize (Z.of_nat o) v) s =
  Done tt (set_journal (set_logs (list_inserts o (usize_to_bytes v))) s).
Proof.
  intros Hle Hlen. unfold write_log_usize. pose proof usize_bytes_cases.
  erewrite exec_bind_done; [|apply exec_index_log; lia]. cbn.
  by rewrite Nat2Z.id, decide_True by done.
Qed.

Lemma exec_copy_from_log n s src dst :
  (src + n ≤ length (logs (journal s)))%nat → (dst + n ≤ length (bytes s))%nat →
  exec (copy_from_log n (Z.of_nat src) (Z.of_nat dst)) s =
  Done tt (set_bytes (list_inserts dst (slice src n (logs (journal s)))) s).
Proof.
  revert s src dst; induction n as [|n IH]; intros s src dst Hs Hd.
  { by destruct s. }
  destruct (lookup_lt_is_Some_2 (logs (journal s)) src) as [b Hb]; [lia|].
  cbn. rewrite Nat2Z.id, Hb. cbn. rewrite Nat2Z.id, decide_True by lia. cbn.
  replace (Z.of_nat src + 1) with (Z.of_nat (S src)) by lia.
  replace (Z.of_nat dst + 1) with (Z.of_nat (S dst)) by lia.
  rewrite IH by (cbn; rewrite ?length_insert; lia). f_equal. unfold set_bytes; cbn.
  f_equal. rewrite <-list_insert_inserts_lt by lia.
  unfold slice. erewrite (drop_S _ b src) by done. done.
Qed.

Lemma exec_copy_to_log n s src dst :
  (src + n ≤ length (bytes s))%nat → (dst + n ≤ length (logs (journal s)))%nat →
  exec (copy_to_log n (Z.of_nat src) (Z.of_nat dst)) s =
  Done tt (set_journal (set_logs (list_inserts dst (slice src n (bytes s)))) s).
Proof.
  revert s src dst; induction n as [|n IH]; intros s src dst Hs Hd.
  { by destruct s as [? []]. }
  destruct (lookup_lt_is_Some_2 (bytes s) src) as [b Hb]; [lia|].
  cbn. rewrite Nat2Z.id, Hb. cbn. rewrite Nat2Z.id, decide_True by lia. cbn.
  replace (Z.of_nat src + 1) with (Z.of_nat (S src)) by lia.
  replace (Z.of_nat dst + 1) with (Z.of_nat (S dst)) by lia.
  rewrite IH by (cbn; rewrite ?length_insert; lia). f_equal.
  unfold set_journal, set_logs; cbn. f_equal. f_equal.
  rewrite <-list_insert_inserts_lt by lia.
  unfold slice. erewrite (drop_S _ b src) by done. done.
Qed.

(** Every store during a copy back has a prefix of the copied range in place. *)
Lemma always_copy_from_log (P : pmem → Prop) n s src dst :
  (∀ bs, (length bs ≤ n)%nat → P (set_bytes (list_inserts dst bs) s)) →
  always P (copy_from_log n (Z.of_nat src) (Z.of_nat dst)) s.
Proof.
  revert s src dst; induction n as [|n IH]; intros s src dst HP.
  { apply always_ret. destruct s. apply (HP []). done. }
  assert (HP0 : P s) by (destruct s; by apply (HP []); simpl; lia).
  always_simpl. destruct (logs (journal s) !! Z.to_nat (Z.of_nat src)) as [b|]; always_simpl.
  case_decide; always_simpl. apply always_write; [done|]. cbn.
  replace (Z.of_nat src + 1) with (Z.of_nat (S src)) by lia.
  replace (Z.of_nat dst + 1) with (Z.of_nat (S dst)) by lia.
  apply IH. intros bs Hbs. specialize (HP (b :: bs)). rewrite Nat2Z.id.
  unfold set_bytes in *; cbn in *. rewrite <-list_insert_inserts_lt by lia. apply HP. lia.
Qed.
End accesses.

(** ** [append_log_of] *)

Section append.
Context `{Arch, Board} (Hboard : board_ok).

(** A store in which the journal's records are still those of [s]. *)
Definition same_records (es : list entry) (s c : pmem) : Prop :=
  bytes c = bytes s ∧ tail (journal c) = tail (journal s) ∧ jrepr es (journal c).

Lemma jrepr_write es j o bs :
  jrepr es j → tail j ≤ Z.of_nat o → jrepr es (set_logs (list_inserts o bs) j).
Proof.
  intros (Hh & Hf & Hlen & l & rest & Hl & Ht & Hr) Ho.
  split_and!; [done..|cbn; by rewrite length_inserts|].
  exists l, (list_inserts (o - length l) bs rest). split_and!; [|done..].
  cbn. rewrite Hl. replace o with (length l + (o - length l))%nat at 1 by lia.
  apply list_inserts_app_r.
Qed.

Lemma same_records_write es s c o bs :
  same_records es s c → tail (journal s) ≤ Z.of_nat o →
  same_records es s (set_journal (set_logs (list_inserts o bs)) c).
Proof.
  intros (Hb & Ht & Hj) Ho. split_and!; [done..|]. apply jrepr_write; [done|lia].
Qed.

Lemma always_copy_to_log es s0 n s src dst :
  same_records es s0 s → tail (journal s0) ≤ Z.of_nat dst →
  always (same_records es s0) (copy_to_log n src (Z.of_nat dst)) s.
Proof.
  revert s src dst; induction n as [|n IH]; intros s src dst Hs Hd; [by apply always_ret|].
  always_simpl. destruct (bytes s !! Z.to_nat src) as [b|]; always_simpl.
  case_decide; always_simpl. apply always_write; [done|]. cbn.
  replace (Z.of_nat dst + 1) with (Z.of_nat (S dst)) by lia.
  apply IH; [|lia]. rewrite Nat2Z.id. by apply (same_records_write _ _ _ dst [b]).
Qed.

Lemma always_write_log_usize es s0 s o v :
  same_records es s0 s → tail (journal s0) ≤ Z.of_nat o →
  always (same_records es s0) (write_log_usize (Z.of_nat o) v) s.
Proof.
  intros Hs Ho. unfold write_log_usize, index_log, assert_.
  destruct (_ <? _); always_simpl. case_decide; always_simpl.
  apply always_write; [done|]. apply always_ret. rewrite Nat2Z.id.
  by apply same_records_write.
Qed.

Lemma log_repr_length l es : log_repr l es → (length es ≤ length l)%nat.
Proof.
  induction 1; [done|]. rewrite !length_app, length_record_bytes. simpl.
  pose proof usize_bytes_cases. lia.
Qed.

(** Writing a record just past the tail extends the log. *)
Lemma log_repr_extend (l rest : list Z) es e :
  log_repr l es → entry_ok e →
  (aligned_size (length (e_old e)) + usize_bytes + usize_bytes ≤ length rest)%nat →
  (length (e_old e) ≤ aligned_size (length (e_old e)))%nat →
  ∃ l' rest',
    list_inserts (length l + aligned_size (length (e_old e)) + usize_bytes)
      (usize_to_bytes (Z.of_nat (length (e_old e))))
      (list_inserts (length l + aligned_size (length (e_old e)))
         (usize_to_bytes (Z.of_nat (e_addr e)))
         (list_inserts (length l) (e_old e) (l ++ rest))) = l' ++ rest' ∧
    length l' = (length l + (aligned_size (length (e_old e)) + usize_bytes + usize_bytes))%nat ∧
    log_repr l' (es ++ [e]).
Proof.
  intros Hl He Hlen Hle. set (al := aligned_size (length (e_old e))) in *.
  destruct e as [a old]; cbn in *.
  set (A := usize_to_bytes (Z.of_nat a)). set (B := usize_to_bytes (Z.of_nat (length old))).
  assert (HA : length A = usize_bytes) by apply length_usize_to_bytes.
  assert (HB : length B = usize_bytes) by apply length_usize_to_bytes.
  rewrite <-(take_drop (length old) rest).
  set (r1 := take (length old) rest). set (r2 := drop (length old) rest).
  assert (Hr1 : length r1 = length old) by (unfold r1; rewrite length_take; lia).
  assert (Hr2 : length r2 = (length rest - length old)%nat) by apply length_drop.
  rewrite <-(take_drop (al - length old) r2).
  set (pad := take (al - length old) r2). set (r3 := drop (al - length old) r2).
  assert (Hpad : length pad = (al - length old)%nat) by (unfold pad; rewrite length_take; lia).
  assert (Hr3 : (usize_bytes + usize_bytes ≤ length r3)%nat)
    by (unfold r3; rewrite length_drop; lia).
  rewrite <-(take_drop usize_bytes r3), <-(take_drop usize_bytes (drop usize_bytes r3)).
  set (q1 := take usize_bytes r3). set (q2 := take usize_bytes (drop usize_bytes r3)).
  set (q3 := drop usize_bytes (drop usize_bytes r3)).
  assert (Hq1 : length q1 = usize_bytes) by (unfold q1; rewrite length_take; lia).
  assert (Hq2 : length q2 = usize_bytes)
    by (unfold q2; rewrite length_take, length_drop; lia).
  exists (l ++ record_bytes {| e_addr := a; e_old := old |} pad), q3. split_and!.
  - rewrite <-(Nat.add_0_r (length l)) at 3. rewrite list_inserts_app_r.
    rewrite (list_inserts_0_r old r1) by done.
    replace (length l + al)%nat with (length (l ++ old ++ pad) + 0)%nat
      by (rewrite !length_app; lia).
    replace (l ++ old ++ pad ++ q1 ++ q2 ++ q3) with ((l ++ old ++ pad) ++ q1 ++ q2 ++ q3)
      by (by rewrite !(assoc_L app)).
    rewrite list_inserts_app_r, (list_inserts_0_r A q1) by lia.
    replace (length (l ++ old ++ pad) + 0 + usize_bytes)%nat
      with (length ((l ++ old ++ pad) ++ A) + 0)%nat by (rewrite length_app; lia).
    rewrite (assoc_L app _ A). rewrite list_inserts_app_r, (list_inserts_0_r B q2) by lia.
    unfold record_bytes; cbn. fold A B. by rewrite !(assoc_L app).
  - rewrite length_app, length_record_bytes. cbn. lia.
  - apply log_snoc; [done..|cbn; lia].
Qed.
End append.

Section append_log_of.
Context `{Arch, Board} (Hboard : board_ok).

Definition record_size (n : nat) : nat := (aligned_size n + usize_bytes + usize_bytes)%nat.

(** None of the index computations of [append_log_of] wraps. *)
Lemma append_arith t n :
  Z.of_nat t ≤ JOURNAL_SIZE → Z.of_nat n < usize_mod / 2 →
  uadd (uadd (arch_addr_align_up (Z.of_nat n)) ARCH_ALIGN) ARCH_ALIGN
    = Z.of_nat (record_size n) ∧
  uadd (Z.of_nat t) (Z.of_nat (record_size n)) = Z.of_nat (t + record_size n) ∧
  uadd (Z.of_nat t) (arch_addr_align_up (Z.of_nat n)) = Z.of_nat (t + aligned_size n) ∧
  uadd (Z.of_nat (t + aligned_size n)) ARCH_ALIGN
    = Z.of_nat (t + aligned_size n + usize_bytes).
Proof.
  intros Ht Hn. destruct Hboard as [? Hb]. destruct usize_half as [Hm Hh].
  pose proof (aligned_size_bounds n). rewrite arch_addr_align_up_nat by lia.
  pose proof ARCH_ALIGN_bounds as Ha. rewrite ARCH_ALIGN_usize_bytes in *.
  unfold record_size. rewrite !uadd_small; rewrite ?uadd_small; lia.
Qed.

Lemma jrepr_tail es j : jrepr es j → ∃ t : nat, tail j = Z.of_nat t ∧ Z.of_nat t ≤ JOURNAL_SIZE.
Proof.
  intros (_ & _ & Hlen & l & rest & Hl & Ht & _). exists (length l). split; [done|].
  rewrite Hl, length_app in Hlen. lia.
Qed.

Lemma exec_check_integrity es s : jrepr es (journal s) → exec check_integrity s = Done tt s.
Proof.
  intros (Hh & Hf & _). unfold check_integrity. cbn. rewrite Hh, Hf, !Z.eqb_refl.
  by rewrite orb_true_r.
Qed.

(** The body of [append_log_of] once its assertion holds: the words it stores
    and the store it ends in. *)
Lemma append_log_of_spec es m0 s a n :
  undoes es m0 s → is_object (Z.of_nat a) (Z.of_nat n) → (a + n ≤ length (bytes s))%nat →
  tail (journal s) + Z.of_nat (record_size n) ≤ JOURNAL_SIZE →
  ∃ s', exec (append_log_of (Z.of_nat a) (Z.of_nat n)) s = Done tt s' ∧
    bytes s' = bytes s ∧ tail (journal s') = tail (journal s) + Z.of_nat (record_size n) ∧
    undoes (es ++ [{| e_addr := a; e_old := slice a n (bytes s) |}]) m0 s'.
Proof.
  intros (Hj & Hfit & Hundo) [Ha Hn] Hin Hspace.
  pose proof Hj as (Hh & Hf & Hlen & l & rest & Hl & Ht & Hr).
  pose proof (log_repr_extend l rest es {| e_addr := a; e_old := slice a n (bytes s) |} Hr)
    as Hext.
  cbn in Hext. rewrite length_slice in Hext by done.
  destruct usize_half as [Hm Hhalf].
  assert (HLl : (length (logs (journal s)) = length l + length rest)%nat)
    by (rewrite Hl; apply length_app).
  destruct (append_arith (length l) n) as (E1 & E2 & E3 & E4); [lia..|].
  pose proof (aligned_size_bounds n). unfold record_size in *.
  destruct Hext as (l' & rest' & Hext & Hl' & Hr');
    [by split; cbn; rewrite ?length_slice|lia|lia|].
  pose proof usize_bytes_cases.
  unfold append_log_of. cbv zeta.
  erewrite exec_bind_done; [|by eapply exec_check_integrity].
  rewrite E1. cbn [bind gets exec]. rewrite Ht, E2, E3, E4.
  unfold assert_ at 1. rewrite (proj2 (Z.leb_le _ _)) by lia. cbn [bind skip exec].
  erewrite exec_bind_done; [|apply exec_index_log; lia].
  erewrite exec_bind_done; [|rewrite Nat2Z.id; apply exec_copy_to_log; lia].
  erewrite exec_bind_done;
    [|apply exec_write_log_usize; cbn; rewrite ?length_inserts; lia].
  erewrite exec_bind_done;
    [|apply exec_write_log_usize; cbn; rewrite ?length_inserts; lia].
  eexists; split; [reflexivity|]. cbn. split_and!; [done|lia|].
  split_and!.
  - split_and!; [done|done|cbn; rewrite !length_inserts; lia|].
    exists l', rest'. cbn. split_and!; [|lia|done]. by rewrite Hl.
  - apply Forall_app; split; [done|]. constructor; [|done].
    unfold entry_fits; cbn. rewrite length_slice; lia.
  - cbn. by rewrite undo_snoc, restore_slice.
Qed.

Lemma always_index_log P s o : P s → always P (index_log o) s.
Proof. intros. unfold index_log, assert_. destruct (_ <? _); by always_simpl. Qed.

Lemma always_check_integrity P s : P s → always P check_integrity s.
Proof. intros. unfold check_integrity, assert_. always_simpl. destruct (_ || _); by always_simpl. Qed.

(** Every store [append_log_of] goes through rolls back to the same contents. *)
Lemma append_log_of_always es m0 s a n :
  undoes es m0 s → is_object (Z.of_nat a) (Z.of_nat n) → (a + n ≤ length (bytes s))%nat →
  always (λ c, ∃ es', undoes (es ++ es') m0 c) (append_log_of (Z.of_nat a) (Z.of_nat n)) s.
Proof.
  intros Hu Hobj Hin. pose proof Hu as (Hj & Hfit & Hundo).
  destruct (jrepr_tail es _ Hj) as (t & Ht & Htle).
  destruct (append_arith t n) as (E1 & E2 & E3 & E4); [lia|apply Hobj|].
  assert (Hsame : ∀ c, same_records es s c → ∃ es', undoes (es ++ es') m0 c).
  { intros c (Hb & _ & Hjc). exists []. rewrite app_nil_r. unfold undoes. by rewrite Hb. }
  assert (Hs0 : same_records es s s) by done.
  destruct (Z.leb_spec (Z.of_nat (t + record_size n)) JOURNAL_SIZE) as [Hfits|Hfull].
  - destruct (append_log_of_spec es m0 s a n) as (s' & Hex & _ & _ & Hs'); [done..|lia|].
    revert Hex. unfold append_log_of. cbv zeta. rewrite E1. intros Hex.
    apply always_bind; [apply always_check_integrity; eauto|].
    intros [] s1 Hs1. erewrite exec_bind_done in Hex by exact Hs1.
    erewrite exec_check_integrity in Hs1 by done. simplify_eq. revert Hex.
    cbn [bind gets exec]. rewrite Ht, E2, E3, E4. intros Hex. apply always_read. cbn [bind].
    rewrite Ht, E2, E3, E4. unfold assert_ in *.
    rewrite (proj2 (Z.leb_le _ _)) in * by done. cbn [bind skip exec] in *.
    apply always_bind; [apply always_index_log; eauto|]. intros [] s2 Hs2.
    erewrite exec_bind_done in Hex by exact Hs2.
    assert (s2 = s1) as -> by (unfold index_log, assert_ in Hs2; destruct (_ <? _); by simplify_eq/=).
    assert (Hc : always (same_records es s1) (copy_to_log (Z.to_nat (Z.of_nat n)) (Z.of_nat a)
                   (Z.of_nat t)) s1) by (apply always_copy_to_log; [done|lia]).
    apply always_bind; [by eapply always_impl|]. intros [] s3 Hs3.
    erewrite exec_bind_done in Hex by exact Hs3. apply always_final with (2 := Hs3) in Hc.
    clear Hs2 Hs3.
    assert (Hw : always (same_records es s1) (write_log_usize (Z.of_nat (t + aligned_size n))
                   (Z.of_nat a)) s3) by (apply always_write_log_usize; [done|lia]).
    apply always_bind; [by eapply always_impl|]. intros [] s4 Hs4.
    erewrite exec_bind_done in Hex by exact Hs4. apply always_final with (2 := Hs4) in Hw.
    assert (Hw' : always (same_records es s1) (write_log_usize
                   (Z.of_nat (t + aligned_size n + usize_bytes)) (Z.of_nat n)) s4)
      by (apply always_write_log_usize; [done|lia]).
    apply always_bind; [by eapply always_impl|]. intros [] s5 Hs5.
    erewrite exec_bind_done in Hex by exact Hs5. apply always_final with (2 := Hs5) in Hw'.
    apply always_write; [by apply Hsame|]. apply always_ret.
    cbn in Hex. simplify_eq. eauto.
  - unfold append_log_of. cbv zeta. rewrite E1.
    apply always_bind; [apply always_check_integrity; eauto|].
    intros [] s1 Hs1. erewrite exec_check_integrity in Hs1 by done. simplify_eq.
    apply always_read. cbn [bind]. rewrite Ht, E2. unfold assert_ at 1.
    rewrite (proj2 (Z.leb_gt _ _)) by done. apply always_fail. eauto.
Qed.
End append_log_of.

(** ** [recover] *)

Section recover.
Context `{Arch, Board} (Hboard : board_ok).

Lemma recover_arith k al :
  Z.of_nat (k + al + usize_bytes + usize_bytes) ≤ JOURNAL_SIZE →
  let ptr := Z.of_nat (k + al + usize_bytes + usize_bytes) in
  usub ptr ARCH_ALIGN = Z.of_nat (k + al + usize_bytes) ∧
  usub ptr (umul ARCH_ALIGN 2) = Z.of_nat (k + al) ∧
  usub (Z.of_nat (k + al)) (Z.of_nat al) = Z.of_nat k ∧
  usub ptr (uadd (umul ARCH_ALIGN 2) (Z.of_nat al)) = Z.of_nat k.
Proof.
  intros Hle ptr. destruct Hboard as [? Hb]. destruct usize_half as [Hm Hh].
  pose proof ARCH_ALIGN_bounds as Ha. unfold ptr. rewrite ARCH_ALIGN_usize_bytes in *.
  unfold umul. rewrite (wrap_small (_ * 2)) by (split; lia).
  rewrite uadd_small by lia. rewrite !usub_small by lia. lia.
Qed.

(** One iteration of the loop on the last record of the log. *)
Lemma recover_loop_step fuel s l0 e pad rest :
  logs (journal s) = (l0 ++ record_bytes e pad) ++ rest →
  Z.of_nat (length (logs (journal s))) = JOURNAL_SIZE → entry_ok e →
  (length (e_old e) + length pad = aligned_size (length (e_old e)))%nat →
  entry_fits (bytes s) e →
  ∃ p : prog pmem unit,
    exec (recover_loop (S fuel) (Z.of_nat (length (l0 ++ record_bytes e pad)))) s =
    exec (p;;; recover_loop fuel (Z.of_nat (length l0))) s ∧
    (∀ P, always P (p;;; recover_loop fuel (Z.of_nat (length l0))) s →
          always P (recover_loop (S fuel) (Z.of_nat (length (l0 ++ record_bytes e pad)))) s) ∧
    exec p s = Done tt (set_bytes (restore e) s) ∧
    (∀ P : pmem → Prop,
       (∀ bs, (length bs ≤ length (e_old e))%nat →
              P (set_bytes (list_inserts (e_addr e) bs) s)) → always P p s).
Proof.
  intros Hlogs Hlen [[He1 He2] [He3 He4]] Hpad Hfit.
  set (al := aligned_size (length (e_old e))) in *. destruct usize_half as [Hm Hh].
  set (ptr := Z.of_nat (length (l0 ++ record_bytes e pad))).
  assert (Hptr : ptr = Z.of_nat (length l0 + al + usize_bytes + usize_bytes))
    by (unfold ptr; rewrite length_app, length_record_bytes; lia).
  pose proof usize_bytes_cases.
  destruct (recover_arith (length l0) al) as (E1 & E2 & E3 & E4).
  { rewrite <-Hptr. unfold ptr. rewrite Hlogs, length_app in Hlen. lia. }
  rewrite <-Hptr in *. set (v := Z.of_nat (length (e_old e))) in *.
  set (A := usize_to_bytes (Z.of_nat (e_addr e))).
  assert (HA : length A = usize_bytes) by apply length_usize_to_bytes.
  assert (R1 : exec (read_log_usize (usub ptr ARCH_ALIGN)) s = Done v s).
  { rewrite E1. replace (length l0 + al + usize_bytes)%nat
      with (length (l0 ++ e_old e ++ pad ++ A)) by (rewrite !length_app; lia).
    apply exec_read_log_usize with (c := rest); [|split; lia|done].
    rewrite Hlogs. unfold record_bytes. fold A v. by rewrite !(assoc_L app). }
  assert (R2 : exec (read_log_usize (usub ptr (umul ARCH_ALIGN 2))) s
               = Done (Z.of_nat (e_addr e)) s).
  { rewrite E2. replace (length l0 + al)%nat
      with (length (l0 ++ e_old e ++ pad)) by (rewrite !length_app; lia).
    apply exec_read_log_usize with (c := usize_to_bytes v ++ rest); [|done|done].
    rewrite Hlogs. unfold record_bytes. fold A v. by rewrite !(assoc_L app). }
  assert (Hal : arch_addr_align_up v = Z.of_nat al) by (apply arch_addr_align_up_nat; lia).
  assert (Hidx : exec (index_log (Z.of_nat (length l0))) s = Done tt s).
  { apply exec_index_log. rewrite Hlogs, !length_app, length_record_bytes in Hlen. lia. }
  exists (copy_from_log (length (e_old e)) (Z.of_nat (length l0)) (Z.of_nat (e_addr e))).
  assert (Hpos : (ptr <=? 0) = false) by (apply Z.leb_gt; lia).
  cbn [recover_loop]. rewrite Hpos. split_and!.
  - erewrite exec_bind_done by exact R1. cbv zeta. erewrite exec_bind_done by exact R2.
    rewrite Hal, E4, E2, E3. erewrite exec_bind_done by exact Hidx. unfold v. by rewrite Nat2Z.id.
  - intros P HP. pose proof (always_start _ _ _ HP) as HP0.
    assert (Hrd : ∀ o, always P (read_log_usize o) s).
    { intros o. unfold read_log_usize, index_log, assert_. destruct (_ <? _); always_simpl.
      case_decide; always_simpl. }
    apply always_bind; [done|]. intros ? ? Hr1. rewrite R1 in Hr1. simplify_eq.
    cbv zeta. apply always_bind; [done|]. intros ? ? Hr2. rewrite R2 in Hr2. simplify_eq.
    rewrite Hal, E4, E2, E3. apply always_bind; [by apply always_index_log|].
    intros ? ? Hr3. rewrite Hidx in Hr3. simplify_eq. by rewrite Nat2Z.id.
  - rewrite exec_copy_from_log; [|rewrite Hlogs, !length_app, length_record_bytes; lia|done].
    do 2 f_equal. unfold restore. rewrite Hlogs. unfold record_bytes.
    rewrite <-!(assoc_L app). by rewrite slice_app_mid.
  - intros P HP. by apply always_copy_from_log.
Qed.

Lemma exec_recover_loop l es : log_repr l es → ∀ fuel s rest,
  logs (journal s) = l ++ rest → Z.of_nat (length (logs (journal s))) = JOURNAL_SIZE →
  Forall (entry_fits (bytes s)) es → (length es ≤ fuel)%nat →
  exec (recover_loop fuel (Z.of_nat (length l))) s = Done 0 (set_bytes (undo es) s).
Proof.
  induction 1 as [|l es e pad Hl IH He Hpad]; intros fuel s rest Hlogs Hlen Hfit Hfuel.
  { destruct fuel; by destruct s. }
  apply Forall_app in Hfit as [Hfit [Hfe _]%Forall_cons].
  rewrite length_app in Hfuel; cbn in Hfuel. destruct fuel as [|fuel]; [lia|].
  edestruct recover_loop_step as (p & Heq & _ & Hp & _); [done..|].
  rewrite Heq. erewrite exec_bind_done by exact Hp.
  erewrite (IH _ _ (record_bytes e pad ++ rest)); [|cbn; by rewrite Hlogs, (assoc_L app)|done| |lia].
  - unfold set_bytes; cbn. by rewrite undo_snoc.
  - eapply Forall_impl; [exact Hfit|]. intros e'. unfold entry_fits; cbn.
    by rewrite length_restore.
Qed.

(** The stores a roll-back goes through all roll back to the same contents. *)
Definition rolling (es : list entry) (s0 c : pmem) : Prop :=
  journal c = journal s0 ∧ length (bytes c) = length (bytes s0) ∧
  undo es (bytes c) = undo es (bytes s0).

Lemma rolling_write es s0 c e bs :
  rolling es s0 c → Forall (entry_fits (bytes s0)) es → e ∈ es →
  (length bs ≤ length (e_old e))%nat →
  rolling es s0 (set_bytes (list_inserts (e_addr e) bs) c).
Proof.
  intros (Hj & Hlen & Hu) Hfit He Hbs. split_and!; [done|cbn; by rewrite length_inserts|].
  cbn. rewrite (undo_covered _ e); [done| |done|split; lia].
  eapply Forall_impl; [exact Hfit|]. intros e'. unfold entry_fits. lia.
Qed.

Lemma always_recover_loop s0 all l es : log_repr l es → ∀ fuel s rest,
  logs (journal s) = l ++ rest → Z.of_nat (length (logs (journal s))) = JOURNAL_SIZE →
  Forall (entry_fits (bytes s0)) all → (∀ e, e ∈ es → e ∈ all) → rolling all s0 s →
  always (rolling all s0) (recover_loop fuel (Z.of_nat (length l))) s.
Proof.
  induction 1 as [|l es e pad Hl IH He Hpad]; intros fuel s rest Hlogs Hlen Hfit Hsub Hs.
  { destruct fuel; by apply always_ret. }
  destruct fuel as [|fuel].
  { unfold recover_loop. destruct (_ <=? _); by always_simpl. }
  assert (Hin : e ∈ all) by (apply Hsub, elem_of_app; right; constructor).
  assert (Hfe : entry_fits (bytes s) e).
  { rewrite Forall_forall in Hfit. destruct Hs as (_ & Hsl & _).
    unfold entry_fits in *. rewrite Hsl. by apply Hfit. }
  edestruct recover_loop_step as (p & _ & Hal & Hp & HpP); [done..|].
  apply Hal, always_bind.
  - apply HpP. intros bs Hbs. by apply rolling_write.
  - intros [] s' Hs'. rewrite Hp in Hs'. simplify_eq.
    apply (IH _ _ (record_bytes e pad ++ rest)); [cbn; by rewrite Hlogs, (assoc_L app)|done|done| |].
    + intros e1 He1. apply Hsub, elem_of_app. by left.
    + by apply rolling_write.
Qed.
End recover.

(** ** What the journal promises to its clients *)

Section contract.
Context `{Arch, Board} (Hboard : board_ok).

Lemma jrepr_empty es j : jrepr es j → jrepr [] (set_tail 0 j).
Proof.
  intros (Hh & Hf & Hlen & l & rest & Hl & Ht & _). split_and!; [done..|].
  exists [], (l ++ rest). split_and!; [done..|constructor].
Qed.

Lemma undoes_empty m j es : jrepr es j → undoes [] m {| bytes := m; journal := set_tail 0 j |}.
Proof. intros Hj. split_and!; [by eapply jrepr_empty|done..]. Qed.

Lemma jrepr_new : jrepr [] journal_new.
Proof.
  destruct Hboard as [HJ _]. split_and!; [done..|cbn; rewrite length_replicate; lia|].
  exists [], (logs journal_new). split_and!; [done..|constructor].
Qed.

Lemma undoes_length es m0 s : undoes es m0 s → length m0 = length (bytes s).
Proof. intros (_ & _ & <-). apply length_undo. Qed.

Lemma exec_journal_recover es m0 s :
  undoes es m0 s →
  exec journal_recover s = Done tt {| bytes := m0; journal := set_tail 0 (journal s) |}.
Proof.
  intros ((_ & _ & Hlen & l & rest & Hl & Ht & Hr) & Hfit & <-).
  unfold journal_recover. cbn [gets bind exec]. rewrite Ht, Nat2Z.id.
  erewrite exec_bind_done by (by eapply exec_recover_loop; eauto using log_repr_length). done.
Qed.

(** Every store of a recovery still rolls back to the same memory, and its
    journal holds the same bytes. *)
Lemma journal_recover_runs es m0 s :
  undoes es m0 s →
  runs (λ c, ∃ es', undoes es' m0 c ∧ set_tail 0 (journal c) = set_tail 0 (journal s))
    journal_recover s (λ _ s', s' = {| bytes := m0; journal := set_tail 0 (journal s) |}).
Proof.
  intros Hu. pose proof (exec_journal_recover _ _ _ Hu) as Hex.
  eapply runs_intro; [|exact Hex|done].
  pose proof Hu as (Hj & Hfit & Hm).
  pose proof Hj as (_ & _ & Hlen & l & rest & Hl & Ht & Hr).
  assert (Hroll : ∀ c, rolling es s c →
    ∃ es', undoes es' m0 c ∧ set_tail 0 (journal c) = set_tail 0 (journal s)).
  { intros c' (Hj' & Hlen' & Hu'). exists es. rewrite Hj'. split; [|done].
    split_and!; [by rewrite Hj'| |congruence].
    eapply Forall_impl; [exact Hfit|]. intros e. unfold entry_fits. by rewrite Hlen'. }
  assert (Hal : always (rolling es s)
    (recover_loop (Z.to_nat (tail (journal s))) (tail (journal s))) s).
  { rewrite Ht. by eapply always_recover_loop. }
  unfold journal_recover. cbn [gets bind]. apply always_read. cbn [bind].
  apply always_bind; [by eapply always_impl|]. intros p s' Hs'.
  pose proof (always_final _ _ _ _ _ Hal Hs') as Hr'.
  unfold assert_. destruct (p =? 0) eqn:Hp; [|apply always_fail; by apply Hroll].
  cbn [bind skip]. apply always_write; [by apply Hroll|]. apply always_ret.
  unfold journal_recover in Hex. cbn [gets bind exec] in Hex.
  erewrite exec_bind_done in Hex by exact Hs'. unfold assert_ in Hex. rewrite Hp in Hex.
  assert (set_journal (set_tail 0) s' = {| bytes := m0; journal := set_tail 0 (journal s) |})
    as -> by (cbn in Hex; congruence).
  exists []. split; [by eapply undoes_empty|done].
Qed.

(** Recovery interrupted at any point and started again reaches the same store. *)
Lemma journal_recover_restart es m0 s c :
  undoes es m0 s → c ∈ crash_states journal_recover s →
  exec journal_recover c = Done tt {| bytes := m0; journal := set_tail 0 (journal s) |}.
Proof.
  intros Hu Hc. destruct (runs_always _ _ _ _ (journal_recover_runs _ _ _ Hu) c Hc) as (es' & Hu' & <-).
  by eapply exec_journal_recover.
Qed.

(** [Logged N p]: on a memory of [N] bytes, [p] changes memory only where the
    journal has a record; rolling back any store of [p] loses nothing. *)
Class Logged (N : nat) {A} (p : prog pmem A) : Prop :=
  logged : ∀ es m0 s, length m0 = N → undoes es m0 s →
    always (λ c, ∃ es', undoes (es ++ es') m0 c) p s.

#[export] Instance logged_ret N {A} (a : A) : Logged N (Ret a).
Proof. intros es m0 s _ Hs. apply always_ret. exists []. by rewrite app_nil_r. Qed.

#[export] Instance logged_gets N {A} (f : pmem → A) : Logged N (gets f).
Proof. intros es m0 s _ Hs. apply always_read, always_ret. exists []. by rewrite app_nil_r. Qed.

#[export] Instance logged_bind N {A B} (p : prog pmem A) (k : A → prog pmem B) :
  Logged N p → (∀ a, Logged N (k a)) → Logged N (bind p k).
Proof.
  intros Hp Hk es m0 s HN Hs. apply always_bind; [by apply Hp|]. intros a s' E.
  destruct (always_final _ _ _ _ _ (Hp es m0 s HN Hs) E) as [es' Hs'].
  eapply always_impl; [|by apply (Hk a (es ++ es') m0)].
  intros c [es'' Hc]. exists (es' ++ es''). by rewrite (assoc_L app).
Qed.

Lemma logged_append N a n :
  is_object (Z.of_nat a) (Z.of_nat n) → (a + n ≤ N)%nat →
  Logged N (append_log_of (Z.of_nat a) (Z.of_nat n)).
Proof.
  intros Ho Hle es m0 s HN Hs. apply append_log_of_always; [done..|].
  by rewrite <-(undoes_length _ _ _ Hs), HN.
Qed.

Lemma exec_write_bytes s a bs :
  (a + length bs ≤ length (bytes s))%nat →
  exec (write_bytes (Z.of_nat a) bs) s = Done tt (set_bytes (list_inserts a bs) s).
Proof.
  revert s a; induction bs as [|b bs IH]; intros s a Hle; [by destruct s|]. cbn in *.
  rewrite Nat2Z.id, decide_True by lia. cbn.
  replace (Z.of_nat a + 1) with (Z.of_nat (S a)) by lia.
  rewrite IH by (cbn; rewrite length_insert; lia). unfold set_bytes; cbn.
  by rewrite <-list_insert_inserts_lt by lia.
Qed.

(** Stores into a range covered by a record keep the roll-back intact. *)
Lemma write_bytes_covered es m0 s a bs e :
  undoes es m0 s → e ∈ es → covers e a (length bs) →
  always (undoes es m0) (write_bytes (Z.of_nat a) bs) s.
Proof.
  revert s a; induction bs as [|b bs IH]; intros s a Hs He Hc; [by apply always_ret|].
  cbn in *. apply always_read. rewrite Nat2Z.id. case_decide; [|by apply always_fail].
  cbn. apply always_write; [done|]. replace (Z.of_nat a + 1) with (Z.of_nat (S a)) by lia.
  destruct Hc as [Hc1 Hc2]. destruct Hs as (Hj & Hfit & Hu).
  apply IH; [|done|split; lia]. split_and!; [done| |].
  - eapply Forall_impl; [exact Hfit|]. intros e'. unfold entry_fits; cbn. by rewrite length_insert.
  - cbn. change (<[a:=b]> (bytes s)) with (list_inserts a [b] (bytes s)).
    rewrite (undo_covered _ e); [done..|split; cbn; lia].
Qed.

(** [PMVar::set] and every write through [as_mut] is logged. *)
Lemma logged_pmvar_set N a v :
  is_object (Z.of_nat a) (Z.of_nat (length v)) → (a + length v ≤ N)%nat →
  Logged N (pmvar_set (Z.of_nat a) v).
Proof.
  intros Ho Hle es m0 s HN Hs. unfold pmvar_set.
  apply always_bind; [exact (logged_append N a (length v) Ho Hle es m0 s HN Hs)|].
  intros [] s' E.
  assert (Hlen : length (bytes s) = N) by (by rewrite <-(undoes_length _ _ _ Hs)).
  destruct (decide (tail (journal s) + Z.of_nat (record_size (length v)) ≤ JOURNAL_SIZE)) as [Hsp|Hsp].
  - destruct (append_log_of_spec Hboard es m0 s a (length v)) as (s1 & E1 & _ & _ & Hs1);
      [done..|lia|done|].
    rewrite E1 in E. simplify_eq. eapply always_impl;
      [|eapply write_bytes_covered; [done|apply elem_of_app; right; constructor|]]; [eauto|].
    split; cbn; rewrite ?length_slice; lia.
  - exfalso. revert E. pose proof Hs as (Hj & _).
    destruct (jrepr_tail _ _ Hj) as (t & Ht & Htle).
    destruct (append_arith Hboard t (length v)) as (E1 & E2 & _); [lia|apply Ho|].
    unfold append_log_of. cbv zeta. erewrite exec_bind_done by (by eapply exec_check_integrity).
    rewrite E1. cbn [gets bind exec]. rewrite Ht, E2. unfold assert_ at 1.
    rewrite (proj2 (Z.leb_gt _ _)) by lia. done.
Qed.

Lemma exec_read_bytes s a n :
  (a + n ≤ length (bytes s))%nat →
  exec (read_bytes (Z.of_nat a) n) s = Done (slice a n (bytes s)) s.
Proof.
  revert a; induction n as [|n IH]; intros a Hle; [done|].
  destruct (lookup_lt_is_Some_2 (bytes s) a) as [b Hb]; [lia|].
  cbn. rewrite Nat2Z.id, Hb. cbn. replace (Z.of_nat a + 1) with (Z.of_nat (S a)) by lia.
  rewrite exec_bind, IH by lia. cbn. unfold slice. by rewrite (drop_S _ b a) by done.
Qed.

#[export] Instance logged_fail N {A} e : Logged N (Fail e : prog pmem A).
Proof. intros es m0 s _ Hs. apply always_fail. exists []. by rewrite app_nil_r. Qed.

#[export] Instance logged_read N {A} (k : pmem → prog pmem A) :
  (∀ s, Logged N (k s)) → Logged N (Read k).
Proof. intros Hk es m0 s HN Hs. apply always_read. by apply Hk. Qed.

#[export] Instance logged_read_bytes N a n : Logged N (read_bytes a n).
Proof.
  revert a; induction n as [|n IH]; intros a; [apply _|]. apply logged_bind.
  - apply logged_read. intros s. unfold unwrap_unchecked. cbn. destruct (_ !! _); apply _.
  - intros b. apply logged_bind; [apply IH|apply _].
Qed.

(** [PMVar::set] in a journal with room for its record. *)
Lemma exec_pmvar_set es m0 s a v :
  undoes es m0 s → is_object (Z.of_nat a) (Z.of_nat (length v)) →
  (a + length v ≤ length (bytes s))%nat →
  tail (journal s) + Z.of_nat (record_size (length v)) ≤ JOURNAL_SIZE →
  ∃ s', exec (pmvar_set (Z.of_nat a) v) s = Done tt s' ∧
    bytes s' = list_inserts a v (bytes s) ∧
    tail (journal s') = tail (journal s) + Z.of_nat (record_size (length v)).
Proof.
  intros Hs Ho Hle Hsp.
  destruct (append_log_of_spec Hboard es m0 s a (length v)) as (s1 & E1 & Hb & Ht & Hs1); [done..|].
  eexists. unfold pmvar_set. split; [erewrite exec_bind_done by exact E1|].
  - rewrite <-Hb in Hle. by apply exec_write_bytes.
  - cbn. by rewrite Hb.
Qed.
End contract.

(** ** Theorems *)

(** [recoveries c c']: any number of recoveries that power failures interrupt
    lead from [c] to [c']. *)
Inductive recoveries `{Arch, Board} : pmem → pmem → Prop :=
| rec_none c : recoveries c c
| rec_again c c1 c2 : c1 ∈ crash_states journal_recover c → recoveries c1 c2 → recoveries c c2.

Lemma recoveries_undoes `{Arch, Board} (Hboard : board_ok) es m0 c c' :
  undoes es m0 c → recoveries c c' → ∃ es', undoes es' m0 c'.
Proof.
  intros Hu Hr. revert es Hu. induction Hr as [c|c c1 c2 Hc _ IH]; intros es Hu; [eauto|].
  destruct (runs_always _ _ _ _ (journal_recover_runs Hboard _ _ _ Hu) c1 Hc) as (es' & Hu' & _).
  eauto.
Qed.

(** C2: a power failure at any point of a program that logs what it overwrites,
    followed by any number of interrupted recoveries and a completed one,
    restores the memory and leaves an empty journal. *)
Theorem crash_rolls_back `{Arch, Board} (N : nat) {A} (p : prog pmem A) (s c c' : pmem) :
  board_ok → Logged N p → length (bytes s) = N → jrepr [] (journal s) →
  c ∈ crash_states p s → recoveries c c' →
  ∃ s', exec journal_recover c' = Done tt s' ∧ bytes s' = bytes s ∧
    journal_is_empty (journal s') = true.
Proof.
  intros Hboard Hp HN Hj Hc Hr. assert (Hs : undoes [] (bytes s) s) by done.
  destruct (Hp [] (bytes s) s HN Hs c Hc) as [es Hes].
  destruct (recoveries_undoes Hboard _ _ _ _ Hes Hr) as [es' Hes'].
  eexists. split; [by eapply exec_journal_recover|done].
Qed.

(** appending to the journal. With room for the record the call succeeds,
    leaves memory alone and adds exactly one record with the object's bytes;
    without room it panics, and no store it went through differs in memory or in
    the records of the journal. *)
Theorem append_log_of_correct `{Arch, Board} (es : list entry) (m0 : list Z) (s : pmem) (a n : nat) :
  board_ok → undoes es m0 s → is_object (Z.of_nat a) (Z.of_nat n) → (a + n ≤ length (bytes s))%nat →
  if decide (tail (journal s) + Z.of_nat (record_size n) ≤ JOURNAL_SIZE) then
    ∃ s', exec (append_log_of (Z.of_nat a) (Z.of_nat n)) s = Done tt s' ∧ bytes s' = bytes s ∧
      tail (journal s') = tail (journal s) + Z.of_nat (record_size n) ∧
      undoes (es ++ [{| e_addr := a; e_old := slice a n (bytes s) |}]) m0 s'
  else exec (append_log_of (Z.of_nat a) (Z.of_nat n)) s = Failed Panic ∧
    crash_states (append_log_of (Z.of_nat a) (Z.of_nat n)) s = [s].
Proof.
  intros Hboard Hs Ho Hle. case_decide as Hsp; [by apply append_log_of_spec|].
  pose proof Hs as (Hj & _). pose proof Hj as (Hh & Hf & _).
  destruct (jrepr_tail _ _ Hj) as (t & Ht & Htle).
  destruct (append_arith Hboard t n) as (E1 & E2 & _); [lia|apply Ho|].
  unfold append_log_of, check_integrity. cbv zeta. rewrite E1. cbn [gets bind exec crash_states].
  rewrite Hh, Hf, !Z.eqb_refl, orb_true_r. cbn [andb assert_ skip bind exec crash_states gets].
  rewrite Ht, E2. unfold assert_. rewrite (proj2 (Z.leb_gt _ _)) by lia. done.
Qed.

Module example.
#[local] Existing Instances cortex_m qemu.

Definition start : pmem := {| bytes := [1; 2; 3; 4]; journal := journal_new |}.
Definition two_sets : prog pmem unit := pmvar_set 1 [5; 6];;; pmvar_set 2 [8].
Definition mid : pmem := default start (crash_at 12 two_sets start).
Definition again : pmem := default start (crash_at 2 journal_recover mid).

Lemma qemu_ok : board_ok.
Proof. split; vm_compute; congruence. Qed.

Example crash_rolls_back_witness :
  (bytes mid = [1; 5; 8; 4]) ∧ ∃ s', exec journal_recover again = Done tt s' ∧
    bytes s' = [1; 2; 3; 4] ∧ journal_is_empty (journal s') = true.
Proof.
  split; [vm_compute; reflexivity|].
  apply (crash_rolls_back 4 two_sets start mid again qemu_ok).
  - apply logged_bind; [|intros _];
      [apply (logged_pmvar_set qemu_ok 4 1)|apply (logged_pmvar_set qemu_ok 4 2)];
      first [cbn; lia|repeat split; vm_compute; congruence].
  - reflexivity.
  - apply jrepr_new, qemu_ok.
  - apply (list_elem_of_lookup_2 _ 12). vm_compute. reflexivity.
  - eapply rec_again; [|apply rec_none]. apply (list_elem_of_lookup_2 _ 2). vm_compute. reflexivity.
Defined.

Example append_log_of_correct_witness :
  ∃ s', exec (append_log_of 1 2) start = Done tt s' ∧ bytes s' = bytes start ∧
    tail (journal s') = 12 ∧
    undoes [{| e_addr := 1; e_old := [2; 3] |}] [1; 2; 3; 4] s'.
Proof.
  assert (Hu : undoes [] [1; 2; 3; 4] start) by (split_and!; [apply jrepr_new, qemu_ok|done..]).
  pose proof (append_log_of_correct [] [1; 2; 3; 4] start 1 2 qemu_ok Hu) as P.
  rewrite decide_True in P by (vm_compute; congruence).
  apply P; [repeat split; vm_compute; congruence|cbn; lia].
Defined.
End example.
