(* ===== verification/PVar.v ===== *)
(** * Words in persistent memory

    [PMVar<usize>] and the [usize] fields of persistent objects: loads, logged
    borrows and stores of one word, with the rules by which the kernel objects of
    the files behind this one are verified: what a store does, and that a power
    failure leaves a store that rolls back. *)

From S2P Require Import Prelude Arch Pmem PmemSpec.

Section words.
Context `{Arch, Board}.

(** A load and a store of one word. *)
Definition read_usize (a : Z) : prog pmem Z :=
  let* m := gets bytes in
  if decide (Z.to_nat a + usize_bytes ≤ length m)%nat
  then Ret (usize_of_bytes (slice (Z.to_nat a) usize_bytes m)) else Fail Undefined.
Definition write_usize (a v : Z) : prog pmem unit :=
  let* m := gets bytes in
  if decide (Z.to_nat a + usize_bytes ≤ length m)%nat
  then modify (set_bytes (list_inserts (Z.to_nat a) (usize_to_bytes v))) else Fail Undefined.

(** [PMVar::<usize>::borrow_mut]: the variable is logged. *)
Definition borrow_mut (a : Z) : prog pmem unit := append_log_of a (Z.of_nat usize_bytes).

(** [*var.borrow_mut(j) = f( *var)] *)
Definition update_var (a : Z) (f : Z → Z) : prog pmem unit :=
  borrow_mut a;;;
  let* v := read_usize a in
  write_usize a (f v).
End words.

Section rules.
Context `{Arch, Board} (Hboard : board_ok).
Implicit Types (m : list Z) (s : pmem) (es : list entry).

(** [word m a v]: the word at [a] has value [v]. *)
Definition word m (a : nat) (v : Z) : Prop :=
  (a + usize_bytes ≤ length m)%nat ∧ slice a usize_bytes m = usize_to_bytes v ∧ is_usize v.

(** The bytes [a, a+n) and [b, b+k) do not overlap. *)
Definition apart (a n b k : nat) : Prop := (a + n ≤ b ∨ b + k ≤ a)%nat.

Lemma slice_inserts_apart (m : list Z) a n b (bs : list Z) :
  apart a n b (length bs) → (a + n ≤ length m)%nat → (b + length bs ≤ length m)%nat →
  slice a n (list_inserts b bs m) = slice a n m.
Proof. intros Ha Hl Hb. by apply slice_inserts_ne. Qed.

Lemma word_inserts m a v b bs :
  word m a v → apart a usize_bytes b (length bs) → (b + length bs ≤ length m)%nat → word (list_inserts b bs m) a v.
Proof.
  intros (Hl & Hs & Hv) Ha Hb. split; [by rewrite length_inserts|]. split; [|done]. by rewrite slice_inserts_apart.
Qed.
Lemma word_set m a v : (a + usize_bytes ≤ length m)%nat → is_usize v → word (list_inserts a (usize_to_bytes v) m) a v.
Proof.
  intros Hl Hv. split; [by rewrite length_inserts|]. split; [|done].
  rewrite <-(length_usize_to_bytes v) at 1. apply slice_inserts. by rewrite length_usize_to_bytes.
Qed.

Lemma exec_read_usize s a v : word (bytes s) a v → exec (read_usize (Z.of_nat a)) s = Done v s.
Proof.
  intros (Hl & Hs & Hv). unfold read_usize. cbn. rewrite Nat2Z.id, decide_True by done. cbn.
  by rewrite Hs, usize_of_to_bytes.
Qed.

(** Reading does not change the store. *)
Lemma runs_read_usize (I : pmem → Prop) s a v (Q : Z → pmem → Prop) :
  I s → word (bytes s) a v → Q v s → runs I (read_usize (Z.of_nat a)) s Q.
Proof.
  intros HI Hw HQ. eapply runs_intro; [|by apply exec_read_usize|done].
  destruct Hw as (Hl & _). unfold read_usize. apply always_read. rewrite Nat2Z.id, decide_True by done. by apply always_ret.
Qed.

Lemma runs_let_read {A} (I : pmem → Prop) s a v (k : Z → prog pmem A) (Q : A → pmem → Prop) :
  I s → word (bytes s) a v → runs I (k v) s Q → runs I (let* x := read_usize (Z.of_nat a) in k x) s Q.
Proof.
  intros HI Hw HQ. eapply runs_bind; [apply (runs_read_usize I s a v (λ x s', x = v ∧ s' = s)); done|]. by intros ? ? [-> ->].
Qed.

(** A covered store. *)
Lemma undoes_covered es m0 s a bs e :
  undoes es m0 s → e ∈ es → covers e a (length bs) → (a + length bs ≤ length (bytes s))%nat →
  undoes es m0 (set_bytes (list_inserts a bs) s).
Proof.
  intros Hu He Hc Hl. eapply (always_final _ _ _ _ _ (write_bytes_covered es m0 s a bs e Hu He Hc)).
  by apply exec_write_bytes.
Qed.

(** The record of a logged word. *)
Definition word_entry (a : nat) (m : list Z) : entry := {| e_addr := a; e_old := slice a usize_bytes m |}.
Lemma word_entry_covers a m (bs : list Z) :
  (a + usize_bytes ≤ length m)%nat → length bs = usize_bytes → covers (word_entry a m) a (length bs).
Proof. intros Hl Hb. split; cbn; [lia|]. rewrite length_slice; lia. Qed.

(** A record with room in the journal. *)
Lemma runs_append_log (I : pmem → Prop) es m0 s a n (Q : unit → pmem → Prop) :
  undoes es m0 s → is_object (Z.of_nat a) (Z.of_nat n) → (a + n ≤ length (bytes s))%nat →
  tail (journal s) + Z.of_nat (record_size n) ≤ JOURNAL_SIZE →
  (∀ c es', undoes es' m0 c → I c) →
  (∀ s', bytes s' = bytes s → tail (journal s') = tail (journal s) + Z.of_nat (record_size n) →
     undoes (es ++ [{| e_addr := a; e_old := slice a n (bytes s) |}]) m0 s' → Q tt s') →
  runs I (append_log_of (Z.of_nat a) (Z.of_nat n)) s Q.
Proof.
  intros Hu Ho Hl Hsp HI HQ.
  destruct (append_log_of_spec Hboard es m0 s a n Hu Ho Hl Hsp) as (s' & Hex & Hb & Ht & Hu').
  eapply runs_intro; [|exact Hex|by apply HQ].
  assert (HN : length m0 = length (bytes s)) by by eapply undoes_length.
  eapply always_impl; [|exact (logged_append Hboard (length (bytes s)) a n Ho Hl es m0 s HN Hu)].
  intros c [es' Hc]. by eapply HI.
Qed.

(** [borrow_mut] with room in the journal. *)
Lemma runs_borrow_mut (I : pmem → Prop) es m0 s a (Q : unit → pmem → Prop) :
  undoes es m0 s → is_object (Z.of_nat a) (Z.of_nat usize_bytes) → (a + usize_bytes ≤ length (bytes s))%nat →
  tail (journal s) + Z.of_nat (record_size usize_bytes) ≤ JOURNAL_SIZE →
  (∀ c es', undoes es' m0 c → I c) →
  (∀ s', bytes s' = bytes s → tail (journal s') = tail (journal s) + Z.of_nat (record_size usize_bytes) →
     undoes (es ++ [word_entry a (bytes s)]) m0 s' → Q tt s') →
  runs I (borrow_mut (Z.of_nat a)) s Q.
Proof. apply runs_append_log. Qed.

(** A store of a word. *)
Lemma runs_write_usize (I : pmem → Prop) s a v (Q : unit → pmem → Prop) :
  (a + usize_bytes ≤ length (bytes s))%nat → I s → I (set_bytes (list_inserts a (usize_to_bytes v)) s) →
  Q tt (set_bytes (list_inserts a (usize_to_bytes v)) s) → runs I (write_usize (Z.of_nat a) v) s Q.
Proof.
  intros Hl HI HI' HQ. unfold write_usize. apply runs_read. rewrite Nat2Z.id, decide_True by done.
  apply runs_write; [done|]. by apply runs_ret.
Qed.

(** A logged update of a word. *)
Lemma runs_update_var (I : pmem → Prop) es m0 s a v f (Q : unit → pmem → Prop) :
  undoes es m0 s → word (bytes s) a v → Z.of_nat a < usize_mod →
  tail (journal s) + Z.of_nat (record_size usize_bytes) ≤ JOURNAL_SIZE → (∀ c es', undoes es' m0 c → I c) →
  (∀ s' es', undoes es' m0 s' → bytes s' = list_inserts a (usize_to_bytes (f v)) (bytes s) →
     tail (journal s') = tail (journal s) + Z.of_nat (record_size usize_bytes) → Q tt s') →
  runs I (update_var (Z.of_nat a) f) s Q.
Proof.
  intros Hu Hw Ha Hsp HI HQ. pose proof Hw as (Hl & _).
  assert (Ho : is_object (Z.of_nat a) (Z.of_nat usize_bytes)).
  { split; [lia|]. destruct usize_half. pose proof usize_bytes_cases. lia. }
  unfold update_var. eapply runs_bind; [apply (runs_borrow_mut I es m0 s a
    (λ _ s', bytes s' = bytes s ∧ tail (journal s') = tail (journal s) + Z.of_nat (record_size usize_bytes) ∧
       undoes (es ++ [word_entry a (bytes s)]) m0 s')); auto|].
  intros [] s1 (Hb & Ht & Hu1). eapply runs_bind.
  { apply (runs_read_usize I s1 a v (λ x s', x = v ∧ s' = s1)); [by eapply HI|by rewrite Hb|done]. }
  intros ? ? [-> ->].
  assert (Hu2 : undoes (es ++ [word_entry a (bytes s)]) m0 (set_bytes (list_inserts a (usize_to_bytes (f v))) s1)).
  { eapply undoes_covered; [done|apply elem_of_app; right; constructor|apply word_entry_covers; [done|apply length_usize_to_bytes]|].
    rewrite length_usize_to_bytes, Hb. lia. }
  apply runs_write_usize; [by rewrite Hb|by eapply HI|by eapply HI|].
  eapply HQ; [exact Hu2|cbn; by rewrite Hb|done].
Qed.

(** *** Stores without a log, to bytes that no record holds *)

Lemma inserts_comm (m : list Z) a b (xs ys : list Z) :
  apart a (length xs) b (length ys) → (a + length xs ≤ length m)%nat → (b + length ys ≤ length m)%nat →
  list_inserts a xs (list_inserts b ys m) = list_inserts b ys (list_inserts a xs m).
Proof.
  unfold apart. intros Ha Hx Hy. apply list_eq. intros i.
  rewrite !lookup_inserts_full by (rewrite ?length_inserts; lia). repeat case_decide; done || lia.
Qed.

Lemma undo_uncovered es (m bs : list Z) a :
  Forall (entry_fits m) es → Forall (λ e, apart (e_addr e) (length (e_old e)) a (length bs)) es →
  (a + length bs ≤ length m)%nat → undo es (list_inserts a bs m) = list_inserts a bs (undo es m).
Proof.
  intros Hf Ha Hl. induction es as [|e es IH]; [done|].
  apply Forall_cons in Hf as [He Hf], Ha as [Ha Has].
  change (restore e (undo es (list_inserts a bs m)) = list_inserts a bs (restore e (undo es m))).
  rewrite IH by done. unfold restore. apply inserts_comm; [done|..]; rewrite length_undo; [exact He|done].
Qed.

Lemma undoes_uncovered es m0 s a bs :
  undoes es m0 s → Forall (λ e, apart (e_addr e) (length (e_old e)) a (length bs)) es →
  (a + length bs ≤ length (bytes s))%nat →
  undoes es (list_inserts a bs m0) (set_bytes (list_inserts a bs) s).
Proof.
  intros (Hj & Hf & Hu) Ha Hl. split; [done|]. cbn. split.
  - eapply Forall_impl; [exact Hf|]. intros e. unfold entry_fits. by rewrite length_inserts.
  - rewrite undo_uncovered by done. by rewrite Hu.
Qed.

Lemma runs_write_bytes (I : pmem → Prop) s a bs (Q : unit → pmem → Prop) :
  (a + length bs ≤ length (bytes s))%nat →
  (∀ k, (k ≤ length bs)%nat → I (set_bytes (list_inserts a (take k bs)) s)) →
  Q tt (set_bytes (list_inserts a bs) s) → runs I (write_bytes (Z.of_nat a) bs) s Q.
Proof.
  revert s a. induction bs as [|b bs IH]; intros s a Hl HI HQ.
  - apply runs_ret; [|by destruct s]. specialize (HI 0%nat ltac:(done)). by destruct s.
  - cbn in *. apply runs_read. rewrite Nat2Z.id, decide_True by lia. cbn.
    assert (Hs : ∀ bs', (length bs' ≤ length bs)%nat →
      set_bytes (list_inserts (S a) bs') (set_bytes <[a:=b]> s) = set_bytes (list_inserts a (b :: bs')) s).
    { intros bs' Hbs'. unfold set_bytes. cbn. by rewrite <-list_insert_inserts_lt by lia. }
    apply runs_write; [specialize (HI 0%nat ltac:(lia)); by destruct s|].
    replace (Z.of_nat a + 1) with (Z.of_nat (S a)) by lia. apply IH.
    + cbn. rewrite length_insert. lia.
    + intros k Hk. rewrite Hs by (rewrite length_take; lia). apply (HI (S k)). lia.
    + by rewrite Hs.
Qed.

Lemma runs_read_bytes (I : pmem → Prop) s a n (Q : list Z → pmem → Prop) :
  (a + n ≤ length (bytes s))%nat → I s → Q (slice a n (bytes s)) s → runs I (read_bytes (Z.of_nat a) n) s Q.
Proof.
  intros Hl HI HQ. eapply runs_intro; [|by apply exec_read_bytes|done]. clear HQ Q.
  revert a Hl. induction n as [|n IH]; intros a Hl; [by apply always_ret|].
  cbn. apply always_read. rewrite Nat2Z.id. destruct (lookup_lt_is_Some_2 (bytes s) a) as [b ->]; [lia|]. cbn.
  replace (Z.of_nat a + 1) with (Z.of_nat (S a)) by lia.
  apply always_bind; [apply IH; lia|]. intros bs s' E. rewrite exec_read_bytes in E by lia.
  injection E as <- <-. by apply always_ret.
Qed.
End rules.
