(* ===== verification/TxCache.v ===== *)
(** * The result cache of a transaction ([TxCache] of [transaction.rs])

    [tail] packs the commit flag, the number of bytes of results cached so far
    and the number of committed transactions into one word, so that one store
    commits a transaction together with its result; [ptr] is the volatile replay
    cursor with the same layout. *)

From S2P Require Import Prelude Arch.

(** The cargo features that change the layout of the cache and of loop ends. *)
Class TxFeatures := {
  opt_tx_cache_space : bool;
  opt_loop_end : bool;
}.

Definition default_features : TxFeatures :=
  {| opt_tx_cache_space := true; opt_loop_end := true |}.

(** [Plain T]: a Rust type whose values are copied as [size_of::<T>()] bytes. *)
Class Plain (T : Type) := {
  size_of : nat;
  to_bytes : T → list Z;
  of_bytes : list Z → T;
}.
Arguments size_of T {_}.

Class PlainLaws (T : Type) `{!Plain T} : Prop := {
  length_to_bytes : ∀ v : T, length (to_bytes v) = size_of T;
  of_to_bytes : ∀ v : T, of_bytes (to_bytes v) = v;
}.

#[export] Instance plain_unit : Plain unit :=
  {| size_of := 0; to_bytes _ := []; of_bytes _ := tt |}.
#[export] Instance plain_bool : Plain bool :=
  {| size_of := 1; to_bytes b := [Z.b2z b]; of_bytes bs := bool_decide (bs = [1]) |}.
#[export] Instance plain_unit_laws : PlainLaws unit.
Proof. split; [done|by intros []]. Qed.
#[export] Instance plain_bool_laws : PlainLaws bool.
Proof. split; [done|by intros []]. Qed.

Record TxCache := {
  cache : list Z;
  ptr : Z;
  ctail : Z;
}.

Definition with_cache (f : list Z → list Z) (c : TxCache) : TxCache :=
  {| cache := f (cache c); ptr := ptr c; ctail := ctail c |}.
Definition with_ptr (f : Z → Z) (c : TxCache) : TxCache :=
  {| cache := cache c; ptr := f (ptr c); ctail := ctail c |}.
Definition with_ctail (f : Z → Z) (c : TxCache) : TxCache :=
  {| cache := cache c; ptr := ptr c; ctail := f (ctail c) |}.

Section cache.
Context `{Arch, Board, TxFeatures}.

Definition TX_COMMITTED : Z := if word_bits =? 32 then 0x80000000 else 0x8000.
Definition TX_CACHE_PTR_MASK : Z := if word_bits =? 32 then 0x7FFF0000 else 0x7F00.
Definition TX_CACHE_PTR_SHIFT : Z := if word_bits =? 32 then 16 else 8.
Definition TX_ID_PTR_MASK : Z := if word_bits =? 32 then 0x0000FFFF else 0x00FF.

Definition txcache_new : TxCache :=
  {| cache := replicate (Z.to_nat TX_CACHE_SZ) 0; ptr := 0; ctail := 0 |}.

Definition txcache_init : prog TxCache unit :=
  modify (with_ptr (λ _, 0));;; modify (with_ctail (λ _, 0)).

Definition is_committed (c : TxCache) : bool :=
  Z.land (ctail c) TX_COMMITTED =? TX_COMMITTED.

Definition reset_ptr : prog TxCache unit := modify (with_ptr (λ _, 0)).
Definition set_tail_ptr (pos : Z) : prog TxCache unit :=
  modify (with_ptr (λ _, pos));;; modify (with_ctail (λ _, Z.lor pos TX_COMMITTED)).
Definition set_ptr (new_pos : Z) : prog TxCache unit := modify (with_ptr (λ _, new_pos)).
Definition commit_reset_tail : prog TxCache unit := modify (with_ctail (λ _, TX_COMMITTED)).
Definition reset_tail : prog TxCache unit := modify (with_ctail (λ _, 0)).
Definition set_tail (new_pos : Z) : prog TxCache unit := modify (with_ctail (λ _, new_pos)).

Definition commit_no_ret_value : prog TxCache unit :=
  if opt_tx_cache_space then
    let* old_tail := gets ctail in
    let new_tail := Z.lor (uadd old_tail 1) TX_COMMITTED in
    modify (with_ctail (λ _, new_tail));;;
    modify (with_ptr (λ p, uadd p 1))
  else
    let* t := gets ctail in
    let old_tail := Z.land t (unot TX_COMMITTED) in
    let new_tail := uadd old_tail ARCH_ALIGN in
    modify (with_ctail (λ _, Z.lor new_tail TX_COMMITTED));;;
    modify (with_ptr (λ _, new_tail)).

Definition commit_no_replay : prog TxCache unit :=
  modify (with_ctail (λ t, Z.lor t TX_COMMITTED)).

Definition get_tx_id_of_tail (c : TxCache) : Z :=
  if opt_tx_cache_space then Z.land (ctail c) TX_ID_PTR_MASK
  else Z.land (ctail c) (unot TX_COMMITTED).
Definition get_tx_cache_ptr_of_tail (c : TxCache) : Z :=
  if opt_tx_cache_space
  then Z.shiftr (Z.land (ctail c) TX_CACHE_PTR_MASK) TX_CACHE_PTR_SHIFT
  else Z.land (ctail c) (unot TX_COMMITTED).
Definition get_tx_cache_ptr_of_ptr (c : TxCache) : Z :=
  if opt_tx_cache_space
  then Z.shiftr (Z.land (ptr c) TX_CACHE_PTR_MASK) TX_CACHE_PTR_SHIFT
  else ptr c.
Definition get_tx_id_of_ptr (c : TxCache) : Z :=
  if opt_tx_cache_space then Z.land (ptr c) TX_ID_PTR_MASK else ptr c.

Definition advance_composite_id (tx_id cache_ptr cached_ret_val_sz : Z) : Z :=
  if opt_tx_cache_space then
    let new_id := uadd tx_id 1 in
    let new_cache_ptr := uadd cache_ptr cached_ret_val_sz in
    Z.lor new_id (wrap (Z.shiftl new_cache_ptr TX_CACHE_PTR_SHIFT))
  else uadd tx_id cached_ret_val_sz.

Definition advance_ptr_on_empty : prog TxCache unit :=
  if opt_tx_cache_space then modify (with_ptr (λ p, uadd p 1))
  else modify (with_ptr (λ p, uadd p ARCH_ALIGN)).

(** [copy_nonoverlapping] of a result into the cache: a write past the array
    is a buffer overflow. *)
Fixpoint copy_to_cache (dst : nat) (bs : list Z) : prog TxCache unit :=
  match bs with
  | [] => skip
  | b :: bs =>
      let* c := gets cache in
      if decide (dst < length c)%nat
      then modify (with_cache (<[dst := b]>));;; copy_to_cache (S dst) bs
      else Fail Undefined
  end.

Definition read_cache (src n : nat) : prog TxCache (list Z) :=
  let* c := gets cache in
  if decide (src + n ≤ length c)%nat then Ret (slice src n c) else Fail Undefined.

Definition cache_result {T} `{Plain T} (res : T) : prog TxCache unit :=
  let rec_size := Z.of_nat (size_of T) in
  if 0 <? rec_size then
    let* cache_ptr := gets get_tx_cache_ptr_of_tail in
    assert_ (negb debug_assertions || (uadd cache_ptr rec_size <=? TX_CACHE_SZ));;;
    assert_ (cache_ptr <? TX_CACHE_SZ);;;
    copy_to_cache (Z.to_nat cache_ptr) (to_bytes res);;;
    let* tx_id := gets get_tx_id_of_tail in
    let advanced_tail := advance_composite_id tx_id cache_ptr rec_size in
    let new_tail_val := Z.lor advanced_tail TX_COMMITTED in
    modify (with_ctail (λ _, new_tail_val));;;
    modify (with_ptr (λ _, advanced_tail))
  else commit_no_ret_value.

Definition try_retrieve_result {T} `{Plain T} : prog TxCache (option T) :=
  let* c := get in
  if get_tx_id_of_ptr c <? get_tx_id_of_tail c then
    let rec_sz := Z.of_nat (size_of T) in
    if 0 <? rec_sz then
      let cache_ptr := get_tx_cache_ptr_of_ptr c in
      assert_ (cache_ptr <? TX_CACHE_SZ);;;
      let* bs := read_cache (Z.to_nat cache_ptr) (size_of T) in
      let tx_id := get_tx_id_of_ptr c in
      let advanced_ptr := advance_composite_id tx_id cache_ptr rec_sz in
      modify (with_ptr (λ _, advanced_ptr));;;
      Ret (Some (of_bytes bs))
    else
      assert_ (0 <? TX_CACHE_SZ);;;
      let* bs := read_cache 0 0 in
      advance_ptr_on_empty;;;
      Ret (Some (of_bytes bs))
  else Ret None.
End cache.

(** ** The packed word

    [pack id cp] is the word of [id] transactions and [cp] bytes of results. *)

Section bits.
Lemma lor_add_low a b k : 0 ≤ k → 0 ≤ a < 2 ^ k → Z.lor a (b * 2 ^ k) = a + b * 2 ^ k.
Proof.
  intros Hk Ha. assert (Hd : Z.land a (b * 2 ^ k) = 0).
  { apply Z.bits_inj'; intros n Hn. rewrite Z.land_spec, Z.bits_0, Z.mul_pow2_bits by lia.
    destruct (Z.lt_ge_cases n k); [rewrite (Z.testbit_neg_r b) by lia; apply andb_false_r|].
    replace a with (a mod 2 ^ k) by (by apply Z.mod_small).
    by rewrite Z.mod_pow2_bits_high by lia. }
  rewrite Z.add_nocarry_lxor by done. symmetry. by apply Z.lxor_lor.
Qed.

(** Masking [n] bits from bit [k] on. *)
Lemma land_field a n k :
  0 ≤ k → 0 ≤ n → Z.shiftr (Z.land a (Z.ones n * 2 ^ k)) k = (a / 2 ^ k) mod 2 ^ n.
Proof.
  intros. rewrite Z.shiftr_land, Z.shiftr_div_pow2 by done.
  rewrite <-(Z.shiftl_mul_pow2 (Z.ones n)), Z.shiftr_shiftl_l, Z.sub_diag, Z.shiftl_0_r by done.
  by rewrite Z.land_ones.
Qed.
End bits.

Section packing.
Context `{Arch, Board}.

Definition pack (id cp : Z) : Z := id + cp * 2 ^ TX_CACHE_PTR_SHIFT.
Definition id_ok (id : Z) : Prop := 0 ≤ id < 2 ^ TX_CACHE_PTR_SHIFT.
Definition cp_ok (cp : Z) : Prop := 0 ≤ cp < 2 ^ (TX_CACHE_PTR_SHIFT - 1).

(** The masks in terms of the width [K] of the transaction id. *)
Lemma tx_masks :
  (TX_CACHE_PTR_SHIFT = 8 ∨ TX_CACHE_PTR_SHIFT = 16) ∧
  2 * TX_CACHE_PTR_SHIFT ≤ word_bits ∧
  TX_COMMITTED = 2 ^ (2 * TX_CACHE_PTR_SHIFT - 1) ∧
  TX_ID_PTR_MASK = Z.ones TX_CACHE_PTR_SHIFT ∧
  TX_CACHE_PTR_MASK = Z.ones (TX_CACHE_PTR_SHIFT - 1) * 2 ^ TX_CACHE_PTR_SHIFT.
Proof.
  unfold TX_CACHE_PTR_SHIFT, TX_COMMITTED, TX_ID_PTR_MASK, TX_CACHE_PTR_MASK.
  destruct word_bits_cases as [->|[->| ->]]; cbn; split_and!; auto; lia.
Qed.

(** Arithmetic facts about a packed word, for [lia]. *)
Lemma pack_facts id cp :
  id_ok id → cp_ok cp →
  0 < 2 ^ TX_CACHE_PTR_SHIFT ∧ TX_COMMITTED = 2 ^ (TX_CACHE_PTR_SHIFT - 1) * 2 ^ TX_CACHE_PTR_SHIFT ∧
  2 * TX_COMMITTED ≤ usize_mod ∧ 0 ≤ pack id cp < TX_COMMITTED.
Proof.
  intros Hid Hcp. destruct tx_masks as (HK & HK' & HF & _ & _). unfold id_ok, cp_ok in *.
  assert (HF' : TX_COMMITTED = 2 ^ (TX_CACHE_PTR_SHIFT - 1) * 2 ^ TX_CACHE_PTR_SHIFT).
  { rewrite HF, <-Z.pow_add_r by lia. f_equal; lia. }
  assert (0 < 2 ^ TX_CACHE_PTR_SHIFT) by (apply Z.pow_pos_nonneg; lia).
  split_and!; [done|done| | |]; [|unfold pack; nia|unfold pack; rewrite HF'; nia].
  rewrite HF. unfold usize_mod. rewrite <-(Z.pow_succ_r 2) by lia.
  apply Z.pow_le_mono_r; lia.
Qed.

Lemma pack_lor_flag id cp :
  id_ok id → cp_ok cp → Z.lor (pack id cp) TX_COMMITTED = pack id cp + TX_COMMITTED.
Proof.
  intros Hid Hcp. destruct (pack_facts id cp) as (_ & _ & _ & Hp); [done..|].
  destruct tx_masks as (HK & _ & HF & _ & _). rewrite HF in *.
  rewrite <-(Z.mul_1_l (2 ^ _)). apply lor_add_low; lia.
Qed.

Lemma flag_lor_flag id cp :
  id_ok id → cp_ok cp →
  Z.lor (pack id cp + TX_COMMITTED) TX_COMMITTED = pack id cp + TX_COMMITTED.
Proof.
  intros. rewrite <-pack_lor_flag by done. by rewrite <-Z.lor_assoc, Z.lor_diag.
Qed.

(** Either the plain word or the word with the commit flag. *)
Definition flagged (b : bool) (w : Z) : Z := if b then w + TX_COMMITTED else w.

Lemma flag_of b id cp :
  id_ok id → cp_ok cp →
  (Z.land (flagged b (pack id cp)) TX_COMMITTED =? TX_COMMITTED) = b.
Proof.
  intros Hid Hcp. destruct (pack_facts id cp) as (_ & _ & _ & Hp); [done..|].
  destruct tx_masks as (HK & _ & HF & _ & _).
  assert (Hland : Z.land (flagged b (pack id cp)) TX_COMMITTED = if b then TX_COMMITTED else 0).
  { rewrite HF in *. set (m := 2 * TX_CACHE_PTR_SHIFT - 1) in *.
    apply Z.bits_inj'; intros n Hn. rewrite Z.land_spec, Z.pow2_bits_eqb by lia.
    destruct (Z.eqb_spec m n) as [<-|Hne].
    - rewrite andb_true_r. destruct b; cbn; rewrite ?HF.
      + rewrite Z.pow2_bits_true by lia. rewrite Z.testbit_true by lia.
        replace ((pack id cp + 2 ^ m) / 2 ^ m) with 1; [done|].
        apply Z.div_unique with (pack id cp); lia.
      + rewrite Z.bits_0. replace (pack id cp) with (pack id cp mod 2 ^ m)
          by (apply Z.mod_small; lia). apply Z.mod_pow2_bits_high. lia.
    - rewrite andb_false_r. destruct b; [|by rewrite Z.bits_0].
      rewrite Z.pow2_bits_false by lia. done. }
  rewrite Hland. destruct (pack_facts id cp) as (? & ? & ? & ?); [done..|].
  destruct b; [apply Z.eqb_refl|apply Z.eqb_neq; lia].
Qed.

Lemma land_not_flag b id cp :
  id_ok id → cp_ok cp → Z.land (flagged b (pack id cp)) (unot TX_COMMITTED) = pack id cp.
Proof.
  intros Hid Hcp. destruct (pack_facts id cp) as (_ & _ & Hm & Hp); [done..|].
  unfold unot, wrap. destruct tx_masks as (HK & HK2 & HF & _ & _).
  pose proof word_bits_pos. unfold usize_mod in *. rewrite <-Z.land_ones by lia.
  rewrite (Z.land_comm (Z.lnot _)), Z.land_assoc, Z.land_ones by lia.
  rewrite Z.mod_small by (unfold flagged; destruct b; lia).
  rewrite <-Z.ldiff_land, HF in *. set (m := 2 * TX_CACHE_PTR_SHIFT - 1) in *.
  assert (Hlow : ∀ n, m ≤ n → Z.testbit (pack id cp) n = false).
  { intros n Hn. replace (pack id cp) with (pack id cp mod 2 ^ m) by (apply Z.mod_small; lia).
    apply Z.mod_pow2_bits_high. lia. }
  assert (Hfl : flagged b (pack id cp) = if b then Z.lor (pack id cp) (2 ^ m) else pack id cp).
  { destruct b; [|done]. cbn. rewrite HF. symmetry. rewrite <-HF. by apply pack_lor_flag. }
  rewrite Hfl. apply Z.bits_inj'; intros n Hn. rewrite Z.ldiff_spec, Z.pow2_bits_eqb by lia.
  destruct (Z.eqb_spec m n) as [<-|Hne]; cbn; [rewrite andb_false_r; symmetry; apply Hlow; lia|].
  rewrite andb_true_r. destruct b; [|done].
  rewrite Z.lor_spec, Z.pow2_bits_false by lia. apply orb_false_r.
Qed.

Lemma id_of_word b id cp :
  id_ok id → cp_ok cp → Z.land (flagged b (pack id cp)) TX_ID_PTR_MASK = id.
Proof.
  intros Hid Hcp. destruct (pack_facts id cp) as (Hp & HF & _); [done..|].
  destruct tx_masks as (HK & _ & _ & -> & _). rewrite Z.land_ones by lia.
  replace (flagged b (pack id cp))
    with (id + (cp + if b then 2 ^ (TX_CACHE_PTR_SHIFT - 1) else 0) * 2 ^ TX_CACHE_PTR_SHIFT)
    by (unfold flagged, pack; destruct b; lia).
  rewrite Z.mod_add by lia. apply Z.mod_small, Hid.
Qed.

Lemma cp_of_word b id cp :
  id_ok id → cp_ok cp →
  Z.shiftr (Z.land (flagged b (pack id cp)) TX_CACHE_PTR_MASK) TX_CACHE_PTR_SHIFT = cp.
Proof.
  intros Hid Hcp. destruct (pack_facts id cp) as (Hp & HF & _); [done..|].
  destruct tx_masks as (HK & _ & _ & _ & ->). rewrite land_field by lia.
  replace (flagged b (pack id cp))
    with (id + (cp + if b then 2 ^ (TX_CACHE_PTR_SHIFT - 1) else 0) * 2 ^ TX_CACHE_PTR_SHIFT)
    by (unfold flagged, pack; destruct b; lia).
  rewrite Z.div_add, (Z.div_small id), Z.add_0_l by (lia || apply Hid).
  destruct b; [|rewrite Z.add_0_r; apply Z.mod_small, Hcp].
  rewrite <-(Z.mul_1_l (2 ^ (TX_CACHE_PTR_SHIFT - 1))) at 1.
  rewrite Z.mod_add by (apply Z.pow_nonzero; lia). apply Z.mod_small, Hcp.
Qed.
End packing.

(** ** The cache as a list of results *)

Section results.
Context `{Arch, Board, TxFeatures} (Hopt : opt_tx_cache_space = true).

(** The byte offsets of the cache fit their field of the packed word. *)
Definition cache_ok : Prop := 0 < TX_CACHE_SZ < 2 ^ (TX_CACHE_PTR_SHIFT - 1).
Context (Hcache : cache_ok).

(** [cache_repr b n bs c]: [n] results are committed, [bs] their bytes in
    order; [b] is the commit flag. *)
Record cache_repr (b : bool) (n : nat) (bs : list Z) (c : TxCache) : Prop := {
  repr_tail : ctail c = flagged b (pack (Z.of_nat n) (Z.of_nat (length bs)));
  repr_id : id_ok (Z.of_nat n);
  repr_length : Z.of_nat (length (cache c)) = TX_CACHE_SZ;
  repr_room : Z.of_nat (length bs) ≤ TX_CACHE_SZ;
  repr_bytes : take (length bs) (cache c) = bs;
  repr_ptr : ∃ i k, ptr c = pack (Z.of_nat i) (Z.of_nat k) ∧ (i ≤ n)%nat ∧ cp_ok (Z.of_nat k);
}.

Lemma repr_cp b n bs c : cache_repr b n bs c → cp_ok (Z.of_nat (length bs)).
Proof. intros [_ _ _ Hr _ _]. unfold cp_ok. destruct Hcache. lia. Qed.

Lemma repr_ext b n bs c c' :
  cache_repr b n bs c → ctail c' = ctail c → cache c' = cache c → ptr c' = ptr c →
  cache_repr b n bs c'.
Proof. intros [] Ht Hc Hp. split; by rewrite ?Ht, ?Hc, ?Hp. Qed.

(** The replay cursor stays among the committed transactions. *)
Lemma repr_move b n bs c i k :
  cache_repr b n bs c → (i ≤ n)%nat → cp_ok (Z.of_nat k) →
  cache_repr b n bs (with_ptr (λ _, pack (Z.of_nat i) (Z.of_nat k)) c).
Proof. intros [] Hi Hk. split; cbn; eauto. Qed.

Lemma repr_ptr_le_tail b n bs c :
  cache_repr b n bs c → get_tx_id_of_ptr c ≤ Z.of_nat n.
Proof.
  intros [_ Hid _ _ _ (i & k & Hp & Hi & Hk)]. unfold get_tx_id_of_ptr. rewrite Hopt, Hp.
  pose proof (id_of_word false (Z.of_nat i) (Z.of_nat k)) as E. cbn in E.
  rewrite E; [lia| |done]. unfold id_ok in *. lia.
Qed.

Lemma repr_is_committed b n bs c : cache_repr b n bs c → is_committed c = b.
Proof.
  intros Hc. unfold is_committed. rewrite (repr_tail _ _ _ _ Hc).
  apply flag_of; [apply Hc|by eapply repr_cp].
Qed.

Lemma repr_get_id b n bs c : cache_repr b n bs c → get_tx_id_of_tail c = Z.of_nat n.
Proof.
  intros Hc. unfold get_tx_id_of_tail. rewrite Hopt, (repr_tail _ _ _ _ Hc).
  apply id_of_word; [apply Hc|by eapply repr_cp].
Qed.

Lemma repr_get_cp b n bs c :
  cache_repr b n bs c → get_tx_cache_ptr_of_tail c = Z.of_nat (length bs).
Proof.
  intros Hc. unfold get_tx_cache_ptr_of_tail. rewrite Hopt, (repr_tail _ _ _ _ Hc).
  apply cp_of_word; [apply Hc|by eapply repr_cp].
Qed.

Lemma ptr_get_id i k c :
  ptr c = pack (Z.of_nat i) (Z.of_nat k) → id_ok (Z.of_nat i) → cp_ok (Z.of_nat k) →
  get_tx_id_of_ptr c = Z.of_nat i ∧ get_tx_cache_ptr_of_ptr c = Z.of_nat k.
Proof.
  intros Hp Hi Hk. unfold get_tx_id_of_ptr, get_tx_cache_ptr_of_ptr. rewrite Hopt, Hp.
  split; [by apply (id_of_word false)|by apply (cp_of_word false)].
Qed.

(** The composite word after one more result of [sz] bytes. *)
Lemma advance_pack n k sz :
  id_ok (Z.of_nat (S n)) → cp_ok (Z.of_nat (k + sz)) →
  advance_composite_id (Z.of_nat n) (Z.of_nat k) (Z.of_nat sz) =
  pack (Z.of_nat (S n)) (Z.of_nat (k + sz)).
Proof.
  intros Hid Hcp. pose proof (pack_facts _ _ Hid Hcp) as (HK & HF & Hm & Hp).
  unfold advance_composite_id. rewrite Hopt. destruct tx_masks as (HK' & HK2 & _).
  pose proof usize_mod_ge. unfold id_ok, cp_ok, pack in *.
  assert (2 ^ TX_CACHE_PTR_SHIFT ≤ 65536) by (destruct HK' as [-> | ->]; lia).
  assert (2 ^ (TX_CACHE_PTR_SHIFT - 1) ≤ 32768)
    by (destruct HK' as [-> | ->]; vm_compute; congruence).
  rewrite !uadd_small by lia. rewrite Z.shiftl_mul_pow2 by lia.
  rewrite wrap_small by (unfold is_usize; split; nia). rewrite lor_add_low by lia. f_equal; lia.
Qed.

Lemma repr_set_flag b b' n bs c :
  cache_repr b n bs c →
  cache_repr b' n bs (with_ctail (λ _, flagged b' (pack (Z.of_nat n) (Z.of_nat (length bs)))) c).
Proof. intros []. by split. Qed.

(** [Transaction::clear_commit_flag] at the level of the word. *)
Lemma repr_clear b n bs c :
  cache_repr b n bs c → cache_repr false n bs (with_ctail (λ t, Z.land t (unot TX_COMMITTED)) c).
Proof.
  intros Hc. eapply repr_ext; [by apply (repr_set_flag b false)| |done|done].
  cbn. rewrite (repr_tail _ _ _ _ Hc).
  apply land_not_flag; [apply Hc|by eapply repr_cp].
Qed.

Lemma repr_commit b n bs c :
  cache_repr b n bs c → cache_repr true n bs (with_ctail (λ t, Z.lor t TX_COMMITTED) c).
Proof.
  intros Hc. eapply repr_ext; [by apply (repr_set_flag b true)| |done|done].
  cbn. rewrite (repr_tail _ _ _ _ Hc). pose proof (repr_cp _ _ _ _ Hc).
  pose proof (repr_id _ _ _ _ Hc). destruct b; cbn; [by apply flag_lor_flag|by apply pack_lor_flag].
Qed.

(** Copying a result past the committed ones. *)
Lemma exec_copy_to_cache dst bs c :
  (dst + length bs ≤ length (cache c))%nat →
  exec (copy_to_cache dst bs) c = Done tt (with_cache (list_inserts dst bs) c).
Proof.
  revert dst c; induction bs as [|x bs IH]; intros dst c Hle; [by destruct c|]. cbn in *.
  rewrite decide_True by lia. cbn. rewrite IH by (cbn; rewrite length_insert; lia).
  unfold with_cache; cbn. by rewrite <-list_insert_inserts_lt by lia.
Qed.

Lemma repr_write_past b n bs c dst x :
  cache_repr b n bs c → (length bs ≤ dst)%nat → cache_repr b n bs (with_cache (<[dst:=x]>) c).
Proof.
  intros [? ? ? ? Hb ?] Hd. split; cbn; rewrite ?length_insert; try done.
  by rewrite take_insert_ge.
Qed.

Lemma copy_to_cache_runs b n bs c xs :
  cache_repr b n bs c → (length bs + length xs ≤ length (cache c))%nat →
  runs (cache_repr b n bs) (copy_to_cache (length bs) xs) c
    (λ _ c', c' = with_cache (list_inserts (length bs) xs) c).
Proof.
  intros Hc Hle. eapply runs_intro; [|by apply exec_copy_to_cache|done]. clear Hle.
  assert (Hd : (length bs ≤ length bs)%nat) by done. revert Hc Hd.
  generalize (length bs) at 2 3 as dst. intros dst. revert dst c.
  induction xs as [|x xs IH]; intros dst c Hc Hd; [by apply always_ret|].
  cbn. apply always_read. case_decide; [|by apply always_fail]. cbn.
  apply always_write; [done|]. apply IH; [by apply repr_write_past|lia].
Qed.

(** A transaction without a result only advances the transaction id. *)
Lemma commit_no_ret_value_spec b n bs c :
  cache_repr b n bs c → id_ok (Z.of_nat (S n)) →
  ptr c = pack (Z.of_nat n) (Z.of_nat (length bs)) →
  runs (λ d, cache_repr b n bs d ∨ cache_repr true (S n) bs d) commit_no_ret_value c
    (λ _ c', cache_repr true (S n) bs c' ∧ ptr c' = pack (Z.of_nat (S n)) (Z.of_nat (length bs))).
Proof.
  intros Hc Hid Hptr. pose proof Hc as [Ht Hn Hl Hr Hb _]. pose proof (repr_cp _ _ _ _ Hc) as Hcp.
  pose proof (pack_facts _ _ Hid Hcp) as (HK & HF & Hm & Hp).
  pose proof (pack_facts _ _ Hn Hcp) as (_ & _ & _ & Hp0).
  assert (Hstep : pack (Z.of_nat n) (Z.of_nat (length bs)) + 1
                  = pack (Z.of_nat (S n)) (Z.of_nat (length bs))) by (unfold pack; lia).
  assert (Hw : Z.lor (uadd (ctail c) 1) TX_COMMITTED
               = flagged true (pack (Z.of_nat (S n)) (Z.of_nat (length bs)))).
  { rewrite Ht. destruct b; cbn [flagged].
    - rewrite uadd_small by lia.
      replace (_ + TX_COMMITTED + 1)
        with (pack (Z.of_nat (S n)) (Z.of_nat (length bs)) + TX_COMMITTED) by lia.
      by apply flag_lor_flag.
    - rewrite uadd_small, Hstep by lia. by apply pack_lor_flag. }
  assert (Hpt : uadd (ptr c) 1 = pack (Z.of_nat (S n)) (Z.of_nat (length bs)))
    by (rewrite Hptr, uadd_small; lia).
  assert (Hnew : ∀ d i, (i ≤ S n)%nat → cache d = cache c →
    ptr d = pack (Z.of_nat i) (Z.of_nat (length bs)) →
    ctail d = flagged true (pack (Z.of_nat (S n)) (Z.of_nat (length bs))) →
    cache_repr true (S n) bs d).
  { intros d i Hi Hd1 Hd2 Hd3. split; rewrite ?Hd1, ?Hd3; eauto. }
  unfold commit_no_ret_value. rewrite Hopt. apply runs_read. cbn [bind]. rewrite Hw.
  apply runs_write; [by left|]. apply runs_write; [right; apply (Hnew _ n); done || lia|].
  apply runs_ret; [right|split; [|done]]; by apply (Hnew _ (S n)).
Qed.

Context {T : Type} `{PlainLaws T}.

(** A transaction's result fits the cache. *)
Definition fits (n k : nat) : Prop :=
  id_ok (Z.of_nat (S n)) ∧ Z.of_nat (k + size_of T) ≤ TX_CACHE_SZ.

Lemma repr_extend b n bs c (v : T) :
  cache_repr b n bs c → fits n (length bs) →
  cache_repr true (S n) (bs ++ to_bytes v)
    {| cache := list_inserts (length bs) (to_bytes v) (cache c);
       ptr := pack (Z.of_nat (S n)) (Z.of_nat (length bs + size_of T));
       ctail := flagged true (pack (Z.of_nat (S n)) (Z.of_nat (length bs + size_of T))) |}.
Proof.
  intros [_ _ Hl Hr Hb _] [Hid Hfit]. split; cbn.
  - by rewrite length_app, length_to_bytes.
  - done.
  - by rewrite length_inserts.
  - rewrite length_app, length_to_bytes. lia.
  - rewrite length_app. apply list_eq; intros i. destruct (decide (i < length bs + length (to_bytes v))%nat) as [Hi|Hi].
    + rewrite lookup_take_lt, lookup_inserts_full by (rewrite ?length_to_bytes in *; lia).
      case_decide as Hd; [by rewrite lookup_app_r by lia|].
      rewrite lookup_app_l by lia. rewrite <-Hb. by rewrite lookup_take_lt by lia.
    + rewrite !lookup_ge_None_2; rewrite ?length_take, ?length_app; lia || done.
  - exists (S n), (length bs + size_of T)%nat. split_and!; [done|lia|].
    unfold cp_ok. destruct Hcache. lia.
Qed.

(** [cache_result]: the new word is stored in one write, after the bytes. *)
Lemma cache_result_spec b n bs c (v : T) :
  cache_repr b n bs c → fits n (length bs) →
  ptr c = pack (Z.of_nat n) (Z.of_nat (length bs)) →
  runs (λ d, cache_repr b n bs d ∨ cache_repr true (S n) (bs ++ to_bytes v) d)
    (cache_result v) c (λ _ c', cache_repr true (S n) (bs ++ to_bytes v) c' ∧
      ptr c' = pack (Z.of_nat (S n)) (Z.of_nat (length (bs ++ to_bytes v)))).
Proof.
  intros Hc Hfit Hptr. pose proof Hfit as [Hid Hroom].
  pose proof (repr_extend b n bs c v Hc Hfit) as Hext.
  pose proof Hc as [Ht Hn Hl Hr Hb _]. pose proof (length_to_bytes v) as Hlv. unfold cache_result.
  destruct (Z.ltb_spec 0 (Z.of_nat (size_of T))) as [Hsz|Hsz].
  - assert (Hcp' : cp_ok (Z.of_nat (length bs + size_of T))) by (destruct Hcache; unfold cp_ok; lia).
    assert (Hu : (uadd (Z.of_nat (length bs)) (Z.of_nat (size_of T)) <=? TX_CACHE_SZ) = true).
    { pose proof usize_mod_ge. destruct Hcache as [_ HC]. destruct tx_masks as ([HK|HK] & _);
        rewrite HK in HC; rewrite uadd_small; lia. }
    apply runs_read. cbn [bind]. rewrite (repr_get_cp _ _ _ _ Hc), Hu, orb_true_r.
    unfold assert_. rewrite (proj2 (Z.ltb_lt _ _)) by lia. cbn [skip bind]. rewrite Nat2Z.id.
    eapply runs_bind.
    { eapply runs_crash; [apply copy_to_cache_runs; [exact Hc|lia]|by left]. }
    intros [] d Hd.
    assert (Hdc : cache_repr b n bs d).
    { destruct (copy_to_cache_runs b n bs c (to_bytes v) Hc) as [Hal (? & s' & E & ->)]; [lia|].
      rewrite Hd. by eapply always_final. }
    apply runs_read. cbn [bind].
    rewrite (repr_get_id _ _ _ _ Hdc), advance_pack, pack_lor_flag by done. subst d.
    apply runs_write; [by left|]. apply runs_write.
    + right. eapply repr_ext; [apply (repr_move _ _ _ _ n (length bs) Hext); [lia|]|done..].
      by eapply repr_cp.
    + apply runs_ret; [right|split; [|cbn; by rewrite length_app, Hlv]]; by eapply repr_ext.
  - assert (Hv : to_bytes v = []) by (apply length_zero_iff_nil; lia).
    rewrite Hv, app_nil_r. by apply commit_no_ret_value_spec.
Qed.

(** A completed transaction gives its cached result and is not run again. *)
Lemma try_retrieve_spec b n pre (v : T) post i c :
  cache_repr b n (pre ++ to_bytes v ++ post) c → (i < n)%nat →
  ptr c = pack (Z.of_nat i) (Z.of_nat (length pre)) →
  (Z.of_nat (length pre) < TX_CACHE_SZ ∨ size_of T = 0%nat) →
  runs (cache_repr b n (pre ++ to_bytes v ++ post)) try_retrieve_result c
    (λ r c', r = Some v ∧ cache_repr b n (pre ++ to_bytes v ++ post) c' ∧
      ptr c' = pack (Z.of_nat (S i)) (Z.of_nat (length (pre ++ to_bytes v)))).
Proof.
  intros Hc Hi Hptr Hroom. pose proof Hc as [Ht Hn Hl Hr Hb _]. pose proof (repr_cp _ _ _ _ Hc) as Hcp.
  pose proof (length_to_bytes v) as Hlv.
  assert (Hcp1 : cp_ok (Z.of_nat (length pre))) by (unfold cp_ok in *; rewrite !length_app in *; lia).
  assert (Hcp2 : cp_ok (Z.of_nat (length pre + size_of T)))
    by (unfold cp_ok in *; rewrite !length_app in *; lia).
  assert (Hi1 : id_ok (Z.of_nat i)) by (unfold id_ok in *; lia).
  assert (Hi2 : id_ok (Z.of_nat (S i))) by (unfold id_ok in *; lia).
  assert (Hend : ∀ w, w = pack (Z.of_nat (S i)) (Z.of_nat (length pre + size_of T)) →
    runs (cache_repr b n (pre ++ to_bytes v ++ post))
      (modify (with_ptr (λ _, w));;; Ret (Some v)) c
      (λ r c', r = Some v ∧ cache_repr b n (pre ++ to_bytes v ++ post) c' ∧
        ptr c' = pack (Z.of_nat (S i)) (Z.of_nat (length (pre ++ to_bytes v))))).
  { intros w ->. apply runs_write; [done|]. rewrite length_app, Hlv.
    apply runs_ret; [|split_and!; [done| |done]]; by apply repr_move; [|lia|]. }
  destruct (ptr_get_id _ _ _ Hptr Hi1 Hcp1) as [E1 E2].
  unfold try_retrieve_result. apply runs_read. cbn [bind].
  rewrite (repr_get_id _ _ _ _ Hc), E1, E2, (proj2 (Z.ltb_lt _ _)) by lia. unfold assert_.
  destruct (Z.ltb_spec 0 (Z.of_nat (size_of T))) as [Hsz|Hsz].
  - rewrite (proj2 (Z.ltb_lt _ _)) by lia. apply runs_read. cbn [bind].
    rewrite !length_app in *. rewrite Nat2Z.id, decide_True by lia. cbn [bind].
    rewrite advance_pack by done.
    assert (slice (length pre) (size_of T) (cache c) = to_bytes v) as ->;
      [|rewrite of_to_bytes; by apply Hend].
    unfold slice. rewrite <-(length_to_bytes v).
    rewrite <-(take_drop (length pre + (length (to_bytes v) + length post)) (cache c)), Hb.
    rewrite <-!(assoc_L app), drop_app_length. apply take_app_length.
  - rewrite (proj2 (Z.ltb_lt _ _)) by apply Hcache. apply runs_read. cbn [bind].
    rewrite decide_True by lia. unfold advance_ptr_on_empty. rewrite Hopt.
    assert (Hv : to_bytes v = []) by (apply length_zero_iff_nil; lia).
    change (slice 0 0 (cache c)) with (@nil Z).
    assert (of_bytes [] = v) as -> by (by rewrite <-Hv, of_to_bytes).
    refine (Hend (uadd (ptr c) 1) _).
    rewrite Hptr. pose proof (pack_facts _ _ Hi2 Hcp1). pose proof (pack_facts _ _ Hi1 Hcp1).
    unfold pack in *. rewrite uadd_small; lia.
Qed.

Lemma try_retrieve_none b n bs c :
  cache_repr b n bs c → ptr c = pack (Z.of_nat n) (Z.of_nat (length bs)) →
  runs (cache_repr b n bs) (try_retrieve_result (T:=T)) c (λ r c', r = None ∧ c' = c).
Proof.
  intros Hc Hptr. pose proof (repr_cp _ _ _ _ Hc).
  destruct (ptr_get_id _ _ _ Hptr (repr_id _ _ _ _ Hc)) as [E1 _]; [done|].
  unfold try_retrieve_result. apply runs_read. cbn [bind].
  rewrite (repr_get_id _ _ _ _ Hc), E1, Z.ltb_irrefl. by apply runs_ret.
Qed.
End results.

(** ** Theorems *)

(** a transaction and its result are committed by one store. Every store
    that [cache_result] goes through either still shows the [n] transactions
    committed before, or shows [n + 1] of them with the commit flag set, and then
    a replay that has retrieved the first [n] results gets the new one. *)
Theorem cache_result_atomic `{Arch, Board, TxFeatures} {T} `{PlainLaws T}
    (b : bool) (n : nat) (bs : list Z) (c : TxCache) (v : T) :
  opt_tx_cache_space = true → cache_ok → cache_repr b n bs c → fits (T:=T) n (length bs) →
  Z.of_nat (length bs) < TX_CACHE_SZ → ptr c = pack (Z.of_nat n) (Z.of_nat (length bs)) →
  (∃ c', exec (cache_result v) c = Done tt c' ∧ get_tx_id_of_tail c' = Z.of_nat (S n)) ∧
  ∀ d, d ∈ crash_states (cache_result v) c →
    (get_tx_id_of_tail d = Z.of_nat n ∧ is_committed d = b) ∨
    (get_tx_id_of_tail d = Z.of_nat (S n) ∧ is_committed d = true ∧
     ∃ d', exec (set_ptr (pack (Z.of_nat n) (Z.of_nat (length bs)));;; try_retrieve_result) d
           = Done (Some v) d').
Proof.
  intros Hopt Hcache Hc Hfit Hroom Hptr.
  pose proof (cache_result_spec Hopt Hcache b n bs c v Hc Hfit Hptr) as [Hal (u & c' & E & Hc' & _)].
  split.
  - exists c'. destruct u. split; [done|by eapply repr_get_id].
  - intros d Hd. destruct (Hal d Hd) as [Hr|Hr]; [left|right].
    + split; [by eapply repr_get_id|by eapply repr_is_committed].
    + split_and!; [by eapply repr_get_id|by eapply repr_is_committed|].
      assert (Hm : cache_repr true (S n) (bs ++ to_bytes v ++ [])
        (with_ptr (λ _, pack (Z.of_nat n) (Z.of_nat (length bs))) d)).
      { rewrite app_nil_r. apply repr_move; [done|lia|]. by eapply repr_cp. }
      destruct (try_retrieve_spec Hopt Hcache true (S n) bs v [] n _ Hm)
        as [_ (r & d' & E' & -> & _)]; [lia|done|by left|eauto].
Qed.

(** the transaction id of the packed word is not checked for overflow: the
    256th transaction of a task on a 16-bit target carries into the field of the
    cache offset, and no transaction counts as committed any more. *)
Theorem tx_id_overflow `{Board, TxFeatures} (c : TxCache) :
  opt_tx_cache_space = true →
  ctail c = flagged (H := msp430) true (pack (H := msp430) 255 3) →
  ∃ c', exec (commit_no_ret_value (H := msp430)) c = Done tt c' ∧
    get_tx_id_of_tail (H := msp430) c' = 0 ∧ get_tx_cache_ptr_of_tail (H := msp430) c' = 4.
Proof.
  intros Hopt Hc. unfold commit_no_ret_value, get_tx_id_of_tail, get_tx_cache_ptr_of_tail.
  rewrite Hopt. cbn [gets bind exec modify]. rewrite Hc. eexists. by split_and!.
Qed.

Module example.
#[local] Existing Instances msp430 msp430fr5994 default_features.

Definition two_done : TxCache :=
  {| cache := [1; 0] ++ replicate 30 0; ptr := 0x0202; ctail := 0x8202 |}.
Definition many_done : TxCache := {| cache := replicate 32 0; ptr := 0; ctail := 0x83FF |}.

Example cache_result_atomic_witness :
  (∃ c', exec (cache_result true) two_done = Done tt c' ∧ get_tx_id_of_tail c' = 3) ∧
  ∀ d, d ∈ crash_states (cache_result true) two_done →
    (get_tx_id_of_tail d = 2 ∧ is_committed d = true) ∨
    (get_tx_id_of_tail d = 3 ∧ is_committed d = true ∧
     ∃ d', exec (set_ptr 0x0202;;; try_retrieve_result) d = Done (Some true) d').
Proof.
  refine (cache_result_atomic true 2 [1; 0] two_done true eq_refl _ _ _ eq_refl eq_refl).
  - split; vm_compute; congruence.
  - split; [done|split; vm_compute; congruence|done|vm_compute; congruence|done|].
    exists 2%nat, 2%nat. cbn [ptr two_done]. split_and!; [done|lia|split; vm_compute; congruence].
  - split; [split|]; vm_compute; congruence.
Defined.

Example tx_id_overflow_witness :
  ∃ c', exec commit_no_ret_value many_done = Done tt c' ∧
    get_tx_id_of_tail c' = 0 ∧ get_tx_cache_ptr_of_tail c' = 4.
Proof. apply tx_id_overflow; reflexivity. Defined.
End example.
