(* ===== verification/Transaction.v ===== *)
(** * Transactions ([struct Transaction] and the [run] wrappers of [transaction.rs])

    A transaction owns a journal over persistent memory and a result cache. The
    theorems at the end of the file concern a sequence of transactions that is
    interrupted by power failures and re-executed from its beginning. *)

From Stdlib Require Import Eqdep.
From S2P Require Import Prelude Arch Pmem PmemSpec TxCache.

(** The state a [Transaction] refers to: persistent memory with its journal, the
    cache, the nesting level, and whether the bypass of a completed transaction
    is legal ([!is_scheduler_started() || current().in_recovery_mode()]). *)
Record tx_state := {
  tx_pm : pmem;
  tx_cache : TxCache;
  nesting_level : Z;
  may_bypass : bool;
}.

Definition with_pm (p : pmem) (t : tx_state) : tx_state :=
  {| tx_pm := p; tx_cache := tx_cache t; nesting_level := nesting_level t;
     may_bypass := may_bypass t |}.
Definition with_tx_cache (c : TxCache) (t : tx_state) : tx_state :=
  {| tx_pm := tx_pm t; tx_cache := c; nesting_level := nesting_level t;
     may_bypass := may_bypass t |}.
Definition with_nesting (f : Z → Z) (t : tx_state) : tx_state :=
  {| tx_pm := tx_pm t; tx_cache := tx_cache t; nesting_level := f (nesting_level t);
     may_bypass := may_bypass t |}.

#[export] Instance pm_lens : Lens pmem tx_state := {| lget := tx_pm; lset := with_pm |}.
#[export] Instance cache_lens : Lens TxCache tx_state :=
  {| lget := tx_cache; lset := with_tx_cache |}.
#[export] Instance pm_lens_laws : LensLaws pmem tx_state.
Proof. by split; try done; intros []. Qed.
#[export] Instance cache_lens_laws : LensLaws TxCache tx_state.
Proof. by split; try done; intros []. Qed.

Inductive ErrorCode := InvalidCode | NoSpace | InvalidParam | TxRetry | TxExit | TxFatal.
#[export] Instance ErrorCode_eq_dec : EqDecision ErrorCode.
Proof. solve_decision. Defined.

(** Rust's [Result]. *)
Inductive Result (T E : Type) := Ok (v : T) | Err (e : E).
Arguments Ok {T E} v.
Arguments Err {T E} e.

Section transaction.
Context `{Arch, Board, TxFeatures}.

Definition reset_nesting_level : prog tx_state unit := modify (with_nesting (λ _, 0)).
Definition debug_commit_invariant_assert : prog tx_state unit :=
  let* l := gets nesting_level in assert_ (negb debug_assertions || (l =? 0)).

(** In a debug build the nesting level is tracked and must be 0 or 1. *)
Definition inc_nesting : prog tx_state unit :=
  if debug_assertions then
    modify (with_nesting (λ l, uadd l 1));;;
    let* l := gets nesting_level in assert_ (l =? 1)
  else skip.
Definition dec_nesting : prog tx_state unit :=
  if debug_assertions then
    let* l := gets nesting_level in
    assert_ (0 <? l);;;
    modify (with_nesting (λ l, l - 1));;;
    debug_commit_invariant_assert
  else skip.

Definition clear_commit_flag : prog tx_state unit :=
  zoom (modify (with_ctail (λ t, Z.land t (unot TX_COMMITTED)))).

(** [Transaction::begin] *)
Definition tx_begin : prog tx_state unit := inc_nesting;;; clear_commit_flag.

Definition tx_commit {T} `{Plain T} (res : T) : prog tx_state unit :=
  dec_nesting;;;
  zoom (cache_result res);;;
  zoom journal_clear.

Definition tx_commit_no_replay : prog tx_state unit :=
  dec_nesting;;;
  zoom commit_no_replay;;;
  zoom journal_clear.

Definition commit_no_replay_roll_forward : prog tx_state unit :=
  zoom journal_clear;;;
  reset_nesting_level;;;
  zoom commit_no_replay.

(** [Transaction::check_committed]: [Ok] is [true]. *)
Definition check_committed : prog tx_state bool :=
  let* c := gets (λ t, is_committed (tx_cache t)) in
  if negb c then Ret false else zoom journal_clear;;; Ret true.

Definition roll_back : prog tx_state unit := zoom journal_recover.

Definition roll_back_if_uncommitted : prog tx_state unit :=
  let* ok := check_committed in
  if ok then skip else zoom journal_recover.

Definition try_get_cached_result {T} `{Plain T} : prog tx_state (option T) :=
  zoom try_retrieve_result.

(** [Transaction::run], [run_sys], [fast_run], [run_no_replay], [try_run]; the
    closure [f] works on the persistent memory and its journal. *)
Definition tx_run {T} `{Plain T} (f : prog pmem T) : prog tx_state T :=
  tx_begin;;;
  let* ret := zoom f in
  tx_commit ret;;;
  Ret ret.

Definition tx_fast_run {T} `{Plain T} (f : prog pmem T) : prog tx_state T :=
  tx_begin;;;
  let* ret := zoom f in
  dec_nesting;;;
  zoom (cache_result ret);;;
  Ret ret.

Definition tx_run_no_replay {T} (f : prog pmem T) : prog tx_state T :=
  tx_begin;;;
  let* ret := zoom f in
  tx_commit_no_replay;;;
  Ret ret.

Definition tx_try_run {T} `{Plain (Result T ErrorCode)}
    (f : prog pmem (Result T ErrorCode)) : prog tx_state (Result T ErrorCode) :=
  tx_begin;;;
  let* ret := zoom f in
  match ret with
  | Err TxRetry => tx_commit_no_replay
  | _ => tx_commit ret
  end;;;
  Ret ret.

Definition debug_level_zero : prog tx_state unit :=
  let* l := gets nesting_level in assert_ (negb debug_assertions || (l =? 0)).
Definition debug_may_bypass : prog tx_state unit :=
  let* b := gets may_bypass in assert_ (negb debug_assertions || b).

(** The wrappers: a completed transaction yields its cached result instead of
    being executed again. *)
Definition bypass_or {T} `{Plain T} (p : prog tx_state T) : prog tx_state T :=
  let* r := try_get_cached_result in
  match r with
  | Some cache_res => debug_may_bypass;;; Ret cache_res
  | None => p
  end.

Definition run_relaxed {T} `{Plain T} (f : prog pmem T) : prog tx_state T :=
  debug_level_zero;;; bypass_or (tx_run f).

Definition try_run_relaxed {T} `{Plain (Result T ErrorCode)}
    (f : prog pmem (Result T ErrorCode)) : prog tx_state (Result T ErrorCode) :=
  debug_level_zero;;; bypass_or (tx_try_run f).

Definition fast_run {T} `{Plain T} (f : prog pmem T) : prog tx_state T :=
  bypass_or (tx_fast_run f).

Definition run_in_loop {T} (f : prog pmem T) : prog tx_state T := tx_run_no_replay f.

(** A client of transactions: a sequence in which each may depend on the
    results of the earlier ones, and what running it from its start means. *)
Inductive session (R : Type) : Type :=
| SRet (r : R)
| STx (T : Type) (HT : Plain T) (f : prog pmem T) (k : T → session R).

Fixpoint run_session {R} (s : session R) : prog tx_state R :=
  match s with
  | SRet _ r => Ret r
  | STx _ T HT f k => let* v := run_relaxed f in run_session (k v)
  end.
End transaction.
Arguments SRet {R} r.
Arguments STx {R T HT} f k.

(** ** Sessions under power failures *)

Section sessions.
Context `{Arch, Board, TxFeatures} (Hboard : board_ok)
  (Hopt : opt_tx_cache_space = true) (Hcache : cache_ok).

(** [tx_body_ok f m v m']: on the memory [m], whatever an empty journal holds,
    [f] returns [v] in the memory [m'], and logs what it overwrites. *)
Definition tx_body_ok {T} (f : prog pmem T) (m : list Z) (v : T) (m' : list Z) : Prop :=
  Logged (length m) f ∧
  ∀ j, jrepr [] j → ∃ j', exec f {| bytes := m; journal := j |}
                          = Done v {| bytes := m'; journal := j' |}.

(** [path s m i k s' m' n bs]: the session [s] goes from [m], with [i]
    transactions and [k] bytes of results behind it, to the rest [s'] in [m'],
    with [n] behind it and [bs] the bytes of the results in between. *)
Inductive path {R} : session R → list Z → nat → nat → session R → list Z → nat → list Z → Prop :=
| path_refl s m i k : path s m i k s m i []
| path_tx T (HT : Plain T) (f : prog pmem T) kont m i k v m1 s' m' n bs :
    PlainLaws T → tx_body_ok f m v m1 → fits (T:=T) i k →
    (Z.of_nat k < TX_CACHE_SZ ∨ size_of T = 0%nat) →
    path (kont v) m1 (S i) (k + size_of T) s' m' n bs →
    path (STx f kont) m i k s' m' n (to_bytes v ++ bs).

(** The memory a crash leaves, seen through the commit flag. *)
Definition pm_ok (b : bool) (m : list Z) (p : pmem) : Prop :=
  if b then bytes p = m ∧ ∃ es, jrepr es (journal p) else ∃ es, undoes es m p.

(** Every store of a session satisfies [consistent]: some prefix of its
    transactions has happened completely, and nothing else. *)
Definition consistent {R} (s0 : session R) (m0 : list Z) (c : tx_state) : Prop :=
  ∃ b s m n bs, path s0 m0 0 0 s m n bs ∧ cache_repr b n bs (tx_cache c) ∧ pm_ok b m (tx_pm c).

(** A store from which the session can be (re-)executed from transaction [i]. *)
Record ready (b : bool) (n i k : nat) (bs m : list Z) (c : tx_state) : Prop := {
  ready_repr : cache_repr b n bs (tx_cache c);
  ready_ptr : ptr (tx_cache c) = pack (Z.of_nat i) (Z.of_nat k);
  ready_pm : undoes [] m (tx_pm c);
  ready_level : debug_assertions = true → nesting_level c = 0;
  ready_bypass : debug_assertions = true → (i < n)%nat → may_bypass c = true;
}.

Lemma path_snoc {R T} (HT : Plain T) (s : session R) m i k (f : prog pmem T) kont m' n bs v m1 :
  path s m i k (STx f kont) m' n bs → PlainLaws T → tx_body_ok f m' v m1 →
  fits (T:=T) n (k + length bs) →
  (Z.of_nat (k + length bs) < TX_CACHE_SZ ∨ size_of T = 0%nat) →
  path s m i k (kont v) m1 (S n) (bs ++ to_bytes v).
Proof.
  intros Hp HTL Hf Hfit Hroom. remember (STx f kont) as s' eqn:Hs'.
  induction Hp as [s m i k|T' HT' f' kont' m i k v' m1' s' m' n bs HTL' Hf' Hfit' Hroom' Hp IH]; subst.
  - rewrite Nat.add_0_r in *. cbn. rewrite <-(app_nil_r (to_bytes v)).
    eapply path_tx; [done..|]. apply path_refl.
  - rewrite <-(assoc_L app). eapply path_tx; [done..|].
    rewrite length_app, length_to_bytes, Nat.add_assoc in Hfit, Hroom. by apply IH.
Qed.

(** Facts about a store in terms of its cache and its memory. *)
Lemma consistent_of {R} (s0 s : session R) m0 b m n bs c :
  path s0 m0 0 0 s m n bs → cache_repr b n bs (tx_cache c) → pm_ok b m (tx_pm c) →
  consistent s0 m0 c.
Proof. intros. by exists b, s, m, n, bs. Qed.

Lemma undoes_nil_pm_ok b m p : undoes [] m p → pm_ok b m p.
Proof. intros Hu. destruct b; [|by exists []]. destruct Hu as (Hj & _ & <-). by split; [|exists []]. Qed.

Lemma ready_consistent {R} (s0 s : session R) m0 b n i k bs m c :
  path s0 m0 0 0 s m n bs → ready b n i k bs m c → consistent s0 m0 c.
Proof. intros Hp Hr. eapply consistent_of; [done|apply Hr|apply undoes_nil_pm_ok, Hr]. Qed.

(** *** One transaction that has to be executed *)

(** The nesting level does not matter to what a crash leaves. *)
Definition same_but_level (c d : tx_state) : Prop :=
  tx_cache d = tx_cache c ∧ tx_pm d = tx_pm c ∧ may_bypass d = may_bypass c.

Lemma inc_nesting_runs (I : tx_state → Prop) c :
  (debug_assertions = true → nesting_level c = 0) → (∀ d, same_but_level c d → I d) →
  runs I inc_nesting c
    (λ _ d, same_but_level c d ∧ (debug_assertions = true → nesting_level d = 1)).
Proof.
  intros Hl HI. unfold inc_nesting.
  destruct debug_assertions; [|apply runs_ret; [by apply HI|done]].
  pose proof usize_mod_ge. apply runs_write; [by apply HI|]. apply runs_read.
  cbn [bind nesting_level with_nesting]. rewrite Hl, uadd_small by (done || lia).
  apply runs_assert; [done|by apply HI|]. split; [done|]. intros _. cbn.
  by rewrite Hl, uadd_small by (done || lia).
Qed.

Lemma dec_nesting_runs (I : tx_state → Prop) c :
  (debug_assertions = true → nesting_level c = 1) → (∀ d, same_but_level c d → I d) →
  runs I dec_nesting c
    (λ _ d, same_but_level c d ∧ (debug_assertions = true → nesting_level d = 0)).
Proof.
  intros Hl HI. unfold dec_nesting, debug_commit_invariant_assert.
  destruct debug_assertions; [|apply runs_ret; [by apply HI|done]].
  apply runs_read. cbn [bind]. rewrite Hl by done. cbn [assert_ Z.ltb Z.compare skip bind].
  apply runs_write; [by apply HI|]. apply runs_read. cbn [bind nesting_level with_nesting].
  rewrite Hl by done. apply runs_assert; [done|by apply HI|]. split; [done|]. intros _. cbn.
  by rewrite Hl.
Qed.

Lemma tx_begin_runs {R} (s0 s : session R) m0 b n i k bs m c :
  path s0 m0 0 0 s m n bs → ready b n i k bs m c →
  runs (consistent s0 m0) tx_begin c (λ _ d,
    cache_repr false n bs (tx_cache d) ∧ ptr (tx_cache d) = ptr (tx_cache c) ∧
    tx_pm d = tx_pm c ∧ (debug_assertions = true → nesting_level d = 1)).
Proof.
  intros Hp Hr. pose proof Hr as [Hrepr Hptr Hpm Hl _].
  assert (HI : ∀ d, same_but_level c d → consistent s0 m0 d).
  { intros d (Hd1 & Hd2 & _). eapply consistent_of; [done|by rewrite Hd1|].
    rewrite Hd2. by apply undoes_nil_pm_ok. }
  eapply runs_bind; [by apply inc_nesting_runs|]. intros [] d [Hd Hld].
  pose proof Hd as (Hd1 & Hd2 & Hd3). apply runs_write; [by apply HI|]. cbn.
  assert (Hclr : cache_repr false n bs (with_ctail (λ t, Z.land t (unot TX_COMMITTED)) (tx_cache d)))
    by (rewrite Hd1; by eapply repr_clear).
  apply runs_ret; cbn.
  - eapply consistent_of; [done|done|]. cbn. rewrite Hd2. by apply (undoes_nil_pm_ok false).
  - by rewrite Hd1 in *.
Qed.

(** The commit point: one store of the cache's tail. *)
Lemma tx_commit_runs {R T} {HT : Plain T} (s0 : session R) m0 (f : prog pmem T) kont n bs m v m1 c es :
  path s0 m0 0 0 (STx f kont) m n bs → PlainLaws T → tx_body_ok f m v m1 →
  fits (T:=T) n (length bs) → (Z.of_nat (length bs) < TX_CACHE_SZ ∨ size_of T = 0%nat) →
  cache_repr false n bs (tx_cache c) →
  ptr (tx_cache c) = pack (Z.of_nat n) (Z.of_nat (length bs)) →
  undoes es m (tx_pm c) → bytes (tx_pm c) = m1 →
  (debug_assertions = true → nesting_level c = 1) →
  runs (consistent s0 m0) (tx_commit v) c
    (λ _, ready true (S n) (S n) (length (bs ++ to_bytes v)) (bs ++ to_bytes v) m1).
Proof.
  intros Hp HTL Hf Hfit Hroom Hrepr Hptr Hu Hm1 Hl.
  assert (Hp' : path s0 m0 0 0 (kont v) m1 (S n) (bs ++ to_bytes v)) by (by eapply path_snoc).
  assert (Hcons : ∀ d, tx_pm d = tx_pm c →
    cache_repr false n bs (tx_cache d) ∨ cache_repr true (S n) (bs ++ to_bytes v) (tx_cache d) →
    consistent s0 m0 d).
  { intros d Hd [Hk|Hk].
    - eapply consistent_of; [exact Hp|exact Hk|]. rewrite Hd. by exists es.
    - eapply consistent_of; [exact Hp'|exact Hk|]. rewrite Hd. split; [done|]. destruct Hu; eauto. }
  eapply runs_bind.
  { apply dec_nesting_runs; [done|]. intros d (Hd1 & Hd2 & _). apply Hcons; [done|left; by rewrite Hd1]. }
  intros [] c1 [(Hc1 & Hpm1 & _) Hl1]. eapply runs_bind.
  { apply runs_zoom. cbn [lget cache_lens]. rewrite Hc1. eapply runs_crash;
      [eapply runs_mono; [by apply (cache_result_spec Hopt Hcache)|]|].
    - intros [] k' Hk. exact (conj eq_refl Hk : (λ _ d, d = with_tx_cache (tx_cache d) c1 ∧
        cache_repr true (S n) (bs ++ to_bytes v) (tx_cache d) ∧
        ptr (tx_cache d) = pack (Z.of_nat (S n)) (Z.of_nat (length (bs ++ to_bytes v)))) tt
        (with_tx_cache k' c1)).
    - intros k' Hk. by apply Hcons. }
  intros [] d (Hd & Hrd & Hpd). rewrite Hd. cbn.
  assert (Hclear : undoes [] m1 (set_journal (Pmem.set_tail 0) (tx_pm c1))).
  { rewrite Hpm1. destruct (tx_pm c); cbn in *; subst. eapply undoes_empty, Hu. }
  apply runs_write; [apply Hcons; cbn; [done|by right]|]. cbn. apply runs_ret.
  - eapply consistent_of; [exact Hp'|done|]. exact (undoes_nil_pm_ok true _ _ Hclear).
  - split; [done..|]. intros _ ?. lia.
Qed.

Lemma tx_run_runs {R T} {HT : Plain T} (s0 : session R) m0 (f : prog pmem T) kont b n bs m v m1 c :
  path s0 m0 0 0 (STx f kont) m n bs → PlainLaws T → tx_body_ok f m v m1 →
  fits (T:=T) n (length bs) → (Z.of_nat (length bs) < TX_CACHE_SZ ∨ size_of T = 0%nat) →
  ready b n n (length bs) bs m c →
  runs (consistent s0 m0) (tx_run f) c (λ r d, r = v ∧
    ready true (S n) (S n) (length (bs ++ to_bytes v)) (bs ++ to_bytes v) m1 d).
Proof.
  intros Hp HTL Hf Hfit Hroom Hr. eapply runs_bind; [by eapply tx_begin_runs|].
  intros [] c1 (Hrepr & Hptr & Hpm & Hl). pose proof Hf as [Hlog Hex].
  pose proof (ready_pm _ _ _ _ _ _ _ Hr) as Hu. rewrite <-Hpm in Hu.
  assert (Hbody : runs (λ p, ∃ es, undoes es m p) f (tx_pm c1)
    (λ r p, r = v ∧ bytes p = m1 ∧ ∃ es, undoes es m p)).
  { pose proof (Hlog [] m _ eq_refl Hu) as Hal. destruct (tx_pm c1) as [by1 j1].
    pose proof Hu as (Hj1 & _ & Hby1). cbn in Hj1, Hby1. subst by1. destruct (Hex j1 Hj1) as [j' E].
    eapply runs_intro; [exact Hal|exact E|]. split_and!; [done..|]. by eapply always_final in Hal. }
  eapply runs_bind.
  { apply runs_zoom. eapply runs_crash; [eapply runs_mono; [exact Hbody|]|].
    - intros r p Hrp. exact (conj eq_refl Hrp : (λ r d, d = with_pm (tx_pm d) c1 ∧ r = v ∧
        bytes (tx_pm d) = m1 ∧ ∃ es, undoes es m (tx_pm d)) r (with_pm p c1)).
    - intros p Hes. by eapply consistent_of. }
  intros r d (Hd & -> & Hm1 & es & Hes). eapply runs_bind.
  - eapply (tx_commit_runs s0 m0 f kont); try done; rewrite Hd; try done.
    cbn. rewrite Hptr. apply Hr.
  - intros [] d' Hd'. apply runs_ret; [|done]. eapply ready_consistent; [|done].
    by eapply path_snoc.
Qed.

Lemma debug_level_zero_runs I c :
  (debug_assertions = true → nesting_level c = 0) → I c →
  runs I debug_level_zero c (λ _ d, d = c).
Proof.
  intros Hl HI. apply runs_read. cbn [bind]. apply runs_assert; [|done..].
  destruct debug_assertions; [|done]. by rewrite Hl.
Qed.

Lemma debug_may_bypass_runs I c :
  (debug_assertions = true → may_bypass c = true) → I c →
  runs I debug_may_bypass c (λ _ d, d = c).
Proof.
  intros Hl HI. apply runs_read. cbn [bind]. apply runs_assert; [|done..].
  destruct debug_assertions; [|done]. by rewrite Hl.
Qed.

(** A transaction that has already happened is replayed from the cache. *)
Lemma run_relaxed_replay {R T} {HT : Plain T} (s0 s' : session R) m0 (f : prog pmem T)
    b n i pre (v : T) post m c :
  path s0 m0 0 0 s' m n (pre ++ to_bytes v ++ post) → PlainLaws T → (i < n)%nat →
  (Z.of_nat (length pre) < TX_CACHE_SZ ∨ size_of T = 0%nat) →
  ready b n i (length pre) (pre ++ to_bytes v ++ post) m c →
  runs (consistent s0 m0) (run_relaxed f) c (λ r d, r = v ∧
    ready b n (S i) (length (pre ++ to_bytes v)) (pre ++ to_bytes v ++ post) m d).
Proof.
  intros Hp HTL Hi Hroom Hr. pose proof Hr as [Hrepr Hptr Hpm Hl Hby].
  assert (HI : ∀ d, tx_pm d = tx_pm c →
    cache_repr b n (pre ++ to_bytes v ++ post) (tx_cache d) → consistent s0 m0 d).
  { intros d Hd Hk. eapply consistent_of; [done..|]. rewrite Hd. by apply undoes_nil_pm_ok. }
  eapply runs_bind; [apply debug_level_zero_runs; [done|by apply HI]|]. intros [] d ->.
  eapply runs_bind.
  { apply runs_zoom. eapply runs_crash; [eapply runs_mono;
      [by eapply (try_retrieve_spec Hopt Hcache b n pre v post i)|]|].
    - intros r k Hk. exact (conj eq_refl Hk : (λ r d, d = with_tx_cache (tx_cache d) c ∧ r = Some v ∧
        cache_repr b n (pre ++ to_bytes v ++ post) (tx_cache d) ∧
        ptr (tx_cache d) = pack (Z.of_nat (S i)) (Z.of_nat (length (pre ++ to_bytes v)))) r
        (with_tx_cache k c)).
    - intros k Hk. by apply HI. }
  intros r d (Hd & -> & Hrd & Hpd).
  assert (Hrdy : ready b n (S i) (length (pre ++ to_bytes v)) (pre ++ to_bytes v ++ post) m d).
  { split; [done|done|by rewrite Hd..|]. intros Hdb ?. rewrite Hd. apply Hby; [done|lia]. }
  eapply runs_bind.
  - apply (debug_may_bypass_runs (consistent s0 m0)); [|by eapply ready_consistent].
    intros Hdb. rewrite Hd. by apply Hby.
  - intros [] d' ->. apply runs_ret; [by eapply ready_consistent|done].
Qed.

(** The next transaction is not in the cache and is executed. *)
Lemma run_relaxed_fresh {R T} {HT : Plain T} (s0 : session R) m0 (f : prog pmem T) kont b n bs m v m1 c :
  path s0 m0 0 0 (STx f kont) m n bs → PlainLaws T → tx_body_ok f m v m1 →
  fits (T:=T) n (length bs) → (Z.of_nat (length bs) < TX_CACHE_SZ ∨ size_of T = 0%nat) →
  ready b n n (length bs) bs m c →
  runs (consistent s0 m0) (run_relaxed f) c (λ r d, r = v ∧
    ready true (S n) (S n) (length (bs ++ to_bytes v)) (bs ++ to_bytes v) m1 d).
Proof.
  intros Hp HTL Hf Hfit Hroom Hr. pose proof Hr as [Hrepr Hptr Hpm Hl _].
  eapply runs_bind; [apply debug_level_zero_runs; [done|by eapply ready_consistent]|].
  intros [] d ->. eapply runs_bind.
  { apply runs_zoom. eapply runs_crash; [eapply runs_mono;
      [by eapply (try_retrieve_none Hopt Hcache b n bs)|]|].
    - intros r k [-> ->]. exact (conj eq_refl eq_refl : (λ r d, r = None ∧ d = with_tx_cache (tx_cache c) c)
        None (with_tx_cache (tx_cache c) c)).
    - intros k Hk. eapply consistent_of; [done..|]. by apply undoes_nil_pm_ok. }
  intros r d [-> ->]. replace (with_tx_cache (tx_cache c) c) with c by (by destruct c).
  by eapply tx_run_runs.
Qed.

(** The rest of a session from its first transaction that has not happened. *)
Lemma run_session_forward {R} (s0 s : session R) m0 m i k s' m' n bs2 :
  path s m i k s' m' n bs2 → ∀ r b bs c, s' = SRet r →
  path s0 m0 0 0 s m i bs → k = length bs → ready b i i k bs m c →
  runs (consistent s0 m0) (run_session s) c
    (λ v d, v = r ∧ ∃ b', ready b' n n (length (bs ++ bs2)) (bs ++ bs2) m' d).
Proof.
  induction 1 as [s m i k|T HT f kont m i k v m1 s' m' n bs2 HTL Hf Hfit Hroom Hp IH];
    intros r b bs c Hs' Hp0 Hk Hr; subst.
  - rewrite app_nil_r. apply runs_ret; [by eapply ready_consistent|eauto].
  - eapply runs_bind; [by eapply run_relaxed_fresh|]. intros r1 d [-> Hd]. rewrite (assoc_L app).
    eapply IH; [done|by eapply path_snoc|by rewrite length_app, length_to_bytes|].
    by rewrite length_app, length_to_bytes in Hd.
Qed.

Lemma path_le {R} (s s' : session R) m i k m' n bs : path s m i k s' m' n bs → (i ≤ n)%nat.
Proof. induction 1; lia. Qed.

(** A session has one course. *)
Lemma path_inv {R T} {HT : Plain T} (f : prog pmem T) (kont : T → session R) m i k r m' n bs :
  path (STx f kont) m i k (SRet r) m' n bs →
  ∃ v m1 bs2, tx_body_ok f m v m1 ∧ path (kont v) m1 (S i) (k + size_of T) (SRet r) m' n bs2.
Proof.
  intros Hp. remember (STx f kont) as s eqn:Hs. remember (SRet r) as s' eqn:Hs'.
  destruct Hp as [|T' HT' f' kont' m i k v m1 s' m' n bs HTL Hf Hfit Hroom Hp]; [congruence|].
  injection Hs as -> E1 E2 E3. apply inj_pair2 in E1, E2, E3. subst.
  by exists v, m1, bs.
Qed.

Lemma tx_body_det {T} (f : prog pmem T) m v1 m1 v2 m2 :
  tx_body_ok f m v1 m1 → tx_body_ok f m v2 m2 → v1 = v2 ∧ m1 = m2.
Proof.
  intros [_ Hf1] [_ Hf2]. destruct (Hf1 _ (jrepr_new Hboard)) as [? E1].
  destruct (Hf2 _ (jrepr_new Hboard)) as [? E2]. rewrite E1 in E2. by simplify_eq.
Qed.

Lemma path_det {R} (s s1 : session R) m i k m1 n1 bs1 :
  path s m i k s1 m1 n1 bs1 → ∀ r mf nf bs, path s m i k (SRet r) mf nf bs →
  ∃ bs2, path s1 m1 n1 (k + length bs1) (SRet r) mf nf bs2.
Proof.
  induction 1 as [s m i k|T HT f kont m i k v m1 s1 m1' n1 bs1 HTL Hf Hfit Hroom Hp IH];
    intros r mf nf bs Hp2; [rewrite Nat.add_0_r; eauto|].
  apply path_inv in Hp2 as (v' & m1'' & bs2 & Hf' & Hp2).
  destruct (tx_body_det _ _ _ _ _ _ Hf Hf') as [<- <-].
  rewrite length_app, length_to_bytes, Nat.add_assoc. by eapply IH.
Qed.

(** The part of a session that has already happened. *)
Lemma run_session_replay {R} (s0 s : session R) m0 m i k s' m' n bs2 (Q : R → tx_state → Prop) :
  path s m i k s' m' n bs2 → ∀ b pre c, path s0 m0 0 0 s' m' n (pre ++ bs2) → k = length pre →
  ready b n i k (pre ++ bs2) m' c →
  (∀ d, ready b n n (length (pre ++ bs2)) (pre ++ bs2) m' d →
    runs (consistent s0 m0) (run_session s') d Q) →
  runs (consistent s0 m0) (run_session s) c Q.
Proof.
  induction 1 as [s m i k|T HT f kont m i k v m1 s' m' n bs2 HTL Hf Hfit Hroom Hp IH];
    intros b pre c Hp0 Hk Hr HQ; subst.
  - rewrite app_nil_r in *. by apply HQ.
  - apply path_le in Hp as Hle. eapply runs_bind; [by eapply run_relaxed_replay|].
    intros r d [-> Hd]. rewrite (assoc_L app) in *.
    eapply IH; [done|by rewrite length_app, length_to_bytes| |done].
    by rewrite length_app, length_to_bytes in Hd.
Qed.

(** A whole session from its start, with any number of its transactions done. *)
Lemma run_session_runs {R} (s0 s : session R) m0 b n bs m c r mf nf bsf :
  path s0 m0 0 0 s m n bs → path s m n (length bs) (SRet r) mf nf bsf → ready b n 0 0 bs m c →
  runs (consistent s0 m0) (run_session s0) c
    (λ v d, v = r ∧ ∃ b', ready b' nf nf (length (bs ++ bsf)) (bs ++ bsf) mf d).
Proof.
  intros Hp Hp' Hr. eapply (run_session_replay _ _ _ _ _ _ _ _ _ _ _ Hp b []); [done..|].
  intros d Hd. by eapply run_session_forward.
Qed.
End sessions.
