(* ===== verification/TxAttempt.v ===== *)
(** * One transaction that may ask for a retry ([try_run_relaxed])

    The transactions of the blocking system calls end with [Err TxRetry] when the
    call cannot be served: they commit without a result, so that the next attempt
    executes them again. The body need not roll back to the very memory it started
    from: its unlogged stores may show in bytes that mean nothing. *)

From S2P Require Import Prelude Arch Pmem PmemSpec TxCache Transaction.

Definition is_retry {T} (r : Result T ErrorCode) : bool := match r with Err TxRetry => true | _ => false end.

Section attempt.
Context `{Arch, Board, TxFeatures} (Hboard : board_ok)
  (Hopt : opt_tx_cache_space = true) (Hcache : cache_ok).
Context {T : Type} {HT : Plain (Result T ErrorCode)} (HTL : PlainLaws (Result T ErrorCode)).
(** [n] transactions with results [bs] are behind; the memory before satisfies
    [J] and the memory after, with the result, [K]. *)
Context (n : nat) (bs : list Z) (J : list Z → Prop) (K : Result T ErrorCode → list Z → Prop).
Hypothesis Hretry : ∀ m, K (Err TxRetry) m → J m.

(** A store that rolls back to a memory with [J]. *)
Definition uncommitted (b : bool) (c : tx_state) : Prop :=
  cache_repr b n bs (tx_cache c) ∧ (∃ es m, undoes es m (tx_pm c) ∧ J m) ∧ (b = true → J (bytes (tx_pm c))).
(** The transaction counts, with its result. *)
Definition committed (c : tx_state) : Prop :=
  ∃ r, is_retry r = false ∧ cache_repr true (S n) (bs ++ to_bytes r) (tx_cache c) ∧ (∃ es, jrepr es (journal (tx_pm c))) ∧ K r (bytes (tx_pm c)).
Definition all_or_nothing (c : tx_state) : Prop := (∃ b, uncommitted b c) ∨ committed c.

(** What the attempt ends with. *)
Definition attempted (r : Result T ErrorCode) (d : tx_state) : Prop :=
  ∃ m, K r m ∧
    if is_retry r then ready true n n (length bs) bs m d
    else ready true (S n) (S n) (length (bs ++ to_bytes r)) (bs ++ to_bytes r) m d.

Definition rolls_back_ok (p : pmem) : Prop := ∃ es m, undoes es m p ∧ J m.

Lemma commit_runs r c :
  is_retry r = false → uncommitted false c → K r (bytes (tx_pm c)) → fits (T := Result T ErrorCode) n (length bs) →
  ptr (tx_cache c) = pack (Z.of_nat n) (Z.of_nat (length bs)) → (debug_assertions = true → nesting_level c = 1) →
  runs all_or_nothing (tx_commit r) c (λ _ d, attempted r d).
Proof.
  intros Hr (Hc & (es & m & Hu & HJ) & _) HK Hfit Hptr Hl.
  assert (Hcons : ∀ d, tx_pm d = tx_pm c →
    cache_repr false n bs (tx_cache d) ∨ cache_repr true (S n) (bs ++ to_bytes r) (tx_cache d) → all_or_nothing d).
  { intros d Hd [Hk|Hk]; [left; exists false|right; exists r].
    - split_and!; [done|rewrite Hd; eauto|done].
    - rewrite Hd. split_and!; [done|done|by eexists; apply Hu|done]. }
  eapply runs_bind.
  { apply dec_nesting_runs; [done|]. intros d (Hd1 & Hd2 & _). apply Hcons; [done|left; by rewrite Hd1]. }
  intros [] c1 [(Hc1 & Hpm1 & _) Hl1]. eapply runs_bind.
  { apply runs_zoom. cbn [lget cache_lens]. rewrite Hc1. eapply runs_crash;
      [eapply runs_mono; [by apply (cache_result_spec Hopt Hcache)|]|].
    - intros [] k' Hk. exact (conj eq_refl Hk : (λ _ d, d = with_tx_cache (tx_cache d) c1 ∧
        cache_repr true (S n) (bs ++ to_bytes r) (tx_cache d) ∧
        ptr (tx_cache d) = pack (Z.of_nat (S n)) (Z.of_nat (length (bs ++ to_bytes r)))) tt
        (with_tx_cache k' c1)).
    - intros k' Hk. by apply Hcons. }
  intros [] d (Hd & Hrd & Hpd). rewrite Hd. cbn.
  apply runs_write; [apply Hcons; cbn; [done|by right]|]. cbn.
  assert (Hclear : undoes [] (bytes (tx_pm c)) (set_journal (Pmem.set_tail 0) (tx_pm c1))).
  { rewrite Hpm1. destruct (tx_pm c); cbn in *; subst. eapply undoes_empty, Hu. }
  apply runs_ret.
  - right. exists r. cbn. rewrite Hpm1. split_and!; [done|done|exists []; rewrite <-Hpm1; apply Hclear|done].
  - exists (bytes (tx_pm c)). split; [done|]. rewrite Hr. split; [done..|]. intros _ ?. lia.
Qed.

(** Giving up leaves the transaction to be executed again. *)
Lemma retry_runs c :
  uncommitted false c → K (Err TxRetry) (bytes (tx_pm c)) →
  ptr (tx_cache c) = pack (Z.of_nat n) (Z.of_nat (length bs)) → (debug_assertions = true → nesting_level c = 1) →
  runs all_or_nothing tx_commit_no_replay c (λ _ d, attempted (Err TxRetry) d).
Proof.
  intros (Hc & (es & m & Hu & HJ) & _) HK Hptr Hl. pose proof (Hretry _ HK) as HJ'.
  assert (Hcons : ∀ b d, tx_pm d = tx_pm c → cache_repr b n bs (tx_cache d) → all_or_nothing d).
  { intros b d Hd Hk. left. exists b. unfold uncommitted. rewrite Hd. split_and!; [done|eauto|done]. }
  eapply runs_bind.
  { apply dec_nesting_runs; [done|]. intros d (Hd1 & Hd2 & _). apply (Hcons false); [done|by rewrite Hd1]. }
  intros [] c1 [(Hc1 & Hpm1 & _) Hl1]. cbn.
  assert (Hk1 : cache_repr true n bs (with_ctail (λ t, Z.lor t TX_COMMITTED) (tx_cache c1))).
  { rewrite Hc1. by eapply repr_commit. }
  apply runs_write; [apply (Hcons false); [done|by rewrite Hc1]|]. cbn.
  assert (Hclear : undoes [] (bytes (tx_pm c)) (set_journal (Pmem.set_tail 0) (tx_pm c1))).
  { rewrite Hpm1. destruct (tx_pm c); cbn in *; subst. eapply undoes_empty, Hu. }
  apply runs_write; [by apply (Hcons true)|]. cbn. apply runs_ret.
  - left. exists true. split_and!; [done|exists [], (bytes (tx_pm c)); done|]. intros _. cbn. by rewrite Hpm1.
  - exists (bytes (tx_pm c)). split; [done|]. split; cbn; try done.
    + by rewrite Hc1.
    + intros _ ?. lia.
Qed.

Lemma begin_runs b m c :
  ready b n n (length bs) bs m c → J m →
  runs all_or_nothing tx_begin c (λ _ d, cache_repr false n bs (tx_cache d) ∧ ptr (tx_cache d) = ptr (tx_cache c) ∧
    tx_pm d = tx_pm c ∧ (debug_assertions = true → nesting_level d = 1)).
Proof.
  intros [Hrepr Hptr Hpm Hl _] HJ.
  assert (HI : ∀ d, same_but_level c d → all_or_nothing d).
  { intros d (Hd1 & Hd2 & _). left. exists b. unfold uncommitted. rewrite Hd1, Hd2. split_and!; [done|eauto|].
    intros _. destruct Hpm as (_ & _ & E). cbn in E. by rewrite E. }
  eapply runs_bind; [by apply inc_nesting_runs|]. intros [] d [Hd Hld]. pose proof Hd as (Hd1 & Hd2 & Hd3).
  assert (Hclr : cache_repr false n bs (with_ctail (λ t, Z.land t (unot TX_COMMITTED)) (tx_cache d)))
    by (rewrite Hd1; by eapply repr_clear).
  apply runs_write; [by apply HI|]. cbn. apply runs_ret; cbn.
  - left. exists false. split_and!; [done|cbn; rewrite Hd2; eauto|done].
  - by rewrite Hd1 in *.
Qed.

(** The attempt is atomic. *)
Lemma try_run_attempt (f : prog pmem (Result T ErrorCode)) b m c :
  ready b n n (length bs) bs m c → J m → fits (T := Result T ErrorCode) n (length bs) →
  runs rolls_back_ok f (tx_pm c) (λ r p, K r (bytes p) ∧ rolls_back_ok p) →
  runs all_or_nothing (try_run_relaxed f) c attempted.
Proof.
  intros Hr HJ Hfit Hf. pose proof Hr as [Hrepr Hptr Hpm Hl _].
  assert (HI : ∀ d, same_but_level c d → all_or_nothing d).
  { intros d (Hd1 & Hd2 & _). left. exists b. unfold uncommitted. rewrite Hd1, Hd2. split_and!; [done|eauto|].
    intros _. destruct Hpm as (_ & _ & E). cbn in E. by rewrite E. }
  assert (HIc : all_or_nothing c) by by apply HI.
  eapply runs_bind; [by apply debug_level_zero_runs|]. intros [] d ->.
  eapply runs_bind.
  { apply runs_zoom. eapply runs_crash; [eapply runs_mono; [by eapply (try_retrieve_none Hopt Hcache b n bs)|]|].
    - intros r k [-> ->]. exact (conj eq_refl eq_refl : (λ r d, r = None ∧ d = with_tx_cache (tx_cache c) c)
        None (with_tx_cache (tx_cache c) c)).
    - intros k Hk. left. exists b. split_and!; [done|exists [], m; done|].
      intros _. destruct Hpm as (_ & _ & E). cbn in *. by rewrite E. }
  intros r d [-> ->]. replace (with_tx_cache (tx_cache c) c) with c by (by destruct c).
  (* begin *)
  unfold tx_try_run. eapply runs_bind; [by eapply (begin_runs b m)|].
  intros [] c1 (Hc1 & Hp1 & Hpm1 & Hl1).
  (* the body *)
  eapply runs_bind.
  { apply runs_zoom. cbn [lget pm_lens]. rewrite Hpm1. eapply runs_crash; [eapply runs_mono; [exact Hf|]|].
    - intros r p Hrp. exact (conj eq_refl Hrp : (λ r d, d = with_pm (tx_pm d) c1 ∧ K r (bytes (tx_pm d)) ∧ rolls_back_ok (tx_pm d))
        r (with_pm p c1)).
    - intros p Hp. left. exists false. split_and!; done. }
  intros r d (Hd & HK & Hes). rewrite Hd.
  assert (Hunc : uncommitted false (with_pm (tx_pm d) c1)) by (split_and!; done).
  assert (Hp1' : ptr (tx_cache c1) = pack (Z.of_nat n) (Z.of_nat (length bs))) by by rewrite Hp1.
  assert (Hfin : ∀ p : prog tx_state unit, runs all_or_nothing p (with_pm (tx_pm d) c1) (λ _, attempted r) →
    runs all_or_nothing (p;;; Ret r) (with_pm (tx_pm d) c1) attempted).
  { intros p Hp. pose proof (runs_always _ _ _ _ Hp) as Hal. eapply runs_bind.
    - destruct Hp as [_ (a & s' & E & HQ)].
      eapply (runs_intro _ _ _ a s' (λ _ d', attempted r d' ∧ all_or_nothing d')); [done|done|].
      split; [done|]. by eapply always_final.
    - intros [] d' [Hd' Hd'']. by apply runs_ret. }
  apply Hfin. destruct r as [v|[]]; (by apply retry_runs) || by apply commit_runs.
Qed.

(** What recovery makes of a store of the attempt. *)
Lemma recovered c :
  all_or_nothing c → ∃ d, exec roll_back_if_uncommitted c = Done tt d ∧
    (J (bytes (tx_pm d)) ∧ get_tx_id_of_tail (tx_cache d) = Z.of_nat n ∨
     ∃ r, is_retry r = false ∧ K r (bytes (tx_pm d)) ∧ cache_repr true (S n) (bs ++ to_bytes r) (tx_cache d) ∧
       get_tx_id_of_tail (tx_cache d) = Z.of_nat (S n)).
Proof.
  assert (Hcl : ∀ c, exec check_committed c =
    Done (is_committed (tx_cache c)) (if is_committed (tx_cache c) then with_pm (set_journal (Pmem.set_tail 0) (tx_pm c)) c else c)).
  { intros d. unfold check_committed. cbn. by destruct (is_committed _). }
  intros [(b & Hc & (es & m & Hu & HJ) & Hb)|(r & Hr & Hc & _ & HK)]; unfold roll_back_if_uncommitted;
    rewrite (exec_bind_done _ _ _ _ _ (Hcl c)), (repr_is_committed Hcache _ _ _ _ Hc).
  - destruct b.
    + eexists. split; [done|]. left. cbn. split; [by apply Hb|by eapply repr_get_id].
    + pose proof (exec_journal_recover Hboard es m (tx_pm c) Hu) as E.
      eexists. split; [by apply exec_zoom_done|]. left. cbn. split; [done|by eapply repr_get_id].
  - eexists. split; [done|]. right. exists r. cbn. split_and!; [done|done|done|by eapply repr_get_id].
Qed.
End attempt.

(** *** A whole transaction, without power failures *)

Section whole.
Context `{Arch, Board, TxFeatures} (Hopt : opt_tx_cache_space = true) (Hcache : cache_ok).

Lemma exec_tx_begin b n bs m c :
  ready b n n (length bs) bs m c →
  ∃ c1, exec tx_begin c = Done tt c1 ∧ cache_repr false n bs (tx_cache c1) ∧ tx_pm c1 = tx_pm c ∧
    ptr (tx_cache c1) = pack (Z.of_nat n) (Z.of_nat (length bs)) ∧ (debug_assertions = true → nesting_level c1 = 1).
Proof.
  intros [Hrepr Hptr Hpm Hl _].
  destruct (runs_exec _ _ _ _ (inc_nesting_runs (λ _, True) c Hl (λ _ _, I))) as ([] & c0 & E0 & (Hk0 & Hpm0 & _) & Hl1).
  exists (with_tx_cache (with_ctail (λ t, Z.land t (unot TX_COMMITTED)) (tx_cache c0)) c0). split_and!; try done.
  - unfold tx_begin. by rewrite (exec_bind_done _ _ _ _ _ E0).
  - cbn. rewrite Hk0. by eapply repr_clear.
  - cbn. by rewrite Hk0.
Qed.

Lemma exec_dec_nesting c :
  (debug_assertions = true → nesting_level c = 1) →
  ∃ d, exec dec_nesting c = Done tt d ∧ tx_cache d = tx_cache c ∧ tx_pm d = tx_pm c ∧ (debug_assertions = true → nesting_level d = 0).
Proof.
  intros Hl. destruct (runs_exec _ _ _ _ (dec_nesting_runs (λ _, True) c Hl (λ _ _, I))) as ([] & d & E & (? & ? & _) & ?). by exists d.
Qed.

Lemma cleared es p : jrepr es (journal p) → undoes [] (bytes p) (set_journal (Pmem.set_tail 0) p).
Proof. destruct p as [bp jp]. apply undoes_empty. Qed.

(** The result is not cached: [run_no_replay]. *)
Lemma exec_run_no_replay {T} (f : prog pmem T) b n bs m c r p :
  ready b n n (length bs) bs m c → exec f (tx_pm c) = Done r p → (∃ es, jrepr es (journal p)) →
  ∃ d, exec (tx_run_no_replay f) c = Done r d ∧ bytes (tx_pm d) = bytes p ∧ ready true n n (length bs) bs (bytes p) d.
Proof.
  intros Hr Ef [es Hes]. destruct (exec_tx_begin _ _ _ _ _ Hr) as (c1 & E1 & Hc1 & Hpm & Hptr & Hl1).
  assert (E2 : exec (zoom (S := pmem) f) c1 = Done r (with_pm p c1)) by (apply (exec_zoom_done (Lens0 := pm_lens)); cbn; by rewrite Hpm).
  destruct (exec_dec_nesting (with_pm p c1) Hl1) as (c2 & E3 & Hk2 & Hpm2 & Hl2).
  set (d := with_pm (set_journal (Pmem.set_tail 0) p) (with_tx_cache (with_ctail (λ t, Z.lor t TX_COMMITTED) (tx_cache c1)) c2)).
  exists d. split; [|split; [done|]].
  - unfold tx_run_no_replay, tx_commit_no_replay. rewrite (exec_bind_done _ _ _ _ _ E1), (exec_bind_done _ _ _ _ _ E2).
    rewrite exec_bind, (exec_bind_done _ _ _ _ _ E3). cbn. by rewrite Hk2, Hpm2.
  - split; cbn; try done; [by eapply repr_commit|by eapply cleared|]. intros _ ?. lia.
Qed.

(** The next transaction is not in the cache. *)
Lemma exec_try_get_none {T} `{Plain T} b n bs m c :
  ready b n n (length bs) bs m c → exec (try_get_cached_result (T := T)) c = Done None c.
Proof.
  intros [Hrepr Hptr0 _ _ _].
  destruct (runs_exec _ _ _ _ (try_retrieve_none Hopt Hcache b n bs (tx_cache c) Hrepr Hptr0)) as (r0 & k0 & Et & -> & ->).
  unfold try_get_cached_result. rewrite (exec_zoom_done (Lens0 := cache_lens) _ c None (tx_cache c) Et). by destruct c.
Qed.
Lemma exec_debug_level_zero b n bs m c : ready b n n (length bs) bs m c → exec debug_level_zero c = Done tt c.
Proof.
  intros [_ _ _ Hl _]. by destruct (runs_exec _ _ _ _ (debug_level_zero_runs (λ _, True) c Hl I)) as ([] & ? & E0 & ->).
Qed.

(** Committing the result of a body that has left the memory [p]. *)
Lemma exec_tx_commit {T} `{PlainLaws T} (r : T) n bs c :
  cache_repr false n bs (tx_cache c) → ptr (tx_cache c) = pack (Z.of_nat n) (Z.of_nat (length bs)) →
  (debug_assertions = true → nesting_level c = 1) → fits (T := T) n (length bs) → (∃ es, jrepr es (journal (tx_pm c))) →
  ∃ d, exec (tx_commit r) c = Done tt d ∧ bytes (tx_pm d) = bytes (tx_pm c) ∧
    ready true (S n) (S n) (length (bs ++ to_bytes r)) (bs ++ to_bytes r) (bytes (tx_pm c)) d.
Proof.
  intros Hc1 Hptr Hl1 Hfit [es Hes].
  destruct (exec_dec_nesting c Hl1) as (c2 & E3 & Hk2 & Hpm2 & Hl2). rewrite <-Hk2 in Hc1, Hptr.
  destruct (runs_exec _ _ _ _ (cache_result_spec Hopt Hcache false n bs (tx_cache c2) r Hc1 Hfit Hptr)) as ([] & k3 & E4 & Hk3 & Hp3).
  exists (with_pm (set_journal (Pmem.set_tail 0) (tx_pm c)) (with_tx_cache k3 c2)). split; [|split; [done|]].
  - unfold tx_commit. rewrite (exec_bind_done _ _ _ _ _ E3).
    rewrite (exec_bind_done _ _ _ _ _ (exec_zoom_done (Lens0 := cache_lens) _ c2 tt k3 E4)). cbn. by rewrite Hpm2.
  - split; cbn; try done; [by eapply cleared|]. intros _ ?. lia.
Qed.

(** The result is cached: [run]. *)
Lemma exec_run_relaxed {T} `{PlainLaws T} (f : prog pmem T) b n bs m c r p :
  ready b n n (length bs) bs m c → fits (T := T) n (length bs) → exec f (tx_pm c) = Done r p → (∃ es, jrepr es (journal p)) →
  ∃ d, exec (run_relaxed f) c = Done r d ∧ bytes (tx_pm d) = bytes p ∧
    ready true (S n) (S n) (length (bs ++ to_bytes r)) (bs ++ to_bytes r) (bytes p) d.
Proof.
  intros Hr Hfit Ef Hes. destruct (exec_tx_begin _ _ _ _ _ Hr) as (c1 & E1 & Hc1 & Hpm & Hptr & Hl1).
  assert (E2 : exec (zoom (S := pmem) f) c1 = Done r (with_pm p c1)) by (apply (exec_zoom_done (Lens0 := pm_lens)); cbn; by rewrite Hpm).
  destruct (exec_tx_commit r n bs (with_pm p c1) Hc1 Hptr Hl1 Hfit Hes) as (d & E3 & Hd & Hrd).
  exists d. split; [|done]. unfold run_relaxed, bypass_or.
  rewrite (exec_bind_done _ _ _ _ _ (exec_debug_level_zero _ _ _ _ _ Hr)), (exec_bind_done _ _ _ _ _ (exec_try_get_none _ _ _ _ _ Hr)).
  unfold tx_run. by rewrite (exec_bind_done _ _ _ _ _ E1), (exec_bind_done _ _ _ _ _ E2), (exec_bind_done _ _ _ _ _ E3).
Qed.
End whole.
