(* ===== verification/Replay.v ===== *)
(** * The replay cache of system calls ([SyscallReplayCache] of [syscalls.rs])

    Inside a user transaction every completed system call leaves its result in
    this buffer; when the transaction is executed again after a power failure the
    results are taken from the buffer instead of repeating the calls. *)

From S2P Require Import Prelude Arch TxCache.

Record SyscallReplayCache := {
  rptr : Z;
  rtail : Z;
  rcache : list Z;
}.

Definition with_rptr (f : Z → Z) (c : SyscallReplayCache) : SyscallReplayCache :=
  {| rptr := f (rptr c); rtail := rtail c; rcache := rcache c |}.
Definition with_rtail (f : Z → Z) (c : SyscallReplayCache) : SyscallReplayCache :=
  {| rptr := rptr c; rtail := f (rtail c); rcache := rcache c |}.
Definition with_rcache (f : list Z → list Z) (c : SyscallReplayCache) : SyscallReplayCache :=
  {| rptr := rptr c; rtail := rtail c; rcache := f (rcache c) |}.

Section replay.
Context `{Arch}.

Definition N_SYSCALL_RET_CACHE_ENTRY : Z := 16.
Definition SYSCALL_REPLAY_CACHE_SZ : Z := ARCH_ALIGN * N_SYSCALL_RET_CACHE_ENTRY.

Definition replay_new : SyscallReplayCache :=
  {| rptr := 0; rtail := 0; rcache := replicate (Z.to_nat SYSCALL_REPLAY_CACHE_SZ) 0 |}.

Definition get_ptr (c : SyscallReplayCache) : Z := rptr c.
Definition get_tail (c : SyscallReplayCache) : Z := rtail c.

(** The [copy_nonoverlapping] of [add_entry_start]: the [aligned_sz] bytes from
    the entry's address on. [pad] is what follows the entry in memory. *)
Fixpoint copy_entry (dst : nat) (bs : list Z) : prog SyscallReplayCache unit :=
  match bs with
  | [] => skip
  | b :: bs =>
      let* c := gets rcache in
      if decide (dst < length c)%nat
      then modify (with_rcache (<[dst := b]>));;; copy_entry (S dst) bs
      else Fail Undefined
  end.

Definition entry_size (T : Type) `{Plain T} : Z := align_up (Z.of_nat (size_of T)) ARCH_ALIGN.

Definition add_entry_start {T} `{Plain T} (pad : list Z) (entry : T) : prog SyscallReplayCache unit :=
  let aligned_sz := entry_size T in
  let* t := gets rtail in
  assert_ (uadd t aligned_sz <=? SYSCALL_REPLAY_CACHE_SZ);;;
  assert_ (t <? SYSCALL_REPLAY_CACHE_SZ);;;
  copy_entry (Z.to_nat t) (take (Z.to_nat aligned_sz) (to_bytes entry ++ pad));;;
  modify (with_rtail (λ t, uadd t aligned_sz)).

Definition add_empty_entry_start : prog SyscallReplayCache unit :=
  modify (with_rtail (λ t, uadd t ARCH_ALIGN)).

Definition add_entry_commit : prog SyscallReplayCache unit :=
  Read (λ c, modify (with_rptr (λ _, rtail c))).

Definition get_entry {T} `{Plain T} : prog SyscallReplayCache (option T) :=
  let* c := get in
  if rptr c <? rtail c then
    assert_ (rptr c <? SYSCALL_REPLAY_CACHE_SZ);;;
    if decide (Z.to_nat (rptr c) + size_of T ≤ length (rcache c))%nat then
      modify (with_rptr (λ p, uadd p (entry_size T)));;;
      Ret (Some (of_bytes (slice (Z.to_nat (rptr c)) (size_of T) (rcache c))))
    else Fail Undefined
  else Ret None.

Definition get_empty_entry : prog SyscallReplayCache bool :=
  let* c := get in
  if rptr c <? rtail c then modify (with_rptr (λ p, uadd p ARCH_ALIGN));;; Ret true
  else Ret false.

Definition replay_restart : prog SyscallReplayCache unit := modify (with_rptr (λ _, 0)).
Definition replay_reset : prog SyscallReplayCache unit := modify (with_rtail (λ _, 0)).
End replay.

(** ** Entries of the buffer *)

Section replay_lemmas.
Context `{Arch}.

Lemma replay_size_ok : 0 < SYSCALL_REPLAY_CACHE_SZ < usize_mod - 16.
Proof.
  unfold SYSCALL_REPLAY_CACHE_SZ, ARCH_ALIGN, N_SYSCALL_RET_CACHE_ENTRY, usize_mod.
  by destruct word_bits_cases as [->|[-> | ->]].
Qed.

(** [holds bs c]: the buffer's committed part is [bs]. *)
Definition holds (bs : list Z) (c : SyscallReplayCache) : Prop :=
  rtail c = Z.of_nat (length bs) ∧ Z.of_nat (length (rcache c)) = SYSCALL_REPLAY_CACHE_SZ ∧
  take (length bs) (rcache c) = bs.

Lemma exec_copy_entry dst bs c :
  (dst + length bs ≤ length (rcache c))%nat →
  exec (copy_entry dst bs) c = Done tt (with_rcache (list_inserts dst bs) c).
Proof.
  revert dst c; induction bs as [|x bs IH]; intros dst c Hle; [by destruct c|]. cbn in *.
  rewrite decide_True by lia. cbn. rewrite IH by (cbn; rewrite length_insert; lia).
  unfold with_rcache; cbn. by rewrite <-list_insert_inserts_lt by lia.
Qed.

Lemma holds_write bs c dst x :
  holds bs c → (length bs ≤ dst)%nat → holds bs (with_rcache (<[dst:=x]>) c).
Proof.
  intros (Ht & Hl & Hb) Hd. split_and!; cbn; rewrite ?length_insert; try done.
  by rewrite take_insert_ge.
Qed.

Lemma always_copy_entry bs c dst xs p :
  holds bs c → rptr c = p → (length bs ≤ dst)%nat →
  always (λ d, holds bs d ∧ rptr d = p) (copy_entry dst xs) c.
Proof.
  revert dst c; induction xs as [|x xs IH]; intros dst c Hc Hp Hd; [by apply always_ret|].
  cbn. apply always_read. case_decide; [|by apply always_fail]. cbn.
  apply always_write; [done|]. apply IH; [by apply holds_write|done|lia].
Qed.

Context {T : Type} `{PlainLaws T}.

Lemma entry_size_bounds :
  Z.of_nat (size_of T) + 9 ≤ usize_mod →
  Z.of_nat (size_of T) ≤ entry_size T < Z.of_nat (size_of T) + ARCH_ALIGN.
Proof.
  intros Hov. unfold entry_size. unfold ARCH_ALIGN in *.
  assert (∃ k, word_bits / 8 = 2 ^ k ∧ 0 ≤ k < word_bits ∧ 2 ^ k ≤ 8) as (k & Hk & Hkb & Hk8).
  { destruct word_bits_cases as [->|[-> | ->]]; [exists 1|exists 2|exists 3]; done. }
  rewrite Hk. rewrite align_up_pow2 by lia.
  pose proof (Z.pow_pos_nonneg 2 k). pose proof (Z.div_mod (Z.of_nat (size_of T) + 2 ^ k - 1) (2 ^ k)).
  pose proof (Z.mod_pos_bound (Z.of_nat (size_of T) + 2 ^ k - 1) (2 ^ k)). lia.
Qed.

(** The bytes one entry occupies. *)
Definition entry_bytes (pad : list Z) (v : T) : list Z :=
  take (Z.to_nat (entry_size T)) (to_bytes v ++ pad).

(** An entry of the size of [T] fits behind [k] bytes. *)
Definition entry_fits (k : nat) (pad : list Z) : Prop :=
  0 < entry_size T ∧ Z.of_nat (size_of T) ≤ entry_size T ∧
  Z.of_nat k + entry_size T ≤ SYSCALL_REPLAY_CACHE_SZ ∧
  entry_size T ≤ Z.of_nat (size_of T + length pad).

Lemma length_entry_bytes k pad v :
  entry_fits k pad → length (entry_bytes pad v) = Z.to_nat (entry_size T).
Proof.
  intros (? & ? & ? & ?). unfold entry_bytes. rewrite length_take, length_app, length_to_bytes. lia.
Qed.

Lemma holds_extend bs c xs :
  holds bs c → Z.of_nat (length bs + length xs) ≤ SYSCALL_REPLAY_CACHE_SZ →
  holds (bs ++ xs) {| rptr := rptr c; rtail := Z.of_nat (length bs + length xs);
                      rcache := list_inserts (length bs) xs (rcache c) |}.
Proof.
  intros (Ht & Hl & Hb) Hr. split_and!; cbn; [by rewrite length_app|by rewrite length_inserts|].
  rewrite length_app. apply list_eq; intros i.
  destruct (decide (i < length bs + length xs)%nat) as [Hi|Hi].
  - rewrite lookup_take_lt, lookup_inserts_full by lia. case_decide.
    + by rewrite lookup_app_r by lia.
    + rewrite lookup_app_l by lia. rewrite <-Hb. by rewrite lookup_take_lt by lia.
  - rewrite !lookup_ge_None_2; rewrite ?length_take, ?length_app; lia || done.
Qed.

(** Recording a result: one store of the tail makes it visible. *)
Lemma add_entry_start_spec bs c pad (v : T) :
  holds bs c → entry_fits (length bs) pad →
  ∃ c', exec (add_entry_start pad v) c = Done tt c' ∧
    holds (bs ++ entry_bytes pad v) c' ∧ rptr c' = rptr c ∧
    always (λ d, (holds bs d ∨ holds (bs ++ entry_bytes pad v) d) ∧ rptr d = rptr c)
      (add_entry_start pad v) c.
Proof.
  intros Hc Hf. pose proof (length_entry_bytes _ _ v Hf) as Hlen.
  pose proof Hc as (Ht & Hl & Hb). destruct Hf as (Hf0 & Hf1 & Hf2 & Hf3). pose proof replay_size_ok.
  pose proof (holds_extend bs c (entry_bytes pad v) Hc) as Hext. rewrite Hlen in Hext.
  specialize (Hext ltac:(lia)).
  assert (E : exec (copy_entry (length bs) (entry_bytes pad v)) c =
    Done tt (with_rcache (list_inserts (length bs) (entry_bytes pad v)) c))
    by (apply exec_copy_entry; lia).
  assert (Hu : uadd (Z.of_nat (length bs)) (entry_size T)
               = Z.of_nat (length bs + Z.to_nat (entry_size T))) by (rewrite uadd_small; lia).
  unfold add_entry_start. eexists. split; [|split; [exact Hext|split; [done|]]].
  - cbn [gets bind exec]. rewrite Ht. unfold assert_.
    rewrite (proj2 (Z.leb_le _ _)) by lia. rewrite (proj2 (Z.ltb_lt _ _)) by lia.
    cbn [skip bind]. rewrite Nat2Z.id. fold (entry_bytes pad v).
    erewrite exec_bind_done by exact E. cbn [exec modify]. unfold with_rtail. cbn. by rewrite Ht, Hu.
  - apply always_read. cbn [bind]. rewrite Ht. unfold assert_.
    rewrite (proj2 (Z.leb_le _ _)) by lia. rewrite (proj2 (Z.ltb_lt _ _)) by lia.
    cbn [skip bind]. rewrite Nat2Z.id. fold (entry_bytes pad v). apply always_bind.
    + eapply always_impl; [|by apply (always_copy_entry bs c _ _ (rptr c))]. intros d [? ?]; auto.
    + intros [] d Hd. rewrite E in Hd. simplify_eq. apply always_write.
      * split; [left|done].
        by destruct (always_final _ _ _ _ _ (always_copy_entry bs c (length bs)
          (entry_bytes pad v) (rptr c) Hc eq_refl (le_n _)) E).
      * apply always_ret. unfold with_rtail. cbn. rewrite Ht, Hu. auto.
Qed.

(** Replaying a result. *)
Lemma get_entry_spec pre pad (v : T) post c :
  holds (pre ++ entry_bytes pad v ++ post) c → entry_fits (length pre) pad →
  rptr c = Z.of_nat (length pre) →
  exec get_entry c =
    Done (Some v) (with_rptr (λ _, Z.of_nat (length (pre ++ entry_bytes pad v))) c).
Proof.
  intros Hc Hf Hp. pose proof (length_entry_bytes _ _ v Hf) as Hlen.
  destruct Hc as (Ht & Hl & Hb). destruct Hf as (Hf0 & Hf1 & Hf2 & Hf3). pose proof replay_size_ok.
  unfold get_entry. cbn [get bind exec]. rewrite Hp, Ht, !length_app, Hlen.
  rewrite (proj2 (Z.ltb_lt _ _)) by lia. unfold assert_.
  rewrite (proj2 (Z.ltb_lt _ _)) by lia. cbn [skip bind]. rewrite Nat2Z.id, decide_True by lia.
  cbn [bind modify exec]. f_equal.
  - assert (slice (length pre) (size_of T) (rcache c) = to_bytes v) as ->; [|by rewrite of_to_bytes].
    rewrite !length_app, Hlen in Hb.
    assert (Hsl : slice (length pre) (size_of T) (rcache c) = slice (length pre) (size_of T)
      (take (length pre + (Z.to_nat (entry_size T) + length post)) (rcache c))).
    { apply list_eq; intros j. destruct (decide (j < size_of T)%nat).
      - rewrite !lookup_slice by done. by rewrite lookup_take_lt by lia.
      - rewrite !lookup_ge_None_2; rewrite ?length_slice; rewrite ?length_take; lia || done. }
    rewrite Hsl, Hb. unfold slice. rewrite drop_app_length. unfold entry_bytes.
    rewrite take_app_le by (rewrite length_take, length_app, length_to_bytes; lia).
    rewrite take_take, Nat.min_l by lia. rewrite <-(length_to_bytes v). apply take_app_length.
  - unfold with_rptr. f_equal. rewrite Hp, uadd_small; lia.
Qed.

Lemma get_entry_none bs c :
  holds bs c → Z.of_nat (length bs) ≤ rptr c → exec (get_entry (T:=T)) c = Done None c.
Proof.
  intros (Ht & _) Hp. unfold get_entry. cbn. by rewrite Ht, (proj2 (Z.ltb_ge _ _)).
Qed.
End replay_lemmas.
