(* ===== verification/ReplaySpec.v ===== *)
(** * Recorded system calls are replayed

    The results of the completed system calls of a user transaction, recorded in
    any sequence, come back in the same sequence after a restart; a power failure
    at any point of the recording leaves a prefix of them. *)

From S2P Require Import Prelude Arch TxCache Replay.

Section spec.
Context `{Arch}.
Implicit Types s d : SyscallReplayCache.

(** A completed call: with a result, and what follows the result in memory, or
    without one. *)
Inductive call : Type :=
| CVal (T : Type) (HT : Plain T) (HL : PlainLaws T) (pad : list Z) (v : T)
| CEmpty.

(** How [syscall_end!] records it. *)
Definition record (c : call) : prog SyscallReplayCache unit :=
  match c with
  | CVal T HT _ pad v => add_entry_start pad v;;; add_entry_commit
  | CEmpty => add_empty_entry_start;;; add_entry_commit
  end.
Fixpoint record_all (cs : list call) : prog SyscallReplayCache unit :=
  match cs with [] => skip | c :: cs => record c;;; record_all cs end.

(** How [syscall_begin!] finds it. *)
Definition replayed (c : call) s s' : Prop :=
  match c with
  | CVal T HT _ _ v => exec get_entry s = Done (Some v) s'
  | CEmpty => exec get_empty_entry s = Done true s'
  end.
Fixpoint replays (cs : list call) s s' : Prop :=
  match cs with [] => s' = s | c :: cs => ∃ s1, replayed c s s1 ∧ replays cs s1 s' end.
(** After a restart exactly the calls [cs] are replayed. *)
Definition recalls (cs : list call) d : Prop :=
  ∃ s s', exec replay_restart d = Done tt s ∧ replays cs s s' ∧
    (∀ T (HT : Plain T), exec (get_entry (T := T)) s' = Done None s') ∧ exec get_empty_entry s' = Done false s'.

Definition call_size (c : call) : nat :=
  Z.to_nat (match c with CVal T HT _ _ _ => entry_size T | CEmpty => ARCH_ALIGN end).
(** The entry is not empty and its memory can be read. *)
Definition call_ok (c : call) : Prop :=
  match c with
  | CVal T HT _ pad _ => 0 < entry_size T ∧ Z.of_nat (size_of T) ≤ entry_size T ≤ Z.of_nat (size_of T + length pad)
  | CEmpty => True
  end.
Definition total (cs : list call) : nat := sum_list (call_size <$> cs).

(** The bytes of the buffer that hold the calls. *)
Definition bytes_of (c : call) (xs : list Z) : Prop :=
  match c with CVal T HT _ pad v => xs = entry_bytes pad v | CEmpty => length xs = Z.to_nat ARCH_ALIGN end.
Definition entries (cs : list call) (bs : list Z) : Prop := ∃ xss, Forall2 bytes_of cs xss ∧ bs = concat xss.

Lemma entries_snoc cs bs c xs : entries cs bs → bytes_of c xs → entries (cs ++ [c]) (bs ++ xs).
Proof.
  intros (xss & Hf & ->) Hx. exists (xss ++ [xs]). rewrite concat_app. cbn. rewrite app_nil_r.
  split; [|done]. by apply Forall2_app; [|constructor].
Qed.
Lemma entries_cons c cs bs : entries (c :: cs) bs → ∃ xs bs', bs = xs ++ bs' ∧ bytes_of c xs ∧ entries cs bs'.
Proof. intros (xss & Hf & ->). inversion Hf as [|? xs ? xss' Hx Hf']; subst. exists xs, (concat xss'). split; [done|]. split; [done|]. by exists xss'. Qed.

Lemma length_bytes_of c xs : call_ok c → bytes_of c xs → length xs = call_size c.
Proof.
  destruct c as [T HT HL pad v|]; [|done]. cbn. intros (H0 & H1 & H2) ->. unfold entry_bytes, call_size.
  rewrite length_take, length_app, length_to_bytes. lia.
Qed.
Lemma length_entries cs bs : Forall call_ok cs → entries cs bs → length bs = total cs.
Proof.
  revert bs; induction cs as [|c cs IH]; intros bs Hok He.
  - destruct He as (xss & Hf & ->). by inversion Hf.
  - apply Forall_cons in Hok as [Hc Hok]. apply entries_cons in He as (xs & bs' & -> & Hx & He).
    rewrite length_app, (length_bytes_of c xs Hc Hx), (IH bs' Hok He). done.
Qed.
Lemma total_app cs cs' : total (cs ++ cs') = (total cs + total cs')%nat.
Proof. unfold total. by rewrite fmap_app, sum_list_with_app. Qed.
Lemma total_cons c cs : total (c :: cs) = (call_size c + total cs)%nat.
Proof. done. Qed.

Lemma arch_align_le : 0 < ARCH_ALIGN ≤ SYSCALL_REPLAY_CACHE_SZ.
Proof. unfold SYSCALL_REPLAY_CACHE_SZ, ARCH_ALIGN, N_SYSCALL_RET_CACHE_ENTRY. destruct word_bits_cases as [->|[-> | ->]]; done. Qed.

(** Recording one call; every store shows the calls before it, or it as well. *)
Lemma record_spec cs bs s c :
  holds bs s → entries cs bs → call_ok c → Z.of_nat (length bs + call_size c) ≤ SYSCALL_REPLAY_CACHE_SZ →
  runs (λ d, (holds bs d ∧ entries cs bs) ∨ ∃ bs', holds bs' d ∧ entries (cs ++ [c]) bs')
    (record c) s (λ _ s', ∃ bs', holds bs' s' ∧ entries (cs ++ [c]) bs' ∧ length bs' = (length bs + call_size c)%nat).
Proof.
  intros Hh He Hc Hfit. pose proof (length_bytes_of c) as Hlb.
  assert (Hcommit : ∀ bs' s1, holds bs' s1 → entries (cs ++ [c]) bs' → length bs' = (length bs + call_size c)%nat →
    runs (λ d, (holds bs d ∧ entries cs bs) ∨ ∃ bs', holds bs' d ∧ entries (cs ++ [c]) bs') add_entry_commit s1
      (λ _ s', ∃ bs', holds bs' s' ∧ entries (cs ++ [c]) bs' ∧ length bs' = (length bs + call_size c)%nat)).
  { intros bs' s1 Hh1 He1 Hl1. unfold add_entry_commit. apply runs_read. apply runs_write; [right; by exists bs'|].
    apply runs_ret; [right|]; by exists bs'. }
  destruct c as [T HT HL pad v|]; cbn [record].
  - destruct Hc as (H0 & H1 & H2). assert (Hf : entry_fits (T := T) (length bs) pad) by (cbn in Hfit; unfold call_size in Hfit; split_and!; lia).
    destruct (add_entry_start_spec bs s pad v Hh Hf) as (s1 & Hex & Hh1 & Hp1 & Hal).
    pose proof (entries_snoc cs bs (CVal T HT HL pad v) (entry_bytes pad v) He eq_refl) as He1.
    eapply runs_bind; [eapply (runs_intro _ _ _ tt s1 (λ _ d, d = s1)); [|done|done]|].
    { eapply always_impl; [|exact Hal]. cbn. intros d [[Hd|Hd] _]; [by left|right; eauto]. }
    intros [] ? ->. apply (Hcommit _ _ Hh1 He1). rewrite length_app, (Hlb _ (conj H0 (conj H1 H2)) eq_refl). done.
  - pose proof Hh as (Ht & Hl & Hb). pose proof arch_align_le. pose proof replay_size_ok. unfold call_size in Hfit.
    set (W := Z.to_nat ARCH_ALIGN) in *. set (bs' := take (length bs + W) (rcache s)).
    assert (Hlen : length bs' = (length bs + W)%nat) by (unfold bs'; rewrite length_take; lia).
    set (s1 := with_rtail (λ t, uadd t ARCH_ALIGN) s).
    assert (Hh1 : holds bs' s1).
    { split_and!; [cbn; rewrite Ht, Hlen, uadd_small; lia|done|]. cbn. by rewrite Hlen. }
    assert (He1 : entries (cs ++ [CEmpty]) bs').
    { assert (bs' = bs ++ drop (length bs) bs') as ->.
      { rewrite <-(take_drop (length bs) bs') at 1. f_equal. unfold bs'. rewrite take_take, Nat.min_l by lia. done. }
      apply entries_snoc; [done|]. cbn. rewrite length_drop, Hlen. lia. }
    eapply runs_bind; [apply runs_write; [by left|]; apply (runs_ret _ _ _ (λ _ d, d = s1)); [right; by exists bs'|done]|].
    intros [] ? ->. by apply (Hcommit bs').
Qed.

(** Replaying them all. *)
Lemma replays_entries cs bs pre s :
  Forall call_ok cs → entries cs bs → holds (pre ++ bs) s → Z.of_nat (length (pre ++ bs)) ≤ SYSCALL_REPLAY_CACHE_SZ →
  rptr s = Z.of_nat (length pre) →
  ∃ s', replays cs s s' ∧ holds (pre ++ bs) s' ∧ rptr s' = Z.of_nat (length (pre ++ bs)).
Proof.
  revert bs pre s; induction cs as [|c cs IH]; intros bs pre s Hok He Hh Hfit Hp.
  - destruct He as (xss & Hf & ->). inversion Hf; subst. cbn in *. rewrite app_nil_r in *. by exists s.
  - apply Forall_cons in Hok as [Hc Hok]. apply entries_cons in He as (xs & bs' & -> & Hx & He).
    pose proof (length_bytes_of c xs Hc Hx) as Hlx. rewrite (assoc_L (++)) in Hh, Hfit |- *.
    assert (Hstep : ∃ s1, replayed c s s1 ∧ holds ((pre ++ xs) ++ bs') s1 ∧ rptr s1 = Z.of_nat (length (pre ++ xs))).
    { exists (with_rptr (λ _, Z.of_nat (length (pre ++ xs))) s). split; [|by split; [destruct Hh as (?&?&?); split_and!|]].
      destruct c as [T HT HL pad v|]; cbn [replayed bytes_of call_ok] in *.
      - subst xs. destruct Hc as (H0 & H1 & H2). rewrite <-(assoc_L (++)) in Hh. apply (get_entry_spec pre pad v bs' s Hh); [|done].
        rewrite !length_app, Hlx in Hfit. unfold call_size in Hfit. split_and!; lia.
      - destruct Hh as (Ht & _). unfold get_empty_entry. cbn. rewrite Ht, Hp. pose proof arch_align_le. pose proof replay_size_ok.
        unfold call_size in Hlx. rewrite !length_app in *. rewrite (proj2 (Z.ltb_lt _ _)) by lia. cbn.
        unfold with_rptr. rewrite Hp, uadd_small by lia. do 2 f_equal. lia. }
    destruct Hstep as (s1 & Hr & Hh1 & Hp1). destruct (IH bs' (pre ++ xs) s1 Hok He Hh1 Hfit Hp1) as (s' & Hrs & Hh' & Hp').
    exists s'. split; [by exists s1|done].
Qed.

Lemma holds_recalls cs bs s :
  Forall call_ok cs → entries cs bs → holds bs s → Z.of_nat (length bs) ≤ SYSCALL_REPLAY_CACHE_SZ → recalls cs s.
Proof.
  intros Hok He Hh Hfit. destruct (replays_entries cs bs [] (with_rptr (λ _, 0) s) Hok He Hh Hfit eq_refl) as (s' & Hr & Hh' & Hp).
  exists (with_rptr (λ _, 0) s), s'. split; [done|]. split; [done|]. cbn in Hh', Hp. destruct Hh' as (Ht & _).
  split; [intros T HT; unfold get_entry|unfold get_empty_entry]; cbn; by rewrite Hp, Ht, Z.ltb_irrefl.
Qed.

Lemma record_all_spec cs cs0 bs s :
  Forall call_ok (cs0 ++ cs) → holds bs s → entries cs0 bs → Z.of_nat (total (cs0 ++ cs)) ≤ SYSCALL_REPLAY_CACHE_SZ →
  runs (λ d, ∃ n, recalls (take n (cs0 ++ cs)) d) (record_all cs) s (λ _ s', recalls (cs0 ++ cs) s').
Proof.
  revert cs0 bs s; induction cs as [|c cs IH]; intros cs0 bs s Hok Hh He Hfit.
  - rewrite app_nil_r in *. pose proof (length_entries cs0 bs Hok He) as Hl.
    assert (recalls cs0 s) by (eapply holds_recalls; [done..|]; lia).
    apply runs_ret; [|done]. exists (length cs0). by rewrite firstn_all.
  - pose proof Hok as [Hok0 [Hc Hok']%Forall_cons]%Forall_app. pose proof (length_entries cs0 bs Hok0 He) as Hl.
    rewrite total_app, total_cons in Hfit.
    assert (Hfit1 : Z.of_nat (length bs + call_size c) ≤ SYSCALL_REPLAY_CACHE_SZ) by (rewrite Hl; lia).
    eapply runs_bind.
    { eapply runs_crash; [exact (record_spec cs0 bs s c Hh He Hc Hfit1)|].
      intros d [[Hd _]|(bs' & Hd & He')].
      - exists (length cs0). rewrite take_app_length. eapply holds_recalls; [done..|]. lia.
      - assert (Hok1 : Forall call_ok (cs0 ++ [c])) by (apply Forall_app; by auto).
        exists (S (length cs0)). rewrite (cons_middle c cs0 cs), (assoc_L (++)), take_app_le by (rewrite length_app; cbn; lia).
        rewrite firstn_all2 by (rewrite length_app; cbn; lia). eapply holds_recalls; [done..|].
        rewrite (length_entries _ _ Hok1 He'), total_app, total_cons. change (total []) with 0%nat. lia. }
    intros [] s1 (bs1 & Hh1 & He1 & Hl1). rewrite (cons_middle c cs0 cs), (assoc_L (++)) in *. eapply IH; [done..|].
    rewrite !total_app, !total_cons. change (total []) with 0%nat. lia.
Qed.

(** C28: The results of the system calls that a user transaction completes, with
    the buffer empty before and room for all of them, are replayed after a restart,
    each with its value and in order, and nothing else is; whenever power fails
    while they are recorded, the calls replayed are the first [n], for some [n]. *)
Theorem replay_roundtrip cs s :
  rtail s = 0 → Z.of_nat (length (rcache s)) = SYSCALL_REPLAY_CACHE_SZ →
  Forall call_ok cs → Z.of_nat (total cs) ≤ SYSCALL_REPLAY_CACHE_SZ →
  (∃ s', exec (record_all cs) s = Done tt s' ∧ recalls cs s') ∧
  ∀ d, d ∈ crash_states (record_all cs) s → ∃ n, recalls (take n cs) d.
Proof.
  intros Ht Hl Hok Hfit. assert (Hh : holds [] s) by by split_and!.
  assert (He : entries [] []) by by exists [].
  pose proof (record_all_spec cs [] [] s Hok Hh He Hfit) as Hr. split.
  - destruct (runs_exec _ _ _ _ Hr) as ([] & s' & E & Hs'). eauto.
  - intros d Hd. by apply (runs_always _ _ _ _ Hr).
Qed.
End spec.

Module example.
#[local] Existing Instance cortex_m.

(** A call that yields [true], one without a result, and one that yields [false]. *)
Definition three_calls : list call :=
  [CVal bool plain_bool plain_bool_laws [7; 7; 7] true; CEmpty; CVal bool plain_bool plain_bool_laws [8; 8; 8] false].

Lemma replay_roundtrip_witness : ∃ s, exec (record_all three_calls) replay_new = Done tt s ∧ recalls three_calls s.
Proof.
  apply (replay_roundtrip three_calls replay_new); [reflexivity|reflexivity| |by vm_compute].
  repeat constructor; vm_compute; congruence.
Defined.
End example.
