(* ===== verification/UserTx.v ===== *)
(** * User transactions and the recovery of a task ([UserTxInfo] of
    [transaction.rs], [user/transaction.rs], the recovery of [task.rs])

    A task owns a user transaction (over the user's persistent memory), a kernel
    transaction (over the kernel's), the replay cache of its system calls and the
    bookkeeping of its non-volatile loops. *)

From S2P Require Import Prelude Arch Pmem PmemSpec TxCache Transaction Replay.

Definition DEFAULT_STACK_DEPTH : nat := 8.

(** [UserTxInfo]; [user_tx] holds the fields [user_tx], [user_journal] and
    [user_tx_cache]. *)
Record UserTxInfo := {
  user_tx : tx_state;
  stack_top : Z;
  tail_stack : list Z;
  loop_cnt_log : Z;
  loop_cnt_ptr : option Z;
  step : Z;
}.

Definition with_user_tx (x : tx_state) (u : UserTxInfo) : UserTxInfo :=
  {| user_tx := x; stack_top := stack_top u; tail_stack := tail_stack u;
     loop_cnt_log := loop_cnt_log u; loop_cnt_ptr := loop_cnt_ptr u; step := step u |}.
Definition with_stack (top : Z) (st : list Z) (u : UserTxInfo) : UserTxInfo :=
  {| user_tx := user_tx u; stack_top := top; tail_stack := st;
     loop_cnt_log := loop_cnt_log u; loop_cnt_ptr := loop_cnt_ptr u; step := step u |}.
Definition with_loop (log : Z) (p : option Z) (st : Z) (u : UserTxInfo) : UserTxInfo :=
  {| user_tx := user_tx u; stack_top := stack_top u; tail_stack := tail_stack u;
     loop_cnt_log := log; loop_cnt_ptr := p; step := st |}.

#[export] Instance user_tx_lens : Lens tx_state UserTxInfo :=
  {| lget := user_tx; lset := with_user_tx |}.
#[export] Instance user_tx_lens_laws : LensLaws tx_state UserTxInfo.
Proof. by split; try done; intros []. Qed.

(** The fields of [struct Task] that transactions and recovery use. The task's
    [recovery_mode] is the field [may_bypass] of its user transaction. *)
Record task := {
  user_tx_info : UserTxInfo;
  tx : tx_state;
  syscall_replay_cache : SyscallReplayCache;
  list_tx_done : bool;
  generation : Z;
}.

Definition with_user_tx_info (u : UserTxInfo) (t : task) : task :=
  {| user_tx_info := u; tx := tx t; syscall_replay_cache := syscall_replay_cache t;
     list_tx_done := list_tx_done t; generation := generation t |}.
Definition with_tx (x : tx_state) (t : task) : task :=
  {| user_tx_info := user_tx_info t; tx := x; syscall_replay_cache := syscall_replay_cache t;
     list_tx_done := list_tx_done t; generation := generation t |}.
Definition with_replay (r : SyscallReplayCache) (t : task) : task :=
  {| user_tx_info := user_tx_info t; tx := tx t; syscall_replay_cache := r;
     list_tx_done := list_tx_done t; generation := generation t |}.
Definition with_list_tx_done (b : bool) (t : task) : task :=
  {| user_tx_info := user_tx_info t; tx := tx t; syscall_replay_cache := syscall_replay_cache t;
     list_tx_done := b; generation := generation t |}.
Definition with_generation (g : Z) (t : task) : task :=
  {| user_tx_info := user_tx_info t; tx := tx t; syscall_replay_cache := syscall_replay_cache t;
     list_tx_done := list_tx_done t; generation := g |}.
Definition with_may_bypass (b : bool) (x : tx_state) : tx_state :=
  {| tx_pm := tx_pm x; tx_cache := tx_cache x; nesting_level := nesting_level x;
     may_bypass := b |}.

#[export] Instance uinfo_lens : Lens UserTxInfo task :=
  {| lget := user_tx_info; lset := with_user_tx_info |}.
#[export] Instance sys_tx_lens : Lens tx_state task := {| lget := tx; lset := with_tx |}.
#[export] Instance replay_lens : Lens SyscallReplayCache task :=
  {| lget := syscall_replay_cache; lset := with_replay |}.
#[export] Instance uinfo_lens_laws : LensLaws UserTxInfo task.
Proof. by split; try done; intros []. Qed.
#[export] Instance sys_tx_lens_laws : LensLaws tx_state task.
Proof. by split; try done; intros []. Qed.
#[export] Instance replay_lens_laws : LensLaws SyscallReplayCache task.
Proof. by split; try done; intros []. Qed.

Section user_tx_info.
Context `{Arch, Board, TxFeatures}.

Definition u16 (z : Z) : Z := z mod 65536.

(** [UserTxInfo::restart], [reset_all], [init] *)
Definition utx_restart : prog UserTxInfo unit :=
  zoom (zoom reset_ptr);;;
  modify (λ u, with_stack 0 (tail_stack u) u).

Definition utx_reset_all : prog UserTxInfo unit :=
  zoom (zoom reset_tail);;; zoom (zoom reset_ptr).

Definition utx_init : prog UserTxInfo unit :=
  zoom reset_nesting_level;;;
  zoom (zoom journal_init);;;
  zoom (zoom txcache_init);;;
  modify (λ u, with_stack 0 (tail_stack u) u);;;
  modify (λ u, with_stack (stack_top u) (replicate DEFAULT_STACK_DEPTH 0) u);;;
  when opt_loop_end (modify (λ u, with_loop (loop_cnt_log u) None (step u) u)).

Definition log_loop_cnt (p old_cnt st : Z) : prog UserTxInfo unit :=
  modify (λ u, with_loop (loop_cnt_log u) (Some p) (step u) u);;;
  modify (λ u, with_loop old_cnt (loop_cnt_ptr u) (step u) u);;;
  modify (λ u, with_loop (loop_cnt_log u) (loop_cnt_ptr u) st u).

(** The store of one [usize] to persistent memory. *)
Definition store_usize (a v : Z) : prog pmem unit :=
  let* m := gets bytes in
  if decide (Z.to_nat a + usize_bytes ≤ length m)%nat
  then modify (set_bytes (list_inserts (Z.to_nat a) (usize_to_bytes v)))
  else Fail Undefined.

Definition set_loop_cnt : prog UserTxInfo unit :=
  let* u := get in
  let* p := unwrap_unchecked (loop_cnt_ptr u) in
  zoom (zoom (store_usize p (uadd (loop_cnt_log u) (step u)))).

Definition enter_idempotent_loop : prog UserTxInfo unit :=
  let* u := get in
  let tx_tail := Z.lor (ptr (tx_cache (user_tx u))) TX_COMMITTED in
  assert_ (stack_top u <? Z.of_nat DEFAULT_STACK_DEPTH);;;
  modify (λ u, with_stack (stack_top u) (<[Z.to_nat (stack_top u) := u16 tx_tail]> (tail_stack u)) u);;;
  modify (λ u, with_stack (stack_top u + 1) (tail_stack u) u).

(** Restoring the outer cursor and leaving the loop, shared by both exits. *)
Definition exit_loop_ptr (old_tx_tail : Z) : prog UserTxInfo unit :=
  (if opt_tx_cache_space
   then zoom (zoom (set_ptr old_tx_tail))
   else zoom (zoom (set_ptr (Z.land old_tx_tail (unot TX_COMMITTED)))));;;
  modify (λ u, with_stack (stack_top u - 1) (tail_stack u) u).

(** [self.tail_stack[top - 1]]: out of bounds when no loop was entered. *)
Definition saved_tail : prog UserTxInfo Z :=
  let* u := get in
  unwrap (if 0 <? stack_top u then tail_stack u !! Z.to_nat (stack_top u - 1) else None).

Definition exit_idempotent_loop : prog UserTxInfo unit :=
  let* old_tx_tail := saved_tail in
  zoom (zoom (set_tail old_tx_tail));;;
  when opt_loop_end set_loop_cnt;;;
  exit_loop_ptr old_tx_tail.

Definition exit_infinite_idempotent_loop : prog UserTxInfo unit :=
  let* old_tx_tail := saved_tail in
  zoom (zoom (set_tail old_tx_tail));;;
  exit_loop_ptr old_tx_tail.

Definition get_tx_tail_id_at_level (u : UserTxInfo) (level : nat) : option Z :=
  (λ t, Z.land t TX_ID_PTR_MASK) <$> tail_stack u !! level.
End user_tx_info.

Section task_recovery.
Context `{Arch, Board, TxFeatures}.

(** A step of the task's user transaction. *)
Definition on_user_tx {A} (p : prog tx_state A) : prog task A :=
  zoom (S := UserTxInfo) (zoom p).

Definition user_tx_start : prog task unit := zoom (replay_restart).
Definition user_tx_end : prog task unit := zoom (replay_reset).
Definition restart_syscall_tx_cache : prog task unit :=
  zoom (S := tx_state) (zoom reset_ptr).
Definition commit_syscall_tx_cache : prog task unit :=
  zoom (S := tx_state) (zoom commit_reset_tail).
Definition reset_list_transaction : prog task unit := modify (with_list_tx_done false).
Definition complete_list_transaction : prog task unit := modify (with_list_tx_done true).

(** [Task::user_recovery] *)
Definition user_recovery : prog task unit :=
  let* ok := on_user_tx check_committed in
  (if ok then
     on_user_tx reset_nesting_level;;;
     user_tx_end
   else
     on_user_tx roll_back;;;
     on_user_tx reset_nesting_level);;;
  zoom utx_restart.

Definition is_crashed (current_generation : Z) (t : task) : bool :=
  negb (generation t =? current_generation).

Definition set_recovery_mode : prog task unit :=
  modify (λ t, with_tx (with_may_bypass true (tx t))
                 (with_user_tx_info (with_user_tx (with_may_bypass true (user_tx (user_tx_info t)))
                    (user_tx_info t)) t)).

(** The two half-finished operations [jit_recovery] completes: the return of a
    system call and the end of a loop iteration. *)
Definition finish_syscall_return : prog task unit :=
  let* r := gets syscall_replay_cache in
  when (get_ptr r <? get_tail r)
    (commit_syscall_tx_cache;;; reset_list_transaction).

Definition finish_loop_end : prog UserTxInfo unit :=
  when opt_loop_end (
    let* c := gets (λ u, tx_cache (user_tx u)) in
    when (get_tx_id_of_tail c <? get_tx_id_of_ptr c) set_loop_cnt).

(** [Task::jit_recovery]; the volatile stack it rebuilds is not part of the
    state. *)
Definition jit_recovery (current_generation : Z) : prog task unit :=
  let* t := get in
  when (is_crashed current_generation t) (
    set_recovery_mode;;;
    zoom (S := tx_state) roll_back_if_uncommitted;;;
    zoom (S := tx_state) reset_nesting_level;;;
    finish_syscall_return;;;
    zoom finish_loop_end;;;
    user_recovery;;;
    modify (with_generation current_generation)).

(** [user::transaction::run], [run_sys], [fast_run], [try_run], [run_once]. *)
Definition user_run {T} `{Plain T} (f : prog pmem T) : prog task T :=
  on_user_tx (debug_level_zero;;; bypass_or (tx_run f)).

Definition user_fast_run {T} `{Plain T} (f : prog pmem T) : prog task T :=
  on_user_tx (debug_level_zero;;; bypass_or (tx_fast_run f)).

Definition user_try_run {T} `{Plain (Result T ErrorCode)}
    (f : prog pmem (Result T ErrorCode)) : prog task (Result T ErrorCode) :=
  on_user_tx (debug_level_zero;;; bypass_or (tx_try_run f)).

Definition user_run_once {T} (f : prog pmem T) : prog task T :=
  on_user_tx (tx_run_no_replay f).

(** [run_sys]: the closure also gets the token for system calls, so its body
    is a program of the whole task. *)
Definition user_run_sys {T} `{Plain T} (f : prog task T) : prog task T :=
  on_user_tx debug_level_zero;;;
  let* r := on_user_tx try_get_cached_result in
  match r with
  | Some cache_res => on_user_tx debug_may_bypass;;; Ret cache_res
  | None =>
      user_tx_start;;;
      on_user_tx tx_begin;;;
      let* ret := f in
      on_user_tx (tx_commit ret);;;
      user_tx_end;;;
      Ret ret
  end.

(** [syscall_begin!] and [syscall_end!] around the body of a system call. *)
Definition syscall {T} `{Plain T} (pad : list Z) (body : prog task T) : prog task T :=
  let* r := zoom (get_entry (T := T)) in
  match r with
  | Some ret => on_user_tx debug_may_bypass;;; Ret ret
  | None =>
      restart_syscall_tx_cache;;;
      let* ret := body in
      zoom (add_entry_start pad ret);;;
      commit_syscall_tx_cache;;;
      reset_list_transaction;;;
      zoom add_entry_commit;;;
      Ret ret
  end.

Definition syscall_noret (body : prog task unit) : prog task unit :=
  let* r := zoom get_empty_entry in
  if (r : bool) then on_user_tx debug_may_bypass
  else
    restart_syscall_tx_cache;;;
    body;;;
    zoom add_empty_entry_start;;;
    commit_syscall_tx_cache;;;
    reset_list_transaction;;;
    zoom add_entry_commit.

Definition syscall_end_outside_tx : prog task unit :=
  commit_syscall_tx_cache;;; reset_list_transaction.

(** [nv_for_loop!] with the features [opt_loop_end] and [crash_safe], for a
    counter stored at address [i] of persistent memory; the fuel bounds the
    number of iterations that are unrolled. *)
Definition load_usize (a : Z) : prog pmem Z :=
  let* bs := read_bytes a usize_bytes in Ret (usize_of_bytes bs).

Fixpoint nv_loop_iterations (fuel : nat) (i end_ st : Z) (body : Z → prog task unit) : prog task unit :=
  match fuel with
  | O => Fail Undefined
  | S fuel =>
      let* cnt := on_user_tx (zoom (load_usize i)) in
      if end_ <=? cnt then skip else
      zoom enter_idempotent_loop;;;
      body cnt;;;
      zoom (log_loop_cnt i cnt st);;;
      zoom exit_idempotent_loop;;;
      nv_loop_iterations fuel i end_ st body
  end.

Definition nv_for_loop `{Plain unit} (fuel : nat) (i begin_ end_ st : Z)
    (body : Z → prog task unit) : prog task unit :=
  user_fast_run (store_usize i begin_);;;
  nv_loop_iterations fuel i end_ st body.
End task_recovery.

(** ** Recovery of a task between its transactions *)

Section recovery_lemmas.
Context `{Arch, Board, TxFeatures} (Hboard : board_ok)
  (Hopt : opt_tx_cache_space = true) (Hcache : cache_ok).

(** The memory of a transaction can be rolled back. *)
Definition recoverable (x : tx_state) : Prop := ∃ es m, undoes es m (tx_pm x).

Lemma kernel_roll_back_runs x :
  recoverable x → runs recoverable roll_back_if_uncommitted x (λ _ y, recoverable y).
Proof.
  intros (es & m & Hu). unfold roll_back_if_uncommitted, check_committed.
  assert (Hx : recoverable x) by (by exists es, m).
  assert (Hnil : ∀ m' j, jrepr es j → undoes [] m' {| bytes := m'; journal := Pmem.set_tail 0 j |})
    by (intros; by eapply undoes_empty).
  apply runs_read. cbn [bind]. destruct (is_committed _); cbn [negb].
  - apply runs_write; [done|]. assert (recoverable (lset (set_journal (Pmem.set_tail 0) (lget x)) x)).
    { exists [], (bytes (tx_pm x)). apply Hnil, Hu. }
    by apply runs_ret.
  - apply runs_zoom. eapply runs_mono; [eapply runs_crash; [by eapply (journal_recover_runs Hboard _ _ _ Hu)|]|].
    + intros p (es' & Hp & _). by exists es', m.
    + intros [] p ->. exists [], m. apply Hnil, Hu.
Qed.

Context {R : Type} (s0 : session R) (m0 : list Z).

Lemma check_committed_runs c :
  consistent s0 m0 c →
  runs (consistent s0 m0) check_committed c (λ ok d, may_bypass d = may_bypass c ∧
    ∃ s m n bs, path s0 m0 0 0 s m n bs ∧ cache_repr ok n bs (tx_cache d) ∧
      ∃ es, undoes es m (tx_pm d) ∧ (ok = true → es = [])).
Proof.
  intros Hc. pose proof Hc as (b & s & m & n & bs & Hp & Hrepr & Hpm). unfold check_committed.
  apply runs_read. cbn [bind]. rewrite (repr_is_committed Hcache _ _ _ _ Hrepr).
  destruct b; cbn [negb].
  - destruct Hpm as [<- [es Hj]].
    assert (Hu : undoes [] (bytes (tx_pm c)) (set_journal (Pmem.set_tail 0) (tx_pm c)))
      by (by eapply undoes_empty).
    apply runs_write; [done|]. apply runs_ret.
    + eapply consistent_of; [done|done|]. exact (undoes_nil_pm_ok true _ _ Hu).
    + split; [done|]. exists s, (bytes (tx_pm c)), n, bs. split_and!; [done..|]. by exists [].
  - destruct Hpm as [es Hu]. apply runs_ret; [done|]. split; [done|].
    exists s, m, n, bs. split_and!; [done..|]. by exists es.
Qed.

Lemma roll_back_runs c s m n bs es :
  path s0 m0 0 0 s m n bs → cache_repr false n bs (tx_cache c) → undoes es m (tx_pm c) →
  runs (consistent s0 m0) roll_back c (λ _ d, may_bypass d = may_bypass c ∧
    cache_repr false n bs (tx_cache d) ∧ undoes [] m (tx_pm d)).
Proof.
  intros Hp Hr Hu. apply runs_zoom.
  eapply runs_mono; [eapply runs_crash; [by eapply (journal_recover_runs Hboard _ _ _ Hu)|]|].
  - intros p (es' & Hp' & _). eapply consistent_of; [done..|]. by exists es'.
  - intros [] p ->. split_and!; [done..|]. eapply undoes_empty, Hu.
Qed.

(** What holds of a task whenever power fails: its user transaction is between
    two transactions of the session, the kernel's can be rolled back, and no
    system call is pending. *)
Definition task_inv (t : task) : Prop :=
  consistent s0 m0 (user_tx (user_tx_info t)) ∧ recoverable (tx t) ∧
  rtail (syscall_replay_cache t) ≤ rptr (syscall_replay_cache t) ∧
  0 ≤ rptr (syscall_replay_cache t).

(** A task from which the session can be executed again. *)
Definition task_ready (t : task) : Prop :=
  task_inv t ∧ ∃ b s m n bs, path s0 m0 0 0 s m n bs ∧
    ready b n 0 0 bs m (user_tx (user_tx_info t)).

(** The parts of a task beside its user transaction. *)
Definition same_rest (t u : task) : Prop :=
  tx u = tx t ∧ syscall_replay_cache u = syscall_replay_cache t ∧ generation u = generation t.

Lemma on_user_tx_runs {A} (p : prog tx_state A) t (Q : A → tx_state → Prop) :
  task_inv t → runs (consistent s0 m0) p (user_tx (user_tx_info t)) Q →
  runs task_inv (on_user_tx p) t (λ a u, Q a (user_tx (user_tx_info u)) ∧ same_rest t u).
Proof.
  intros (_ & Hk & Hr & Hr0) Hp. apply runs_zoom, runs_zoom. cbn [lget uinfo_lens user_tx_lens].
  eapply runs_mono; [eapply runs_crash; [exact Hp|]|].
  - intros x Hx. by split_and!.
  - intros a x HQ. by split.
Qed.

Lemma on_kernel_tx_runs (p : prog tx_state unit) t :
  task_inv t → runs recoverable p (tx t) (λ _, recoverable) →
  runs task_inv (zoom p) t (λ _ u, task_inv u ∧ user_tx_info u = user_tx_info t ∧
    generation u = generation t).
Proof.
  intros (Hc & _ & Hr & Hr0) Hp. apply runs_zoom. cbn [lget sys_tx_lens].
  eapply runs_mono; [eapply runs_crash; [exact Hp|]|].
  - intros x Hx. by split_and!.
  - intros [] x Hx. by split_and!.
Qed.

Lemma finish_syscall_return_runs t :
  task_inv t → runs task_inv finish_syscall_return t (λ _ u, u = t).
Proof.
  intros Ht. pose proof Ht as (_ & _ & Hr & _). apply runs_read. cbn [bind].
  unfold get_ptr, get_tail. rewrite (proj2 (Z.ltb_ge _ _)) by done. by apply runs_ret.
Qed.

Lemma finish_loop_end_runs t :
  task_inv t → runs task_inv (zoom finish_loop_end) t (λ _ u, u = t).
Proof.
  intros Ht. pose proof Ht as ((b & s & m & n & bs & Hp & Hrepr & _) & _).
  unfold finish_loop_end. destruct opt_loop_end; [|by apply runs_ret].
  apply runs_read. cbn [lget uinfo_lens bind]. rewrite (repr_get_id Hopt Hcache _ _ _ _ Hrepr).
  rewrite (proj2 (Z.ltb_ge _ _)) by (by eapply repr_ptr_le_tail). by apply runs_ret.
Qed.

Lemma user_recovery_runs t :
  task_inv t → (debug_assertions = true → may_bypass (user_tx (user_tx_info t)) = true) →
  runs task_inv user_recovery t (λ _ u, task_ready u ∧ generation u = generation t).
Proof.
  intros Ht Hby. pose proof Ht as (Hc & _). eapply runs_bind.
  { apply on_user_tx_runs; [done|by apply check_committed_runs]. }
  intros ok t1 [(Hb1 & s & m & n & bs & Hp & Hr1 & es & Hu & Hes) (Hk1 & Hrp1 & Hg1)].
  assert (Hcons : ∀ x, cache_repr ok n bs (tx_cache x) → undoes [] m (tx_pm x) → consistent s0 m0 x).
  { intros x Hx1 Hx2. eapply consistent_of; [done..|]. by apply undoes_nil_pm_ok. }
  assert (Hmid : ∀ t', cache_repr ok n bs (tx_cache (user_tx (user_tx_info t'))) →
    undoes [] m (tx_pm (user_tx (user_tx_info t'))) → recoverable (tx t') →
    rtail (syscall_replay_cache t') ≤ rptr (syscall_replay_cache t') ∧
    0 ≤ rptr (syscall_replay_cache t') → task_inv t').
  { intros t' Hx1 Hx2 Hx3 [Hx4 Hx5]. by split_and!; [apply Hcons| | |]. }
  pose proof Ht as (_ & Hk & Hr). rewrite <-Hk1 in Hk. rewrite <-Hrp1 in Hr.
  eapply (runs_bind _ _ _ _ (λ _ t2, may_bypass (user_tx (user_tx_info t2)) = may_bypass (user_tx (user_tx_info t)) ∧
    cache_repr ok n bs (tx_cache (user_tx (user_tx_info t2))) ∧
    undoes [] m (tx_pm (user_tx (user_tx_info t2))) ∧
    nesting_level (user_tx (user_tx_info t2)) = 0 ∧ generation t2 = generation t ∧ task_inv t2)).
  - destruct ok.
    + rewrite Hes in Hu by done. repeat (apply runs_write; [by apply Hmid|]; cbn).
      apply runs_ret; [|split_and!; try done]; (apply Hmid; try done; cbn; lia).
    + eapply runs_bind.
      { apply on_user_tx_runs; [|by eapply roll_back_runs].
        destruct Hr. split_and!; [eapply consistent_of; [done..|by exists es]|done..]. }
      intros [] t2 [(Hb2 & Hr2 & Hu2) (Hk2 & Hrp2 & Hg2)]. rewrite <-Hk2 in Hk. rewrite <-Hrp2 in Hr.
      apply runs_write; [by apply Hmid|]. cbn.
      apply runs_ret; [by apply Hmid|]. cbn. split_and!; try done; [congruence..|by apply Hmid].
  - intros [] t2 (Hb2 & Hr2 & Hu2 & Hl2 & Hg2 & Hinv2). destruct Hinv2 as (_ & Hk2 & Hrr2).
    apply runs_write; [by apply Hmid|]. cbn.
    assert (Hr3 : cache_repr ok n bs (with_ptr (λ _, 0) (tx_cache (user_tx (user_tx_info t2))))).
    { apply (repr_move ok n bs _ 0 0 Hr2); [lia|]. unfold cp_ok. destruct Hcache. lia. }
    apply runs_write; [by apply Hmid|]. cbn. apply runs_ret; [by apply Hmid|].
    split; [|done]. split; [by apply Hmid|]. exists ok, s, m, n, bs. split; [done|].
    split; [done..|]. intros Hd _. cbn. rewrite Hb2. by apply Hby.
Qed.

Lemma jit_recovery_runs g t :
  task_inv t → generation t ≠ g →
  runs task_inv (jit_recovery g) t (λ _ u, task_ready u ∧ generation u = g).
Proof.
  intros Ht Hg. unfold jit_recovery. apply runs_read. cbn [bind]. unfold is_crashed.
  rewrite (proj2 (Z.eqb_neq _ _)) by done. cbn [negb when].
  apply runs_write; [done|]. set (t0 := with_tx _ _).
  assert (Ht0 : task_inv t0) by exact Ht.
  assert (Hby : may_bypass (user_tx (user_tx_info t0)) = true) by done. clearbody t0.
  eapply runs_bind; [by apply on_kernel_tx_runs, kernel_roll_back_runs, Ht0|].
  intros [] t1 (Ht1 & Hu1 & _). eapply runs_bind.
  { apply (on_kernel_tx_runs _ t1); [done|]. pose proof Ht1 as (_ & Hrec & _).
    apply runs_write; [done|]. by apply runs_ret. }
  intros [] t2 (Ht2 & Hu2 & _).
  eapply runs_bind; [by apply finish_syscall_return_runs|]. intros [] ? ->.
  eapply runs_bind; [by apply finish_loop_end_runs|]. intros [] ? ->.
  eapply runs_bind; [apply user_recovery_runs; [done|congruence]|].
  intros [] t3 [[Ht3 Hr3] _]. apply runs_write; [done|]. by apply runs_ret.
Qed.

(** A whole run of the session by a task that is ready for it. *)
Lemma user_session_runs t r m n bs :
  path s0 m0 0 0 (SRet r) m n bs → task_ready t →
  runs task_inv (on_user_tx (run_session s0)) t (λ v u, v = r ∧
    bytes (tx_pm (user_tx (user_tx_info u))) = m ∧ generation u = generation t).
Proof.
  intros Hp [Ht (b & s & m1 & n1 & bs1 & Hp1 & Hr1)].
  destruct (path_det Hboard _ _ _ _ _ _ _ _ Hp1 _ _ _ _ Hp) as [bs2 Hp2].
  eapply runs_mono; [apply on_user_tx_runs; [done|by eapply run_session_runs]|].
  intros v u [[-> [b' Hr']] (_ & _ & Hg)]. split_and!; [done| |done].
  by destruct (ready_pm _ _ _ _ _ _ _ Hr') as (_ & _ & <-).
Qed.
End recovery_lemmas.

(** ** Theorems *)

(** The life of a task whose body is the session [s]: it runs from [t0] until
    power fails, and after each reboot (generation [g]) recovers and starts
    again, possibly losing power in the recovery itself. *)
Inductive task_life `{Arch, Board, TxFeatures} {R} (s : session R) (t0 : task) : task → Prop :=
| life_first c : c ∈ crash_states (on_user_tx (run_session s)) t0 → task_life s t0 c
| life_again c g c' :
    task_life s t0 c → generation c ≠ g →
    c' ∈ crash_states (jit_recovery g;;; on_user_tx (run_session s)) c → task_life s t0 c'.

(** A task that has not run yet, over the user memory [m0]. *)
Record initial_task `{Arch, Board, TxFeatures} (m0 : list Z) (t : task) : Prop := {
  init_cache : tx_cache (user_tx (user_tx_info t)) = txcache_new;
  init_pm : undoes [] m0 (tx_pm (user_tx (user_tx_info t)));
  init_level : nesting_level (user_tx (user_tx_info t)) = 0;
  init_kernel : recoverable (tx t);
  init_replay : syscall_replay_cache t = replay_new;
}.

(** A transaction that reads [n] bytes at [a], stores [g] of them there and
    returns [h] of them. *)
Definition update_body `{Arch, Board} {T} (a n : nat) (g : list Z → list Z) (h : list Z → T) : prog pmem T :=
  let* bs := read_bytes (Z.of_nat a) n in
  pmvar_set (Z.of_nat a) (g bs);;;
  Ret (h bs).

Section theorems.
Context `{Arch, Board, TxFeatures} (Hboard : board_ok)
  (Hopt : opt_tx_cache_space = true) (Hcache : cache_ok).

Lemma update_body_ok {T} a n g (h : list Z → T) m :
  is_object (Z.of_nat a) (Z.of_nat n) → (a + n ≤ length m)%nat →
  (∀ bs, length (g bs) = n) → Z.of_nat (record_size n) ≤ JOURNAL_SIZE →
  tx_body_ok (update_body a n g h) m (h (slice a n m)) (list_inserts a (g (slice a n m)) m).
Proof.
  intros Ho Hle Hg Hsp. split.
  - apply logged_bind; [apply logged_read_bytes|]. intros bs. apply logged_bind; [|apply _].
    apply logged_pmvar_set; rewrite ?Hg; done.
  - intros j Hj. set (s := {| bytes := m; journal := j |}).
    assert (Hs : undoes [] m s) by done.
    assert (Ht : tail j = 0).
    { destruct Hj as (_ & _ & _ & l & rest & _ & -> & Hl).
      inversion Hl; [done|discriminate_list]. }
    destruct (exec_pmvar_set Hboard [] m s a (g (slice a n m))) as (s' & E & Hb & _);
      [done|by rewrite Hg|by rewrite Hg|rewrite Hg; cbn; lia|].
    exists (journal s'). unfold update_body.
    rewrite exec_bind, (exec_read_bytes s a n) by done. cbn [bytes s].
    rewrite exec_bind. fold s. rewrite E. cbn. f_equal. destruct s'. cbn in *. by subst.
Qed.

Lemma initial_task_ready {R} (s : session R) m0 t :
  initial_task m0 t → task_ready s m0 t.
Proof.
  intros [Hc Hp Hl Hk Hr].
  assert (Hrep : cache_repr false 0 [] (tx_cache (user_tx (user_tx_info t)))).
  { rewrite Hc. destruct Hcache. destruct tx_masks as (HK & _).
    split; cbn; rewrite ?length_replicate; try done; try lia.
    - unfold id_ok. destruct HK as [-> | ->]; lia.
    - exists 0%nat, 0%nat. unfold cp_ok. split_and!; (done || lia). }
  assert (Hready : ready false 0 0 0 [] m0 (user_tx (user_tx_info t))).
  { split; [done|by rewrite Hc|done..|lia]. }
  split.
  - split_and!; [|done|by rewrite Hr..]. eapply ready_consistent; [apply path_refl|done].
  - exists false, s, m0, 0%nat, []. split; [apply path_refl|done].
Qed.

Lemma attempt_runs {R} (s : session R) m0 c g r m n bs :
  path s m0 0 0 (SRet r) m n bs → task_inv s m0 c → generation c ≠ g →
  runs (task_inv s m0) (jit_recovery g;;; on_user_tx (run_session s)) c
    (λ v u, v = r ∧ bytes (tx_pm (user_tx (user_tx_info u))) = m).
Proof.
  intros Hp Hc Hg. eapply runs_bind; [by apply jit_recovery_runs|]. intros [] u [Hu _].
  eapply runs_mono; [by eapply user_session_runs|]. by intros v u' (? & ? & _).
Qed.

Lemma task_life_inv {R} (s : session R) m0 t0 c r m n bs :
  path s m0 0 0 (SRet r) m n bs → initial_task m0 t0 → task_life s t0 c → task_inv s m0 c.
Proof.
  intros Hp Ht. induction 1 as [c Hc|c g c' Hlife IH Hg Hc].
  - apply (initial_task_ready s) in Ht.
    by apply (runs_always _ _ _ _ (user_session_runs Hboard Hopt Hcache _ _ _ _ _ _ _ Hp Ht)).
  - by apply (runs_always _ _ _ _ (attempt_runs _ _ _ _ _ _ _ _ Hp IH Hg)).
Qed.
End theorems.

(** C1: user transactions are executed exactly once. Whatever the number and the
    places of the power failures, including failures during recovery, the run
    that completes returns what the session returns without power failures and
    leaves the same user memory. *)
Theorem session_exactly_once `{Arch, Board, TxFeatures} {R} (s : session R) (m0 : list Z) (t0 c : task)
    (g : Z) (r : R) (m : list Z) (n : nat) (bs : list Z) :
  board_ok → opt_tx_cache_space = true → cache_ok →
  initial_task m0 t0 → path s m0 0 0 (SRet r) m n bs →
  task_life s t0 c → generation c ≠ g →
  ∃ c', exec (jit_recovery g;;; on_user_tx (run_session s)) c = Done r c' ∧
    bytes (tx_pm (user_tx (user_tx_info c'))) = m.
Proof.
  intros Hboard Hopt Hcache Ht Hp Hlife Hg.
  assert (Hinv : task_inv s m0 c) by (by eapply task_life_inv).
  by destruct (runs_exec _ _ _ _ (attempt_runs Hboard Hopt Hcache _ _ _ _ _ _ _ _ Hp Hinv Hg))
    as (v & c' & E & -> & Hm); eauto.
Qed.

(** The user transaction's memory and cache inside [UserTxInfo]. *)
Definition utx_bytes (u : UserTxInfo) : list Z := bytes (tx_pm (user_tx u)).
Definition utx_cache (u : UserTxInfo) : TxCache := tx_cache (user_tx u).

(** C40: the end of a loop iteration is atomic. Let [tail] be the word saved when
    the iteration was entered and let the iteration have committed a transaction
    since. Whenever power fails during [exit_idempotent_loop], the check that
    [jit_recovery] makes either leaves an iteration that is still in progress, or
    completes the increment of the loop counter for one that is over. *)
Theorem loop_end_atomic `{Arch, Board, TxFeatures} (u : UserTxInfo) (a saved id : Z) :
  opt_loop_end = true → opt_tx_cache_space = true →
  exec saved_tail u = Done saved u → loop_cnt_ptr u = Some a →
  Z.land saved TX_ID_PTR_MASK = id → id < get_tx_id_of_ptr (utx_cache u) →
  get_tx_id_of_ptr (utx_cache u) = get_tx_id_of_tail (utx_cache u) →
  0 ≤ a → (Z.to_nat a + usize_bytes ≤ length (utx_bytes u))%nat →
  let counted := list_inserts (Z.to_nat a) (usize_to_bytes (uadd (loop_cnt_log u) (step u)))
                   (utx_bytes u) in
  ∀ c, c ∈ crash_states exit_idempotent_loop u →
    ∃ c', exec finish_loop_end c = Done tt c' ∧
      ((c = u ∧ c' = u) ∨
       (ctail (utx_cache c') = saved ∧ utx_bytes c' = counted)).
Proof.
  intros Hloop Hopt Hsaved Hp Hid Hlt Heq Ha Hle counted c.
  unfold exit_idempotent_loop, exit_loop_ptr. rewrite Hopt, Hloop. cbn [when].
  assert (Hcs : ∀ (k : Z → prog UserTxInfo unit),
    crash_states (bind saved_tail k) u = crash_states (k saved) u).
  { intros k. unfold saved_tail in *. cbn in *. unfold unwrap in *.
    destruct (0 <? stack_top u); [|done]. by destruct (_ !! _); cbn in *; simplify_eq. }
  rewrite Hcs. unfold set_loop_cnt, finish_loop_end. cbn. rewrite Hp. cbn.
  rewrite !decide_True by done. cbn. rewrite Hloop. unfold get_tx_id_of_tail, get_tx_id_of_ptr in *.
  rewrite Hopt in *. unfold utx_cache, utx_bytes in *.
  intros Hc. repeat (apply elem_of_cons in Hc as [->|Hc]); [..|by apply elem_of_nil in Hc]; cbn.
  - rewrite Heq, Z.ltb_irrefl. eauto.
  - rewrite Hid, (proj2 (Z.ltb_lt _ _)) by exact Hlt. cbn. rewrite Hp. cbn.
    rewrite decide_True by done. eexists. split; [done|by right].
  - rewrite Hid, (proj2 (Z.ltb_lt _ _)) by exact Hlt. cbn. rewrite Hp. cbn.
    rewrite decide_True by (by rewrite length_inserts). eexists. split; [done|right]. split; [done|].
    cbn. by apply inserts_twice; rewrite length_usize_to_bytes.
  - rewrite Z.ltb_irrefl. eexists. split; [done|by right].
  - rewrite Z.ltb_irrefl. eexists. split; [done|by right].
Qed.

(** A transaction before a loop, one iteration of the loop (its counter is the
    word at address 0) and a transaction behind it. *)
Definition fresh_tx `{Board} (m : list Z) : tx_state :=
  {| tx_pm := {| bytes := m; journal := journal_new |}; tx_cache := txcache_new;
     nesting_level := 0; may_bypass := false |}.
Definition fresh_task `{Arch, Board} (m : list Z) : task :=
  {| user_tx_info := {| user_tx := fresh_tx m; stack_top := 0;
       tail_stack := replicate DEFAULT_STACK_DEPTH 0; loop_cnt_log := 0;
       loop_cnt_ptr := None; step := 0 |};
     tx := fresh_tx [0; 0; 0]; syscall_replay_cache := replay_new;
     list_tx_done := false; generation := 0 |}.

Section loop_program.
Context `{Arch, Board, TxFeatures}.

Definition before_loop : prog task bool := user_run (Ret true).
Definition iteration : prog task bool :=
  zoom enter_idempotent_loop;;; user_run (Ret true).
Definition after_loop : prog task bool :=
  zoom (log_loop_cnt 0 0 1);;; zoom exit_idempotent_loop;;; user_run (Ret false).

(** The result of the first transaction when it runs, and when it is replayed
    after a power failure behind the loop. *)
Definition first_then_replayed : option (bool * bool) :=
  match exec (let* v := before_loop in
              iteration;;; after_loop;;;
              jit_recovery 1;;;
              let* w := before_loop in Ret (v, w)) (fresh_task (replicate 8 0)) with
  | Done vw _ => Some vw
  | Failed _ => None
  end.
End loop_program.

(** [tail_stack] holds 16-bit words, so that on a 32-bit target the saved
    word of a loop loses the offset into the result cache: a transaction behind
    the loop overwrites the cached result of one before it, which is then
    replayed with the wrong result. On a 16-bit target it is replayed correctly. *)
Theorem loop_tail_truncated :
  first_then_replayed (H := cortex_m) (H0 := qemu) (H1 := default_features) = Some (true, false) ∧
  first_then_replayed (H := msp430) (H0 := msp430fr5994) (H1 := default_features) = Some (true, true).
Proof. split; vm_compute; reflexivity. Qed.

(** A task that flips a flag and then clears a counter, on the QEMU board. *)
Module example.
#[local] Existing Instances cortex_m qemu default_features.

Definition two_updates : session (bool * bool) :=
  STx (update_body 3 1 (λ bs, [1]) (λ bs, bool_decide (bs = [0]))) (λ v,
  STx (update_body 4 2 (λ bs, [7; 7]) (λ bs, bool_decide (bs = [1; 2]))) (λ w,
  SRet (v, w))).

Definition memory : list Z := [9; 9; 9; 0; 1; 2; 9].
Definition start : task := fresh_task memory.

(** The store when power fails after [n] writes of the first run. *)
Definition crashed (n : nat) : task :=
  default start (crash_at n (on_user_tx (run_session two_updates)) start).

Lemma board_ok_qemu : board_ok.
Proof. split; vm_compute; congruence. Qed.

Lemma fresh_task_initial : initial_task memory start.
Proof.
  split; [done| |done| |done].
  - split_and!; [apply jrepr_new, board_ok_qemu|done..].
  - exists [], [0; 0; 0]. split_and!; [apply jrepr_new, board_ok_qemu|done..].
Qed.

(** Closed side conditions. *)
Ltac side := first [done | repeat split; vm_compute; congruence | cbn; lia].

Lemma two_updates_path :
  path two_updates memory 0 0 (SRet (true, true)) [9; 9; 9; 1; 7; 7; 9] 2 [1; 1].
Proof.
  change [1; 1] with (to_bytes true ++ to_bytes true ++ []).
  eapply path_tx; [apply _| | |by left|].
  - apply (update_body_ok board_ok_qemu 3 1); side.
  - side.
  - eapply path_tx; [apply _| | |by left|apply path_refl].
    + apply (update_body_ok board_ok_qemu 4 2); side.
    + side.
Qed.

(** Power fails in the middle of the second transaction, and again during the
    recovery. *)
Definition crashed_twice : task :=
  default start
    (crash_at 4 (jit_recovery 1;;; on_user_tx (run_session two_updates)) (crashed 17)).

Example session_exactly_once_witness :
  ∃ c', exec (jit_recovery 2;;; on_user_tx (run_session two_updates)) crashed_twice
        = Done (true, true) c' ∧
    bytes (tx_pm (user_tx (user_tx_info c'))) = [9; 9; 9; 1; 7; 7; 9].
Proof.
  refine (session_exactly_once two_updates memory start crashed_twice 2 (true, true) _ 2 [1; 1]
    board_ok_qemu eq_refl _ fresh_task_initial two_updates_path _ _).
  - split; vm_compute; congruence.
  - eapply (life_again _ _ (crashed 17) 1).
    + apply life_first, (list_elem_of_lookup_2 _ 17). vm_compute. reflexivity.
    + vm_compute. congruence.
    + apply (list_elem_of_lookup_2 _ 4). vm_compute. reflexivity.
  - vm_compute. congruence.
Defined.

(** The iteration of the loop above, about to end. *)
Definition iterated : UserTxInfo :=
  match exec (before_loop;;; iteration;;; zoom (log_loop_cnt 0 0 1)) (fresh_task (replicate 8 0)) with
  | Done _ t => user_tx_info t
  | Failed _ => user_tx_info start
  end.

Example loop_end_atomic_witness :
  length (crash_states exit_idempotent_loop iterated) = 5%nat ∧
  ∀ c, c ∈ crash_states exit_idempotent_loop iterated →
  ∃ c', exec finish_loop_end c = Done tt c' ∧
    ((c = iterated ∧ c' = iterated) ∨
     (ctail (utx_cache c') = 1 ∧ utx_bytes c' = [1; 0; 0; 0; 0; 0; 0; 0])).
Proof.
  split; [vm_compute; reflexivity|].
  refine (loop_end_atomic iterated 0 1 1 eq_refl eq_refl _ _ _ _ _ _ _);
    [vm_compute; reflexivity..|vm_compute; congruence|vm_compute; lia].
Defined.
End example.
