(* ===== verification/Util.v ===== *)
(** * Utilities: alignment, clocks, sorting ([util.rs]), critical sections
    ([critical.rs]) and persistent arrays ([vec.rs]) *)

From Stdlib Require Import Sorting.Sorted.
From S2P Require Import Prelude Arch Pmem.

(** ** Clock differences *)

Section clock.
(** [board!(CLK_RELOAD_VALUE) as u32] *)
Context (feat : features) (CLK_RELOAD_VALUE : Z).

Definition u32_sub (debug : bool) (a b : Z) : option Z :=
  if (a <? b) && debug then None else Some ((a - b) mod 2 ^ 32).
Definition u32_add (debug : bool) (a b : Z) : option Z :=
  if (2 ^ 32 <=? a + b) && debug then None else Some ((a + b) mod 2 ^ 32).

(** [get_time_diff]; [None] is an overflow panic of a debug build. *)
Definition get_time_diff (debug : bool) (end_ start : Z) : option Z :=
  if profile_tx feat then (if end_ <? start then Some 0 else u32_sub debug end_ start)
  else if power_failure feat && (end_ <? start) then
    if msp430_use_timerb feat then Some 0
    else end' ← u32_add debug end_ CLK_RELOAD_VALUE; u32_sub debug end' start
  else u32_sub debug end_ start.
End clock.

(** ** [max], [min] and [bubble_sort] of a [PartialOrd] *)

Section order.
Context {T : Type} (ge le gt : T → T → bool).

Definition max (v1 v2 : T) : T := if ge v1 v2 then v1 else v2.
Definition min (v1 v2 : T) : T := if le v1 v2 then v1 else v2.

(** The inner loop: [n] iterations from index [j] on; [None] is an index out
    of bounds. *)
Fixpoint sort_pass (n j : nat) (input : list T) (has_swapped : bool) : option (list T * bool) :=
  match n with
  | O => Some (input, has_swapped)
  | S n =>
      x ← input !! j; y ← input !! S j;
      if gt x y then sort_pass n (S j) (<[S j := x]> (<[j := y]> input)) true
      else sort_pass n (S j) input has_swapped
  end.

(** The outer loop, [for i in (0..n).rev()]. *)
Fixpoint sort_loop (n : nat) (input : list T) : option (list T) :=
  match n with
  | O => Some input
  | S i =>
      '(input, has_swapped) ← sort_pass i 0 input false;
      if (has_swapped : bool) then sort_loop i input else Some input
  end.

Definition bubble_sort (input : list T) : option (list T) :=
  if (length input <? 2)%nat then Some input else sort_loop (length input) input.
End order.

(** ** Critical sections *)

(** The interrupt flag of the processor and [NESTING_CNT]. *)
Record cpu := { interrupts : bool; nesting_cnt : Z }.

Section critical.
Context `{Arch}.

Definition disable_interrupt : prog cpu unit :=
  modify (λ c, {| interrupts := false; nesting_cnt := nesting_cnt c |}).
Definition enable_interrupt : prog cpu unit :=
  modify (λ c, {| interrupts := true; nesting_cnt := nesting_cnt c |}).
Definition nesting_inc : prog cpu unit :=
  modify (λ c, {| interrupts := interrupts c; nesting_cnt := uadd (nesting_cnt c) 1 |}).
Definition nesting_dec : prog cpu Z :=
  modify (λ c, {| interrupts := interrupts c; nesting_cnt := usub (nesting_cnt c) 1 |});;;
  gets nesting_cnt.

(** The body runs in a store [S] of which the processor is a component. *)
Definition with_no_interrupt {S A} `{!Lens cpu S} (f : prog S A) : prog S A :=
  zoom disable_interrupt;;;
  zoom nesting_inc;;;
  let* v := f in
  let* n := zoom nesting_dec in
  when (n =? 0) (zoom enable_interrupt);;;
  Ret v.

Definition is_in_critical (c : cpu) : bool := 0 <? nesting_cnt c.
Definition exit_all_critical : prog cpu unit :=
  modify (λ c, {| interrupts := interrupts c; nesting_cnt := 0 |}).
End critical.

(** ** Persistent arrays *)

(** [PArray<T>] with [size_of::<T>() = esz]. *)
Record PArray := { pa_ptr : Z; pa_size : Z }.

Section parray.
Context `{Arch, Board} (esz : nat).

(** [PArray::index]: a checked read. *)
Definition parray_index (a : PArray) (idx : Z) : prog pmem (list Z) :=
  assert_ (idx <? pa_size a);;;
  read_bytes (pa_ptr a + idx * Z.of_nat esz) esz.

(** [PArray::index_mut] followed by a store through the reference; there is no
    bounds check. *)
Definition parray_index_mut (a : PArray) (idx : Z) : prog pmem Z :=
  as_mut (pa_ptr a + idx * Z.of_nat esz) (Z.of_nat esz).
Definition parray_set (a : PArray) (idx : Z) (v : list Z) : prog pmem unit :=
  let* p := parray_index_mut a idx in write_bytes p v.

Definition to_byte_array (a : PArray) : PArray :=
  {| pa_ptr := pa_ptr a; pa_size := umul (Z.of_nat esz) (pa_size a) |}.
End parray.

(** ** Lemmas: one pass of the sort on lists *)

Section sort_lemmas.
Context {T : Type} (gt : T → T → bool) (R : relation T) `{!Transitive R}.
Context (gt_true : ∀ x y, gt x y = true → R y x) (gt_false : ∀ x y, gt x y = false → R x y).

(** A pass over [x :: l]: what it leaves in front, its maximum, whether it
    swapped. *)
Fixpoint bubble (x : T) (l : list T) : list T * T * bool :=
  match l with
  | [] => ([], x, false)
  | y :: l =>
      if gt x y then let '(r, m, _) := bubble x l in (y :: r, m, true)
      else let '(r, m, b) := bubble y l in (x :: r, m, b)
  end.

Lemma sort_pass_bubble pre x l suf sw :
  sort_pass gt (length l) (length pre) (pre ++ x :: l ++ suf) sw =
  let '(r, m, b) := bubble x l in Some (pre ++ r ++ m :: suf, b || sw).
Proof.
  revert pre x sw; induction l as [|y l IH]; intros pre x sw; [done|].
  cbn [length sort_pass bubble]. rewrite (list_lookup_middle pre _ x (length pre)) by done. cbn [mbind option_bind].
  assert (Hy : (pre ++ x :: (y :: l) ++ suf) !! S (length pre) = Some y).
  { replace (S (length pre)) with (length pre + 1)%nat by lia. rewrite lookup_app_r by lia.
    by replace (length pre + 1 - length pre)%nat with 1%nat by lia. }
  rewrite Hy. cbn [mbind option_bind]. destruct (gt x y).
  - replace (<[S (length pre):=x]> (<[length pre:=y]> (pre ++ x :: (y :: l) ++ suf)))
      with ((pre ++ [y]) ++ x :: l ++ suf).
    + replace (S (length pre)) with (length (pre ++ [y])) by (rewrite length_app; cbn; lia).
      rewrite IH. destruct (bubble x l) as [[r m] b]. cbn. by rewrite orb_true_r, <-(assoc_L app).
    + replace (length pre) with (length pre + 0)%nat at 2 by lia. rewrite insert_app_r. cbn.
      replace (S (length pre)) with (length pre + 1)%nat by lia. rewrite insert_app_r. cbn.
      by rewrite <-(assoc_L app).
  - replace (pre ++ x :: (y :: l) ++ suf) with ((pre ++ [x]) ++ y :: l ++ suf)
      by (by rewrite <-(assoc_L app)).
    replace (S (length pre)) with (length (pre ++ [x])) by (rewrite length_app; cbn; lia).
    rewrite IH. destruct (bubble y l) as [[r m] b]. cbn. by rewrite <-(assoc_L app).
Qed.

Lemma bubble_spec x l r m b :
  bubble x l = (r, m, b) →
  r ++ [m] ≡ₚ x :: l ∧ Forall (λ y, R y m) r ∧ (R x m ∨ x = m) ∧
  (b = false → r ++ [m] = x :: l ∧ StronglySorted R (x :: l)).
Proof.
  revert x r m b; induction l as [|y l IH]; intros x r m b; cbn [bubble].
  { intros [= <- <- <-]. split_and!; [done|constructor|by right|]. intros _.
    split; [done|]. repeat constructor. }
  destruct (gt x y) eqn:Hxy.
  - destruct (bubble x l) as [[r' m'] b'] eqn:E. intros [= <- <- <-].
    destruct (IH _ _ _ _ E) as (Hp & Hf & Hx & _). split_and!; [| |done|done].
    + cbn. rewrite Hp. constructor.
    + constructor; [|done]. apply gt_true in Hxy. destruct Hx as [Hx|<-]; [by trans x|done].
  - destruct (bubble y l) as [[r' m'] b'] eqn:E. intros [= <- <- <-].
    destruct (IH _ _ _ _ E) as (Hp & Hf & Hy & Hs). apply gt_false in Hxy.
    assert (Hxm : R x m') by (destruct Hy as [Hy|<-]; [by trans y|done]).
    split_and!; [by cbn; rewrite Hp|by constructor|by left|]. intros ->.
    destruct (Hs eq_refl) as [Hr Hss]. split; [by cbn; rewrite Hr|]. constructor; [done|].
    constructor; [done|]. inversion Hss; subst. eapply List.Forall_impl; [|done].
    intros z Hz. by trans y.
Qed.

Lemma StronglySorted_app_inv l1 l2 :
  StronglySorted R l1 → StronglySorted R l2 → (∀ x y, x ∈ l1 → y ∈ l2 → R x y) →
  StronglySorted R (l1 ++ l2).
Proof.
  induction 1 as [|x l1 Hs IH Hf]; intros H2 H12; [done|]. cbn. constructor.
  - apply IH; [done|]. intros; apply H12; [by constructor|done].
  - apply Forall_app; split; [done|]. apply Forall_forall. intros y Hy.
    apply H12; [constructor|done].
Qed.

Lemma sort_loop_spec p suf :
  StronglySorted R suf → (∀ x y, x ∈ p → y ∈ suf → R x y) →
  ∃ l, sort_loop gt (length p) (p ++ suf) = Some l ∧ l ≡ₚ p ++ suf ∧ StronglySorted R l.
Proof.
  remember (length p) as n eqn:Hn. revert p suf Hn.
  induction n as [|n IH]; intros p suf Hn Hs Hle.
  { destruct p; [|done]. by exists suf. }
  destruct p as [|x p]; [done|]. injection Hn as ->. cbn [sort_loop].
  rewrite (sort_pass_bubble [] x p suf false : sort_pass gt (length p) 0 ((x :: p) ++ suf) false = _).
  destruct (bubble x p) as [[r m] b] eqn:E. destruct (bubble_spec _ _ _ _ _ E) as (Hp & Hf & _ & Hb).
  rewrite orb_false_r. cbn [mbind option_bind app]. destruct b.
  - assert (Hm : m ∈ x :: p) by (rewrite <-Hp; apply elem_of_app; right; constructor).
    assert (Hr : ∀ y, y ∈ r → y ∈ x :: p) by (intros y Hy; rewrite <-Hp; apply elem_of_app; by left).
    destruct (IH r (m :: suf)) as (l & El & Hl & Hsl).
    + apply Permutation_length in Hp. rewrite length_app in Hp. cbn in Hp. lia.
    + constructor; [done|]. apply Forall_forall. intros y Hy. by apply Hle.
    + intros y z Hy [->|Hz]%elem_of_cons; [|by apply Hle; [apply Hr|]].
      by apply (proj1 (Forall_forall _ _) Hf).
    + exists l. split_and!; [done| |done]. rewrite Hl. change (x :: p ++ suf) with ((x :: p) ++ suf). rewrite <-Hp. by rewrite <-(assoc_L app).
  - destruct (Hb eq_refl) as [Hr Hss]. eexists. split; [done|].
    replace (r ++ m :: suf) with ((x :: p) ++ suf) by (by rewrite <-Hr, <-(assoc_L app)).
    split; [done|]. by apply StronglySorted_app_inv.
Qed.
End sort_lemmas.

(** ** Theorems *)

(** [bubble_sort] never indexes out of bounds and returns a sorted
    permutation of its input. *)
Theorem bubble_sort_correct {T} (gt : T → T → bool) (R : relation T) (input : list T) :
  Transitive R → (∀ x y, gt x y = true → R y x) → (∀ x y, gt x y = false → R x y) →
  ∃ l, bubble_sort gt input = Some l ∧ l ≡ₚ input ∧ StronglySorted R l.
Proof.
  intros HR Ht Hf. unfold bubble_sort. destruct (Nat.ltb_spec (length input) 2) as [Hlt|_].
  - exists input. split_and!; [done..|].
    destruct input as [|x [|y l]]; cbn in Hlt; [constructor|repeat constructor|lia].
  - destruct (sort_loop_spec gt R Ht Hf input []) as (l & E & Hl & Hs);
      [constructor|intros ? ? ? []%elem_of_nil|].
    rewrite app_nil_r in *. eauto.
Qed.

(** With the feature [power_failure] the clock counts modulo
    [CLK_RELOAD_VALUE]; the difference of two readings is the elapsed time, also
    across a reload, as long as less than a period has elapsed. *)
Theorem get_time_diff_elapsed (feat : features) (CLK start d : Z) (debug : bool) :
  profile_tx feat = false → power_failure feat = true → msp430_use_timerb feat = false →
  0 ≤ start < CLK → 0 ≤ d < CLK → 2 * CLK ≤ 2 ^ 32 →
  get_time_diff feat CLK debug ((start + d) mod CLK) start = Some d.
Proof.
  intros Hp Hf Ht Hs Hd Hc. unfold get_time_diff. rewrite Hp, Hf, Ht. cbn [andb].
  assert (Hmod : (start + d) mod CLK = if start + d <? CLK then start + d else start + d - CLK).
  { destruct (Z.ltb_spec (start + d) CLK); [apply Z.mod_small; lia|].
    replace (start + d) with (start + d - CLK + 1 * CLK) at 1 by lia.
    rewrite Z.mod_add by lia. apply Z.mod_small. lia. }
  rewrite Hmod. destruct (Z.ltb_spec (start + d) CLK).
  - rewrite (proj2 (Z.ltb_ge _ _)) by lia. unfold u32_sub.
    rewrite (proj2 (Z.ltb_ge _ _)) by lia. cbn [andb]. f_equal. rewrite Z.mod_small; lia.
  - rewrite (proj2 (Z.ltb_lt _ _)) by lia. unfold u32_add.
    rewrite (proj2 (Z.leb_gt _ _)) by lia. cbn [andb mbind option_bind].
    rewrite (Z.mod_small (_ + CLK)) by lia. unfold u32_sub.
    rewrite (proj2 (Z.ltb_ge _ _)) by lia. cbn [andb]. f_equal. rewrite Z.mod_small; lia.
Qed.

Lemma exec_with_no_interrupt `{Arch} {S A} `{!Lens cpu S, !LensLaws cpu S} (f : prog S A) (s s' : S) (v : A) (n : Z) :
  nesting_cnt (lget s) = n → 0 ≤ n < usize_mod - 1 →
  exec f (lset {| interrupts := false; nesting_cnt := n + 1 |} s) = Done v s' →
  lget s' = {| interrupts := false; nesting_cnt := n + 1 |} →
  exec (with_no_interrupt f) s = Done v (lset {| interrupts := n =? 0; nesting_cnt := n |} s').
Proof.
  intros <- Hn Hf Hs'. unfold with_no_interrupt. cbn. rewrite !lget_lset. cbn.
  rewrite uadd_small by lia. rewrite lset_lset. rewrite exec_bind, Hf. cbn. rewrite Hs'. cbn.
  rewrite !lget_lset. cbn. rewrite usub_small by lia.
  replace (nesting_cnt (lget s) + 1 - 1) with (nesting_cnt (lget s)) by lia.
  destruct (nesting_cnt (lget s) =? 0); cbn; [by rewrite lget_lset, lset_lset|done].
Qed.

Lemma exec_with_no_interrupt_fail `{Arch} {S A} `{!Lens cpu S, !LensLaws cpu S} (f : prog S A) (s : S) (n : Z) e :
  nesting_cnt (lget s) = n → 0 ≤ n < usize_mod - 1 →
  exec f (lset {| interrupts := false; nesting_cnt := n + 1 |} s) = Failed e →
  exec (with_no_interrupt f) s = Failed e.
Proof.
  intros <- Hn Hf. unfold with_no_interrupt. cbn. rewrite !lget_lset. cbn.
  rewrite uadd_small by lia. rewrite lset_lset. by rewrite exec_bind, Hf.
Qed.

(** Critical sections nest. Interrupts stay off until the outermost section
    ends; the result is the body's, and the nesting count is the one at entry. *)
Theorem with_no_interrupt_nests `{Arch} {S A} `{!Lens cpu S, !LensLaws cpu S} (f : prog S A) (s s' : S) (v : A) (n : Z) :
  nesting_cnt (lget s) = n → 0 ≤ n < usize_mod - 1 →
  exec f (lset {| interrupts := false; nesting_cnt := n + 1 |} s) = Done v s' →
  lget s' = {| interrupts := false; nesting_cnt := n + 1 |} →
  exec (with_no_interrupt f) s = Done v (lset {| interrupts := n =? 0; nesting_cnt := n |} s').
Proof. apply exec_with_no_interrupt. Qed.

(** [PArray::index] checks the index and [index_mut] does not: a store
    through [index_mut] behind the end of the array overwrites what is there. *)
Theorem parray_index_mut_unchecked :
  ∃ s s', let arr := {| pa_ptr := 0; pa_size := 2 |} in
    exec (parray_index 1 arr 3) s = Failed Panic ∧
    exec (parray_set (H := cortex_m) (H0 := qemu) 1 arr 3 [9]) s = Done tt s' ∧
    bytes s = [1; 2; 3; 4] ∧ bytes s' = [1; 2; 3; 9].
Proof.
  exists {| bytes := [1; 2; 3; 4]; journal := journal_new (H0 := qemu) |}.
  eexists. split; [reflexivity|]. split; [vm_compute; reflexivity|]. split; reflexivity.
Qed.

Module example.
#[local] Existing Instance cortex_m.

Example bubble_sort_correct_witness :
  ∃ l, bubble_sort Z.gtb [3; 1; 2; 1] = Some l ∧ l ≡ₚ [3; 1; 2; 1] ∧ StronglySorted Z.le l.
Proof.
  apply (bubble_sort_correct Z.gtb Z.le [3; 1; 2; 1]).
  - intros x y z. lia.
  - intros x y H. lia.
  - intros x y H. lia.
Defined.

Example get_time_diff_elapsed_witness :
  get_time_diff {| profile_tx := false; power_failure := true; msp430_use_timerb := false |}
    0xffff true ((0xfff0 + 0x20) mod 0xffff) 0xfff0 = Some 0x20.
Proof. apply get_time_diff_elapsed; [reflexivity..|lia|lia|lia]. Defined.

(** The processor as the whole store. *)
#[local] Instance cpu_self : Lens cpu cpu := {| lget := id; lset := λ c _, c |}.
#[local] Instance cpu_self_laws : LensLaws cpu cpu.
Proof. by split. Qed.

Example with_no_interrupt_nests_witness :
  exec (with_no_interrupt (S := cpu) (with_no_interrupt (S := cpu) (Ret 5))) {| interrupts := true; nesting_cnt := 0 |}
  = Done 5 {| interrupts := true; nesting_cnt := 0 |}.
Proof.
  etransitivity; [apply (with_no_interrupt_nests (S := cpu) (with_no_interrupt (S := cpu) (Ret 5))
    {| interrupts := true; nesting_cnt := 0 |} {| interrupts := false; nesting_cnt := 1 |} 5 0)|];
    vm_compute; intuition congruence.
Defined.
End example.
