(* ===== verification/PList.v ===== *)
(** * Persistent doubly linked lists ([Node] and [PList] of [list.rs])

    The lists of the kernel (ready lists, delay list, wait lists, the timer
    daemon's active list) link nodes that are embedded in tasks and timers. The
    optimised operations modelled here do not use the undo journal: they record
    an operation code with the old length in one word ([start_op_log]) and are
    rolled forward after a power failure by the [recover_from_failed_...]
    functions. Every assignment to a field is one atomic write. *)

From S2P Require Import Prelude Arch.

(** The operations a list's log word can name, with their numbers. *)
Inductive ListOpCode :=
| OpInvalid
| InsertBeforeCursor
| InsertFront
| InsertSortedWaitList
| InsertSortedDelayList
| PopFront
| OpRemove
| ReadyListNext.
#[export] Instance ListOpCode_eq_dec : EqDecision ListOpCode.
Proof. solve_decision. Defined.

Definition op_number (op : ListOpCode) : Z :=
  match op with
  | OpInvalid => 0 | InsertBeforeCursor => 1 | InsertFront => 2 | InsertSortedWaitList => 3
  | InsertSortedDelayList => 4 | PopFront => 5 | OpRemove => 6 | ReadyListNext => 7
  end.

Definition op_of_number (z : Z) : option ListOpCode :=
  match z with
  | 0 => Some OpInvalid | 1 => Some InsertBeforeCursor | 2 => Some InsertFront
  | 3 => Some InsertSortedWaitList | 4 => Some InsertSortedDelayList | 5 => Some PopFront
  | 6 => Some OpRemove | 7 => Some ReadyListNext | _ => None
  end.

Definition OP_CODE_SHIFT : Z := 12.

(** [set_micro_op_old_len], [get_micro_op] (a [transmute]: other numbers are
    undefined), [get_old_len]. *)
Definition encode_micro `{Arch} (op : ListOpCode) (old_len : Z) : Z :=
  Z.lor (wrap (Z.shiftl (op_number op) OP_CODE_SHIFT)) old_len.
Definition get_micro_op (w : Z) : option ListOpCode := op_of_number (Z.shiftr w OP_CODE_SHIFT).
Definition get_old_len (w : Z) : Z := Z.land w 0xfff.

Record Node (P L V : Type) := {
  prev : option P;
  next : option P;
  nlist : option L;
  value : V;
}.
Arguments prev {P L V} _.
Arguments next {P L V} _.
Arguments nlist {P L V} _.
Arguments value {P L V} _.
Arguments Build_Node {P L V} _ _ _ _.

Record PList (P : Type) := {
  len : Z;
  cursor : option P;
  head : option P;
}.
Arguments len {P} _.
Arguments cursor {P} _.
Arguments head {P} _.
Arguments Build_PList {P} _ _ _.

(** The store: all nodes, all lists, and the log words of the two
    [ListTxOpLog]s, the kernel's and the timer daemon's. *)
Record lstore (P L V : Type) `{Countable P, Countable L} := {
  nodes : gmap P (Node P L V);
  lists : gmap L (PList P);
  micro : Z;
  timer_micro : Z;
}.
Arguments nodes {P L V _ _ _ _} _.
Arguments lists {P L V _ _ _ _} _.
Arguments micro {P L V _ _ _ _} _.
Arguments timer_micro {P L V _ _ _ _} _.
Arguments Build_lstore {P L V _ _ _ _} _ _ _ _.

(** ** Assignments

    An assignment writes one cell of the store: a field of a node, a field of a
    list, or a log word. *)

Definition nset_prev {P L V} (v : option P) (n : Node P L V) : Node P L V :=
  Build_Node v (next n) (nlist n) (value n).
Definition nset_next {P L V} (v : option P) (n : Node P L V) : Node P L V :=
  Build_Node (prev n) v (nlist n) (value n).
Definition nset_list {P L V} (v : option L) (n : Node P L V) : Node P L V :=
  Build_Node (prev n) (next n) v (value n).
Definition lset_len {P} (v : Z) (l : PList P) : PList P := Build_PList v (cursor l) (head l).
Definition lset_cursor {P} (v : option P) (l : PList P) : PList P := Build_PList (len l) v (head l).
Definition lset_head {P} (v : option P) (l : PList P) : PList P := Build_PList (len l) (cursor l) v.

Inductive update (P L : Type) :=
| UPrev (p : P) (v : option P)
| UNext (p : P) (v : option P)
| UList (p : P) (v : option L)
| ULen (l : L) (v : Z)
| UCursor (l : L) (v : option P)
| UHead (l : L) (v : option P)
| UMicro (timer : bool) (w : Z).
Arguments UPrev {P L} p v.
Arguments UNext {P L} p v.
Arguments UList {P L} p v.
Arguments ULen {P L} l v.
Arguments UCursor {P L} l v.
Arguments UHead {P L} l v.
Arguments UMicro {P L} timer w.

Section assign.
Context {P L V : Type} `{Countable P, Countable L}.

Definition with_nodes (f : gmap P (Node P L V) → gmap P (Node P L V)) (s : lstore P L V) : lstore P L V :=
  Build_lstore (f (nodes s)) (lists s) (micro s) (timer_micro s).
Definition with_lists (f : gmap L (PList P) → gmap L (PList P)) (s : lstore P L V) : lstore P L V :=
  Build_lstore (nodes s) (f (lists s)) (micro s) (timer_micro s).

Definition apply (u : update P L) (s : lstore P L V) : lstore P L V :=
  match u with
  | UPrev p v => with_nodes (alter (nset_prev v) p) s
  | UNext p v => with_nodes (alter (nset_next v) p) s
  | UList p v => with_nodes (alter (nset_list v) p) s
  | ULen l v => with_lists (alter (lset_len v) l) s
  | UCursor l v => with_lists (alter (lset_cursor v) l) s
  | UHead l v => with_lists (alter (lset_head v) l) s
  | UMicro true w => Build_lstore (nodes s) (lists s) (micro s) w
  | UMicro false w => Build_lstore (nodes s) (lists s) w (timer_micro s)
  end.

(** Whether the node or list that an assignment goes to exists. *)
Definition target_exists (s : lstore P L V) (u : update P L) : bool :=
  match u with
  | UPrev p _ | UNext p _ | UList p _ => bool_decide (is_Some (nodes s !! p))
  | ULen l _ | UCursor l _ | UHead l _ => bool_decide (is_Some (lists s !! l))
  | UMicro _ _ => true
  end.

Definition assign (u : update P L) : prog (lstore P L V) unit :=
  let* s := get in
  if target_exists s u then modify (apply u) else Fail Undefined.

(** Dereferencing a pointer to a node or to a list. *)
Definition deref (p : P) : prog (lstore P L V) (Node P L V) :=
  let* s := get in unwrap_unchecked (nodes s !! p).
Definition deref_list (l : L) : prog (lstore P L V) (PList P) :=
  let* s := get in unwrap_unchecked (lists s !! l).
End assign.

Section ops.
Context `{Arch} {P L V : Type} `{Countable P, Countable L}.
Context (gt : V → V → bool) (timer_list : L → bool).
#[local] Abbreviation store := (lstore P L V).

Definition set_prev (p : P) (v : option P) : prog store unit := assign (UPrev p v).
Definition set_next (p : P) (v : option P) : prog store unit := assign (UNext p v).
Definition set_list (p : P) (v : option L) : prog store unit := assign (UList p v).
Definition set_cursor (l : L) (v : option P) : prog store unit := assign (UCursor l v).
Definition set_head (l : L) (v : option P) : prog store unit := assign (UHead l v).
Definition set_len (l : L) (v : Z) : prog store unit := assign (ULen l v).
(** [self.len += 1] and [self.len -= 1] *)
Definition inc_len (l : L) : prog store unit :=
  let* pl := deref_list l in set_len l (uadd (len pl) 1).
Definition dec_len (l : L) : prog store unit :=
  let* pl := deref_list l in set_len l (usub (len pl) 1).

(** [OpLogListItem::start_op_log]: timer items use the timer daemon's log. *)
Definition start_op_log (self : L) (op : ListOpCode) (old_len : Z) : prog store unit :=
  assign (UMicro (timer_list self) (encode_micro op old_len)).

Definition plist_new : PList P := Build_PList 0 None None.
Definition node_new (v : V) : Node P L V := Build_Node None None None v.
Definition plist_empty (l : PList P) : bool := len l =? 0.

(** *** Circular lists *)

Definition optimized_insert_before_cursor_impl (self : L) (link : P) : prog store unit :=
  let* node := deref link in
  if bool_decide (nlist node ≠ None) then skip else
  set_list link (Some self);;;
  let* l := deref_list self in
  match cursor l with
  | None =>
      set_prev link (Some link);;;
      set_next link (Some link);;;
      set_cursor self (Some link);;;
      set_head self (Some link)
  | Some ptr =>
      let* c := deref ptr in
      set_prev link (prev c);;;
      let* l := deref_list self in
      set_next link (cursor l);;;
      let* node := deref link in
      let* p := unwrap_unchecked (prev node) in
      set_next p (Some link);;;
      set_prev ptr (Some link);;;
      let* l := deref_list self in
      when (bool_decide (cursor l = head l)) (set_head self (Some link))
  end;;;
  inc_len self.

Definition optimized_insert_before_cursor (self : L) (link : P) : prog store unit :=
  let* l := deref_list self in
  start_op_log self InsertBeforeCursor (len l);;;
  optimized_insert_before_cursor_impl self link.

Definition recover_from_failed_insert_before_cursor (self : L) (node_ptr : P) (old_len : Z) :
    prog store unit :=
  (if old_len =? 0 then
     set_prev node_ptr (Some node_ptr);;;
     set_next node_ptr (Some node_ptr);;;
     set_cursor self (Some node_ptr);;;
     set_head self (Some node_ptr)
   else
     let* l := deref_list self in
     let* cp := unwrap_unchecked (cursor l) in
     let* c := deref cp in
     (if bool_decide (prev c = Some node_ptr) then skip
      else
        set_prev node_ptr (prev c);;;
        let* l := deref_list self in
        set_next node_ptr (cursor l);;;
        let* node := deref node_ptr in
        let* p := unwrap_unchecked (prev node) in
        set_next p (Some node_ptr);;;
        set_prev cp (Some node_ptr));;;
     let* l := deref_list self in
     when (bool_decide (cursor l = head l)) (set_head self (Some node_ptr)));;;
  set_len self (uadd old_len 1).

(** [PList::next], [cursor] and [peek_next]: the value of a node. *)
Definition value_at (p : option P) : prog store (option V) :=
  match p with
  | None => Ret None
  | Some p => let* n := deref p in Ret (Some (value n))
  end.
Definition plist_next (self : L) : prog store (option V) :=
  let* l := deref_list self in
  match cursor l with
  | None => Ret None
  | Some ptr =>
      let* node := deref ptr in
      set_cursor self (next node);;;
      let* l := deref_list self in
      value_at (cursor l)
  end.
Definition plist_cursor (self : L) : prog store (option V) :=
  let* l := deref_list self in value_at (cursor l).
Definition peek_next (self : L) : prog store (option V) :=
  let* l := deref_list self in
  match cursor l with
  | None => Ret None
  | Some ptr => let* node := deref ptr in value_at (next node)
  end.

(** *** Removal, from circular and linear lists *)

(** [ptr.map(|p| p.field = v)] *)
Definition map_set (p : option P) (f : P → prog store unit) : prog store unit :=
  match p with None => skip | Some p => f p end.

(** Bridging the gap [node] leaves, and moving cursor and head off it. *)
Definition unlink (node_ptr : P) : prog store unit :=
  let* n := deref node_ptr in
  map_set (prev n) (λ p, let* n := deref node_ptr in set_next p (next n));;;
  let* n := deref node_ptr in
  map_set (next n) (λ p, let* n := deref node_ptr in set_prev p (prev n)).
Definition move_cursor_head (self : L) (link : P) : prog store unit :=
  let* l := deref_list self in
  when (bool_decide (cursor l = Some link)) (let* n := deref link in set_cursor self (next n));;;
  let* l := deref_list self in
  when (bool_decide (head l = Some link)) (let* n := deref link in set_head self (next n)).

Definition optimized_remove_impl (self : L) (link : P) : prog store unit :=
  let* node := deref link in
  if bool_decide (nlist node = None) then skip else
  let* l := deref_list self in
  assert_ (negb debug_assertions || (0 <? len l));;;
  (if len l =? 1 then set_cursor self None;;; set_head self None
   else unlink link;;; move_cursor_head self link);;;
  dec_len self;;;
  set_list link None.

Definition optimized_remove (self : L) (link : P) : prog store unit :=
  let* l := deref_list self in
  start_op_log self OpRemove (len l);;;
  optimized_remove_impl self link.

Definition recover_from_failed_remove (self : L) (removed_ptr : P) (old_len : Z) : prog store unit :=
  unlink removed_ptr;;;
  move_cursor_head self removed_ptr;;;
  set_len self (usub old_len 1);;;
  set_list removed_ptr None.

(** *** Linear lists *)

(** [self.head.map(|p| p.prev = None)] and the cursor check of both pops. *)
Definition detach_front (self : L) (old_head : option P) : prog store unit :=
  let* l := deref_list self in
  map_set (head l) (λ p, set_prev p None);;;
  let* l := deref_list self in
  when (bool_decide (cursor l = old_head)) (let* l := deref_list self in set_cursor self (head l)).

(** The result is the popped node. *)
Definition optimized_pop_front (self : L) : prog store (option P) :=
  let* l := deref_list self in
  let old_head := head l in
  match old_head with
  | None => Ret None
  | Some ptr =>
      start_op_log self PopFront (len l);;;
      let* old_head_ref := deref ptr in
      set_head self (next old_head_ref);;;
      detach_front self old_head;;;
      dec_len self;;;
      set_list ptr None;;;
      Ret (Some ptr)
  end.

Definition recover_from_failed_pop_front (self : L) (old_head_ptr : P) (old_len : Z) : prog store unit :=
  let* l := deref_list self in
  if bool_decide (head l ≠ Some old_head_ptr) then
    detach_front self (Some old_head_ptr);;;
    set_len self (usub old_len 1);;;
    set_list old_head_ptr None
  else
    optimized_pop_front self;;; skip.

(** Connecting a node in front of the head, shared by insertion and recovery. *)
Definition push_front (self : L) (link : P) : prog store unit :=
  set_prev link None;;;
  set_next link None;;;
  let* l := deref_list self in
  match head l with
  | None => set_head self (Some link)
  | Some ptr =>
      set_next link (head l);;;
      set_prev ptr (Some link);;;
      set_head self (Some link)
  end.

Definition optimized_insert_front_impl (self : L) (link : P) : prog store unit :=
  let* node := deref link in
  assert_ (negb debug_assertions || bool_decide (nlist node = None));;;
  push_front self link;;;
  inc_len self;;;
  set_list link (Some self).

Definition optimized_insert_front (self : L) (link : P) : prog store unit :=
  let* l := deref_list self in
  start_op_log self InsertFront (len l);;;
  optimized_insert_front_impl self link.

Definition recover_from_failed_insert_front (self : L) (node_ptr : P) (old_len : Z) : prog store unit :=
  let* l := deref_list self in
  (if bool_decide (head l = Some node_ptr) then skip else push_front self node_ptr);;;
  set_len self (uadd old_len 1);;;
  set_list node_ptr (Some self).

Definition peek_front (self : L) : prog store (option V) :=
  let* l := deref_list self in value_at (head l).

(** The search loop of [insert_sorted]: the first node whose value is not
    smaller ([inl]), or the last node ([inr]). It only reads. *)
Fixpoint find_place (fuel : nat) (new_value : V) (ptr : P) : prog store (P + P) :=
  match fuel with
  | O => Fail Undefined
  | S fuel =>
      let* node := deref ptr in
      if gt new_value (value node) then
        match next node with
        | None => Ret (inr ptr)
        | Some next_ptr => find_place fuel new_value next_ptr
        end
      else Ret (inl ptr)
  end.

(** The loop visits every node at most once, whatever the links are. *)
Definition scan_list (new_value : V) (ptr : P) : prog store (P + P) :=
  let* s := get in find_place (size (nodes s)) new_value ptr.

Definition optimized_insert_sorted_impl (self : L) (link : P) : prog store unit :=
  let* new_node := deref link in
  assert_ (negb debug_assertions || bool_decide (nlist new_node = None));;;
  set_list link (Some self);;;
  let* l := deref_list self in
  match head l with
  | None => set_head self (Some link)
  | Some ptr =>
      let* place := scan_list (value new_node) ptr in
      match place with
      | inr last =>
          set_prev link (Some last);;;
          set_next link None;;;
          set_next last (Some link)
      | inl ptr =>
          set_next link (Some ptr);;;
          let* node := deref ptr in
          set_prev link (prev node);;;
          set_prev ptr (Some link);;;
          let* new_node := deref link in
          match prev new_node with
          | Some p => set_next p (Some link)
          | None => set_head self (Some link)
          end
      end
  end;;;
  inc_len self.

Definition optimized_insert_sorted (self : L) (link : P) : prog store unit :=
  set_next link None;;;
  set_prev link None;;;
  optimized_insert_sorted_impl self link.

(** [SortedPList::insert]; the operation code depends on the item type. *)
Definition sorted_insert (self : L) (op : ListOpCode) (link : P) : prog store unit :=
  let* l := deref_list self in
  start_op_log self op (len l);;;
  optimized_insert_sorted self link.

Definition recover_from_failed_insert_sorted (self : L) (node_ptr : P) (old_len : Z) : prog store unit :=
  let* node := deref node_ptr in
  if bool_decide (nlist node ≠ Some self) then
    set_next node_ptr None;;;
    set_prev node_ptr None;;;
    optimized_insert_sorted_impl self node_ptr
  else
  let* l := deref_list self in
  match next node, prev node with
  | Some nptr, _ =>
      let* nx := deref nptr in
      (if bool_decide (prev nx = Some node_ptr) then skip
       else
         set_prev node_ptr (prev nx);;;
         set_prev nptr (Some node_ptr));;;
      let* node := deref node_ptr in
      match prev node with
      | Some p => set_next p (Some node_ptr)
      | None => set_head self (Some node_ptr)
      end;;;
      set_list node_ptr (Some self);;;
      set_len self (uadd old_len 1)
  | None, Some p =>
      set_next node_ptr None;;;
      set_next p (Some node_ptr);;;
      set_list node_ptr (Some self);;;
      set_len self (uadd old_len 1)
  | None, None =>
      if bool_decide (head l = Some node_ptr) then set_len self (uadd old_len 1)
      else
        set_len self old_len;;;
        optimized_insert_sorted_impl self node_ptr
  end.
End ops.
