(* ===== verification/PListUpd.v ===== *)
(** * Sequences of assignments to list cells

    The list operations are reads and assignments. [performs p s us a] says that
    [p], started in [s], makes exactly the assignments [us] and returns [a]; the
    stores a power failure may leave are the prefixes of [us]. Assignments to
    different cells commute and assignments to the same cell overwrite each
    other, so that re-executing assignments with the same values is harmless. *)

From S2P Require Import Prelude Arch PList.

Inductive cell (P L : Type) :=
| CPrev (p : P) | CNext (p : P) | CList (p : P)
| CLen (l : L) | CCursor (l : L) | CHead (l : L) | CMicro (timer : bool).
Arguments CPrev {P L} p.
Arguments CNext {P L} p.
Arguments CList {P L} p.
Arguments CLen {P L} l.
Arguments CCursor {P L} l.
Arguments CHead {P L} l.
Arguments CMicro {P L} timer.
#[export] Instance cell_eq_dec {P L} `{EqDecision P, EqDecision L} : EqDecision (cell P L).
Proof. solve_decision. Defined.

Definition cell_of {P L} (u : update P L) : cell P L :=
  match u with
  | UPrev p _ => CPrev p | UNext p _ => CNext p | UList p _ => CList p
  | ULen l _ => CLen l | UCursor l _ => CCursor l | UHead l _ => CHead l
  | UMicro b _ => CMicro b
  end.

Section updates.
Context {P L V : Type} `{Countable P, Countable L}.
Implicit Types (s : lstore P L V) (u w : update P L) (us vs : list (update P L)).

Fixpoint apply_list us s : lstore P L V :=
  match us with [] => s | u :: us => apply_list us (apply u s) end.

Lemma apply_list_app us vs s : apply_list (us ++ vs) s = apply_list vs (apply_list us s).
Proof. revert s; induction us as [|u us IH]; intros s; cbn; auto. Qed.

Lemma apply_same u w s : cell_of u = cell_of w → apply w (apply u s) = apply w s.
Proof.
  destruct s as [m ls mi ti]. unfold apply, with_nodes, with_lists.
  destruct u as [| | | | | |[]], w as [| | | | | |[]]; cbn; intros [=]; subst; try done;
    by rewrite alter_alter_eq.
Qed.

Lemma apply_comm u w s : cell_of u ≠ cell_of w → apply w (apply u s) = apply u (apply w s).
Proof.
  intros Hne. destruct s as [m ls mi ti]. unfold apply, with_nodes, with_lists.
  destruct u as [p ?|p ?|p ?|l ?|l ?|l ?|[] ?], w as [q ?|q ?|q ?|k ?|k ?|k ?|[] ?];
    cbn in *; try done; f_equal;
    first [ destruct (decide (p = q)) as [->|?] | destruct (decide (l = k)) as [->|?] ];
    first [done | by rewrite alter_alter_ne by done | by rewrite !alter_alter_eq | by destruct Hne].
Qed.

(** Assignments that are all overwritten have no effect. *)
Lemma apply_overwritten u us s :
  cell_of u ∈ cell_of <$> us → apply_list us (apply u s) = apply_list us s.
Proof.
  revert s; induction us as [|w us IH]; intros s; cbn; [by intros []%elem_of_nil|].
  intros [Heq|Hin]%elem_of_cons; [by rewrite apply_same|].
  destruct (decide (cell_of u = cell_of w)); [by rewrite apply_same|].
  by rewrite apply_comm, IH.
Qed.

Lemma apply_list_overwritten vs us s :
  (∀ v, v ∈ vs → cell_of v ∈ cell_of <$> us) → apply_list us (apply_list vs s) = apply_list us s.
Proof.
  revert s; induction vs as [|v vs IH]; intros s Hin; cbn; [done|].
  rewrite IH by (intros; apply Hin; by constructor). apply apply_overwritten, Hin. constructor.
Qed.

(** A sequence that never gives one cell two values. *)
Definition coherent us : Prop := ∀ u w, u ∈ us → w ∈ us → cell_of u = cell_of w → u = w.

Lemma coherent_perm us vs s : coherent us → us ≡ₚ vs → apply_list us s = apply_list vs s.
Proof.
  intros Hc Hp. revert s Hc. induction Hp as [|u us vs Hp IH|u w us|us vs ws Hp1 IH1 Hp2 IH2];
    intros s Hc; cbn; [done| | |].
  - apply IH. intros x y Hx Hy. apply Hc; by constructor.
  - f_equal. destruct (decide (cell_of u = cell_of w)) as [E|]; [|by rewrite apply_comm].
    apply Hc in E as ->; [done| |]; set_solver.
  - rewrite IH1 by done. apply IH2. intros x y Hx Hy. apply Hc; by rewrite Hp1.
Qed.

(** Only the set of the assignments matters. *)
Lemma apply_list_set us vs s :
  coherent us → (∀ u, u ∈ us ↔ u ∈ vs) → apply_list us s = apply_list vs s.
Proof.
  intros Hc Heq.
  assert (E : apply_list (vs ++ us) s = apply_list (us ++ vs) s).
  { apply coherent_perm; [|by rewrite (comm app)]. intros x y [Hx|Hx]%elem_of_app [Hy|Hy]%elem_of_app; apply Hc; try done; by apply Heq. }
  rewrite !apply_list_app in E. rewrite !apply_list_overwritten in E; [done|..];
    intros v Hv; apply list_elem_of_fmap; exists v; split; [done|by apply Heq|done|by apply Heq].
Qed.

(** What an assignment leaves to read. *)
Lemma target_exists_apply u w s : target_exists (apply w s) u = target_exists s u.
Proof.
  destruct s as [m ls mi ti], w as [| | | | | |[]], u as [| | | | | |[]]; cbn; try done;
    by rewrite (bool_decide_ext _ _ (lookup_alter_is_Some _ _ _ _)).
Qed.

Lemma target_exists_apply_list u us s : target_exists (apply_list us s) u = target_exists s u.
Proof. revert s; induction us as [|w us IH]; intros s; cbn; [done|]. by rewrite IH, target_exists_apply. Qed.

(** ** Programs as sequences of assignments *)

Definition performs {A} (p : prog (lstore P L V) A) s us (a : A) : Prop :=
  exec p s = Done a (apply_list us s) ∧
  ∀ c, c ∈ crash_states p s → ∃ k, (k ≤ length us)%nat ∧ c = apply_list (take k us) s.

Lemma performs_ret {A} (a : A) s : performs (Ret a) s [] a.
Proof. split; [done|]. intros c ->%list_elem_of_singleton. by exists 0%nat. Qed.

Lemma performs_bind {A B} (p : prog _ A) (k : A → prog _ B) s us vs a b :
  performs p s us a → performs (k a) (apply_list us s) vs b → performs (bind p k) s (us ++ vs) b.
Proof.
  intros [E1 C1] [E2 C2]. split.
  - by rewrite exec_bind, E1, E2, apply_list_app.
  - intros c [Hc|(a' & s' & E & Hc)]%crash_states_bind.
    + destruct (C1 c Hc) as (n & Hn & ->). exists n. rewrite length_app, take_app_le by done.
      split; [lia|done].
    + rewrite E1 in E. simplify_eq. destruct (C2 c Hc) as (n & Hn & ->).
      exists (length us + n)%nat. rewrite length_app. split; [lia|].
      by rewrite take_app_add, apply_list_app.
Qed.

Lemma performs_read {A} (k : lstore P L V → prog _ A) s us a :
  performs (k s) s us a → performs (Read k) s us a.
Proof. done. Qed.

Lemma performs_assign u s : target_exists s u = true → performs (assign u) s [u] tt.
Proof.
  intros Ht. unfold assign. apply performs_read. cbn [bind]. rewrite Ht. split; [done|].
  intros c [-> | ->%list_elem_of_singleton]%elem_of_cons;
    [exists 0%nat|exists 1%nat]; (split; [cbn; lia|done]).
Qed.

Lemma performs_deref p s n : nodes s !! p = Some n → performs (deref p) s [] n.
Proof. intros E. apply performs_read. cbn. rewrite E. apply performs_ret. Qed.

Lemma performs_deref_list l s pl : lists s !! l = Some pl → performs (deref_list l) s [] pl.
Proof. intros E. apply performs_read. cbn. rewrite E. apply performs_ret. Qed.

(** The three kinds of steps in front of the rest of a program. *)
Lemma performs_deref_bind {B} p (k : _ → prog (lstore P L V) B) s n us b :
  nodes s !! p = Some n → performs (k n) s us b → performs (bind (deref p) k) s us b.
Proof. intros E. by apply (performs_bind (deref p) k s []), performs_deref. Qed.

Lemma performs_deref_list_bind {B} l (k : _ → prog (lstore P L V) B) s pl us b :
  lists s !! l = Some pl → performs (k pl) s us b → performs (bind (deref_list l) k) s us b.
Proof. intros E. by apply (performs_bind (deref_list l) k s []), performs_deref_list. Qed.

Lemma performs_assign_bind {B} u (k : unit → prog (lstore P L V) B) s us b :
  target_exists s u = true → performs (k tt) (apply u s) us b → performs (bind (assign u) k) s (u :: us) b.
Proof. intros E. by apply (performs_bind (assign u) k s [u]), performs_assign. Qed.

Lemma performs_when (b : bool) p s us :
  performs p s us tt → performs (when b p) s (if b then us else []) tt.
Proof. intros. destruct b; [done|apply performs_ret]. Qed.

Lemma performs_assert (b : bool) s : b = true → performs (assert_ b : prog (lstore P L V) unit) s [] tt.
Proof. intros ->. apply performs_ret. Qed.

Lemma performs_eq {A} (p : prog _ A) s us vs a : performs p s us a → us = vs → performs p s vs a.
Proof. by intros ? ->. Qed.

(** An assignment of the value a cell holds. *)
Lemma performs_noop {A} (p : prog _ A) s u us a :
  performs p s (u :: us) a → apply u s = s → performs p s us a.
Proof.
  intros [E C] Hu. cbn in E. rewrite Hu in E. split; [done|]. intros c Hc.
  destruct (C c Hc) as ([|k] & Hk & ->); [exists 0%nat; split; [lia|done]|].
  exists k. cbn in *. rewrite Hu. split; [lia|done].
Qed.

Lemma apply_len_same l z s pl : lists s !! l = Some pl → len pl = z → apply (ULen l z) s = s.
Proof.
  intros Hl <-. destruct s as [m ls mi ti]. cbn in *. unfold with_lists. cbn. f_equal.
  apply map_eq. intros k. destruct (decide (k = l)) as [->|?].
  - rewrite lookup_alter_eq, Hl. by destruct pl.
  - by rewrite lookup_alter_ne.
Qed.

Lemma apply_list_repeat u ws s : ws ⊆ [u] → apply_list ws (apply u s) = apply u s.
Proof.
  revert s; induction ws as [|w ws IH]; intros s Hws; cbn; [done|].
  assert (w = u) as -> by (apply list_elem_of_singleton, Hws; constructor).
  rewrite apply_same by done. apply IH. intros v Hv. apply Hws. by constructor.
Qed.

Lemma apply_list_repeated u ws s : ws ⊆ [u] → u ∈ ws → apply_list ws s = apply u s.
Proof.
  intros Hws Hu. destruct ws as [|w ws]; [by apply elem_of_nil in Hu|].
  assert (w = u) as -> by (apply list_elem_of_singleton, Hws; constructor).
  apply apply_list_repeat. intros v Hv. apply Hws. by constructor.
Qed.

Lemma performs_exec {A} (p : prog _ A) s us a : performs p s us a → exec p s = Done a (apply_list us s).
Proof. by intros [? _]. Qed.
End updates.

(** ** Re-executing part of a sequence *)

Section redo.
Context {P L V : Type} `{Countable P, Countable L}.
Implicit Types (s : lstore P L V) (us vs : list (update P L)).

Lemma NoDup_coherent us : NoDup (cell_of <$> us) → coherent us.
Proof.
  intros Hnd u w Hu Hw E. apply list_elem_of_lookup in Hu as [i Hi], Hw as [j Hj].
  assert (i = j) as <-; [|congruence].
  apply (NoDup_lookup (cell_of <$> us) i j (cell_of u)); [done|by rewrite list_lookup_fmap, Hi|].
  by rewrite list_lookup_fmap, Hj, E.
Qed.

(** After a prefix of [us], assignments of [us] that include the rest complete it. *)
Lemma apply_list_complete k us vs s :
  coherent us → vs ⊆ us → drop k us ⊆ vs →
  apply_list vs (apply_list (take k us) s) = apply_list us s.
Proof.
  intros Hc Hsub Hrest. rewrite <-apply_list_app. symmetry. apply apply_list_set; [done|].
  intros u. rewrite elem_of_app. split.
  - rewrite <-(take_drop k us) at 1. intros [?|?]%elem_of_app; [by left|right; auto].
  - intros [Hu|Hu]; [|by apply Hsub]. rewrite <-(take_drop k us). apply elem_of_app. by left.
Qed.

(** Assignments of [us], some made and some redone, that cover it. *)
Lemma apply_list_covered us ws vs s :
  coherent us → ws ⊆ us → vs ⊆ us → us ⊆ ws ++ vs → apply_list (ws ++ vs) s = apply_list us s.
Proof.
  intros Hc Hw Hv Hu. symmetry. apply apply_list_set; [done|]. intros u. split; [apply Hu|].
  intros [?|?]%elem_of_app; auto.
Qed.

(** Starting over completes it as well. *)
Lemma apply_list_restart k us s : apply_list us (apply_list (take k us) s) = apply_list us s.
Proof.
  apply apply_list_overwritten. intros u Hu. apply list_elem_of_fmap. exists u. split; [done|].
  rewrite <-(take_drop k us). apply elem_of_app. by left.
Qed.
End redo.

(** ** Reading cells *)

Inductive cellval (P L : Type) :=
| VPtr (v : option P) | VList (v : option L) | VNum (z : Z).
Arguments VPtr {P L} v.
Arguments VList {P L} v.
Arguments VNum {P L} z.

Definition val_of {P L} (u : update P L) : cellval P L :=
  match u with
  | UPrev _ v | UNext _ v | UCursor _ v | UHead _ v => VPtr v
  | UList _ v => VList v
  | ULen _ z | UMicro _ z => VNum z
  end.

Section read_cells.
Context {P L V : Type} `{Countable P, Countable L}.
Implicit Types (s : lstore P L V) (c : cell P L) (u w : update P L) (us ws : list (update P L)).

(** The log word of the kernel ([false]) or of the timer daemon ([true]). *)
Definition log_word (timer : bool) s : Z := if timer then timer_micro s else micro s.

Definition rd c s : option (cellval P L) :=
  match c with
  | CPrev p => (VPtr ∘ prev) <$> nodes s !! p
  | CNext p => (VPtr ∘ next) <$> nodes s !! p
  | CList p => (VList ∘ nlist) <$> nodes s !! p
  | CLen l => (VNum ∘ len) <$> lists s !! l
  | CCursor l => (VPtr ∘ cursor) <$> lists s !! l
  | CHead l => (VPtr ∘ head) <$> lists s !! l
  | CMicro b => Some (VNum (log_word b s))
  end.

Lemma rd_apply_ne c u s : c ≠ cell_of u → rd c (apply u s) = rd c s.
Proof.
  destruct s as [m ls mi ti].
  destruct u as [q ?|q ?|q ?|k ?|k ?|k ?|[] ?], c as [p|p|p|l|l|l|[]];
    cbn; intros Hne; try done;
    first [ destruct (decide (p = q)) as [->|?] | destruct (decide (l = k)) as [->|?] ];
    rewrite ?lookup_alter_eq, ?lookup_alter_ne by done; try done;
    first [ by destruct (m !! q) | by destruct (ls !! k) ].
Qed.

Lemma rd_apply_eq u s : target_exists s u = true → rd (cell_of u) (apply u s) = Some (val_of u).
Proof.
  destruct s as [m ls mi ti].
  destruct u as [q ?|q ?|q ?|k ?|k ?|k ?|[] ?]; cbn; try done;
    intros [? E]%bool_decide_eq_true; by rewrite lookup_alter_eq, E.
Qed.

Lemma rd_list_ne c us s : c ∉ cell_of <$> us → rd c (apply_list us s) = rd c s.
Proof.
  revert s; induction us as [|u us IH]; intros s Hc; cbn; [done|].
  rewrite IH, rd_apply_ne; set_solver.
Qed.

Lemma rd_list_eq u us s :
  coherent us → u ∈ us → target_exists s u = true → rd (cell_of u) (apply_list us s) = Some (val_of u).
Proof.
  revert s; induction us as [|w us IH]; intros s Hc Hin Ht; [by apply elem_of_nil in Hin|]. cbn.
  destruct (decide (cell_of u ∈ cell_of <$> us)) as [Hu|Hu].
  - apply list_elem_of_fmap in Hu as (y & E & Hy).
    assert (u = y) as -> by (apply Hc; [done|by constructor|done]).
    apply IH; [|done|by rewrite target_exists_apply]. intros x z Hx Hz. apply Hc; by constructor.
  - apply elem_of_cons in Hin as [->|Hin]; [|destruct Hu; apply list_elem_of_fmap; eauto].
    rewrite rd_list_ne by done. by apply rd_apply_eq.
Qed.

(** No assignment writes a value. *)
Lemma value_apply u s x n n' :
  nodes s !! x = Some n → nodes (apply u s) !! x = Some n' → value n' = value n.
Proof.
  destruct u as [q ?|q ?|q ?| | | |[] ?]; cbn; try congruence;
    (destruct (decide (q = x)) as [->|?];
     [rewrite lookup_alter_eq|rewrite lookup_alter_ne by done; congruence]);
    intros ->; cbn; intros; by simplify_eq.
Qed.
Lemma value_apply_list us s x n n' :
  nodes s !! x = Some n → nodes (apply_list us s) !! x = Some n' → value n' = value n.
Proof.
  revert s n; induction us as [|u us IH]; intros s n Hx Hx'; cbn in *; [congruence|].
  destruct (nodes (apply u s) !! x) as [m|] eqn:E.
  - rewrite (IH _ _ E Hx'). by eapply value_apply.
  - pose proof (target_exists_apply (UPrev x None) u s) as Ht. cbn in Ht. rewrite E, Hx in Ht.
    by rewrite bool_decide_eq_false_2, bool_decide_eq_true_2 in Ht by (eauto || apply is_Some_None).
Qed.

(** A cell has been written by a member of [us], or keeps its value. *)
Lemma rd_list_cases c us s :
  coherent us → is_Some (rd c s) →
  (c ∉ cell_of <$> us ∧ rd c (apply_list us s) = rd c s) ∨
  (∃ u, u ∈ us ∧ cell_of u = c ∧ rd c (apply_list us s) = Some (val_of u)).
Proof.
  intros Hc Hs. destruct (decide (c ∈ cell_of <$> us)) as [Hin|Hin].
  - right. apply list_elem_of_fmap in Hin as (u & -> & Hu). exists u. repeat split; [done|].
    apply rd_list_eq; [done..|]. destruct u as [q ?|q ?|q ?|k ?|k ?|k ?|b ?], Hs as [vv Hv]; cbn in *; try done;
      apply bool_decide_eq_true_2, not_eq_None_Some; intros E; by rewrite E in Hv.
  - left. split; [done|by apply rd_list_ne].
Qed.

Lemma coherent_sub us ws : coherent us → ws ⊆ us → coherent ws.
Proof. intros Hc Hsub u w Hu Hw. apply Hc; by apply Hsub. Qed.

Lemma take_sub k us : take k us ⊆ us.
Proof. intros u Hu. rewrite <-(take_drop k us). apply elem_of_app. by left. Qed.

Lemma cell_elem u us : u ∈ us → cell_of u ∈ cell_of <$> us.
Proof. intros. apply list_elem_of_fmap. eauto. Qed.

Lemma cells_sub c us ws : c ∉ cell_of <$> us → ws ⊆ us → c ∉ cell_of <$> ws.
Proof. intros Hc Hsub (u & -> & Hu)%list_elem_of_fmap. apply Hc, list_elem_of_fmap. eauto. Qed.

Lemma lists_is_Some us s l : is_Some (lists (apply_list us s) !! l) ↔ is_Some (lists s !! l).
Proof.
  pose proof (target_exists_apply_list (ULen l 0) us s) as E. cbn in E.
  by rewrite <-(bool_decide_eq_true (is_Some (lists s !! l))), <-E, bool_decide_eq_true.
Qed.
Lemma nodes_is_Some us s x : is_Some (nodes (apply_list us s) !! x) ↔ is_Some (nodes s !! x).
Proof.
  pose proof (target_exists_apply_list (UPrev x None) us s) as E. cbn in E.
  by rewrite <-(bool_decide_eq_true (is_Some (nodes s !! x))), <-E, bool_decide_eq_true.
Qed.

(** The list record after [us]. *)
Lemma rd_plist s self pl us :
  lists s !! self = Some pl → coherent us →
  ∃ pl', lists (apply_list us s) !! self = Some pl' ∧
    ((CCursor self ∉ cell_of <$> us ∧ cursor pl' = cursor pl) ∨ UCursor self (cursor pl') ∈ us) ∧
    ((CHead self ∉ cell_of <$> us ∧ head pl' = head pl) ∨ UHead self (head pl') ∈ us) ∧
    ((CLen self ∉ cell_of <$> us ∧ len pl' = len pl) ∨ ULen self (len pl') ∈ us).
Proof.
  intros Hl Hc. destruct (proj2 (lists_is_Some us s self)) as [pl' E]; [eauto|].
  exists pl'. split; [done|].
  pose proof (rd_list_cases (CCursor self) us s Hc) as H1'.
  pose proof (rd_list_cases (CHead self) us s Hc) as H2'.
  pose proof (rd_list_cases (CLen self) us s Hc) as H3'.
  cbn in *. rewrite E, Hl in *. cbn in *.
  split_and!.
  - destruct H1' as [[? ?]|([] & ? & ? & ?)]; cbn in *; simplify_eq; eauto.
  - destruct H2' as [[? ?]|([] & ? & ? & ?)]; cbn in *; simplify_eq; eauto.
  - destruct H3' as [[? ?]|([] & ? & ? & ?)]; cbn in *; simplify_eq; eauto.
Qed.

(** The node record after [us]. *)
Lemma rd_nodes s x n us :
  nodes s !! x = Some n → coherent us →
  ∃ n', nodes (apply_list us s) !! x = Some n' ∧ value n' = value n ∧
    ((CPrev x ∉ cell_of <$> us ∧ prev n' = prev n) ∨ UPrev x (prev n') ∈ us) ∧
    ((CNext x ∉ cell_of <$> us ∧ next n' = next n) ∨ UNext x (next n') ∈ us) ∧
    ((CList x ∉ cell_of <$> us ∧ nlist n' = nlist n) ∨ UList x (nlist n') ∈ us).
Proof.
  intros Hx Hc. destruct (proj2 (nodes_is_Some us s x)) as [n' E]; [eauto|].
  exists n'. split; [done|]. split; [by eapply value_apply_list|].
  pose proof (rd_list_cases (CPrev x) us s Hc) as H1'.
  pose proof (rd_list_cases (CNext x) us s Hc) as H2'.
  pose proof (rd_list_cases (CList x) us s Hc) as H3'.
  cbn in *. rewrite E, Hx in *. cbn in *.
  split_and!.
  - destruct H1' as [[? ?]|([] & ? & ? & ?)]; cbn in *; simplify_eq; eauto.
  - destruct H2' as [[? ?]|([] & ? & ? & ?)]; cbn in *; simplify_eq; eauto.
  - destruct H3' as [[? ?]|([] & ? & ? & ?)]; cbn in *; simplify_eq; eauto.
Qed.
End read_cells.

(** ** Operations that recovery rolls forward *)

(** [rolls_forward b w rec s' J]: in a store of [J] the log word [b] is [w] and
    [rec] leads to [s'], through stores of [J] should power fail again. *)
Definition rolls_forward {P L V} `{Countable P, Countable L} (b : bool) (w : Z)
    (rec : prog (lstore P L V) unit) (s' : lstore P L V) (J : lstore P L V → Prop) : Prop :=
  ∀ c, J c → log_word b c = w ∧ runs J rec c (λ _ c', c' = s').

(** [crash_safe b w p rec s a s']: [p] takes [s] to [s'] with result [a], and from
    the store that any power failure leaves either nothing has happened or
    recovery completes the operation. *)
Definition crash_safe {P L V A} `{Countable P, Countable L} (b : bool) (w : Z)
    (p : prog (lstore P L V) A) (rec : prog (lstore P L V) unit) (s : lstore P L V) (a : A)
    (s' : lstore P L V) : Prop :=
  exec p s = Done a s' ∧
  ∃ J, (∀ c, c ∈ crash_states p s → c = s ∨ J c) ∧ rolls_forward b w rec s' J.

Section crash_safe.
Context {P L V : Type} `{Countable P, Countable L}.
Implicit Types (s : lstore P L V) (us ws : list (update P L)).

(** The log word stays as long as it is only written with the same contents. *)
Lemma log_word_apply b w s : log_word b (apply (UMicro b w) s) = w.
Proof. by destruct b. Qed.

Lemma log_word_kept b w us s :
  log_word b s = w → (∀ v, UMicro b v ∈ us → v = w) → log_word b (apply_list us s) = w.
Proof.
  revert s; induction us as [|u us IH]; intros s Hs Hu; cbn; [done|].
  apply IH; [|intros; apply Hu; by constructor].
  destruct u as [| | | | | |c v]; cbn; try by destruct b.
  destruct c, b; cbn in *; try done; apply Hu; constructor.
Qed.

(** Recovery described by the assignments [ws] made so far. *)
Definition after (s : lstore P L V) (I : list (update P L) → Prop) (c : lstore P L V) : Prop :=
  ∃ ws, I ws ∧ c = apply_list ws s.

Lemma rolls_forward_intro (I : list (update P L) → Prop) rec s b w us :
  (∀ ws, I ws →
     log_word b (apply_list ws s) = w ∧
     ∃ vs, performs rec (apply_list ws s) vs tt ∧
           apply_list (ws ++ vs) s = apply_list us s ∧
           ∀ k, I (ws ++ take k vs)) →
  rolls_forward b w rec (apply_list us s) (after s I).
Proof.
  intros Hrec c (ws & Hws & ->). destruct (Hrec ws Hws) as (Hm & vs & [Ev Cv] & Heq & HI).
  split; [done|]. apply (runs_intro _ _ _ _ _ _) with (2 := Ev); [|by rewrite <-apply_list_app].
  intros c Hc. destruct (Cv c Hc) as (k & _ & ->). exists (ws ++ take k vs).
  split; [done|by rewrite apply_list_app].
Qed.

Lemma crash_safe_intro {A} (I : list (update P L) → Prop) (p : prog _ A) rec s (a : A) b w us :
  performs p s (UMicro b w :: us) a →
  (∀ k, I (take k us)) →
  (∀ ws, I ws →
     log_word b (apply_list ws (apply (UMicro b w) s)) = w ∧
     ∃ vs, performs rec (apply_list ws (apply (UMicro b w) s)) vs tt ∧
           apply_list (ws ++ vs) (apply (UMicro b w) s) = apply_list us (apply (UMicro b w) s) ∧
           ∀ k, I (ws ++ take k vs)) →
  crash_safe b w p rec s a (apply_list us (apply (UMicro b w) s)).
Proof.
  intros [E C] Hpre Hrec. split; [done|].
  exists (after (apply (UMicro b w) s) I). split; [|by apply rolls_forward_intro].
  intros c Hc. destruct (C c Hc) as ([|k] & _ & ->); [by left|right]. exists (take k us). by split.
Qed.
End crash_safe.

#[global] Arguments assign : simpl never.
#[global] Arguments deref : simpl never.
#[global] Arguments deref_list : simpl never.

(** Lookups in a store after assignments; [performs_step] takes one step. *)
Ltac lookups :=
  cbn [apply_list apply nodes lists with_nodes with_lists];
  repeat first
    [ rewrite lookup_alter_eq | rewrite lookup_alter_ne by congruence
    | match goal with E : ?m !! ?k = Some _ |- context [?m !! ?k] => rewrite E end
    | progress cbn [fmap option_fmap option_map] ]; eauto.

Ltac exists_target :=
  repeat first [rewrite target_exists_apply_list | rewrite target_exists_apply];
  cbn [target_exists nodes lists with_nodes with_lists];
  try apply bool_decide_eq_true_2; rewrite ?lookup_alter_is_Some; eauto.

Ltac performs_step :=
  cbn [apply_list app map_set when prev next nlist value len cursor head];
  first
    [ apply performs_ret
    | eapply performs_deref_bind; [solve [lookups]|]
    | eapply performs_deref_list_bind; [solve [lookups]|]
    | eapply performs_assign_bind; [solve [exists_target]|]
    | apply performs_assign; solve [exists_target] ].
