(* ===== verification/PListSeg.v ===== *)
(** * Contents of a list

    A list holds a sequence of nodes. [seg] relates a stretch of linked nodes to
    the sequence of their addresses and values; a linear list (sorted and wait
    lists) is a stretch between two null pointers, a circular list (ready lists)
    is one that closes on itself and starts at the cursor. *)

From S2P Require Import Prelude Arch PList PListUpd.

Section seg.
Context {P L V : Type} `{Countable P, Countable L}.
Implicit Types (m : gmap P (Node P L V)) (xs ys : list (P * V)) (p q : option P) (self : L).

Definition first_or (q : option P) (xs : list (P * V)) : option P :=
  match xs with [] => q | x :: _ => Some x.1 end.
Fixpoint last_or (p : option P) (xs : list (P * V)) : option P :=
  match xs with [] => p | x :: xs => last_or (Some x.1) xs end.

(** [seg m self p xs q]: the nodes [xs] of list [self] are linked in this order,
    the first after [p] and the last before [q]. *)
Fixpoint seg (m : gmap P (Node P L V)) (self : L) (p : option P) (xs : list (P * V)) (q : option P) : Prop :=
  match xs with
  | [] => True
  | x :: xs =>
      m !! x.1 = Some (Build_Node p (first_or q xs) (Some self) x.2) ∧ seg m self (Some x.1) xs q
  end.

Lemma first_or_app q xs ys : first_or q (xs ++ ys) = first_or (first_or q ys) xs.
Proof. by destruct xs. Qed.
Lemma last_or_app p xs ys : last_or p (xs ++ ys) = last_or (last_or p xs) ys.
Proof. revert p; induction xs; intros; cbn; auto. Qed.

Lemma seg_app m self p xs ys q :
  seg m self p (xs ++ ys) q ↔ seg m self p xs (first_or q ys) ∧ seg m self (last_or p xs) ys q.
Proof.
  revert p; induction xs as [|x xs IH]; intros p; cbn; [tauto|].
  rewrite IH, first_or_app. tauto.
Qed.

Lemma seg_ext m m' self p xs q :
  (∀ x, x ∈ xs.*1 → m' !! x = m !! x) → seg m self p xs q → seg m' self p xs q.
Proof.
  revert p; induction xs as [|x xs IH]; intros p; cbn; [done|]. intros E [Hx Hs]. split.
  - by rewrite E by constructor.
  - apply IH; [|done]. intros y ?. apply E. by constructor.
Qed.

Lemma seg_alter_ne m self p xs q x f :
  x ∉ xs.*1 → seg m self p xs q → seg (alter f x m) self p xs q.
Proof. intros Hx. apply seg_ext. intros y Hy. apply lookup_alter_ne. set_solver. Qed.

Lemma seg_elem m self p xs q x v :
  (x, v) ∈ xs → seg m self p xs q →
  ∃ pp nn, m !! x = Some (Build_Node pp nn (Some self) v).
Proof.
  intros (l & r & ->)%list_elem_of_split [_ [E _]]%seg_app. eauto.
Qed.

(** Redirecting the pointers at the two ends. *)
Lemma seg_set_next m self p xs x q q' :
  x.1 ∉ xs.*1 → seg m self p (xs ++ [x]) q → seg (alter (nset_next q') x.1 m) self p (xs ++ [x]) q'.
Proof.
  intros Hx (Hs & E & _)%seg_app. apply seg_app. cbn in *. split; [by apply seg_alter_ne|].
  by rewrite lookup_alter_eq, E.
Qed.

Lemma seg_set_prev m self p xs x q p' :
  x.1 ∉ xs.*1 → seg m self p (x :: xs) q → seg (alter (nset_prev p') x.1 m) self p' (x :: xs) q.
Proof.
  intros Hx [E Hs]. cbn in *. split; [by rewrite lookup_alter_eq, E|by apply seg_alter_ne].
Qed.

Lemma last_or_snoc p xs x : last_or p (xs ++ [x]) = Some x.1.
Proof. by rewrite last_or_app. Qed.

Lemma last_or_Some y xs : is_Some (last_or (Some y) xs).
Proof. revert y; induction xs as [|x xs IH]; intros y; cbn; eauto. Qed.

Lemma seg_set_first m self p xs q c p' :
  first_or None xs = Some c → NoDup xs.*1 → seg m self p xs q → seg (alter (nset_prev p') c m) self p' xs q.
Proof.
  destruct xs as [|x xs]; [done|]. intros [= <-] Hnd. apply seg_set_prev. by inversion Hnd.
Qed.

Lemma seg_set_last m self p xs q z q' :
  last_or None xs = Some z → NoDup xs.*1 → seg m self p xs q → seg (alter (nset_next q') z m) self p xs q'.
Proof.
  destruct xs as [|x xs _] using rev_ind; [done|]. rewrite last_or_snoc. intros [= <-].
  rewrite fmap_app, NoDup_app. intros (_ & Hd & _). apply seg_set_next. intros Hin. apply (Hd _ Hin). constructor.
Qed.

(** The node before and the node after a member. *)
Lemma seg_mid m self p l x r q :
  seg m self p (l ++ x :: r) q →
  m !! x.1 = Some (Build_Node (last_or p l) (first_or q r) (Some self) x.2).
Proof. by intros [_ [E _]]%seg_app. Qed.

Lemma first_or_elem q xs y : first_or q xs = Some y → y ∈ xs.*1 ∨ (xs = [] ∧ q = Some y).
Proof. destruct xs; cbn; intros; simplify_eq; [by right|left; constructor]. Qed.
Lemma last_or_elem p xs y : last_or p xs = Some y → y ∈ xs.*1 ∨ (xs = [] ∧ p = Some y).
Proof.
  revert p; induction xs as [|x xs IH]; intros p; cbn; [by right|].
  intros [?|[-> [= ->]]]%IH; left; [by constructor|constructor].
Qed.

Lemma seg_is_Some m self p xs q y : seg m self p xs q → y ∈ xs.*1 → is_Some (m !! y).
Proof.
  intros Hs ((y' & v) & -> & Hy)%list_elem_of_fmap. destruct (seg_elem _ _ _ _ _ _ _ Hy Hs) as (?&?&?).
  eauto.
Qed.
End seg.

(** ** Lists *)

Section lists.
Context {P L V : Type} `{Countable P, Countable L}.
Implicit Types (s : lstore P L V) (xs ys : list (P * V)) (self : L).

Definition linear s self xs : Prop :=
  lists s !! self = Some (Build_PList (Z.of_nat (length xs)) None (first_or None xs)) ∧
  seg (nodes s) self None xs None ∧ NoDup xs.*1.

(** In a circular list [head] is a member, the one the round started with. *)
Definition circular s self xs : Prop :=
  (∃ h, lists s !! self = Some (Build_PList (Z.of_nat (length xs)) (first_or None xs) h) ∧
        (xs = [] ∧ h = None ∨ ∃ y, h = Some y ∧ y ∈ xs.*1)) ∧
  seg (nodes s) self (last_or None xs) xs (first_or None xs) ∧ NoDup xs.*1.

(** A node that can be inserted. *)
Definition free s (x : P) (v : V) : Prop :=
  ∃ n, nodes s !! x = Some n ∧ nlist n = None ∧ value n = v.

Lemma free_fresh s x v self p xs q : free s x v → seg (nodes s) self p xs q → x ∉ xs.*1.
Proof.
  intros (n & Hn & Hl & _) Hs ((y & w) & -> & Hy)%list_elem_of_fmap.
  destruct (seg_elem _ _ _ _ _ _ _ Hy Hs) as (? & ? & E). cbn in *. by simplify_eq.
Qed.

(** *** Frame: what a sequence of assignments leaves alone *)

Definition upd_node (u : update P L) : option P :=
  match u with UPrev p _ | UNext p _ | UList p _ => Some p | _ => None end.
Definition upd_list (u : update P L) : option L :=
  match u with ULen l _ | UCursor l _ | UHead l _ => Some l | _ => None end.

Lemma nodes_apply_ne u s x : upd_node u ≠ Some x → nodes (apply u s) !! x = nodes s !! x.
Proof.
  destruct u as [| | | | | |[]]; cbn; try done; intros ?; rewrite lookup_alter_ne; congruence.
Qed.
Lemma lists_apply_ne u s l : upd_list u ≠ Some l → lists (apply u s) !! l = lists s !! l.
Proof.
  destruct u as [| | | | | |[]]; cbn; try done; intros ?; rewrite lookup_alter_ne; congruence.
Qed.

Lemma nodes_apply_list_ne us s x :
  Some x ∉ upd_node <$> us → nodes (apply_list us s) !! x = nodes s !! x.
Proof.
  revert s; induction us as [|u us IH]; intros s Hx; cbn; [done|].
  rewrite IH, nodes_apply_ne; set_solver.
Qed.
Lemma lists_apply_list_ne us s l :
  Some l ∉ upd_list <$> us → lists (apply_list us s) !! l = lists s !! l.
Proof.
  revert s; induction us as [|u us IH]; intros s Hx; cbn; [done|].
  rewrite IH, lists_apply_ne; set_solver.
Qed.

(** An operation on list [self] that writes nodes in [ps] only, as other
    components see it: every other list keeps its contents, every node outside
    [ps] its fields. *)
Definition only_touches (self : L) (ps : list P) s s' : Prop :=
  (∀ x, x ∉ ps → nodes s' !! x = nodes s !! x) ∧
  (∀ l, l ≠ self → lists s' !! l = lists s !! l).

Lemma only_touches_apply self ps us s :
  (∀ u x, u ∈ us → upd_node u = Some x → x ∈ ps) →
  (∀ u l, u ∈ us → upd_list u = Some l → l = self) →
  only_touches self ps s (apply_list us s).
Proof.
  intros Hn Hl. split.
  - intros x Hx. apply nodes_apply_list_ne. intros (u & Hu & ?)%list_elem_of_fmap. by apply Hx, (Hn u).
  - intros l Hne. apply lists_apply_list_ne. intros (u & Hu & ?)%list_elem_of_fmap. by apply Hne, (Hl u).
Qed.

Lemma only_touches_linear self ps s s' l ys :
  only_touches self ps s s' → l ≠ self → (∀ y, y ∈ ys.*1 → y ∉ ps) → linear s l ys → linear s' l ys.
Proof.
  intros [Hn Hl] Hne Hd (E & Hs & Hnd). split; [by rewrite Hl|]. split; [|done].
  eapply seg_ext; [|done]. intros x Hx. apply Hn; auto.
Qed.

Lemma only_touches_circular self ps s s' l ys :
  only_touches self ps s s' → l ≠ self → (∀ y, y ∈ ys.*1 → y ∉ ps) → circular s l ys → circular s' l ys.
Proof.
  intros [Hn Hl] Hne Hd ((h & E & Hh) & Hs & Hnd). split; [exists h; by rewrite Hl|]. split; [|done].
  eapply seg_ext; [|done]. intros x Hx. apply Hn; auto.
Qed.
End lists.

(** Solves the side conditions of [only_touches_apply] for explicit lists. *)
Ltac touches :=
  apply only_touches_apply; cbn [app fmap list_fmap];
  let u := fresh "u" in let z := fresh "z" in let Hu := fresh "Hu" in let Hz := fresh "Hz" in
  intros u z Hu Hz;
  repeat (apply elem_of_cons in Hu as [->|Hu]; [cbn in Hz; simplify_eq; first [done|set_solver]|]);
  by apply elem_of_nil in Hu.
