(* ===== verification/PListRemove.v ===== *)
(** * Removing a node ([optimized_remove] and its recovery)

    A removal is a fixed set of assignments ([remove_upds]); a recovery started
    after any part of them performs the rest with the same values. *)

From S2P Require Import Prelude Arch PList PListUpd PListSeg.
Section remove.
Context `{Arch} {P L V : Type} `{Countable P, Countable L}.
Implicit Types (s : lstore P L V) (n : Node P L V) (pl : PList P).

Definition unlink_upds (pv nx : option P) : list (update P L) :=
  match pv with Some p => [UNext p nx] | None => [] end ++
  match nx with Some q => [UPrev q pv] | None => [] end.
Definition move_upds (self : L) (x : P) (nx cur hd : option P) : list (update P L) :=
  (if bool_decide (cur = Some x) then [UCursor self nx] else []) ++
  (if bool_decide (hd = Some x) then [UHead self nx] else []).

(** [x] is linked to other nodes only. *)
Definition neighbours s (x : P) (pv nx : option P) : Prop :=
  ∀ p, pv = Some p ∨ nx = Some p → is_Some (nodes s !! p) ∧ p ≠ x.

Lemma performs_unlink s x n :
  nodes s !! x = Some n → neighbours s x (prev n) (next n) →
  performs (unlink x) s (unlink_upds (prev n) (next n)) tt.
Proof.
  intros Hx Hnb. unfold unlink, unlink_upds.
  destruct n as [[p|] [q|] l v]; cbn in *.
  - destruct (Hnb p), (Hnb q); [tauto..|]. 
    performs_step. eapply (performs_bind _ _ _ [UNext p (Some q)]); repeat performs_step.
  - destruct (Hnb p); [tauto|]. 
    performs_step. eapply (performs_bind _ _ _ [UNext p None]); repeat performs_step. 
  - destruct (Hnb q); [tauto|]. performs_step.
    eapply (performs_bind _ _ _ []); repeat performs_step. 
  - performs_step. eapply (performs_bind _ _ _ []); repeat performs_step.
Qed.

Lemma performs_move_cursor_head s self x n pl :
  nodes s !! x = Some n → lists s !! self = Some pl →
  performs (move_cursor_head self x) s (move_upds self x (next n) (cursor pl) (head pl)) tt.
Proof.
  intros Hx Hl. unfold move_cursor_head, move_upds. performs_step.
  destruct pl as [ln c h]; cbn. do 2 case_bool_decide; cbn.
  - eapply (performs_bind _ _ _ [_]); repeat performs_step. cbn. case_bool_decide; [|done].
    repeat performs_step.
  - eapply (performs_bind _ _ _ [_]); repeat performs_step. cbn. case_bool_decide; [done|].
    repeat performs_step.
  - performs_step. cbn. case_bool_decide; [|done]. repeat performs_step.
  - performs_step. cbn. case_bool_decide; [done|]. repeat performs_step.
Qed.

(** *** Removal *)

Definition remove_upds (self : L) (x : P) (pv nx cur hd : option P) (ln : Z) : list (update P L) :=
  unlink_upds pv nx ++ move_upds self x nx cur hd ++ [ULen self ln; UList x None].

Lemma unlink_upds_node x s n :
  nodes s !! x = Some n → neighbours s x (prev n) (next n) →
  nodes (apply_list (unlink_upds (prev n) (next n)) s) !! x = Some n.
Proof.
  intros Hx Hnb. rewrite nodes_apply_list_ne; [done|]. intros (u & E & Hu)%list_elem_of_fmap.
  unfold unlink_upds in Hu. destruct (prev n) as [p|], (next n) as [q|]; cbn in Hu;
    repeat (apply elem_of_cons in Hu as [->|Hu]); cbn in *; simplify_eq;
    try (by apply elem_of_nil in Hu); unfold neighbours in Hnb; naive_solver.
Qed.

Lemma unlink_upds_lists pv nx s : lists (apply_list (unlink_upds pv nx) s) = lists s.
Proof. unfold unlink_upds. by destruct pv, nx. Qed.
Lemma move_upds_nodes self x nx cur hd s : nodes (apply_list (move_upds self x nx cur hd) s) = nodes s.
Proof. unfold move_upds. by do 2 case_bool_decide. Qed.

Lemma remove_lists s self x nx pv cur hd ln pl :
  lists s !! self = Some pl → cursor pl = cur → head pl = hd →
  lists (apply_list (remove_upds self x pv nx cur hd ln) s) !! self =
  Some (Build_PList ln (if bool_decide (cur = Some x) then nx else cur) (if bool_decide (hd = Some x) then nx else hd)).
Proof.
  intros Hl <- <-. unfold remove_upds, move_upds. rewrite !apply_list_app. cbn.
  set (s' := apply_list (unlink_upds pv nx) s).
  assert (Hl' : lists s' !! self = Some pl) by (unfold s'; by rewrite unlink_upds_lists).
  clearbody s'. destruct pl as [ln0 cur hd]. cbn.
  do 2 case_bool_decide; cbn; rewrite !lookup_alter_eq, Hl'; done.
Qed.

(** The tail both removal and its recovery share. *)
Lemma performs_remove_tail self x s n pl ln :
  nodes s !! x = Some n → lists s !! self = Some pl → neighbours s x (prev n) (next n) →
  performs (unlink x;;; move_cursor_head self x;;; set_len self ln;;; set_list x None) s
    (remove_upds self x (prev n) (next n) (cursor pl) (head pl) ln) tt.
Proof.
  intros Hx Hl Hnb. apply (performs_bind _ _ _ _ _ tt); [by apply performs_unlink|].
  eapply (performs_bind _ _ _ _ _ tt).
  - apply performs_move_cursor_head; [by apply unlink_upds_node|]. by rewrite unlink_upds_lists.
  - eapply performs_assign_bind; [exists_target|]. apply performs_assign. exists_target.
Qed.

Lemma performs_dec_len s self pl us :
  lists s !! self = Some pl → coherent us → CLen self ∉ cell_of <$> us →
  performs (dec_len self) (apply_list us s) [ULen self (usub (len pl) 1)] tt.
Proof.
  intros Hl Hc Hn. destruct (rd_plist s self pl us Hl Hc) as (pl' & E & _ & _ & [[_ <-]|Hin]);
    [|by destruct Hn; apply cell_elem in Hin].
  unfold dec_len. performs_step. performs_step.
Qed.

Lemma remove_upds_coherent self x pv nx cur hd ln :
  coherent (remove_upds self x pv nx cur hd ln).
Proof.
  intros u w Hu Hw E. unfold remove_upds, unlink_upds, move_upds in *.
  destruct pv, nx; repeat case_bool_decide; set_unfold; naive_solver.
Qed.
Lemma performs_optimized_remove_impl s self x n pl :
  nodes s !! x = Some n → lists s !! self = Some pl → neighbours s x (prev n) (next n) →
  nlist n ≠ None → len pl ≠ 1 → 0 < len pl →
  performs (optimized_remove_impl self x) s
    (remove_upds self x (prev n) (next n) (cursor pl) (head pl) (usub (len pl) 1)) tt.
Proof.
  intros Hx Hl Hnb Hn Hlen1 Hlen0. unfold optimized_remove_impl, remove_upds. performs_step.
  rewrite bool_decide_eq_false_2 by done. performs_step.
  rewrite (proj2 (Z.ltb_lt _ _) Hlen0), orb_true_r, (proj2 (Z.eqb_neq _ _) Hlen1). cbn [assert_ bind skip].
  eapply performs_eq.
  - eapply (performs_bind _ _ _ (_ ++ _) _ tt).
    + apply (performs_bind _ _ _ _ _ tt); [by apply performs_unlink|].
      apply performs_move_cursor_head; [by apply unlink_upds_node|]. by rewrite unlink_upds_lists.
    + eapply (performs_bind _ _ _ [_]); [eapply performs_dec_len; [done| |]|].
      * eapply coherent_sub; [apply (remove_upds_coherent self x (prev n) (next n) (cursor pl) (head pl) 0)|].
        unfold remove_upds. set_solver.
      * unfold unlink_upds, move_upds. destruct (prev n), (next n); do 2 case_bool_decide; set_solver.
      * apply performs_assign. exists_target.
  - by rewrite <-app_assoc.
Qed.

Lemma neighbours_apply_list us s x pv nx :
  neighbours s x pv nx → neighbours (apply_list us s) x pv nx.
Proof. intros Hnb p Hp. rewrite nodes_is_Some. by apply Hnb. Qed.


Lemma remove_upds_cells self x s pv nx cur hd ln :
  neighbours s x pv nx →
  CPrev x ∉ cell_of <$> remove_upds self x pv nx cur hd ln ∧
  CNext x ∉ cell_of <$> remove_upds self x pv nx cur hd ln.
Proof.
  unfold neighbours, remove_upds, unlink_upds, move_upds. intros Hnb.
  destruct pv as [p|], nx as [q|]; repeat case_bool_decide; set_unfold; naive_solver.
Qed.

(** Recovery started after the assignments [ws] redoes what is missing. *)
Lemma remove_upds_again self x s pv nx cur hd cur' hd' ln ws :
  neighbours s x pv nx →
  ws ⊆ remove_upds self x pv nx cur hd ln →
  (CCursor self ∉ cell_of <$> ws ∧ cur' = cur) ∨ UCursor self cur' ∈ ws →
  (CHead self ∉ cell_of <$> ws ∧ hd' = hd) ∨ UHead self hd' ∈ ws →
  remove_upds self x pv nx cur' hd' ln ⊆ remove_upds self x pv nx cur hd ln ∧
  remove_upds self x pv nx cur hd ln ⊆ ws ++ remove_upds self x pv nx cur' hd' ln.
Proof.
  intros Hnb Hws Hc Hh.
  assert (Hc' : cur' = cur ∨ (cur = Some x ∧ cur' = nx ∧ UCursor self nx ∈ ws)).
  { destruct Hc as [[_ ->]|Hc]; [by left|right]. pose proof (Hws _ Hc) as Hin. 
    unfold remove_upds, unlink_upds, move_upds in Hin.
    destruct pv, nx; repeat case_bool_decide; set_unfold; naive_solver. }
  assert (Hh' : hd' = hd ∨ (hd = Some x ∧ hd' = nx ∧ UHead self nx ∈ ws)).
  { destruct Hh as [[_ ->]|Hh]; [by left|right]. pose proof (Hws _ Hh) as Hin. 
    unfold remove_upds, unlink_upds, move_upds in Hin.
    destruct pv, nx; repeat case_bool_decide; set_unfold; naive_solver. }
  assert (Hx : nx ≠ Some x) by (intros ->; destruct (Hnb x); tauto).
  clear Hc Hh Hws Hnb. unfold remove_upds, unlink_upds, move_upds.
  destruct Hc' as [->|(-> & -> & Hc)], Hh' as [->|(-> & -> & Hh)];
    rewrite ?(bool_decide_eq_true_2 (Some x = Some x)), ?(bool_decide_eq_false_2 (nx = Some x)) by done;
    split; set_solver.
Qed.

Lemma remove_upds_no_micro self x pv nx cur hd ln b :
  CMicro b ∉ cell_of <$> remove_upds self x pv nx cur hd ln.
Proof.
  unfold remove_upds, unlink_upds, move_upds.
  destruct pv, nx; repeat case_bool_decide; set_unfold; naive_solver.
Qed.

(** The only node of a list. *)
Lemma performs_remove_single s self x n pl :
  nodes s !! x = Some n → nlist n ≠ None → lists s !! self = Some pl → len pl = 1 →
  performs (optimized_remove_impl self x) s
    [UCursor self None; UHead self None; ULen self (usub 1 1); UList x None] tt.
Proof.
  intros Hx Hn Hl E. destruct pl as [ln cur hd]. cbn in E. subst ln. unfold optimized_remove_impl.
  performs_step. rewrite bool_decide_eq_false_2 by done. performs_step.
  rewrite orb_true_r. cbn [len Z.eqb Pos.eqb assert_ bind skip].
  eapply (performs_bind _ _ _ [_; _]).
  { eapply performs_assign_bind; [exists_target|]. apply performs_assign. exists_target. }
  eapply (performs_bind _ _ _ [_]).
  { unfold dec_len. performs_step. apply performs_assign. exists_target. }
  apply performs_assign. exists_target.
Qed.

Context (timer_list : L → bool).

(** Removal is rolled forward whenever it makes the assignments [remove_upds]; the
    list field of the node is cleared when all of it is done. *)
Lemma remove_crash_stores s self x n pl :
  nodes s !! x = Some n → lists s !! self = Some pl → neighbours s x (prev n) (next n) → nlist n ≠ None →
  let w := encode_micro OpRemove (len pl) in
  let s1 := apply (UMicro (timer_list self) w) s in
  let s' := apply_list (remove_upds self x (prev n) (next n) (cursor pl) (head pl) (usub (len pl) 1)) s1 in
  performs (optimized_remove_impl self x) s1
    (remove_upds self x (prev n) (next n) (cursor pl) (head pl) (usub (len pl) 1)) tt →
  exec (optimized_remove timer_list self x) s = Done tt s' ∧
  ∃ J, (∀ c, c ∈ crash_states (optimized_remove timer_list self x) s → c = s ∨ J c) ∧ J s' ∧
    rolls_forward (timer_list self) w (recover_from_failed_remove self x (len pl)) s' J ∧
    ∀ c, J c → ∃ m, nodes c !! x = Some m ∧ (nlist m = None → c = s').
Proof.
  intros Hx Hl Hnb Hnl w s1 s' Hperf. set (us := remove_upds _ _ _ _ _ _ _) in *.
  assert (Hx1 : nodes s1 !! x = Some n) by (unfold s1; by destruct (timer_list self)).
  assert (Hl1 : lists s1 !! self = Some pl) by (unfold s1; by destruct (timer_list self)).
  assert (Hnb1 : neighbours s1 x (prev n) (next n)) by (unfold s1; by destruct (timer_list self)).
  pose proof (remove_upds_coherent self x (prev n) (next n) (cursor pl) (head pl) (usub (len pl) 1)) as Hc.
  assert (Hend : ∀ k pv nx cur hd ln, UList x None ∈ take k (remove_upds self x pv nx cur hd ln) →
    take k (remove_upds self x pv nx cur hd ln) = remove_upds self x pv nx cur hd ln).
  { intros k pv nx cur hd ln. set (vs := unlink_upds pv nx ++ move_upds self x nx cur hd ++ [ULen self ln]).
    assert (E : remove_upds self x pv nx cur hd ln = vs ++ [UList x None]) by (unfold remove_upds, vs; by rewrite <-!(assoc_L (++))).
    rewrite E. destruct (decide (length vs < k)%nat) as [|Hk]; [by rewrite take_ge by (rewrite length_app; cbn; lia)|].
    rewrite take_app_le by lia. intros Hin%take_sub. exfalso. revert Hin. unfold vs, unlink_upds, move_upds.
    rewrite !elem_of_app. destruct pv, nx; repeat case_bool_decide; set_solver. }
  set (I := λ ws, ws ⊆ us ∧ (UList x None ∈ ws → us ⊆ ws)).
  assert (Hsame : ∀ ws, ws ⊆ us → us ⊆ ws → apply_list ws s1 = s').
  { intros ws Ha Hb. apply apply_list_set; [by eapply coherent_sub|]. intros u. split; [apply Ha|apply Hb]. }
  assert (Hp : performs (optimized_remove timer_list self x) s (UMicro (timer_list self) w :: us) tt).
  { unfold optimized_remove. performs_step. eapply performs_assign_bind; [done|]. exact Hperf. }
  split; [exact (proj1 Hp)|]. exists (after s1 I). split_and!.
  - intros c Hcs. destruct (proj2 Hp c Hcs) as ([|k] & _ & ->); [by left|right]. exists (take k us). split; [|done].
    split; [apply take_sub|]. intros Hin. unfold us in *. by rewrite (Hend _ _ _ _ _ _ Hin).
  - exists us. by split.
  - apply rolls_forward_intro. intros ws [Hws Hall].
    destruct (remove_upds_cells self x s1 (prev n) (next n) (cursor pl) (head pl) (usub (len pl) 1) Hnb1) as [Hcp Hcn].
    destruct (rd_plist s1 self pl ws Hl1 (coherent_sub _ _ Hc Hws)) as (pl' & Hl' & Hcur & Hhd & _).
    destruct (rd_nodes s1 x n ws Hx1 (coherent_sub _ _ Hc Hws)) as (n' & Hn' & _ & Hpr & Hnx & _).
    destruct Hpr as [[_ Ep]|Hin]; [|by destruct Hcp; apply Hws, cell_elem in Hin].
    destruct Hnx as [[_ En]|Hin]; [|by destruct Hcn; apply Hws, cell_elem in Hin].
    destruct (remove_upds_again self x s1 _ _ _ _ _ _ _ ws Hnb1 Hws Hcur Hhd) as [Hsub Hsup].
    split.
    { apply log_word_kept; [apply log_word_apply|]. intros v ?%Hws%cell_elem. by destruct (remove_upds_no_micro self x (prev n) (next n) (cursor pl) (head pl) (usub (len pl) 1) (timer_list self)). }
    exists (remove_upds self x (prev n) (next n) (cursor pl') (head pl') (usub (len pl) 1)). split_and!.
    + unfold recover_from_failed_remove. rewrite <-Ep, <-En. apply performs_remove_tail; [done..|].
      rewrite Ep, En. by apply neighbours_apply_list.
    + by apply apply_list_covered.
    + intros k. split; [intros u [?|?%take_sub]%elem_of_app; auto|].
      intros [Hin|Hin]%elem_of_app; [intros u Hu; apply elem_of_app; left; by apply Hall|].
      rewrite (Hend _ _ _ _ _ _ Hin). intros u Hu. by apply Hsup.
  - intros c (ws & [Hws Hall] & ->).
    destruct (rd_nodes s1 x n ws Hx1 (coherent_sub _ _ Hc Hws)) as (n' & Hn' & _ & _ & _ & Hli).
    exists n'. split; [done|]. intros Hnone. rewrite Hnone in Hli. destruct Hli as [[_ Hli]|Hin]; [congruence|]. by apply Hsame, Hall.
Qed.
Lemma remove_crash_safe_upds s self x n pl :
  nodes s !! x = Some n → lists s !! self = Some pl → neighbours s x (prev n) (next n) → nlist n ≠ None →
  let s1 := apply (UMicro (timer_list self) (encode_micro OpRemove (len pl))) s in
  performs (optimized_remove_impl self x) s1
    (remove_upds self x (prev n) (next n) (cursor pl) (head pl) (usub (len pl) 1)) tt →
  crash_safe (timer_list self) (encode_micro OpRemove (len pl))
    (optimized_remove timer_list self x) (recover_from_failed_remove self x (len pl)) s tt
    (apply_list (remove_upds self x (prev n) (next n) (cursor pl) (head pl) (usub (len pl) 1)) s1).
Proof.
  intros Hx Hl Hnb Hnl s1 Hperf. destruct (remove_crash_stores s self x n pl Hx Hl Hnb Hnl Hperf) as (E & J & HJ & _ & HR & _).
  split; [exact E|]. by exists J.
Qed.
(** That is so unless the node is the only one of its list. *)
Lemma remove_crash_safe s self x n pl :
  nodes s !! x = Some n → lists s !! self = Some pl → neighbours s x (prev n) (next n) →
  nlist n ≠ None → len pl ≠ 1 → 0 < len pl →
  let s1 := apply (UMicro (timer_list self) (encode_micro OpRemove (len pl))) s in
  crash_safe (timer_list self) (encode_micro OpRemove (len pl))
    (optimized_remove timer_list self x) (recover_from_failed_remove self x (len pl)) s tt
    (apply_list (remove_upds self x (prev n) (next n) (cursor pl) (head pl) (usub (len pl) 1)) s1).
Proof.
  intros Hx Hl Hnb Hn H1' H0' s1. apply (remove_crash_safe_upds s self x n pl); [done..|].
  apply performs_optimized_remove_impl; unfold s1; by destruct (timer_list self).
Qed.

End remove.
