(* ===== verification/PListPop.v ===== *)
(** * Taking the first node off a list ([optimized_pop_front] and its recovery) *)

From S2P Require Import Prelude Arch PList PListUpd PListSeg.
Section pop.
Context `{Arch} {P L V : Type} `{Countable P, Countable L}.
Implicit Types (s : lstore P L V) (n : Node P L V) (pl : PList P).

(** *** [pop_front] *)

Definition detach_upds (self : L) (x : P) (nx cur : option P) : list (update P L) :=
  match nx with Some p => [UPrev p None] | None => [] end ++
  (if bool_decide (cur = Some x) then [UCursor self nx] else []).
Definition pop_upds (self : L) (x : P) (nx cur : option P) (ln : Z) : list (update P L) :=
  UHead self nx :: detach_upds self x nx cur ++ [ULen self ln; UList x None].

Lemma performs_detach_front s self x pl :
  lists s !! self = Some pl → (∀ p, head pl = Some p → is_Some (nodes s !! p)) →
  performs (detach_front self (Some x)) s (detach_upds self x (head pl) (cursor pl)) tt.
Proof.
  intros Hl Hp. unfold detach_front, detach_upds. destruct pl as [ln cur hd]; cbn in *. performs_step.
  apply (performs_bind _ _ _ _ _ tt).
  - destruct hd as [p|]; cbn; [|apply performs_ret]. apply performs_assign. exists_target.
  - assert (E : lists (apply_list match hd with Some p => [UPrev p None] | None => [] end s) !! self
                = Some (Build_PList ln cur hd)) by (by destruct hd).
    performs_step. cbn [cursor head]. case_bool_decide; [|apply performs_ret]. cbn [when].
    performs_step. apply performs_assign. exists_target.
Qed.

Lemma pop_upds_coherent b w self x nx cur ln :
  nx ≠ Some x → coherent (UMicro b w :: pop_upds self x nx cur ln).
Proof.
  intros Hx u v Hu Hv E. unfold pop_upds, detach_upds in *.
  destruct nx; repeat case_bool_decide; set_unfold; naive_solver.
Qed.
Lemma pop_upds_no_micro self x nx cur ln b v : UMicro b v ∉ pop_upds self x nx cur ln.
Proof. unfold pop_upds, detach_upds. destruct nx; case_bool_decide; set_solver. Qed.

(** The part after the log word and the new head, shared with recovery. *)
Lemma performs_pop_tail s self x pl ln :
  lists s !! self = Some pl → (∀ p, head pl = Some p → is_Some (nodes s !! p)) → is_Some (nodes s !! x) →
  performs (detach_front self (Some x);;; set_len self ln;;; set_list x None) s
    (detach_upds self x (head pl) (cursor pl) ++ [ULen self ln; UList x None]) tt.
Proof.
  intros Hl Hp Hx. apply (performs_bind _ _ _ _ _ tt); [by apply performs_detach_front|].
  eapply performs_assign_bind; [exists_target|]. apply performs_assign. exists_target.
Qed.

Context (timer_list : L → bool).

Lemma performs_optimized_pop_front s self x n pl :
  nodes s !! x = Some n → lists s !! self = Some pl → head pl = Some x →
  (∀ p, next n = Some p → is_Some (nodes s !! p) ∧ p ≠ x) →
  performs (optimized_pop_front timer_list self) s
    (UMicro (timer_list self) (encode_micro PopFront (len pl)) ::
     pop_upds self x (next n) (cursor pl) (usub (len pl) 1)) (Some x).
Proof.
  intros Hx Hl Hh Hp. unfold optimized_pop_front, pop_upds. performs_step.
  destruct pl as [ln cur hd]; cbn in *; subst hd.
  eapply performs_assign_bind; [done|].
  set (s1 := apply _ _).
  assert (Hx1 : nodes s1 !! x = Some n) by (unfold s1; by destruct (timer_list self)).
  assert (Hl1 : lists s1 !! self = Some (Build_PList ln cur (Some x))) by (unfold s1; by destruct (timer_list self)).
  assert (Hn1 : nodes s1 = nodes s) by (unfold s1; by destruct (timer_list self)).
  clearbody s1. performs_step. eapply performs_assign_bind; [exists_target|].
  set (s2 := apply _ _).
  assert (Hl2 : lists s2 !! self = Some (Build_PList ln cur (next n))) by (unfold s2; cbn; by rewrite lookup_alter_eq, Hl1).
  assert (Hn2 : nodes s2 = nodes s) by (unfold s2; exact Hn1).
  clearbody s2.
  eapply (performs_bind _ _ _ _ _ tt).
  { apply (performs_detach_front _ _ _ _ Hl2). intros p E. rewrite Hn2. by apply Hp. }
  set (s3 := apply_list _ _).
  assert (Hl3 : ∃ pl3, lists s3 !! self = Some pl3 ∧ len pl3 = ln).
  { unfold s3, detach_upds. cbn [cursor head].
    destruct (next n) as [p|]; case_bool_decide; cbn; rewrite ?lookup_alter_eq, Hl2; by eexists. }
  destruct Hl3 as (pl3 & Hl3 & <-). unfold dec_len.
  eapply (performs_bind _ _ _ [_]).
  { performs_step. apply performs_assign. exists_target. }
  eapply (performs_bind _ _ _ [_]); [|apply performs_ret].
  apply performs_assign. unfold s3. exists_target. rewrite Hn2. eauto.
Qed.

Lemma pop_upds_cells self x s nx cur ln :
  (∀ p, nx = Some p → is_Some (nodes s !! p) ∧ p ≠ x) →
  CNext x ∉ cell_of <$> pop_upds self x nx cur ln.
Proof.
  intros Hp. unfold pop_upds, detach_upds.
  destruct nx; case_bool_decide; set_unfold; naive_solver.
Qed.

(** What recovery redoes once the head has moved. *)
Lemma pop_upds_again self x nx cur cur' ln ws b w :
  nx ≠ Some x → ws ⊆ UMicro b w :: pop_upds self x nx cur ln →
  UHead self nx ∈ ws → UMicro b w ∈ ws →
  (CCursor self ∉ cell_of <$> ws ∧ cur' = cur) ∨ UCursor self cur' ∈ ws →
  let vs := detach_upds self x nx cur' ++ [ULen self ln; UList x None] in
  vs ⊆ UMicro b w :: pop_upds self x nx cur ln ∧ UMicro b w :: pop_upds self x nx cur ln ⊆ ws ++ vs.
Proof.
  intros Hnx Hws Hh Hm Hc.
  assert (Hc' : cur' = cur ∨ (cur = Some x ∧ cur' = nx ∧ UCursor self nx ∈ ws)).
  { destruct Hc as [[_ ->]|Hc]; [by left|right]. pose proof (Hws _ Hc) as Hin.
    unfold pop_upds, detach_upds in Hin.
    destruct nx; repeat case_bool_decide; set_unfold; naive_solver. }
  clear Hc Hws. unfold pop_upds, detach_upds.
  destruct Hc' as [->|(-> & -> & Hc)];
    rewrite ?(bool_decide_eq_true_2 (Some x = Some x)), ?(bool_decide_eq_false_2 (nx = Some x)) by done;
    split; set_solver.
Qed.

(** Popping is rolled forward: before the head has moved it is started over,
    afterwards the rest is redone. *)
Lemma pop_front_crash_safe s self x n pl :
  nodes s !! x = Some n → lists s !! self = Some pl → head pl = Some x →
  (∀ p, next n = Some p → is_Some (nodes s !! p) ∧ p ≠ x) →
  let w := encode_micro PopFront (len pl) in
  crash_safe (timer_list self) w
    (optimized_pop_front timer_list self) (recover_from_failed_pop_front timer_list self x (len pl)) s (Some x)
    (apply_list (pop_upds self x (next n) (cursor pl) (usub (len pl) 1)) (apply (UMicro (timer_list self) w) s)).
Proof.
  intros Hx Hl Hh Hp w. set (b := timer_list self). set (s1 := apply (UMicro b w) s).
  set (us := pop_upds _ _ _ _ _).
  assert (Hx1 : nodes s1 !! x = Some n) by (unfold s1; by destruct b).
  assert (Hl1 : lists s1 !! self = Some pl) by (unfold s1; by destruct b).
  assert (Hp1 : ∀ p, next n = Some p → is_Some (nodes s1 !! p) ∧ p ≠ x) by (unfold s1; by destruct b).
  assert (Hne : next n ≠ Some x) by (intros E; by destruct (Hp x E)).
  assert (Hus : apply_list (UMicro b w :: us) s1 = apply_list us s1).
  { change (apply_list us (apply (UMicro b w) s1) = apply_list us s1). f_equal. by apply apply_same. }
  pose proof (pop_upds_coherent b w self x (next n) (cursor pl) (usub (len pl) 1) Hne) as Hc.
  fold us in Hc.
  assert (Hc1 : coherent us) by (eapply coherent_sub; [exact Hc|]; set_solver).
  apply (crash_safe_intro (λ ws, ws ⊆ UMicro b w :: us ∧ (ws ⊆ [UMicro b w] ∨ UHead self (next n) ∈ ws))).
  - by apply performs_optimized_pop_front.
  - intros [|k]; split; cbn; [by intros ? ?%elem_of_nil|by left; intros ? ?%elem_of_nil| |right; constructor].
    intros u [->|Hu%take_sub]%elem_of_cons; right; [by constructor|]. by constructor.
  - intros ws [Hws Hcase]. fold b s1. rewrite <-Hus. split.
    { apply log_word_kept; [apply log_word_apply|]. intros v [[= ->]|Hv]%Hws%elem_of_cons; [done|].
      by apply pop_upds_no_micro in Hv. }
    unfold recover_from_failed_pop_front. destruct Hcase as [Hcase|Hhead].
    + unfold s1 at 1. rewrite apply_list_repeat by done. fold s1. exists (UMicro b w :: us). split_and!.
      * performs_step. rewrite bool_decide_eq_false_2 by (rewrite Hh; tauto).
        eapply performs_eq; [eapply (performs_bind _ _ _ _ _ (Some x)); [by apply performs_optimized_pop_front|apply performs_ret]|].
        by rewrite app_nil_r.
      * apply apply_list_covered; [done|set_solver..].
      * intros [|k]; cbn; rewrite ?app_nil_r; [auto|]. split.
        -- intros u [Hu|[->|Hu%take_sub]%elem_of_cons]%elem_of_app; [auto|constructor|by constructor].
        -- destruct k; cbn; [left; set_solver|right; set_solver].
    + assert (Hsame : ∀ vs, apply_list (ws ++ vs) s1 = apply_list ((UMicro b w :: ws) ++ vs) s1).
      { intros vs. change (apply_list (ws ++ vs) s1 = apply_list (ws ++ vs) (apply (UMicro b w) s1)).
        f_equal. symmetry. by apply apply_same. }
      destruct (rd_plist s1 self pl ws Hl1 (coherent_sub _ _ Hc Hws)) as (pl' & Hl' & Hcur & Hhd & _).
      assert (Eh : head pl' = next n).
      { destruct Hhd as [[Hn _]|Hin]; [by apply cell_elem in Hhead|].
        assert (E : UHead self (head pl') = UHead self (next n)) by (apply Hc; [by apply Hws..|done]).
        by injection E. }
      destruct (pop_upds_again self x (next n) (cursor pl) (cursor pl') (usub (len pl) 1) (UMicro b w :: ws) b w)
        as [Hsub Hsup]; [done|set_solver|by constructor|constructor| |].
      { destruct Hcur as [[Hn ?]|?]; [left; split; [|done]|right; by constructor]. set_solver. }
      exists (detach_upds self x (head pl') (cursor pl') ++ [ULen self (usub (len pl) 1); UList x None]).
      rewrite Eh. split_and!.
      * performs_step. rewrite Eh, bool_decide_eq_true_2 by done. rewrite <-Eh.
        apply performs_pop_tail; [done| |by rewrite nodes_is_Some; eauto].
        intros p E. rewrite nodes_is_Some. apply Hp1. by rewrite <-Eh.
      * rewrite Hsame. apply apply_list_covered; [done|set_solver..|done].
      * intros k. split; [|right; set_solver]. intros u [?|?%take_sub]%elem_of_app; auto.
Qed.
End pop.
