(* ===== verification/PListFront.v ===== *)
(** * Inserting in front of a list ([optimized_insert_front] and its recovery) *)

From S2P Require Import Prelude Arch PList PListUpd PListSeg.
Section insert_front.
Context `{Arch} {P L V : Type} `{Countable P, Countable L}.
Implicit Types (s : lstore P L V) (n : Node P L V) (pl : PList P).

Definition push_body (x : P) (h : option P) : list (update P L) :=
  UPrev x None :: UNext x None ::
  match h with Some p => [UNext x (Some p); UPrev p (Some x)] | None => [] end.
Definition push_upds (self : L) (x : P) (h : option P) : list (update P L) :=
  push_body x h ++ [UHead self (Some x)].
Definition insert_front_upds (self : L) (x : P) (h : option P) (ln : Z) : list (update P L) :=
  push_upds self x h ++ [ULen self ln; UList x (Some self)].

Definition can_push s (x : P) (h : option P) : Prop :=
  is_Some (nodes s !! x) ∧ ∀ p, h = Some p → is_Some (nodes s !! p) ∧ p ≠ x.

Lemma performs_push_front s self x pl :
  can_push s x (head pl) → lists s !! self = Some pl →
  performs (push_front self x) s (push_upds self x (head pl)) tt.
Proof.
  intros [[n Hx] Hh] Hl. unfold push_front, push_upds, push_body. destruct pl as [ln cur hd]; cbn in *.
  eapply performs_assign_bind; [exists_target|]. eapply performs_assign_bind; [exists_target|].
  performs_step. destruct hd as [p|]; cbn [app].
  - destruct (Hh p) as [[np Hp] ?]; [done|].
    eapply performs_assign_bind; [exists_target|]. eapply performs_assign_bind; [exists_target|].
    apply performs_assign. exists_target.
  - apply performs_assign. exists_target.
Qed.

Lemma lists_push_body x h s : lists (apply_list (push_body x h) s) = lists s.
Proof. by destruct h. Qed.

Lemma push_upds_plist s self x pl :
  lists s !! self = Some pl →
  lists (apply_list (push_upds self x (head pl)) s) !! self = Some (Build_PList (len pl) (cursor pl) (Some x)).
Proof.
  intros Hl. unfold push_upds. rewrite apply_list_app. cbn [apply_list apply with_lists lists].
  by rewrite lists_push_body, lookup_alter_eq, Hl.
Qed.

Lemma performs_optimized_insert_front_impl s self x n pl :
  nodes s !! x = Some n → nlist n = None → can_push s x (head pl) → lists s !! self = Some pl →
  performs (optimized_insert_front_impl self x) s (insert_front_upds self x (head pl) (uadd (len pl) 1)) tt.
Proof.
  intros Hx Hn Hp Hl. unfold optimized_insert_front_impl, insert_front_upds. performs_step.
  rewrite bool_decide_eq_true_2, orb_true_r by done. cbn [assert_ bind skip].
  eapply (performs_bind _ _ _ _ _ tt); [by apply performs_push_front|].
  pose proof (push_upds_plist s self x pl Hl) as Hl'.
  eapply (performs_bind _ _ _ [_]).
  { unfold inc_len. performs_step. apply performs_assign. exists_target. }
  apply performs_assign. exists_target.
Qed.

Lemma performs_recover_insert_front_again s self x pl ln :
  can_push s x (head pl) → lists s !! self = Some pl → head pl ≠ Some x →
  performs (recover_from_failed_insert_front self x ln) s (insert_front_upds self x (head pl) (uadd ln 1)) tt.
Proof.
  intros Hp Hl Hh. unfold recover_from_failed_insert_front, insert_front_upds. performs_step.
  rewrite bool_decide_eq_false_2 by done.
  eapply (performs_bind _ _ _ _ _ tt); [by apply performs_push_front|].
  pose proof (push_upds_plist s self x pl Hl) as Hl'.
  eapply performs_assign_bind; [exists_target|]. apply performs_assign. exists_target.
  exact (proj1 Hp).
Qed.

Lemma performs_recover_insert_front_rest s self x pl ln :
  is_Some (nodes s !! x) → lists s !! self = Some pl → head pl = Some x →
  performs (recover_from_failed_insert_front self x ln) s [ULen self (uadd ln 1); UList x (Some self)] tt.
Proof.
  intros Hx Hl Hh. unfold recover_from_failed_insert_front. performs_step.
  rewrite bool_decide_eq_true_2 by done. cbn [bind skip].
  eapply performs_assign_bind; [exists_target|]. apply performs_assign. exists_target.
Qed.

(** Before the head moves, only the new node and the [prev] of the old head are
    written, and all of it is written again. *)
Definition before_push (self : L) (x : P) (h : option P) (ws : list (update P L)) : Prop :=
  ∀ u, u ∈ ws → cell_of u ∈ cell_of <$> push_body x h.
Definition after_push (self : L) (x : P) (h : option P) (ln : Z) (ws : list (update P L)) : Prop :=
  ∃ ws0 ws1, ws = (ws0 ++ push_upds self x h) ++ ws1 ∧ before_push self x h ws0 ∧
             ws1 ⊆ [ULen self ln; UList x (Some self)].

Lemma insert_front_prefix self x h ln ws k :
  before_push self x h ws →
  before_push self x h (ws ++ take k (insert_front_upds self x h ln)) ∨
  after_push self x h ln (ws ++ take k (insert_front_upds self x h ln)).
Proof.
  intros Hb. unfold insert_front_upds. destruct (decide (k < length (push_upds self x h))%nat) as [Hk|Hk].
  - left. rewrite take_app_le by lia. unfold push_upds in *. rewrite length_app in Hk. cbn [length] in Hk.
    rewrite take_app_le by lia. intros u [Hu|Hu%take_sub]%elem_of_app; [by apply Hb|by apply cell_elem].
  - right. replace k with (length (push_upds self x h) + (k - length (push_upds self x h)))%nat by lia.
    rewrite take_app_add, (assoc_L app). eexists _, _. split; [done|]. split; [done|]. apply take_sub.
Qed.

Lemma before_push_overwritten self x h ws vs s :
  before_push self x h ws → apply_list (ws ++ push_upds self x h ++ vs) s = apply_list (push_upds self x h ++ vs) s.
Proof.
  intros Hb. rewrite apply_list_app. apply apply_list_overwritten. intros v Hv%Hb.
  unfold push_upds. rewrite !fmap_app. set_solver.
Qed.

Lemma before_push_lists self x h ws s : before_push self x h ws → lists (apply_list ws s) = lists s.
Proof.
  revert s; induction ws as [|u ws IH]; intros s Hb; cbn; [done|].
  rewrite IH by (intros v Hv; apply Hb; by constructor).
  assert (Hu : cell_of u ∈ cell_of <$> push_body x h) by (apply Hb; constructor).
  unfold push_body in Hu. destruct h, u as [| | | | | |[]]; cbn; try done; set_unfold; naive_solver.
Qed.

Lemma insert_front_no_micro self x h ln ws b v :
  before_push self x h ws ∨ after_push self x h ln ws → UMicro b v ∉ ws.
Proof.
  intros Hcase Hin.
  assert (Hb : ∀ ws, before_push self x h ws → UMicro b v ∉ ws).
  { intros ws' Hws Hv%Hws. unfold push_body in Hv. destruct h; set_unfold; naive_solver. }
  destruct Hcase as [Hcase|(ws0 & ws1 & -> & H0' & H1')]; [by eapply Hb|].
  apply elem_of_app in Hin as [[Hin|Hin]%elem_of_app|Hin%H1']; [by eapply Hb| |set_solver].
  unfold push_upds in Hin. apply elem_of_app in Hin as [Hin|Hin]; [|set_solver].
  unfold push_body in Hin. destruct h; set_solver.
Qed.

Lemma can_push_apply us s x h : can_push s x h → can_push (apply_list us s) x h.
Proof. unfold can_push. setoid_rewrite nodes_is_Some. done. Qed.

Lemma insert_front_tail_coherent (self : L) (x : P) ln : coherent [ULen self ln; UList x (Some self)].
Proof. intros u w Hu Hw. set_unfold. naive_solver. Qed.

Context (timer_list : L → bool).

(** Inserting at the front is rolled forward: before the head has moved it is
    started over, afterwards the rest is redone. *)
Lemma insert_front_crash_safe s self x n pl :
  nodes s !! x = Some n → nlist n = None → can_push s x (head pl) → lists s !! self = Some pl →
  let w := encode_micro InsertFront (len pl) in
  crash_safe (timer_list self) w
    (optimized_insert_front timer_list self x) (recover_from_failed_insert_front self x (len pl)) s tt
    (apply_list (insert_front_upds self x (head pl) (uadd (len pl) 1)) (apply (UMicro (timer_list self) w) s)).
Proof.
  intros Hx Hn Hp Hl w. set (b := timer_list self). set (s1 := apply (UMicro b w) s).
  assert (Hx1 : nodes s1 !! x = Some n) by (unfold s1; by destruct b).
  assert (Hl1 : lists s1 !! self = Some pl) by (unfold s1; by destruct b).
  assert (Hp1 : can_push s1 x (head pl)) by (unfold s1; by destruct b).
  assert (Hne : head pl ≠ Some x) by (intros E; by destruct (proj2 Hp x E)).
  set (ln := uadd (len pl) 1).
  apply (crash_safe_intro (λ ws, before_push self x (head pl) ws ∨ after_push self x (head pl) ln ws)).
  - unfold optimized_insert_front. performs_step. eapply performs_assign_bind; [done|].
    by eapply performs_optimized_insert_front_impl.
  - intros k. apply (insert_front_prefix _ _ _ _ []). by intros u ?%elem_of_nil.
  - intros ws Hcase. fold b s1. split.
    { apply log_word_kept; [apply log_word_apply|]. intros v Hv. by eapply insert_front_no_micro in Hv. }
    destruct Hcase as [Hb|(ws0 & ws1 & -> & Hb & Hws1)].
    + exists (insert_front_upds self x (head pl) ln). split_and!.
      * apply performs_recover_insert_front_again; [by apply can_push_apply| |done].
        by erewrite before_push_lists.
      * by apply before_push_overwritten.
      * intros k. by apply insert_front_prefix.
    + exists [ULen self ln; UList x (Some self)].
      assert (Hc : coherent ws1) by (eapply coherent_sub; [apply insert_front_tail_coherent|done]).
      pose proof (push_upds_plist (apply_list ws0 s1) self x pl) as Hl2.
      rewrite (before_push_lists self x (head pl)) in Hl2 by done. specialize (Hl2 Hl1).
      rewrite <-apply_list_app in Hl2.
      destruct (rd_plist _ self _ ws1 Hl2 Hc) as (pl' & Hl' & _ & Hhd & _). rewrite <-apply_list_app in Hl'.
      split_and!.
      * eapply performs_recover_insert_front_rest; [rewrite nodes_is_Some; by eauto|exact Hl'|].
        destruct Hhd as [[_ ->]|?%Hws1]; [done|set_solver].
      * rewrite <-(assoc_L app), apply_list_app,
          (apply_list_covered [ULen self ln; UList x (Some self)] ws1)
          by (apply insert_front_tail_coherent || done || set_solver).
        rewrite <-apply_list_app, <-(assoc_L app). by apply before_push_overwritten.
      * intros k. right. exists ws0, (ws1 ++ take k [ULen self ln; UList x (Some self)]).
        split; [by rewrite (assoc_L app)|]. split; [done|]. intros u [?|?%take_sub]%elem_of_app; auto.
Qed.
End insert_front.
