(* ===== verification/PListSorted.v ===== *)
(** * Inserting into a sorted list ([SortedPList::insert])

    The insertion proper: the search loop and the links it makes. *)

From S2P Require Import Prelude Arch PList PListUpd PListSeg.
Section insert_sorted.
Context `{Arch} {P L V : Type} `{Countable P, Countable L}.
Context (gt : V → V → bool).
Implicit Types (s : lstore P L V) (n : Node P L V) (pl : PList P) (xs l r : list (P * V)).

(** The reference: the new value goes in front of the first value that is not
    smaller. *)
Fixpoint split_gt (v : V) (xs : list (P * V)) : list (P * V) * list (P * V) :=
  match xs with
  | [] => ([], [])
  | y :: ys => if gt v y.2 then let '(l, r) := split_gt v ys in (y :: l, r) else ([], xs)
  end.

Lemma split_gt_cons v y ys :
  split_gt v (y :: ys) = if gt v y.2 then let '(l, r) := split_gt v ys in (y :: l, r) else ([], y :: ys).
Proof. done. Qed.

Lemma split_gt_app v xs l r : split_gt v xs = (l, r) → xs = l ++ r.
Proof.
  revert l r; induction xs as [|y ys IH]; intros l r; cbn; [by intros; simplify_eq|].
  destruct (gt v y.2); [|by intros; simplify_eq]. destruct (split_gt v ys) as [l' r'] eqn:E.
  intros; simplify_eq. cbn. f_equal. by apply IH.
Qed.

Lemma nodup_length_size (m : gmap P (Node P L V)) (ys : list P) :
  NoDup ys → (∀ y, y ∈ ys → is_Some (m !! y)) → (length ys ≤ size m)%nat.
Proof.
  intros Hnd Hy. rewrite <-(size_list_to_set (C := gset P)) by done. rewrite <-size_dom.
  apply subseteq_size. intros y. rewrite elem_of_list_to_set, elem_of_dom. apply Hy.
Qed.

Definition found (l r : list (P * V)) (last : P) : P + P :=
  match r with y :: _ => inl y.1 | [] => inr last end.

Lemma performs_find_place fuel s self p y ys l r v :
  seg (nodes s) self p (y :: ys) None → (length (y :: ys) ≤ fuel)%nat → split_gt v (y :: ys) = (l, r) →
  performs (find_place gt fuel v y.1) s [] (found l r (default y.1 (last_or p l))).
Proof.
  revert p y l r fuel; induction ys as [|z ys IH]; intros p y l r [|fuel] [Hy Hs] Hf; try (cbn in Hf; lia);
    intros E; cbn [find_place]; rewrite split_gt_cons in E.
  - performs_step. cbn [value next first_or]. destruct (gt v y.2); cbn in E; simplify_eq; apply performs_ret.
  - cbn [first_or] in Hy. performs_step. cbn [value next].
    destruct (gt v y.2); [|simplify_eq; apply performs_ret].
    destruct (split_gt v (z :: ys)) as [l' r'] eqn:E'. simplify_eq.
    cbn in Hf. specialize (IH (Some y.1) z l' r fuel Hs ltac:(cbn; lia) E').
    destruct r as [|r0 r]; [|done]. apply split_gt_app in E'. rewrite app_nil_r in E'. subst l'. cbn in *.
    destruct (last_or_Some z.1 ys) as [? E0]. by rewrite E0 in *.
Qed.

Lemma performs_scan_list s self y ys l r v :
  seg (nodes s) self None (y :: ys) None → NoDup (y :: ys).*1 → split_gt v (y :: ys) = (l, r) →
  performs (scan_list gt v y.1) s [] (found l r (default y.1 (last_or None l))).
Proof.
  intros Hs Hnd E. unfold scan_list. apply performs_read. cbn [bind get].
  eapply performs_find_place; [done| |done]. rewrite <-(length_fmap fst). apply nodup_length_size; [done|].
  intros z Hz. by eapply seg_is_Some.
Qed.

(** The links that insertion between [l] and [r] makes. *)
Definition link_upds (self : L) (x : P) l r : list (update P L) :=
  match r, last_or None l with
  | y :: _, Some p => [UNext x (Some y.1); UPrev x (Some p); UPrev y.1 (Some x); UNext p (Some x)]
  | y :: _, None => [UNext x (Some y.1); UPrev x None; UPrev y.1 (Some x); UHead self (Some x)]
  | [], Some p => [UPrev x (Some p); UNext x None; UNext p (Some x)]
  | [], None => [UHead self (Some x)]
  end.
Definition insert_sorted_upds (self : L) (x : P) l r (ln : Z) : list (update P L) :=
  UList x (Some self) :: link_upds self x l r ++ [ULen self ln].

Lemma link_upds_coherent (self : L) (x : P) l r : x ∉ (l ++ r).*1 → coherent (link_upds self x l r).
Proof.
  intros Hx u w Hu Hw E. rewrite fmap_app, not_elem_of_app in Hx. unfold link_upds in *.
  destruct (last_or None l) as [p|] eqn:El; [apply last_or_elem in El as [El|[_ [=]]]|];
    destruct r as [|y r]; set_unfold; naive_solver.
Qed.

(** The links, made once the place is known. *)
Lemma performs_link s self x n l r d :
  nodes s !! x = Some n → x ∉ (l ++ r).*1 → l ++ r ≠ [] →
  is_Some (lists s !! self) → seg (nodes s) self None (l ++ r) None →
  performs
    match found l r (default d (last_or None l)) with
    | inr last =>
        set_prev x (Some last);;;
        set_next x None;;;
        set_next last (Some x)
    | inl ptr =>
        set_next x (Some ptr);;;
        let* node := deref ptr in
        set_prev x (prev node);;;
        set_prev ptr (Some x);;;
        let* new_node := deref x in
        match prev new_node with
        | Some p => set_next p (Some x)
        | None => set_head self (Some x)
        end
    end s (link_upds self x l r) tt.
Proof.
  intros Hx Hfresh Hne Hl Hs. unfold link_upds, found. rewrite fmap_app, not_elem_of_app in Hfresh.
  destruct Hfresh as [Hfl Hfr].
  assert (Hlast : ∀ p, last_or None l = Some p → is_Some (nodes s !! p) ∧ p ≠ x).
  { intros p [Hp|[_ [=]]]%last_or_elem. split; [|set_solver].
    eapply seg_is_Some; [done|]. rewrite fmap_app. set_solver. }
  destruct r as [|y r].
  - destruct (last_or None l) as [p|] eqn:El.
    + destruct (Hlast p eq_refl) as [[np Hp] ?]. cbn [default from_option].
      eapply performs_assign_bind; [exists_target|]. eapply performs_assign_bind; [exists_target|].
      apply performs_assign. exists_target.
    + destruct l as [|z l]; [done|]. cbn in El. by destruct (last_or_Some z.1 l) as [? ?]; simplify_eq.
  - pose proof (seg_mid _ _ _ _ _ _ _ Hs) as Hy. assert (y.1 ≠ x) by set_solver.
    destruct (last_or None l) as [p|] eqn:El.
    + destruct (Hlast p eq_refl) as [[np Hp] ?]. eapply performs_assign_bind; [exists_target|].
      performs_step. cbn [prev]. eapply performs_assign_bind; [exists_target|].
      eapply performs_assign_bind; [exists_target|]. performs_step. cbn [prev nset_prev].
      apply performs_assign. exists_target.
    + eapply performs_assign_bind; [exists_target|].
      performs_step. cbn [prev]. eapply performs_assign_bind; [exists_target|].
      eapply performs_assign_bind; [exists_target|]. performs_step. cbn [prev nset_prev].
      apply performs_assign. exists_target.
Qed.

Lemma performs_optimized_insert_sorted_impl s self x n ln cur l r :
  debug_assertions = false ∨ nlist n = None →
  nodes s !! x = Some n → x ∉ (l ++ r).*1 → split_gt (value n) (l ++ r) = (l, r) →
  lists s !! self = Some (Build_PList ln cur (first_or None (l ++ r))) →
  seg (nodes s) self None (l ++ r) None → NoDup (l ++ r).*1 →
  performs (optimized_insert_sorted_impl gt self x) s (insert_sorted_upds self x l r (uadd ln 1)) tt.
Proof.
  intros Hdbg Hx Hfresh Hsp Hl Hs Hnd. unfold optimized_insert_sorted_impl, insert_sorted_upds.
  performs_step. 
  replace (negb debug_assertions || bool_decide (nlist n = None)) with true
    by (destruct Hdbg as [-> | ->]; [done|by rewrite bool_decide_eq_true_2, orb_true_r by done]).
  cbn [assert_ bind skip]. eapply performs_assign_bind; [exists_target|].
  set (s2 := apply _ s).
  assert (Hl2 : lists s2 !! self = Some (Build_PList ln cur (first_or None (l ++ r)))) by done.
  assert (Hx2 : nodes s2 !! x = Some (Build_Node (prev n) (next n) (Some self) (value n))).
  { unfold s2. cbn. by rewrite lookup_alter_eq, Hx. }
  assert (Hs2 : seg (nodes s2) self None (l ++ r) None) by (by apply seg_alter_ne).
  clearbody s2. performs_step. cbn [head]. unfold inc_len.
  assert (Hend : ∀ us, CLen self ∉ cell_of <$> us → coherent us →
    performs (let* pl := deref_list self in set_len self (uadd (len pl) 1)) (apply_list us s2) [ULen self (uadd ln 1)] tt).
  { intros us Hn Hc. destruct (rd_plist s2 self _ us Hl2 Hc) as (pl' & E & _ & _ & [[_ Eln]|Hin]);
      [|by destruct Hn; apply cell_elem in Hin].
    cbn in Eln. subst ln. performs_step. apply performs_assign. exists_target. }
  apply (performs_bind _ _ _ _ _ tt).
  - destruct (l ++ r) as [|y ys] eqn:Elr; cbn [first_or].
    { apply app_eq_nil in Elr as [-> ->]. apply performs_assign. exists_target. }
    apply (performs_bind _ _ _ [] _ _ _ (performs_scan_list _ _ _ _ _ _ _ Hs2 Hnd Hsp)).
    cbn [apply_list]. eapply performs_link; rewrite ?Elr; eauto.
  - apply Hend; [|by apply link_upds_coherent].
    unfold link_upds. destruct r, (last_or None l); set_solver.
Qed.
End insert_sorted.
