(* ===== verification/PListSortedRec.v ===== *)
(** * Recovery of an insertion into a sorted list

    [recover_from_failed_insert_sorted] finds out from the links of the new node
    how far the insertion has come. *)

From S2P Require Import Prelude Arch PList PListUpd PListSeg PListSorted.
Section recover_sorted.
Context `{Arch} {P L V : Type} `{Countable P, Countable L}.
Context (gt : V → V → bool) (timer_list : L → bool).
Implicit Types (s : lstore P L V) (n : Node P L V) (pl : PList P) (xs l r : list (P * V)).

(** The first link that insertion makes. *)
Definition first_link (self : L) (x : P) l r : update P L :=
  match r, last_or None l with
  | y :: _, _ => UNext x (Some y.1)
  | [], Some p => UPrev x (Some p)
  | [], None => UHead self (Some x)
  end.

(** How far an insertion between [l] and [r] may have come. *)
Definition inserting (self : L) (x : P) l r (ln : Z) (ws : list (update P L)) : Prop :=
  ws ⊆ insert_sorted_upds self x l r ln ∧ UList x (Some self) ∈ ws ∧
  (ws ⊆ [UList x (Some self)] ∨ first_link self x l r ∈ ws) ∧
  (∀ y, UPrev y (Some x) ∈ ws → UPrev x (last_or None l) ∈ ws).

(** What recovery finds before it: the list without [x], whose pointers are null. *)
Definition ready_to_insert s (self : L) (x : P) (n : Node P L V) l r (ln : Z) cur : Prop :=
  nodes s !! x = Some n ∧ prev n = None ∧ next n = None ∧
  x ∉ (l ++ r).*1 ∧ split_gt gt (value n) (l ++ r) = (l, r) ∧
  lists s !! self = Some (Build_PList ln cur (first_or None (l ++ r))) ∧
  seg (nodes s) self None (l ++ r) None ∧ NoDup (l ++ r).*1.

Lemma insert_sorted_upds_coherent (self : L) (x : P) l r ln : x ∉ (l ++ r).*1 → coherent (insert_sorted_upds self x l r ln).
Proof.
  intros Hx u w Hu Hw E. pose proof (link_upds_coherent self x l r Hx) as Hc.
  unfold insert_sorted_upds in *.
  assert (Hd : ∀ u, u ∈ link_upds self x l r → cell_of u ≠ CList x ∧ cell_of u ≠ CLen self).
  { intros v Hv. unfold link_upds in Hv. destruct r, (last_or None l); set_solver. }
  rewrite elem_of_cons, elem_of_app, list_elem_of_singleton in Hu, Hw.
  destruct Hu as [->|[Hu| ->]], Hw as [->|[Hw| ->]]; try done;
    try (pose proof (Hd _ Hu)); try (pose proof (Hd _ Hw)); naive_solver.
Qed.

Lemma inserting_take self x l r ln ws vs k :
  inserting self x l r ln ws → vs ⊆ insert_sorted_upds self x l r ln → first_link self x l r ∈ ws →
  (∀ y, UPrev y (Some x) ∈ take k vs → UPrev x (last_or None l) ∈ ws ++ take k vs) →
  inserting self x l r ln (ws ++ take k vs).
Proof.
  intros (Hws & Hl & _ & Hp) Hvs Hf Hk. split_and!; [|set_solver..|].
  - intros u [?|?%take_sub]%elem_of_app; auto.
  - intros y [Hy|Hy]%elem_of_app; [|by eapply Hk]. apply elem_of_app. left. by eapply Hp.
Qed.

(** Nothing linked yet: the insertion is started over. *)
Lemma recover_insert_sorted_start s self x n l r ln cur ws :
  debug_assertions = false → ready_to_insert s self x n l r ln cur →
  ws ⊆ [UList x (Some self)] → UList x (Some self) ∈ ws →
  performs (recover_from_failed_insert_sorted gt self x ln) (apply_list ws s)
    (insert_sorted_upds self x l r (uadd ln 1)) tt.
Proof.
  intros Hdbg (Hx & Hp & Hn & Hf & Hsp & Hl & Hs & Hnd) Hws Hin.
  rewrite (apply_list_repeated (UList x (Some self))) by done.
  set (c := apply _ s). assert (Hx' : nodes c !! x = Some (Build_Node None None (Some self) (value n))).
  { unfold c. cbn. rewrite lookup_alter_eq, Hx. destruct n; cbn in *. by subst. }
  assert (Hl' : lists c !! self = Some (Build_PList ln cur (first_or None (l ++ r)))) by done.
  assert (Hs' : seg (nodes c) self None (l ++ r) None) by (by apply seg_alter_ne).
  unfold recover_from_failed_insert_sorted. performs_step. cbn [nlist].
  rewrite bool_decide_eq_false_2 by tauto. performs_step. cbn [next prev head].
  rewrite bool_decide_eq_false_2
    by (intros [?|[? [=]]]%first_or_elem; done).
  apply (performs_noop _ _ (ULen self ln)); [|by eapply apply_len_same].
  eapply performs_assign_bind; [exists_target|].
  rewrite (apply_len_same self ln c (Build_PList ln cur (first_or None (l ++ r)))) by done.
  by eapply performs_optimized_insert_sorted_impl; eauto.
Qed.

(** The node in a state of the insertion whose first link is made. *)
Lemma inserting_node s self x n l r ln ln' cur ws :
  ready_to_insert s self x n l r ln' cur → inserting self x l r ln ws → first_link self x l r ∈ ws →
  ∃ n', nodes (apply_list ws s) !! x = Some n' ∧ nlist n' = Some self ∧
    next n' = first_or None r ∧
    (prev n' = last_or None l ∨ (r ≠ [] ∧ prev n' = None ∧ UPrev x (last_or None l) ∉ ws)).
Proof.
  intros (Hx & Hp & Hn & Hf & _) (Hws & Hul & _ & _) Hk.
  pose proof (insert_sorted_upds_coherent self x l r ln Hf) as Hc0.
  pose proof (coherent_sub _ _ Hc0 Hws) as Hc.
  destruct (rd_nodes s x n ws Hx Hc) as (n' & Hx' & _ & Hp' & Hn' & Hl').
  exists n'. split; [done|].
  assert (Hnx : ∀ v, UNext x v ∈ ws → v = first_or None r).
  { intros v Hv%Hws. unfold insert_sorted_upds, link_upds in Hv.
    assert (∀ p, last_or None l = Some p → p ≠ x).
    { intros p [?|[_ [=]]]%last_or_elem ->. rewrite fmap_app in Hf. set_solver. }
    destruct r, (last_or None l); set_unfold; naive_solver. }
  assert (Hpv : ∀ v, UPrev x v ∈ ws → v = last_or None l).
  { intros v Hv%Hws. unfold insert_sorted_upds, link_upds in Hv. 
    rewrite fmap_app in Hf. destruct r, (last_or None l); set_unfold; naive_solver. }
  split_and!.
  - destruct Hl' as [[Hno _]|Hin]; [by apply (cell_elem (UList x (Some self))) in Hul|].
    apply Hws in Hin. specialize (Hc0 _ _ Hin (Hws _ Hul) eq_refl). by injection Hc0.
  - destruct Hn' as [[Hno E]|Hin]; [|by apply Hnx].
    rewrite E, Hn. destruct r as [|y r]; [done|]. unfold first_link in Hk. by apply cell_elem in Hk.
  - destruct Hp' as [[Hno E]|Hin]; [|left; by apply Hpv].
    destruct r as [|y r].
    + unfold first_link in Hk. destruct (last_or None l) eqn:El; [by apply cell_elem in Hk|left; congruence].
    + right. split; [done|]. split; [congruence|]. by intros ?%cell_elem.
Qed.

(** The neighbours in that state. *)
Lemma inserting_next s self x n y l r ln ln' cur ws :
  ready_to_insert s self x n l (y :: r) ln' cur → inserting self x l (y :: r) ln ws →
  ∃ ny, nodes (apply_list ws s) !! y.1 = Some ny ∧
    ((prev ny = Some x ∧ UPrev y.1 (Some x) ∈ ws) ∨ (prev ny = last_or None l ∧ prev ny ≠ Some x)).
Proof.
  intros (Hx & Hp & Hn & Hf & _ & Hl & Hs & _) (Hws & Hul & _ & _).
  pose proof (insert_sorted_upds_coherent self x l (y :: r) ln Hf) as Hc0.
  pose proof (coherent_sub _ _ Hc0 Hws) as Hc.
  pose proof (seg_mid _ _ _ _ _ _ _ Hs) as Hy.
  destruct (rd_nodes s y.1 _ ws Hy Hc) as (ny & Hy' & _ & Hp' & _).
  exists ny. split; [done|]. rewrite fmap_app in Hf.
  assert (Hpx : last_or None l ≠ Some x).
  { intros [?|[_ [=]]]%last_or_elem. set_solver. }
  destruct Hp' as [[_ E]|Hin].
  - right. cbn in E. by rewrite E.
  - left. pose proof (Hws _ Hin) as Hin'. unfold insert_sorted_upds, link_upds in Hin'.
    assert (prev ny = Some x) as E by (destruct (last_or None l); set_unfold; naive_solver).
    by rewrite E in Hin.
Qed.

Lemma insert_neighbours s self x n l r ln ln' cur ws :
  ready_to_insert s self x n l r ln' cur → inserting self x l r ln ws →
  is_Some (lists (apply_list ws s) !! self) ∧
  ∀ p, last_or None l = Some p → is_Some (nodes (apply_list ws s) !! p) ∧ p ≠ x.
Proof.
  intros (Hx & Hp & Hn & Hf & _ & Hl & Hs & _) _. rewrite lists_is_Some. split; [eauto|].
  setoid_rewrite nodes_is_Some. rewrite fmap_app in Hf. intros p [Hin|[_ [=]]]%last_or_elem.
  split; [|set_solver]. eapply seg_is_Some; [exact Hs|]. rewrite fmap_app. set_solver.
Qed.

(** What recovery still has to do then: [vs]. *)
Definition completes (self : L) (x : P) l r (ln : Z) (ws vs : list (update P L)) : Prop :=
  vs ⊆ insert_sorted_upds self x l r ln ∧ insert_sorted_upds self x l r ln ⊆ ws ++ vs ∧
  ∀ y k, UPrev y (Some x) ∈ take k vs → UPrev x (last_or None l) ∈ ws ++ take k vs.

Lemma recover_insert_sorted_mid s self x n y l r ln old cur ws :
  ready_to_insert s self x n l (y :: r) ln cur → inserting self x l (y :: r) (uadd old 1) ws →
  first_link self x l (y :: r) ∈ ws →
  ∃ vs, performs (recover_from_failed_insert_sorted gt self x old) (apply_list ws s) vs tt ∧
        completes self x l (y :: r) (uadd old 1) ws vs.
Proof.
  intros Hr Hi Hk. destruct (inserting_node _ _ _ _ _ _ _ _ _ _ Hr Hi Hk) as (n' & Hx' & Hl' & Hnx' & Hpv').
  destruct (insert_neighbours _ _ _ _ _ _ _ _ _ _ Hr Hi) as [[pl' Hpl'] Hlast].
  destruct (inserting_next _ _ _ _ _ _ _ _ _ _ _ Hr Hi) as (ny & Hny & Hyc).
  assert (Hyx : y.1 ≠ x).
  { destruct Hr as (_ & _ & _ & Hf & _). rewrite fmap_app in Hf. set_solver. }
  destruct Hi as (Hws & Hul & _ & Hord). set (c := apply_list ws s) in *. clearbody c.
  cbn in Hnx', Hk. unfold recover_from_failed_insert_sorted.
  destruct n' as [pv nx nl v]. cbn in Hx', Hl', Hnx', Hpv'. subst nx nl.
  destruct Hyc as [[Ey Hy]|[Ey Hy]].
  - assert (Hpvw : UPrev x (last_or None l) ∈ ws) by (by eapply Hord).
    assert (pv = last_or None l) as -> by (destruct Hpv' as [?|(_ & _ & ?)]; done).
    exists (match last_or None l with Some p => [UNext p (Some x)] | None => [UHead self (Some x)] end
         ++ [UList x (Some self); ULen self (uadd old 1)]). split.
    + performs_step. rewrite bool_decide_eq_false_2 by tauto. do 2 performs_step. rewrite (bool_decide_eq_true_2 (prev ny = _)) by done. cbn [bind skip].
      performs_step. destruct (last_or None l) as [p|].
      * destruct (Hlast p eq_refl) as [[np Hp] ?]. 
        eapply performs_assign_bind; [exists_target|]. eapply performs_assign_bind; [exists_target|].
        apply performs_assign. exists_target.
      * eapply performs_assign_bind; [exists_target|]. eapply performs_assign_bind; [exists_target|].
        apply performs_assign. exists_target.
    + unfold completes, insert_sorted_upds, link_upds. split_and!;
        [destruct (last_or None l); set_solver..|]. intros; apply elem_of_app; by left.
  - exists ([UPrev x (last_or None l); UPrev y.1 (Some x)] ++
      match last_or None l with Some p => [UNext p (Some x)] | None => [UHead self (Some x)] end
         ++ [UList x (Some self); ULen self (uadd old 1)]). split.
    + performs_step. rewrite bool_decide_eq_false_2 by tauto. do 2 performs_step. rewrite (bool_decide_eq_false_2 (prev ny = _)) by done. rewrite Ey.
      eapply (performs_bind _ _ _ [_; _]).
      { eapply performs_assign_bind; [exists_target|]. apply performs_assign. exists_target. }
      performs_step. cbn [prev]. destruct (last_or None l) as [p|].
      * destruct (Hlast p eq_refl) as [[np Hp] ?]. 
        eapply performs_assign_bind; [exists_target|]. eapply performs_assign_bind; [exists_target|].
        apply performs_assign. exists_target.
      * eapply performs_assign_bind; [exists_target|]. eapply performs_assign_bind; [exists_target|].
        apply performs_assign. exists_target.
    + unfold completes, insert_sorted_upds, link_upds. split_and!;
        [destruct (last_or None l); set_solver..|].
      intros z [|k]; cbn [app take]; [by intros ?%elem_of_nil|]. intros _. set_solver.
Qed.

Lemma recover_insert_sorted_end s self x n l ln old cur ws :
  ready_to_insert s self x n l [] ln cur → inserting self x l [] (uadd old 1) ws →
  first_link self x l [] ∈ ws →
  ∃ vs, performs (recover_from_failed_insert_sorted gt self x old) (apply_list ws s) vs tt ∧
        completes self x l [] (uadd old 1) ws vs.
Proof.
  intros Hr Hi Hk. destruct (inserting_node _ _ _ _ _ _ _ _ _ _ Hr Hi Hk) as (n' & Hx' & Hl' & Hnx' & Hpv').
  destruct (insert_neighbours _ _ _ _ _ _ _ _ _ _ Hr Hi) as [_ Hlast].
  destruct Hr as (_ & _ & _ & Hf & _ & Hl & _), Hi as (Hws & Hul & _ & Hord).
  pose proof (coherent_sub _ _ (insert_sorted_upds_coherent self x l [] (uadd old 1) Hf) Hws) as Hc.
  destruct (rd_plist s self _ ws Hl Hc) as (pl' & Hpl' & _ & Hhd & _).
  set (c := apply_list ws s) in *. clearbody c.
  assert (prev n' = last_or None l) as Epv by (by destruct Hpv' as [?|[]]). clear Hpv'.
  unfold recover_from_failed_insert_sorted. destruct n' as [pv nx nl v]. cbn in *. subst.
  destruct (last_or None l) as [p|] eqn:El.
  - destruct (Hlast p eq_refl) as [[np Hp] ?].
    exists [UNext x None; UNext p (Some x); UList x (Some self); ULen self (uadd old 1)]. split.
    + performs_step. rewrite bool_decide_eq_false_2 by tauto. performs_step.
      do 3 (eapply performs_assign_bind; [exists_target|]). apply performs_assign. exists_target.
    + unfold completes, insert_sorted_upds, link_upds. rewrite El. split_and!; [set_solver..|].
      intros z k Hin%take_sub. set_solver.
  - exists [ULen self (uadd old 1)]. split.
    + performs_step. rewrite bool_decide_eq_false_2 by tauto. performs_step.
      rewrite bool_decide_eq_true_2; [apply performs_assign; exists_target|].
      destruct Hhd as [[Hno _]|Hin]; [by apply cell_elem in Hk|]. apply Hws in Hin. unfold insert_sorted_upds, link_upds in Hin.
      rewrite El in Hin. set_solver.
    + unfold completes, insert_sorted_upds, link_upds. rewrite El. split_and!; [set_solver..|].
      intros z k Hin%take_sub. set_solver.
Qed.
End recover_sorted.
