(* ===== verification/PListSortedSafe.v ===== *)
(** * Insertion into a sorted list survives power failures

    The whole operation: clearing the pointers of the new node, the insertion and
    the recovery of both. *)

From S2P Require Import Prelude Arch PList PListUpd PListSeg PListSorted PListSortedRec.
Section sorted_safe.
Context `{Arch} {P L V : Type} `{Countable P, Countable L}.
Context (gt : V → V → bool) (timer_list : L → bool).
Implicit Types (s : lstore P L V) (n : Node P L V) (pl : PList P) (xs l r : list (P * V)).

Lemma take_insert_prev (self : L) (x y : P) l r ln k :
  UPrev y (Some x) ∈ take k (insert_sorted_upds self x l r ln) →
  UPrev x (last_or None l) ∈ take k (insert_sorted_upds self x l r ln).
Proof.
  unfold insert_sorted_upds, link_upds. intros Hin.
  destruct r as [|z r], (last_or None l) as [p|]; cbn [app] in *;
    destruct k as [|[|[|k]]]; cbn [take] in *;
    repeat (apply elem_of_cons in Hin as [Hin|Hin]; [try discriminate Hin|]);
    try (by apply elem_of_nil in Hin); try (repeat constructor; fail);
    try (by apply take_sub in Hin; set_solver).
  all: try (by destruct k; cbn in Hin; set_solver).
Qed.

Lemma recover_inserting s self x n l r ln cur ws :
  debug_assertions = false → ready_to_insert gt s self x n l r ln cur →
  inserting self x l r (uadd ln 1) ws →
  ∃ vs, performs (recover_from_failed_insert_sorted gt self x ln) (apply_list ws s) vs tt ∧
        vs ⊆ insert_sorted_upds self x l r (uadd ln 1) ∧
        insert_sorted_upds self x l r (uadd ln 1) ⊆ ws ++ vs ∧
        ∀ k, inserting self x l r (uadd ln 1) (ws ++ take k vs).
Proof.
  intros Hdbg Hr Hi. pose proof Hi as (Hws & Hul & [Hcase|Hk] & Hord).
  - exists (insert_sorted_upds self x l r (uadd ln 1)).
    assert (Hsub : ∀ k, ws ++ take k (insert_sorted_upds self x l r (uadd ln 1)) ⊆ insert_sorted_upds self x l r (uadd ln 1)).
    { intros k u [?|?%take_sub]%elem_of_app; auto. }
    split; [by eapply recover_insert_sorted_start|]. split; [done|]. split; [set_solver|].
    intros k. split_and!; [apply Hsub|set_solver| |].
    + destruct k as [|[|k]]; cbn; [left; set_solver|left; set_solver|right].
      unfold first_link, link_upds. destruct r, (last_or None l); cbn; set_solver.
    + intros y [Hy|Hy]%elem_of_app; [apply Hcase in Hy; set_solver|].
      apply elem_of_app. right. by eapply take_insert_prev.
  - assert (∃ vs, performs (recover_from_failed_insert_sorted gt self x ln) (apply_list ws s) vs tt ∧
        completes self x l r (uadd ln 1) ws vs) as (vs & Hp & Hvs & Hsup & Hpre).
    { destruct r; [by eapply recover_insert_sorted_end|by eapply recover_insert_sorted_mid]. }
    exists vs. split_and!; [done..|]. intros k. eapply inserting_take; eauto.
Qed.

(** Before the node's [list] field is set, only its pointers are written. *)
Definition clearing (x : P) (ws : list (update P L)) : Prop :=
  ∀ u, u ∈ ws → cell_of u ∈ [CNext x; CPrev (L := L) x].
Definition clear_upds (x : P) : list (update P L) := [UNext x None; UPrev x None].

Lemma clearing_overwritten x ws s : clearing x ws → apply_list (ws ++ clear_upds x) s = apply_list (clear_upds x) s.
Proof.
  intros Hc. rewrite apply_list_app. apply apply_list_overwritten. intros v Hv%Hc. done.
Qed.

Lemma clearing_node x ws s n :
  clearing x ws → nodes s !! x = Some n →
  ∃ n', nodes (apply_list ws s) !! x = Some n' ∧ nlist n' = nlist n ∧ value n' = value n.
Proof.
  intros Hc Hx. destruct (proj2 (nodes_is_Some ws s x)) as [n' E]; [eauto|].
  exists n'. split; [done|]. split; [|by eapply value_apply_list].
  assert (Hn : CList x ∉ cell_of <$> ws) by (intros (u & E' & Hu%Hc)%list_elem_of_fmap; rewrite <-E' in Hu; set_solver).
  pose proof (rd_list_ne (CList x) ws s Hn) as Hrd. cbn in Hrd. rewrite E, Hx in Hrd. cbn in Hrd. congruence.
Qed.

Lemma clearing_frame x ws s :
  clearing x ws → lists (apply_list ws s) = lists s ∧ ∀ y, y ≠ x → nodes (apply_list ws s) !! y = nodes s !! y.
Proof.
  revert s; induction ws as [|u ws IH]; intros s Hc; cbn; [done|].
  assert (Hu : cell_of u ∈ [CNext x; CPrev (L := L) x]) by (apply Hc; constructor).
  destruct (IH (apply u s)) as [-> Hn]; [intros v Hv; apply Hc; by constructor|].
  rewrite elem_of_cons, list_elem_of_singleton in Hu.
  destruct u as [p ?|p ?| | | | |[]]; cbn in Hu; destruct Hu as [[=]|[=]]; subst.
  - split; [done|]. intros y Hy. rewrite Hn by done. by apply lookup_alter_ne.
  - split; [done|]. intros y Hy. rewrite Hn by done. by apply lookup_alter_ne.
Qed.

(** What insertion starts from: a free node and a linear list. *)
Definition before_insert s (self : L) (x : P) n l r (ln : Z) cur : Prop :=
  nodes s !! x = Some n ∧ nlist n = None ∧
  x ∉ (l ++ r).*1 ∧ split_gt gt (value n) (l ++ r) = (l, r) ∧
  lists s !! self = Some (Build_PList ln cur (first_or None (l ++ r))) ∧
  seg (nodes s) self None (l ++ r) None ∧ NoDup (l ++ r).*1.

Lemma before_insert_clearing s self x n l r ln cur ws :
  clearing x ws → before_insert s self x n l r ln cur →
  ∃ n', before_insert (apply_list ws s) self x n' l r ln cur ∧ value n' = value n.
Proof.
  intros Hc (Hx & Hn & Hf & Hsp & Hl & Hs & Hnd).
  destruct (clearing_node _ _ _ _ Hc Hx) as (n' & Hx' & En & Ev).
  destruct (clearing_frame _ _ s Hc) as [El Hfr]. exists n'. split; [|done].
  split_and!; [done|congruence|done|by rewrite Ev|by rewrite El| |done].
  eapply seg_ext; [|done]. intros y Hy. apply Hfr. set_solver.
Qed.

Lemma clear_ready s self x n l r ln cur :
  before_insert s self x n l r ln cur →
  ready_to_insert gt (apply_list (clear_upds x) s) self x (Build_Node None None None (value n)) l r ln cur.
Proof.
  intros (Hx & Hn & Hf & Hsp & Hl & Hs & Hnd). split_and!; cbn; try done.
  - rewrite !lookup_alter_eq, Hx. destruct n; cbn in *. by subst.
  - by repeat apply seg_alter_ne.
Qed.

(** [optimized_insert_sorted], and recovery before the [list] field is set. *)
Lemma performs_insert_again s self x n l r ln cur :
  before_insert s self x n l r ln cur →
  performs (set_next x None;;; set_prev x None;;; optimized_insert_sorted_impl gt self x) s
    (clear_upds x ++ insert_sorted_upds self x l r (uadd ln 1)) tt.
Proof.
  intros Hb. pose proof (clear_ready _ _ _ _ _ _ _ _ Hb) as (Hx & _ & _ & Hf & Hsp & Hl & Hs & Hnd).
  destruct Hb as (Hx0 & _). eapply performs_assign_bind; [exists_target|].
  eapply performs_assign_bind; [exists_target|].
  eapply performs_optimized_insert_sorted_impl;
    [|exact Hx|exact Hf|exact Hsp|exact Hl|exact Hs|exact Hnd]. by right.
Qed.

(** How far [optimized_insert_sorted] or its recovery may have come. *)
Definition insert_state (self : L) (x : P) l r (ln : Z) (ws : list (update P L)) : Prop :=
  clearing x ws ∨
  ∃ ws0 ws1, ws = (ws0 ++ clear_upds x) ++ ws1 ∧ clearing x ws0 ∧ inserting self x l r ln ws1.

Lemma inserting_prefix (self : L) (x : P) l r ln k : inserting self x l r ln (take (S k) (insert_sorted_upds self x l r ln)).
Proof.
  split_and!; [apply take_sub|constructor| |].
  - destruct k as [|k]; [left; by intros u|right]. unfold insert_sorted_upds, first_link, link_upds.
    destruct r, (last_or None l); cbn; constructor; constructor.
  - intros y. apply take_insert_prev.
Qed.

Lemma insert_state_prefix (self : L) (x : P) l r ln ws k :
  clearing x ws → insert_state self x l r ln (ws ++ take k (clear_upds x ++ insert_sorted_upds self x l r ln)).
Proof.
  intros Hc. destruct k as [|[|[|k]]].
  1-3: left; intros u [Hu|Hu]%elem_of_app; [by apply Hc|];
    cbn in Hu; rewrite ?elem_of_cons, elem_of_nil in Hu; rewrite elem_of_cons, list_elem_of_singleton;
    naive_solver.
  right. exists ws, (take (S k) (insert_sorted_upds self x l r ln)). cbn [clear_upds app take].
  split; [by rewrite <-(assoc_L app)|]. split; [done|apply inserting_prefix].
Qed.

Lemma insert_state_no_micro (self : L) (x : P) l r ln ws b v : insert_state self x l r ln ws → UMicro b v ∉ ws.
Proof.
  assert (Hcl : ∀ ws, clearing x ws → UMicro b v ∉ ws).
  { intros ws' Hc Hin%Hc. cbn in Hin. rewrite elem_of_cons, list_elem_of_singleton in Hin. naive_solver. }
  intros [Hc|(ws0 & ws1 & -> & Hc & (Hsub & _))]; [by apply Hcl|].
  rewrite !elem_of_app. intros [[Hin|Hin]|Hin%Hsub]; [by eapply Hcl| |].
  - unfold clear_upds in Hin. rewrite elem_of_cons, list_elem_of_singleton in Hin. naive_solver.
  - unfold insert_sorted_upds, link_upds in Hin. clear - Hin. destruct r, (last_or None l); set_solver.
Qed.

Lemma apply_micro_before_insert b w s self x n l r ln cur :
  before_insert s self x n l r ln cur → before_insert (apply (UMicro b w) s) self x n l r ln cur.
Proof. by destruct b. Qed.

(** Insertion into a sorted list is rolled forward (in a release build). *)
Lemma sorted_insert_crash_safe s self op x n l r ln cur :
  debug_assertions = false → before_insert s self x n l r ln cur →
  let w := encode_micro op ln in
  crash_safe (timer_list self) w
    (sorted_insert gt timer_list self op x) (recover_from_failed_insert_sorted gt self x ln) s tt
    (apply_list (clear_upds x ++ insert_sorted_upds self x l r (uadd ln 1)) (apply (UMicro (timer_list self) w) s)).
Proof.
  intros Hdbg Hb w. set (b := timer_list self).
  pose proof (apply_micro_before_insert b w _ _ _ _ _ _ _ _ Hb) as Hb1. set (s1 := apply (UMicro b w) s) in *.
  apply (crash_safe_intro (insert_state self x l r (uadd ln 1))).
  - unfold sorted_insert. destruct Hb as (_ & _ & _ & _ & Hl & _). performs_step.
    eapply performs_assign_bind; [done|]. by eapply performs_insert_again.
  - intros k. apply (insert_state_prefix _ _ _ _ _ []). by intros u ?%elem_of_nil.
  - intros ws Hst. fold b s1. split.
    { apply log_word_kept; [apply log_word_apply|]. intros v Hv. by apply insert_state_no_micro with (1 := Hst) in Hv. }
    destruct Hst as [Hc|(ws0 & ws1 & -> & Hc & Hi)].
    + exists (clear_upds x ++ insert_sorted_upds self x l r (uadd ln 1)). split_and!.
      * destruct (before_insert_clearing _ _ _ _ _ _ _ _ ws Hc Hb1) as (n' & Hb' & _).
        unfold recover_from_failed_insert_sorted. pose proof Hb' as (Hx' & Hn' & _).
        performs_step. rewrite Hn', bool_decide_eq_true_2 by done. by eapply performs_insert_again.
      * by rewrite (assoc_L app), apply_list_app, clearing_overwritten, <-apply_list_app.
      * intros k. by apply insert_state_prefix.
    + destruct (before_insert_clearing _ _ _ _ _ _ _ _ ws0 Hc Hb1) as (n' & Hb' & _).
      apply clear_ready in Hb'. pose proof Hb' as (_ & _ & _ & Hf & _).
      destruct (recover_inserting _ _ _ _ _ _ _ _ ws1 Hdbg Hb' Hi) as (vs & Hp & Hvs & Hsup & Hk).
      exists vs. split_and!.
      * by rewrite !apply_list_app.
      * rewrite <-(assoc_L app), apply_list_app, clearing_overwritten, (apply_list_covered (insert_sorted_upds self x l r (uadd ln 1)))
          by (by apply insert_sorted_upds_coherent || apply Hi || done).
        by rewrite apply_list_app.
      * intros k. right. exists ws0, (ws1 ++ take k vs). by rewrite (assoc_L app).
Qed.
End sorted_safe.
