(* ===== verification/PListBefore.v ===== *)
(** * Inserting before the cursor of a circular list

    [optimized_insert_before_cursor] and [recover_from_failed_insert_before_cursor]
    as sequences of assignments. *)

From S2P Require Import Prelude Arch PList PListUpd PListSeg.
Section insert_bc.
Context `{Arch} {P L V : Type} `{Countable P, Countable L}.
Implicit Types (s : lstore P L V) (n : Node P L V) (pl : PList P) (xs l r : list (P * V)).

(** The links made around a new node [x]: its predecessor and the cursor, if any. *)
Definition ring_links (self : L) (x : P) (at_ : option (P * P)) (hd : option P) : list (update P L) :=
  match at_ with
  | None => [UPrev x (Some x); UNext x (Some x); UCursor self (Some x); UHead self (Some x)]
  | Some (pc, c) =>
      [UPrev x (Some pc); UNext x (Some c); UNext pc (Some x); UPrev c (Some x)] ++
      (if bool_decide (Some c = hd) then [UHead self (Some x)] else [])
  end.
Definition insert_bc_upds (self : L) (x : P) (at_ : option (P * P)) (hd : option P) (ln : Z) : list (update P L) :=
  ring_links self x at_ hd ++ [ULen self ln].

(** The cursor of a list and the node before it. *)
Definition place s (x : P) pl (at_ : option (P * P)) : Prop :=
  match at_ with
  | None => cursor pl = None ∧ len pl = 0
  | Some (pc, c) =>
      cursor pl = Some c ∧ len pl ≠ 0 ∧ pc ≠ x ∧ c ≠ x ∧ is_Some (nodes s !! pc) ∧
      ∃ nc, nodes s !! c = Some nc ∧ prev nc = Some pc
  end.

Lemma performs_inc_len s self pl us :
  lists s !! self = Some pl → coherent us → CLen self ∉ cell_of <$> us →
  performs (inc_len self) (apply_list us s) [ULen self (uadd (len pl) 1)] tt.
Proof.
  intros Hl Hc Hn. destruct (rd_plist s self pl us Hl Hc) as (pl' & E & _ & _ & [[_ <-]|Hin]);
    [|by destruct Hn; apply cell_elem in Hin].
  unfold inc_len. performs_step. apply performs_assign. exists_target.
Qed.

Lemma ring_links_coherent self x at_ hd :
  match at_ with Some (pc, c) => pc ≠ x ∧ c ≠ x | None => True end → coherent (ring_links self x at_ hd).
Proof.
  intros Hx u w Hu Hw E. unfold ring_links in *.
  destruct at_ as [[pc c]|]; [case_bool_decide|]; set_unfold; naive_solver.
Qed.

Lemma ring_links_cells self x at_ hd :
  CLen self ∉ cell_of <$> ring_links self x at_ hd ∧ CList x ∉ cell_of <$> ring_links self x at_ hd.
Proof. unfold ring_links. destruct at_ as [[pc c]|]; [case_bool_decide|]; set_solver. Qed.

Lemma insert_bc_upds_coherent self x at_ hd ln :
  match at_ with Some (pc, c) => pc ≠ x ∧ c ≠ x | None => True end → coherent (insert_bc_upds self x at_ hd ln).
Proof.
  intros Hx u w Hu Hw E. unfold insert_bc_upds, ring_links in *.
  destruct at_ as [[pc c]|]; [case_bool_decide|]; set_unfold; naive_solver.
Qed.

Lemma place_ne s x pl at_ :
  place s x pl at_ → match at_ with Some (pc, c) => pc ≠ x ∧ c ≠ x | None => True end.
Proof. destruct at_ as [[??]|]; [intros (?&?&?&?&_)|]; done. Qed.

Lemma performs_insert_before_cursor_impl s self x n pl at_ :
  nodes s !! x = Some n → nlist n = None → lists s !! self = Some pl → place s x pl at_ →
  performs (optimized_insert_before_cursor_impl self x) s
    (UList x (Some self) :: insert_bc_upds self x at_ (head pl) (uadd (len pl) 1)) tt.
Proof.
  intros Hx Hn Hl Hat. unfold optimized_insert_before_cursor_impl, insert_bc_upds.
  performs_step. rewrite bool_decide_eq_false_2 by tauto.
  pose proof (ring_links_coherent self x at_ (head pl) (place_ne _ _ _ _ Hat)) as Hc.
  eapply performs_assign_bind; [exists_target|]. set (s2 := apply _ s).
  assert (Hl2 : lists s2 !! self = Some pl) by done.
  assert (Hx2 : nodes s2 !! x = Some (Build_Node (prev n) (next n) (Some self) (value n))).
  { unfold s2. cbn. by rewrite lookup_alter_eq, Hx. }
  assert (Hfr : ∀ y, y ≠ x → nodes s2 !! y = nodes s !! y) by (intros; by apply lookup_alter_ne).
  clearbody s2. destruct pl as [ln cur hd]. performs_step. cbn [cursor head len] in *.
  apply (performs_bind _ _ _ _ _ tt).
  - destruct at_ as [[pc c]|]; cbn [place ring_links] in *.
    + destruct Hat as (Ecur & _ & Hpc & Hcx & [npc Hnpc] & nc & Hnc & Epc). cbn in Ecur. subst cur.
      rewrite <-Hfr in Hnpc, Hnc by done. performs_step. rewrite Epc.
      eapply performs_assign_bind; [exists_target|]. performs_step. cbn [cursor].
      eapply performs_assign_bind; [exists_target|]. performs_step. cbn [prev nset_next nset_prev].
      cbn [unwrap_unchecked bind].
      eapply performs_assign_bind; [exists_target|]. eapply performs_assign_bind; [exists_target|].
      performs_step. cbn [cursor head]. case_bool_decide; [|apply performs_ret].
      apply performs_assign. exists_target.
    + destruct Hat as [Ecur _]. cbn in Ecur. subst cur.
      do 3 (eapply performs_assign_bind; [exists_target|]). apply performs_assign. exists_target.
  - apply (performs_inc_len _ _ _ _ Hl2 Hc), ring_links_cells.
Qed.

(** *** Recovery, once the node's [list] field is set *)

Definition inserting_bc (self : L) (x : P) (at_ : option (P * P)) (hd : option P) (ln : Z)
    (ws : list (update P L)) : Prop :=
  ws ⊆ insert_bc_upds self x at_ hd ln ∧
  match at_ with
  | Some (pc, c) => UPrev c (Some x) ∈ ws → [UPrev x (Some pc); UNext x (Some c); UNext pc (Some x)] ⊆ ws
  | None => True
  end.

Definition head_upds (self : L) (x c : P) (hd : option P) : list (update P L) :=
  if bool_decide (Some c = hd) then [UHead self (Some x)] else [].

Lemma performs_move_head s self x c pl us :
  lists s !! self = Some pl → cursor pl = Some c → 
  CCursor self ∉ cell_of <$> us → CHead self ∉ cell_of <$> us → coherent us →
  performs (let* pl := deref_list self in
            when (bool_decide (cursor pl = head pl)) (set_head self (Some x)))
    (apply_list us s) (head_upds self x c (head pl)) tt.
Proof.
  intros Hl Hcur Hnc Hnh Hc.
  destruct (rd_plist s self pl us Hl Hc) as (pl' & E & [[_ Ec]|Hin] & [[_ Eh]|Hin'] & _);
    [|by destruct Hnh; apply cell_elem in Hin'|by destruct Hnc; apply cell_elem in Hin..].
  performs_step. rewrite Ec, Eh, Hcur. unfold head_upds. case_bool_decide; [|apply performs_ret].
  apply performs_assign. exists_target.
Qed.

Lemma recover_bc_some s self x n pl pc c ws old :
  nodes s !! x = Some n → lists s !! self = Some pl → place s x pl (Some (pc, c)) →
  inserting_bc self x (Some (pc, c)) (head pl) (uadd old 1) ws → old ≠ 0 →
  ∃ vs, performs (recover_from_failed_insert_before_cursor self x old) (apply_list ws s) vs tt ∧
        vs ⊆ insert_bc_upds self x (Some (pc, c)) (head pl) (uadd old 1) ∧
        insert_bc_upds self x (Some (pc, c)) (head pl) (uadd old 1) ⊆ ws ++ vs ∧
        ∀ k, inserting_bc self x (Some (pc, c)) (head pl) (uadd old 1) (ws ++ take k vs).
Proof.
  intros Hx Hl (Ecur & Hlen & Hpc & Hcx & [npc Hnpc] & nc & Hnc & Epc) [Hws Hord] Hold.
  assert (Hc0 : coherent (insert_bc_upds self x (Some (pc, c)) (head pl) (uadd old 1))) by (by apply insert_bc_upds_coherent).
  pose proof (coherent_sub _ _ Hc0 Hws) as Hc.
  assert (Hcases : ∃ pl' nc', lists (apply_list ws s) !! self = Some pl' ∧ cursor pl' = Some c ∧
    nodes (apply_list ws s) !! c = Some nc' ∧
    ((head pl' = head pl ∧ CHead self ∉ cell_of <$> ws) ∨ (head pl' = Some x ∧ UHead self (Some x) ∈ ws)) ∧
    ((prev nc' = Some x ∧ UPrev c (Some x) ∈ ws) ∨ prev nc' = Some pc)).
  { destruct (rd_plist s self pl ws Hl Hc) as (pl' & E & Hcur & Hhd & _).
    destruct (rd_nodes s c nc ws Hnc Hc) as (nc' & E' & _ & Hp & _).
    exists pl', nc'. split; [done|]. unfold insert_bc_upds, ring_links in Hws.
    split_and!.
    - destruct Hcur as [[_ ->]|Hin%Hws]; [done|]. exfalso. clear - Hin. case_bool_decide; set_solver.
    - done.
    - destruct Hhd as [[? ->]|Hin]; [by left|right]. pose proof (Hws _ Hin) as Hin'.
      assert (head pl' = Some x) as E0 by (clear - Hin'; case_bool_decide; set_solver).
      by rewrite E0 in *.
    - destruct Hp as [[_ ->]|Hin]; [by right|left]. pose proof (Hws _ Hin) as Hin'.
      assert (prev nc' = Some x) as E0 by (clear - Hin' Hcx; case_bool_decide; set_unfold; naive_solver).
      by rewrite E0 in *. }
  destruct Hcases as (pl' & nc' & Hl' & Ecur' & Hnc' & Hhd & Hp').
  assert (Htail : head_upds self x c (head pl') ⊆ head_upds self x c (head pl) ∧ head_upds self x c (head pl) ⊆ ws ++ head_upds self x c (head pl')).
  { unfold head_upds. destruct Hhd as [[-> _]|[-> Hin]]; [set_solver|].
    rewrite (bool_decide_eq_false_2 (Some c = Some x)) by congruence. case_bool_decide; set_solver. }
  set (c' := apply_list ws s) in *.
  assert (Hnx : is_Some (nodes c' !! x)) by (unfold c'; rewrite nodes_is_Some; eauto).
  assert (Hnpc' : is_Some (nodes c' !! pc)) by (unfold c'; rewrite nodes_is_Some; eauto).
  clearbody c'. unfold recover_from_failed_insert_before_cursor.
  rewrite (proj2 (Z.eqb_neq _ _) Hold).
  destruct Hp' as [[Ep Hdone]|Ep].
  - exists (head_upds self x c (head pl') ++ [ULen self (uadd old 1)]). split; [|split_and!].
    + apply (performs_bind _ _ _ _ _ tt); [|apply performs_assign; exists_target].
      performs_step. rewrite Ecur'. cbn [unwrap_unchecked bind]. performs_step.
      rewrite bool_decide_eq_true_2 by done. cbn [bind skip].
      apply (performs_move_head c' self x c pl' []); [done..|clear; set_solver|clear; set_solver|by intros ? ? ?%elem_of_nil].
    + unfold insert_bc_upds, ring_links. fold (head_upds self x c (head pl)). clear - Htail. set_solver.
    + unfold insert_bc_upds, ring_links. fold (head_upds self x c (head pl)). specialize (Hord Hdone).
      clear - Htail Hord Hdone. set_solver.
    + intros k. split.
      * intros u [?|Hu%take_sub]%elem_of_app; [auto|]. unfold insert_bc_upds, ring_links.
        fold (head_upds self x c (head pl)). clear - Htail Hu. set_solver.
      * intros _ u Hu. apply elem_of_app. left. by apply Hord.
  - set (four := [UPrev x (Some pc); UNext x (Some c); UNext pc (Some x); UPrev c (Some x)] : list (update P L)).
    exists (four ++ head_upds self x c (head pl') ++ [ULen self (uadd old 1)]).
    assert (Hsub : four ++ head_upds self x c (head pl') ++ [ULen self (uadd old 1)]
                   ⊆ insert_bc_upds self x (Some (pc, c)) (head pl) (uadd old 1)).
    { unfold insert_bc_upds, ring_links. fold (head_upds self x c (head pl)) four. clear - Htail. set_solver. }
    split; [|split_and!].
    + rewrite (assoc_L app). apply (performs_bind _ _ _ _ _ tt); [|apply performs_assign; exists_target].
      performs_step. rewrite Ecur'. cbn [unwrap_unchecked bind]. performs_step.
      rewrite bool_decide_eq_false_2 by congruence. rewrite Ep.
      destruct Hnx as [nx Hnx], Hnpc' as [npc' Hnpc'].
      apply (performs_bind _ _ _ four _ tt).
      * unfold four. eapply performs_assign_bind; [exists_target|]. performs_step. rewrite Ecur'.
        eapply performs_assign_bind; [exists_target|]. performs_step. cbn [prev nset_next nset_prev unwrap_unchecked bind].
        eapply performs_assign_bind; [exists_target|]. apply performs_assign. exists_target.
      * apply (performs_move_head c' self x c pl' four); [done..|clear; set_solver|clear; set_solver|].
        eapply coherent_sub; [exact Hc0|]. clear - Hsub. set_solver.
    + done.
    + unfold insert_bc_upds, ring_links. fold (head_upds self x c (head pl)) four. clear - Htail. set_solver.
    + intros k. split.
      * intros u [?|Hu%take_sub]%elem_of_app; auto.
      * intros Hin. destruct (decide (k <= 3)%nat) as [Hk|Hk].
        -- apply elem_of_app in Hin as [Hin|Hin]; [by intros u ?%Hord; [apply elem_of_app; left|]|].
           destruct k as [|[|[|[|]]]]; [..|lia]; cbn in Hin; clear - Hin Hcx; set_unfold; naive_solver.
        -- destruct k as [|[|[|[|k]]]]; [lia..|]. clear. cbn. set_solver.
Qed.
End insert_bc.
