(* ===== verification/PListRing.v ===== *)
(** * The ready lists: insertion into a round *)

From S2P Require Import Prelude Arch PList PListUpd PListSeg PListRemove PListBefore.
Section ring_insert.
Context `{Arch} {P L V : Type} `{Countable P, Countable L}.
Implicit Types (s : lstore P L V) (n : Node P L V) (pl : PList P) (xs l r : list (P * V)).

Lemma recover_inserting_bc s self x n pl at_ ws :
  nodes s !! x = Some n → lists s !! self = Some pl → place s x pl at_ →
  inserting_bc self x at_ (head pl) (uadd (len pl) 1) ws →
  ∃ vs, performs (recover_from_failed_insert_before_cursor self x (len pl)) (apply_list ws s) vs tt ∧
        vs ⊆ insert_bc_upds self x at_ (head pl) (uadd (len pl) 1) ∧
        insert_bc_upds self x at_ (head pl) (uadd (len pl) 1) ⊆ ws ++ vs ∧
        ∀ k, inserting_bc self x at_ (head pl) (uadd (len pl) 1) (ws ++ take k vs).
Proof.
  intros Hx Hl Hat Hi. destruct at_ as [[pc c]|].
  - eapply recover_bc_some; [done..|]. by destruct Hat as (_ & ? & _).
  - destruct Hat as [_ E0], Hi as [Hws _]. exists (insert_bc_upds self x None (head pl) (uadd (len pl) 1)).
    split; [|split_and!; [done|clear; set_solver|]].
    + unfold recover_from_failed_insert_before_cursor. rewrite (proj2 (Z.eqb_eq _ _) E0).
      apply (performs_bind _ _ _ (ring_links self x None (head pl)) _ tt).
      * do 3 (eapply performs_assign_bind; [exists_target|]). apply performs_assign. exists_target.
      * apply performs_assign. exists_target.
    + intros k. split; [|done]. intros u [?|?%take_sub]%elem_of_app; auto.
Qed.

(** Where the insertion goes. *)
Definition ring_place xs : option (P * P) :=
  match first_or None xs, last_or None xs with Some c, Some pc => Some (pc, c) | _, _ => None end.

Lemma circular_place s self x v xs pl :
  circular s self xs → free s x v → lists s !! self = Some pl →
  place s x pl (ring_place xs) ∧ x ∉ xs.*1 ∧ cursor pl = first_or None xs ∧ len pl = Z.of_nat (length xs).
Proof.
  intros ((h & Hl & Hh) & Hs & Hnd) Hf Hl'. rewrite Hl in Hl'. simplify_eq.
  pose proof (free_fresh _ _ _ _ _ _ _ Hf Hs) as Hx. cbn. split_and!; try done.
  unfold ring_place. destruct xs as [|c xs]; [done|].
  cbn [first_or]. destruct (last_or None (c :: xs)) as [pc|] eqn:El;
    [|by destruct (last_or_Some c.1 xs) as [? E]; cbn in El; congruence].
  apply last_or_elem in El as El'. destruct El' as [Hpc|[? _]]; [|done].
  cbn [place cursor len]. split_and!; [done|cbn; lia|set_solver..|by eapply seg_is_Some|].
  destruct Hs as [E _]. cbn in *. eexists. split; [exact E|]. by cbn.
Qed.

(** The store after the insertion. *)
Definition bc_store s (self : L) (x : P) xs pl : lstore P L V :=
  apply_list (UList x (Some self) :: insert_bc_upds self x (ring_place xs) (head pl) (uadd (len pl) 1)) s.

Lemma bc_only_touches s self x xs pl :
  only_touches self (x :: xs.*1) s (bc_store s self x xs pl).
Proof.
  assert (Hat : match ring_place xs with Some (pc, c) => pc ∈ xs.*1 ∧ c ∈ xs.*1 | None => True end).
  { unfold ring_place. destruct (first_or None xs) eqn:Ef; [|done]. destruct (last_or None xs) eqn:El; [|done].
    apply first_or_elem in Ef as [?|[_ [=]]]. by apply last_or_elem in El as [?|[_ [=]]]. }
  apply only_touches_apply; unfold insert_bc_upds, ring_links; destruct (ring_place xs) as [[pc c]|];
    try case_bool_decide; clear -Hat; set_unfold; naive_solver.
Qed.

(** Closing the ring around the new node. *)
Lemma ring_seg_insert (m : gmap P (Node P L V)) self x n xs pc c :
  seg m self (last_or None xs) xs (first_or None xs) → NoDup xs.*1 → x ∉ xs.*1 → m !! x = Some n →
  first_or None xs = Some c → last_or None xs = Some pc →
  seg (alter (nset_prev (Some x)) c (alter (nset_next (Some x)) pc
        (alter (nset_next (Some c)) x (alter (nset_prev (Some pc)) x (alter (nset_list (Some self)) x m)))))
    self (Some x) (xs ++ [(x, value n)]) (Some c).
Proof.
  intros Hs Hnd Hx Hn Ef El. destruct xs as [|[c' vc] xs]; [done|]. cbn in Ef. simplify_eq.
  assert (Hpc : pc ∈ ((c, vc) :: xs).*1) by (by apply last_or_elem in El as [?|[]]).
  assert (c ≠ x ∧ pc ≠ x) as [Hcx Hpx] by (split; [set_solver|by intros ->]).
  apply seg_app. split.
  - cbn [first_or fst]. apply (seg_set_prev _ _ (Some pc) xs (c, vc)); [by inversion Hnd|].
    destruct (exists_last (l := (c, vc) :: xs)) as (ys & [z vz] & E); [done|].
    rewrite E in *. rewrite last_or_snoc in *. cbn in El. simplify_eq.
    apply (seg_set_next _ _ _ ys (pc, vz) (Some c)).
    + rewrite fmap_app, NoDup_app in Hnd. destruct Hnd as (_ & Hd & _). intros Hin. apply (Hd _ Hin). constructor.
    + repeat (apply seg_alter_ne; [done|]). rewrite <-E in *. exact Hs.
  - split; [|done]. cbn [fst snd first_or]. rewrite lookup_alter_ne, lookup_alter_ne by done.
    rewrite !lookup_alter_eq, Hn. cbn. do 2 f_equal. cbn in El. rewrite El. done.
Qed.

Lemma bc_contents s self x v xs pl :
  circular s self xs → free s x v → lists s !! self = Some pl →
  Z.of_nat (length xs) + 1 < usize_mod →
  circular (bc_store s self x xs pl) self (xs ++ [(x, v)]).
Proof.
  intros Hcirc Hf Hl Hlen.
  destruct (circular_place _ _ _ _ _ _ Hcirc Hf Hl) as (_ & Hx & Ecur & Elen).
  destruct Hcirc as ((h & Hl' & Hh) & Hs & Hnd). rewrite Hl in Hl'. simplify_eq. cbn in *.
  destruct Hf as (n & Hn & _ & <-).
  assert (Hnd' : NoDup (xs ++ [(x, value n)]).*1).
  { rewrite fmap_app. apply NoDup_app. split; [done|]. split; [|by apply NoDup_singleton].
    intros y Hy ->%list_elem_of_singleton. done. }
  assert (Hlen' : uadd (Z.of_nat (length xs)) 1 = Z.of_nat (length (xs ++ [(x, value n)]))).
  { rewrite uadd_small, length_app by lia. cbn. lia. }
  split; [|split; [|done]].
  - unfold bc_store, insert_bc_upds, ring_links, ring_place. cbn [len head]. rewrite Hlen'.
    destruct xs as [|c xs].
    + destruct Hh as [[_ ->]|(? & _ & ?%elem_of_nil)]; [|done].
      exists (Some x). cbn. rewrite !lookup_alter_eq, Hl. cbn. split; [done|right]. exists x. split; [done|constructor].
    + destruct Hh as [[? _]|(y & -> & Hy)]; [done|].
      destruct (last_or_Some c.1 xs) as [pc Epc]. cbn [first_or last_or]. rewrite Epc.
      case_bool_decide as Eh; cbn; rewrite ?lookup_alter_eq, Hl; cbn; eexists; (split; [done|right]).
      * exists x. split; [done|]. rewrite fmap_app. set_solver.
      * exists y. split; [done|]. rewrite fmap_app. set_solver.
  - unfold bc_store, insert_bc_upds, ring_links, ring_place. cbn [len head].
    rewrite last_or_snoc, first_or_app. cbn [fst first_or].
    destruct xs as [|c xs].
    + cbn. rewrite !lookup_alter_eq, Hn. done.
    + destruct (last_or_Some c.1 xs) as [pc Epc]. cbn [first_or last_or]. rewrite Epc.
      pose proof (ring_seg_insert (nodes s) self x n (c :: xs) pc c.1 Hs Hnd Hx Hn eq_refl Epc) as Hr.
      case_bool_decide; exact Hr.
Qed.

Lemma inserting_bc_prefix (self : L) (x : P) at_ hd ln k :
  match at_ with Some (pc, c) => pc ≠ x ∧ c ≠ x | None => True end →
  inserting_bc self x at_ hd ln (take k (insert_bc_upds self x at_ hd ln)).
Proof.
  intros Hat. split; [apply take_sub|]. destruct at_ as [[pc c]|]; [|done]. intros Hin.
  unfold insert_bc_upds, ring_links in *. cbn [app] in *.
  destruct k as [|[|[|[|k]]]]; cbn [take] in *; [..|clear; set_solver];
    destruct Hat; set_unfold; naive_solver.
Qed.

Lemma insert_bc_no_micro (self : L) (x : P) at_ hd ln b v : UMicro b v ∉ insert_bc_upds self x at_ hd ln.
Proof.
  unfold insert_bc_upds, ring_links. destruct at_ as [[pc c]|]; [case_bool_decide|]; set_solver.
Qed.

Lemma micro_circular b w s self xs : circular s self xs → circular (apply (UMicro b w) s) self xs.
Proof. by destruct b. Qed.
Lemma micro_free b w s x v : free s x v → free (apply (UMicro b w) s) x v.
Proof. by destruct b. Qed.
Lemma micro_only_touches b w self ps s s' :
  only_touches self ps (apply (UMicro b w) s) s' → only_touches self ps s s'.
Proof. by destruct b. Qed.

Context (timer_list : L → bool).

(** An operation on the circular list [self] that takes its contents from [xs]
    to [ys], writing other nodes in [ps] only, and that is rolled forward
    by [rec] from every store a power failure leaves but those of [lost]. *)
Definition ring_operation (self : L) (op : ListOpCode) (p rec : prog (lstore P L V) unit)
    (ps : list P) ys s (lost : lstore P L V → Prop) : Prop :=
  ∃ s' J, exec p s = Done tt s' ∧ circular s' self ys ∧ only_touches self ps s s' ∧
    (∀ c, c ∈ crash_states p s → c = s ∨ lost c ∨ J c) ∧
    ∃ pl, lists s !! self = Some pl ∧
      rolls_forward (timer_list self) (encode_micro op (len pl)) rec s' J.

(** The store in which only the operation has been logged. *)
Definition only_logged (self : L) (op : ListOpCode) (n : nat) s : lstore P L V :=
  apply (UMicro (timer_list self) (encode_micro op (Z.of_nat n))) s.

(** C39: [insert_before_cursor] makes the new node the last of the round and touches
    nothing else; a power failure after the node's [list] field is set is rolled
    forward to the same store. *)
Theorem insert_before_cursor_correct s self x v xs :
  circular s self xs → free s x v → Z.of_nat (length xs) + 1 < usize_mod →
  ring_operation self InsertBeforeCursor (optimized_insert_before_cursor timer_list self x)
    (recover_from_failed_insert_before_cursor self x (Z.of_nat (length xs)))
    (x :: xs.*1) (xs ++ [(x, v)]) s (λ c, c = only_logged self InsertBeforeCursor (length xs) s).
Proof.
  intros Hcirc Hf Hlen. pose proof Hcirc as ((h & Hl & _) & _). set (pl := Build_PList _ _ _) in Hl.
  set (b := timer_list self). set (w := encode_micro InsertBeforeCursor (Z.of_nat (length xs))).
  apply (micro_circular b w) in Hcirc as Hcirc1. apply (micro_free b w) in Hf as Hf1.
  change (apply (UMicro b w) s) with (only_logged self InsertBeforeCursor (length xs) s) in *.
  set (s1 := only_logged self InsertBeforeCursor (length xs) s) in *.
  assert (Hl1 : lists s1 !! self = Some pl) by (unfold s1, only_logged; by destruct (timer_list self)).
  destruct (circular_place _ _ _ _ _ _ Hcirc1 Hf1 Hl1) as (Hat & _).
  destruct Hf1 as (n & Hn & Hnl & Hv). set (us := insert_bc_upds self x (ring_place xs) h (uadd (Z.of_nat (length xs)) 1)).
  assert (Hperf : performs (optimized_insert_before_cursor timer_list self x) s (UMicro b w :: UList x (Some self) :: us) tt).
  { unfold optimized_insert_before_cursor. performs_step. eapply performs_assign_bind; [done|].
    by apply (performs_insert_before_cursor_impl s1 self x n pl). }
  set (s2 := apply (UList x (Some self)) s1).
  assert (Hn2 : nodes s2 !! x = Some (nset_list (Some self) n)) by
    (change (alter (nset_list (Some self)) x (nodes s1) !! x = Some (nset_list (Some self) n)); by rewrite lookup_alter_eq, Hn).
  assert (Hat2 : place s2 x pl (ring_place xs)).
  { destruct (ring_place xs) as [[pc c]|]; [|done].
    destruct Hat as (? & ? & ? & ? & ? & nc & ? & ?). cbn [place].
    split_and!; try done; [by apply (nodes_is_Some [UList x (Some self)] s1)|].
    exists nc. split; [|done]. change (alter (nset_list (Some self)) x (nodes s1) !! c = Some nc). by rewrite lookup_alter_ne. }
  exists (apply_list us s2), (after s2 (inserting_bc self x (ring_place xs) h (uadd (Z.of_nat (length xs)) 1))).
  split; [by apply performs_exec in Hperf|]. split; [|split; [|split]].
  - apply (bc_contents s1 self x v xs pl); [done| |done..]. exists n. done.
  - eapply micro_only_touches. apply (bc_only_touches s1 self x xs pl).
  - intros c Hc. apply Hperf in Hc as ([|[|k]] & _ & ->);
      [left; reflexivity|right; left; reflexivity|right; right].
    exists (take k us). split; [|done]. apply inserting_bc_prefix. by eapply place_ne.
  - exists pl. split; [done|]. apply rolls_forward_intro. intros ws Hws. split.
    { apply log_word_kept; [change (log_word b (apply (UMicro b w) s) = w); apply log_word_apply|]. intros u Hu%Hws. by apply insert_bc_no_micro in Hu. }
    destruct (recover_inserting_bc s2 self x _ pl _ ws Hn2 Hl1 Hat2 Hws) as (vs & Hp & Hvs & Hsup & Hk).
    exists vs. split_and!; [done| |done]. apply apply_list_covered; [|apply Hws|done..].
    apply insert_bc_upds_coherent. by eapply place_ne.
Qed.

Lemma ring_place_links (self : L) (x : P) at_ hd ln :
  ∃ y, UNext y (Some x) ∈ insert_bc_upds self x at_ hd ln ∧ (y = x ∨ ∃ c, at_ = Some (y, c)).
Proof.
  unfold insert_bc_upds, ring_links. destruct at_ as [[pc c]|].
  - exists pc. split; [set_solver|eauto].
  - exists x. split; [set_solver|eauto].
Qed.

(** When power fails right after the insertion has been logged, recovery links
    the node but leaves its [list] field empty: the node is in the round, and a
    removal does nothing. *)
Theorem insert_before_cursor_recovery_incomplete s self x v xs :
  circular s self xs → free s x v → Z.of_nat (length xs) + 1 < usize_mod →
  only_logged self InsertBeforeCursor (length xs) s ∈ crash_states (optimized_insert_before_cursor timer_list self x) s ∧
  ∃ c', exec (recover_from_failed_insert_before_cursor self x (Z.of_nat (length xs)))
          (only_logged self InsertBeforeCursor (length xs) s) = Done tt c' ∧
    (nlist <$> nodes c' !! x) = Some None ∧ (len <$> lists c' !! self) = Some (Z.of_nat (S (length xs))) ∧
    (∃ y, (next <$> nodes c' !! y) = Some (Some x)) ∧
    ∃ s'', exec (optimized_remove timer_list self x) c' = Done tt s'' ∧ nodes s'' = nodes c' ∧ lists s'' = lists c'.
Proof.
  intros Hcirc Hf Hlen. pose proof Hcirc as ((h & Hl & _) & _). set (pl := Build_PList _ _ _) in Hl.
  set (s1 := only_logged self InsertBeforeCursor (length xs) s).
  assert (Hcirc1 : circular s1 self xs) by by apply micro_circular.
  assert (Hf1 : free s1 x v) by by apply micro_free.
  assert (Hl1 : lists s1 !! self = Some pl) by (unfold s1, only_logged; by destruct (timer_list self)).
  split.
  { unfold optimized_insert_before_cursor, deref_list. cbn. rewrite Hl. cbn. right. apply crash_states_start. }
  destruct (circular_place _ _ _ _ _ _ Hcirc1 Hf1 Hl1) as (Hat & _).
  destruct Hf1 as (n & Hn & Hnl & Hv). set (us := insert_bc_upds self x (ring_place xs) h (uadd (Z.of_nat (length xs)) 1)).
  assert (Hcoh : coherent us) by (apply insert_bc_upds_coherent; by eapply place_ne).
  destruct (recover_inserting_bc s1 self x n pl (ring_place xs) [] Hn Hl1 Hat) as (vs & Hp & Hvs & Hsup & _).
  { split; [by intros ? ?%elem_of_nil|]. by destruct (ring_place xs) as [[??]|]; [intros ?%elem_of_nil|]. }
  exists (apply_list vs s1). split; [by apply performs_exec in Hp|].
  assert (E0 : apply_list vs s1 = apply_list us s1).
  { apply (apply_list_covered us [] vs s1 Hcoh); [by intros ? ?%elem_of_nil|done..]. }
  rewrite E0. clear E0.
  clear vs Hp Hvs Hsup. destruct (ring_place_links self x (ring_place xs) h (uadd (Z.of_nat (length xs)) 1)) as (y & Hy & Hyx).
  pose proof (rd_list_ne (CList x) us s1) as Hrl.
  pose proof (rd_list_eq (ULen self (uadd (Z.of_nat (length xs)) 1)) us s1 Hcoh) as Hrn.
  pose proof (rd_list_eq (UNext y (Some x)) us s1 Hcoh Hy) as Hry. 
  cbn [rd cell_of val_of target_exists] in *.
  rewrite bool_decide_eq_true_2 in Hry by (destruct Hyx as [->|(c & E)]; [eauto|rewrite E in Hat; by destruct Hat as (_ & _ & _ & _ & ? & _)]).
  rewrite bool_decide_eq_true_2 in Hrn by eauto. rewrite Hn in Hrl.
  specialize (Hrn ltac:(unfold us, insert_bc_upds; set_solver) eq_refl). specialize (Hry ltac:(by vm_compute)).
  set (c' := apply_list us s1) in *. clearbody c'.
  destruct (nodes c' !! x) as [n'|] eqn:En'; [|cbn in Hrl; exfalso].
  2:{ discriminate Hrl. unfold us, insert_bc_upds. rewrite fmap_app. pose proof (ring_links_cells self x (ring_place xs) h). set_solver. }
  assert (Hnl' : nlist n' = None).
  { cbn in Hrl. rewrite Hnl in Hrl. injection Hrl; [done|].
    unfold us, insert_bc_upds. rewrite fmap_app. pose proof (ring_links_cells self x (ring_place xs) h). set_solver. }
  destruct (lists c' !! self) as [pl'|] eqn:El'; [|done]. cbn in Hrn. 
  split_and!.
  - cbn. by rewrite Hnl'.
  - cbn. injection Hrn as ->. rewrite uadd_small by lia. f_equal. lia.
  - exists y. destruct (nodes c' !! y) as [ny|]; [|done]. cbn in *. by injection Hry as ->.
  - unfold optimized_remove, optimized_remove_impl, start_op_log, assign, deref, deref_list. cbn. rewrite El'. cbn.
    destruct (timer_list self); cbn; rewrite En'; cbn; rewrite bool_decide_eq_true_2 by done;
      eexists; (split; [reflexivity|done]).
Qed.
End ring_insert.

Module example.
#[local] Existing Instances cortex_m.

(** Node 1 alone in the round of list 7, and node 2, which is free. *)
Definition ring : lstore nat nat Z :=
  Build_lstore (<[1%nat := Build_Node (Some 1%nat) (Some 1%nat) (Some 7%nat) 5]>
                (<[2%nat := Build_Node None None None 9]> ∅))
    (<[7%nat := Build_PList 1 (Some 1%nat) (Some 1%nat)]> ∅) 0 0.

Lemma ring_circular : circular ring 7%nat [(1%nat, 5)].
Proof.
  split; [|split; [by split|by apply NoDup_singleton]].
  exists (Some 1%nat). split; [done|right]. exists 1%nat. split; [done|constructor].
Qed.

Lemma ring_free : free ring 2%nat 9.
Proof. by eexists. Qed.

Lemma insert_before_cursor_correct_witness :
  circular ring 7%nat [(1%nat, 5)] ∧ free ring 2%nat 9 ∧
  ring_operation (λ _, false) 7%nat InsertBeforeCursor (optimized_insert_before_cursor (λ _, false) 7%nat 2%nat)
    (recover_from_failed_insert_before_cursor 7%nat 2%nat 1)
    [2%nat; 1%nat] [(1%nat, 5); (2%nat, 9)] ring (λ c, c = only_logged (λ _, false) 7%nat InsertBeforeCursor 1 ring).
Proof.
  split; [exact ring_circular|]. split; [exact ring_free|].
  exact (insert_before_cursor_correct (λ _, false) ring 7%nat 2%nat 9 [(1%nat, 5)] ring_circular ring_free ltac:(by vm_compute)).
Defined.

Lemma insert_before_cursor_recovery_incomplete_witness :
  circular ring 7%nat [(1%nat, 5)] ∧ free ring 2%nat 9 ∧
  ∃ c', exec (recover_from_failed_insert_before_cursor 7%nat 2%nat 1)
          (only_logged (λ _, false) 7%nat InsertBeforeCursor 1 ring) = Done tt c' ∧
    (nlist <$> nodes c' !! 2%nat) = Some None.
Proof.
  split; [exact ring_circular|]. split; [exact ring_free|].
  destruct (insert_before_cursor_recovery_incomplete (λ _, false) ring 7%nat 2%nat 9 [(1%nat, 5)]
    ring_circular ring_free ltac:(by vm_compute)) as (_ & c' & E & En & _).
  exists c'. split; [exact E|exact En].
Defined.
End example.
