(* ===== verification/PListRound.v ===== *)
(** * The ready lists: removal from a round and round robin *)

From S2P Require Import Prelude Arch PList PListUpd PListSeg PListRemove PListRing.
Section round.
Context `{Arch} {P L V : Type} `{Countable P, Countable L}.
Implicit Types (s : lstore P L V) (n : Node P L V) (pl : PList P) (xs l r : list (P * V)).

(** The neighbours of the node between [l] and [r] in a round. *)
Definition ring_prev (l r : list (P * V)) : option P := last_or (last_or None r) l.
Definition ring_next (l r : list (P * V)) : option P := first_or (first_or None l) r.

Lemma ring_mid s self l x r :
  circular s self (l ++ x :: r) → l ++ r ≠ [] →
  nodes s !! x.1 = Some (Build_Node (ring_prev l r) (ring_next l r) (Some self) x.2) ∧
  neighbours s x.1 (ring_prev l r) (ring_next l r).
Proof.
  intros (_ & Hs & Hnd) Hne. pose proof (seg_mid _ _ _ _ _ _ _ Hs) as Hx.
  assert (Ep : last_or (last_or None (l ++ x :: r)) l = ring_prev l r ).
  { unfold ring_prev. destruct l as [|y l]; [|done]. destruct r as [|z r]; done. }
  assert (En : first_or (first_or None (l ++ x :: r)) r = ring_next l r).
  { unfold ring_next. destruct r as [|z r]; [|done]. by destruct l. }
  rewrite Ep, En in Hx. split; [done|].
  intros p Hp. assert (Hin : p ∈ (l ++ r).*1).
  { rewrite fmap_app, elem_of_app. unfold ring_prev, ring_next in Hp.
    destruct Hp as [[?|[-> [?|[-> [=]]]%last_or_elem]]%last_or_elem|[?|[-> [?|[-> [=]]]%first_or_elem]]%first_or_elem]; auto. }
  split.
  - eapply seg_is_Some; [exact Hs|]. rewrite fmap_app in *. set_solver.
  - intros ->. rewrite fmap_app in Hnd, Hin. apply NoDup_app in Hnd as (_ & Hd & Hnd). cbn in Hnd.
    apply NoDup_cons in Hnd as [Hnd _]. apply elem_of_app in Hin as [Hin|Hin]; [|done].
    apply (Hd _ Hin). constructor.
Qed.

(** Closing the gap that [x] leaves. *)
Lemma ring_seg_remove (m : gmap P (Node P L V)) self l x r p q :
  seg m self (last_or None (l ++ x :: r)) (l ++ x :: r) (first_or None (l ++ x :: r)) →
  NoDup (l ++ x :: r).*1 → ring_prev l r = Some p → ring_next l r = Some q →
  seg (alter (nset_list None) x.1 (alter (nset_prev (Some p)) q (alter (nset_next (Some q)) p m)))
    self (last_or None (l ++ r)) (l ++ r) (first_or None (l ++ r)).
Proof.
  intros Hs Hnd Ep Eq. assert (Hx : x.1 ∉ (l ++ r).*1).
  { rewrite fmap_app, NoDup_app in Hnd. cbn in Hnd. rewrite NoDup_cons in Hnd.
    rewrite fmap_app. set_solver. }
  apply seg_alter_ne; [done|].
  rewrite last_or_app, first_or_app in *. cbn [last_or first_or] in Hs.
  rewrite seg_app in Hs. destruct Hs as (Hl & _ & Hr). cbn [first_or fst] in *.
  rewrite fmap_app, NoDup_app in Hnd. destruct Hnd as (Hndl & Hd & Hndr). cbn in Hndr, Hd.
  apply NoDup_cons in Hndr as [_ Hndr]. unfold ring_prev, ring_next in *.
  destruct l as [|y l]; [|destruct r as [|z r]].
  - cbn [app first_or last_or] in *. rewrite Ep, Eq.
    apply (seg_set_first _ _ (Some x.1)); [done..|]. by eapply seg_set_last.
  - rewrite app_nil_r. cbn [first_or last_or] in *.
    simplify_eq. rewrite Ep. apply (seg_set_first _ _ (Some x.1)); [done..|].
    by apply (seg_set_last m self _ (y :: l) (Some x.1)).
  - rewrite seg_app. cbn [first_or last_or fst] in *. simplify_eq.
    assert (Hp : p ∈ (y :: l).*1) by (apply last_or_elem in Ep as [?|[-> [= <-]]]; [by constructor|constructor]).
    assert (Hz : z.1 ∉ (y :: l).*1) by (intros Hz; apply (Hd _ Hz); right; constructor).
    split.
    + apply seg_alter_ne; [done|].       by apply (seg_set_last m self _ (y :: l) (Some x.1)).
    + rewrite Ep. apply (seg_set_first _ _ (Some x.1)); [done..|]. apply seg_alter_ne; [|done].
      intros Hp'. apply (Hd _ Hp). by right.
Qed.

Lemma remove_nodes s self x p q cur hd ln :
  nodes (apply_list (remove_upds self x (Some p) (Some q) cur hd ln) s) =
  alter (nset_list None) x (alter (nset_prev (Some p)) q (alter (nset_next (Some q)) p (nodes s))).
Proof.
  unfold remove_upds. rewrite !apply_list_app. cbn. f_equal. by rewrite move_upds_nodes.
Qed.

Lemma ring_ends l r : l ++ r ≠ [] → ∃ p q, ring_prev l r = Some p ∧ ring_next l r = Some q.
Proof.
  unfold ring_prev, ring_next. intros Hne. destruct l as [|y l], r as [|z r]; [done|..];
    cbn [first_or last_or]; try (destruct (last_or_Some z.1 r) as [? ->]);
    try (destruct (last_or_Some y.1 l) as [? ->]); eauto.
Qed.

Lemma ring_ends_elem l r p : ring_prev l r = Some p ∨ ring_next l r = Some p → p ∈ (l ++ r).*1.
Proof.
  rewrite fmap_app, elem_of_app. unfold ring_prev, ring_next.
  intros [[?|[-> [?|[-> [=]]]%last_or_elem]]%last_or_elem|[?|[-> [?|[-> [=]]]%first_or_elem]]%first_or_elem]; auto.
Qed.

Lemma ring_remove_touches s self x l r cur hd ln :
  only_touches self (x :: l ++ r).*1 s
    (apply_list (remove_upds self x.1 (ring_prev l r) (ring_next l r) cur hd ln) s).
Proof.
  pose proof (ring_ends_elem l r) as He.
  apply only_touches_apply; unfold remove_upds, unlink_upds, move_upds;
    destruct (ring_prev l r) as [p|], (ring_next l r) as [q|]; do 2 case_bool_decide;
    cbn [fmap list_fmap]; intros u y Hu Hy; cbn [app] in Hu;
    repeat (apply elem_of_cons in Hu as [->|Hu]; [cbn in Hy; simplify_eq; try done; set_solver|]);
    by apply elem_of_nil in Hu.
Qed.

Lemma ring_remove_contents s self x l r h w b :
  circular s self (l ++ x :: r) → l ++ r ≠ [] → Z.of_nat (length (l ++ x :: r)) < usize_mod →
  lists s !! self = Some (Build_PList (Z.of_nat (length (l ++ x :: r))) (first_or None (l ++ x :: r)) h) →
  circular (apply_list (remove_upds self x.1 (ring_prev l r) (ring_next l r) (first_or None (l ++ x :: r)) h
             (usub (Z.of_nat (length (l ++ x :: r))) 1)) (apply (UMicro b w) s)) self (l ++ r).
Proof.
  intros Hcirc Hne Hlen Hl. apply (micro_circular b w) in Hcirc.
  assert (Hl1 : lists (apply (UMicro b w) s) !! self = lists s !! self) by by destruct b.
  rewrite Hl in Hl1. set (s1 := apply (UMicro b w) s) in *. clearbody s1. clear s Hl.
  destruct (ring_ends l r Hne) as (p & q & Ep & Eq).
  destruct Hcirc as ((h' & Hl' & Hh) & Hs & Hnd). rewrite Hl1 in Hl'. simplify_eq.
  assert (Hlen2 : usub (Z.of_nat (length (l ++ x :: r))) 1 = Z.of_nat (length (l ++ r))).
  { rewrite length_app in *. cbn in *. rewrite usub_small, length_app by lia. lia. }
  split; [|split].
  - eexists. split.
    + erewrite remove_lists by done. rewrite Hlen2. do 2 f_equal.
      rewrite !first_or_app. cbn [first_or]. destruct l as [|y l]; cbn [first_or] in *.
      * rewrite bool_decide_eq_true_2 by done. unfold ring_next. by destruct r.
      * rewrite bool_decide_eq_false_2; [done|]. intros [= E]. cbn in Hnd.
        apply NoDup_cons in Hnd as [Hnd _]. apply Hnd. rewrite E, fmap_app. set_solver.
    + right. destruct Hh as [[? _]|(y & -> & Hy)]; [by destruct l|]. case_bool_decide.
      * rewrite Eq. exists q. split; [done|]. apply ring_ends_elem. by right.
      * exists y. split; [done|]. rewrite fmap_app in *. set_solver.
  - rewrite Ep, Eq, remove_nodes. by apply ring_seg_remove.
  - rewrite fmap_app in *. cbn in Hnd. rewrite NoDup_app in *. rewrite NoDup_cons in Hnd. set_solver.
Qed.

Context (timer_list : L → bool).

(** Removing a node from a round of at least two keeps the order of the others
    and moves the cursor on if it was there; recovery completes a removal that a
    power failure interrupts. *)
Theorem ring_remove_correct s self x l r :
  circular s self (l ++ x :: r) → l ++ r ≠ [] → Z.of_nat (length (l ++ x :: r)) < usize_mod →
  ring_operation timer_list self OpRemove (optimized_remove timer_list self x.1)
    (recover_from_failed_remove self x.1 (Z.of_nat (length (l ++ x :: r))))
    (x :: l ++ r).*1 (l ++ r) s (λ _, False).
Proof.
  intros Hcirc Hne Hlen. destruct (ring_mid _ _ _ _ _ Hcirc Hne) as [Hx Hnb].
  pose proof Hcirc as ((h & Hl & Hh) & Hs & Hnd). set (pl := Build_PList _ _ _) in Hl.
  assert (Hlen2 : Z.of_nat (length (l ++ x :: r)) = Z.of_nat (length (l ++ r)) + 1) by (rewrite !length_app; cbn; lia).
  assert (Hlen1 : 0 < Z.of_nat (length (l ++ r))) by (destruct (l ++ r); [done|cbn; lia]).
  destruct (remove_crash_safe timer_list s self x.1 _ pl Hx Hl Hnb) as [Hex (J & HJ & Hroll)]; [done|cbn; lia..|].
  cbn [prev next cursor head len pl] in *. set (s' := apply_list _ _) in *.
  exists s', J. split; [done|]. split; [|split; [|split]].
  - by apply ring_remove_contents.
  - eapply micro_only_touches. apply ring_remove_touches.
  - intros c Hc. destruct (HJ c Hc); auto.
  - exists pl. by split.
Qed.

Lemma next_rotates s self x xs :
  circular s self (x :: xs) →
  ∃ s', exec (plist_next self) s = Done (Some (default x (hd_error xs)).2) s' ∧
    circular s' self (xs ++ [x]) ∧ nodes s' = nodes s ∧ (∀ k, k ≠ self → lists s' !! k = lists s !! k) ∧
    ∀ c, c ∈ crash_states (plist_next self) s → c = s ∨ c = s'.
Proof.
  intros ((h & Hl & Hh) & Hs & Hnd). destruct Hs as [Hx Hs'] eqn:E. clear E.
  assert (Hp : performs (plist_next self) s [UCursor self (Some (default x (hd_error xs)).1)] (Some (default x (hd_error xs)).2)).
  { unfold plist_next. performs_step. cbn [cursor first_or]. performs_step. cbn [next].
    assert (Efirst : first_or (first_or None (x :: xs)) xs = Some (default x (hd_error xs)).1) by by destruct xs.
    rewrite Efirst. eapply performs_assign_bind; [exists_target|]. performs_step. cbn [cursor value_at].
    destruct xs as [|y xs]; cbn [hd_error default from_option id] in *.
    - performs_step. apply performs_ret.
    - destruct Hs' as [Hy _]. performs_step. apply performs_ret. }
  pose proof (performs_exec _ _ _ _ Hp) as Hex. destruct Hp as [_ Hcr].
  eexists. split; [exact Hex|]. split; [|split; [done|split]].
  - split; [|split].
    + exists h. cbn. rewrite lookup_alter_eq, Hl. cbn. split.
      * rewrite length_app. cbn. replace (Z.of_nat (length xs + 1)) with (Z.of_nat (S (length xs))) by lia.
        do 2 f_equal. by destruct xs.
      * right. destruct Hh as [[? _]|(y & -> & Hy)]; [done|]. exists y. split; [done|].
        rewrite fmap_app. set_solver.
    + cbn [apply_list apply nodes with_lists]. rewrite last_or_snoc, first_or_app. apply seg_app.
      split; [done|]. split; [|done]. rewrite Hx. cbn. by destruct xs.
    + by rewrite fmap_app, (comm app).
  - intros k Hne. cbn. by apply lookup_alter_ne.
  - intros c Hc. destruct (Hcr c Hc) as ([|[|k]] & Hk & ->); [by left|by right|cbn in Hk; lia].
Qed.

(** The removal of the only node of a round leaves the round empty, but when
    power fails right after it has been logged, recovery leaves a round of length
    0 whose cursor and head still point to the removed node. *)
Theorem ring_remove_last s self x :
  circular s self [x] →
  (∃ s', exec (optimized_remove timer_list self x.1) s = Done tt s' ∧ circular s' self [] ∧
         (nlist <$> nodes s' !! x.1) = Some None) ∧
  ∃ c, c ∈ crash_states (optimized_remove timer_list self x.1) s ∧ c = only_logged timer_list self OpRemove 1 s ∧
    ∃ c', exec (recover_from_failed_remove self x.1 1) c = Done tt c' ∧
      lists c' !! self = Some (Build_PList 0 (Some x.1) (Some x.1)) ∧ (nlist <$> nodes c' !! x.1) = Some None.
Proof.
  intros ((h & Hl & Hh) & [Hx _] & _). cbn in *. destruct Hh as [[? _]|(y & -> & ->%list_elem_of_singleton)]; [done|].
  set (b := timer_list self). unfold only_logged. fold b. set (w := encode_micro OpRemove _). set (s1 := apply (UMicro b w) s).
  assert (Hl1 : lists s1 !! self = Some (Build_PList 1 (Some x.1) (Some x.1))) by (unfold s1; by destruct b).
  assert (Hx1 : nodes s1 !! x.1 = Some (Build_Node (Some x.1) (Some x.1) (Some self) x.2)) by (unfold s1; by destruct b).
  assert (Hlen : usub 1 1 = 0) by (apply usub_small; split; [done|apply usize_mod_pos]).
  split.
  - assert (Hp : performs (optimized_remove timer_list self x.1) s
      [UMicro b w; UCursor self None; UHead self None; ULen self (usub 1 1); UList x.1 None] tt).
    { unfold optimized_remove. performs_step. eapply performs_assign_bind; [done|].
      fold b. change (len _) with 1. fold w s1. by eapply performs_remove_single. }
    apply performs_exec in Hp. rewrite Hlen in Hp. eexists. split; [exact Hp|].
    change (apply_list (_ :: ?us) s) with (apply_list us s1). clearbody s1.
    cbn. rewrite !lookup_alter_eq, Hx1. split; [|done].
    split; [|split; [done|constructor]]. exists None. cbn. rewrite !lookup_alter_eq, Hl1. split; [done|by left].
  - exists s1. split; [|split; [done|]].
    + unfold optimized_remove, deref_list. cbn. rewrite Hl. cbn. right. apply crash_states_start.
    + clearbody s1.
      assert (Hp : performs (recover_from_failed_remove self x.1 1) s1
        [UNext x.1 (Some x.1); UPrev x.1 (Some x.1); UCursor self (Some x.1); UHead self (Some x.1);
         ULen self (usub 1 1); UList x.1 None] tt).
      { unfold recover_from_failed_remove.
        apply (performs_bind _ _ _ [UNext x.1 (Some x.1); UPrev x.1 (Some x.1)] _ tt).
        { unfold unlink. performs_step. eapply (performs_bind _ _ _ [_]); repeat performs_step. }
        apply (performs_bind _ _ _ [UCursor self (Some x.1); UHead self (Some x.1)] _ tt).
        { eapply performs_eq.
          - eapply performs_move_cursor_head; [|done]. cbn. by rewrite !lookup_alter_eq, Hx1.
          - unfold move_upds. cbn. by rewrite bool_decide_eq_true_2. }
        eapply performs_assign_bind; [exists_target|]. apply performs_assign. exists_target. }
      apply performs_exec in Hp. rewrite Hlen in Hp. eexists. split; [exact Hp|].
      cbn. rewrite !lookup_alter_eq, Hl1, Hx1. done.
Qed.

(** [next] gives the round's second value and makes its node the first: repeated
    calls visit the nodes in turn (round robin). *)
Theorem plist_next_rotates s self x xs :
  circular s self (x :: xs) →
  ∃ s', exec (plist_next self) s = Done (Some (default x (hd_error xs)).2) s' ∧
    circular s' self (xs ++ [x]) ∧ nodes s' = nodes s ∧ (∀ k, k ≠ self → lists s' !! k = lists s !! k) ∧
    ∀ c, c ∈ crash_states (plist_next self) s → c = s ∨ c = s'.
Proof. apply next_rotates. Qed.
End round.

Module example.
#[local] Existing Instances cortex_m.

(** Nodes 1 and 2 in the round of list 7, and node 3 in the round of list 8. *)
Definition rounds : lstore nat nat Z :=
  Build_lstore (<[1%nat := Build_Node (Some 2%nat) (Some 2%nat) (Some 7%nat) 5]>
                (<[2%nat := Build_Node (Some 1%nat) (Some 1%nat) (Some 7%nat) 9]>
                (<[3%nat := Build_Node (Some 3%nat) (Some 3%nat) (Some 8%nat) 4]> ∅)))
    (<[7%nat := Build_PList 2 (Some 1%nat) (Some 2%nat)]>
    (<[8%nat := Build_PList 1 (Some 3%nat) (Some 3%nat)]> ∅)) 0 0.

Lemma rounds_two : circular rounds 7%nat [(1%nat, 5); (2%nat, 9)].
Proof.
  split; [|split; [by split; [|split]|apply NoDup_cons; split; [set_solver|by apply NoDup_singleton]]].
  exists (Some 2%nat). split; [done|right]. exists 2%nat. split; [done|set_solver].
Qed.

Lemma rounds_one : circular rounds 8%nat [(3%nat, 4)].
Proof.
  split; [|split; [by split|by apply NoDup_singleton]].
  exists (Some 3%nat). split; [done|right]. exists 3%nat. split; [done|constructor].
Qed.

Lemma ring_remove_correct_witness :
  circular rounds 7%nat [(1%nat, 5); (2%nat, 9)] ∧
  ring_operation (λ _, false) 7%nat OpRemove (optimized_remove (λ _, false) 7%nat 1%nat)
    (recover_from_failed_remove 7%nat 1%nat 2) [1%nat; 2%nat] [(2%nat, 9)] rounds (λ _, False).
Proof.
  split; [exact rounds_two|].
  exact (ring_remove_correct (λ _, false) rounds 7%nat (1%nat, 5) [] [(2%nat, 9)] rounds_two ltac:(done) ltac:(by vm_compute)).
Defined.

Lemma ring_remove_last_witness :
  circular rounds 8%nat [(3%nat, 4)] ∧
  ∃ s', exec (optimized_remove (λ _, false) 8%nat 3%nat) rounds = Done tt s' ∧ circular s' 8%nat [].
Proof.
  split; [exact rounds_one|].
  destruct (ring_remove_last (λ _, false) rounds 8%nat (3%nat, 4) rounds_one) as [(s' & E & Hc & _) _].
  exists s'. split; [exact E|exact Hc].
Defined.

Lemma plist_next_rotates_witness :
  circular rounds 7%nat [(1%nat, 5); (2%nat, 9)] ∧
  ∃ s', exec (plist_next 7%nat) rounds = Done (Some 9) s' ∧ circular s' 7%nat [(2%nat, 9); (1%nat, 5)].
Proof.
  split; [exact rounds_two|].
  destruct (plist_next_rotates (λ _, false) rounds 7%nat (1%nat, 5) [(2%nat, 9)] rounds_two) as (s' & E & Hc & _).
  exists s'. split; [exact E|exact Hc].
Defined.
End example.
