(* ===== verification/PListLinear.v ===== *)
(** * Linear lists: the delay list, the wait lists and the timer list

    What each operation does to the contents, what it leaves alone, and that it
    survives power failures. *)

From Stdlib Require Import Sorting.Sorted.
From S2P Require Import Prelude Arch PList PListUpd PListSeg PListRemove PListPop PListFront PListSorted PListSortedRec PListSortedSafe.
Section contents.
Context `{Arch} {P L V : Type} `{Countable P, Countable L}.
Implicit Types (s : lstore P L V) (n : Node P L V) (pl : PList P) (xs l r : list (P * V)).

Lemma micro_linear b w s self xs : linear s self xs → linear (apply (UMicro b w) s) self xs.
Proof. by destruct b. Qed.

Lemma micro_touches b w self ps s s' :
  only_touches self ps (apply (UMicro b w) s) s' → only_touches self ps s s'.
Proof. by destruct b. Qed.

Lemma linear_hd s self x xs :
  linear s self (x :: xs) →
  nodes s !! x.1 = Some (Build_Node None (first_or None xs) (Some self) x.2) ∧
  ∀ p, first_or None xs = Some p → is_Some (nodes s !! p) ∧ p ≠ x.1.
Proof.
  intros (_ & [Hx Hs] & Hnd). split; [done|]. intros p Hp. cbn in Hnd. apply NoDup_cons in Hnd as [Hnd _].
  apply first_or_elem in Hp as [Hp|[_ [=]]]. split; [by eapply seg_is_Some|]. by intros ->.
Qed.

Lemma pop_contents s self x xs :
  linear s self (x :: xs) → Z.of_nat (S (length xs)) < usize_mod →
  linear (apply_list (pop_upds self x.1 (first_or None xs) None (usub (Z.of_nat (S (length xs))) 1)) s) self xs.
Proof.
  intros (Hl & [Hx Hs] & Hnd) Hlen. cbn in Hnd. apply NoDup_cons in Hnd as [Hxn Hnd].
  unfold pop_upds, detach_upds. rewrite bool_decide_eq_false_2 by done.
  assert (Hln : usub (Z.of_nat (S (length xs))) 1 = Z.of_nat (length xs)) by (rewrite usub_small; lia).
  rewrite Hln. split; [|split; [|done]].
  - destruct xs as [|y ys]; cbn; rewrite !lookup_alter_eq, Hl; done.
  - destruct xs as [|y ys]; [done|]. cbn [first_or apply_list apply nodes with_nodes with_lists app].
    apply seg_alter_ne; [done|]. by eapply seg_set_first.
Qed.

Lemma insert_front_contents s self x v xs :
  linear s self xs → free s x v → Z.of_nat (length xs) + 1 < usize_mod →
  linear (apply_list (insert_front_upds self x (first_or None xs) (uadd (Z.of_nat (length xs)) 1)) s) self ((x, v) :: xs).
Proof.
  intros (Hl & Hs & Hnd) Hf Hlen. pose proof (free_fresh _ _ _ _ _ _ _ Hf Hs) as Hx.
  destruct Hf as (n & Hn & _ & <-).
  assert (Hln : uadd (Z.of_nat (length xs)) 1 = Z.of_nat (S (length xs))) by (rewrite uadd_small; lia).
  unfold insert_front_upds, push_upds, push_body. rewrite Hln. split; [|split].
  - destruct xs; cbn; rewrite !lookup_alter_eq, Hl; done.
  - destruct xs as [|y ys]; cbn [first_or apply_list apply nodes with_nodes with_lists app].
    + split; [|done]. cbn. by rewrite !lookup_alter_eq, Hn.
    + assert (Hyx : y.1 ≠ x) by set_solver. split.
      * cbn. rewrite lookup_alter_eq, lookup_alter_ne by done. by rewrite !lookup_alter_eq, Hn.
      * apply seg_alter_ne; [done|]. eapply seg_set_first; [done..|]. by repeat apply seg_alter_ne.
  - cbn. by apply NoDup_cons.
Qed.

Lemma linear_mid s self l x r :
  linear s self (l ++ x :: r) →
  nodes s !! x.1 = Some (Build_Node (last_or None l) (first_or None r) (Some self) x.2) ∧
  neighbours s x.1 (last_or None l) (first_or None r).
Proof.
  intros (_ & Hs & Hnd). pose proof (seg_mid _ _ _ _ _ _ _ Hs) as Hx. split; [done|].
  intros p Hp. assert (Hin : p ∈ (l ++ r).*1).
  { rewrite fmap_app, elem_of_app. destruct Hp as [[?|[_ [=]]]%last_or_elem|[?|[_ [=]]]%first_or_elem]; auto. }
  split.
  - eapply seg_is_Some; [exact Hs|]. rewrite fmap_app in *. set_solver.
  - intros ->. rewrite fmap_app in Hnd, Hin. apply NoDup_app in Hnd as (_ & Hd & Hnd). cbn in Hnd.
    apply NoDup_cons in Hnd as [Hnd _]. apply elem_of_app in Hin as [Hin|Hin]; [|done].
    apply (Hd _ Hin). constructor.
Qed.

(** The only node: moving the cursor, which is already null, changes nothing. *)
Lemma performs_remove_only s self x n :
  nodes s !! x = Some n → nlist n ≠ None → lists s !! self = Some (Build_PList 1 None (Some x)) →
  performs (optimized_remove_impl self x) s
    (remove_upds self x None None None (Some x) (usub 1 1)) tt.
Proof.
  intros Hx Hn Hl. unfold remove_upds, unlink_upds, move_upds.
  rewrite bool_decide_eq_false_2, bool_decide_eq_true_2 by done. cbn [app].
  apply (performs_noop _ _ (UCursor self None)); [by eapply performs_remove_single|].
  destruct s as [m ls mi ti]. cbn in *. unfold with_lists. cbn. f_equal. apply map_eq. intros k.
  destruct (decide (k = self)) as [->|?]; [by rewrite lookup_alter_eq, Hl|by rewrite lookup_alter_ne].
Qed.

Lemma linear_remove_contents s self l x r ln :
  linear s self (l ++ x :: r) → ln = Z.of_nat (length (l ++ r)) →
  linear (apply_list (remove_upds self x.1 (last_or None l) (first_or None r) None
    (first_or None (l ++ x :: r)) ln) s) self (l ++ r).
Proof.
  intros (Hl & Hs & Hnd) ->. 
  assert (x.1 ∉ (l ++ r).*1 ∧ NoDup l.*1 ∧ NoDup r.*1 ∧ NoDup (l ++ r).*1 ∧ ∀ y, y ∈ l.*1 → y ∉ r.*1) as (Hxn & Hnl & Hnr & Hnlr & Hd).
  { rewrite !fmap_app in *. cbn in Hnd. rewrite NoDup_app, NoDup_cons in Hnd. rewrite NoDup_app. set_solver. }
  split; [|split; [|done]].
  - erewrite remove_lists by done.
    do 2 f_equal. rewrite !first_or_app. cbn [first_or]. destruct l as [|y l]; cbn [first_or].
    + by rewrite bool_decide_eq_true_2.
    + rewrite bool_decide_eq_false_2; [done|]. intros [= E]. apply Hxn. rewrite <-E. set_solver.
  - unfold remove_upds. rewrite !apply_list_app. cbn [apply_list apply nodes with_nodes with_lists].
    apply seg_alter_ne; [done|]. rewrite move_upds_nodes.
    apply seg_app in Hs as (Hsl & _ & Hsr). cbn [first_or] in Hsl.
    rewrite seg_app. split.
    + assert (Hgoal : seg (nodes (apply_list (match last_or None l with Some p => [UNext p (first_or None r)] | None => [] end) s)) self None l (first_or None r)).
      { destruct (last_or None l) as [p|] eqn:El; cbn; [by eapply seg_set_last|].
        destruct l as [|y l]; [done|]. by destruct (last_or_Some y.1 l) as [? E]; cbn in El; congruence. }
      unfold unlink_upds. rewrite apply_list_app. destruct (first_or None r) as [q|] eqn:Er; [|done].
      cbn. apply seg_alter_ne; [|done]. apply first_or_elem in Er as [Hq|[_ [=]]]. intros Hql. by apply (Hd q).
    + unfold unlink_upds. rewrite apply_list_app.
      assert (Hgoal : seg (nodes (apply_list (match last_or None l with Some p => [UNext p (first_or None r)] | None => [] end) s)) self (Some x.1) r None).
      { destruct (last_or None l) as [p|] eqn:El; cbn; [|done]. apply seg_alter_ne; [|done].
        apply last_or_elem in El as [Hp|[_ [=]]]. by apply Hd. }
      destruct (first_or None r) as [q|] eqn:Er; [by eapply seg_set_first|]. by destruct r.
Qed.

Lemma insert_sorted_contents s self x n l r ln :
  linear s self (l ++ r) → nodes s !! x = Some n → x ∉ (l ++ r).*1 → ln = Z.of_nat (length (l ++ r)) + 1 →
  linear (apply_list (clear_upds x ++ insert_sorted_upds self x l r ln) s) self (l ++ (x, value n) :: r).
Proof.
  intros (Hl & Hs & Hnd) Hn Hx ->.
  assert (NoDup (l ++ (x, value n) :: r).*1 ∧ NoDup l.*1 ∧ NoDup r.*1 ∧ (∀ y, y ∈ l.*1 → y ∉ r.*1) ∧ x ∉ l.*1 ∧ x ∉ r.*1)
    as (Hnd' & Hnl & Hnr & Hd & Hxl & Hxr).
  { rewrite !fmap_app in *. cbn. rewrite !NoDup_app, NoDup_cons in *. set_solver. }
  rewrite seg_app in Hs. destruct Hs as [Hsl Hsr].
  assert (Hlast : ∀ p, last_or None l = Some p → p ≠ x ∧ p ∉ r.*1).
  { intros p [Hp|[_ [=]]]%last_or_elem. split; [by intros ->|by apply Hd]. }
  split; [|split; [|done]].
  - assert (Hlen : Z.of_nat (length (l ++ r)) + 1 = Z.of_nat (length (l ++ (x, value n) :: r))) by (rewrite !length_app; cbn; lia).
    rewrite Hlen. unfold insert_sorted_upds, link_upds. rewrite first_or_app. cbn [first_or fst].
    destruct l as [|y l]; [|destruct (last_or_Some y.1 l) as [e Ee]]; cbn [last_or];
      rewrite ?Ee; destruct r as [|z r]; cbn; rewrite ?lookup_alter_eq, Hl; done.
  - apply seg_app. split.
    + cbn [first_or fst]. unfold insert_sorted_upds, link_upds. destruct (last_or None l) as [p|] eqn:El.
      * destruct r as [|z r]; cbn [apply_list apply nodes with_nodes with_lists app clear_upds].
        -- eapply seg_set_last; [done..|]. by repeat apply seg_alter_ne.
        -- eapply seg_set_last; [done..|]. apply seg_alter_ne; [|by repeat apply seg_alter_ne].
           intros Hz. apply (Hd _ Hz). constructor.
      * destruct l as [|y l]; [done|]. by destruct (last_or_Some y.1 l) as [? E]; cbn in El; congruence.
    + cbn [last_or first_or fst]. split.
      * unfold insert_sorted_upds, link_upds. cbn [fst snd].
        destruct (last_or None l) as [p|] eqn:El, r as [|z r]; cbn [first_or fst];
          try (destruct (Hlast p eq_refl)); try (assert (z.1 ≠ x) by (intros <-; apply Hxr; constructor));
          cbn; rewrite ?lookup_alter_eq, ?lookup_alter_ne by done; rewrite ?lookup_alter_eq, ?lookup_alter_ne by done;
          rewrite ?lookup_alter_eq, Hn; done.
      * unfold insert_sorted_upds, link_upds. destruct r as [|z r]; [done|].
        cbn [first_or] in Hsl. destruct (last_or None l) as [p|] eqn:El;
          cbn [apply_list apply nodes with_nodes with_lists app clear_upds].
        -- destruct (Hlast p eq_refl). apply seg_alter_ne; [done|]. eapply seg_set_first; [done..|]. by repeat apply seg_alter_ne.
        -- eapply seg_set_first; [done..|]. by repeat apply seg_alter_ne.
Qed.
End contents.

Section linear_lists.
Context `{Arch} {P L V : Type} `{Countable P, Countable L}.
Context (gt : V → V → bool) (timer_list : L → bool).
Implicit Types (s : lstore P L V) (n : Node P L V) (pl : PList P) (xs l r : list (P * V)).

(** An operation on the linear list [self] that returns [a], takes its contents to
    [ys], writes other nodes in [ps] only and is rolled forward by [rec]
    from every store that a power failure leaves. *)
Definition linear_operation {A} (self : L) (op : ListOpCode) (p : prog (lstore P L V) A)
    (rec : prog (lstore P L V) unit) (a : A) (ps : list P) ys s : Prop :=
  ∃ s' pl, lists s !! self = Some pl ∧
    crash_safe (timer_list self) (encode_micro op (len pl)) p rec s a s' ∧
    linear s' self ys ∧ only_touches self ps s s'.

(** [pop_front] takes the first node off the list. *)
Theorem pop_front_correct s self x xs :
  linear s self (x :: xs) → Z.of_nat (S (length xs)) < usize_mod →
  linear_operation self PopFront (optimized_pop_front timer_list self)
    (recover_from_failed_pop_front timer_list self x.1 (Z.of_nat (S (length xs))))
    (Some x.1) (x :: xs).*1 xs s.
Proof.
  intros Hlin Hlen. pose proof (linear_hd _ _ _ _ Hlin) as [Hx Hnb]. pose proof Hlin as (Hl & _).
  eexists _, _. split; [exact Hl|]. split; [|split].
  - by apply (pop_front_crash_safe timer_list s self x.1 _ _ Hx Hl).
  - cbn [cursor len next]. apply pop_contents; [by apply micro_linear|done].
  - eapply micro_touches. cbn [cursor len next]. unfold pop_upds, detach_upds.
    rewrite bool_decide_eq_false_2 by done. destruct xs as [|y ys]; touches.
Qed.

(** On an empty list it returns nothing and changes nothing. *)
Lemma pop_front_empty s self :
  linear s self [] → exec (optimized_pop_front timer_list self) s = Done None s ∧
  crash_states (optimized_pop_front timer_list self) s = [s].
Proof.
  intros (Hl & _). unfold optimized_pop_front, deref_list. cbn. rewrite Hl. done.
Qed.

(** [insert_front] (release and debug build) puts the node in front. *)
Theorem insert_front_correct s self x v xs :
  linear s self xs → free s x v → Z.of_nat (length xs) + 1 < usize_mod →
  linear_operation self InsertFront (optimized_insert_front timer_list self x)
    (recover_from_failed_insert_front self x (Z.of_nat (length xs)))
    tt (x :: xs.*1) ((x, v) :: xs) s.
Proof.
  intros Hlin Hf Hlen. pose proof Hlin as (Hl & Hs & _). pose proof Hf as (n & Hn & Hnl & _).
  pose proof (free_fresh _ _ _ _ _ _ _ Hf Hs) as Hx.
  eexists _, _. split; [exact Hl|]. split; [|split].
  - apply (insert_front_crash_safe timer_list s self x n (Build_PList _ _ _)); [done..| |done].
    split; [eauto|]. cbn. intros p [Hp|[_ [=]]]%first_or_elem. split; [by eapply seg_is_Some|by intros ->].
  - cbn [head len]. apply insert_front_contents; [by apply micro_linear|by destruct (timer_list self)|done].
  - eapply micro_touches. cbn [head len]. unfold insert_front_upds, push_upds, push_body.
    destruct xs as [|y ys]; touches.
Qed.

(** *** Removal from a linear list *)

(** The assignments of a removal and the contents that they leave. *)
Lemma linear_remove_performs s self l x r :
  linear s self (l ++ x :: r) → Z.of_nat (length (l ++ x :: r)) < usize_mod →
  let ln := Z.of_nat (length (l ++ x :: r)) in
  let us := remove_upds self x.1 (last_or None l) (first_or None r) None (first_or None (l ++ x :: r)) (usub ln 1) in
  let s1 := apply (UMicro (timer_list self) (encode_micro OpRemove ln)) s in
  performs (optimized_remove_impl self x.1) s1 us tt ∧ linear (apply_list us s1) self (l ++ r).
Proof.
  intros Hlin Hlen. destruct (linear_mid _ _ _ _ _ Hlin) as [Hx Hnb]. pose proof Hlin as (Hl & _).
  assert (Hlen2 : Z.of_nat (length (l ++ x :: r)) = Z.of_nat (length (l ++ r)) + 1) by (rewrite !length_app; cbn; lia).
  split; [|apply linear_remove_contents; [by apply micro_linear|]; rewrite usub_small; lia].
  destruct (decide (l ++ r = [])) as [[-> ->]%app_eq_nil|Hne].
  - cbn. eapply performs_remove_only; destruct (timer_list self); cbn; done.
  - apply (performs_optimized_remove_impl _ self x.1 (Build_Node (last_or None l) (first_or None r) (Some self) x.2)
      (Build_PList (Z.of_nat (length (l ++ x :: r))) None (first_or None (l ++ x :: r))));
      [destruct (timer_list self); exact Hx|destruct (timer_list self); exact Hl|by destruct (timer_list self)|done|cbn..].
    + destruct (l ++ r); [done|]. cbn in Hlen2 |- *. lia.
    + lia.
Qed.

(** Removal takes a node out of a linear list, wherever it is. *)
Theorem linear_remove_correct s self l x r :
  linear s self (l ++ x :: r) → Z.of_nat (length (l ++ x :: r)) < usize_mod →
  linear_operation self OpRemove (optimized_remove timer_list self x.1)
    (recover_from_failed_remove self x.1 (Z.of_nat (length (l ++ x :: r))))
    tt (x :: l ++ r).*1 (l ++ r) s.
Proof.
  intros Hlin Hlen. destruct (linear_mid _ _ _ _ _ Hlin) as [Hx Hnb]. pose proof Hlin as (Hl & _).
  destruct (linear_remove_performs s self l x r Hlin Hlen) as [Hp Hc].
  eexists _, _. split; [exact Hl|]. split; [|split; [exact Hc|]].
  - by apply (remove_crash_safe_upds timer_list s self x.1 _ _ Hx Hl Hnb).
  - eapply micro_touches. cbn [prev next cursor head len].
    assert (He : ∀ p, last_or None l = Some p ∨ first_or None r = Some p → p ∈ (l ++ r).*1).
    { intros p. rewrite fmap_app, elem_of_app. intros [[?|[_ [=]]]%last_or_elem|[?|[_ [=]]]%first_or_elem]; auto. }
    unfold remove_upds, unlink_upds, move_upds.
    destruct (last_or None l), (first_or None r); do 2 case_bool_decide; touches.
Qed.

(** *** Insertion into a sorted list *)

(** The order of the values of a sorted list. *)
Definition ascending xs : Prop := Sorted (λ a b, gt a b = false) xs.*2.

Lemma split_gt_sorted v xs l r x :
  (∀ a b, gt a b = true → gt b a = false) → ascending xs → split_gt gt v xs = (l, r) → ascending (l ++ (x, v) :: r).
Proof.
  intros Has. unfold ascending. revert l r; induction xs as [|y ys IH]; intros l r Hs E.
  - cbn in E. simplify_eq. cbn. by repeat constructor.
  - rewrite split_gt_cons in E. destruct (gt v y.2) eqn:Eg.
    + destruct (split_gt gt v ys) as [l' r'] eqn:E'. simplify_eq. cbn in Hs |- *.
      inversion Hs as [|? ? Hs' Hh]; subst. constructor; [by apply IH|].
      apply split_gt_app in E'. destruct l' as [|z l']; cbn.
      * constructor. by apply Has.
      * subst ys. cbn in Hh. apply HdRel_inv in Hh. by constructor.
    + simplify_eq. cbn in Hs |- *. constructor; [done|by constructor].
Qed.

Lemma sorted_insert_spec s self op x v xs l r :
  debug_assertions = false → linear s self xs → free s x v → Z.of_nat (length xs) + 1 < usize_mod →
  split_gt gt v xs = (l, r) →
  linear_operation self op (sorted_insert gt timer_list self op x)
    (recover_from_failed_insert_sorted gt self x (Z.of_nat (length xs)))
    tt (x :: xs.*1) (l ++ (x, v) :: r) s.
Proof.
  intros Hdbg Hlin Hf Hlen E. pose proof Hlin as (Hl & Hs & Hnd). pose proof Hf as (n & Hn & Hnl & Hv).
  pose proof (free_fresh _ _ _ _ _ _ _ Hf Hs) as Hx. pose proof (split_gt_app _ _ _ _ _ E) as ->.
  eexists _, _. split; [exact Hl|]. split; [|split].
  - apply (sorted_insert_crash_safe gt timer_list s self op x n l r _ None Hdbg).
    split_and!; try done. by rewrite Hv.
  - rewrite <-Hv. apply insert_sorted_contents; [by apply micro_linear|by destruct (timer_list self)|done|].
    cbn [len]. rewrite uadd_small; lia.
  - eapply micro_touches. assert (He : ∀ p, last_or None l = Some p → p ∈ l.*1).
    { by intros p [?|[_ [=]]]%last_or_elem. }
    unfold insert_sorted_upds, link_upds, clear_upds. rewrite fmap_app.
    destruct (last_or None l), r; touches.
Qed.

(** C38: [SortedPList::insert] (release build) puts the node in front of the first
    node whose value is not smaller, so that the list stays ascending. *)
Theorem sorted_insert_correct s self op x v xs :
  debug_assertions = false → (∀ a b, gt a b = true → gt b a = false) →
  linear s self xs → ascending xs → free s x v → Z.of_nat (length xs) + 1 < usize_mod →
  ∃ l r, xs = l ++ r ∧ ascending (l ++ (x, v) :: r) ∧
    linear_operation self op (sorted_insert gt timer_list self op x)
      (recover_from_failed_insert_sorted gt self x (Z.of_nat (length xs)))
      tt (x :: xs.*1) (l ++ (x, v) :: r) s.
Proof.
  intros Hdbg Has Hlin Hasc Hf Hlen. destruct (split_gt gt v xs) as [l r] eqn:E.
  exists l, r. split; [by eapply split_gt_app|]. split; [by eapply split_gt_sorted|]. by apply sorted_insert_spec.
Qed.
End linear_lists.

Module example.
#[local] Existing Instances cortex_m.

(** Nodes 1 and 2 in list 7, in ascending order, and node 3, which is free. *)
Definition sorted : lstore nat nat Z :=
  Build_lstore (<[1%nat := Build_Node None (Some 2%nat) (Some 7%nat) 5]>
                (<[2%nat := Build_Node (Some 1%nat) None (Some 7%nat) 9]>
                (<[3%nat := Build_Node None None None 7]> ∅)))
    (<[7%nat := Build_PList 2 None (Some 1%nat)]> ∅) 0 0.

Lemma sorted_linear : linear sorted 7%nat [(1%nat, 5); (2%nat, 9)].
Proof.
  split; [done|]. split; [by split; [|split]|]. apply NoDup_cons; split; [set_solver|by apply NoDup_singleton].
Qed.

Lemma sorted_free : free sorted 3%nat 7.
Proof. by eexists. Qed.

Lemma pop_front_correct_witness :
  linear sorted 7%nat [(1%nat, 5); (2%nat, 9)] ∧
  linear_operation (λ _, false) 7%nat PopFront (optimized_pop_front (λ _, false) 7%nat)
    (recover_from_failed_pop_front (λ _, false) 7%nat 1%nat 2) (Some 1%nat) [1%nat; 2%nat] [(2%nat, 9)] sorted.
Proof.
  split; [exact sorted_linear|].
  exact (pop_front_correct (λ _, false) sorted 7%nat (1%nat, 5) [(2%nat, 9)] sorted_linear ltac:(by vm_compute)).
Defined.

Lemma insert_front_correct_witness :
  linear sorted 7%nat [(1%nat, 5); (2%nat, 9)] ∧ free sorted 3%nat 7 ∧
  linear_operation (λ _, false) 7%nat InsertFront (optimized_insert_front (λ _, false) 7%nat 3%nat)
    (recover_from_failed_insert_front 7%nat 3%nat 2) tt [3%nat; 1%nat; 2%nat]
    [(3%nat, 7); (1%nat, 5); (2%nat, 9)] sorted.
Proof.
  split; [exact sorted_linear|]. split; [exact sorted_free|].
  exact (insert_front_correct Z.gtb (λ _, false) sorted 7%nat 3%nat 7 _ sorted_linear sorted_free ltac:(by vm_compute)).
Defined.

Lemma linear_remove_correct_witness :
  linear sorted 7%nat [(1%nat, 5); (2%nat, 9)] ∧
  linear_operation (λ _, false) 7%nat OpRemove (optimized_remove (λ _, false) 7%nat 2%nat)
    (recover_from_failed_remove 7%nat 2%nat 2) tt [2%nat; 1%nat] [(1%nat, 5)] sorted.
Proof.
  split; [exact sorted_linear|].
  exact (linear_remove_correct (λ _, false) sorted 7%nat [(1%nat, 5)] (2%nat, 9) [] sorted_linear ltac:(by vm_compute)).
Defined.

Lemma sorted_insert_correct_witness :
  linear sorted 7%nat [(1%nat, 5); (2%nat, 9)] ∧ ascending Z.gtb [(1%nat, 5); (2%nat, 9)] ∧ free sorted 3%nat 7 ∧
  ∃ l r, [(1%nat, 5); (2%nat, 9)] = l ++ r ∧ ascending Z.gtb (l ++ (3%nat, 7) :: r).
Proof.
  assert (Hasc : ascending Z.gtb [(1%nat, 5); (2%nat, 9)]) by (repeat constructor).
  split; [exact sorted_linear|]. split; [exact Hasc|]. split; [exact sorted_free|].
  assert (Has : ∀ a b, Z.gtb a b = true → Z.gtb b a = false) by (intros a b; lia).
  destruct (sorted_insert_correct Z.gtb (λ _, false) sorted 7%nat InsertSortedDelayList 3%nat 7 _ ltac:(done) Has
    sorted_linear Hasc sorted_free ltac:(by vm_compute)) as (l & r & E & Hs & _).
  exists l, r. split; [exact E|exact Hs].
Defined.
End example.
