(* ===== verification/PListJournal.v ===== *)
(** * Lists on the undo journal (the operations of [list.rs] without [opt_list])

    Without the feature [opt_list] the kernel logs every node and every list before
    it writes to it, and rolls back. A record of the journal is here the object it
    saves; [PmemSpec] is about its bytes. *)

From S2P Require Import Prelude Arch PList PListUpd.

(** A saved object. *)
Inductive object (P L V : Type) := ONode (p : P) (n : Node P L V) | OList (l : L) (pl : PList P).
Arguments ONode {P L V} p n.
Arguments OList {P L V} l pl.

(** The lists with the journal: the newest record first, and the bytes left. *)
Record jstore (P L V : Type) `{Countable P, Countable L} := {
  jl : lstore P L V;
  saved : list (object P L V);
  room : nat;
}.
Arguments jl {P L V _ _ _ _} _.
Arguments saved {P L V _ _ _ _} _.
Arguments room {P L V _ _ _ _} _.
Arguments Build_jstore {P L V _ _ _ _} _ _ _.

#[export] Instance jl_lens {P L V} `{Countable P, Countable L} : Lens (lstore P L V) (jstore P L V) :=
  {| lget := jl; lset := λ s j, Build_jstore s (saved j) (room j) |}.
#[export] Instance jl_lens_laws {P L V} `{Countable P, Countable L} : LensLaws (lstore P L V) (jstore P L V).
Proof. by split; try done; intros []. Qed.

Section journaled.
Context `{Arch} {P L V : Type} `{Countable P, Countable L}.
Context (gt : V → V → bool).
(** The bytes of a record of a node and of a list. *)
Context (node_cost list_cost : nat).
#[local] Abbreviation store := (jstore P L V).

Definition on_store {A} (p : prog (lstore P L V) A) : prog store A := zoom p.

(** [create_log]: the journal panics when it is full. *)
Definition save (o : object P L V) (cost : nat) : prog store unit :=
  let* j := get in
  assert_ (cost <=? room j)%nat;;;
  modify (λ j, Build_jstore (jl j) (o :: saved j) (room j - cost)).
(** [PMPtr::as_mut] of a node, [PMVar::borrow_mut] of a list *)
Definition node_mut (p : P) : prog store (Node P L V) :=
  let* n := on_store (deref p) in
  save (ONode p n) node_cost;;;
  Ret n.
Definition list_mut (l : L) : prog store unit :=
  let* pl := on_store (deref_list l) in
  save (OList l pl) list_cost.

Definition insert_before_cursor_impl (self : L) (node : P) : prog store unit :=
  let* n := on_store (deref node) in
  assert_ (negb debug_assertions || bool_decide (nlist n = None));;;
  on_store (set_list node (Some self));;;
  let* l := on_store (deref_list self) in
  match cursor l with
  | None =>
      on_store (set_prev node (Some node));;;
      on_store (set_next node (Some node));;;
      on_store (set_cursor self (Some node));;;
      on_store (set_head self (Some node))
  | Some ptr =>
      let* c := node_mut ptr in
      on_store (set_prev node (prev c));;;
      let* l := on_store (deref_list self) in
      on_store (set_next node (cursor l));;;
      on_store (set_prev ptr (Some node));;;
      let* n := on_store (deref node) in
      let* p := unwrap (prev n) in
      node_mut p;;;
      on_store (set_next p (Some node));;;
      let* l := on_store (deref_list self) in
      when (bool_decide (cursor l = head l)) (on_store (set_head self (Some node)))
  end;;;
  on_store (inc_len self).
Definition insert_before_cursor (self : L) (link : P) : prog store unit :=
  node_mut link;;;
  insert_before_cursor_impl self link.

Definition remove_impl (self : L) (node : P) : prog store unit :=
  let* l := on_store (deref_list self) in
  assert_ (negb debug_assertions || (0 <? len l));;;
  let* n := on_store (deref node) in
  if bool_decide (nlist n = None) then skip else
  (if len l =? 1 then
     on_store (set_cursor self None);;;
     on_store (set_head self None)
   else
     let* n := on_store (deref node) in
     match prev n with
     | None => skip
     | Some p => node_mut p;;; let* n := on_store (deref node) in on_store (set_next p (next n))
     end;;;
     let* n := on_store (deref node) in
     match next n with
     | None => skip
     | Some p => node_mut p;;; let* n := on_store (deref node) in on_store (set_prev p (prev n))
     end;;;
     on_store (move_cursor_head self node));;;
  on_store (set_list node None);;;
  on_store (dec_len self).
Definition remove (self : L) (link : P) : prog store unit :=
  node_mut link;;;
  remove_impl self link.

Definition pop_front (self : L) : prog store (option P) :=
  let* l := on_store (deref_list self) in
  let old_head := head l in
  match old_head with
  | None => Ret None
  | Some ptr =>
      let* old_head_ref := node_mut ptr in
      on_store (set_head self (next old_head_ref));;;
      let* l := on_store (deref_list self) in
      match head l with
      | None => skip
      | Some p => node_mut p;;; on_store (set_prev p None)
      end;;;
      on_store (dec_len self);;;
      let* l := on_store (deref_list self) in
      when (bool_decide (cursor l = old_head)) (let* l := on_store (deref_list self) in on_store (set_cursor self (head l)));;;
      on_store (set_list ptr None);;;
      Ret (Some ptr)
  end.

Definition insert_front (self : L) (link : P) : prog store unit :=
  let* new_node := node_mut link in
  assert_ (bool_decide (nlist new_node = None));;;
  on_store (set_list link (Some self));;;
  on_store (set_prev link None);;;
  on_store (set_next link None);;;
  let* l := on_store (deref_list self) in
  match head l with
  | None =>
      on_store (set_head self (Some link));;;
      on_store (set_cursor self (Some link))
  | Some ptr =>
      on_store (set_next link (head l));;;
      node_mut ptr;;;
      on_store (set_prev ptr (Some link));;;
      on_store (set_head self (Some link))
  end;;;
  on_store (inc_len self).

(** The links once the search has ended at the tail ([inr]) or in front of a node. *)
Definition insert_at (self : L) (new_node : P) (place : P + P) : prog store unit :=
  match place with
  | inr last =>
      node_mut last;;;
      on_store (set_prev new_node (Some last));;;
      on_store (set_next new_node None);;;
      on_store (set_next last (Some new_node))
  | inl ptr =>
      on_store (set_next new_node (Some ptr));;;
      let* node := on_store (deref ptr) in
      on_store (set_prev new_node (prev node));;;
      node_mut ptr;;;
      on_store (set_prev ptr (Some new_node));;;
      let* n := on_store (deref new_node) in
      match prev n with
      | Some p => node_mut p;;; on_store (set_next p (Some new_node))
      | None => on_store (set_head self (Some new_node))
      end
  end.

Definition insert_sorted_impl (self : L) (new_node : P) : prog store unit :=
  let* n := on_store (deref new_node) in
  assert_ (bool_decide (nlist n = None));;;
  on_store (set_list new_node (Some self));;;
  on_store (set_next new_node None);;;
  on_store (set_prev new_node None);;;
  let* l := on_store (deref_list self) in
  match head l with
  | None => on_store (set_head self (Some new_node))
  | Some ptr =>
      let* place := on_store (scan_list gt (value n) ptr) in
      insert_at self new_node place
  end;;;
  on_store (inc_len self).
Definition insert_sorted (self : L) (link : P) : prog store unit :=
  node_mut link;;;
  insert_sorted_impl self link.
End journaled.
