(* ===== verification/PListEquiv.v ===== *)
(** * The optimised list operations are equivalent to the journaled ones

    On the same list both leave the same list. Rolling the journal back after a
    power failure in a journaled operation gives the list before it. *)

From S2P Require Import Prelude Arch PList PListUpd PListSeg PListRemove PListPop PListFront PListSorted PListSortedRec PListSortedSafe.
From S2P Require Import PListBefore PListRing PListRound PListLinear PListJournal.

Section rollback.
Context {P L V : Type} `{Countable P, Countable L}.
Implicit Types (s : lstore P L V) (o : object P L V) (u : update P L).

Definition restore o s : lstore P L V :=
  match o with
  | ONode p n => with_nodes (insert p n) s
  | OList l pl => with_lists (insert l pl) s
  end.
(** What [Journal::recover] does with the records, the newest first. *)
Fixpoint rollback (os : list (object P L V)) s : lstore P L V :=
  match os with [] => s | o :: os => rollback os (restore o s) end.
Definition rolled_back (j : jstore P L V) : lstore P L V := rollback (saved j) (jl j).

Definition object_id o : P + L := match o with ONode p _ => inl p | OList l _ => inr l end.
Definition target u : option (P + L) :=
  match u with
  | UPrev p _ | UNext p _ | UList p _ => Some (inl p)
  | ULen l _ | UCursor l _ | UHead l _ => Some (inr l)
  | UMicro _ _ => None
  end.
Definition holds_object s o : Prop :=
  match o with ONode p n => nodes s !! p = Some n | OList l pl => lists s !! l = Some pl end.

Lemma restore_held s o : holds_object s o → restore o s = s.
Proof. destruct s, o; cbn; intros E; unfold with_nodes, with_lists; cbn; by rewrite insert_id. Qed.

Lemma restore_apply_eq u o s : target u = Some (object_id o) → restore o (apply u s) = restore o s.
Proof.
  destruct s, u as [| | | | | |[]], o; cbn; intros [=]; subst; unfold with_nodes, with_lists; cbn; f_equal;
    apply map_eq; intros k; rewrite !lookup_insert; case_decide; try done; by rewrite lookup_alter_ne.
Qed.

Lemma insert_alter_comm {K A} `{Countable K} (f : A → A) k k' a (m : gmap K A) :
  k ≠ k' → <[k := a]> (alter f k' m) = alter f k' (<[k := a]> m).
Proof.
  intros Hne. apply map_eq. intros i. destruct (decide (i = k)) as [->|Hk].
  - by rewrite lookup_alter_ne, !lookup_insert_eq.
  - rewrite lookup_insert_ne by done. destruct (decide (i = k')) as [->|].
    + by rewrite !lookup_alter_eq, lookup_insert_ne.
    + by rewrite !lookup_alter_ne, lookup_insert_ne.
Qed.

Lemma restore_apply_ne u o s : target u ≠ Some (object_id o) → restore o (apply u s) = apply u (restore o s).
Proof.
  destruct s, u as [| | | | | |[]], o; cbn; intros Hne; unfold with_nodes, with_lists; cbn; try done; f_equal;
    apply insert_alter_comm; congruence.
Qed.

(** An assignment to a saved object is undone. *)
Lemma rollback_apply os u s i :
  target u = Some i → i ∈ object_id <$> os → rollback os (apply u s) = rollback os s.
Proof.
  intros Hu. revert s; induction os as [|o os IH]; intros s Hin; cbn in *; [by apply elem_of_nil in Hin|].
  destruct (decide (target u = Some (object_id o))) as [E|E]; [by rewrite restore_apply_eq|].
  rewrite restore_apply_ne by done. apply IH. apply elem_of_cons in Hin as [->|?]; [by destruct E|done].
Qed.

Definition covered (ids : list (P + L)) u : Prop := ∃ i, target u = Some i ∧ i ∈ ids.
Lemma rollback_apply_list os us s :
  Forall (covered (object_id <$> os)) us → rollback os (apply_list us s) = rollback os s.
Proof.
  intros Hus. revert s; induction Hus as [|u us (i & Hi & Hin) _ IH]; intros s; cbn; [done|].
  rewrite IH. by eapply rollback_apply.
Qed.
Lemma covered_mono ids ids' us : ids ⊆ ids' → Forall (covered ids) us → Forall (covered ids') us.
Proof. intros Hsub Hus. eapply Forall_impl; [exact Hus|]. intros u (i & ? & ?). exists i. auto. Qed.
End rollback.

(** ** Journaled programs as sequences of assignments

    [journals p s ids c us a ids']: started on lists [s] with the objects [ids] saved
    and [c] bytes left, [p] makes the assignments [us], returns [a] and leaves the
    objects [ids'] saved; what rolling back gives never changes. *)
Section journals.
Context `{Arch} {P L V : Type} `{Countable P, Countable L}.
Context (node_cost list_cost : nat).
Implicit Types (s : lstore P L V) (ids : list (P + L)) (us : list (update P L)) (j : jstore P L V).

Definition journals {A} (p : prog (jstore P L V) A) s ids (c : nat) us (a : A) ids' : Prop :=
  ∀ j, jl j = s → ids ⊆ object_id <$> saved j → (c ≤ room j)%nat →
    runs (λ j', rolled_back j' = rolled_back j) p j
      (λ b j', b = a ∧ rolled_back j' = rolled_back j ∧ jl j' = apply_list us s ∧ ids' ⊆ object_id <$> saved j' ∧ (room j ≤ room j' + c)%nat).

Lemma journals_ret {A} (a : A) s ids : journals (Ret a) s ids 0 [] a ids.
Proof. intros j Hj Hi Hc. apply runs_ret; [done|]. by split_and!; try lia. Qed.

Lemma journals_store {A} (p : prog (lstore P L V) A) s us a ids :
  performs p s us a → Forall (covered ids) us → journals (on_store p) s ids 0 us a ids.
Proof.
  intros [Ex Hcr] Hcov j <- Hi Hc. apply (covered_mono _ _ _ Hi) in Hcov.
  apply (runs_intro _ _ _ a (Build_jstore (apply_list us (jl j)) (saved j) (room j))).
  - intros c' Hc'. unfold on_store in Hc'. rewrite crash_states_zoom in Hc'.
    apply list_elem_of_fmap in Hc' as (s' & -> & Hs'). destruct (Hcr s' Hs') as (k & _ & ->).
    unfold rolled_back. cbn. apply rollback_apply_list. by apply Forall_take.
  - exact (exec_zoom_done p j a _ Ex).
  - split_and!; [done| |done|done|cbn; lia]. unfold rolled_back. cbn. by apply rollback_apply_list.
Qed.

Lemma journals_bind {A B} (p : prog _ A) (k : A → prog _ B) s ids c us a ids1 c' vs b ids2 :
  journals p s ids c us a ids1 → journals (k a) (apply_list us s) ids1 c' vs b ids2 →
  journals (bind p k) s ids (c + c') (us ++ vs) b ids2.
Proof.
  intros Hp Hk j Hj Hi Hc. eapply runs_bind; [by apply Hp; [..|lia]|]. intros a' j1 (-> & Erb & Hj1 & Hi1 & Hr1).
  eapply runs_crash; [eapply runs_mono; [by apply Hk; [..|lia]|]|].
  - intros b' j2 (-> & Erb2 & Hj2 & Hi2 & Hr2). split_and!; [done|congruence|by rewrite Hj2, apply_list_app|done|lia].
  - cbn. congruence.
Qed.

Lemma journals_bind_eq {A B} (p : prog _ A) (k : A → prog _ B) s ids c us a ids1 c' vs b ids2 n ws :
  journals p s ids c us a ids1 → journals (k a) (apply_list us s) ids1 c' vs b ids2 → n = (c + c')%nat → ws = us ++ vs →
  journals (bind p k) s ids n ws b ids2.
Proof. intros ? ? -> ->. by eapply journals_bind. Qed.

(** Reads and assignments in front of the rest. *)
Lemma journals_store_bind {A B} (p : prog (lstore P L V) A) (k : A → prog _ B) s us a ids c vs b ids2 :
  performs p s us a → Forall (covered ids) us → journals (k a) (apply_list us s) ids c vs b ids2 →
  journals (bind (on_store p) k) s ids c (us ++ vs) b ids2.
Proof. intros Hp Hc Hk. eapply (journals_bind _ _ _ _ 0); [by apply journals_store|done]. Qed.
Lemma journals_read_bind {A B} (p : prog (lstore P L V) A) (k : A → prog _ B) s a ids c vs b ids2 :
  performs p s [] a → journals (k a) s ids c vs b ids2 → journals (bind (on_store p) k) s ids c vs b ids2.
Proof. intros Hp Hk. by eapply (journals_store_bind p k s []). Qed.
Lemma journals_assign_bind {B} u (k : unit → prog _ B) s ids i c vs b ids2 :
  target_exists s u = true → target u = Some i → i ∈ ids → journals (k tt) (apply u s) ids c vs b ids2 →
  journals (bind (on_store (assign u)) k) s ids c (u :: vs) b ids2.
Proof.
  intros Ht Hu Hi Hk. eapply (journals_store_bind _ _ _ [u]); [by apply performs_assign| |done].
  repeat constructor. by exists i.
Qed.
Lemma journals_assign u s ids i :
  target_exists s u = true → target u = Some i → i ∈ ids → journals (on_store (assign u)) s ids 0 [u] tt ids.
Proof. intros Ht Hu Hi. apply journals_store; [by apply performs_assign|]. repeat constructor. by exists i. Qed.

Lemma journals_save o cost s ids :
  holds_object s o → journals (save o cost) s ids cost [] tt (object_id o :: ids).
Proof.
  intros Ho j Hj Hi Hc. unfold save. apply runs_read. cbn [bind get]. rewrite (proj2 (Nat.leb_le _ _) Hc).
  assert (E : rolled_back (Build_jstore (jl j) (o :: saved j) (room j - cost)) = rolled_back j).
  { unfold rolled_back. cbn. rewrite Hj. by rewrite restore_held. }
  cbn [assert_ bind skip]. apply runs_write; [done|]. apply runs_ret; [done|].
  split_and!; [done|done|done| |cbn; lia]. cbn. set_solver.
Qed.
Lemma journals_node p s n ids :
  nodes s !! p = Some n → journals (node_mut node_cost p) s ids node_cost [] n (inl p :: ids).
Proof.
  intros Hp. unfold node_mut. apply (journals_read_bind (deref p) _ _ n); [by apply performs_deref|].
  eapply journals_bind_eq; [by apply (journals_save (ONode p n))|apply journals_ret|lia|done].
Qed.
Lemma journals_node_bind {B} p (k : _ → prog _ B) s n ids c vs b ids2 :
  nodes s !! p = Some n → journals (k n) s (inl p :: ids) c vs b ids2 →
  journals (bind (node_mut node_cost p) k) s ids (node_cost + c) vs b ids2.
Proof. intros Hp Hk. eapply journals_bind_eq; [by apply journals_node|done|done|done]. Qed.
Lemma journals_node_skip {B} p (k : prog _ B) s ids c vs b ids2 :
  is_Some (nodes s !! p) → journals k s (inl p :: ids) c vs b ids2 →
  journals (node_mut node_cost p;;; k) s ids (node_cost + c) vs b ids2.
Proof. intros [n Hp] Hk. by eapply journals_node_bind. Qed.
Lemma journals_list_bind {B} l (k : _ → prog _ B) s pl ids c vs b ids2 :
  lists s !! l = Some pl → journals (k tt) s (inr l :: ids) c vs b ids2 →
  journals (bind (list_mut list_cost l) k) s ids (list_cost + c) vs b ids2.
Proof.
  intros Hl Hk. unfold list_mut. eapply (journals_bind_eq _ _ _ _ _ []); [|exact Hk|done|done].
  apply (journals_read_bind (deref_list l) _ _ pl); [by apply performs_deref_list|]. by apply (journals_save (OList l pl)).
Qed.
Lemma journals_when (b : bool) p s ids us :
  journals p s ids 0 us tt ids → journals (when b p) s ids 0 (if b then us else []) tt ids.
Proof. intros. destruct b; [done|apply journals_ret]. Qed.
Lemma journals_eq {A} (p : prog _ A) s ids c us vs a ids' : journals p s ids c us a ids' → us = vs → journals p s ids c vs a ids'.
Proof. by intros ? ->. Qed.
Lemma journals_cost {A} (p : prog _ A) s ids c c' us a ids' : journals p s ids c us a ids' → (c ≤ c')%nat → journals p s ids c' us a ids'.
Proof.
  intros Hp Hle j Hj Hi Hc. eapply runs_mono; [by apply Hp; [..|lia]|]. intros b j' (? & ? & ? & ? & ?). split_and!; try done. lia.
Qed.
End journals.

(** One step of a journaled program. *)
Ltac journals_step :=
  cbn [apply_list app when prev next nlist value len cursor head nset_prev nset_next nset_list unwrap bind];
  first
    [ apply journals_ret
    | eapply journals_read_bind; [first [eapply performs_deref|eapply performs_deref_list]; solve [lookups]|]
    | eapply journals_node_bind; [solve [lookups]|]
    | eapply journals_node_skip; [cbn [apply nodes with_nodes with_lists]; rewrite ?lookup_alter_is_Some; solve [eauto]|]
    | eapply journals_assign_bind; [solve [exists_target]|done|set_solver|]
    | eapply journals_assign; [solve [exists_target]|done|set_solver] ].

(** ** The operations *)
Section operations.
Context `{Arch} {P L V : Type} `{Countable P, Countable L}.
Context (gt : V → V → bool) (node_cost list_cost : nat).
Implicit Types (s : lstore P L V) (ids : list (P + L)) (us : list (update P L)) (n : Node P L V) (pl : PList P).

(** *** Insertion before the cursor *)

(** The links that the journaled insertion makes, in its order. *)
Definition j_ring_links (self : L) (x : P) (at_ : option (P * P)) (hd : option P) : list (update P L) :=
  match at_ with
  | None => [UPrev x (Some x); UNext x (Some x); UCursor self (Some x); UHead self (Some x)]
  | Some (pc, c) =>
      [UPrev x (Some pc); UNext x (Some c); UPrev c (Some x); UNext pc (Some x)] ++
      (if bool_decide (Some c = hd) then [UHead self (Some x)] else [])
  end.
Lemma j_ring_links_perm self x at_ hd : j_ring_links self x at_ hd ≡ₚ ring_links self x at_ hd.
Proof. destruct at_ as [[??]|]; [|done]. cbn. do 2 constructor. by rewrite Permutation_swap. Qed.

Lemma journals_inc_len s self pl us ids :
  lists s !! self = Some pl → coherent us → CLen self ∉ cell_of <$> us → inr self ∈ ids →
  journals (on_store (inc_len self)) (apply_list us s) ids 0 [ULen self (uadd (len pl) 1)] tt ids.
Proof.
  intros Hl Hc Hn Hi. apply journals_store; [by apply performs_inc_len|]. repeat constructor. by exists (inr self).
Qed.
Lemma coherent_permutation us vs : coherent us → us ≡ₚ vs → coherent vs.
Proof. intros Hc Hp. eapply coherent_sub; [exact Hc|]. intros u. by rewrite Hp. Qed.

Lemma journals_insert_before_cursor s self x n pl at_ ids :
  nodes s !! x = Some n → nlist n = None → lists s !! self = Some pl → place s x pl at_ → inr self ∈ ids →
  ∃ ids', journals (insert_before_cursor node_cost self x) s ids (3 * node_cost)
    (UList x (Some self) :: j_ring_links self x at_ (head pl) ++ [ULen self (uadd (len pl) 1)]) tt ids'.
Proof.
  intros Hx Hn Hl Hat Hi. unfold insert_before_cursor, insert_before_cursor_impl.
  assert (Hco : coherent (j_ring_links self x at_ (head pl)) ∧ CLen self ∉ cell_of <$> j_ring_links self x at_ (head pl)).
  { split; [eapply coherent_permutation; [|symmetry; apply j_ring_links_perm]; apply ring_links_coherent; by eapply place_ne|].
    rewrite (j_ring_links_perm self x at_ (head pl)). apply ring_links_cells. }
  destruct Hco as [Hco Hcl]. destruct pl as [ln cur hd]. cbn [len head] in *.
  destruct at_ as [[pc c]|]; cbn [place cursor len] in Hat.
  - destruct Hat as (-> & _ & Hpc & Hcx & [npc Hnpc] & nc & Hnc & Epc).
    eexists. eapply (journals_cost _ _ _ (node_cost + ((node_cost + (node_cost + 0)) + 0))%nat); [|lia].
    do 2 journals_step. rewrite bool_decide_eq_true_2, orb_true_r by done. cbn [assert_ bind skip].
    do 2 journals_step. cbn [cursor].
    eapply (journals_bind_eq _ _ _ _ (node_cost + (node_cost + 0))%nat (j_ring_links self x (Some (pc, c)) hd));
     [|apply (journals_inc_len (apply (UList x (Some self)) s) self _ _ _ Hl Hco Hcl)|done|done].
    + journals_step. rewrite Epc. do 5 journals_step. cbn [prev nset_prev nset_next nset_list unwrap bind].
      do 3 journals_step. cbn [cursor head]. apply journals_when.
      eapply journals_assign; [exists_target|done|set_solver].
    + set_solver.
  - destruct Hat as (-> & _).
    eexists. eapply (journals_cost _ _ _ (node_cost + 0)%nat); [|lia].
    do 2 journals_step. rewrite bool_decide_eq_true_2, orb_true_r by done. cbn [assert_ bind skip].
    do 2 journals_step. cbn [cursor].
    eapply (journals_bind_eq _ _ _ _ 0 (j_ring_links self x None hd));
     [|apply (journals_inc_len (apply (UList x (Some self)) s) self _ _ _ Hl Hco Hcl)|done|done].
    + do 4 journals_step.
    + set_solver.
Qed.

(** *** Removal *)

Definition j_remove_upds (self : L) (x : P) pl (pv nx : option P) : list (update P L) :=
  (if len pl =? 1 then [UCursor self None; UHead self None]
   else unlink_upds pv nx ++ move_upds self x nx (cursor pl) (head pl)) ++
  [UList x None; ULen self (usub (len pl) 1)].

Definition saves (o : option P) ids : list (P + L) := match o with Some p => inl p :: ids | None => ids end.
Lemma saves_sub o ids : ids ⊆ saves o ids.
Proof. destruct o; [by apply list_subseteq_cons|done]. Qed.

(** One neighbour of [x] is saved and linked to what [x] says. *)
Lemma journals_neighbour (f : P → Node P L V → update P L) o s x n ids :
  nodes s !! x = Some n →
  (∀ p, o = Some p → is_Some (nodes s !! p) ∧ target (f p n) = Some (inl p) ∧ target_exists s (f p n) = true) →
  journals match o with
    | None => skip
    | Some p => node_mut node_cost p;;; let* n := on_store (deref x) in on_store (assign (f p n))
    end s ids node_cost match o with Some p => [f p n] | None => [] end tt (saves o ids).
Proof.
  intros Hx Ho. destruct o as [p|]; [|eapply journals_cost; [apply journals_ret|lia]].
  destruct (Ho p eq_refl) as (Hp & Ht & He).
  eapply journals_cost; [eapply journals_node_skip; [done|]|].
  - journals_step. eapply journals_assign; [done|exact Ht|set_solver].
  - lia.
Qed.

Lemma journals_unlink {B} (k : prog _ B) s x n ids c vs b ids2 :
  nodes s !! x = Some n → neighbours s x (prev n) (next n) →
  journals k (apply_list (unlink_upds (prev n) (next n)) s) (saves (next n) (saves (prev n) ids)) c vs b ids2 →
  journals (
     let* n := on_store (deref x) in
     match prev n with
     | None => skip
     | Some p => node_mut node_cost p;;; let* n := on_store (deref x) in on_store (set_next p (next n))
     end;;;
     let* n := on_store (deref x) in
     match next n with
     | None => skip
     | Some p => node_mut node_cost p;;; let* n := on_store (deref x) in on_store (set_prev p (prev n))
     end;;;
     k) s ids (2 * node_cost + c) (unlink_upds (prev n) (next n) ++ vs) b ids2.
Proof.
  intros Hx Hnb Hk. journals_step.
  set (s1 := apply_list match prev n with Some p => [UNext p (next n)] | None => [] end s).
  assert (Hx1 : nodes s1 !! x = Some n).
  { unfold s1. destruct (prev n) as [p|] eqn:Ep; [|done]. cbn. destruct (Hnb p) as [_ ?]; [by left|]. by rewrite lookup_alter_ne. }
  eapply (journals_bind_eq _ _ _ _ node_cost _ tt _ (node_cost + c)%nat _ _ _ _ _
    (journals_neighbour (λ p n, UNext p (next n)) (prev n) s x n ids Hx _)); [|lia|].
  - eapply journals_read_bind; [by apply performs_deref|].
    eapply (journals_bind_eq _ _ _ _ node_cost _ tt _ c _ _ _ _ _
      (journals_neighbour (λ p n, UPrev p (prev n)) (next n) _ x n _ Hx1 _)); [|done|done].
    unfold unlink_upds in Hk. rewrite apply_list_app in Hk. exact Hk.
  - unfold unlink_upds. by rewrite <-(assoc_L app).
  Unshelve.
  + intros p Hp. destruct (Hnb p) as [[np Hnp] Hne]; [by left|]. split_and!; [eauto|done|]. cbn. by apply bool_decide_eq_true_2.
  + intros p Hp. destruct (Hnb p) as [[np Hnp] Hne]; [by right|].
    assert (is_Some (nodes s1 !! p)) by (unfold s1; rewrite nodes_is_Some; eauto).
    split_and!; [done..|]. cbn. by apply bool_decide_eq_true_2.
Qed.

(** The end of a removal: the node leaves its list and the length drops. *)
Lemma journals_leave s self x pl us ids :
  is_Some (nodes s !! x) → lists s !! self = Some pl → coherent us → CLen self ∉ cell_of <$> us →
  inl x ∈ ids → inr self ∈ ids →
  journals (on_store (set_list x None);;; on_store (dec_len self)) (apply_list us s) ids 0
    [UList x None; ULen self (usub (len pl) 1)] tt ids.
Proof.
  intros Hx Hl Hc Hn Hix Hil. destruct (rd_plist s self pl us Hl Hc) as (pl' & E & _ & _ & [[_ <-]|Hin]);
    [|by destruct Hn; apply cell_elem in Hin].
  eapply journals_assign_bind; [by cbn; apply bool_decide_eq_true_2, nodes_is_Some|done|done|].
  apply journals_store; [|repeat constructor; by exists (inr self)].
  unfold dec_len. performs_step. apply performs_assign. exists_target.
Qed.

Lemma j_remove_coherent self x pl pv nx : coherent (j_remove_upds self x pl pv nx).
Proof.
  intros u w Hu Hw E. unfold j_remove_upds, unlink_upds, move_upds in *.
  destruct (len pl =? 1), pv, nx; repeat case_bool_decide; set_unfold; naive_solver.
Qed.

Lemma journals_remove s self x n pl ids :
  nodes s !! x = Some n → nlist n ≠ None → lists s !! self = Some pl → 0 < len pl →
  (len pl ≠ 1 → neighbours s x (prev n) (next n)) → inr self ∈ ids →
  ∃ ids', journals (remove node_cost self x) s ids (3 * node_cost)
    (j_remove_upds self x pl (prev n) (next n)) tt ids'.
Proof.
  intros Hx Hn Hl Hlen Hnb Hi. pose proof (j_remove_coherent self x pl (prev n) (next n)) as Hc.
  unfold remove, remove_impl, j_remove_upds in *.
  destruct (Z.eqb_spec (len pl) 1) as [E1|E1]; eexists;
    (eapply (journals_cost _ _ _ (node_cost + (2 * node_cost + 0))%nat); [|lia]);
    do 2 journals_step; rewrite (proj2 (Z.ltb_lt _ _) Hlen), orb_true_r; cbn [assert_ bind skip];
    journals_step; rewrite bool_decide_eq_false_2 by done.
  - rewrite (proj2 (Z.eqb_eq _ _) E1).
    eapply (journals_bind_eq _ _ _ _ 0 [UCursor self None; UHead self None] tt _ (2 * node_cost + 0)%nat);
      [do 2 journals_step| |lia|done].
    eapply journals_cost; [apply journals_leave; eauto; [|set_solver..]|lia].
    eapply coherent_sub; [exact Hc|]. set_solver.
  - rewrite (proj2 (Z.eqb_neq _ _) E1).
    eapply (journals_bind_eq _ _ _ _ (2 * node_cost + 0) (unlink_upds (prev n) (next n) ++ move_upds self x (next n) (cursor pl) (head pl)) tt _ 0);
      [apply (journals_unlink _ s x n); [done|by apply Hnb|apply journals_store]|apply journals_leave; [eauto|done|..]|lia|done].
    + apply performs_move_cursor_head; [by apply unlink_upds_node; auto|by rewrite unlink_upds_lists].
    + unfold move_upds. repeat case_bool_decide; repeat constructor; exists (inr self); split; try done; apply saves_sub, saves_sub; by right.
    + eapply coherent_sub; [exact Hc|]. set_solver.
    + unfold unlink_upds, move_upds. destruct (prev n), (next n); repeat case_bool_decide; set_solver.
    + apply saves_sub, saves_sub. constructor.
    + apply saves_sub, saves_sub. by right.
Qed.

(** *** The front of a list *)

Definition j_pop_upds (self : L) (x : P) (nx cur : option P) (ln : Z) : list (update P L) :=
  UHead self nx :: match nx with Some p => [UPrev p None] | None => [] end ++
  ULen self ln :: (if bool_decide (cur = Some x) then [UCursor self nx] else []) ++ [UList x None].
Definition j_front_upds (self : L) (x : P) (hd : option P) (ln : Z) : list (update P L) :=
  [UList x (Some self); UPrev x None; UNext x None] ++
  match hd with
  | None => [UHead self (Some x); UCursor self (Some x)]
  | Some p => [UNext x (Some p); UPrev p (Some x); UHead self (Some x)]
  end ++ [ULen self ln].

Lemma journals_pop_front s self x n pl ids :
  nodes s !! x = Some n → lists s !! self = Some pl → head pl = Some x →
  (∀ p, next n = Some p → is_Some (nodes s !! p) ∧ p ≠ x) → inr self ∈ ids →
  ∃ ids', journals (pop_front node_cost self) s ids (2 * node_cost)
    (j_pop_upds self x (next n) (cursor pl) (usub (len pl) 1)) (Some x) ids'.
Proof.
  intros Hx Hl Hh Hp Hi. unfold pop_front, j_pop_upds. destruct pl as [ln cur hd]; cbn in Hh; subst hd.
  assert (Hend : ∀ s1 ids1, lists s1 !! self = Some (Build_PList ln cur (next n)) → is_Some (nodes s1 !! x) → inl x ∈ ids1 → inr self ∈ ids1 →
    journals (on_store (dec_len self);;;
      (let* l := on_store (deref_list self) in
       when (bool_decide (cursor l = Some x)) (let* l := on_store (deref_list self) in on_store (set_cursor self (head l)));;;
       on_store (set_list x None);;;
       Ret (Some x))) s1 ids1 0 (ULen self (usub ln 1) :: (if bool_decide (cur = Some x) then [UCursor self (next n)] else []) ++ [UList x None]) (Some x) ids1).
  { intros s1 ids1 Hl1 Hx1 Hix Hil. 
    eapply (journals_bind_eq _ _ _ _ 0 [_] tt _ 0);
      [apply journals_store; [unfold dec_len; performs_step; apply performs_assign; exists_target|repeat constructor; by exists (inr self)]| |done|done].
    cbn [len]. journals_step. cbn [cursor].
    eapply (journals_bind_eq _ _ _ _ 0 _ tt _ 0); [apply journals_when; do 2 journals_step| |done|done].
    eapply (journals_bind_eq _ _ _ _ 0 [_] tt _ 0); [eapply journals_assign; [|done|done]|apply journals_ret|done|done].
    cbn [target_exists]. by apply bool_decide_eq_true_2, nodes_is_Some. }
  eexists. eapply (journals_cost _ _ _ (node_cost + (node_cost + 0))%nat); [|lia].
  journals_step. cbn [len cursor head]. do 3 journals_step. cbn [head].
  eapply (journals_bind_eq _ _ _ _ node_cost match next n with Some p => [UPrev p None] | None => [] end tt _ 0);
    [|apply Hend|done|done].
  - instantiate (1 := saves (next n) (inl x :: ids)). destruct (next n) as [p|] eqn:En; [|eapply journals_cost; [apply journals_ret|lia]].
    destruct (Hp p eq_refl) as [[np Hnp] Hne]. eapply journals_cost; [do 2 journals_step|lia].
  - cbn. destruct (next n); cbn; by rewrite lookup_alter_eq, Hl.
  - by rewrite nodes_is_Some; cbn; eauto.
  - apply saves_sub. constructor.
  - apply saves_sub. by right.
Qed.

Lemma journals_insert_front s self x n pl ids :
  nodes s !! x = Some n → nlist n = None → can_push s x (head pl) → lists s !! self = Some pl → inr self ∈ ids →
  ∃ ids', journals (insert_front node_cost self x) s ids (2 * node_cost)
    (j_front_upds self x (head pl) (uadd (len pl) 1)) tt ids'.
Proof.
  intros Hx Hn [_ Hp] Hl Hi. unfold insert_front, j_front_upds, inc_len. destruct pl as [ln cur hd]; cbn [head len] in *.
  eexists. eapply (journals_cost _ _ _ (node_cost + (node_cost + 0))%nat); [|lia].
  journals_step. rewrite bool_decide_eq_true_2 by done. cbn [assert_ bind skip].
  do 4 journals_step. cbn [head].
  eapply (journals_bind_eq _ _ _ _ node_cost _ tt (saves hd (inl x :: ids)) 0); [|apply journals_store|lia|done].
  - destruct hd as [p|]; [destruct (Hp p eq_refl) as [[np Hnp] Hne]|].
    + eapply journals_cost; [do 4 journals_step|lia].
    + eapply journals_cost; [do 2 journals_step|lia].
  - destruct hd; performs_step; apply performs_assign; exists_target.
  - repeat constructor. exists (inr self). split; [done|]. apply saves_sub. by right.
Qed.

(** *** Insertion into a sorted list *)

Definition j_sorted_upds (self : L) (x : P) (l r : list (P * V)) (ln : Z) : list (update P L) :=
  [UList x (Some self); UNext x None; UPrev x None] ++ link_upds self x l r ++ [ULen self ln].

Lemma journals_link s self x n l r d ids :
  nodes s !! x = Some n → x ∉ (l ++ r).*1 → l ++ r ≠ [] →
  is_Some (lists s !! self) → seg (nodes s) self None (l ++ r) None → inl x ∈ ids → inr self ∈ ids →
  ∃ ids', ids ⊆ ids' ∧
    journals (insert_at node_cost self x (found l r (default d (last_or None l)))) s ids (2 * node_cost) (link_upds self x l r) tt ids'.
Proof.
  intros Hx Hfresh Hne Hl Hs Hix Hil. unfold link_upds, found, insert_at. rewrite fmap_app, not_elem_of_app in Hfresh.
  destruct Hfresh as [Hfl Hfr].
  assert (Hlast : ∀ p, last_or None l = Some p → is_Some (nodes s !! p) ∧ p ≠ x).
  { intros p [Hp|[_ [=]]]%last_or_elem. split; [|set_solver].
    eapply seg_is_Some; [done|]. rewrite fmap_app. set_solver. }
  destruct r as [|y r].
  - destruct (last_or None l) as [p|] eqn:El.
    + destruct (Hlast p eq_refl) as [[np Hp] ?]. cbn [default from_option].
      exists (inl p :: ids). split; [by apply list_subseteq_cons|]. eapply journals_cost; [do 4 journals_step|lia].
    + destruct l as [|z l]; [done|]. cbn in El. by destruct (last_or_Some z.1 l) as [? ?]; simplify_eq.
  - pose proof (seg_mid _ _ _ _ _ _ _ Hs) as Hy. assert (y.1 ≠ x) by set_solver.
    destruct (last_or None l) as [p|] eqn:El.
    + destruct (Hlast p eq_refl) as [[np Hp] ?]. exists (inl p :: inl y.1 :: ids). split; [set_solver|].
      eapply journals_cost; [do 8 journals_step|lia].
    + exists (inl y.1 :: ids). split; [set_solver|]. 
      eapply journals_cost; [do 7 journals_step|lia].
Qed.

(** The search and the links. *)
Lemma journals_search s self x n l r ln ids :
  nodes s !! x = Some n → x ∉ (l ++ r).*1 → split_gt gt (value n) (l ++ r) = (l, r) →
  lists s !! self = Some (Build_PList ln None (first_or None (l ++ r))) → seg (nodes s) self None (l ++ r) None →
  NoDup (l ++ r).*1 → inl x ∈ ids → inr self ∈ ids →
  ∃ ids', ids ⊆ ids' ∧ journals
    match first_or None (l ++ r) with
    | None => on_store (set_head self (Some x))
    | Some ptr => let* place := on_store (scan_list gt (value n) ptr) in insert_at node_cost self x place
    end s ids (2 * node_cost) (link_upds self x l r) tt ids'.
Proof.
  intros Hx Hfresh Hsp Hl Hs Hnd Hix Hil. destruct (l ++ r) as [|y ys] eqn:Elr; cbn [first_or].
  - apply app_eq_nil in Elr as [-> ->]. exists ids. split; [done|].
    eapply journals_cost; [journals_step|lia].
  - assert (Hne : l ++ r ≠ []) by (by rewrite Elr). rewrite <-Elr in Hs, Hfresh.
    destruct (journals_link s self x n l r y.1 ids) as (ids' & Hsub & Hj); eauto.
    exists ids'. split; [done|]. eapply journals_read_bind; [|exact Hj].
    rewrite Elr in Hs. by eapply (performs_scan_list gt s self).
Qed.

Lemma journals_insert_sorted s self x v xs l r ids :
  linear s self xs → free s x v → split_gt gt v xs = (l, r) → inr self ∈ ids →
  ∃ ids', journals (insert_sorted gt node_cost self x) s ids (3 * node_cost)
    (j_sorted_upds self x l r (uadd (Z.of_nat (length xs)) 1)) tt ids'.
Proof.
  intros (Hl & Hs & Hnd) Hf Hsp Hi. pose proof (free_fresh _ _ _ _ _ _ _ Hf Hs) as Hfresh.
  destruct Hf as (n & Hx & Hn & <-). pose proof (split_gt_app _ _ _ _ _ Hsp) as ->.
  set (s1 := apply (UPrev x None) (apply (UNext x None) (apply (UList x (Some self)) s))).
  destruct (journals_search s1 self x (Build_Node None None (Some self) (value n)) l r (Z.of_nat (length (l ++ r))) (inl x :: ids))
    as (ids' & Hi' & Hlink); [|done|done|done| |done|constructor|by right|].
  { unfold s1. cbn. by rewrite !lookup_alter_eq, Hx. }
  { by repeat apply seg_alter_ne. }
  exists ids'. unfold insert_sorted, insert_sorted_impl, j_sorted_upds.
  eapply (journals_cost _ _ _ (node_cost + (2 * node_cost + 0))%nat); [|lia].
  do 2 journals_step. rewrite bool_decide_eq_true_2 by done. cbn [assert_ bind skip].
  do 4 journals_step. eapply (journals_bind_eq _ _ _ _ (2 * node_cost) _ tt _ 0); [exact Hlink| |done|done].
  apply (journals_inc_len s1 self (Build_PList (Z.of_nat (length (l ++ r))) None (first_or None (l ++ r))) (link_upds self x l r)); [done|by apply link_upds_coherent| |by apply Hi'; right].
  unfold link_upds. destruct r, (last_or None l); set_solver.
Qed.
End operations.

(** ** Both variants *)
Section equivalence.
Context `{Arch} {P L V : Type} `{Countable P, Countable L}.
Context (gt : V → V → bool) (timer_list : L → bool) (node_cost list_cost : nat).
Implicit Types (s : lstore P L V) (us vs : list (update P L)) (n : Node P L V) (pl : PList P).

Inductive list_op :=
| InsertAtCursor (x : P) | Unlink (x : P) | TakeFront | PutFront (x : P) | PutSorted (code : ListOpCode) (x : P).

Definition optimised (self : L) (o : list_op) : prog (lstore P L V) (option P) :=
  match o with
  | InsertAtCursor x => optimized_insert_before_cursor timer_list self x;;; Ret None
  | Unlink x => optimized_remove timer_list self x;;; Ret None
  | TakeFront => optimized_pop_front timer_list self
  | PutFront x => optimized_insert_front timer_list self x;;; Ret None
  | PutSorted code x => sorted_insert gt timer_list self code x;;; Ret None
  end.
(** The callers borrow the list first. *)
Definition journaled (self : L) (o : list_op) : prog (jstore P L V) (option P) :=
  list_mut list_cost self;;;
  match o with
  | InsertAtCursor x => insert_before_cursor node_cost self x;;; Ret None
  | Unlink x => remove node_cost self x;;; Ret None
  | TakeFront => pop_front node_cost self
  | PutFront x => insert_front node_cost self x;;; Ret None
  | PutSorted _ x => insert_sorted gt node_cost self x;;; Ret None
  end.
Definition journal_room : nat := list_cost + 3 * node_cost.

(** The lists an operation is for, and nodes that are free or in the list. *)
Definition op_allowed s (self : L) (o : list_op) : Prop :=
  match o with
  | InsertAtCursor x => ∃ v xs, circular s self xs ∧ free s x v
  | Unlink x => ∃ v l r, linear s self (l ++ (x, v) :: r) ∨ circular s self (l ++ (x, v) :: r)
  | TakeFront => ∃ xs, linear s self xs
  | PutFront x | PutSorted _ x => ∃ v xs, linear s self xs ∧ free s x v
  end.
(** Only the journaled [insert_front] sets the cursor of an empty list. *)
Definition only_journaled s (self : L) (o : list_op) : list (update P L) :=
  match o with
  | PutFront x => if bool_decide ((head <$> lists s !! self) = Some None) then [UCursor self (Some x)] else []
  | _ => []
  end.

Definition same_lists s s' : Prop := nodes s = nodes s' ∧ lists s = lists s'.

(** What both do. *)
Definition agree s (self : L) (o : list_op) : Prop :=
  ∃ us vs r ids, performs (optimised self o) s us r ∧ journals (journaled self o) s [] journal_room vs r ids ∧
    same_lists (apply_list vs s) (apply_list (us ++ only_journaled s self o) s).

Lemma same_lists_apply_list us s s' : same_lists s s' → same_lists (apply_list us s) (apply_list us s').
Proof.
  revert s s'; induction us as [|u us IH]; intros s s' Hs; [done|]. apply IH.
  destruct s, s', Hs as [E1 E2]; cbn in *; subst. by destruct u as [| | | | | |[]].
Qed.
Lemma same_lists_micro b w us s : same_lists (apply_list us s) (apply_list (UMicro b w :: us) s).
Proof. apply (same_lists_apply_list us s (apply (UMicro b w) s)). by destruct b. Qed.

Lemma performs_logged (self : L) op (p : prog _ unit) s pl us :
  lists s !! self = Some pl → performs p (apply (UMicro (timer_list self) (encode_micro op (len pl))) s) us tt →
  performs ((let* l := deref_list self in start_op_log timer_list self op (len l);;; p);;; Ret None) s
    (UMicro (timer_list self) (encode_micro op (len pl)) :: us) (@None P).
Proof.
  intros Hl Hp. rewrite <-(app_nil_r (_ :: us)). eapply performs_bind; [|apply performs_ret].
  performs_step. by eapply performs_assign_bind.
Qed.

Lemma journals_listed {A} (self : L) (p : prog _ A) s pl ids c us a :
  lists s !! self = Some pl → journals p s [inr self] c us a ids → (c ≤ 3 * node_cost)%nat →
  journals (list_mut list_cost self;;; p) s [] journal_room us a ids.
Proof.
  intros Hl Hp Hc. eapply journals_cost; [by eapply journals_list_bind|]. unfold journal_room. lia.
Qed.
Lemma journals_unit (p : prog (jstore P L V) unit) s ids c us ids' :
  journals p s ids c us tt ids' → journals (p;;; Ret (@None P)) s ids c us None ids'.
Proof. intros Hp. eapply journals_bind_eq; [exact Hp|apply journals_ret|lia|by rewrite app_nil_r]. Qed.

Lemma agree_intro s (self : L) (o : list_op) pl b w us vs :
  lists s !! self = Some pl →
  performs (optimised self o) s (UMicro b w :: us) None →
  (∃ ids, journals (journaled self o) s [] journal_room vs None ids) →
  apply_list vs s = apply_list (us ++ only_journaled s self o) s →
  agree s self o.
Proof.
  intros Hl Hp [ids Hj] E. exists (UMicro b w :: us), vs, None, ids. split_and!; [done..|].
  rewrite E. apply same_lists_micro.
Qed.

Lemma agree_insert s self x v xs : circular s self xs → free s x v → agree s self (InsertAtCursor x).
Proof.
  intros Hc Hf. pose proof Hc as ((h & Hl & _) & _).
  destruct (circular_place s self x v xs _ Hc Hf Hl) as (Hat & _). destruct Hf as (n & Hx & Hn & _).
  eapply agree_intro; [done|apply performs_logged; [done|]| |].
  - eapply performs_insert_before_cursor_impl; destruct (timer_list self); done.
  - destruct (journals_insert_before_cursor node_cost s self x n _ _ [inr self] Hx Hn Hl Hat) as [ids Hj]; [constructor|].
    exists ids. eapply journals_listed; [done|by apply journals_unit|lia].
  - rewrite app_nil_r. cbn [apply_list]. symmetry. apply coherent_perm.
    + apply insert_bc_upds_coherent. by eapply place_ne.
    + symmetry. apply Permutation_app_tail, j_ring_links_perm.
Qed.

Lemma agree_remove s self x v l r :
  linear s self (l ++ (x, v) :: r) ∨ circular s self (l ++ (x, v) :: r) → agree s self (Unlink x).
Proof.
  intros Hlr.
  assert (Hfacts : ∃ n pl, nodes s !! x = Some n ∧ lists s !! self = Some pl ∧ nlist n ≠ None ∧ len pl = Z.of_nat (length (l ++ (x, v) :: r)) ∧
    (len pl ≠ 1 → neighbours s x (prev n) (next n))).
  { assert (Hne : Z.of_nat (length (l ++ (x, v) :: r)) ≠ 1 → l ++ r ≠ []) by (intros H1' [-> ->]%app_eq_nil; done).
    destruct Hlr as [Hlin|Hcirc].
    - destruct (linear_mid _ _ _ _ _ Hlin) as [Hx Hnb]. destruct Hlin as [Hl _]. by eexists _, _.
    - pose proof Hcirc as ((h & Hl & _) & Hs & _). pose proof (seg_mid _ _ _ _ _ _ _ Hs) as Hx.
      eexists _, _. split_and!; [exact Hx|exact Hl|done|done|]. intros Hlen. cbn in Hlen.
      destruct (ring_mid _ _ _ _ _ Hcirc (Hne Hlen)) as [Hx' Hnb]. cbn in *. rewrite Hx in Hx'. injection Hx' as -> ->. exact Hnb. }
  destruct Hfacts as (n & pl & Hx & Hl & Hn & Hlen & Hnb).
  assert (0 < len pl) by (rewrite Hlen, length_app; cbn; lia).
  set (s1 := apply (UMicro (timer_list self) (encode_micro OpRemove (len pl))) s).
  assert (Hperf : ∃ us, performs (optimized_remove_impl self x) s1 us tt ∧ j_remove_upds self x pl (prev n) (next n) ≡ₚ us).
  { assert (Hx1 : nodes s1 !! x = Some n) by (unfold s1; by destruct (timer_list self)).
    assert (Hl1 : lists s1 !! self = Some pl) by (unfold s1; by destruct (timer_list self)).
    unfold j_remove_upds. destruct (Z.eqb_spec (len pl) 1) as [E1|E1].
    - eexists. split; [by eapply performs_remove_single|]. rewrite E1. cbn. do 2 constructor. apply Permutation_swap.
    - eexists. split; [eapply performs_optimized_remove_impl; [done..| |done|done|done]|].
      + intros p Hp. unfold s1. destruct (Hnb E1 p Hp). by destruct (timer_list self).
      + unfold remove_upds. rewrite <-(assoc_L app). do 2 apply Permutation_app_head. apply Permutation_swap. }
  destruct Hperf as (us & Hus & Hperm).
  eapply agree_intro; [done|by apply performs_logged| |].
  - destruct (journals_remove node_cost s self x n pl [inr self]) as [ids Hj]; [done..|constructor|].
    exists ids. eapply journals_listed; [done|by apply journals_unit|lia].
  - rewrite app_nil_r. apply coherent_perm; [apply j_remove_coherent|done].
Qed.

Lemma agree_pop s self xs : linear s self xs → agree s self TakeFront.
Proof.
  intros Hlin. pose proof Hlin as (Hl & _). destruct xs as [|x xs].
  - exists [], [], None, [inr self]. split_and!; [|eapply journals_listed; [done|unfold pop_front; do 2 journals_step|lia]|done].
    cbn [optimised]. unfold optimized_pop_front. performs_step. apply performs_ret.
  - destruct (linear_hd _ _ _ _ Hlin) as [Hx Hnx].
    destruct (journals_pop_front node_cost s self x.1 _ _ [inr self] Hx Hl) as [ids Hj]; [done|exact Hnx|constructor|].
    eexists _, _, _, ids. split_and!.
    + eapply performs_optimized_pop_front; [exact Hx|exact Hl|done|exact Hnx].
    + eapply journals_listed; [done|exact Hj|lia].
    + cbn [only_journaled]. rewrite app_nil_r. cbn [cursor len next].
      unfold j_pop_upds, pop_upds, detach_upds. rewrite bool_decide_eq_false_2 by done.
      rewrite app_nil_r. apply same_lists_micro.
Qed.

(** The two fronts differ in when the node names its list. *)
Lemma apply_list_moved u us s : cell_of u ∉ cell_of <$> us → apply_list (u :: us) s = apply_list (us ++ [u]) s.
Proof.
  revert s; induction us as [|w us IH]; intros s Hu; cbn in *; [done|].
  rewrite <-IH by set_solver. cbn. rewrite apply_comm; [done|]. set_solver.
Qed.

Lemma agree_front s self x v xs : linear s self xs → free s x v → agree s self (PutFront x).
Proof.
  intros Hlin Hf. pose proof Hlin as (Hl & Hs & Hnd). pose proof (free_fresh _ _ _ _ _ _ _ Hf Hs) as Hfresh.
  destruct Hf as (n & Hx & Hn & _).
  assert (Hp : can_push s x (first_or None xs)).
  { split; [eauto|]. intros p Hp. apply first_or_elem in Hp as [Hp|[_ [=]]]. split; [by eapply seg_is_Some|by intros ->]. }
  eapply agree_intro; [done|apply performs_logged; [done|]| |].
  - apply (performs_optimized_insert_front_impl _ self x n (Build_PList (Z.of_nat (length xs)) None (first_or None xs))); destruct (timer_list self); done.
  - destruct (journals_insert_front node_cost s self x n (Build_PList (Z.of_nat (length xs)) None (first_or None xs)) [inr self] Hx Hn Hp Hl) as [ids Hj]; [constructor|].
    exists ids. eapply journals_listed; [done|by apply journals_unit|lia].
  - unfold only_journaled, j_front_upds, insert_front_upds, push_upds, push_body. rewrite Hl. cbn [fmap option_fmap option_map head len].
    destruct xs as [|y ys]; cbn [first_or app].
    + rewrite bool_decide_eq_true_2 by done. apply coherent_perm; [|solve_Permutation].
      intros u w Hu Hw. set_unfold. naive_solver.
    + rewrite bool_decide_eq_false_2 by done.
      rewrite apply_list_moved; [done|]. cbn. set_solver.
Qed.

Lemma agree_sorted s self code x v xs : linear s self xs → free s x v → agree s self (PutSorted code x).
Proof.
  intros Hlin Hf. pose proof Hlin as (Hl & Hs & Hnd). pose proof (free_fresh _ _ _ _ _ _ _ Hf Hs) as Hfresh.
  destruct (split_gt gt v xs) as [l r] eqn:E. pose proof Hf as (n & Hx & Hn & Hv). pose proof (split_gt_app _ _ _ _ _ E) as Exs.
  eapply agree_intro; [done|apply performs_logged; [done|]| |].
  - apply (performs_insert_again gt _ self x n l r (Z.of_nat (length xs)) None).
    unfold before_insert. rewrite <-Exs. destruct (timer_list self); split_and!; try done; by rewrite Hv.
  - destruct (journals_insert_sorted gt node_cost s self x v xs l r [inr self]) as [ids Hj]; [done..|constructor|].
    exists ids. eapply journals_listed; [done|by apply journals_unit|lia].
  - rewrite app_nil_r. unfold j_sorted_upds, insert_sorted_upds, clear_upds.
    set (rest := link_upds _ _ _ _ ++ _).
    change (apply_list rest (apply_list [UList x (Some self); UNext x None; UPrev x None] s) =
      apply_list rest (apply_list [UNext x None; UPrev x None; UList x (Some self)] s)).
    f_equal. apply coherent_perm; [|solve_Permutation]. intros u w Hu Hw. set_unfold. naive_solver.
Qed.

(** C35: The optimised and the journaled operation leave the same list and return
    the same node, on every list they are for (the journaled [insert_front] also sets
    the cursor of an empty list). Rolling the journal back, at whatever point a
    power failure interrupts the journaled operation, undoes all of it. *)
Theorem optimised_lists_agree s self o :
  op_allowed s self o →
  ∃ r s', exec (optimised self o) s = Done r s' ∧
    ∀ j, jl j = s → (journal_room ≤ room j)%nat →
      (∃ j', exec (journaled self o) j = Done r j' ∧ same_lists (jl j') (apply_list (only_journaled s self o) s') ∧ rolled_back j' = rolled_back j) ∧
      ∀ c, c ∈ crash_states (journaled self o) j → rolled_back c = rolled_back j.
Proof.
  intros Ho. assert (Ha : agree s self o).
  { destruct o; cbn in Ho; naive_solver eauto using agree_insert, agree_remove, agree_pop, agree_front, agree_sorted. }
  destruct Ha as (us & vs & r & ids & [Hex _] & Hj & Hsame).
  exists r, (apply_list us s). split; [done|]. intros j Hjl Hroom.
  destruct (Hj j Hjl) as [Hcr (b & j' & E & -> & Erb & Ejl & _)]; [apply list_subseteq_nil|done|].
  split; [|done]. exists j'. rewrite Ejl, <-apply_list_app. done.
Qed.
End equivalence.

Module example.
#[local] Existing Instances cortex_m.

(** A transaction that starts with a list in ascending order: an insertion in its
    middle. *)
Definition started : jstore nat nat Z := Build_jstore PListLinear.example.sorted [] 200.

Lemma optimised_lists_agree_witness :
  op_allowed PListLinear.example.sorted 7%nat (PutSorted InsertSortedDelayList 3%nat) ∧
  ∃ r s', exec (optimised Z.gtb (λ _, false) 7%nat (PutSorted InsertSortedDelayList 3%nat)) PListLinear.example.sorted = Done r s' ∧
    (∃ j', exec (journaled Z.gtb 48 32 7%nat (PutSorted InsertSortedDelayList 3%nat)) started = Done r j' ∧
       same_lists (jl j') s' ∧ length (saved j') = 4%nat ∧ rolled_back j' = PListLinear.example.sorted) ∧
    length (crash_states (journaled Z.gtb 48 32 7%nat (PutSorted InsertSortedDelayList 3%nat)) started) = 13%nat ∧
    Forall (λ c, rolled_back c = PListLinear.example.sorted)
      (crash_states (journaled Z.gtb 48 32 7%nat (PutSorted InsertSortedDelayList 3%nat)) started).
Proof.
  assert (Ha : op_allowed PListLinear.example.sorted 7%nat (PutSorted InsertSortedDelayList 3%nat))
    by (eexists _, _; split; [exact PListLinear.example.sorted_linear|exact PListLinear.example.sorted_free]).
  split; [exact Ha|].
  destruct (optimised_lists_agree Z.gtb (λ _, false) 48 32 PListLinear.example.sorted 7%nat (PutSorted InsertSortedDelayList 3%nat) Ha)
    as (r & s' & E & Hj). exists r, s'. split; [exact E|].
  destruct (Hj started eq_refl ltac:(vm_compute; lia)) as [(j' & Ej & Hs & Hrb) Hcr].
  split; [exists j'; split; [exact Ej|]; split; [exact Hs|]; split; [|exact Hrb]|].
  - assert (Hlen : (match exec (journaled Z.gtb 48 32 7%nat (PutSorted InsertSortedDelayList 3%nat)) started with Done _ j => length (saved j) | _ => 0%nat end) = 4%nat) by (vm_compute; reflexivity).
    rewrite Ej in Hlen. exact Hlen.
  - split; [vm_compute; reflexivity|]. apply Forall_forall. exact Hcr.
Defined.
End example.
