(* ===== verification/ListRepr.v ===== *)
(** * A store of many lists

    [repr s C]: the store holds the lists of [C] with these contents. Each list
    operation updates the contents of one list and leaves the other lists and the
    nodes that are in no list alone. *)

From S2P Require Import Prelude Arch PList PListUpd PListSeg PListRemove PListPop PListFront PListSorted PListSortedRec PListSortedSafe.
From S2P Require Import PListBefore PListRing PListRound PListLinear.

Section repr.
Context `{Arch} {P L V : Type} `{Countable P, Countable L}.
Context (is_ring : L → bool) (timer_list : L → bool).
Implicit Types (s : lstore P L V) (C : gmap L (list (P * V))) (xs l r : list (P * V)) (self : L).

Definition holds s self xs : Prop := if is_ring self then circular s self xs else linear s self xs.

Definition repr s C : Prop :=
  (∀ self xs, C !! self = Some xs → holds s self xs) ∧ Z.of_nat (size (nodes s)) + 1 < usize_mod.

Lemma holds_seg s self xs : holds s self xs → ∃ p q, seg (nodes s) self p xs q ∧ NoDup xs.*1.
Proof. unfold holds. destruct (is_ring self); [intros (_ & ? & ?)|intros (_ & ? & ?)]; eauto. Qed.

Lemma repr_length s C self xs : repr s C → C !! self = Some xs → Z.of_nat (length xs) + 1 < usize_mod.
Proof.
  intros [Hr Hsz] HC. destruct (holds_seg _ _ _ (Hr _ _ HC)) as (p & q & Hs & Hnd).
  assert (length xs ≤ size (nodes s))%nat; [|lia].
  rewrite <-(length_fmap fst). apply nodup_length_size; [done|]. intros y Hy. by eapply seg_is_Some.
Qed.

(** What a list operation may write: free nodes and members of its list. *)
Definition writable s self xs (p : P) : Prop :=
  p ∈ xs.*1 ∨ ∃ n, nodes s !! p = Some n ∧ nlist n = None.

Lemma repr_update s s' C self xs ys ps :
  repr s C → C !! self = Some xs → only_touches self ps s s' → Forall (writable s self xs) ps →
  size (nodes s') = size (nodes s) → holds s' self ys → repr s' (<[self := ys]> C).
Proof.
  intros [Hr Hsz] HC Ht Hps Hsz' Hy. split; [|by rewrite Hsz'].
  intros k zs [[<- <-]|[Hne Hk]]%lookup_insert_Some; [done|].
  pose proof (Hr _ _ Hk) as Hz. destruct (holds_seg _ _ _ Hz) as (p & q & Hs & _).
  destruct (holds_seg _ _ _ (Hr _ _ HC)) as (p' & q' & Hs' & _).
  assert (Hd : ∀ y, y ∈ zs.*1 → y ∉ ps).
  { intros y Hyz Hyp. rewrite Forall_forall in Hps. apply list_elem_of_fmap in Hyz as ((y' & v) & -> & Hin). cbn in *.
    destruct (seg_elem _ _ _ _ _ _ _ Hin Hs) as (pp & nn & E).
    destruct (Hps _ Hyp) as [((y2 & v2) & -> & Hin2)%list_elem_of_fmap|(n & E2 & Hn)]; cbn in *.
    - destruct (seg_elem _ _ _ _ _ _ _ Hin2 Hs') as (pp' & nn' & E'). congruence.
    - rewrite E in E2. by simplify_eq. }
  unfold holds in *. destruct (is_ring k);
    [by eapply only_touches_circular|by eapply only_touches_linear].
Qed.

(** Free nodes outside [ps] stay free. *)
Lemma only_touches_free self ps s s' y v :
  only_touches self ps s s' → y ∉ ps → free s y v → free s' y v.
Proof. intros [Hn _] Hy (n & E & ?). exists n. by rewrite Hn. Qed.

Lemma member_not_free s self xs y v : holds s self xs → free s y v → y ∉ xs.*1.
Proof. intros Hh Hf. destruct (holds_seg _ _ _ Hh) as (? & ? & Hs & _). by eapply free_fresh. Qed.

Lemma size_apply_list us s : size (nodes (apply_list us s)) = size (nodes s).
Proof.
  rewrite <-!size_dom. f_equal. apply set_eq. intros x. rewrite !elem_of_dom. apply nodes_is_Some.
Qed.
Lemma size_apply u s : size (nodes (apply u s)) = size (nodes s).
Proof. apply (size_apply_list [u]). Qed.

(** A node whose [list] field was cleared last is free. *)
Lemma freed us s x n :
  nodes s !! x = Some n → coherent us → UList x None ∈ us → free (apply_list us s) x (value n).
Proof.
  intros Hx Hc Hin. destruct (proj2 (nodes_is_Some us s x)) as [n' E]; [eauto|].
  exists n'. split; [done|]. split; [|by eapply value_apply_list].
  pose proof (rd_list_eq (UList x None) us s Hc Hin) as Hrd. cbn in Hrd.
  rewrite bool_decide_eq_true_2, E in Hrd by eauto. specialize (Hrd eq_refl). cbn in Hrd. congruence.
Qed.

Lemma writable_members s self xs : Forall (writable s self xs) xs.*1.
Proof. apply Forall_forall. intros y Hy. by left. Qed.

(** ** The operations *)

Lemma repr_pop s C self x xs :
  repr s C → is_ring self = false → C !! self = Some (x :: xs) →
  ∃ s', exec (optimized_pop_front timer_list self) s = Done (Some x.1) s' ∧
    repr s' (<[self := xs]> C) ∧ free s' x.1 x.2 ∧ only_touches self (x :: xs).*1 s s'.
Proof.
  intros Hr Hring HC. pose proof (proj1 Hr _ _ HC) as Hlin. unfold holds in Hlin. rewrite Hring in Hlin.
  pose proof (repr_length _ _ _ _ Hr HC) as Hlen. cbn in Hlen.
  pose proof (linear_hd _ _ _ _ Hlin) as [Hx Hnb]. pose proof Hlin as (Hl & _).
  destruct (pop_front_crash_safe timer_list s self x.1 _ _ Hx Hl eq_refl Hnb) as [Hex _].
  cbn [cursor len next value] in Hex. set (us := pop_upds _ _ _ _ _) in *. set (s1 := apply _ s) in *.
  assert (Ht : only_touches self (x :: xs).*1 s (apply_list us s1)).
  { eapply micro_touches. unfold us, pop_upds, detach_upds. rewrite bool_decide_eq_false_2 by done.
    destruct xs as [|y ys]; touches. }
  eexists. split; [exact Hex|]. split; [|split; [|exact Ht]].
  - eapply repr_update; [done|done|exact Ht|apply writable_members|by rewrite size_apply_list; apply size_apply|].
    unfold holds. rewrite Hring. apply pop_contents; [by apply micro_linear|cbn; lia].
  - assert (Hx1 : nodes s1 !! x.1 = Some (Build_Node None (first_or None xs) (Some self) x.2))
      by (unfold s1; by destruct (timer_list self)).
    apply (freed us s1 x.1 _ Hx1); [|unfold us, pop_upds; set_solver].
    assert (Hc : coherent (UMicro true 0 :: us)).
    { apply pop_upds_coherent. intros E. by destruct (Hnb x.1 E). }
    eapply coherent_sub; [exact Hc|]. set_solver.
Qed.
End repr.

Section repr_ops.
Context `{Arch} {P L V : Type} `{Countable P, Countable L}.
Context (is_ring : L → bool) (timer_list : L → bool).
Implicit Types (s : lstore P L V) (C : gmap L (list (P * V))) (xs l r : list (P * V)) (self : L).

Lemma free_micro b w s x v : free s x v → free (apply (UMicro b w) s) x v.
Proof. by destruct b. Qed.

Lemma repr_remove_linear s C self l x r :
  repr is_ring s C → is_ring self = false → C !! self = Some (l ++ x :: r) →
  ∃ s', exec (optimized_remove timer_list self x.1) s = Done tt s' ∧
    repr is_ring s' (<[self := l ++ r]> C) ∧ free s' x.1 x.2 ∧ only_touches self (l ++ x :: r).*1 s s'.
Proof.
  intros Hr Hring HC. pose proof (proj1 Hr _ _ HC) as Hlin. unfold holds in Hlin. rewrite Hring in Hlin.
  pose proof (repr_length _ _ _ _ _ Hr HC) as Hlen.
  assert (Hlen2 : Z.of_nat (length (l ++ x :: r)) = Z.of_nat (length (l ++ r)) + 1) by (rewrite !length_app; cbn; lia).
  pose proof (linear_mid _ _ _ _ _ Hlin) as [Hx Hnb]. pose proof Hlin as (Hl & _).
  set (b := timer_list self). set (w := encode_micro OpRemove (Z.of_nat (length (l ++ x :: r)))).
  set (s1 := apply (UMicro b w) s).
  set (us := remove_upds self x.1 (last_or None l) (first_or None r) None (first_or None (l ++ x :: r))
               (usub (Z.of_nat (length (l ++ x :: r))) 1)).
  assert (Hx1 : nodes s1 !! x.1 = Some (Build_Node (last_or None l) (first_or None r) (Some self) x.2)) by (unfold s1; by destruct b).
  assert (Hl1 : lists s1 !! self = Some (Build_PList (Z.of_nat (length (l ++ x :: r))) None (first_or None (l ++ x :: r))))
    by (unfold s1; by destruct b).
  assert (Hnb1 : neighbours s1 x.1 (last_or None l) (first_or None r)) by (unfold s1; by destruct b).
  assert (Hperf : performs (optimized_remove timer_list self x.1) s (UMicro b w :: us) tt).
  { unfold optimized_remove. performs_step. eapply performs_assign_bind; [done|]. cbn [len]. fold b w s1.
    destruct (decide (l ++ r = [])) as [[-> ->]%app_eq_nil|Hne].
    - by eapply performs_remove_only.
    - assert (0 < Z.of_nat (length (l ++ r))) by (destruct (l ++ r); [done|cbn; lia]).
      apply (performs_optimized_remove_impl s1 self x.1 _ _ Hx1 Hl1 Hnb1); [done|cbn [len]; lia..]. }
  assert (Ht : only_touches self (l ++ x :: r).*1 s (apply_list us s1)).
  { eapply micro_touches.
    assert (He : ∀ p, last_or None l = Some p ∨ first_or None r = Some p → p ∈ (l ++ x :: r).*1).
    { intros p. rewrite fmap_app, elem_of_app. cbn. rewrite elem_of_cons. intros [[?|[_ [=]]]%last_or_elem|[?|[_ [=]]]%first_or_elem]; auto. }
    assert (Hin : x.1 ∈ (l ++ x :: r).*1) by (rewrite fmap_app; set_solver).
    unfold us, remove_upds, unlink_upds, move_upds. clear - He Hin.
    destruct (last_or None l), (first_or None r); do 2 case_bool_decide; touches. }
  exists (apply_list us s1). split; [by apply performs_exec in Hperf|]. split; [|split; [|done]].
  - eapply repr_update; [done|done|exact Ht|apply writable_members|by rewrite size_apply_list; apply size_apply|].
    unfold holds. rewrite Hring. apply linear_remove_contents; [by apply micro_linear|].
    rewrite usub_small; lia.
  - apply (freed us s1 x.1 _ Hx1); [apply remove_upds_coherent|unfold us, remove_upds; set_solver].
Qed.

Lemma repr_remove_ring s C self l x r :
  repr is_ring s C → is_ring self = true → C !! self = Some (l ++ x :: r) → l ++ r ≠ [] →
  ∃ s', exec (optimized_remove timer_list self x.1) s = Done tt s' ∧
    repr is_ring s' (<[self := l ++ r]> C) ∧ free s' x.1 x.2 ∧ only_touches self (l ++ x :: r).*1 s s'.
Proof.
  intros Hr Hring HC Hne. pose proof (proj1 Hr _ _ HC) as Hcirc. unfold holds in Hcirc. rewrite Hring in Hcirc.
  pose proof (repr_length _ _ _ _ _ Hr HC) as Hlen.
  assert (Hlen2 : Z.of_nat (length (l ++ x :: r)) = Z.of_nat (length (l ++ r)) + 1) by (rewrite !length_app; cbn; lia).
  assert (Hlen1 : 0 < Z.of_nat (length (l ++ r))) by (destruct (l ++ r); [done|cbn; lia]).
  destruct (ring_mid _ _ _ _ _ Hcirc Hne) as [Hx Hnb]. pose proof Hcirc as ((h & Hl & Hh) & Hs & Hnd).
  destruct (remove_crash_safe timer_list s self x.1 _ _ Hx Hl Hnb) as [Hex _]; [done|cbn [len]; lia..|].
  cbn [prev next cursor head len value] in Hex. set (us := remove_upds _ _ _ _ _ _ _) in *. set (s1 := apply _ s) in *.
  assert (Ht : only_touches self (l ++ x :: r).*1 s (apply_list us s1)).
  { eapply micro_touches. pose proof (ring_remove_touches s1 self x l r (first_or None (l ++ x :: r)) h
      (usub (Z.of_nat (length (l ++ x :: r))) 1)) as [Hn Hk].
    split; [|exact Hk]. intros y Hy. apply Hn. intros Hin. apply Hy.
    rewrite fmap_app in *. cbn in *. rewrite fmap_app in Hin. set_solver. }
  exists (apply_list us s1). split; [exact Hex|]. split; [|split; [|done]].
  - eapply repr_update; [done|done|exact Ht|apply writable_members|by rewrite size_apply_list; apply size_apply|].
    unfold holds. rewrite Hring. by apply ring_remove_contents; [..|lia|].
  - assert (Hx1 : nodes s1 !! x.1 = Some (Build_Node (ring_prev l r) (ring_next l r) (Some self) x.2))
      by (unfold s1; by destruct (timer_list self)).
    apply (freed us s1 x.1 _ Hx1); [apply remove_upds_coherent|unfold us, remove_upds; set_solver].
Qed.

Lemma repr_remove_only s C self x :
  repr is_ring s C → is_ring self = true → C !! self = Some [x] →
  ∃ s', exec (optimized_remove timer_list self x.1) s = Done tt s' ∧
    repr is_ring s' (<[self := []]> C) ∧ free s' x.1 x.2 ∧ only_touches self [x.1] s s'.
Proof.
  intros Hr Hring HC. pose proof (proj1 Hr _ _ HC) as Hcirc. unfold holds in Hcirc. rewrite Hring in Hcirc.
  destruct Hcirc as ((h & Hl & Hh) & [Hx _] & _). cbn in Hx, Hl.
  set (b := timer_list self). set (w := encode_micro OpRemove 1). set (s1 := apply (UMicro b w) s).
  set (us := [UCursor self None; UHead self None; ULen self (usub 1 1); UList x.1 None] : list (update P L)).
  assert (Hl1 : lists s1 !! self = Some (Build_PList 1 (Some x.1) h)) by (unfold s1; by destruct b).
  assert (Hx1 : nodes s1 !! x.1 = Some (Build_Node (Some x.1) (Some x.1) (Some self) x.2)) by (unfold s1; by destruct b).
  assert (Hlen : usub 1 1 = 0) by (apply usub_small; split; [done|apply usize_mod_pos]).
  assert (Hp : performs (optimized_remove timer_list self x.1) s (UMicro b w :: us) tt).
  { unfold optimized_remove. performs_step. eapply performs_assign_bind; [done|]. cbn [len]. fold b w s1.
    by eapply performs_remove_single. }
  assert (Ht : only_touches self [x.1] s (apply_list us s1)).
  { eapply micro_touches. unfold us. touches. }
  exists (apply_list us s1). split; [by apply performs_exec in Hp|]. split; [|split; [|done]].
  - eapply repr_update; [done|done|exact Ht| |by rewrite size_apply_list; apply size_apply|].
    { apply Forall_singleton. left. constructor. }
    unfold holds. rewrite Hring. unfold us. rewrite Hlen. clearbody s1.
    split; [|split; [done|constructor]]. exists None. cbn. rewrite !lookup_alter_eq, Hl1. split; [done|by left].
  - apply (freed us s1 x.1 _ Hx1); [|unfold us; set_solver].
    intros u v Hu Hv E. unfold us in *. set_unfold. naive_solver.
Qed.

Lemma repr_insert_before_cursor s C self x v xs :
  repr is_ring s C → is_ring self = true → C !! self = Some xs → free s x v →
  ∃ s', exec (optimized_insert_before_cursor timer_list self x) s = Done tt s' ∧
    repr is_ring s' (<[self := xs ++ [(x, v)]]> C) ∧ only_touches self (x :: xs.*1) s s'.
Proof.
  intros Hr Hring HC Hf. pose proof (proj1 Hr _ _ HC) as Hcirc. unfold holds in Hcirc. rewrite Hring in Hcirc.
  pose proof (repr_length _ _ _ _ _ Hr HC) as Hlen.
  pose proof Hcirc as ((h & Hl & _) & _). set (pl := Build_PList _ _ _) in Hl.
  set (b := timer_list self). set (w := encode_micro InsertBeforeCursor (Z.of_nat (length xs))).
  set (s1 := apply (UMicro b w) s).
  apply (micro_circular b w) in Hcirc as Hcirc1. apply (PListRing.micro_free b w) in Hf as Hf1. fold s1 in Hcirc1, Hf1.
  assert (Hl1 : lists s1 !! self = Some pl) by (unfold s1; by destruct b).
  destruct (circular_place _ _ _ _ _ _ Hcirc1 Hf1 Hl1) as (Hat & _).
  assert (Hex : exec (optimized_insert_before_cursor timer_list self x) s = Done tt (bc_store s1 self x xs pl)).
  { pose proof Hf1 as (n & Hn & Hnl & Hv). unfold bc_store.
    assert (Hperf : performs (optimized_insert_before_cursor timer_list self x) s
      (UMicro b w :: UList x (Some self) :: insert_bc_upds self x (ring_place xs) (head pl) (uadd (len pl) 1)) tt).
    { unfold optimized_insert_before_cursor. performs_step. eapply performs_assign_bind; [done|].
      by apply (performs_insert_before_cursor_impl s1 self x n pl). }
    by apply performs_exec in Hperf. }
  assert (Ht : only_touches self (x :: xs.*1) s (bc_store s1 self x xs pl)).
  { eapply micro_only_touches. apply bc_only_touches. }
  eexists. split; [exact Hex|]. split; [|exact Ht].
  eapply repr_update; [done|done|exact Ht| |unfold bc_store; by rewrite size_apply_list; apply size_apply|].
  - constructor; [|apply writable_members]. right. destruct Hf as (n & ? & ? & _). eauto.
  - unfold holds. rewrite Hring. by apply bc_contents.
Qed.

Lemma repr_insert_front s C self x v xs :
  repr is_ring s C → is_ring self = false → C !! self = Some xs → free s x v →
  ∃ s', exec (optimized_insert_front timer_list self x) s = Done tt s' ∧
    repr is_ring s' (<[self := (x, v) :: xs]> C) ∧ only_touches self (x :: xs.*1) s s'.
Proof.
  intros Hr Hring HC Hf. pose proof (proj1 Hr _ _ HC) as Hlin. unfold holds in Hlin. rewrite Hring in Hlin.
  pose proof (repr_length _ _ _ _ _ Hr HC) as Hlen. pose proof Hlin as (Hl & Hs & _). pose proof Hf as (n & Hn & Hnl & _).
  pose proof (free_fresh _ _ _ _ _ _ _ Hf Hs) as Hx. set (pl := Build_PList _ _ _) in Hl.
  destruct (insert_front_crash_safe timer_list s self x n pl) as [Hex _]; [done..| |done|].
  { split; [eauto|]. cbn. intros p [Hp|[_ [=]]]%first_or_elem. split; [by eapply seg_is_Some|by intros ->]. }
  set (s1 := apply _ s) in *. set (s' := apply_list _ s1) in *.
  assert (Ht : only_touches self (x :: xs.*1) s s').
  { unfold s'. eapply micro_touches. cbn [head len]. unfold insert_front_upds, push_upds, push_body.
    destruct xs as [|y ys]; touches. }
  exists s'. split; [exact Hex|]. split; [|exact Ht].
  eapply repr_update; [done|done|exact Ht| |unfold s'; by rewrite size_apply_list; apply size_apply|].
  - constructor; [right; eauto|apply writable_members].
  - unfold holds. rewrite Hring. by apply insert_front_contents;
      [apply micro_linear|unfold s1; destruct (timer_list self)|].
Qed.

(** Rotating a ring. *)
Lemma repr_next s C self x xs :
  repr is_ring s C → is_ring self = true → C !! self = Some (x :: xs) →
  ∃ s', exec (plist_next self) s = Done (Some (default x (hd_error xs)).2) s' ∧
    repr is_ring s' (<[self := xs ++ [x]]> C) ∧ nodes s' = nodes s ∧ only_touches self [] s s'.
Proof.
  intros Hr Hring HC. pose proof (proj1 Hr _ _ HC) as Hcirc. unfold holds in Hcirc. rewrite Hring in Hcirc.
  destruct (next_rotates (λ _, false) s self x xs Hcirc) as (s' & Hex & Hcirc' & Hn & Hl & _).
  assert (Ht : only_touches self [] s s') by (split; [intros; by rewrite Hn|done]).
  exists s'. split; [exact Hex|]. split; [|done].
  eapply repr_update; [done|done|exact Ht|constructor|by rewrite Hn|]. unfold holds. by rewrite Hring.
Qed.

(** What a ring offers next. *)
Lemma exec_peek_next s C self x xs :
  repr is_ring s C → is_ring self = true → C !! self = Some (x :: xs) →
  exec (peek_next self) s = Done (Some (default x (hd_error xs)).2) s.
Proof.
  intros Hr Hring HC. pose proof (proj1 Hr _ _ HC) as Hcirc. unfold holds in Hcirc. rewrite Hring in Hcirc.
  destruct Hcirc as ((h & Hl & _) & [Hx Hs] & _).
  unfold peek_next, deref_list, value_at, deref. cbn. rewrite Hl. cbn. rewrite Hx. cbn.
  destruct xs as [|y ys]; cbn; [by rewrite Hx|]. destruct Hs as [Hy _]. by rewrite Hy.
Qed.
Lemma exec_peek_next_nil s C self :
  repr is_ring s C → is_ring self = true → C !! self = Some [] → exec (peek_next self) s = Done None s.
Proof.
  intros Hr Hring HC. pose proof (proj1 Hr _ _ HC) as Hcirc. unfold holds in Hcirc. rewrite Hring in Hcirc.
  destruct Hcirc as ((h & Hl & _) & _). unfold peek_next, deref_list. cbn. by rewrite Hl.
Qed.
(** The front of a linear list. *)
Lemma exec_peek_front s C self xs :
  repr is_ring s C → is_ring self = false → C !! self = Some xs →
  exec (peek_front self) s = Done (snd <$> hd_error xs) s.
Proof.
  intros Hr Hring HC. pose proof (proj1 Hr _ _ HC) as Hlin. unfold holds in Hlin. rewrite Hring in Hlin.
  destruct Hlin as (Hl & Hs & _). unfold peek_front, deref_list, value_at, deref. cbn. rewrite Hl. cbn.
  destruct xs as [|x xs]; [done|]. destruct Hs as [Hx _]. cbn. by rewrite Hx.
Qed.

Lemma repr_sorted_insert gt s C self op x v xs :
  repr is_ring s C → is_ring self = false → C !! self = Some xs → free s x v →
  ∃ l r s', split_gt gt v xs = (l, r) ∧ xs = l ++ r ∧
    exec (sorted_insert gt timer_list self op x) s = Done tt s' ∧
    repr is_ring s' (<[self := l ++ (x, v) :: r]> C) ∧ only_touches self (x :: xs.*1) s s'.
Proof.
  intros Hr Hring HC Hf. pose proof (proj1 Hr _ _ HC) as Hlin. unfold holds in Hlin. rewrite Hring in Hlin.
  pose proof (repr_length _ _ _ _ _ Hr HC) as Hlen. pose proof Hf as (n & Hn & Hnl & Hv).
  pose proof Hlin as (Hl & Hs & Hnd). pose proof (free_fresh _ _ _ _ _ _ _ Hf Hs) as Hx.
  destruct (split_gt gt v xs) as [l r] eqn:E. pose proof (split_gt_app _ _ _ _ _ E) as ->.
  set (b := timer_list self). set (w := encode_micro op (Z.of_nat (length (l ++ r)))). set (s1 := apply (UMicro b w) s).
  set (us := clear_upds x ++ insert_sorted_upds self x l r (uadd (Z.of_nat (length (l ++ r))) 1)).
  assert (Hperf : performs (sorted_insert gt timer_list self op x) s (UMicro b w :: us) tt).
  { unfold sorted_insert. performs_step. eapply performs_assign_bind; [done|]. cbn [len].
    apply (performs_insert_again gt s1 self x n l r _ None). apply apply_micro_before_insert.
    split_and!; try done. by rewrite Hv. }
  assert (Ht : only_touches self (x :: (l ++ r).*1) s (apply_list us s1)).
  { eapply micro_touches. assert (He : ∀ p, last_or None l = Some p → p ∈ l.*1).
    { by intros p [?|[_ [=]]]%last_or_elem. }
    unfold us, insert_sorted_upds, link_upds, clear_upds. rewrite fmap_app. clear - He.
    destruct (last_or None l), r; touches. }
  exists l, r, (apply_list us s1). split; [done|]. split; [done|]. split; [by apply performs_exec in Hperf|].
  split; [|done]. eapply repr_update; [done|done|exact Ht| |by rewrite size_apply_list; apply size_apply|].
  - constructor; [right; eauto|apply writable_members].
  - unfold holds. rewrite Hring, <-Hv. apply insert_sorted_contents; [by apply micro_linear|by unfold s1; destruct b|done|].
    rewrite uadd_small; lia.
Qed.
End repr_ops.
