(* ===== verification/Kernel.v ===== *)
(** * The kernel's state: tasks, lists and operation logs

    The nodes of all lists live in one list store: a task's [sched_node] and
    [event_node] and the nodes of timers; the lists are the ready list of each
    priority, the delay list, the wait lists of queues, semaphores and event
    groups, and the timer daemon's active list. *)

From S2P Require Import Prelude Arch Pmem TxCache Transaction Replay UserTx Util PList.

Inductive nid := SchedNode (t : nat) | EventNode (t : nat) | TimerNode (t : nat).
Inductive lid := ReadyList (prio : nat) | DelayList | WaitList (w : nat) | ActiveList.
#[export] Instance nid_eq_dec : EqDecision nid.
Proof. solve_decision. Defined.
#[export] Instance lid_eq_dec : EqDecision lid.
Proof. solve_decision. Defined.
#[export] Instance nid_countable : Countable nid.
Proof.
  apply (inj_countable' (λ n, match n with SchedNode t => inl (inl t) | EventNode t => inl (inr t) | TimerNode t => inr t end)
    (λ x, match x with inl (inl t) => SchedNode t | inl (inr t) => EventNode t | inr t => TimerNode t end)).
  by intros [].
Defined.
#[export] Instance lid_countable : Countable lid.
Proof.
  apply (inj_countable' (λ n, match n with ReadyList p => inl p | WaitList w => inr (inl w) | DelayList => inr (inr false) | ActiveList => inr (inr true) end)
    (λ x, match x with inl p => ReadyList p | inr (inl w) => WaitList w | inr (inr false) => DelayList | inr (inr true) => ActiveList end)).
  by intros [].
Defined.

(** [SchedListItem], [BlockedListItem], [TimerListItem]: the value of a node. *)
Inductive item :=
| SchedItem (t : nat) (wakeup_time : Z)
| BlockItem (t : nat) (opaque : Z)
| TimerItem (timer : nat) (expiry_time : Z).

Definition item_task (i : item) : option nat :=
  match i with SchedItem t _ | BlockItem t _ => Some t | TimerItem _ _ => None end.

Inductive TaskState := Ready | Blocked | Running | Killed.
#[export] Instance TaskState_eq_dec : EqDecision TaskState.
Proof. solve_decision. Defined.

(** [Task]: the scheduler's fields next to the transactional ones ([utask]). *)
Record tcb := {
  priority : nat;
  status : TaskState;
  utask : task;
}.

(** [Priority] orders reversed: a smaller value is a higher priority. *)
Definition prio_lt (a b : nat) : bool := (b <? a)%nat.
Definition is_higher_than (a b : nat) : bool := (a <? b)%nat.
Definition is_lower_than (a b : nat) : bool := (b <? a)%nat.

(** [ListTxOpCode] *)
Inductive ListTxOpCode :=
| TxInvalid | WaitListPopRemoval | WaitListInsert | WaitListRemoval | UnsortedWaitListInsert
| DelayListRemoval | DelayListInsert | ReadyListInsert | ActiveListRemove | ActiveListRemoveReInsert
| ActiveListPopReInsert | ActiveListPop | ActiveListTxCommitted | TxReadyListNext.
#[export] Instance ListTxOpCode_eq_dec : EqDecision ListTxOpCode.
Proof. solve_decision. Defined.

(** [ListTxOpLog] without its [micro_op_old_len], which is in the list store. *)
Record ListTxOpLog := {
  op : ListTxOpCode;
  block_node_ptr : option nid;
  task_ptr : option nat;
  wait_list_ptr : option lid;
}.

(** [TIME_MANAGER] *)
Record TimeManager := {
  tick_counter : Z;
  next_unblock_time : Z;
  next_expiry_time : Z;
}.

(** The boot transaction ([BOOT_TX] and its companions in [recover.rs]). *)
Record boot_state := {
  boot_tx : tx_state;
  first_boot_done : bool;
  current_generation : Z;
  in_context_switch_tx : Z;
}.

(** [kmem] is the memory of the kernel's objects, which the transactions of all
    tasks share; the copy in a task's own record is not used. *)
Record kernel := {
  ls : lstore nid lid item;
  tasks : gmap nat tcb;
  klog : ListTxOpLog;
  timer_log : ListTxOpLog;
  current_task : option nat;
  tm : TimeManager;
  kcpu : cpu;
  kmem : list Z;
  boot : boot_state;
  timer_daemon_task : option nat;
}.

Definition with_ls (x : lstore nid lid item) (k : kernel) : kernel :=
  Build_kernel x (tasks k) (klog k) (timer_log k) (current_task k) (tm k) (kcpu k) (kmem k) (boot k) (timer_daemon_task k).
Definition with_tasks (f : (gmap nat tcb) → (gmap nat tcb)) (k : kernel) : kernel :=
  Build_kernel (ls k) (f (tasks k)) (klog k) (timer_log k) (current_task k) (tm k) (kcpu k) (kmem k) (boot k) (timer_daemon_task k).
Definition with_klog (f : ListTxOpLog → ListTxOpLog) (k : kernel) : kernel :=
  Build_kernel (ls k) (tasks k) (f (klog k)) (timer_log k) (current_task k) (tm k) (kcpu k) (kmem k) (boot k) (timer_daemon_task k).
Definition with_timer_log (f : ListTxOpLog → ListTxOpLog) (k : kernel) : kernel :=
  Build_kernel (ls k) (tasks k) (klog k) (f (timer_log k)) (current_task k) (tm k) (kcpu k) (kmem k) (boot k) (timer_daemon_task k).
Definition with_current (x : option nat) (k : kernel) : kernel :=
  Build_kernel (ls k) (tasks k) (klog k) (timer_log k) x (tm k) (kcpu k) (kmem k) (boot k) (timer_daemon_task k).
Definition with_tm (f : TimeManager → TimeManager) (k : kernel) : kernel :=
  Build_kernel (ls k) (tasks k) (klog k) (timer_log k) (current_task k) (f (tm k)) (kcpu k) (kmem k) (boot k) (timer_daemon_task k).
Definition with_cpu (f : cpu → cpu) (k : kernel) : kernel :=
  Build_kernel (ls k) (tasks k) (klog k) (timer_log k) (current_task k) (tm k) (f (kcpu k)) (kmem k) (boot k) (timer_daemon_task k).
Definition with_kmem (x : list Z) (k : kernel) : kernel :=
  Build_kernel (ls k) (tasks k) (klog k) (timer_log k) (current_task k) (tm k) (kcpu k) x (boot k) (timer_daemon_task k).
Definition with_boot (f : boot_state → boot_state) (k : kernel) : kernel :=
  Build_kernel (ls k) (tasks k) (klog k) (timer_log k) (current_task k) (tm k) (kcpu k) (kmem k) (f (boot k)) (timer_daemon_task k).
Definition with_timer_daemon (x : option nat) (k : kernel) : kernel :=
  Build_kernel (ls k) (tasks k) (klog k) (timer_log k) (current_task k) (tm k) (kcpu k) (kmem k) (boot k) x.

#[export] Instance ls_lens : Lens (lstore nid lid item) kernel := {| lget := ls; lset := with_ls |}.
#[export] Instance ls_lens_laws : LensLaws (lstore nid lid item) kernel.
Proof. by split; try done; intros []. Qed.
#[export] Instance cpu_lens : Lens cpu kernel := {| lget := kcpu; lset := λ c, with_cpu (λ _, c) |}.
#[export] Instance cpu_lens_laws : LensLaws cpu kernel.
Proof. by split; try done; intros []. Qed.

Definition set_op (o : ListTxOpCode) (l : ListTxOpLog) : ListTxOpLog :=
  Build_ListTxOpLog o (block_node_ptr l) (task_ptr l) (wait_list_ptr l).
Definition set_bnp (p : option nid) (l : ListTxOpLog) : ListTxOpLog :=
  Build_ListTxOpLog (op l) p (task_ptr l) (wait_list_ptr l).
Definition set_tp (p : option nat) (l : ListTxOpLog) : ListTxOpLog :=
  Build_ListTxOpLog (op l) (block_node_ptr l) p (wait_list_ptr l).
Definition set_wlp (p : option lid) (l : ListTxOpLog) : ListTxOpLog :=
  Build_ListTxOpLog (op l) (block_node_ptr l) (task_ptr l) p.

(** A task together with the memory [m]. *)
Definition task_with_mem (m : list Z) (u : task) : task :=
  with_tx (with_pm {| bytes := m; journal := journal (tx_pm (tx u)) |} (tx u)) u.
(** The fields of task [t]; [d] stands for them if there is no such task. *)
Definition task_lens (t : nat) (d : task) : Lens task kernel := {|
  lget := λ k, task_with_mem (kmem k) (default d (utask <$> tasks k !! t));
  lset := λ u k, with_kmem (bytes (tx_pm (tx u)))
            (with_tasks (alter (λ b, Build_tcb (priority b) (status b) (task_with_mem [] u)) t) k);
|}.

(** Timer items record their operations in the timer daemon's log. *)
Definition is_active_list (l : lid) : bool := match l with ActiveList => true | _ => false end.

(** The order of the values: [SchedListItem] and [TimerListItem] by time,
    [BlockedListItem] by the priority of its task (whose order is reversed). *)
Definition item_gt (ts : gmap nat tcb) (a b : item) : bool :=
  match a, b with
  | SchedItem _ ta, SchedItem _ tb => tb <? ta
  | TimerItem _ ta, TimerItem _ tb => tb <? ta
  | BlockItem a _, BlockItem b _ =>
      match ts !! a, ts !! b with
      | Some ta, Some tb => prio_lt (priority tb) (priority ta)
      | _, _ => false
      end
  | _, _ => false
  end.

Section kernel.
Context `{Arch} (time_bits : Z).

Definition MAX_DELAY_TIME : Z := 2 ^ time_bits - 1.
Definition time_checked_add (a b : Z) : option Z := if a + b <=? MAX_DELAY_TIME then Some (a + b) else None.

Definition on_lists {A} (p : prog (lstore nid lid item) A) : prog kernel A := zoom p.

Definition deref_task (t : nat) : prog kernel tcb :=
  let* k := get in unwrap_unchecked (tasks k !! t).
(** [current()]: [unwrap_unchecked] of the task pointer. *)
Definition current : prog kernel nat :=
  let* k := get in unwrap_unchecked (current_task k).

Definition set_status (t : nat) (st : TaskState) : prog kernel unit :=
  let* _ := deref_task t in
  modify (with_tasks (alter (λ b, Build_tcb (priority b) st (utask b)) t)).
Definition get_status (t : nat) : prog kernel TaskState :=
  let* b := deref_task t in Ret (status b).
Definition is_schedulable (b : tcb) : bool :=
  bool_decide (status b = Ready) || bool_decide (status b = Running).

(** A step of a task's own fields, over the kernel's memory. *)
Definition on_task {A} (t : nat) (p : prog task A) : prog kernel A :=
  let* b := deref_task t in zoom (Lens0 := task_lens t (utask b)) p.

(** [set_wakeup_time], [get_wakeup_time]: the value of the [sched_node]. *)
Definition set_value (n : nid) (v : item) : prog kernel unit :=
  on_lists (let* _ := deref n in
            modify (with_nodes (alter (λ m, Build_Node (prev m) (next m) (nlist m) v) n))).
Definition set_wakeup_time (t : nat) (time : Z) : prog kernel unit :=
  set_value (SchedNode t) (SchedItem t time).
Definition get_wakeup_time (t : nat) : prog kernel Z :=
  let* n := on_lists (deref (SchedNode t)) in
  match value n with SchedItem _ w => Ret w | _ => Fail Undefined end.

(** [set_block_item_value], [reset_block_item_value] *)
Definition set_block_item_value (t : nat) (opaque : Z) : prog kernel unit :=
  set_value (EventNode t) (BlockItem t opaque).
Definition get_block_item_value (t : nat) : prog kernel Z :=
  let* n := on_lists (deref (EventNode t)) in
  match value n with BlockItem _ o => Ret o | _ => Fail Undefined end.
Definition reset_block_item_value (t : nat) : prog kernel Z :=
  let* ret := get_block_item_value t in
  set_block_item_value t 0;;;
  Ret ret.

(** *** [TimeManager] *)
Definition get_ticks : prog kernel Z := gets (λ k, tick_counter (tm k)).
Definition get_next_unblock_time : prog kernel Z := gets (λ k, next_unblock_time (tm k)).
Definition set_next_unblock_time (x : Z) : prog kernel unit :=
  modify (with_tm (λ m, Build_TimeManager (tick_counter m) x (next_expiry_time m))).
Definition set_next_expiry_time (x : Z) : prog kernel unit :=
  modify (with_tm (λ m, Build_TimeManager (tick_counter m) (next_unblock_time m) x)).
(** The addition wraps in a release build. *)
Definition inc_tick (x : Z) : prog kernel Z :=
  let* v := get_ticks in
  let v := (v + x) mod 2 ^ time_bits in
  modify (with_tm (λ m, Build_TimeManager v (next_unblock_time m) (next_expiry_time m)));;;
  Ret v.

(** *** The lists with their item types *)
Definition circular_insert (l : lid) (n : nid) : prog kernel unit :=
  on_lists (optimized_insert_before_cursor is_active_list l n).
Definition sorted_op (l : lid) : ListOpCode :=
  match l with WaitList _ => InsertSortedWaitList | _ => InsertSortedDelayList end.
Definition sorted_list_insert (l : lid) (n : nid) : prog kernel unit :=
  let* k := get in
  on_lists (sorted_insert (item_gt (tasks k)) is_active_list l (sorted_op l) n).
Definition list_remove (l : lid) (n : nid) : prog kernel unit :=
  on_lists (optimized_remove is_active_list l n).
Definition list_pop_front (l : lid) : prog kernel (option nid) :=
  on_lists (optimized_pop_front is_active_list l).
Definition unsorted_insert (l : lid) (n : nid) : prog kernel unit :=
  on_lists (optimized_insert_front is_active_list l n).

(** *** [add_to_ready_list] and its companions *)
Definition ready_list_of (t : nat) : prog kernel lid :=
  let* b := deref_task t in Ret (ReadyList (priority b)).

Definition add_to_delayed_list (t : nat) : prog kernel unit :=
  set_status t Blocked;;;
  sorted_list_insert DelayList (SchedNode t);;;
  let* unblock_time := get_wakeup_time t in
  let* nu := get_next_unblock_time in
  when (unblock_time <? nu) (set_next_unblock_time unblock_time).

Definition remove_from_delayed_list (t : nat) : prog kernel unit :=
  list_remove DelayList (SchedNode t).

Definition add_to_ready_list (t : nat) : prog kernel unit :=
  let* l := ready_list_of t in
  circular_insert l (SchedNode t);;;
  set_status t Ready.

Definition remove_from_ready_list (t : nat) : prog kernel unit :=
  let* l := ready_list_of t in
  list_remove l (SchedNode t).

Definition less_important_than (a b : tcb) : bool := prio_lt (priority a) (priority b).
End kernel.
