(* ===== verification/ListTx.v ===== *)
(** * Composite list operations and their recovery (first half of [list.rs])

    Moving a task between lists takes several list operations. The kernel's log
    names the composite operation ([tx_op]); the log word names the list operation
    in progress. After a power failure the composite operation is rolled forward
    from there. *)

From S2P Require Import Prelude Arch Pmem TxCache Transaction Replay UserTx Util PList Kernel.

Section list_tx.
Context `{Arch} (time_bits : Z).

(** *** [ListTxOpLog] *)
Definition set_tx_op (o : ListTxOpCode) : prog kernel unit := modify (with_klog (set_op o)).
Definition set_block_node_ptr (p : option nid) : prog kernel unit := modify (with_klog (set_bnp p)).
Definition set_task_ptr (p : option nat) : prog kernel unit := modify (with_klog (set_tp p)).
Definition set_wait_list_ptr (p : option lid) : prog kernel unit := modify (with_klog (set_wlp p)).
Definition set_micro_op_old_len (timer : bool) (o : ListOpCode) (old_len : Z) : prog kernel unit :=
  on_lists (assign (UMicro timer (encode_micro o old_len))).
Definition clear_micro (timer : bool) : prog kernel unit := on_lists (assign (UMicro timer 0)).

(** The transmute of an unknown operation code is undefined. *)
Definition read_micro (timer : bool) : prog kernel (ListOpCode * Z) :=
  let* k := get in
  let w := if timer then timer_micro (ls k) else micro (ls k) in
  let* o := unwrap_unchecked (get_micro_op w) in
  Ret (o, get_old_len w).

Definition set_list_tx_done (t : nat) (b : bool) : prog kernel unit :=
  on_task t (modify (with_list_tx_done b)).
Definition list_transaction_done (t : nat) : prog kernel bool :=
  let* b := deref_task t in Ret (list_tx_done (utask b)).
Definition in_recovery_mode (t : nat) : prog kernel bool :=
  let* b := deref_task t in Ret (may_bypass (user_tx (user_tx_info (utask b)))).

Definition log_commit : prog kernel unit :=
  clear_micro false;;;
  let* t := current in
  set_list_tx_done t true;;;
  set_tx_op TxInvalid.
Definition log_invalidate : prog kernel unit := clear_micro false;;; set_tx_op TxInvalid.
Definition set_timer_tx_op (o : ListTxOpCode) : prog kernel unit := modify (with_timer_log (set_op o)).
Definition set_timer_node_ptr (p : option nid) : prog kernel unit := modify (with_timer_log (set_bnp p)).
Definition commit_activelist : prog kernel unit :=
  set_timer_tx_op ActiveListTxCommitted;;; clear_micro true.
Definition invalidate_activelist : prog kernel unit := set_timer_tx_op TxInvalid.
Definition timer_log_invalidate : prog kernel unit := clear_micro true;;; set_timer_tx_op TxInvalid.

(** The task of a node's value. *)
Definition node_task (n : nid) : prog kernel nat :=
  let* m := on_lists (deref n) in unwrap_unchecked (item_task (value m)).
Definition node_list (n : nid) : prog kernel (option lid) :=
  let* m := on_lists (deref n) in Ret (nlist m).

(** A transaction that has committed its list operation skips it on replay. *)
Definition bypass_list_tx (p : prog kernel unit) : prog kernel unit :=
  let* t := current in
  let* d := list_transaction_done t in
  if d then let* r := in_recovery_mode t in assert_ (negb debug_assertions || r)
  else p.

(** *** Waking the first task of a wait list *)

Definition roll_forward_pop_remove_from_waitlist (wl : lid) : prog kernel unit :=
  bypass_list_tx (
    let* l := on_lists (deref_list wl) in
    set_block_node_ptr (head l);;;
    set_tx_op WaitListPopRemoval;;;
    let* r := list_pop_front wl in
    (match r with
     | Some node =>
         let* t := node_task node in
         remove_from_delayed_list t;;;
         add_to_ready_list t
     | None => skip
     end);;;
    log_commit).

(** Finishing the insertion of a task into its ready list. *)
Definition recover_ready_insert (t : nat) (old_len : Z) : prog kernel unit :=
  let* l := ready_list_of t in
  on_lists (recover_from_failed_insert_before_cursor l (SchedNode t) old_len);;;
  set_status t Ready.

(** Finishing a pop unless the node has already left its list. *)
Definition recover_pop (node : nid) (old_len : Z) : prog kernel unit :=
  let* l := node_list node in
  match l with
  | None => skip
  | Some l => on_lists (recover_from_failed_pop_front is_active_list l node old_len)
  end.

Definition recover_and_roll_forward_of_waitlist_pop_remove : prog kernel unit :=
  let* (opcode, old_len) := read_micro false in
  let* k := get in
  let* node := unwrap_unchecked (block_node_ptr (klog k)) in
  (match opcode with
   | PopFront =>
       recover_pop node old_len;;;
       let* t := node_task node in
       remove_from_delayed_list t;;;
       add_to_ready_list t
   | OpRemove =>
       let* t := node_task node in
       on_lists (recover_from_failed_remove DelayList (SchedNode t) old_len);;;
       add_to_ready_list t
   | InsertBeforeCursor => let* t := node_task node in recover_ready_insert t old_len
   | OpInvalid => skip
   | _ => Fail Panic
   end);;;
  log_commit.

(** *** Waking a given task of an event group *)

Definition roll_forward_remove_from_unsorted_waitlist (wl : lid) (node : nid) : prog kernel unit :=
  set_block_node_ptr (Some node);;;
  set_tx_op WaitListRemoval;;;
  list_remove wl node;;;
  let* t := node_task node in
  remove_from_delayed_list t;;;
  add_to_ready_list t;;;
  log_invalidate.

Definition recover_and_roll_forward_of_unsorted_waitlist_remove : prog kernel unit :=
  let* (opcode, old_len) := read_micro false in
  let* k := get in
  let* node := unwrap_unchecked (block_node_ptr (klog k)) in
  (match opcode with
   | OpRemove =>
       let* l := node_list node in
       match l with
       | None =>
           let* t := node_task node in
           on_lists (recover_from_failed_remove DelayList (SchedNode t) old_len);;;
           add_to_ready_list t
       | Some l =>
           on_lists (recover_from_failed_remove l node old_len);;;
           let* t := node_task node in
           remove_from_delayed_list t;;;
           add_to_ready_list t
       end
   | InsertBeforeCursor => let* t := node_task node in recover_ready_insert t old_len
   | OpInvalid => skip
   | _ => Fail Panic
   end);;;
  log_invalidate.

(** *** Blocking a task on a wait list *)

Definition roll_forward_insert_into_waitlist (wl : lid) (t : nat) : prog kernel unit :=
  set_wait_list_ptr (Some wl);;;
  set_tx_op WaitListInsert;;;
  remove_from_ready_list t;;;
  sorted_list_insert wl (EventNode t);;;
  add_to_delayed_list t;;;
  log_invalidate.

Definition atomic_roll_forward_insert_into_waitlist (wl : lid) (t : nat) (wakeup_time : Z) : prog kernel unit :=
  set_wakeup_time t wakeup_time;;;
  roll_forward_insert_into_waitlist wl t.

Definition roll_forward_insert_into_unsorted_waitlist (wl : lid) (t : nat) : prog kernel unit :=
  set_wait_list_ptr (Some wl);;;
  set_tx_op UnsortedWaitListInsert;;;
  remove_from_ready_list t;;;
  unsorted_insert wl (EventNode t);;;
  add_to_delayed_list t;;;
  log_invalidate.

(** Finishing a sorted insertion. *)
Definition recover_sorted (l : lid) (node : nid) (old_len : Z) : prog kernel unit :=
  let* k := get in
  on_lists (recover_from_failed_insert_sorted (item_gt (tasks k)) l node old_len).
Definition recover_delay_insert (t : nat) (old_len : Z) : prog kernel unit :=
  recover_sorted DelayList (SchedNode t) old_len;;;
  set_status t Blocked.

Definition recover_and_roll_forward_of_waitlist_insert : prog kernel unit :=
  let* (opcode, old_len) := read_micro false in
  let* k := get in
  let* wl := unwrap_unchecked (wait_list_ptr (klog k)) in
  let* t := current in
  (match opcode with
   | OpRemove =>
       let* l := ready_list_of t in
       on_lists (recover_from_failed_remove l (SchedNode t) old_len);;;
       sorted_list_insert wl (EventNode t);;;
       add_to_delayed_list t
   | InsertSortedWaitList =>
       recover_sorted wl (EventNode t) old_len;;;
       add_to_delayed_list t
   | InsertSortedDelayList => recover_delay_insert t old_len
   | OpInvalid => skip
   | _ => Fail Panic
   end);;;
  log_invalidate.

Definition recover_and_roll_forward_of_unsorted_waitlist_insert : prog kernel unit :=
  let* (opcode, old_len) := read_micro false in
  let* k := get in
  let* wl := unwrap_unchecked (wait_list_ptr (klog k)) in
  let* t := current in
  (match opcode with
   | OpRemove =>
       let* l := ready_list_of t in
       on_lists (recover_from_failed_remove l (SchedNode t) old_len);;;
       unsorted_insert wl (EventNode t);;;
       add_to_delayed_list t
   | InsertFront =>
       on_lists (recover_from_failed_insert_front wl (EventNode t) old_len);;;
       add_to_delayed_list t
   | InsertSortedDelayList => recover_delay_insert t old_len
   | OpInvalid => skip
   | _ => Fail Panic
   end);;;
  log_invalidate.

(** *** Waking the first task of the delay list *)

(** Taking a woken task off the wait list it is in, if any. *)
Definition leave_wait_list (t : nat) : prog kernel unit :=
  let* l := node_list (EventNode t) in
  match l with Some wl => list_remove wl (EventNode t) | None => skip end.

Definition roll_forward_remove_from_delaylist : prog kernel unit :=
  set_tx_op DelayListRemoval;;;
  let* r := list_pop_front DelayList in
  let* sched_node := unwrap_unchecked r in
  let* t := node_task sched_node in
  leave_wait_list t;;;
  add_to_ready_list t;;;
  log_invalidate.

Definition recover_and_roll_forward_of_delaylist_removal : prog kernel unit :=
  let* (opcode, old_len) := read_micro false in
  let* k := get in
  let* node := unwrap_unchecked (block_node_ptr (klog k)) in
  (match opcode with
   | PopFront =>
       recover_pop node old_len;;;
       let* t := node_task node in
       leave_wait_list t;;;
       add_to_ready_list t
   | OpRemove =>
       let* t := node_task node in
       let* l := node_list (EventNode t) in
       let* wl := unwrap_unchecked l in
       on_lists (recover_from_failed_remove wl (EventNode t) old_len);;;
       add_to_ready_list t
   | InsertBeforeCursor => let* t := node_task node in recover_ready_insert t old_len
   | OpInvalid => skip
   | _ => Fail Panic
   end);;;
  log_invalidate.

(** *** Delaying the current task *)

Definition roll_forward_insert_into_delaylist : prog kernel unit :=
  bypass_list_tx (
    set_tx_op DelayListInsert;;;
    let* t := current in
    remove_from_ready_list t;;;
    add_to_delayed_list t;;;
    log_commit).

Definition recover_and_roll_forward_of_delaylist_insert : prog kernel unit :=
  let* (opcode, old_len) := read_micro false in
  let* t := current in
  (match opcode with
   | OpRemove =>
       let* l := ready_list_of t in
       on_lists (recover_from_failed_remove l (SchedNode t) old_len);;;
       add_to_delayed_list t
   | InsertSortedDelayList => recover_delay_insert t old_len
   | OpInvalid => skip
   | _ => Fail Panic
   end);;;
  log_commit.

(** *** Making a new task ready *)

Definition roll_forward_insert_into_readylist (t : nat) : prog kernel unit :=
  set_task_ptr (Some t);;;
  set_tx_op ReadyListInsert;;;
  add_to_ready_list t;;;
  log_invalidate.

Definition recover_and_roll_forward_of_readylist_insert : prog kernel unit :=
  let* (opcode, old_len) := read_micro false in
  let* k := get in
  let* t := unwrap_unchecked (task_ptr (klog k)) in
  (match opcode with
   | InsertBeforeCursor => recover_ready_insert t old_len
   | OpInvalid => skip
   | _ => Fail Panic
   end);;;
  log_commit.

(** *** The timer daemon's active list *)

Definition atomic_roll_forward_remove_reinsert_into_activelist (node : nid) : prog kernel unit :=
  set_timer_node_ptr (Some node);;;
  set_timer_tx_op ActiveListRemoveReInsert;;;
  list_remove ActiveList node;;;
  sorted_list_insert ActiveList node;;;
  commit_activelist.

(** The result [false] stands for [Err(())]: nothing had been logged yet. *)
Definition recover_and_roll_forward_of_activelist_remove_reinsert : prog kernel bool :=
  let* (opcode, old_len) := read_micro true in
  let* k := get in
  let* node := unwrap_unchecked (block_node_ptr (timer_log k)) in
  match opcode with
  | OpRemove =>
      let* l := node_list node in
      when (bool_decide (l ≠ None)) (on_lists (recover_from_failed_remove ActiveList node old_len));;;
      sorted_list_insert ActiveList node;;;
      commit_activelist;;;
      Ret true
  | InsertSortedDelayList =>
      recover_sorted ActiveList node old_len;;;
      commit_activelist;;;
      Ret true
  | OpInvalid => Ret false
  | _ => Fail Panic
  end.

Definition atomic_roll_forward_pop_reinsert_into_activelist : prog kernel unit :=
  let* l := on_lists (deref_list ActiveList) in
  set_timer_node_ptr (head l);;;
  set_timer_tx_op ActiveListPopReInsert;;;
  let* popped := list_pop_front ActiveList in
  (match popped with Some n => sorted_list_insert ActiveList n | None => skip end);;;
  commit_activelist.

Definition recover_and_roll_forward_of_activelist_pop_reinsert : prog kernel bool :=
  let* (opcode, old_len) := read_micro true in
  let* k := get in
  let* node := unwrap_unchecked (block_node_ptr (timer_log k)) in
  match opcode with
  | PopFront =>
      recover_pop node old_len;;;
      sorted_list_insert ActiveList node;;;
      commit_activelist;;;
      Ret true
  | InsertSortedDelayList =>
      recover_sorted ActiveList node old_len;;;
      commit_activelist;;;
      Ret true
  | OpInvalid => Ret false
  | _ => Fail Panic
  end.

Definition atomic_roll_forward_remove_from_activelist (node : nid) : prog kernel unit :=
  set_timer_node_ptr (Some node);;;
  set_timer_tx_op ActiveListRemove;;;
  list_remove ActiveList node;;;
  commit_activelist.

Definition recover_and_roll_forward_of_activelist_remove : prog kernel bool :=
  let* (opcode, old_len) := read_micro true in
  let* k := get in
  let* node := unwrap_unchecked (block_node_ptr (timer_log k)) in
  match opcode with
  | OpRemove =>
      on_lists (recover_from_failed_remove ActiveList node old_len);;;
      commit_activelist;;;
      Ret true
  | OpInvalid => Ret false
  | _ => Fail Panic
  end.

(** *** Switching tasks *)

Definition atomic_roll_foward_context_switch (t prev_task : nat) (readylist : lid) : prog kernel unit :=
  set_task_ptr (Some prev_task);;;
  set_micro_op_old_len false ReadyListNext 0;;;
  set_status t Running;;;
  let* st := get_status prev_task in
  when (bool_decide (st ≠ Blocked)) (set_status prev_task Ready);;;
  on_lists (plist_next readylist);;;
  modify (with_current (Some t));;;
  set_micro_op_old_len false OpInvalid 0.

Definition recover_and_roll_forward_context_switch : prog kernel unit :=
  let* k := get in
  let* opcode := unwrap_unchecked (get_micro_op (micro (ls k))) in
  match opcode with
  | ReadyListNext =>
      let* prev_task := unwrap (task_ptr (klog k)) in
      let* rdlist := ready_list_of prev_task in
      let* c := on_lists (plist_cursor rdlist) in
      let* cursor := unwrap c in
      let* ct := unwrap_unchecked (item_task cursor) in
      (if decide (ct = prev_task) then
         set_status prev_task Ready;;;
         let* n := on_lists (plist_next rdlist) in
         let* n := unwrap n in
         let* t := unwrap_unchecked (item_task n) in
         set_status t Running;;;
         modify (with_current (Some t))
       else
         set_status ct Running;;;
         modify (with_current (Some ct)));;;
      set_micro_op_old_len false OpInvalid 0
  | OpInvalid => skip
  | _ => Fail Panic
  end.
End list_tx.
