(* ===== verification/Sched.v ===== *)
(** * The scheduler and the recovery of the kernel ([task.rs], [recover.rs])

    The tick handler, delaying, switching tasks and what runs first after a
    power failure. *)

From S2P Require Import Prelude Arch Pmem TxCache Transaction Replay UserTx Util PList Kernel ListTx.

Section sched.
Context `{Arch, Board, TxFeatures} (time_bits : Z).
(** The trap that asks for a context switch; the trap handlers are assembly code.
    On the MSP430, without the feature [power_failure], the tick handler switches
    tasks itself ([tick_switches]). *)
Context (arch_yield : prog kernel unit) (tick_switches : bool).

Definition NUM_PRIORITY_LEVELS : nat := 8.

(** The first task of the delay list with its time. *)
Definition delay_front : prog kernel (option (nat * Z)) :=
  let* v := on_lists (peek_front DelayList) in
  match v with
  | None => Ret None
  | Some (SchedItem t w) => Ret (Some (t, w))
  | Some _ => Fail Undefined
  end.

(** The loop of [process_tick]: wake the tasks whose time has come. *)
Fixpoint wake_loop (fuel : nat) (cur_ticks : Z) : prog kernel unit :=
  let* v := delay_front in
  match v with
  | None => skip
  | Some (_, wakeup_time) =>
      if cur_ticks <? wakeup_time then skip else
      match fuel with
      | O => Fail Undefined
      | S fuel => roll_forward_remove_from_delaylist;;; wake_loop fuel cur_ticks
      end
  end.

Definition process_tick_body : prog kernel unit :=
  let* cur_ticks := inc_tick time_bits 1 in
  let* next_unblock_time := get_next_unblock_time in
  when (next_unblock_time <=? cur_ticks) (
    let* k := get in
    wake_loop (size (nodes (ls k))) cur_ticks;;;
    let* v := delay_front in
    set_next_unblock_time (match v with None => MAX_DELAY_TIME time_bits | Some (_, w) => w end)).

(** [task_delay] *)
Definition task_delay (nticks : Z) (yield_now : bool) : prog kernel unit :=
  with_no_interrupt (
    let* t := current in
    let* now := get_ticks in
    let* wakeup_time := unwrap (time_checked_add time_bits now nticks) in
    set_wakeup_time t wakeup_time;;;
    roll_forward_insert_into_delaylist);;;
  when yield_now arch_yield.

(** [task_switch]: the loop over the priorities; the result says whether a task
    was found. *)
Fixpoint switch_loop (prev_task : nat) (prios : list nat) : prog kernel bool :=
  match prios with
  | [] => Ret false
  | i :: prios =>
      let* v := on_lists (peek_next (ReadyList i)) in
      match v with
      | None => switch_loop prev_task prios
      | Some v =>
          let* t := unwrap_unchecked (item_task v) in
          let* k := get in
          on_task t (jit_recovery (current_generation (boot k)));;;
          (if decide (t = prev_task) then
             let* l := on_lists (deref_list (ReadyList i)) in
             assert_ (negb debug_assertions || (len l =? 1))
           else
             let* b := deref_task t in
             assert_ (negb debug_assertions || is_schedulable b);;;
             atomic_roll_foward_context_switch t prev_task (ReadyList i));;;
          Ret true
      end
  end.

Definition task_switch : prog kernel unit :=
  let* k := get in
  let* prev_task := unwrap (current_task k) in
  let* ok := switch_loop prev_task (seq 0 NUM_PRIORITY_LEVELS) in
  assert_ ok.

Definition process_tick : prog kernel unit :=
  with_no_interrupt (process_tick_body;;; when tick_switches task_switch).

(** ** [recover.rs] *)

Definition recover_list_transaction : prog kernel unit :=
  let* k := get in
  (match op (klog k) with
   | TxInvalid => skip
   | WaitListPopRemoval => recover_and_roll_forward_of_waitlist_pop_remove
   | WaitListInsert => recover_and_roll_forward_of_waitlist_insert
   | WaitListRemoval => recover_and_roll_forward_of_unsorted_waitlist_remove
   | UnsortedWaitListInsert => recover_and_roll_forward_of_unsorted_waitlist_insert
   | DelayListRemoval => recover_and_roll_forward_of_delaylist_removal
   | DelayListInsert => recover_and_roll_forward_of_delaylist_insert
   | ReadyListInsert => recover_and_roll_forward_of_readylist_insert
   | _ => Fail Panic
   end);;;
  recover_and_roll_forward_context_switch.

(** The user transaction of the timer daemon. *)
Definition finish_timer_tx (t : nat) : prog kernel unit :=
  on_task t user_tx_end;;;
  invalidate_activelist.
Definition commit_timer_tx (t : nat) : prog kernel unit :=
  on_task t (on_user_tx commit_no_replay_roll_forward);;;
  finish_timer_tx t.

Definition recover_timer_daemon_list_transaction : prog kernel unit :=
  let* k := get in
  match timer_daemon_task k with
  | None => skip
  | Some t =>
      let* committed := on_task t (on_user_tx check_committed) in
      if committed : bool then finish_timer_tx t
      else
        match op (timer_log k) with
        | TxInvalid => skip
        | ActiveListTxCommitted => commit_timer_tx t
        | ActiveListRemove =>
            let* ok := recover_and_roll_forward_of_activelist_remove in
            when ok (commit_timer_tx t)
        | ActiveListPopReInsert =>
            let* ok := recover_and_roll_forward_of_activelist_pop_reinsert in
            when ok (commit_timer_tx t)
        | ActiveListRemoveReInsert =>
            let* ok := recover_and_roll_forward_of_activelist_remove_reinsert in
            when ok (commit_timer_tx t)
        | _ => Fail Panic
        end
  end.

(** The boot transaction, over the kernel's memory. *)
Definition boot_tx_lens : Lens tx_state kernel := {|
  lget := λ k, with_pm {| bytes := kmem k; journal := journal (tx_pm (boot_tx (boot k))) |} (boot_tx (boot k));
  lset := λ x k, with_kmem (bytes (tx_pm x))
            (with_boot (λ b, Build_boot_state (with_pm {| bytes := []; journal := journal (tx_pm x) |} x)
               (first_boot_done b) (current_generation b) (in_context_switch_tx b)) k);
|}.
Definition on_boot_tx {A} (p : prog tx_state A) : prog kernel A := zoom (Lens0 := boot_tx_lens) p.

Definition exit_all_ctx_switch_tx : prog kernel unit :=
  modify (with_boot (λ b, Build_boot_state (boot_tx b) (first_boot_done b) (current_generation b) 0)).
Definition in_ctx_switch_tx (k : kernel) : bool := 0 <? in_context_switch_tx (boot k).
Definition increase_generation : prog kernel unit :=
  modify (with_boot (λ b, Build_boot_state (boot_tx b) (first_boot_done b)
    (uadd (current_generation b) 1) (in_context_switch_tx b))).
Definition complete_first_boot : prog kernel unit :=
  modify (with_boot (λ b, Build_boot_state (boot_tx b) true (current_generation b) (in_context_switch_tx b))).

Definition recover : prog kernel unit :=
  let* k := get in
  if negb (first_boot_done (boot k)) then
    on_boot_tx roll_back_if_uncommitted;;;
    recover_list_transaction
  else
    recover_list_transaction;;;
    recover_timer_daemon_list_transaction;;;
    let* k := get in
    (if in_ctx_switch_tx k then
       on_boot_tx roll_back_if_uncommitted;;;
       exit_all_ctx_switch_tx
     else
       let* t := current in
       when (is_in_critical (kcpu k)) (
         on_task t (zoom (S := tx_state) roll_back_if_uncommitted);;;
         zoom exit_all_critical));;;
    let* t := current in
    let* b := deref_task t in
    if is_schedulable b then
      let* k := get in
      on_task t (jit_recovery (current_generation (boot k)))
    else with_no_interrupt task_switch.

(** [idempotent_boot] *)
Definition idempotent_boot {S} `{!Lens kernel S} (f : prog S unit) : prog S unit :=
  let* done := zoom (gets (λ k, first_boot_done (boot k))) in
  if done : bool then skip
  else
    zoom (on_boot_tx (zoom reset_ptr));;;
    f;;;
    zoom complete_first_boot.
End sched.
