(* ===== verification/SchedInv.v ===== *)
(** * The scheduler's invariant

    [kinv k C out]: the kernel's lists have the contents [C]; every task is in the
    ready list of its priority or, when blocked, in the delay list, which is
    ordered by wake-up time; [out] is a task that an operation in progress has
    taken off its list. *)

From Stdlib Require Import Sorting.Sorted.
From S2P Require Import Prelude Arch Pmem TxCache Transaction Replay UserTx Util PList PListUpd PListSeg PListSorted PListLinear.
From S2P Require Import ListRepr Kernel ListTx.

Notation contents := (gmap lid (list (nid * item))).
Definition is_ready_list (l : lid) : bool := match l with ReadyList _ => true | _ => false end.

(** What the entries of a list are. *)
Definition entry_ok (ts : gmap nat tcb) (l : lid) (e : nid * item) : Prop :=
  match l with
  | ReadyList p => ∃ t w b, e = (SchedNode t, SchedItem t w) ∧ ts !! t = Some b ∧ priority b = p
  | DelayList => ∃ t w b, e = (SchedNode t, SchedItem t w) ∧ ts !! t = Some b
  | WaitList _ => ∃ t o b, e = (EventNode t, BlockItem t o) ∧ ts !! t = Some b
  | ActiveList => ∃ t w, e = (TimerNode t, TimerItem t w)
  end.

(** Where a task is. *)
Definition in_list (C : contents) (l : lid) (e : nid * item) : Prop := ∃ xs, C !! l = Some xs ∧ e ∈ xs.
Definition delayed (C : contents) (t : nat) : Prop := ∃ w, in_list C DelayList (SchedNode t, SchedItem t w).
Definition queued (C : contents) (p t : nat) : Prop := ∃ w, in_list C (ReadyList p) (SchedNode t, SchedItem t w).
Definition waiting (C : contents) (t : nat) : Prop :=
  ∃ wl o, in_list C (WaitList wl) (EventNode t, BlockItem t o).

Record sinv `{Arch} (s : lstore nid lid item) (ts : gmap nat tcb) (C : contents) (out : option nat) : Prop := {
  k_repr : repr is_ready_list s C;
  k_entries : ∀ l xs e, C !! l = Some xs → e ∈ xs → entry_ok ts l e;
  k_ready : ∀ p, (p < 8)%nat → is_Some (C !! ReadyList p);
  k_delay : ∃ dl, C !! DelayList = Some dl ∧ ascending (item_gt ts) dl;
  k_sched : ∀ t b, ts !! t = Some b → (priority b < 8)%nat ∧
    (out = Some t ∧ (∃ w, free s (SchedNode t) (SchedItem t w)) ∨
     out ≠ Some t ∧ (status b = Blocked ∧ delayed C t ∨ is_schedulable b = true ∧ queued C (priority b) t));
  k_event : ∀ t b, ts !! t = Some b →
    (∃ o, free s (EventNode t) (BlockItem t o)) ∨ waiting C t;
}.

Definition kinv `{Arch} (k : kernel) : contents → option nat → Prop := sinv (ls k) (tasks k).

(** A change of a task that keeps its priority. *)
Definition same_prio (ts ts' : gmap nat tcb) : Prop := ∀ t, priority <$> ts' !! t = priority <$> ts !! t.

Section inv.
Context `{Arch}.
Implicit Types (k : kernel) (C : contents).

Lemma item_gt_prio ts ts' x y : same_prio ts ts' → item_gt ts' x y = item_gt ts x y.
Proof.
  intros E. destruct x as [| a ?|], y as [|b ?|]; cbn; try done.
  pose proof (E a) as Ea. pose proof (E b) as Eb.
  destruct (ts !! a), (ts' !! a), (ts !! b), (ts' !! b); cbn in *; try done; injection Ea as ->; injection Eb as ->; done.
Qed.

Lemma ascending_prio {P} ts ts' (xs : list (P * item)) :
  same_prio ts ts' → ascending (item_gt ts) xs → ascending (item_gt ts') xs.
Proof.
  intros E. unfold ascending. induction 1 as [|v vs Hs IH Hh]; constructor; [done|].
  destruct Hh as [|v2 vs Hxy]; constructor. by rewrite (item_gt_prio ts ts').
Qed.

Lemma entry_prio ts ts' l e : same_prio ts ts' → entry_ok ts l e → entry_ok ts' l e.
Proof.
  intros E. destruct l as [p| |w|]; cbn; [| | |done].
  - intros (t & w & b & -> & Hb & <-). pose proof (E t) as Et. rewrite Hb in Et.
    destruct (ts' !! t) as [b'|] eqn:Hb'; [|done]. cbn in Et. injection Et as Et. exists t, w, b'. by rewrite Et.
  - intros (t & w & b & -> & Hb). pose proof (E t) as Et. rewrite Hb in Et.
    destruct (ts' !! t) as [b'|] eqn:Hb'; [|done]. eauto.
  - intros (t & o & b & -> & Hb). pose proof (E t) as Et. rewrite Hb in Et.
    destruct (ts' !! t) as [b'|] eqn:Hb'; [|done]. eauto.
Qed.

(** An entry is in one list only, and not free. *)
Lemma repr_unique s C l l' xs xs' n v v' :
  repr is_ready_list s C → C !! l = Some xs → C !! l' = Some xs' → (n, v) ∈ xs → (n, v') ∈ xs' →
  l = l' ∧ v = v'.
Proof.
  intros [Hr _] Hl Hl' Hn Hn'.
  destruct (holds_seg _ _ _ _ (Hr _ _ Hl)) as (p & q & Hs & _), (holds_seg _ _ _ _ (Hr _ _ Hl')) as (p' & q' & Hs' & _).
  destruct (seg_elem _ _ _ _ _ _ _ Hn Hs) as (? & ? & E), (seg_elem _ _ _ _ _ _ _ Hn' Hs') as (? & ? & E').
  rewrite E in E'. by simplify_eq.
Qed.

Lemma repr_not_free s C l xs n v v' :
  repr is_ready_list s C → C !! l = Some xs → (n, v) ∈ xs → ¬ free s n v'.
Proof.
  intros [Hr _] Hl Hn Hf. destruct (holds_seg _ _ _ _ (Hr _ _ Hl)) as (p & q & Hs & _).
  apply (free_fresh _ _ _ _ _ _ _ Hf Hs), list_elem_of_fmap. by exists (n, v).
Qed.

Lemma repr_NoDup s C l xs : repr is_ready_list s C → C !! l = Some xs → NoDup xs.*1.
Proof. intros [Hr _] Hl. by destruct (holds_seg _ _ _ _ (Hr _ _ Hl)) as (? & ? & _ & ?). Qed.

(** *** Executing kernel programs *)

Lemma exec_on_lists {A} (p : prog _ A) k a s : exec p (ls k) = Done a s → exec (on_lists p) k = Done a (with_ls s k).
Proof. intros E. exact (exec_zoom_done p k a s E). Qed.

Lemma exec_deref_task t k b : tasks k !! t = Some b → exec (deref_task t) k = Done b k.
Proof. intros E. unfold deref_task. cbn. by rewrite E. Qed.

Lemma exec_deref_node n k m : nodes (ls k) !! n = Some m → exec (on_lists (deref n)) k = Done m k.
Proof. intros E. unfold on_lists, deref. cbn. rewrite E. done. Qed.

Definition status_upd (t : nat) (st : TaskState) (k : kernel) : kernel :=
  with_tasks (alter (λ b, Build_tcb (priority b) st (utask b)) t) k.
Lemma exec_set_status t st k b :
  tasks k !! t = Some b → exec (set_status t st) k = Done tt (status_upd t st k).
Proof. intros E. unfold set_status. by rewrite (exec_bind_done _ _ _ _ _ (exec_deref_task _ _ _ E)). Qed.

Lemma status_upd_prio t st k : same_prio (tasks k) (tasks (status_upd t st k)).
Proof.
  intros a. cbn. destruct (decide (a = t)) as [->|?]; [rewrite lookup_alter_eq|by rewrite lookup_alter_ne].
  by destruct (tasks k !! t).
Qed.

Lemma in_list_insert_ne C l l' ys e : l' ≠ l → in_list (<[l := ys]> C) l' e ↔ in_list C l' e.
Proof. intros Hne. unfold in_list. by setoid_rewrite lookup_insert_ne; [|done]. Qed.
Lemma in_list_insert_eq C l ys e : in_list (<[l := ys]> C) l e ↔ e ∈ ys.
Proof.
  unfold in_list. setoid_rewrite lookup_insert_eq. split; [intros (? & [= <-] & ?); done|eauto].
Qed.

Definition sched_list (l : lid) : Prop := match l with DelayList | ReadyList _ => True | _ => False end.

(** Membership in other lists and of other entries is unaffected. *)
Lemma in_list_keep C l xl xr e0 l' e :
  C !! l = Some (xl ++ e0 :: xr) → (l' = l → e ≠ e0) → in_list C l' e → in_list (<[l := xl ++ xr]> C) l' e.
Proof.
  intros HC Hne (xs & Hxs & He). destruct (decide (l' = l)) as [->|?].
  - apply in_list_insert_eq. rewrite HC in Hxs. simplify_eq. specialize (Hne eq_refl). set_solver.
  - apply in_list_insert_ne; [done|]. by exists xs.
Qed.
Lemma in_list_add C l xl xr e0 l' e :
  C !! l = Some (xl ++ xr) → in_list C l' e → in_list (<[l := xl ++ e0 :: xr]> C) l' e.
Proof.
  intros HC (xs & Hxs & He). destruct (decide (l' = l)) as [->|?].
  - apply in_list_insert_eq. rewrite HC in Hxs. simplify_eq. set_solver.
  - apply in_list_insert_ne; [done|]. by exists xs.
Qed.

Lemma sorted_app_remove {X} (R : X → X → Prop) xs x ys :
  Transitive R → Sorted R (xs ++ x :: ys) → Sorted R (xs ++ ys).
Proof.
  intros Ht Hs%Sorted_StronglySorted; [|done]. apply StronglySorted_Sorted.
  induction xs as [|z xs IH]; cbn in *; [by inversion Hs|].
  inversion Hs as [|? ? Hs' Hf]; subst. constructor; [by apply IH|].
  apply Forall_app in Hf as [? Hf]. apply Forall_app. split; [done|]. by inversion Hf.
Qed.

(** *** Taking a task off its ready list or the delay list *)

Lemma sinv_take_off s s' ts C l xl xr t v :
  sinv s ts C None → sched_list l → C !! l = Some (xl ++ (SchedNode t, v) :: xr) →
  repr is_ready_list s' (<[l := xl ++ xr]> C) → free s' (SchedNode t) v →
  (∀ n u, free s n u → free s' n u) → (l = DelayList → ascending (item_gt ts) (xl ++ xr)) →
  sinv s' ts (<[l := xl ++ xr]> C) (Some t).
Proof.
  intros [Hr He Hrd Hd Hs Hev] Hl HC Hr' Hf Hfree Hasc.
  assert (Hin : (SchedNode t, v) ∈ xl ++ (SchedNode t, v) :: xr) by set_solver.
  split; [done|..].
  - intros l' xs e [[<- <-]|[? HC']]%lookup_insert_Some Hxs; [|by eapply He].
    eapply He; [exact HC|]. set_solver.
  - intros p Hp. apply lookup_insert_is_Some'. destruct (decide (l = ReadyList p)); [by left|right; eauto].
  - destruct Hd as (dl & Hdl & Ha). destruct (decide (l = DelayList)) as [->|?].
    + exists (xl ++ xr). rewrite lookup_insert_eq. auto.
    + exists dl. by rewrite lookup_insert_ne.
  - intros t' b Hb. destruct (Hs t' b Hb) as [Hp [[? _]|[_ Hin']]]; [done|]. split; [done|].
    destruct (decide (t' = t)) as [->|Hne].
    + left. split; [done|]. pose proof (He _ _ _ HC Hin) as Hok.
      assert (∃ w, v = SchedItem t w) as [w ->]; [|eauto].
      destruct l; try done; cbn in Hok; naive_solver.
    + right. split; [congruence|]. destruct Hin' as [[? (w & Hw)]|[? (w & Hw)]]; [left|right]; (split; [done|]);
        exists w; (eapply in_list_keep; [done| |done]); intros _ [=]; congruence.
  - intros t' b Hb. destruct (Hev t' b Hb) as [[o Ho]|(wl & o & Hw)]; [left; eauto|right].
    exists wl, o. eapply in_list_keep; [done| |done]. intros _ [=].
Qed.

(** *** Putting it back *)

Lemma sinv_put_back s s' ts ts' C l xl xr t w b :
  sinv s ts C (Some t) → same_prio ts ts' → (∀ t', t' ≠ t → ts' !! t' = ts !! t') → ts' !! t = Some b →
  (l = DelayList ∧ status b = Blocked ∧ ascending (item_gt ts') (xl ++ (SchedNode t, SchedItem t w) :: xr) ∨
   l = ReadyList (priority b) ∧ is_schedulable b = true) →
  C !! l = Some (xl ++ xr) → repr is_ready_list s' (<[l := xl ++ (SchedNode t, SchedItem t w) :: xr]> C) →
  (∀ n u, n ≠ SchedNode t → free s n u → free s' n u) →
  sinv s' ts' (<[l := xl ++ (SchedNode t, SchedItem t w) :: xr]> C) None.
Proof.
  intros [Hr He Hrd Hd Hs Hev] Hsp Hts Hb Hcase HC Hr' Hfree.
  split; [done|..].
  - intros l' xs e [[<- <-]|[? HC']]%lookup_insert_Some Hxs; [|by eapply entry_prio, He].
    apply elem_of_app in Hxs as [Hx|[->|Hx]%elem_of_cons];
      [eapply entry_prio, He; [done..|]; set_solver| |eapply entry_prio, He; [done..|]; set_solver].
    destruct Hcase as [(-> & _)|(-> & _)]; cbn; eauto 7.
  - intros p Hp. apply lookup_insert_is_Some'. destruct (decide (l = ReadyList p)); [by left|right; eauto].
  - destruct Hd as (dl & Hdl & Ha). destruct Hcase as [(-> & _ & Hasc)|(-> & _)].
    + eexists. rewrite lookup_insert_eq. eauto.
    + exists dl. rewrite lookup_insert_ne by done. split; [done|]. by eapply ascending_prio.
  - intros t' b' Hb'. destruct (decide (t' = t)) as [->|Hne].
    + rewrite Hb in Hb'. simplify_eq.
      pose proof (Hsp t) as Hspt. rewrite Hb in Hspt. destruct (ts !! t) as [b0|] eqn:Hb0; [|done]. cbn in Hspt.
      injection Hspt as Hspt. destruct (Hs t b0 Hb0) as [Hp _]. split; [congruence|]. right. split; [done|].
      destruct Hcase as [(-> & Hst & _)|(-> & Hst)]; [left|right]; (split; [done|]); exists w; apply in_list_insert_eq; set_solver.
    + rewrite Hts in Hb' by done. destruct (Hs t' b' Hb') as [Hp [[? _]|[_ Hin']]]; [congruence|]. split; [done|].
      right. split; [done|]. destruct Hin' as [[? (u & Hu)]|[? (u & Hu)]]; [left|right]; (split; [done|]);
        exists u; by apply in_list_add.
  - intros t' b' Hb'.
    assert (∃ b0, ts !! t' = Some b0) as [b0 Hb0].
    { pose proof (Hsp t') as E. rewrite Hb' in E. destruct (ts !! t'); [eauto|done]. }
    destruct (Hev t' b0 Hb0) as [[o Ho]|(wl & o & Hw)]; [left; eauto|right].
    exists wl, o. by apply in_list_add.
Qed.
(** *** Leaving and joining a wait list *)

Lemma sinv_leave_wait s s' ts C out wl xl xr t o :
  sinv s ts C out → C !! WaitList wl = Some (xl ++ (EventNode t, BlockItem t o) :: xr) →
  repr is_ready_list s' (<[WaitList wl := xl ++ xr]> C) → free s' (EventNode t) (BlockItem t o) →
  (∀ n u, free s n u → free s' n u) →
  sinv s' ts (<[WaitList wl := xl ++ xr]> C) out.
Proof.
  intros [Hr He Hrd Hd Hs Hev] HC Hr' Hf Hfree. split; [done|..].
  - intros l' xs e [[<- <-]|[? HC']]%lookup_insert_Some Hxs; [|by eapply He].
    eapply He; [exact HC|]. set_solver.
  - intros p Hp. apply lookup_insert_is_Some'. right. eauto.
  - destruct Hd as (dl & Hdl & Ha). exists dl. by rewrite lookup_insert_ne.
  - intros t' b Hb. destruct (Hs t' b Hb) as [Hp [[? (w & Hw)]|[? Hin']]]; (split; [done|]); [left; eauto|right].
    split; [done|]. destruct Hin' as [[? (w & Hw)]|[? (w & Hw)]]; [left|right]; (split; [done|]);
      exists w; (eapply in_list_keep; [done|done|done]).
  - intros t' b Hb. destruct (decide (t' = t)) as [->|Hne]; [left; eauto|].
    destruct (Hev t' b Hb) as [[o' Ho]|(wl' & o' & Hw)]; [left; eauto|right].
    exists wl', o'. eapply in_list_keep; [done| |done]. congruence.
Qed.

Lemma sinv_join_wait s s' ts C out wl xl xr t o b :
  sinv s ts C out → ts !! t = Some b → C !! WaitList wl = Some (xl ++ xr) →
  repr is_ready_list s' (<[WaitList wl := xl ++ (EventNode t, BlockItem t o) :: xr]> C) →
  (∀ n u, n ≠ EventNode t → free s n u → free s' n u) →
  sinv s' ts (<[WaitList wl := xl ++ (EventNode t, BlockItem t o) :: xr]> C) out.
Proof.
  intros [Hr He Hrd Hd Hs Hev] Hb HC Hr' Hfree. split; [done|..].
  - intros l' xs e [[<- <-]|[? HC']]%lookup_insert_Some Hxs; [|by eapply He].
    apply elem_of_app in Hxs as [Hx|[->|Hx]%elem_of_cons];
      [eapply He; [exact HC|]; set_solver|cbn; eauto|eapply He; [exact HC|]; set_solver].
  - intros p Hp. apply lookup_insert_is_Some'. right. eauto.
  - destruct Hd as (dl & Hdl & Ha). exists dl. by rewrite lookup_insert_ne.
  - intros t' b' Hb'. destruct (Hs t' b' Hb') as [Hp [[? (w & Hw)]|[? Hin']]]; (split; [done|]); [left; eauto|right].
    split; [done|]. destruct Hin' as [[? (w & Hw)]|[? (w & Hw)]]; [left|right]; (split; [done|]);
      exists w; by apply in_list_add.
  - intros t' b' Hb'. destruct (decide (t' = t)) as [->|Hne].
    + right. exists wl, o. apply in_list_insert_eq. set_solver.
    + destruct (Hev t' b' Hb') as [[o' Ho]|(wl' & o' & Hw)]; [left; exists o'; apply Hfree; congruence|right].
      exists wl', o'. by apply in_list_add.
Qed.
End inv.

(** ** The list operations of the kernel *)

Section prims.
Context `{Arch} (time_bits : Z).
Implicit Types (k : kernel) (C : contents).

Lemma free_kept C l ps s s' xs n u :
  repr is_ready_list s C → C !! l = Some xs → only_touches l ps s s' → (∀ p, p ∈ ps → p ∈ xs.*1) →
  free s n u → free s' n u.
Proof.
  intros Hr HC Ht Hps Hf. eapply only_touches_free; [done| |done]. intros Hin%Hps.
  by eapply (member_not_free is_ready_list), Hin; [apply Hr|].
Qed.
Lemma free_kept_ne C l ps s s' xs m n u :
  repr is_ready_list s C → C !! l = Some xs → only_touches l ps s s' → (∀ p, p ∈ ps → p = m ∨ p ∈ xs.*1) →
  n ≠ m → free s n u → free s' n u.
Proof.
  intros Hr HC Ht Hps Hne Hf. eapply only_touches_free; [done| |done]. intros [?|Hin]%Hps; [done|].
  by eapply (member_not_free is_ready_list), Hin; [apply Hr|].
Qed.

(** [add_to_ready_list]: the task becomes the last of its ready list. *)
Lemma add_to_ready_list_spec k C t b w xs :
  kinv k C (Some t) → tasks k !! t = Some b → free (ls k) (SchedNode t) (SchedItem t w) →
  C !! ReadyList (priority b) = Some xs →
  ∃ s', exec (add_to_ready_list t) k = Done tt (status_upd t Ready (with_ls s' k)) ∧
    kinv (status_upd t Ready (with_ls s' k)) (<[ReadyList (priority b) := xs ++ [(SchedNode t, SchedItem t w)]]> C) None ∧
    (∀ n u, n ≠ SchedNode t → free (ls k) n u → free s' n u).
Proof.
  intros Hk Hb Hf HC. pose proof (k_repr _ _ _ _ Hk) as Hr.
  destruct (repr_insert_before_cursor is_ready_list is_active_list _ _ (ReadyList (priority b)) _ _ _ Hr eq_refl HC Hf) as (s' & Hex & Hr' & Ht).
  assert (Hfree : ∀ n u, n ≠ SchedNode t → free (ls k) n u → free s' n u).
  { intros n u Hne. eapply free_kept_ne; [done..| |done]. intros p. rewrite elem_of_cons. tauto. }
  exists s'. split; [|split; [|done]].
  - unfold add_to_ready_list, ready_list_of. rewrite (exec_bind_done _ _ _ (ReadyList (priority b)) k).
    2:{ by rewrite (exec_bind_done _ _ _ _ _ (exec_deref_task _ _ _ Hb)). }
    unfold circular_insert. rewrite (exec_bind_done _ _ _ _ _ (exec_on_lists _ _ _ _ Hex)).
    by apply (exec_set_status _ _ _ b).
  - unfold kinv. cbn [ls tasks status_upd with_tasks with_ls].
    apply (sinv_put_back (ls k) s' (tasks k) _ C (ReadyList (priority b)) xs [] t w (Build_tcb (priority b) Ready (utask b))).
    + done.
    + apply (status_upd_prio t Ready k).
    + intros t' Hne. by rewrite lookup_alter_ne.
    + by rewrite lookup_alter_eq, Hb.
    + by right.
    + by rewrite app_nil_r.
    + done.
    + done.
Qed.

(** [remove_from_ready_list] *)
Lemma remove_from_ready_list_spec k C t b w xl xr :
  kinv k C None → tasks k !! t = Some b → C !! ReadyList (priority b) = Some (xl ++ (SchedNode t, SchedItem t w) :: xr) →
  ∃ s', exec (remove_from_ready_list t) k = Done tt (with_ls s' k) ∧
    kinv (with_ls s' k) (<[ReadyList (priority b) := xl ++ xr]> C) (Some t) ∧
    free s' (SchedNode t) (SchedItem t w) ∧ ∀ n u, free (ls k) n u → free s' n u.
Proof.
  intros Hk Hb HC. pose proof (k_repr _ _ _ _ Hk) as Hr.
  assert (Hop : ∃ s', exec (optimized_remove is_active_list (ReadyList (priority b)) (SchedNode t)) (ls k) = Done tt s' ∧
    repr is_ready_list s' (<[ReadyList (priority b) := xl ++ xr]> C) ∧ free s' (SchedNode t) (SchedItem t w) ∧
    only_touches (ReadyList (priority b)) (xl ++ (SchedNode t, SchedItem t w) :: xr).*1 (ls k) s').
  { destruct (decide (xl ++ xr = [])) as [[-> ->]%app_eq_nil|Hne].
    - destruct (repr_remove_only is_ready_list is_active_list _ _ (ReadyList (priority b)) _ Hr eq_refl HC) as (s' & ? & ? & ? & ?). by exists s'.
    - destruct (repr_remove_ring is_ready_list is_active_list _ _ (ReadyList (priority b)) _ _ _ Hr eq_refl HC Hne) as (s' & ? & ? & ? & ?). by exists s'. }
  destruct Hop as (s' & Hex & Hr' & Hf & Ht).
  assert (Hfree : ∀ n u, free (ls k) n u → free s' n u) by (intros n u; by eapply free_kept; [done..|]).
  exists s'. split; [|split; [|done]].
  - unfold remove_from_ready_list, ready_list_of. rewrite (exec_bind_done _ _ _ (ReadyList (priority b)) k).
    2:{ by rewrite (exec_bind_done _ _ _ _ _ (exec_deref_task _ _ _ Hb)). }
    by apply exec_on_lists.
  - unfold kinv. cbn [ls tasks with_ls]. by eapply (sinv_take_off (ls k)); [done|done|exact HC|..].
Qed.

(** *** The delay list *)

Lemma item_gt_asym ts a b : item_gt ts a b = true → item_gt ts b a = false.
Proof.
  destruct a, b; cbn; try done; [lia| |lia]. unfold prio_lt.
  destruct (ts !! t), (ts !! t0); try done. intros ?%Nat.ltb_lt. apply Nat.ltb_ge. lia.
Qed.

Definition item_time (i : item) : Z := match i with SchedItem _ w => w | TimerItem _ w => w | BlockItem _ _ => 0 end.

Lemma ascending_times ts (xs : list (nid * item)) :
  (∀ e, e ∈ xs → entry_ok ts DelayList e) → ascending (item_gt ts) xs ↔ Sorted Z.le (item_time <$> xs.*2).
Proof.
  unfold ascending. induction xs as [|e xs IH]; intros He; cbn; [done|].
  assert (IH' := IH (λ e' He', He e' (list_elem_of_further _ _ _ He'))). clear IH.
  destruct (He e) as (t & w & b & -> & Hb); [constructor|].
  split; intros Hs; inversion Hs as [|? ? Hs' Hh]; subst; (constructor; [by apply IH'|]);
    (destruct xs as [|e2 xs]; [constructor|]); (destruct (He e2) as (t2 & w2 & b2 & -> & Hb2); [set_solver|]);
    cbn in *; inversion Hh; subst; constructor; cbn in *; lia.
Qed.

Lemma delay_ok k C out dl : kinv k C out → C !! DelayList = Some dl → ∀ e, e ∈ dl → entry_ok (tasks k) DelayList e.
Proof. intros Hk HC e He. by eapply (k_entries _ _ _ _ Hk). Qed.

Lemma delay_sorted k C out dl : kinv k C out → C !! DelayList = Some dl → Sorted Z.le (item_time <$> dl.*2).
Proof.
  intros Hk HC. destruct (k_delay _ _ _ _ Hk) as (dl' & HC' & Ha). rewrite HC in HC'. simplify_eq.
  by eapply ascending_times, Ha; eapply delay_ok.
Qed.

Lemma delay_remove k C out xl e xr :
  kinv k C out → C !! DelayList = Some (xl ++ e :: xr) → ascending (item_gt (tasks k)) (xl ++ xr).
Proof.
  intros Hk HC. apply ascending_times.
  - intros e' He'. eapply delay_ok; [done..|]. set_solver.
  - pose proof (delay_sorted _ _ _ _ Hk HC) as Hs. rewrite !fmap_app in *. cbn in Hs. eapply (sorted_app_remove Z.le); [intros ? ? ?; lia|done].
Qed.

(** Taking the first task of the delay list. *)
Lemma pop_delay_list_spec k C t w dl :
  kinv k C None → C !! DelayList = Some ((SchedNode t, SchedItem t w) :: dl) →
  ∃ s', exec (list_pop_front DelayList) k = Done (Some (SchedNode t)) (with_ls s' k) ∧
    kinv (with_ls s' k) (<[DelayList := dl]> C) (Some t) ∧ free s' (SchedNode t) (SchedItem t w).
Proof.
  intros Hk HC. pose proof (k_repr _ _ _ _ Hk) as Hr.
  destruct (repr_pop is_ready_list is_active_list _ _ DelayList _ _ Hr eq_refl HC) as (s' & Hex & Hr' & Hf & Ht).
  exists s'. split; [by apply exec_on_lists|]. split; [|done].
  unfold kinv. cbn [ls tasks with_ls].
  apply (sinv_take_off (ls k) s' (tasks k) C DelayList [] dl t (SchedItem t w)); [done..| |].
  - intros n u. by eapply free_kept; [done..|].
  - intros _. by apply (delay_remove k C None [] (SchedNode t, SchedItem t w)).
Qed.

(** [remove_from_delayed_list] *)
Lemma remove_from_delayed_list_spec k C t w xl xr :
  kinv k C None → C !! DelayList = Some (xl ++ (SchedNode t, SchedItem t w) :: xr) →
  ∃ s', exec (remove_from_delayed_list t) k = Done tt (with_ls s' k) ∧
    kinv (with_ls s' k) (<[DelayList := xl ++ xr]> C) (Some t) ∧ free s' (SchedNode t) (SchedItem t w) ∧
    (∀ n u, free (ls k) n u → free s' n u).
Proof.
  intros Hk HC. pose proof (k_repr _ _ _ _ Hk) as Hr.
  destruct (repr_remove_linear is_ready_list is_active_list _ _ DelayList _ _ _ Hr eq_refl HC) as (s' & Hex & Hr' & Hf & Ht).
  assert (Hfree : ∀ n u, free (ls k) n u → free s' n u) by (intros n u; by eapply free_kept; [done..|]).
  exists s'. split; [by apply exec_on_lists|]. split; [|done].
  unfold kinv. cbn [ls tasks with_ls].
  apply (sinv_take_off (ls k) s' (tasks k) C DelayList xl xr t (SchedItem t w)); [done..| |].
  - done.
  - intros _. by eapply delay_remove.
Qed.

(** The state after [add_to_delayed_list]. *)
Definition delayed_upd (t : nat) (w : Z) (s' : lstore nid lid item) (k : kernel) : kernel :=
  let k' := with_ls s' (status_upd t Blocked k) in
  if w <? next_unblock_time (tm k) then with_tm (λ m, Build_TimeManager (tick_counter m) w (next_expiry_time m)) k' else k'.

Lemma delayed_upd_ls t w s' k : ls (delayed_upd t w s' k) = s'.
Proof. unfold delayed_upd. by destruct (w <? _). Qed.
Lemma delayed_upd_tasks t w s' k : tasks (delayed_upd t w s' k) = tasks (status_upd t Blocked k).
Proof. unfold delayed_upd. by destruct (w <? _). Qed.

(** [add_to_delayed_list]: the task is inserted in front of the first one that
    does not wake up earlier. *)
Lemma add_to_delayed_list_spec k C t b w xs :
  kinv k C (Some t) → tasks k !! t = Some b → free (ls k) (SchedNode t) (SchedItem t w) →
  C !! DelayList = Some xs →
  ∃ l r s', xs = l ++ r ∧ split_gt (item_gt (tasks (status_upd t Blocked k))) (SchedItem t w) xs = (l, r) ∧
    exec (add_to_delayed_list t) k = Done tt (delayed_upd t w s' k) ∧
    kinv (delayed_upd t w s' k) (<[DelayList := l ++ (SchedNode t, SchedItem t w) :: r]> C) None.
Proof.
  intros Hk Hb Hf HC. pose proof (k_repr _ _ _ _ Hk) as Hr. set (k1 := status_upd t Blocked k).
  assert (Hsp : same_prio (tasks k) (tasks k1)) by apply status_upd_prio.
  destruct (repr_sorted_insert is_ready_list is_active_list (item_gt (tasks k1)) _ _ DelayList InsertSortedDelayList
    _ _ _ Hr eq_refl HC Hf) as (l & r & s' & Hsplit & -> & Hex & Hr' & Ht).
  exists l, r, s'. split; [done|]. split; [done|]. split.
  - unfold add_to_delayed_list. rewrite (exec_bind_done _ _ _ _ _ (exec_set_status t Blocked k b Hb)). fold k1.
    rewrite (exec_bind_done _ _ _ tt (with_ls s' k1)).
    2:{ unfold sorted_list_insert. cbn [bind get exec]. by apply exec_on_lists. }
    destruct (proj1 Hr' DelayList (l ++ (SchedNode t, SchedItem t w) :: r)) as (_ & Hseg & _); [apply lookup_insert_eq|].
    apply (seg_elem _ _ _ _ _ (SchedNode t) (SchedItem t w)) in Hseg as (pp & nn & Hn); [|set_solver].
    unfold get_wakeup_time. rewrite (exec_bind_done _ _ _ w (with_ls s' k1)).
    2:{ by rewrite (exec_bind_done _ _ _ _ _ (exec_deref_node (SchedNode t) (with_ls s' k1) _ Hn)). }
    unfold delayed_upd. fold k1. cbn. by destruct (w <? _).
  - unfold kinv. rewrite delayed_upd_ls, delayed_upd_tasks. fold k1.
    apply (sinv_put_back (ls k) s' (tasks k) (tasks k1) C DelayList l r t w (Build_tcb (priority b) Blocked (utask b))).
    + done.
    + done.
    + intros t' Hne. unfold k1. cbn. by rewrite lookup_alter_ne.
    + unfold k1. cbn. by rewrite lookup_alter_eq, Hb.
    + left. split; [done|]. split; [done|]. eapply split_gt_sorted; [by apply item_gt_asym| |done].
      apply (ascending_prio (tasks k)); [done|]. destruct (k_delay _ _ _ _ Hk) as (dl & HC' & Ha).
      rewrite HC in HC'. by simplify_eq.
    + done.
    + done.
    + intros n u Hne. eapply free_kept_ne; [done..| |done]. intros p. rewrite elem_of_cons. tauto.
Qed.

(** *** Wait lists *)

(** The node of a waiting task knows its list. *)
Lemma exec_node_list n k m : nodes (ls k) !! n = Some m → exec (node_list n) k = Done (nlist m) k.
Proof. intros E. unfold node_list. by rewrite (exec_bind_done _ _ _ _ _ (exec_deref_node _ _ _ E)). Qed.

Lemma leave_wait_list_free k t o :
  free (ls k) (EventNode t) (BlockItem t o) → exec (leave_wait_list t) k = Done tt k.
Proof.
  intros (n & Hn & Hl & _). unfold leave_wait_list. rewrite (exec_bind_done _ _ _ _ _ (exec_node_list _ _ _ Hn)).
  by rewrite Hl.
Qed.

Lemma leave_wait_list_spec k C out wl t o xl xr :
  kinv k C out → C !! WaitList wl = Some (xl ++ (EventNode t, BlockItem t o) :: xr) →
  ∃ s', exec (leave_wait_list t) k = Done tt (with_ls s' k) ∧
    exec (list_remove (WaitList wl) (EventNode t)) k = Done tt (with_ls s' k) ∧
    kinv (with_ls s' k) (<[WaitList wl := xl ++ xr]> C) out ∧ free s' (EventNode t) (BlockItem t o) ∧
    (∀ n u, free (ls k) n u → free s' n u).
Proof.
  intros Hk HC. pose proof (k_repr _ _ _ _ Hk) as Hr.
  destruct (repr_remove_linear is_ready_list is_active_list _ _ (WaitList wl) _ _ _ Hr eq_refl HC) as (s' & Hex & Hr' & Hf & Ht).
  destruct (proj1 Hr _ _ HC) as (_ & Hseg & _).
  apply (seg_elem _ _ _ _ _ (EventNode t) (BlockItem t o)) in Hseg as (pp & nn & Hn); [|set_solver].
  assert (Hfree : ∀ n u, free (ls k) n u → free s' n u).
  { intros n u. by eapply free_kept; [done..|]. }
  exists s'. split; [|split; [by apply exec_on_lists|]; split; [|done]].
  - unfold leave_wait_list. rewrite (exec_bind_done _ _ _ _ _ (exec_node_list _ _ _ Hn)). by apply exec_on_lists.
  - unfold kinv. cbn [ls tasks with_ls]. by apply (sinv_leave_wait (ls k) s' (tasks k) C out wl xl xr t o).
Qed.

(** Taking the first task of a wait list. *)
Lemma pop_wait_list_spec k C out wl t o xs :
  kinv k C out → C !! WaitList wl = Some ((EventNode t, BlockItem t o) :: xs) →
  ∃ s', exec (list_pop_front (WaitList wl)) k = Done (Some (EventNode t)) (with_ls s' k) ∧
    kinv (with_ls s' k) (<[WaitList wl := xs]> C) out ∧ free s' (EventNode t) (BlockItem t o).
Proof.
  intros Hk HC. pose proof (k_repr _ _ _ _ Hk) as Hr.
  destruct (repr_pop is_ready_list is_active_list _ _ (WaitList wl) _ _ Hr eq_refl HC) as (s' & Hex & Hr' & Hf & Ht).
  exists s'. split; [by apply exec_on_lists|]. split; [|done].
  unfold kinv. cbn [ls tasks with_ls]. apply (sinv_leave_wait (ls k) s' (tasks k) C out wl [] xs t o); [done..|].
  intros n u. by eapply free_kept; [done..|].
Qed.

(** Joining one, in the order of the priorities. *)
Lemma join_wait_list_spec k C out wl t b o xs :
  kinv k C out → tasks k !! t = Some b → C !! WaitList wl = Some xs → free (ls k) (EventNode t) (BlockItem t o) →
  ∃ l r s', xs = l ++ r ∧ split_gt (item_gt (tasks k)) (BlockItem t o) xs = (l, r) ∧
    exec (sorted_list_insert (WaitList wl) (EventNode t)) k = Done tt (with_ls s' k) ∧
    kinv (with_ls s' k) (<[WaitList wl := l ++ (EventNode t, BlockItem t o) :: r]> C) out ∧
    (∀ n u, n ≠ EventNode t → free (ls k) n u → free s' n u).
Proof.
  intros Hk Hb HC Hf. pose proof (k_repr _ _ _ _ Hk) as Hr.
  destruct (repr_sorted_insert is_ready_list is_active_list (item_gt (tasks k)) _ _ (WaitList wl) InsertSortedWaitList
    _ _ _ Hr eq_refl HC Hf) as (l & r & s' & Hsplit & -> & Hex & Hr' & Ht).
  assert (Hfree : ∀ n u, n ≠ EventNode t → free (ls k) n u → free s' n u).
  { intros n u Hne. eapply free_kept_ne; [done..| |done]. intros p. rewrite elem_of_cons. tauto. }
  exists l, r, s'. split; [done|]. split; [done|]. split; [|split; [|done]].
  - unfold sorted_list_insert. cbn [bind get exec]. by apply exec_on_lists.
  - unfold kinv. cbn [ls tasks with_ls]. by apply (sinv_join_wait (ls k) s' (tasks k) C out wl l r t o b).
Qed.

(** Joining one in front. *)
Lemma join_wait_front_spec k C out wl t b o xs :
  kinv k C out → tasks k !! t = Some b → C !! WaitList wl = Some xs → free (ls k) (EventNode t) (BlockItem t o) →
  ∃ s', exec (unsorted_insert (WaitList wl) (EventNode t)) k = Done tt (with_ls s' k) ∧
    kinv (with_ls s' k) (<[WaitList wl := (EventNode t, BlockItem t o) :: xs]> C) out ∧
    (∀ n u, n ≠ EventNode t → free (ls k) n u → free s' n u).
Proof.
  intros Hk Hb HC Hf. pose proof (k_repr _ _ _ _ Hk) as Hr.
  destruct (repr_insert_front is_ready_list is_active_list _ _ (WaitList wl) _ _ _ Hr eq_refl HC Hf) as (s' & Hex & Hr' & Ht).
  assert (Hfree : ∀ n u, n ≠ EventNode t → free (ls k) n u → free s' n u).
  { intros n u Hne. eapply free_kept_ne; [done..| |done]. intros p. rewrite elem_of_cons. tauto. }
  exists s'. split; [by apply exec_on_lists|]. split; [|done].
  unfold kinv. cbn [ls tasks with_ls]. by apply (sinv_join_wait (ls k) s' (tasks k) C out wl [] xs t o b).
Qed.
End prims.
