(* ===== verification/SchedDemo.v ===== *)
(** * A kernel with three tasks

    Tasks 0 (running) and 1 have priority 1; task 2, of priority 0, waits on wait
    list 0 until time 5. The concrete instances of the theorems start here. *)

From Stdlib Require Import Sorting.Sorted.
From S2P Require Import Prelude Arch Pmem TxCache Transaction Replay UserTx Util PList PListUpd PListSeg PListSorted PListLinear.
From S2P Require Import ListRepr Kernel ListTx Sched SchedInv.

#[local] Existing Instances cortex_m qemu default_features.

Definition demo_lists : list (lid * list (nid * item)) :=
  [(ReadyList 0, []);
   (ReadyList 1, [(SchedNode 0, SchedItem 0 0); (SchedNode 1, SchedItem 1 0)]);
   (ReadyList 2, []); (ReadyList 3, []); (ReadyList 4, []); (ReadyList 5, []); (ReadyList 6, []); (ReadyList 7, []);
   (DelayList, [(SchedNode 2, SchedItem 2 5)]);
   (WaitList 0, [(EventNode 2, BlockItem 2 0)]);
   (WaitList 1, []);
   (ActiveList, [])].
Definition demo_contents : contents := list_to_map demo_lists.

Definition demo_store : lstore nid lid item :=
  Build_lstore
    (list_to_map [
       (SchedNode 0, Build_Node (Some (SchedNode 1)) (Some (SchedNode 1)) (Some (ReadyList 1)) (SchedItem 0 0));
       (SchedNode 1, Build_Node (Some (SchedNode 0)) (Some (SchedNode 0)) (Some (ReadyList 1)) (SchedItem 1 0));
       (SchedNode 2, Build_Node None None (Some DelayList) (SchedItem 2 5));
       (EventNode 0, Build_Node None None None (BlockItem 0 0));
       (EventNode 1, Build_Node None None None (BlockItem 1 0));
       (EventNode 2, Build_Node None None (Some (WaitList 0)) (BlockItem 2 0))])
    (list_to_map ((λ lx, (lx.1, Build_PList (Z.of_nat (length lx.2))
       (if is_ready_list lx.1 then fst <$> hd_error lx.2 else None) (fst <$> hd_error lx.2))) <$> demo_lists))
    0 0.

Definition demo_task (p : nat) (st : TaskState) : tcb := Build_tcb p st (task_with_mem [] (fresh_task [])).
Definition demo_tasks : gmap nat tcb :=
  <[0%nat := demo_task 1 Running]> (<[1%nat := demo_task 1 Ready]> (<[2%nat := demo_task 0 Blocked]> ∅)).
Definition demo_log : ListTxOpLog := Build_ListTxOpLog TxInvalid None None None.
Definition demo_boot : boot_state := Build_boot_state (tx (fresh_task [])) true 0 0.
Definition demo : kernel :=
  Build_kernel demo_store demo_tasks demo_log demo_log (Some 0%nat) (Build_TimeManager 4 5 100)
    {| interrupts := true; nesting_cnt := 0 |} [] demo_boot None.

Lemma demo_elem l xs : demo_contents !! l = Some xs → (l, xs) ∈ demo_lists.
Proof. apply elem_of_list_to_map_2. Qed.

Ltac demo_cases H := apply demo_elem in H; unfold demo_lists in H; repeat (apply elem_of_cons in H as [[= -> ->]|H]); [..|by inversion H].

Lemma demo_repr : repr is_ready_list demo_store demo_contents.
Proof.
  split; [|vm_compute; done]. intros l xs HC. demo_cases HC; unfold holds, is_ready_list, circular, linear.
  all: split_and!; [try (eexists; split; [reflexivity|cbn; by auto])|..|repeat constructor; set_solver]; try reflexivity.
  all: cbn; try split_and!; reflexivity || (eexists; split; [reflexivity|]; right; eexists; split; [reflexivity|]; constructor).
Qed.

Lemma demo_kinv : kinv demo demo_contents None.
Proof.
  split.
  - exact demo_repr.
  - intros l xs e HC He. demo_cases HC; repeat (apply elem_of_cons in He as [->|He]); try (by inversion He);
      repeat eexists; reflexivity.
  - intros p Hp. do 8 (destruct p as [|p]; [eexists; reflexivity|]). lia.
  - eexists. split; [reflexivity|]. repeat constructor.
  - intros t b Hb. cbn in Hb. unfold demo_tasks in Hb.
    apply lookup_insert_Some in Hb as [[<- <-]|[_ [[<- <-]|[_ [[<- <-]|[_ [=]]]%lookup_insert_Some]]%lookup_insert_Some]];
      (split; [cbn; lia|]); right; (split; [done|]).
    + right. split; [done|]. exists 0. eexists. split; [reflexivity|]. constructor.
    + right. split; [done|]. exists 0. eexists. split; [reflexivity|]. do 2 constructor.
    + left. split; [done|]. exists 5. eexists. split; [reflexivity|]. constructor.
  - intros t b Hb. cbn in Hb. unfold demo_tasks in Hb.
    apply lookup_insert_Some in Hb as [[<- <-]|[_ [[<- <-]|[_ [[<- <-]|[_ [=]]]%lookup_insert_Some]]%lookup_insert_Some]].
    + left. exists 0. eexists. by split_and!.
    + left. exists 0. eexists. by split_and!.
    + right. exists 0%nat, 0. eexists. split; [reflexivity|]. constructor.
Qed.
