(* ===== verification/SchedSpec.v ===== *)
(** * What the scheduler's composite operations do

    An abstract scheduler: the contents of the lists and the states of the tasks.
    Every composite list operation of [list.rs] refines a step of it and keeps
    the invariant of [SchedInv]. *)

From Stdlib Require Import Sorting.Sorted.
From S2P Require Import Prelude Arch Pmem TxCache Transaction Replay UserTx Util PList PListUpd PListSeg PListSorted PListLinear.
From S2P Require Import ListRepr Kernel ListTx SchedInv.

(** ** The abstract steps *)

(** Take node [n] off every list. *)
Definition drop_node (n : nid) (C : contents) : contents := filter (λ e, e.1 ≠ n) <$> C.

(** Append to a list. *)
Definition append_to (l : lid) (e : nid * item) (C : contents) : contents := alter (λ xs, xs ++ [e]) l C.

(** Insert in front of the first entry that [gt] does not order before it. *)
Definition insert_sorted (gt : item → item → bool) (l : lid) (e : nid * item) (C : contents) : contents :=
  alter (λ xs, let '(a, b) := split_gt gt e.2 xs in a ++ e :: b) l C.

(** Task [t], to be woken at [w], leaves all lists for its ready list. *)
Definition wake (ts : gmap nat tcb) (t : nat) (w : Z) (C : contents) : contents :=
  match ts !! t with
  | Some b => append_to (ReadyList (priority b)) (SchedNode t, SchedItem t w) (drop_node (EventNode t) (drop_node (SchedNode t) C))
  | None => C
  end.

(** It leaves its ready list to sleep until [w]. *)
Definition sleep (ts : gmap nat tcb) (t : nat) (w : Z) (C : contents) : contents :=
  insert_sorted (item_gt ts) DelayList (SchedNode t, SchedItem t w) (drop_node (SchedNode t) C).

Definition set_state (st : TaskState) (t : nat) : gmap nat tcb → gmap nat tcb :=
  alter (λ b, Build_tcb (priority b) st (utask b)) t.

(** The composite operations change the lists, the tasks and the log only. *)
Definition same_rest (k k' : kernel) : Prop :=
  tm k' = tm k ∧ current_task k' = current_task k ∧ kcpu k' = kcpu k ∧ kmem k' = kmem k ∧
  boot k' = boot k ∧ timer_log k' = timer_log k ∧ timer_daemon_task k' = timer_daemon_task k.

(** No list operation is in progress. *)
Definition log_idle (k : kernel) : Prop := op (klog k) = TxInvalid ∧ micro (ls k) = 0.

(** Execute the first step of a program, by its lemma [E]. *)
Ltac run E := rewrite (exec_bind_done _ _ _ _ _ E).

Section lemmas.
Context `{Arch}.
Implicit Types (k : kernel) (C : contents).

Lemma set_state_prio st t ts : same_prio ts (set_state st t ts).
Proof.
  intros a. unfold set_state. destruct (decide (a = t)) as [->|?]; [rewrite lookup_alter_eq|by rewrite lookup_alter_ne].
  by destruct (ts !! t).
Qed.

Lemma same_prio_trans ts1 ts2 ts3 : same_prio ts1 ts2 → same_prio ts2 ts3 → same_prio ts1 ts3.
Proof. intros H1 H2 t. by rewrite H2. Qed.

Lemma same_prio_lookup ts ts' t b :
  same_prio ts ts' → ts !! t = Some b → ∃ b', ts' !! t = Some b' ∧ priority b' = priority b.
Proof. intros E Hb. specialize (E t). rewrite Hb in E. destruct (ts' !! t); [|done]. injection E as E. eauto. Qed.

Lemma filter_ne_notin (xs : list (nid * item)) n : n ∉ xs.*1 → filter (λ e, e.1 ≠ n) xs = xs.
Proof.
  induction xs as [|e xs IH]; intros Hn; [done|]. rewrite filter_cons. cbn in Hn.
  apply not_elem_of_cons in Hn as [? ?]. rewrite decide_True by congruence. f_equal. auto.
Qed.

Lemma filter_ne_mid (xl xr : list (nid * item)) e :
  NoDup (xl ++ e :: xr).*1 → filter (λ e', e'.1 ≠ e.1) (xl ++ e :: xr) = xl ++ xr.
Proof.
  rewrite fmap_app, fmap_cons. intros (_ & Hd & Hnd)%NoDup_app. apply NoDup_cons in Hnd as [Hnr _].
  rewrite filter_app, filter_cons, decide_False by naive_solver.
  rewrite !filter_ne_notin; [done|done|]. intros Hin. apply (Hd _ Hin). constructor.
Qed.

(** Dropping a node that is in list [l] only changes this list. *)
Lemma drop_node_mid s C l xl xr n v :
  repr is_ready_list s C → C !! l = Some (xl ++ (n, v) :: xr) → drop_node n C = <[l := xl ++ xr]> C.
Proof.
  intros Hr HC. change n with (n, v).1. set (e := (n, v)) in *. clearbody e. clear n v. apply map_eq. intros l'. unfold drop_node. rewrite lookup_fmap.
  destruct (decide (l' = l)) as [->|Hne].
  - rewrite HC, lookup_insert_eq. cbn. rewrite filter_ne_mid; [done|]. by eapply repr_NoDup.
  - rewrite lookup_insert_ne by done. destruct (C !! l') as [xs|] eqn:E; [|done]. cbn. f_equal.
    apply filter_ne_notin. intros ((n & v) & En & Hin)%list_elem_of_fmap. cbn in En. subst n.
    destruct e as [n v0]. cbn in *. destruct (repr_unique s C l' l _ _ n v v0 Hr E HC Hin); [set_solver|done].
Qed.

(** Dropping a free node changes nothing. *)
Lemma drop_node_free s C n v : repr is_ready_list s C → free s n v → drop_node n C = C.
Proof.
  intros Hr Hf. apply map_eq. intros l. unfold drop_node. rewrite lookup_fmap.
  destruct (C !! l) as [xs|] eqn:E; [|done]. cbn. f_equal. apply filter_ne_notin.
  eapply (member_not_free is_ready_list), Hf. by apply Hr.
Qed.

Lemma drop_node_lookup C n l xs : C !! l = Some xs → drop_node n C !! l = Some (filter (λ e, e.1 ≠ n) xs).
Proof. intros E. unfold drop_node. by rewrite lookup_fmap, E. Qed.

Lemma alter_insert_lookup (f : list (nid * item) → list (nid * item)) l xs C : C !! l = Some xs → alter f l C = <[l := f xs]> C.
Proof.
  intros E. apply map_eq. intros l'. destruct (decide (l' = l)) as [->|?].
  - by rewrite lookup_alter_eq, lookup_insert_eq, E.
  - by rewrite lookup_alter_ne, lookup_insert_ne.
Qed.

Lemma append_to_lookup C l xs e : C !! l = Some xs → append_to l e C = <[l := xs ++ [e]]> C.
Proof. apply (alter_insert_lookup (λ xs, xs ++ [e])). Qed.

Lemma insert_sorted_lookup gt C l xs e a b :
  C !! l = Some xs → split_gt gt e.2 xs = (a, b) → insert_sorted gt l e C = <[l := a ++ e :: b]> C.
Proof. intros E Es. unfold insert_sorted. by rewrite (alter_insert_lookup _ _ xs) by done; rewrite Es. Qed.

(** *** The invariant does not depend on the log nor on a task's own fields *)

Lemma sinv_micro b w s ts C out : sinv s ts C out → sinv (apply (UMicro b w) s) ts C out.
Proof.
  intros [[Hr Hsz] He Hrd Hd Hs Hev]. split.
  - split; [|by destruct b]. intros l xs HC. specialize (Hr l xs HC). unfold holds in *. destruct (is_ready_list l);
      [by apply PListRing.micro_circular|by apply micro_linear].
  - done.
  - done.
  - done.
  - intros t tb Hb. destruct (Hs t tb Hb) as [? [[? [u ?]]|?]]; (split; [done|]); [left|by right].
    split; [done|]. exists u. by apply PListRing.micro_free.
  - intros t tb Hb. destruct (Hev t tb Hb) as [[u ?]|?]; [left|by right]. exists u. by apply PListRing.micro_free.
Qed.

(** A change of the tasks that keeps priorities and states. *)
Definition same_status (ts ts' : gmap nat tcb) : Prop :=
  ∀ t, (λ b, (priority b, status b)) <$> ts' !! t = (λ b, (priority b, status b)) <$> ts !! t.

Lemma same_status_prio ts ts' : same_status ts ts' → same_prio ts ts'.
Proof. intros E t. specialize (E t). destruct (ts !! t), (ts' !! t); cbn in *; congruence. Qed.

(** A change of the tasks that keeps priorities and who is blocked or schedulable. *)
Definition same_sched (ts ts' : gmap nat tcb) : Prop :=
  ∀ t, (λ b, (priority b, bool_decide (status b = Blocked), is_schedulable b)) <$> ts' !! t =
       (λ b, (priority b, bool_decide (status b = Blocked), is_schedulable b)) <$> ts !! t.

Lemma same_sched_prio ts ts' : same_sched ts ts' → same_prio ts ts'.
Proof. intros E t. specialize (E t). destruct (ts !! t), (ts' !! t); cbn in *; congruence. Qed.
Lemma same_status_sched ts ts' : same_status ts ts' → same_sched ts ts'.
Proof.
  intros E t. specialize (E t). unfold is_schedulable. destruct (ts !! t) as [b|], (ts' !! t) as [b'|]; try done.
  cbn in *. injection E as E1 E2. by rewrite E1, E2.
Qed.

Lemma sinv_sched s ts ts' C out : same_sched ts ts' → sinv s ts C out → sinv s ts' C out.
Proof.
  intros E. pose proof (same_sched_prio _ _ E) as Ep. intros [Hr He Hrd Hd Hs Hev].
  assert (Hback : ∀ t b', ts' !! t = Some b' → ∃ b, ts !! t = Some b ∧ priority b = priority b' ∧
    (status b = Blocked → status b' = Blocked) ∧ is_schedulable b = is_schedulable b').
  { intros t b' Hb'. specialize (E t). rewrite Hb' in E. destruct (ts !! t) as [b|]; [|done]. cbn in E.
    injection E as E1 E2 E3. exists b. split_and!; try done. intros Hst. rewrite (bool_decide_eq_true_2 _ Hst) in E2.
    by apply bool_decide_eq_true in E2. }
  split; [done|..].
  - intros. by eapply entry_prio, He.
  - done.
  - destruct Hd as (dl & ? & ?). exists dl. split; [done|]. by eapply ascending_prio.
  - intros t b' (b & Hb & Eb & Est & Esch)%Hback. rewrite <-Eb, <-Esch. destruct (Hs t b Hb) as [? Hcase].
    split; [done|]. naive_solver.
  - intros t b' (b & Hb & _)%Hback. by eapply Hev.
Qed.
Lemma sinv_status s ts ts' C out : same_status ts ts' → sinv s ts C out → sinv s ts' C out.
Proof. intros E. by apply sinv_sched, same_status_sched. Qed.

Lemma wake_prio ts ts' t w C : same_prio ts ts' → wake ts' t w C = wake ts t w C.
Proof.
  intros E. unfold wake. specialize (E t). destruct (ts !! t), (ts' !! t); cbn in E; simplify_eq; [|done].
  by rewrite E.
Qed.

(** *** Steps on the log *)

Lemma exec_set_tx_op o k : exec (set_tx_op o) k = Done tt (with_klog (set_op o) k).
Proof. done. Qed.

Definition invalidated k : kernel := with_klog (set_op TxInvalid) (with_ls (apply (UMicro false 0) (ls k)) k).
Lemma exec_log_invalidate k : exec log_invalidate k = Done tt (invalidated k).
Proof. done. Qed.
Lemma kinv_invalidated k C out : kinv k C out → kinv (invalidated k) C out.
Proof. apply sinv_micro. Qed.
Lemma kinv_klog f k C out : kinv k C out → kinv (with_klog f k) C out.
Proof. done. Qed.

Lemma exec_node_task n v k t :
  (∃ m, nodes (ls k) !! n = Some m ∧ value m = v) → item_task v = Some t → exec (node_task n) k = Done t k.
Proof.
  intros (m & Hm & <-) Ht. unfold node_task. rewrite (exec_bind_done _ _ _ _ _ (exec_deref_node _ _ _ Hm)).
  by rewrite Ht.
Qed.

Lemma free_node (s : lstore nid lid item) n v : free s n v → ∃ m, nodes s !! n = Some m ∧ value m = v.
Proof. intros (m & ? & _ & ?). eauto. Qed.

Lemma split_gt_prio ts ts' v (xs : list (nid * item)) :
  same_prio ts ts' → split_gt (item_gt ts') v xs = split_gt (item_gt ts) v xs.
Proof.
  intros E. induction xs as [|x xs IH]; [done|]. by rewrite !split_gt_cons, (item_gt_prio ts ts'), IH.
Qed.

(** A waiting task is in one wait list, or its event node is free; leaving it. *)
Lemma leave_any k C out t b :
  kinv k C out → tasks k !! t = Some b →
  ∃ s', exec (leave_wait_list t) k = Done tt (with_ls s' k) ∧ kinv (with_ls s' k) (drop_node (EventNode t) C) out ∧
    (∀ n u, free (ls k) n u → free s' n u).
Proof.
  intros Hk Hb. destruct (k_event _ _ _ _ Hk t b Hb) as [[o Ho]|(wl & o & xs & HC & Hin)].
  - exists (ls k). rewrite (leave_wait_list_free _ _ _ Ho).
    rewrite (drop_node_free (ls k) C _ _ (k_repr _ _ _ _ Hk) Ho). split; [by destruct k|done].
  - apply list_elem_of_split in Hin as (xl & xr & ->).
    destruct (leave_wait_list_spec _ _ _ _ _ _ _ _ Hk HC) as (s' & Hex & _ & Hk' & _ & Hfree).
    exists s'. split; [done|]. split; [|done].
    by rewrite (drop_node_mid (ls k) C (WaitList wl) xl xr (EventNode t) (BlockItem t o) (k_repr _ _ _ _ Hk) HC).
Qed.

(** Becoming the last task of its ready list. *)
Lemma append_ready k C t w b :
  kinv k C (Some t) → tasks k !! t = Some b → free (ls k) (SchedNode t) (SchedItem t w) →
  ∃ s', exec (add_to_ready_list t) k = Done tt (status_upd t Ready (with_ls s' k)) ∧
    kinv (status_upd t Ready (with_ls s' k)) (append_to (ReadyList (priority b)) (SchedNode t, SchedItem t w) C) None ∧
    (∀ n u, n ≠ SchedNode t → free (ls k) n u → free s' n u).
Proof.
  intros Hk Hb Hf. destruct (k_sched _ _ _ _ Hk t b Hb) as [Hp _].
  destruct (k_ready _ _ _ _ Hk _ Hp) as [xs HC].
  destruct (add_to_ready_list_spec k C t b w xs Hk Hb Hf HC) as (s' & Hex & Hk' & Hfree).
  exists s'. split; [done|]. by rewrite (append_to_lookup _ _ xs).
Qed.

(** Going to sleep. *)
Lemma insert_delay k C t w b :
  kinv k C (Some t) → tasks k !! t = Some b → free (ls k) (SchedNode t) (SchedItem t w) →
  ∃ s', exec (add_to_delayed_list t) k = Done tt (delayed_upd t w s' k) ∧
    kinv (delayed_upd t w s' k) (insert_sorted (item_gt (tasks k)) DelayList (SchedNode t, SchedItem t w) C) None.
Proof.
  intros Hk Hb Hf. destruct (k_delay _ _ _ _ Hk) as (xs & HC & _).
  destruct (add_to_delayed_list_spec k C t b w xs Hk Hb Hf HC) as (l & r & s' & -> & Hsp & Hex & Hk').
  exists s'. split; [done|]. rewrite (insert_sorted_lookup _ _ _ (l ++ r) _ l r HC); [done|].
  cbn. rewrite <-Hsp. symmetry. apply split_gt_prio, set_state_prio.
Qed.

(** *** Waking the first task of the delay list *)

Lemma wake_delayed k C t w dl b :
  kinv k C None → C !! DelayList = Some ((SchedNode t, SchedItem t w) :: dl) → tasks k !! t = Some b →
  ∃ k', exec roll_forward_remove_from_delaylist k = Done tt k' ∧ kinv k' (wake (tasks k) t w C) None ∧
    tasks k' = set_state Ready t (tasks k) ∧ same_rest k k' ∧ log_idle k'.
Proof.
  intros Hk HC Hb. set (k0 := with_klog (set_op DelayListRemoval) k).
  destruct (pop_delay_list_spec k0 C t w dl Hk HC) as (s1 & Hex1 & Hk1 & Hf1).
  destruct (leave_any (with_ls s1 k0) _ _ t b Hk1 Hb) as (s2 & Hex2 & Hk2 & Hfree2).
  destruct (append_ready (with_ls s2 (with_ls s1 k0)) _ t w b Hk2 Hb) as (s3 & Hex3 & Hk3 & _); [by apply Hfree2|].
  eexists. split; [|split; [|split; [|split]]].
  - unfold roll_forward_remove_from_delaylist. run (exec_set_tx_op DelayListRemoval k). fold k0. run Hex1.
    cbn [bind unwrap_unchecked]. run (exec_node_task _ _ (with_ls s1 k0) t (free_node _ _ _ Hf1) eq_refl).
    run Hex2. run Hex3. apply exec_log_invalidate.
  - apply kinv_invalidated. unfold wake. rewrite Hb.
    by rewrite (drop_node_mid (ls k) C DelayList [] dl (SchedNode t) (SchedItem t w) (k_repr _ _ _ _ Hk) HC).
  - done.
  - done.
  - done.
Qed.

(** *** Membership after the abstract steps *)

Lemma in_list_drop n C l e : in_list (drop_node n C) l e ↔ in_list C l e ∧ e.1 ≠ n.
Proof.
  unfold in_list, drop_node. split.
  - intros (ys & HC & He). rewrite lookup_fmap in HC. apply fmap_Some in HC as (xs & HC & ->).
    apply list_elem_of_filter in He as [? ?]. eauto.
  - intros [(xs & HC & He) Hne]. exists (filter (λ e, e.1 ≠ n) xs). rewrite lookup_fmap, HC. split; [done|].
    by apply list_elem_of_filter.
Qed.
Lemma in_list_append l0 e0 C l e : in_list (append_to l0 e0 C) l e → (l = l0 ∧ e = e0) ∨ in_list C l e.
Proof.
  unfold in_list, append_to. intros (ys & HC & He). destruct (decide (l = l0)) as [->|Hne].
  - rewrite lookup_alter_eq in HC. apply fmap_Some in HC as (xs & HC & ->).
    apply elem_of_app in He as [?|?%list_elem_of_singleton]; [right; eauto|by left].
  - rewrite lookup_alter_ne in HC by done. right. eauto.
Qed.
Lemma in_list_front l0 e0 C l e : in_list (alter (cons e0) l0 C) l e → (l = l0 ∧ e = e0) ∨ in_list C l e.
Proof.
  unfold in_list. intros (ys & HC & He). destruct (decide (l = l0)) as [->|Hne].
  - rewrite lookup_alter_eq in HC. apply fmap_Some in HC as (xs & HC & ->).
    apply elem_of_cons in He as [?|?]; [by left|right; eauto].
  - rewrite lookup_alter_ne in HC by done. right. eauto.
Qed.
Lemma in_list_sorted gt l0 e0 C l e : in_list (insert_sorted gt l0 e0 C) l e → (l = l0 ∧ e = e0) ∨ in_list C l e.
Proof.
  unfold in_list, insert_sorted. intros (ys & HC & He). destruct (decide (l = l0)) as [->|Hne].
  - rewrite lookup_alter_eq in HC. apply fmap_Some in HC as (xs & HC & ->).
    destruct (split_gt gt e0.2 xs) as [a b] eqn:E. apply split_gt_app in E as ->.
    apply elem_of_app in He as [?|[->|?]%elem_of_cons]; [right|by left|right];
      (eexists; split; [exact HC|]); set_solver.
  - rewrite lookup_alter_ne in HC by done. right. eauto.
Qed.
End lemmas.
