(* ===== verification/SchedVal.v ===== *)
(** * Changes of a node's value and of a task's own fields

    [set_wakeup_time] changes the value of a node that may be in a list;
    committing a composite operation sets a flag of the current task. *)

From Stdlib Require Import Sorting.Sorted.
From S2P Require Import Prelude Arch Pmem TxCache Transaction Replay UserTx Util PList PListUpd PListSeg PListSorted PListLinear.
From S2P Require Import ListRepr Kernel ListTx SchedInv SchedDemo SchedSpec.

Definition node_with_value {P L V} (v : V) (m : Node P L V) : Node P L V := Build_Node (prev m) (next m) (nlist m) v.
Definition revalue (n : nid) (v : item) (e : nid * item) : nid * item := if decide (e.1 = n) then (n, v) else e.
(** The contents once node [n] has value [v]. *)
Definition retime (n : nid) (v : item) (C : contents) : contents := (λ xs : list (nid * item), revalue n v <$> xs) <$> C.
Definition value_store (n : nid) (v : item) (s : lstore nid lid item) : lstore nid lid item :=
  with_nodes (alter (node_with_value v) n) s.

Section value.
Context `{Arch}.
Implicit Types (k : kernel) (C : contents) (s : lstore nid lid item).

Lemma revalue_fst n v e : (revalue n v e).1 = e.1.
Proof. unfold revalue. by case_decide. Qed.
Lemma revalue_ne n v e : e.1 ≠ n → revalue n v e = e.
Proof. intros ?. unfold revalue. by rewrite decide_False. Qed.
Lemma revalue_fsts n v xs : (revalue n v <$> xs).*1 = xs.*1.
Proof. rewrite <-list_fmap_compose. apply list_fmap_ext. intros i x _. apply revalue_fst. Qed.
Lemma revalue_notin n v xs : n ∉ xs.*1 → revalue n v <$> xs = xs.
Proof.
  intros Hn. rewrite <-(list_fmap_id xs) at 2. apply list_fmap_ext. intros i x Hx. apply revalue_ne.
  intros <-. apply Hn, list_elem_of_fmap. exists x. split; [done|]. by eapply list_elem_of_lookup_2.
Qed.
Lemma first_or_revalue n v q xs : first_or q (revalue n v <$> xs) = first_or q xs.
Proof. destruct xs; cbn; [done|]. by rewrite revalue_fst. Qed.

Lemma seg_revalue (m : gmap nid (Node nid lid item)) self p xs q n v :
  seg m self p xs q → seg (alter (node_with_value v) n m) self p (revalue n v <$> xs) q.
Proof.
  revert p; induction xs as [|x xs IH]; intros p; [done|]. intros [Hx Hs]. cbn [fmap list_fmap seg].
  rewrite first_or_revalue, revalue_fst. split; [|by apply IH].
  unfold revalue. case_decide as Hd.
  - subst n. by rewrite lookup_alter_eq, Hx.
  - by rewrite lookup_alter_ne.
Qed.

Lemma holds_revalue s l xs n v :
  holds is_ready_list s l xs → holds is_ready_list (value_store n v s) l (revalue n v <$> xs).
Proof.
  unfold holds. destruct (is_ready_list l).
  - intros ((h & Hl & Hh) & Hs & Hnd). split; [|split].
    + exists h. cbn. rewrite length_fmap, first_or_revalue. split; [done|].
      destruct Hh as [[-> ->]|(y & -> & Hy)]; [by left|right]. exists y. by rewrite revalue_fsts.
    + rewrite first_or_revalue. assert (E : last_or None (revalue n v <$> xs) = last_or None xs).
      { destruct xs as [|x xs] using rev_ind; [done|]. by rewrite fmap_app, !last_or_app; cbn; rewrite revalue_fst. }
      rewrite E. by apply seg_revalue.
    + by rewrite revalue_fsts.
  - intros (Hl & Hs & Hnd). split; [|split].
    + cbn. by rewrite length_fmap, first_or_revalue.
    + by apply seg_revalue.
    + by rewrite revalue_fsts.
Qed.

Lemma repr_revalue s C n v : repr is_ready_list s C → repr is_ready_list (value_store n v s) (retime n v C).
Proof.
  intros [Hr Hsz]. split.
  - intros l xs. unfold retime. rewrite lookup_fmap. intros (ys & HC & ->)%fmap_Some. by apply holds_revalue, Hr.
  - cbn. assert (E : dom (alter (node_with_value v) n (nodes s)) = dom (nodes s)) by apply dom_alter_L.
    by rewrite <-!size_dom, E in *.
Qed.

Lemma free_value_ne s n v y u : y ≠ n → free s y u → free (value_store n v s) y u.
Proof. intros Hne (m & E & ?). exists m. cbn. by rewrite lookup_alter_ne. Qed.
Lemma free_value_eq s n v u : free s n u → free (value_store n v s) n v.
Proof. intros (m & E & ? & ?). exists (node_with_value v m). cbn. by rewrite lookup_alter_eq, E. Qed.

Lemma in_list_retime C n v l e : in_list C l e → in_list (retime n v C) l (revalue n v e).
Proof.
  intros (xs & HC & He). exists (revalue n v <$> xs). unfold retime. rewrite lookup_fmap, HC. split; [done|].
  by apply list_elem_of_fmap_2.
Qed.

(** Dropping the node again forgets its value. *)
Lemma drop_retime n v C : drop_node n (retime n v C) = drop_node n C.
Proof.
  unfold drop_node, retime. rewrite <-map_fmap_compose. apply map_fmap_ext. intros l xs _. cbn.
  induction xs as [|x xs IH]; [done|]. cbn [fmap list_fmap]. rewrite !filter_cons, revalue_fst, IH.
  case_decide; [|done]. by rewrite revalue_ne.
Qed.

(** [set_wakeup_time] of a task in a ready list. *)
Lemma sinv_retime s ts C p t w :
  sinv s ts C None → queued C p t →
  sinv (value_store (SchedNode t) (SchedItem t w) s) ts (retime (SchedNode t) (SchedItem t w) C) None.
Proof.
  intros [Hr He Hrd Hd Hs Hev] Hq. set (n := SchedNode t). set (v := SchedItem t w).
  assert (Hdl : ∀ dl, C !! DelayList = Some dl → revalue n v <$> dl = dl).
  { intros dl Hdl. apply revalue_notin. intros ((n' & u) & E & Hin)%list_elem_of_fmap. cbn in E. subst n'.
    destruct Hq as (w0 & xs & HC & Hin'). by destruct (repr_unique _ _ _ _ _ _ _ _ _ Hr Hdl HC Hin Hin'). }
  split.
  - by apply repr_revalue.
  - intros l ys e. unfold retime. rewrite lookup_fmap. intros (xs & HC & ->)%fmap_Some (e0 & -> & Hin)%list_elem_of_fmap.
    specialize (He l xs e0 HC Hin). unfold revalue. case_decide as Hd0; [|done].
    destruct l; cbn in He |- *; destruct e0 as [n0 v0]; cbn in Hd0; subst n0.
    + destruct He as (t' & w' & b & [= ? ?] & ?). subst t'. unfold n, v. eauto 7.
    + destruct He as (t' & w' & b & [= ? ?] & ?). subst t'. unfold n, v. eauto 7.
    + destruct He as (t' & o' & b & [=] & ?).
    + destruct He as (t' & w' & [=]).
  - intros p' Hp. unfold retime. rewrite lookup_fmap. destruct (Hrd p' Hp) as [xs ->]. eauto.
  - destruct Hd as (dl & HC & Ha). exists dl. unfold retime. rewrite lookup_fmap, HC. cbn. by rewrite Hdl.
  - intros t' b Hb. destruct (Hs t' b Hb) as [Hp [[? _]|[_ Hin]]]; [done|]. split; [done|]. right. split; [done|].
    destruct Hin as [[? (u & Hu)]|[? (u & Hu)]]; [left|right]; (split; [done|]);
      apply (in_list_retime _ n v) in Hu; unfold revalue in Hu; case_decide as Hd0; simplify_eq;
      [injection Hd0 as ->|..|injection Hd0 as ->|]; by eexists.
  - intros t' b Hb. destruct (Hev t' b Hb) as [[o Ho]|(wl & o & Hw)].
    + left. exists o. by apply free_value_ne.
    + right. exists wl, o. apply (in_list_retime _ n v) in Hw. by rewrite revalue_ne in Hw.
Qed.

(** The value of a waiting task's node. *)
Lemma retime_mid s C l xl xr n v v' :
  repr is_ready_list s C → C !! l = Some (xl ++ (n, v) :: xr) → retime n v' C = <[l := xl ++ (n, v') :: xr]> C.
Proof.
  intros Hr HC. apply map_eq. intros l'. unfold retime. rewrite lookup_fmap. destruct (decide (l' = l)) as [->|Hne].
  - rewrite HC, lookup_insert_eq. cbn. rewrite fmap_app, fmap_cons. pose proof (repr_NoDup _ _ _ _ Hr HC) as Hd.
    rewrite fmap_app, fmap_cons in Hd. apply NoDup_app in Hd as (_ & Hl & [Hn _]%NoDup_cons).
    rewrite !revalue_notin; [|done|intros Hin; apply (Hl _ Hin); constructor]. unfold revalue. by rewrite decide_True.
  - rewrite lookup_insert_ne by done. destruct (C !! l') as [xs|] eqn:E; [|done]. cbn. f_equal. apply revalue_notin.
    intros ((n' & u) & En & Hin)%list_elem_of_fmap. cbn in En. subst n'.
    destruct (repr_unique s C l' l _ _ n u v Hr E HC Hin); [set_solver|done].
Qed.

Lemma sinv_reblock s ts C out wl xl xr t o o' :
  sinv s ts C out → C !! WaitList wl = Some (xl ++ (EventNode t, BlockItem t o) :: xr) →
  sinv (value_store (EventNode t) (BlockItem t o') s) ts (<[WaitList wl := xl ++ (EventNode t, BlockItem t o') :: xr]> C) out.
Proof.
  intros [Hr He Hrd Hd Hs Hev] HC. pose proof (repr_revalue s C (EventNode t) (BlockItem t o') Hr) as Hr'.
  rewrite (retime_mid _ _ _ _ _ _ _ (BlockItem t o') Hr HC) in Hr'.
  assert (Hother : ∀ l e, e.1 ≠ EventNode t → in_list C l e →
    in_list (<[WaitList wl := xl ++ (EventNode t, BlockItem t o') :: xr]> C) l e).
  { intros l e Hne Hin. rewrite <-(retime_mid _ _ _ _ _ _ _ (BlockItem t o') Hr HC).
    apply (in_list_retime _ (EventNode t) (BlockItem t o')) in Hin. by rewrite revalue_ne in Hin. }
  split; [done|..].
  - intros l xs e [[<- <-]|[? HC']]%lookup_insert_Some Hxs; [|by eapply He].
    apply elem_of_app in Hxs as [Hx|[->|Hx]%elem_of_cons]; [eapply He; [exact HC|set_solver]| |eapply He; [exact HC|set_solver]].
    destruct (He _ _ (EventNode t, BlockItem t o) HC) as (t' & o1 & b & [= <- _] & Hb); [set_solver|]. cbn. eauto.
  - intros p Hp. apply lookup_insert_is_Some'. right. eauto.
  - destruct Hd as (dl & Hdl & Ha). exists dl. by rewrite lookup_insert_ne.
  - intros t' b Hb. destruct (Hs t' b Hb) as [Hp [[? (w & Hw)]|[? Hin]]]; (split; [done|]).
    + left. split; [done|]. exists w. by apply free_value_ne.
    + right. split; [done|]. destruct Hin as [[? (w & Hw)]|[? (w & Hw)]]; [left|right]; (split; [done|]); exists w; by apply Hother.
  - intros t' b Hb. destruct (decide (t' = t)) as [->|Hne].
    + right. exists wl, o'. apply in_list_insert_eq. set_solver.
    + destruct (Hev t' b Hb) as [[u Hu]|(wl' & u & Hw)]; [left|right].
      * exists u. apply free_value_ne; [congruence|done].
      * exists wl', u. apply Hother; [|done]. cbn. congruence.
Qed.

(** The value of a node that is in no list. *)
Lemma sinv_free_value s ts C out n v u :
  sinv s ts C out → free s n u →
  match n, v with SchedNode t, SchedItem t' _ | EventNode t, BlockItem t' _ => t = t' | _, _ => False end →
  sinv (value_store n v s) ts C out.
Proof.
  intros [Hr He Hrd Hd Hs Hev] Hf Hv. split; [|done..| |].
  - assert (E : retime n v C = C).
    { apply map_eq. intros l. unfold retime. rewrite lookup_fmap. destruct (C !! l) as [xs|] eqn:HC; [|done].
      cbn. f_equal. apply revalue_notin. eapply (member_not_free is_ready_list), Hf. by apply Hr. }
    rewrite <-E. by apply repr_revalue.
  - intros t b Hb. destruct (Hs t b Hb) as [? [[? [w Hw]]|?]]; (split; [done|]); [left|by right]. split; [done|].
    destruct (decide (SchedNode t = n)) as [<-|Hne]; [|exists w; by apply free_value_ne].
    destruct v; try done. subst. exists wakeup_time. by eapply free_value_eq.
  - intros t b Hb. destruct (Hev t b Hb) as [[w Hw]|?]; [left|by right].
    destruct (decide (EventNode t = n)) as [<-|Hne]; [|exists w; by apply free_value_ne].
    destruct v; try done. subst. exists opaque. by eapply free_value_eq.
Qed.

(** *** Executing them *)

Lemma exec_set_value n v k m :
  nodes (ls k) !! n = Some m → exec (set_value n v) k = Done tt (with_ls (value_store n v (ls k)) k).
Proof.
  intros E. unfold set_value. apply exec_on_lists. unfold deref. cbn [bind get exec]. by rewrite E.
Qed.

Lemma in_list_node k C out l n v :
  kinv k C out → in_list C l (n, v) → ∃ m, nodes (ls k) !! n = Some m ∧ nlist m = Some l ∧ value m = v.
Proof.
  intros Hk (xs & HC & Hin). destruct (holds_seg _ _ _ _ (proj1 (k_repr _ _ _ _ Hk) _ _ HC)) as (p & q & Hs & _).
  destruct (seg_elem _ _ _ _ _ _ _ Hin Hs) as (pp & nn & E). eauto.
Qed.

Lemma exec_current k t : current_task k = Some t → exec current k = Done t k.
Proof. intros E. unfold current. cbn. by rewrite E. Qed.

(** The task [t] after its flag has been set. *)
Definition flag_task (m : list Z) (d : bool) (b : tcb) : tcb :=
  Build_tcb (priority b) (status b) (task_with_mem [] (with_list_tx_done d (task_with_mem m (utask b)))).
Definition flagged (t : nat) (d : bool) (k : kernel) : kernel := with_tasks (alter (flag_task (kmem k) d) t) k.

Lemma exec_set_list_tx_done t d k b : tasks k !! t = Some b → exec (set_list_tx_done t d) k = Done tt (flagged t d k).
Proof.
  intros Hb. unfold set_list_tx_done, on_task. rewrite (exec_bind_done _ _ _ _ _ (exec_deref_task _ _ _ Hb)).
  cbn. rewrite Hb. cbn. unfold flagged. destruct k. cbn in *. f_equal. unfold with_kmem, with_tasks. cbn. f_equal.
  apply map_eq. intros t'. destruct (decide (t' = t)) as [->|?]; [by rewrite !lookup_alter_eq, Hb|by rewrite !lookup_alter_ne].
Qed.

Lemma flagged_status t d k : same_status (tasks k) (tasks (flagged t d k)).
Proof.
  intros t'. cbn. destruct (decide (t' = t)) as [->|?]; [rewrite lookup_alter_eq|by rewrite lookup_alter_ne].
  by destruct (tasks k !! t).
Qed.

Definition committed (t : nat) (k : kernel) : kernel :=
  with_klog (set_op TxInvalid) (flagged t true (with_ls (apply (UMicro false 0) (ls k)) k)).
Lemma exec_log_commit k t b :
  current_task k = Some t → tasks k !! t = Some b → exec log_commit k = Done tt (committed t k).
Proof.
  intros Ht Hb. unfold log_commit. set (k1 := with_ls (apply (UMicro false 0) (ls k)) k).
  rewrite (exec_bind_done _ _ _ tt k1) by done. rewrite (exec_bind_done _ _ _ t k1) by by apply exec_current.
  by rewrite (exec_bind_done _ _ _ _ _ (exec_set_list_tx_done t true k1 b Hb)).
Qed.
Lemma kinv_committed k C out t : kinv k C out → kinv (committed t k) C out.
Proof. intros Hk. eapply sinv_status; [apply (flagged_status t true (with_ls (apply (UMicro false 0) (ls k)) k))|]. by apply sinv_micro. Qed.

(** The guard of the operations that a replayed transaction repeats. *)
Lemma exec_bypass k t b p :
  current_task k = Some t → tasks k !! t = Some b → list_tx_done (utask b) = false →
  exec (bypass_list_tx p) k = exec p k.
Proof.
  intros Ht Hb Hd. unfold bypass_list_tx. rewrite (exec_bind_done _ _ _ _ _ (exec_current _ _ Ht)).
  unfold list_transaction_done. rewrite (exec_bind_done _ _ _ false k).
  2:{ by rewrite (exec_bind_done _ _ _ _ _ (exec_deref_task _ _ _ Hb)), Hd. }
  done.
Qed.
End value.
