(* ===== verification/SchedOps.v ===== *)
(** * The composite operations refine the abstract scheduler

    Blocking and waking tasks: each theorem gives the contents of all lists and
    the states of all tasks after the operation, and that the invariant holds. *)

From Stdlib Require Import Sorting.Sorted.
From S2P Require Import Prelude Arch Pmem TxCache Transaction Replay UserTx Util PList PListUpd PListSeg PListSorted PListLinear.
From S2P Require Import ListRepr Kernel ListTx Sched SchedInv SchedDemo SchedSpec SchedVal.

(** A waiting task is blocked. *)
Definition waiters_blocked (ts : gmap nat tcb) (C : contents) : Prop :=
  ∀ t b, ts !! t = Some b → waiting C t → status b = Blocked.

(** Task [t] leaves its ready list, joins wait list [wl] with value [o] and
    sleeps until [w]. *)
Definition block_on (ts : gmap nat tcb) (wl t : nat) (o w : Z) (C : contents) : contents :=
  insert_sorted (item_gt ts) DelayList (SchedNode t, SchedItem t w)
    (insert_sorted (item_gt ts) (WaitList wl) (EventNode t, BlockItem t o) (drop_node (SchedNode t) C)).

Definition block_front (ts : gmap nat tcb) (wl t : nat) (o w : Z) (C : contents) : contents :=
  insert_sorted (item_gt ts) DelayList (SchedNode t, SchedItem t w)
    (alter (cons (EventNode t, BlockItem t o)) (WaitList wl) (drop_node (SchedNode t) C)).

(** What changes next to the lists when [t] falls asleep until [w]. *)
Definition fell_asleep (t : nat) (w : Z) (k k' : kernel) : Prop :=
  same_status (set_state Blocked t (tasks k)) (tasks k') ∧
  next_unblock_time (tm k') = Z.min (next_unblock_time (tm k)) w ∧ tick_counter (tm k') = tick_counter (tm k) ∧
  current_task k' = current_task k ∧ kcpu k' = kcpu k ∧ kmem k' = kmem k ∧ log_idle k'.

Section ops.
Context `{Arch}.
Implicit Types (k : kernel) (C : contents).

(** Removing a ready task. *)
Lemma drop_ready k C t b :
  kinv k C None → tasks k !! t = Some b → is_schedulable b = true →
  ∃ w s', exec (remove_from_ready_list t) k = Done tt (with_ls s' k) ∧
    kinv (with_ls s' k) (drop_node (SchedNode t) C) (Some t) ∧ free s' (SchedNode t) (SchedItem t w) ∧
    (∃ m, nodes (ls k) !! SchedNode t = Some m ∧ value m = SchedItem t w) ∧
    (∀ n u, free (ls k) n u → free s' n u).
Proof.
  intros Hk Hb Hsch. destruct (k_sched _ _ _ _ Hk t b Hb) as [Hp [[? _]|[_ [[Hst _]|[_ (w & xs & HC & Hin)]]]]]; [done| |].
  { unfold is_schedulable in Hsch. by rewrite Hst in Hsch. }
  apply list_elem_of_split in Hin as (xl & xr & ->).
  destruct (remove_from_ready_list_spec k C t b w xl xr Hk Hb HC) as (s' & Hex & Hk' & Hf & Hfree).
  exists w, s'. split; [done|]. split; [|split; [done|split; [|done]]].
  - by rewrite (drop_node_mid (ls k) C _ _ _ _ _ (k_repr _ _ _ _ Hk) HC).
  - destruct (in_list_node k C None (ReadyList (priority b)) (SchedNode t) (SchedItem t w) Hk) as (m & ? & _ & ?); [|eauto].
    exists (xl ++ (SchedNode t, SchedItem t w) :: xr). split; [done|]. set_solver.
Qed.

(** Removing a sleeping task. *)
Lemma drop_delayed k C t b :
  kinv k C None → tasks k !! t = Some b → status b = Blocked →
  ∃ w s', exec (remove_from_delayed_list t) k = Done tt (with_ls s' k) ∧
    kinv (with_ls s' k) (drop_node (SchedNode t) C) (Some t) ∧ free s' (SchedNode t) (SchedItem t w) ∧
    in_list C DelayList (SchedNode t, SchedItem t w) ∧ (∀ n u, free (ls k) n u → free s' n u).
Proof.
  intros Hk Hb Hst. destruct (k_sched _ _ _ _ Hk t b Hb) as [Hp [[? _]|[_ [[_ (w & Hin)]|[Hsch _]]]]]; [done| |].
  2:{ unfold is_schedulable in Hsch. by rewrite Hst in Hsch. }
  pose proof Hin as (xs & HC & (xl & xr & ->)%list_elem_of_split).
  destruct (remove_from_delayed_list_spec k C t w xl xr Hk HC) as (s' & Hex & Hk' & Hf & Hfree).
  exists w, s'. split; [done|]. split; [|done].
  by rewrite (drop_node_mid (ls k) C _ _ _ _ _ (k_repr _ _ _ _ Hk) HC).
Qed.

(** Joining a wait list. *)
Lemma join_wait k C out wl t b o xs :
  kinv k C out → tasks k !! t = Some b → C !! WaitList wl = Some xs → free (ls k) (EventNode t) (BlockItem t o) →
  ∃ s', exec (sorted_list_insert (WaitList wl) (EventNode t)) k = Done tt (with_ls s' k) ∧
    kinv (with_ls s' k) (insert_sorted (item_gt (tasks k)) (WaitList wl) (EventNode t, BlockItem t o) C) out ∧
    (∀ n u, n ≠ EventNode t → free (ls k) n u → free s' n u).
Proof.
  intros Hk Hb HC Hf. destruct (join_wait_list_spec k C out wl t b o xs Hk Hb HC Hf) as (l & r & s' & -> & Hsp & Hex & Hk' & Hfree).
  exists s'. split; [done|]. split; [|done]. by rewrite (insert_sorted_lookup _ _ _ (l ++ r) _ l r HC).
Qed.

Lemma drop_node_wait C n wl xs : C !! WaitList wl = Some xs → ∃ ys, drop_node n C !! WaitList wl = Some ys.
Proof. intros E. rewrite (drop_node_lookup _ _ _ _ E). eauto. Qed.

(** The state changes of a task that goes to sleep, whatever happened to the
    list store before. *)
Lemma delayed_upd_rest t w s' k :
  tasks (delayed_upd t w s' k) = set_state Blocked t (tasks k) ∧
  tick_counter (tm (delayed_upd t w s' k)) = tick_counter (tm k) ∧
  next_unblock_time (tm (delayed_upd t w s' k)) = Z.min (next_unblock_time (tm k)) w ∧
  next_expiry_time (tm (delayed_upd t w s' k)) = next_expiry_time (tm k) ∧
  current_task (delayed_upd t w s' k) = current_task k ∧ kcpu (delayed_upd t w s' k) = kcpu k ∧
  kmem (delayed_upd t w s' k) = kmem k ∧ klog (delayed_upd t w s' k) = klog k.
Proof.
  unfold delayed_upd. destruct (Z.ltb_spec w (next_unblock_time (tm k))); cbn; split_and!; try done; lia.
Qed.

(** [set_wakeup_time] of a ready task. *)
Lemma set_wakeup_ready k C t b w :
  kinv k C None → tasks k !! t = Some b → is_schedulable b = true →
  exec (set_wakeup_time t w) k = Done tt (with_ls (value_store (SchedNode t) (SchedItem t w) (ls k)) k) ∧
  kinv (with_ls (value_store (SchedNode t) (SchedItem t w) (ls k)) k) (retime (SchedNode t) (SchedItem t w) C) None ∧
  (∃ m, nodes (value_store (SchedNode t) (SchedItem t w) (ls k)) !! SchedNode t = Some m ∧ value m = SchedItem t w).
Proof.
  intros Hk Hb Hsch. destruct (k_sched _ _ _ _ Hk t b Hb) as [Hp [[? _]|[_ [[Hst _]|[_ Hq]]]]]; [done| |].
  { unfold is_schedulable in Hsch. by rewrite Hst in Hsch. }
  pose proof Hq as (w0 & Hin). destruct (in_list_node _ _ _ _ _ _ Hk Hin) as (m & Hm & _ & _).
  split; [by eapply exec_set_value|]. split; [by eapply sinv_retime|].
  exists (node_with_value (SchedItem t w) m). cbn. by rewrite lookup_alter_eq, Hm.
Qed.

Lemma retime_lookup_wait C n v wl xs : C !! WaitList wl = Some xs → retime n v C !! WaitList wl = Some (revalue n v <$> xs).
Proof. intros E. unfold retime. by rewrite lookup_fmap, E. Qed.

(** A sleeping task off its ready list that has been put into the delay list. *)
Lemma fall_asleep k k1 C t b w s1 :
  kinv k1 C (Some t) → tasks k1 !! t = Some b → free (ls k1) (SchedNode t) (SchedItem t w) →
  tasks k1 = tasks k → tm k1 = tm k → current_task k1 = current_task k → kcpu k1 = kcpu k → kmem k1 = kmem k → ls k1 = s1 →
  ∃ k2, exec (add_to_delayed_list t) k1 = Done tt k2 ∧ tasks k2 = set_state Blocked t (tasks k) ∧
    kinv k2 (insert_sorted (item_gt (tasks k)) DelayList (SchedNode t, SchedItem t w) C) None ∧
    fell_asleep t w k (invalidated k2) ∧ (current_task k = Some t → fell_asleep t w k (committed t k2)).
Proof.
  intros Hk1 Hb Hf Ets Etm Ec Ecpu Em <-. destruct (insert_delay k1 C t w b Hk1 Hb Hf) as (s' & Hex & Hk2).
  exists (delayed_upd t w s' k1). rewrite Ets in Hk2.
  destruct (delayed_upd_rest t w s' k1) as (E1 & E2 & E3 & _ & E5 & E6 & E7 & _).
  split; [done|]. split; [by rewrite E1, Ets|]. split; [done|].
  rewrite Ets in E1. rewrite Etm in E2, E3. rewrite Ec in E5. rewrite Ecpu in E6. rewrite Em in E7. split.
  - unfold fell_asleep. cbn. rewrite E1, E2, E3, E5, E6, E7. by split_and!.
  - intros _. unfold fell_asleep. cbn. rewrite E2, E3, E5, E6, E7. split; [|by split_and!].
    rewrite <-E1. apply (flagged_status t true (with_ls (apply (UMicro false 0) (ls (delayed_upd t w s' k1))) (delayed_upd t w s' k1))).
Qed.

(** *** Blocking on a wait list *)

(** Task [t] leaves its ready list, joins wait list [wl] by [ins], and goes to
    sleep; [f] is what [ins] does to the contents. *)
Lemma block_refines k C wl t b o w xs opc (ins : prog kernel unit) (f : contents → contents) :
  kinv k C None → tasks k !! t = Some b → is_schedulable b = true → C !! WaitList wl = Some xs →
  free (ls k) (EventNode t) (BlockItem t o) →
  (∀ k' C' ys, kinv k' C' (Some t) → tasks k' = tasks k → C' !! WaitList wl = Some ys → free (ls k') (EventNode t) (BlockItem t o) →
     ∃ s', exec ins k' = Done tt (with_ls s' k') ∧ kinv (with_ls s' k') (f C') (Some t) ∧
       (∀ n u, n ≠ EventNode t → free (ls k') n u → free s' n u)) →
  ∃ k', exec (set_wakeup_time t w;;; set_wait_list_ptr (Some (WaitList wl));;; set_tx_op opc;;;
      remove_from_ready_list t;;; ins;;; add_to_delayed_list t;;; log_invalidate) k = Done tt k' ∧
    kinv k' (insert_sorted (item_gt (tasks k)) DelayList (SchedNode t, SchedItem t w) (f (drop_node (SchedNode t) C))) None ∧
    fell_asleep t w k k'.
Proof.
  intros Hk Hb Hsch HC Hf Hins.
  destruct (set_wakeup_ready k C t b w Hk Hb Hsch) as (Hex0 & Hk0 & Hm0).
  set (k0 := with_ls _ k) in *. set (k1 := with_klog (set_op opc) (with_klog (set_wlp (Some (WaitList wl))) k0)).
  destruct (drop_ready k1 _ t b Hk0 Hb Hsch) as (w' & s2 & Hex2 & Hk2 & Hf2 & (m & Hm & Hv) & Hfree2).
  destruct Hm0 as (m0 & Hm0 & Hv0). cbn in Hm, Hm0. rewrite Hm0 in Hm. injection Hm as <-. rewrite Hv0 in Hv. injection Hv as <-.
  rewrite drop_retime in Hk2. destruct (drop_node_wait C (SchedNode t) wl xs HC) as [ys HCw].
  destruct (Hins (with_ls s2 k1) _ ys Hk2 eq_refl HCw) as (s3 & Hex3 & Hk3 & Hfree3).
  { apply Hfree2. cbn. by apply free_value_ne. }
  destruct (fall_asleep k (with_ls s3 (with_ls s2 k1)) _ t b w s3 Hk3 Hb) as (k4 & Hex4 & _ & Hk4 & Hsl & _); [|done..|].
  { by apply Hfree3. }
  exists (invalidated k4). split; [|split; [by apply kinv_invalidated|done]].
  run Hex0. rewrite (exec_bind_done _ _ _ tt (with_klog (set_wlp (Some (WaitList wl))) k0)) by done.
  run (exec_set_tx_op opc (with_klog (set_wlp (Some (WaitList wl))) k0)). fold k1.
  run Hex2. run Hex3. run Hex4. apply exec_log_invalidate.
Qed.

Lemma insert_into_waitlist_refines k C wl t b o w xs :
  kinv k C None → tasks k !! t = Some b → is_schedulable b = true → C !! WaitList wl = Some xs →
  free (ls k) (EventNode t) (BlockItem t o) →
  ∃ k', exec (atomic_roll_forward_insert_into_waitlist (WaitList wl) t w) k = Done tt k' ∧
    kinv k' (block_on (tasks k) wl t o w C) None ∧ fell_asleep t w k k'.
Proof.
  intros Hk Hb Hsch HC Hf. eapply block_refines; [done..|]. intros k' C' ys Hk' Ets HC' Hf'. rewrite <-Ets in *.
  by apply (join_wait k' C' (Some t) wl t b o ys).
Qed.

(** On the wait list of an event group it is the first. *)
Lemma insert_into_unsorted_refines k C wl t b o w xs :
  kinv k C None → tasks k !! t = Some b → is_schedulable b = true → C !! WaitList wl = Some xs →
  free (ls k) (EventNode t) (BlockItem t o) →
  ∃ k', exec (set_wakeup_time t w;;; roll_forward_insert_into_unsorted_waitlist (WaitList wl) t) k = Done tt k' ∧
    kinv k' (block_front (tasks k) wl t o w C) None ∧ fell_asleep t w k k'.
Proof.
  intros Hk Hb Hsch HC Hf. eapply block_refines; [done..|]. intros k' C' ys Hk' Ets HC' Hf'. rewrite <-Ets in Hb.
  destruct (join_wait_front_spec k' C' (Some t) wl t b o ys Hk' Hb HC' Hf') as (s' & Hex & Hk2 & Hfree).
  exists s'. split; [done|]. split; [|done]. rewrite (alter_insert_lookup _ _ ys) by done. exact Hk2.
Qed.

(** *** Delaying the current task *)

Lemma delay_current k C t b w :
  kinv k C None → current_task k = Some t → tasks k !! t = Some b → is_schedulable b = true →
  list_tx_done (utask b) = false →
  ∃ k', exec (set_wakeup_time t w;;; roll_forward_insert_into_delaylist) k = Done tt k' ∧
    kinv k' (sleep (tasks k) t w C) None ∧ fell_asleep t w k k'.
Proof.
  intros Hk Hc Hb Hsch Hd.
  destruct (set_wakeup_ready k C t b w Hk Hb Hsch) as (Hex0 & Hk0 & Hm0).
  set (k0 := with_ls _ k) in *. set (k1 := with_klog (set_op DelayListInsert) k0).
  destruct (drop_ready k1 _ t b Hk0 Hb Hsch) as (w' & s2 & Hex2 & Hk2 & Hf2 & (m & Hm & Hv) & Hfree2).
  destruct Hm0 as (m0 & Hm0 & Hv0). cbn in Hm, Hm0. rewrite Hm0 in Hm. injection Hm as <-. rewrite Hv0 in Hv. injection Hv as <-.
  rewrite drop_retime in Hk2.
  destruct (fall_asleep k (with_ls s2 k1) _ t b w s2 Hk2 Hb Hf2) as (k4 & Hex4 & Ets & Hk4 & _ & Hsl); [done..|].
  assert (Hc4 : current_task k4 = Some t).
  { destruct (Hsl Hc) as (_ & _ & _ & E & _). cbn in E. congruence. }
  exists (committed t k4). split; [|split; [by apply kinv_committed|by apply Hsl]].
  run Hex0. unfold roll_forward_insert_into_delaylist. rewrite (exec_bypass k0 t b _ Hc Hb Hd).
  run (exec_set_tx_op DelayListInsert k0). fold k1. run (exec_current k1 t Hc). run Hex2. run Hex4.
  assert (is_Some (tasks k4 !! t)) as [b4 Hb4]; [|by apply (exec_log_commit k4 t b4)].
  rewrite Ets. unfold set_state. rewrite lookup_alter_eq, Hb. eauto.
Qed.

(** *** Waking a waiting task *)

(** Task [t], whose event node is free, moves from the delay list to its ready
    list. *)
Lemma wake_sleeper k C t b :
  kinv k C None → tasks k !! t = Some b → status b = Blocked →
  ∃ w s', in_list C DelayList (SchedNode t, SchedItem t w) ∧
    exec (remove_from_delayed_list t;;; add_to_ready_list t) k = Done tt (status_upd t Ready (with_ls s' k)) ∧
    kinv (status_upd t Ready (with_ls s' k))
      (append_to (ReadyList (priority b)) (SchedNode t, SchedItem t w) (drop_node (SchedNode t) C)) None ∧
    (∀ n u, n ≠ SchedNode t → free (ls k) n u → free s' n u).
Proof.
  intros Hk Hb Hst. destruct (drop_delayed k C t b Hk Hb Hst) as (w & s1 & Hex1 & Hk1 & Hf1 & Hin & Hfree1).
  destruct (append_ready (with_ls s1 k) _ t w b Hk1 Hb Hf1) as (s2 & Hex2 & Hk2 & Hfree2).
  exists w, s2. split; [done|]. split; [run Hex1; exact Hex2|]. split; [done|]. intros n u Hne Hn. by apply Hfree2, Hfree1.
Qed.

Lemma waiter_task k C out wl t o xs :
  kinv k C out → C !! WaitList wl = Some xs → (EventNode t, BlockItem t o) ∈ xs → ∃ b, tasks k !! t = Some b.
Proof. intros Hk HC Hin. destruct (k_entries _ _ _ _ Hk _ _ _ HC Hin) as (t' & o' & b & [= <- _ _] & Hb). eauto. Qed.

Lemma drop_node_comm n n' C : drop_node n (drop_node n' C) = drop_node n' (drop_node n C).
Proof.
  apply map_eq. intros l. unfold drop_node. rewrite !lookup_fmap. destruct (C !! l) as [xs|]; [|done]. cbn. f_equal.
  induction xs as [|x xs IH]; [done|]. rewrite !filter_cons.
  destruct (decide (x.1 ≠ n)), (decide (x.1 ≠ n')); rewrite ?filter_cons, ?IH; repeat case_decide;
    done.
Qed.

(** The first task of a wait list is woken. *)
Lemma pop_remove_refines k C wl t o xs c bc :
  kinv k C None → waiters_blocked (tasks k) C → C !! WaitList wl = Some ((EventNode t, BlockItem t o) :: xs) →
  current_task k = Some c → tasks k !! c = Some bc → list_tx_done (utask bc) = false →
  ∃ w k', in_list C DelayList (SchedNode t, SchedItem t w) ∧
    exec (roll_forward_pop_remove_from_waitlist (WaitList wl)) k = Done tt k' ∧
    kinv k' (wake (tasks k) t w C) None ∧
    same_status (set_state Ready t (tasks k)) (tasks k') ∧ same_rest k k' ∧ log_idle k'.
Proof.
  intros Hk Hwb HC Hc Hbc Hd.
  assert (∃ b, tasks k !! t = Some b) as [b Hb] by (eapply (waiter_task k C None wl t o); [done|done|constructor]).
  assert (Hst : status b = Blocked).
  { eapply Hwb; [done|]. exists wl, o. eexists. split; [done|]. constructor. }
  set (k1 := with_klog (set_op WaitListPopRemoval) (with_klog (set_bnp (Some (EventNode t))) k)).
  destruct (pop_wait_list_spec k1 C None wl t o xs Hk HC) as (s1 & Hex1 & Hk1 & Hf1).
  destruct (wake_sleeper (with_ls s1 k1) _ t b Hk1 Hb Hst) as (w & s2 & Hin & Hex2 & Hk2 & Hfree2).
  set (k2 := status_upd t Ready (with_ls s2 (with_ls s1 k1))) in *.
  assert (Hb2 : ∃ b2, tasks k2 !! c = Some b2) by (destruct (set_state_prio Ready t (tasks k) c); cbn;
    destruct (same_prio_lookup _ _ c bc (set_state_prio Ready t (tasks k)) Hbc) as (b2 & ? & _); eauto).
  destruct Hb2 as [b2 Hb2]. exists w, (committed c k2). split; [|split; [|split; [|split; [|split]]]].
  - by apply in_list_insert_ne in Hin.
  - unfold roll_forward_pop_remove_from_waitlist. rewrite (exec_bypass k c bc _ Hc Hbc Hd).
    destruct (proj1 (k_repr _ _ _ _ Hk) _ _ HC) as (Hl & _). cbn in Hl.
    rewrite (exec_bind_done _ _ _ (Build_PList (Z.of_nat (S (length xs))) None (Some (EventNode t))) k).
    2:{ unfold on_lists, deref_list. cbn. by rewrite Hl. }
    cbn [head]. rewrite (exec_bind_done _ _ _ tt (with_klog (set_bnp (Some (EventNode t))) k)) by done.
    run (exec_set_tx_op WaitListPopRemoval (with_klog (set_bnp (Some (EventNode t))) k)). fold k1. run Hex1.
    rewrite (exec_bind_done _ _ _ tt k2).
    2:{ run (exec_node_task _ _ (with_ls s1 k1) t (free_node _ _ _ Hf1) eq_refl). exact Hex2. }
    by apply (exec_log_commit k2 c b2).
  - apply kinv_committed. unfold wake. rewrite Hb, drop_node_comm.
    by rewrite (drop_node_mid (ls k) C (WaitList wl) [] xs (EventNode t) (BlockItem t o) (k_repr _ _ _ _ Hk) HC).
  - apply (flagged_status c true (with_ls (apply (UMicro false 0) (ls k2)) k2)).
  - done.
  - done.
Qed.

(** An empty wait list is left alone. *)
Lemma pop_remove_empty k C wl c bc :
  kinv k C None → C !! WaitList wl = Some [] →
  current_task k = Some c → tasks k !! c = Some bc → list_tx_done (utask bc) = false →
  ∃ k', exec (roll_forward_pop_remove_from_waitlist (WaitList wl)) k = Done tt k' ∧ kinv k' C None ∧
    same_status (tasks k) (tasks k') ∧ same_rest k k' ∧ log_idle k'.
Proof.
  intros Hk HC Hc Hbc Hd. destruct (proj1 (k_repr _ _ _ _ Hk) _ _ HC) as (Hl & _). cbn in Hl.
  set (k1 := with_klog (set_op WaitListPopRemoval) (with_klog (set_bnp None) k)).
  exists (committed c k1). split; [|split; [by apply kinv_committed|split; [|done]]].
  - unfold roll_forward_pop_remove_from_waitlist. rewrite (exec_bypass k c bc _ Hc Hbc Hd).
    rewrite (exec_bind_done _ _ _ (Build_PList 0 None None) k).
    2:{ unfold on_lists, deref_list. cbn. by rewrite Hl. }
    cbn [head]. rewrite (exec_bind_done _ _ _ tt (with_klog (set_bnp None) k)) by done.
    run (exec_set_tx_op WaitListPopRemoval (with_klog (set_bnp None) k)). fold k1.
    rewrite (exec_bind_done _ _ _ None k1).
    2:{ unfold list_pop_front, on_lists, optimized_pop_front, deref_list. cbn. by rewrite Hl. }
    by apply (exec_log_commit k1 c bc).
  - apply (flagged_status c true (with_ls (apply (UMicro false 0) (ls k1)) k1)).
Qed.

(** A given waiting task of an event group is woken. *)
Lemma remove_from_unsorted_refines k C wl t o xl xr :
  kinv k C None → waiters_blocked (tasks k) C →
  C !! WaitList wl = Some (xl ++ (EventNode t, BlockItem t o) :: xr) →
  ∃ w k', in_list C DelayList (SchedNode t, SchedItem t w) ∧
    exec (roll_forward_remove_from_unsorted_waitlist (WaitList wl) (EventNode t)) k = Done tt k' ∧
    kinv k' (wake (tasks k) t w C) None ∧ tasks k' = set_state Ready t (tasks k) ∧ same_rest k k' ∧ log_idle k' ∧
    free (ls k') (EventNode t) (BlockItem t o) ∧ (∀ n u, n ≠ SchedNode t → free (ls k) n u → free (ls k') n u).
Proof.
  intros Hk Hwb HC.
  assert (∃ b, tasks k !! t = Some b) as [b Hb] by (eapply (waiter_task k C None wl t o); [done|done|set_solver]).
  assert (Hst : status b = Blocked).
  { eapply Hwb; [done|]. exists wl, o. eexists. split; [done|]. set_solver. }
  set (k1 := with_klog (set_op WaitListRemoval) (with_klog (set_bnp (Some (EventNode t))) k)).
  destruct (leave_wait_list_spec k1 C None wl t o xl xr Hk HC) as (s1 & _ & Hex1 & Hk1 & Hf1 & Hfree1).
  destruct (wake_sleeper (with_ls s1 k1) _ t b Hk1 Hb Hst) as (w & s2 & Hin & Hex2 & Hk2 & Hfree2).
  set (k2 := status_upd t Ready (with_ls s2 (with_ls s1 k1))) in *.
  assert (Hev : ∀ n u, free s2 n u → free (ls (invalidated k2)) n u) by (intros n u; apply PListRing.micro_free).
  exists w, (invalidated k2). split; [by apply in_list_insert_ne in Hin|]. split; [|split; [|do 3 (split; [done|]); split]].
  - unfold roll_forward_remove_from_unsorted_waitlist.
    rewrite (exec_bind_done _ _ _ tt (with_klog (set_bnp (Some (EventNode t))) k)) by done.
    run (exec_set_tx_op WaitListRemoval (with_klog (set_bnp (Some (EventNode t))) k)). fold k1. run Hex1.
    run (exec_node_task _ _ (with_ls s1 k1) t (free_node _ _ _ Hf1) eq_refl).
    apply exec_bind_inv in Hex2 as ([] & k3 & E1 & E2). run E1. run E2. apply exec_log_invalidate.
  - apply kinv_invalidated. unfold wake. rewrite Hb, drop_node_comm.
    by rewrite (drop_node_mid (ls k) C (WaitList wl) xl xr (EventNode t) (BlockItem t o) (k_repr _ _ _ _ Hk) HC).
  - by apply Hev, Hfree2.
  - intros n u Hne Hn. by apply Hev, Hfree2, Hfree1.
Qed.

(** A new task becomes ready. *)
Lemma insert_ready_refines k C t b w :
  kinv k C (Some t) → tasks k !! t = Some b → free (ls k) (SchedNode t) (SchedItem t w) →
  ∃ k', exec (roll_forward_insert_into_readylist t) k = Done tt k' ∧
    kinv k' (append_to (ReadyList (priority b)) (SchedNode t, SchedItem t w) C) None ∧
    tasks k' = set_state Ready t (tasks k) ∧ same_rest k k' ∧ log_idle k'.
Proof.
  intros Hk Hb Hf. set (k1 := with_klog (set_op ReadyListInsert) (with_klog (set_tp (Some t)) k)).
  destruct (append_ready k1 C t w b Hk Hb Hf) as (s1 & Hex1 & Hk1 & _).
  exists (invalidated (status_upd t Ready (with_ls s1 k1))). split; [|split; [by apply kinv_invalidated|done]].
  unfold roll_forward_insert_into_readylist.
  rewrite (exec_bind_done _ _ _ tt (with_klog (set_tp (Some t)) k)) by done.
  run (exec_set_tx_op ReadyListInsert (with_klog (set_tp (Some t)) k)). fold k1. run Hex1. apply exec_log_invalidate.
Qed.

(** *** Only blocked tasks wait *)

Lemma same_status_lookup ts ts' t b' :
  same_status ts ts' → ts' !! t = Some b' → ∃ b, ts !! t = Some b ∧ status b = status b'.
Proof. intros E Hb. specialize (E t). rewrite Hb in E. destruct (ts !! t) as [b|]; [|done]. cbn in E. exists b. naive_solver. Qed.

Lemma waiting_wake ts t w C t' : waiting (wake ts t w C) t' → waiting C t' ∧ (is_Some (ts !! t) → t' ≠ t).
Proof.
  intros (wl & o & Hin). unfold wake in Hin. destruct (ts !! t).
  - apply in_list_append in Hin as [[? [=]]|Hin]. apply in_list_drop in Hin as [Hin Hne].
    apply in_list_drop in Hin as [Hin _]. split; [by exists wl, o|]. intros _ ->. by apply Hne.
  - split; [by exists wl, o|]. by intros [? [=]].
Qed.

Lemma waiters_woken ts ts' t w C :
  waiters_blocked ts C → same_status (set_state Ready t ts) ts' → waiters_blocked ts' (wake ts t w C).
Proof.
  intros Hw Es t' b' Hb' [Hin Hne]%waiting_wake.
  destruct (same_status_lookup _ _ _ _ Es Hb') as (b & Hb & Est). unfold set_state in Hb.
  destruct (decide (t' = t)) as [->|?].
  - rewrite lookup_alter_eq in Hb. destruct (ts !! t); [|done]. by destruct Hne.
  - rewrite lookup_alter_ne in Hb by done. rewrite <-Est. by eapply Hw.
Qed.

(** The caller and nobody else starts to wait. *)
Lemma waiters_join ts ts' t C C' :
  waiters_blocked ts C → same_status (set_state Blocked t ts) ts' → (∀ t', waiting C' t' → t' = t ∨ waiting C t') →
  waiters_blocked ts' C'.
Proof.
  intros Hw Es Hin t' b' Hb' Hwait.
  destruct (same_status_lookup _ _ _ _ Es Hb') as (b & Hb & Est). rewrite <-Est. unfold set_state in Hb.
  destruct (decide (t' = t)) as [->|Hne].
  - rewrite lookup_alter_eq in Hb. destruct (ts !! t); [|done]. by injection Hb as <-.
  - rewrite lookup_alter_ne in Hb by done. destruct (Hin _ Hwait) as [?|?]; [done|]. by eapply Hw.
Qed.
Lemma waiting_dropped n C t : waiting (drop_node n C) t → waiting C t.
Proof. intros (wl & o & [Hin _]%in_list_drop). by exists wl, o. Qed.
Lemma waiting_asleep gt t' w C t : waiting (insert_sorted gt DelayList (SchedNode t', SchedItem t' w) C) t → waiting C t.
Proof. intros (wl & o & [[[=] _]|Hin]%in_list_sorted). by exists wl, o. Qed.

Lemma waiters_blocking ts ts' wl t o w C :
  waiters_blocked ts C → same_status (set_state Blocked t ts) ts' → waiters_blocked ts' (block_on ts wl t o w C).
Proof.
  intros Hw Es. eapply waiters_join; [done..|]. intros t' (wl' & o' & Hin)%waiting_asleep.
  apply in_list_sorted in Hin as [[_ [= ->]]|Hin]; [by left|right]. apply (waiting_dropped (SchedNode t)). by exists wl', o'.
Qed.
Lemma waiters_blocking_front ts ts' wl t o w C :
  waiters_blocked ts C → same_status (set_state Blocked t ts) ts' → waiters_blocked ts' (block_front ts wl t o w C).
Proof.
  intros Hw Es. eapply waiters_join; [done..|]. intros t' (wl' & o' & Hin)%waiting_asleep.
  apply in_list_front in Hin as [[_ [= ->]]|Hin]; [by left|right]. apply (waiting_dropped (SchedNode t)). by exists wl', o'.
Qed.

(** *** The least important waiter comes first *)

Lemma ascending_least ts wl t o xs (C : contents) t' o' b b' :
  ascending (item_gt ts) ((EventNode t, BlockItem t o) :: xs) → (∀ e, e ∈ xs → entry_ok ts (WaitList wl) e) →
  ts !! t = Some b → ts !! t' = Some b' → (EventNode t', BlockItem t' o') ∈ xs → (priority b' ≤ priority b)%nat.
Proof.
  unfold ascending. intros Ha Hok Hb Hb' Hin. revert t o b Hb Ha.
  induction xs as [|e xs IH]; intros t o b Hb Ha; [by inversion Hin|].
  destruct (Hok e) as (t2 & o2 & b2 & -> & Hb2); [constructor|].
  cbn in Ha. inversion Ha as [|? ? Ha' Hh]; subst. inversion Hh as [|? ? Hgt]; subst. cbn in Hgt.
  rewrite Hb, Hb2 in Hgt. unfold prio_lt in Hgt. apply Nat.ltb_ge in Hgt.
  apply elem_of_cons in Hin as [[= -> _ _]|Hin].
  - rewrite Hb' in Hb2. by injection Hb2 as ->.
  - assert (priority b' ≤ priority b2)%nat; [|lia]. eapply IH; [intros; apply Hok; by constructor|done|done|exact Ha'].
Qed.

(** The wait list that the task joined. *)
Lemma block_on_order k C wl t o w xs ys :
  kinv k C None → C !! WaitList wl = Some xs → ascending (item_gt (tasks k)) xs →
  block_on (tasks k) wl t o w C !! WaitList wl = Some ys → ascending (item_gt (tasks k)) ys.
Proof.
  intros Hk HC Ha. unfold block_on, insert_sorted. rewrite lookup_alter_ne by done. rewrite lookup_alter_eq.
  rewrite (drop_node_lookup _ _ _ _ HC). cbn. rewrite filter_ne_notin.
  2:{ intros ((n & v) & En & Hin)%list_elem_of_fmap. cbn in En. subst n.
      by destruct (k_entries _ _ _ _ Hk _ _ _ HC Hin) as (? & ? & ? & [=] & _). }
  destruct (split_gt _ _ xs) as [l r] eqn:E. intros [= <-]. eapply split_gt_sorted; [apply item_gt_asym|done|done].
Qed.

(** C13: Blocking the current task on a wait list: the task leaves its ready list,
    joins the wait list in the order of the priorities and the delay list in the
    order of the wake-up times; the next unblock time accounts for it. *)
Theorem insert_into_waitlist_correct k C wl t b o w xs :
  kinv k C None → waiters_blocked (tasks k) C →
  tasks k !! t = Some b → is_schedulable b = true → C !! WaitList wl = Some xs →
  free (ls k) (EventNode t) (BlockItem t o) →
  ∃ k', exec (atomic_roll_forward_insert_into_waitlist (WaitList wl) t w) k = Done tt k' ∧
    kinv k' (block_on (tasks k) wl t o w C) None ∧ waiters_blocked (tasks k') (block_on (tasks k) wl t o w C) ∧
    fell_asleep t w k k' ∧
    (ascending (item_gt (tasks k)) xs →
     ∀ ys, block_on (tasks k) wl t o w C !! WaitList wl = Some ys → ascending (item_gt (tasks k)) ys).
Proof.
  intros Hk Hw Hb Hsch HC Hf. destruct (insert_into_waitlist_refines k C wl t b o w xs Hk Hb Hsch HC Hf) as (k' & Hex & Hk' & Hsl).
  exists k'. split_and!; try done.
  - eapply waiters_blocking; [done|]. apply Hsl.
  - intros Ha ys. by eapply block_on_order.
Qed.

(** The first of the waiters [xs], if there is one, has been woken. *)
Definition woken (ts : gmap nat tcb) (xs : list (nid * item)) (C C' : contents) (ts' : gmap nat tcb) : Prop :=
  match xs with
  | [] => C' = C ∧ ts' = ts
  | e :: _ => ∃ t o w, e = (EventNode t, BlockItem t o) ∧ in_list C DelayList (SchedNode t, SchedItem t w) ∧
      C' = wake ts t w C ∧ ts' = set_state Ready t ts
  end.

Lemma wake_waiter k C wl xs c bc :
  kinv k C None → waiters_blocked (tasks k) C → C !! WaitList wl = Some xs →
  current_task k = Some c → tasks k !! c = Some bc → list_tx_done (utask bc) = false →
  ∃ k' C' ts, exec (roll_forward_pop_remove_from_waitlist (WaitList wl)) k = Done tt k' ∧
    kinv k' C' None ∧ waiters_blocked (tasks k') C' ∧ same_status ts (tasks k') ∧ same_rest k k' ∧ log_idle k' ∧
    woken (tasks k) xs C C' ts.
Proof.
  intros Hk Hw HC Hc Hbc Hd. destruct xs as [|e xs].
  - destruct (pop_remove_empty k C wl c bc Hk HC Hc Hbc Hd) as (k' & Hex & Hk' & Es & Hr & Hl).
    exists k', C, (tasks k). split_and!; try done. intros t' b' Hb' Hin.
    destruct (same_status_lookup _ _ _ _ Es Hb') as (b & Hb & <-). by eapply Hw.
  - destruct (k_entries _ _ _ _ Hk _ _ e HC (list_elem_of_here _ _)) as (t & o & b & -> & Hb).
    destruct (pop_remove_refines k C wl t o xs c bc Hk Hw HC Hc Hbc Hd) as (w & k' & Hin & Hex & Hk' & Es & Hr & Hl).
    exists k', (wake (tasks k) t w C), (set_state Ready t (tasks k)). split_and!; try done; [by eapply waiters_woken|].
    exists t, o, w. done.
Qed.

(** C14: Waking a waiter: the first task of the wait list leaves it and the delay
    list for the end of its ready list; an empty wait list is left alone. *)
Theorem wake_first_waiter k C wl xs c bc :
  kinv k C None → waiters_blocked (tasks k) C → C !! WaitList wl = Some xs →
  current_task k = Some c → tasks k !! c = Some bc → list_tx_done (utask bc) = false →
  ∃ k' C' ts, exec (roll_forward_pop_remove_from_waitlist (WaitList wl)) k = Done tt k' ∧
    kinv k' C' None ∧ waiters_blocked (tasks k') C' ∧ same_status ts (tasks k') ∧ same_rest k k' ∧ log_idle k' ∧
    woken (tasks k) xs C C' ts.
Proof. apply wake_waiter. Qed.

(** The order of the wait lists is by ascending importance, so that the task
    that is woken first is one of the least important. *)
Theorem wait_list_wakes_least_important k C wl t o xs b :
  kinv k C None → C !! WaitList wl = Some ((EventNode t, BlockItem t o) :: xs) →
  ascending (item_gt (tasks k)) ((EventNode t, BlockItem t o) :: xs) → tasks k !! t = Some b →
  ∀ t' o' b', (EventNode t', BlockItem t' o') ∈ xs → tasks k !! t' = Some b' → is_higher_than (priority b) (priority b') = false.
Proof.
  intros Hk HC Ha Hb t' o' b' Hin Hb'. unfold is_higher_than. apply Nat.ltb_ge.
  eapply (ascending_least (tasks k) wl t o xs C t' o' b b'); try done.
  intros e He. eapply (k_entries _ _ _ _ Hk); [exact HC|by constructor].
Qed.

(** C15: [task_delay] (without the final yield) puts the current task to sleep
    until the current tick plus the delay and panics if that time overflows;
    it leaves the interrupt state as it was. *)
Theorem task_delay_correct (time_bits : Z) (yield : prog kernel unit) k C t b n :
  kinv k C None → current_task k = Some t → tasks k !! t = Some b → is_schedulable b = true →
  list_tx_done (utask b) = false → 0 ≤ nesting_cnt (kcpu k) < usize_mod - 1 →
  (interrupts (kcpu k) = (nesting_cnt (kcpu k) =? 0)) →
  let w := tick_counter (tm k) + n in
  if w <=? MAX_DELAY_TIME time_bits then
    ∃ k', exec (task_delay time_bits yield n false) k = Done tt k' ∧
      kinv k' (sleep (tasks k) t w C) None ∧ fell_asleep t w k k'
  else exec (task_delay time_bits yield n false) k = Failed Panic.
Proof.
  intros Hk Hc Hb Hsch Hd Hn Hint w. unfold task_delay.
  set (f := let* _ := current in _).
  set (k0 := lset {| interrupts := false; nesting_cnt := nesting_cnt (kcpu k) + 1 |} k).
  assert (Hf : exec f k0 = exec (let* wakeup_time := unwrap (time_checked_add time_bits (tick_counter (tm k)) n) in
                                 set_wakeup_time t wakeup_time;;; roll_forward_insert_into_delaylist) k0).
  { unfold f. run (exec_current k0 t Hc). by rewrite (exec_bind_done _ _ _ (tick_counter (tm k)) k0). }
  unfold time_checked_add in Hf. fold w in Hf. destruct (Z.leb_spec w (MAX_DELAY_TIME time_bits)).
  - cbn [bind unwrap] in Hf. destruct (delay_current k0 C t b w Hk Hc Hb Hsch Hd) as (k1 & Hex & Hk1 & Hsl).
    rewrite Hex in Hf. pose proof Hsl as (Es & Eu & Et & Ec & Ecpu & Em & Hl).
    exists (lset (kcpu k) k1). split; [|split; [exact Hk1|]].
    + pose proof (exec_with_no_interrupt f k k1 tt (nesting_cnt (kcpu k)) eq_refl Hn Hf Ecpu) as E.
      rewrite (exec_bind_done _ _ _ _ _ E). cbn [when]. cbn. do 2 f_equal. destruct (kcpu k). cbn in *. by subst.
    + unfold fell_asleep. cbn in *. by split_and!.
  - cbn [bind unwrap exec] in Hf. rewrite exec_bind. by rewrite (exec_with_no_interrupt_fail (Lens0 := cpu_lens) f k _ Panic eq_refl Hn Hf).
Qed.
End ops.

Module example.
#[local] Existing Instances cortex_m qemu default_features.

Lemma demo_waiters : waiters_blocked (tasks demo) demo_contents.
Proof.
  intros t b Hb (wl & o & xs & HC & Hin). demo_cases HC.
  - apply list_elem_of_singleton in Hin as [= -> _]. cbn in Hb. by injection Hb as <-.
  - by inversion Hin.
Qed.

Lemma insert_into_waitlist_correct_witness :
  ∃ k', exec (atomic_roll_forward_insert_into_waitlist (WaitList 0) 0 9) demo = Done tt k' ∧
    kinv k' (block_on (tasks demo) 0 0 0 9 demo_contents) None.
Proof.
  destruct (insert_into_waitlist_correct demo demo_contents 0 0 (demo_task 1 Running) 0 9 _ demo_kinv demo_waiters
    eq_refl eq_refl eq_refl ltac:(eexists; by split_and!)) as (k' & Hex & Hk & _).
  exists k'. split; [exact Hex|exact Hk].
Defined.

Lemma wake_first_waiter_witness :
  ∃ k', exec (roll_forward_pop_remove_from_waitlist (WaitList 0)) demo = Done tt k' ∧
    kinv k' (wake (tasks demo) 2 5 demo_contents) None.
Proof.
  destruct (wake_first_waiter demo demo_contents 0 _ 0 (demo_task 1 Running) demo_kinv demo_waiters
    eq_refl eq_refl eq_refl eq_refl) as (k' & C' & ts & Hex & Hk & _ & _ & _ & _ & t & o & w & E & (ys & HC & Hin) & EC & _).
  exists k'. split; [exact Hex|]. injection E as <- _ _. injection HC as <-.
  apply list_elem_of_singleton in Hin. injection Hin as ->. rewrite <-EC. exact Hk.
Defined.

(** Task 0, of priority 1, joins task 2, of priority 0, and is ahead of it. *)
Lemma wait_list_wakes_least_important_witness :
  ∃ k, kinv k (block_on (tasks demo) 0 0 0 9 demo_contents) None ∧
    block_on (tasks demo) 0 0 0 9 demo_contents !! WaitList 0 = Some [(EventNode 0, BlockItem 0 0); (EventNode 2, BlockItem 2 0)] ∧
    is_higher_than 1 0 = false.
Proof.
  destruct (insert_into_waitlist_refines demo demo_contents 0 0 (demo_task 1 Running) 0 9 _ demo_kinv
    eq_refl eq_refl eq_refl ltac:(eexists; by split_and!)) as (k' & _ & Hk & (Es & _)).
  exists k'. split; [exact Hk|]. split; [vm_compute; reflexivity|].
  assert (H0 : ∃ b, tasks k' !! 0%nat = Some b ∧ priority b = 1%nat).
  { specialize (Es 0%nat). cbn in Es. destruct (tasks k' !! 0%nat) as [b|]; [injection Es; intros; by exists b|done]. }
  assert (H2 : ∃ b, tasks k' !! 2%nat = Some b ∧ priority b = 0%nat).
  { specialize (Es 2%nat). cbn in Es. destruct (tasks k' !! 2%nat) as [b|]; [injection Es; intros; by exists b|done]. }
  destruct H0 as (b0 & E0 & Ep0), H2 as (b2 & E2 & Ep2). rewrite <-Ep0, <-Ep2.
  refine (wait_list_wakes_least_important k' _ 0 0 0 [(EventNode 2, BlockItem 2 0)] b0 Hk _ _ E0 2 0 b2 _ E2).
  - vm_compute. reflexivity.
  - repeat constructor. cbn. by rewrite E0, E2, Ep0, Ep2.
  - constructor.
Defined.

Lemma task_delay_correct_witness :
  ∃ k', exec (task_delay 32 (Ret tt) 10 false) demo = Done tt k' ∧ kinv k' (sleep (tasks demo) 0 14 demo_contents) None.
Proof.
  destruct (task_delay_correct 32 (Ret tt) demo demo_contents 0 (demo_task 1 Running) 10 demo_kinv eq_refl eq_refl eq_refl
    eq_refl ltac:(by vm_compute) eq_refl) as (k' & Hex & Hk & _).
  exists k'. split; [exact Hex|exact Hk].
Defined.
End example.
