(* ===== verification/SchedTick.v ===== *)
(** * The tick handler

    [process_tick] wakes exactly the tasks whose time has come, in the order of
    the delay list, and terminates. *)

From Stdlib Require Import Sorting.Sorted.
From S2P Require Import Prelude Arch Pmem TxCache Transaction Replay UserTx Util PList PListUpd PListSeg PListSorted PListLinear.
From S2P Require Import ListRepr Kernel ListTx Sched SchedInv SchedDemo SchedSpec SchedVal SchedOps.

(** The tasks at the front of the delay list whose time has come. *)
Fixpoint due (now : Z) (dl : list (nid * item)) : list (nat * Z) :=
  match dl with
  | (_, SchedItem t w) :: dl => if now <? w then [] else (t, w) :: due now dl
  | _ => []
  end.

Definition wake_all (ts : gmap nat tcb) (us : list (nat * Z)) (C : contents) : contents :=
  foldl (λ C u, wake ts u.1 u.2 C) C us.
Definition ready_all (us : list (nat * Z)) (ts : gmap nat tcb) : gmap nat tcb :=
  foldl (λ ts u, set_state Ready u.1 ts) ts us.

(** No task of the delay list wakes up before [next_unblock_time]. *)
Definition unblock_ok (k : kernel) (C : contents) : Prop :=
  ∀ t w, in_list C DelayList (SchedNode t, SchedItem t w) → next_unblock_time (tm k) ≤ w.

Section tick.
Context `{Arch, Board, TxFeatures} (time_bits : Z).
Implicit Types (k : kernel) (C : contents).

Lemma wake_all_prio ts ts' us C : same_prio ts ts' → wake_all ts' us C = wake_all ts us C.
Proof.
  intros E. unfold wake_all. revert C; induction us as [|u us IH]; intros C; [done|]. cbn.
  by rewrite (wake_prio ts ts'), IH.
Qed.

(** Waking the first task leaves the rest of the delay list. *)
Lemma wake_delay k C t w dl b :
  kinv k C None → C !! DelayList = Some ((SchedNode t, SchedItem t w) :: dl) → tasks k !! t = Some b →
  wake (tasks k) t w C !! DelayList = Some dl.
Proof.
  intros Hk HC Hb. unfold wake. rewrite Hb. unfold append_to. rewrite lookup_alter_ne by done.
  rewrite (drop_node_mid (ls k) C DelayList [] dl (SchedNode t) (SchedItem t w) (k_repr _ _ _ _ Hk) HC).
  rewrite (drop_node_lookup _ _ DelayList dl) by apply lookup_insert_eq. f_equal. apply filter_ne_notin.
  intros ((n & v) & En & Hin)%list_elem_of_fmap. cbn in En. subst n.
  destruct (k_entries _ _ _ _ Hk DelayList _ (EventNode t, v) HC) as (? & ? & ? & [=] & _). by constructor.
Qed.

Lemma delay_head k C out e dl :
  kinv k C out → C !! DelayList = Some (e :: dl) →
  ∃ t w b, e = (SchedNode t, SchedItem t w) ∧ tasks k !! t = Some b.
Proof. intros Hk HC. apply (k_entries _ _ _ _ Hk _ _ e HC). constructor. Qed.

Lemma exec_delay_front k C dl :
  kinv k C None → C !! DelayList = Some dl →
  exec delay_front k = Done (match dl with (_, SchedItem t w) :: _ => Some (t, w) | _ => None end) k.
Proof.
  intros Hk HC. unfold delay_front. rewrite (exec_bind_done _ _ _ (snd <$> hd_error dl) k).
  2:{ rewrite (exec_on_lists _ _ _ _ (exec_peek_front is_ready_list _ _ DelayList _ (k_repr _ _ _ _ Hk) eq_refl HC)).
      f_equal. by destruct k. }
  destruct dl as [|e dl]; [done|].
  by destruct (delay_head _ _ _ _ _ Hk HC) as (t & w & b & -> & _).
Qed.

(** The loop of [process_tick]. *)
Lemma wake_loop_correct fuel now k C dl :
  kinv k C None → C !! DelayList = Some dl → (length (due now dl) ≤ fuel)%nat →
  ∃ k' dl', exec (wake_loop fuel now) k = Done tt k' ∧
    kinv k' (wake_all (tasks k) (due now dl) C) None ∧ tasks k' = ready_all (due now dl) (tasks k) ∧
    same_rest k k' ∧ (log_idle k → log_idle k') ∧
    wake_all (tasks k) (due now dl) C !! DelayList = Some dl' ∧ due now dl' = [].
Proof.
  revert k C dl; induction fuel as [|fuel IH]; intros k C dl Hk HC Hf; cbn [wake_loop];
    rewrite (exec_bind_done _ _ _ _ _ (exec_delay_front k C dl Hk HC));
    (destruct dl as [|e dl]; [exists k, []; by split_and!|]);
    destruct (delay_head _ _ _ _ _ Hk HC) as (t & w & b & -> & Hb); cbn [due] in *;
    (destruct (now <? w) eqn:Ew; [exists k, ((SchedNode t, SchedItem t w) :: dl); split_and!; try done; cbn; by rewrite Ew|]); cbn in Hf; [lia|].
  destruct (wake_delayed k C t w dl b Hk HC Hb) as (k1 & Hex1 & Hk1 & Ets & Hrest & Hidle).
  pose proof (set_state_prio Ready t (tasks k)) as Ep. rewrite <-Ets in Ep.
  destruct (IH k1 (wake (tasks k) t w C) dl Hk1) as (k2 & dl' & Hex2 & Hk2 & Ets2 & Hrest2 & Hidle2 & Hdl & Hdue).
  { by eapply wake_delay. }
  { lia. }
  rewrite (wake_all_prio _ _ _ _ Ep) in Hk2, Hdl.
  exists k2, dl'. split; [|split; [done|split; [|split; [|split; [|done]]]]].
  - by rewrite (exec_bind_done _ _ _ _ _ Hex1).
  - by rewrite Ets2, Ets.
  - unfold same_rest in *. intuition congruence.
  - auto.
Qed.

(** The loop may run as often as there are nodes. *)
Lemma due_length now k C dl :
  kinv k C None → C !! DelayList = Some dl → (length (due now dl) ≤ size (nodes (ls k)))%nat.
Proof.
  intros Hk HC. transitivity (length dl).
  - clear. induction dl as [|[n v] dl IH]; [done|]. destruct v; cbn; try lia. destruct (now <? wakeup_time); cbn; lia.
  - destruct (holds_seg _ _ _ _ (proj1 (k_repr _ _ _ _ Hk) _ _ HC)) as (p & q & Hs & Hnd).
    rewrite <-(length_fmap fst). apply nodup_length_size; [done|]. intros y Hy. by eapply seg_is_Some.
Qed.

(** In a sorted list nothing behind a task that is not due is due. *)
Lemma due_rest k C now dl t w :
  kinv k C None → C !! DelayList = Some dl → due now dl = [] → in_list C DelayList (SchedNode t, SchedItem t w) → now < w.
Proof.
  intros Hk HC Hd (xs & HC' & Hin). rewrite HC in HC'. injection HC' as <-.
  pose proof (delay_sorted _ _ _ _ Hk HC) as Hs. destruct dl as [|e dl]; [by inversion Hin|].
  destruct (delay_head _ _ _ _ _ Hk HC) as (t0 & w0 & b0 & -> & _). cbn in Hd, Hs.
  destruct (Z.ltb_spec now w0); [|done]. apply Sorted_StronglySorted in Hs; [|intros ???; lia].
  inversion Hs as [|? ? _ Hf]; subst. apply elem_of_cons in Hin as [[= _ _ ->]|Hin]; [done|].
  rewrite Forall_forall in Hf. assert (w0 ≤ w); [|lia]. apply Hf.
  apply list_elem_of_fmap. exists (SchedItem t w). split; [done|]. apply list_elem_of_fmap. by exists (SchedNode t, SchedItem t w).
Qed.

Lemma due_none k C now dl :
  kinv k C None → C !! DelayList = Some dl → unblock_ok k C → now < next_unblock_time (tm k) → due now dl = [].
Proof.
  intros Hk HC Hu Hn. destruct dl as [|e dl]; [done|].
  destruct (delay_head _ _ _ _ _ Hk HC) as (t & w & b & -> & _). cbn.
  assert (next_unblock_time (tm k) ≤ w); [|destruct (Z.ltb_spec now w); [done|lia]].
  apply (Hu t). eexists. split; [done|]. constructor.
Qed.

(** The part of the tick handler that runs with interrupts off. *)
Lemma process_tick_body_correct k C dl :
  kinv k C None → C !! DelayList = Some dl → unblock_ok k C → 0 ≤ tick_counter (tm k) →
  tick_counter (tm k) + 1 < 2 ^ time_bits →
  let now := tick_counter (tm k) + 1 in
  ∃ k', exec (process_tick_body time_bits) k = Done tt k' ∧
    kinv k' (wake_all (tasks k) (due now dl) C) None ∧ tasks k' = ready_all (due now dl) (tasks k) ∧
    tick_counter (tm k') = now ∧ unblock_ok k' (wake_all (tasks k) (due now dl) C) ∧
    (∀ t w, in_list (wake_all (tasks k) (due now dl) C) DelayList (SchedNode t, SchedItem t w) → now < w) ∧
    current_task k' = current_task k ∧ kcpu k' = kcpu k ∧ (log_idle k → log_idle k').
Proof.
  intros Hk HC Hu Ht0 Ht now.
  set (k0 := with_tm (λ m, Build_TimeManager now (next_unblock_time m) (next_expiry_time m)) k).
  assert (Hex0 : exec (inc_tick time_bits 1) k = Done now k0).
  { unfold inc_tick, get_ticks. cbn. rewrite Z.mod_small by lia. done. }
  unfold process_tick_body. rewrite (exec_bind_done _ _ _ _ _ Hex0).
  rewrite (exec_bind_done _ _ _ (next_unblock_time (tm k)) k0) by done.
  assert (Hk0 : kinv k0 C None) by done.
  destruct (Z.leb_spec (next_unblock_time (tm k)) now) as [Hle|Hlt]; cbn [when].
  - destruct (wake_loop_correct (size (nodes (ls k0))) now k0 C dl Hk0 HC (due_length _ _ _ _ Hk0 HC))
      as (k1 & dl' & Hex1 & Hk1 & Ets & Hrest & Hidle & HC1 & Hd1).
    rewrite (exec_bind_done _ _ _ k0 k0) by done. rewrite (exec_bind_done _ _ _ _ _ Hex1).
    rewrite (exec_bind_done _ _ _ _ _ (exec_delay_front k1 _ dl' Hk1 HC1)).
    destruct Hrest as (Etm & Ec & Ecpu & _).
    assert (Hlate : ∀ t w, in_list (wake_all (tasks k) (due now dl) C) DelayList (SchedNode t, SchedItem t w) → now < w).
    { intros t w Hin. by eapply due_rest. }
    eexists. split; [done|]. split; [exact Hk1|]. split; [exact Ets|]. split; [by cbn; rewrite Etm|].
    split; [|split; [exact Hlate|split_and!; [done..|by intros [? ?]; apply Hidle]]].
    intros t w Hin. cbn. pose proof Hin as (xs & HC' & Hin'). change (tasks k0) with (tasks k) in HC1.
    rewrite HC1 in HC'. injection HC' as <-. pose proof (delay_sorted _ _ _ _ Hk1 HC1) as Hs.
    destruct dl' as [|e dl']; [by inversion Hin'|].
    destruct (delay_head _ _ _ _ _ Hk1 HC1) as (t0 & w0 & b0 & -> & _).
    apply elem_of_cons in Hin' as [[= _ _ ->]|Hin']; [done|].
    apply Sorted_StronglySorted in Hs; [|intros ???; lia]. inversion Hs as [|? ? _ Hf]; subst.
    rewrite Forall_forall in Hf. apply Hf. apply list_elem_of_fmap. exists (SchedItem t w). split; [done|].
    apply list_elem_of_fmap. by exists (SchedNode t, SchedItem t w).
  - rewrite (due_none k C now dl Hk HC Hu Hlt). cbn. exists k0. split_and!; try done.
    intros t w Hin. specialize (Hu t w Hin). lia.
Qed.

(** C10: The tick handler advances the clock by one tick and wakes exactly the
    tasks at the front of the delay list whose time has come, in their order;
    afterwards nobody in the delay list is overdue, the next unblock time is not
    late, and the interrupt state is as before. The loop ends. *)
Theorem process_tick_correct k C dl :
  kinv k C None → C !! DelayList = Some dl → unblock_ok k C → 0 ≤ tick_counter (tm k) →
  tick_counter (tm k) + 1 < 2 ^ time_bits →
  0 ≤ nesting_cnt (kcpu k) < usize_mod - 1 → interrupts (kcpu k) = (nesting_cnt (kcpu k) =? 0) →
  let now := tick_counter (tm k) + 1 in
  let C' := wake_all (tasks k) (due now dl) C in
  ∃ k', exec (process_tick time_bits false) k = Done tt k' ∧ kinv k' C' None ∧
    tasks k' = ready_all (due now dl) (tasks k) ∧ tick_counter (tm k') = now ∧ unblock_ok k' C' ∧
    (∀ t w, in_list C' DelayList (SchedNode t, SchedItem t w) → now < w) ∧
    current_task k' = current_task k ∧ kcpu k' = kcpu k ∧ (log_idle k → log_idle k').
Proof.
  intros Hk HC Hu Ht0 Ht Hn Hint now C'.
  set (k0 := lset {| interrupts := false; nesting_cnt := nesting_cnt (kcpu k) + 1 |} k).
  destruct (process_tick_body_correct k0 C dl Hk HC Hu Ht0 Ht) as (k1 & Hex & Hk1 & Ets & Etick & Hu1 & Hlate & Ec & Ecpu & Hl).
  exists (lset (kcpu k) k1). split_and!; try done.
  pose proof (exec_bind_done _ (λ _, when false task_switch) _ _ _ Hex) as Hex'.
  pose proof (exec_with_no_interrupt _ k k1 tt (nesting_cnt (kcpu k)) eq_refl Hn Hex' Ecpu) as E.
  unfold process_tick. rewrite E. cbn. do 2 f_equal. destruct (kcpu k). cbn in *. by subst.
Qed.
End tick.

Module example.
#[local] Existing Instances cortex_m qemu default_features.

Lemma demo_unblock : unblock_ok demo demo_contents.
Proof. intros t w (xs & [= <-] & Hin). apply list_elem_of_singleton in Hin. injection Hin; intros; subst; by vm_compute. Qed.

(** At tick 5 task 2 is woken. *)
Lemma process_tick_correct_witness :
  ∃ k', exec (process_tick 32 false) demo = Done tt k' ∧ kinv k' (wake_all (tasks demo) [(2%nat, 5)] demo_contents) None.
Proof.
  destruct (process_tick_correct 32 demo demo_contents _ demo_kinv eq_refl demo_unblock ltac:(by vm_compute) ltac:(by vm_compute)
    ltac:(by vm_compute) eq_refl) as (k' & Hex & Hk & _).
  exists k'. split; [exact Hex|exact Hk].
Defined.
End example.
