(* ===== verification/SchedSwitch.v ===== *)
(** * Choosing the next task

    [task_switch] takes the next task of the first ready list that is not empty:
    the highest priority, round robin among equals. *)

From Stdlib Require Import Sorting.Sorted.
From S2P Require Import Prelude Arch Pmem TxCache Transaction Replay UserTx Util PList PListUpd PListSeg PListSorted PListLinear.
From S2P Require Import ListRepr Kernel ListTx Sched SchedInv SchedDemo SchedSpec SchedVal SchedOps.

(** The entry behind the head of a ready list is the next to run. *)
Definition next_entry (x : nid * item) (xs : list (nid * item)) : nid * item := default x (hd_error xs).

(** Priority [p] is the highest with a task. *)
Definition top_priority (C : contents) (p : nat) : Prop :=
  (p < 8)%nat ∧ (∃ x xs, C !! ReadyList p = Some (x :: xs)) ∧ ∀ q, (q < p)%nat → C !! ReadyList q = Some [].

(** Nobody else than the current task runs; if it may go on it is the head of
    its ready list. *)
Definition current_ok (k : kernel) (C : contents) : Prop :=
  (∀ t b, tasks k !! t = Some b → status b = Running → current_task k = Some t) ∧
  ∀ t b, current_task k = Some t → tasks k !! t = Some b → is_schedulable b = true →
    ∃ w xs, C !! ReadyList (priority b) = Some ((SchedNode t, SchedItem t w) :: xs).

(** The states after a switch from [prev] to [t]. *)
Definition switch_states (t prev : nat) (ts : gmap nat tcb) : gmap nat tcb :=
  let ts := set_state Running t ts in
  match ts !! prev with
  | Some b => if decide (status b = Blocked) then ts else set_state Ready prev ts
  | None => ts
  end.

Section switch.
Context `{Arch, Board, TxFeatures}.
Implicit Types (k : kernel) (C : contents).

Lemma sinv_rotate s s' ts C p x xs :
  sinv s ts C None → C !! ReadyList p = Some (x :: xs) → repr is_ready_list s' (<[ReadyList p := xs ++ [x]]> C) →
  nodes s' = nodes s → sinv s' ts (<[ReadyList p := xs ++ [x]]> C) None.
Proof.
  intros [Hr He Hrd Hd Hs Hev] HC Hr' Hn.
  assert (Hin : ∀ l e, in_list C l e → in_list (<[ReadyList p := xs ++ [x]]> C) l e).
  { intros l e (ys & HC' & Hin). destruct (decide (l = ReadyList p)) as [->|Hne].
    - rewrite HC in HC'. injection HC' as <-. apply in_list_insert_eq. set_solver.
    - apply in_list_insert_ne; [done|]. by exists ys. }
  assert (Hfree : ∀ n v, free s n v → free s' n v).
  { intros n v (m & E & ?). exists m. by rewrite Hn. }
  split; [done|..].
  - intros l' ys e [[<- <-]|[? HC']]%lookup_insert_Some Hys; [|by eapply He]. eapply He; [exact HC|]. set_solver.
  - intros q Hq. apply lookup_insert_is_Some'. right. eauto.
  - destruct Hd as (dl & Hdl & Ha). exists dl. by rewrite lookup_insert_ne.
  - intros t b Hb. destruct (Hs t b Hb) as [? [[? _]|[? Hcase]]]; [done|]. split; [done|]. right. split; [done|].
    destruct Hcase as [[? (w & ?)]|[? (w & ?)]]; [left|right]; (split; [done|]); exists w; auto.
  - intros t b Hb. destruct (Hev t b Hb) as [[o ?]|(wl & o & ?)]; [left; eauto|right]. exists wl, o. auto.
Qed.

Lemma exec_next p k C x xs :
  kinv k C None → C !! ReadyList p = Some (x :: xs) →
  ∃ s', exec (on_lists (plist_next (ReadyList p))) k = Done (Some (next_entry x xs).2) (with_ls s' k) ∧
    kinv (with_ls s' k) (<[ReadyList p := xs ++ [x]]> C) None.
Proof.
  intros Hk HC. pose proof (k_repr _ _ _ _ Hk) as Hr.
  destruct (repr_next is_ready_list _ _ (ReadyList p) _ _ Hr eq_refl HC) as (s' & Hex & Hr' & Hn & _).
  exists s'. split; [by apply exec_on_lists|]. by eapply sinv_rotate.
Qed.

(** A task of the current generation needs no recovery. *)
Lemma exec_jit_skip k t b :
  tasks k !! t = Some b → generation (utask b) = current_generation (boot k) →
  exec (on_task t (jit_recovery (current_generation (boot k)))) k = Done tt k.
Proof.
  intros Hb Hg. unfold on_task. rewrite (exec_bind_done _ _ _ _ _ (exec_deref_task _ _ _ Hb)).
  unfold jit_recovery, is_crashed. cbn. rewrite Hb. cbn. by rewrite Hg, Z.eqb_refl.
Qed.

Lemma exec_peek_list p k C xs :
  kinv k C None → C !! ReadyList p = Some xs →
  exec (on_lists (peek_next (ReadyList p))) k =
    Done (match xs with [] => None | x :: xs => Some (next_entry x xs).2 end) k.
Proof.
  intros Hk HC. pose proof (k_repr _ _ _ _ Hk) as Hr. destruct k as [s]. destruct xs as [|x xs].
  - exact (exec_on_lists _ _ _ _ (exec_peek_next_nil is_ready_list _ _ (ReadyList p) Hr eq_refl HC)).
  - exact (exec_on_lists _ _ _ _ (exec_peek_next is_ready_list _ _ (ReadyList p) x xs Hr eq_refl HC)).
Qed.

Lemma switch_loop_skip prev pre rest k C :
  kinv k C None → (∀ q, q ∈ pre → C !! ReadyList q = Some []) →
  exec (switch_loop prev (pre ++ rest)) k = exec (switch_loop prev rest) k.
Proof.
  intros Hk. induction pre as [|q pre IH]; intros Hq; [done|]. cbn.
  rewrite (exec_bind_done _ _ _ _ _ (exec_peek_list q k C [] Hk (Hq q ltac:(constructor)))). apply IH. set_solver.
Qed.

Lemma set_state_lookup st t ts t' :
  set_state st t ts !! t' = if decide (t = t') then (λ b, Build_tcb (priority b) st (utask b)) <$> ts !! t' else ts !! t'.
Proof.
  unfold set_state. case_decide as E; [subst; by rewrite lookup_alter_eq|by rewrite lookup_alter_ne].
Qed.

(** Changing between the two schedulable states. *)
Lemma set_state_sched st t ts :
  (st = Ready ∨ st = Running) → (∀ b, ts !! t = Some b → is_schedulable b = true) → same_sched ts (set_state st t ts).
Proof.
  intros Hst Hs t'. rewrite set_state_lookup. case_decide as E; [subst t'|done].
  destruct (ts !! t) as [b|]; [|done]. cbn. specialize (Hs b eq_refl). unfold is_schedulable in *.
  destruct Hst as [-> | ->]; destruct (status b); done.
Qed.

(** [atomic_roll_foward_context_switch] *)
Lemma context_switch_correct k C t prev p x xs b bp :
  kinv k C None → C !! ReadyList p = Some (x :: xs) → tasks k !! t = Some b → tasks k !! prev = Some bp →
  is_schedulable b = true → t ≠ prev → (status bp = Blocked ∨ is_schedulable bp = true) →
  ∃ k', exec (atomic_roll_foward_context_switch t prev (ReadyList p)) k = Done tt k' ∧
    kinv k' (<[ReadyList p := xs ++ [x]]> C) None ∧ tasks k' = switch_states t prev (tasks k) ∧
    current_task k' = Some t ∧ tm k' = tm k ∧ kcpu k' = kcpu k ∧ kmem k' = kmem k ∧
    boot k' = boot k ∧ op (klog k') = op (klog k) ∧ micro (ls k') = 0.
Proof.
  intros Hk HC Hb Hbp Hsch Hne Hprev.
  set (k1 := with_ls (apply (UMicro false (encode_micro ReadyListNext 0)) (ls k)) (with_klog (set_tp (Some prev)) k)).
  assert (Hex1 : exec (set_micro_op_old_len false ReadyListNext 0) (with_klog (set_tp (Some prev)) k) = Done tt k1) by done.
  assert (Hk1 : kinv k1 C None) by by apply sinv_micro.
  set (k2 := status_upd t Running k1).
  assert (Hk2 : kinv k2 C None).
  { eapply sinv_sched, Hk1. apply (set_state_sched Running t (tasks k)); [by right|]. intros b' Hb'. congruence. }
  assert (Hbp2 : tasks k2 !! prev = Some bp).
  { change (tasks k2) with (set_state Running t (tasks k)). by rewrite set_state_lookup, decide_False. }
  set (k3 := if decide (status bp = Blocked) then k2 else status_upd prev Ready k2).
  assert (Hex3 : exec (when (bool_decide (status bp ≠ Blocked)) (set_status prev Ready)) k2 = Done tt k3).
  { unfold k3. case_decide; [rewrite bool_decide_eq_false_2 by naive_solver; done|].
    rewrite bool_decide_eq_true_2 by done. by apply (exec_set_status _ _ _ bp). }
  assert (Hk3 : kinv k3 C None).
  { unfold k3. case_decide; [done|]. eapply sinv_sched, Hk2.
    apply (set_state_sched Ready prev (tasks k2)); [by left|]. intros b' Hb'. naive_solver. }
  assert (Hts3 : tasks k3 = switch_states t prev (tasks k)).
  { unfold k3, switch_states. change (set_state Running t (tasks k)) with (tasks k2). rewrite Hbp2. by case_decide. }
  assert (Hrest3 : tm k3 = tm k ∧ kcpu k3 = kcpu k ∧ kmem k3 = kmem k ∧ boot k3 = boot k ∧ op (klog k3) = op (klog k))
    by (unfold k3; by case_decide).
  destruct (exec_next p k3 C x xs Hk3 HC) as (s4 & Hex4 & Hk4).
  exists (with_ls (apply (UMicro false 0) s4) (with_current (Some t) (with_ls s4 k3))). split_and!.
  - unfold atomic_roll_foward_context_switch.
    rewrite (exec_bind_done _ _ _ tt (with_klog (set_tp (Some prev)) k)) by done. run Hex1.
    run (exec_set_status t Running k1 b Hb). fold k2.
    rewrite (exec_bind_done _ _ _ (status bp) k2).
    2:{ unfold get_status. by run (exec_deref_task _ _ _ Hbp2). }
    run Hex3. run Hex4. done.
  - by apply (sinv_micro false 0 s4).
  - done.
  - done.
  - apply Hrest3.
  - apply Hrest3.
  - apply Hrest3.
  - apply Hrest3.
  - apply Hrest3.
  - done.
Qed.

(** Who runs after a switch. *)
Lemma switch_states_lookup t prev ts t' b' :
  switch_states t prev ts !! t' = Some b' → t ≠ prev →
  ∃ b, ts !! t' = Some b ∧ priority b' = priority b ∧ utask b' = utask b ∧
    status b' = (if decide (t' = t) then Running else
                 if decide (t' = prev) then (if decide (status b = Blocked) then Blocked else Ready) else status b).
Proof.
  intros Hl Hne. unfold switch_states in Hl. rewrite set_state_lookup, decide_False in Hl by done.
  assert (Hcase : set_state Running t ts !! t' = Some b' ∧ (t' = prev → status b' = Blocked) ∨
    set_state Ready prev (set_state Running t ts) !! t' = Some b' ∧ ∀ b, ts !! prev = Some b → status b ≠ Blocked).
  { destruct (ts !! prev) as [bp|] eqn:Ep.
    - case_decide; [left|right; split; [done|naive_solver]]. split; [done|]. intros ->.
      rewrite set_state_lookup, decide_False, Ep in Hl by done. by injection Hl as <-.
    - left. split; [done|]. intros ->. rewrite set_state_lookup, decide_False, Ep in Hl by done. done. }
  destruct Hcase as [[E Hb]|[E Hb]]; rewrite !set_state_lookup in E.
  - destruct (decide (t' = t)) as [->|?].
    + rewrite decide_True in E by done. destruct (ts !! t) as [b|]; [|done]. injection E as <-. by exists b.
    + rewrite decide_False in E by done. exists b'. case_decide; [|done]. rewrite decide_True by auto. auto.
  - destruct (decide (prev = t')) as [<-|?].
    + rewrite decide_False in E by done. destruct (ts !! prev) as [b|]; [|done]. injection E as <-. exists b.
      rewrite decide_False, decide_True, decide_False by naive_solver. done.
    + destruct (decide (t' = t)) as [->|?].
      * rewrite decide_True in E by done. destruct (ts !! t) as [b|]; [|done]. injection E as <-. by exists b.
      * rewrite decide_False in E by done. exists b'. by rewrite decide_False.
Qed.

Lemma queued_top k C p t b x xs :
  kinv k C None → top_priority C p → C !! ReadyList p = Some (x :: xs) →
  tasks k !! t = Some b → is_schedulable b = true → (p ≤ priority b)%nat.
Proof.
  intros Hk (_ & _ & Hlow) HC Hb Hsch.
  destruct (k_sched _ _ _ _ Hk t b Hb) as [_ [[? _]|[_ [[Hst _]|[_ (w & ys & HC' & Hin)]]]]]; [done| |].
  - unfold is_schedulable in Hsch. by rewrite Hst in Hsch.
  - destruct (decide (priority b < p)%nat) as [Hlt|?]; [|lia]. rewrite (Hlow _ Hlt) in HC'.
    injection HC' as <-. by inversion Hin.
Qed.

Lemma next_entry_elem x xs : next_entry x xs ∈ x :: xs.
Proof. unfold next_entry. destruct xs; cbn; set_solver. Qed.

(** The entries of a ready list are schedulable tasks of its priority. *)
Lemma ready_entry k C p xs e :
  kinv k C None → C !! ReadyList p = Some xs → e ∈ xs →
  ∃ t w b, e = (SchedNode t, SchedItem t w) ∧ tasks k !! t = Some b ∧ priority b = p ∧ is_schedulable b = true.
Proof.
  intros Hk HC Hin. destruct (k_entries _ _ _ _ Hk _ _ _ HC Hin) as (t & w & b & -> & Hb & Hp).
  exists t, w, b. split_and!; try done.
  destruct (k_sched _ _ _ _ Hk t b Hb) as [_ [[? _]|[_ [[_ (w' & ys & HC' & Hin')]|[? _]]]]]; [done| |done].
  by destruct (repr_unique _ _ _ _ _ _ _ _ _ (k_repr _ _ _ _ Hk) HC HC' Hin Hin').
Qed.

Lemma seq_split p : (p < 8)%nat → seq 0 NUM_PRIORITY_LEVELS = seq 0 p ++ p :: seq (S p) (7 - p).
Proof. intros Hp. do 8 (destruct p as [|p]; [reflexivity|]). lia. Qed.

(** What a switch does, whoever is current: nothing if the next task is the
    current one (which the debug build checks to be the only one), and otherwise
    a context switch. *)
Lemma task_switch_cases k C prev bp p x xs :
  kinv k C None → current_task k = Some prev → tasks k !! prev = Some bp →
  (∀ t b, tasks k !! t = Some b → generation (utask b) = current_generation (boot k)) →
  top_priority C p → C !! ReadyList p = Some (x :: xs) →
  ∃ t w b, next_entry x xs = (SchedNode t, SchedItem t w) ∧ tasks k !! t = Some b ∧ priority b = p ∧ is_schedulable b = true ∧
    if decide (t = prev)
    then exec task_switch k = if negb debug_assertions || bool_decide (xs = []) then Done tt k else Failed Panic
    else ∃ k', exec task_switch k = Done tt k' ∧ kinv k' (<[ReadyList p := xs ++ [x]]> C) None ∧
      tasks k' = switch_states t prev (tasks k) ∧ current_task k' = Some t ∧ tm k' = tm k ∧ kcpu k' = kcpu k ∧ boot k' = boot k.
Proof.
  intros Hk Hc Hbp Hgen Htop HC. pose proof Htop as (Hp & _ & Hlow).
  destruct (ready_entry k C p (x :: xs) (next_entry x xs) Hk HC (next_entry_elem x xs)) as (t & w & b & Ee & Hb & Hpb & Hsch).
  exists t, w, b. do 4 (split; [done|]).
  assert (Hstart : exec task_switch k = exec (let* ok := switch_loop prev (p :: seq (S p) (7 - p)) in assert_ ok) k).
  { unfold task_switch. rewrite (exec_bind_done _ _ _ k k) by done. rewrite (exec_bind_done _ _ _ prev k) by by rewrite Hc.
    rewrite !exec_bind, (seq_split p Hp), (switch_loop_skip prev (seq 0 p) _ k C Hk); [done|].
    intros q Hq%elem_of_seq. apply Hlow. lia. }
  assert (Hloop : exec task_switch k = exec (if decide (t = prev) then
             let* l := on_lists (deref_list (ReadyList p)) in assert_ (negb debug_assertions || (len l =? 1))
           else let* b := deref_task t in assert_ (negb debug_assertions || is_schedulable b);;;
             atomic_roll_foward_context_switch t prev (ReadyList p)) k).
  { rewrite Hstart. cbn [switch_loop]. rewrite !exec_bind, (exec_peek_list p k C _ Hk HC), Ee. cbn [snd unwrap_unchecked item_task].
    rewrite exec_bind. cbn [exec unwrap_unchecked item_task]. rewrite exec_bind. cbn [exec get].
    rewrite exec_bind, (exec_jit_skip k t b Hb (Hgen _ _ Hb)), exec_bind.
    by match goal with |- context[exec ?q k] => destruct (exec q k) as [[]|] end. }
  rewrite Hloop. clear Hstart Hloop. destruct (decide (t = prev)) as [->|Hne].
  - destruct (proj1 (k_repr _ _ _ _ Hk) _ _ HC) as ((h & Hl & _) & _). cbn in Hl.
    assert (E : bool_decide (xs = []) = (Z.of_nat (S (length xs)) =? 1)).
    { destruct xs; [done|]. rewrite bool_decide_eq_false_2 by done. symmetry. apply Z.eqb_neq. cbn. lia. }
    rewrite E. unfold on_lists, deref_list. cbn. rewrite Hl. cbn [zoom unwrap_unchecked bind len].
    by destruct (negb debug_assertions || _).
  - assert (Hprev : status bp = Blocked ∨ is_schedulable bp = true).
    { destruct (k_sched _ _ _ _ Hk prev bp Hbp) as [_ [[? _]|[_ [[? _]|[? _]]]]]; [done|by left|by right]. }
    destruct (context_switch_correct k C t prev p x xs b bp Hk HC Hb Hbp Hsch Hne Hprev)
      as (k' & Hex & Hk' & Hts & Hc' & Etm & Ecpu & _ & Eboot & _).
    exists k'. split; [|by split_and!]. run (exec_deref_task _ _ _ Hb). by rewrite Hsch, orb_true_r.
Qed.

Lemma task_switch_spec k C prev bp p x xs :
  kinv k C None → current_ok k C → current_task k = Some prev → tasks k !! prev = Some bp →
  (∀ t b, tasks k !! t = Some b → generation (utask b) = current_generation (boot k)) →
  top_priority C p → C !! ReadyList p = Some (x :: xs) →
  ∃ t b k' C', exec task_switch k = Done tt k' ∧ (next_entry x xs).1 = SchedNode t ∧ tasks k !! t = Some b ∧
    priority b = p ∧ (∀ t' b', tasks k !! t' = Some b' → is_schedulable b' = true → (p ≤ priority b')%nat) ∧
    C' = (if decide (t = prev) then C else <[ReadyList p := xs ++ [x]]> C) ∧
    current_task k' = Some t ∧ kinv k' C' None ∧ current_ok k' C' ∧ boot k' = boot k ∧
    (∀ t' b', tasks k' !! t' = Some b' → ∃ b0, tasks k !! t' = Some b0 ∧ utask b' = utask b0) ∧
    (t = prev → xs = []) ∧ is_Some (tasks k' !! t).
Proof.
  intros Hk Hok Hc Hbp Hgen Htop HC.
  destruct (task_switch_cases k C prev bp p x xs Hk Hc Hbp Hgen Htop HC) as (t & w & b & Ee & Hb & Hpb & Hsch & Hcase).
  assert (Hmin : ∀ t' b', tasks k !! t' = Some b' → is_schedulable b' = true → (p ≤ priority b')%nat)
    by (intros; by eapply queued_top).
  exists t, b. destruct (decide (t = prev)) as [->|Hne].
  - (* the current task is the only one *)
    destruct Hok as [Hrun Hhead].
    destruct (Hhead prev b Hc Hb Hsch) as (w' & ys & HC'). rewrite Hpb, HC in HC'. injection HC' as -> <-.
    assert (xs = []) as ->.
    { pose proof (repr_NoDup _ _ _ _ (k_repr _ _ _ _ Hk) HC) as Hnd. destruct xs as [|y ys]; [done|].
      cbn in Ee. subst y. cbn in Hnd. apply NoDup_cons in Hnd as [Hn _]. exfalso. apply Hn. cbn. constructor. }
    rewrite orb_true_r in Hcase. exists k, C. rewrite Ee. split_and!; try done; by eauto.
  - (* another one takes over *)
    destruct Hcase as (k' & Hex & Hk' & Hts & Hc' & _ & _ & Eboot).
    exists k', (<[ReadyList p := xs ++ [x]]> C). rewrite Ee. do 8 (split; [done|]). split; [split|split; [done|split; [|split; [done|]]]].
    + intros t' b' Hb' Hst. rewrite Hts in Hb'. apply switch_states_lookup in Hb' as (b0 & Hb0 & _ & _ & E); [|done].
      rewrite Hst in E. repeat case_decide; try done; [congruence|]. destruct Hok as [Hrun _].
      specialize (Hrun t' b0 Hb0 (eq_sym E)). congruence.
    + intros t' b' Ht' Hb' Hsch'. rewrite Hc' in Ht'. injection Ht' as <-. rewrite Hts in Hb'.
      apply switch_states_lookup in Hb' as (b0 & Hb0 & E & _); [|done]. rewrite Hb in Hb0. injection Hb0 as <-.
      rewrite E, Hpb, lookup_insert_eq. exists w. unfold next_entry in Ee.
      destruct xs as [|y ys]; cbn in Ee; subst; cbn; [by exists []|by eexists].
    + intros t' b' Hb'. rewrite Hts in Hb'. apply switch_states_lookup in Hb' as (b0 & Hb0 & _ & Eu & _); eauto.
    + rewrite Hts. unfold switch_states. destruct (set_state Running t (tasks k) !! prev) as [bp'|] eqn:Ebp;
        [case_decide|]; rewrite ?set_state_lookup, ?decide_False, ?set_state_lookup, ?decide_True, ?Hb by done; eauto.
Qed.

(** C11: [task_switch] makes a task of the highest priority with a schedulable
    task current, the one behind the head of its ready list, so that tasks of
    equal priority take turns as long as the current task is at the head of its list
    ([current_ok]); nobody else is left running, and the lists and
    states stay consistent. It never fails. *)
Theorem task_switch_correct k C prev bp p x xs :
  kinv k C None → current_ok k C → current_task k = Some prev → tasks k !! prev = Some bp →
  (∀ t b, tasks k !! t = Some b → generation (utask b) = current_generation (boot k)) →
  top_priority C p → C !! ReadyList p = Some (x :: xs) →
  ∃ t b k' C', exec task_switch k = Done tt k' ∧ (next_entry x xs).1 = SchedNode t ∧ tasks k !! t = Some b ∧
    priority b = p ∧ (∀ t' b', tasks k !! t' = Some b' → is_schedulable b' = true → (p ≤ priority b')%nat) ∧
    C' = (if decide (t = prev) then C else <[ReadyList p := xs ++ [x]]> C) ∧
    current_task k' = Some t ∧ kinv k' C' None ∧ current_ok k' C'.
Proof.
  intros Hk Hok Hc Hbp Hgen Htop HC.
  destruct (task_switch_spec k C prev bp p x xs Hk Hok Hc Hbp Hgen Htop HC) as (t & b & k' & C' & ? & ? & ? & ? & ? & ? & ? & ? & ? & _).
  by exists t, b, k', C'.
Qed.

(** *** Taking turns *)

(** The scheduler may switch: [prev] is current and [p] the highest priority with
    a schedulable task. *)
Record may_switch k C (prev p : nat) : Prop := {
  ms_kinv : kinv k C None;
  ms_current : current_ok k C;
  ms_prev : current_task k = Some prev;
  ms_task : is_Some (tasks k !! prev);
  ms_generation : ∀ t b, tasks k !! t = Some b → generation (utask b) = current_generation (boot k);
  ms_top : top_priority C p;
}.

Fixpoint switches (n : nat) : prog kernel unit :=
  match n with O => skip | S n => task_switch;;; switches n end.

Lemma switch_step k C prev p x xs :
  may_switch k C prev p → C !! ReadyList p = Some (x :: xs) →
  ∃ t k', exec task_switch k = Done tt k' ∧ (next_entry x xs).1 = SchedNode t ∧ may_switch k' (<[ReadyList p := xs ++ [x]]> C) t p.
Proof.
  intros [Hk Hok Hc [bp Hbp] Hgen Htop] HC.
  destruct (task_switch_spec k C prev bp p x xs Hk Hok Hc Hbp Hgen Htop HC)
    as (t & b & k' & C' & Hex & Ht & Hb & Hpb & _ & EC & Hc' & Hk' & Hok' & Eboot & Hu & Heq & Ht').
  assert (C' = <[ReadyList p := xs ++ [x]]> C) as ->.
  { rewrite EC. case_decide as E; [|done]. specialize (Heq E). subst xs. by rewrite insert_id. }
  exists t, k'. split; [done|]. split; [done|]. split; try done.
  - intros t' b' Hb'. destruct (Hu t' b' Hb') as (b0 & Hb0 & ->). rewrite Eboot. by eapply Hgen.
  - destruct Htop as (Hp & _ & Hlow). split; [done|]. split.
    + rewrite lookup_insert_eq. destruct xs; cbn; eauto.
    + intros q Hq. rewrite lookup_insert_ne by (intros [=]; lia). by apply Hlow.
Qed.

Lemma switches_rotate l : ∀ r k C prev p,
  may_switch k C prev p → C !! ReadyList p = Some (l ++ r) → l ≠ [] →
  ∃ t k', exec (switches (length l)) k = Done tt k' ∧ fst <$> hd_error (r ++ l) = Some (SchedNode t) ∧
    may_switch k' (<[ReadyList p := r ++ l]> C) t p.
Proof.
  induction l as [|x l IH]; intros r k C prev p Hm HC Hne; [done|].
  destruct (switch_step k C prev p x (l ++ r) Hm HC) as (t & k1 & Hex1 & Ht & Hm1).
  rewrite <-(assoc_L (++)) in Hm1. destruct l as [|y l].
  - exists t, k1. cbn [length switches]. split; [by rewrite (exec_bind_done _ _ _ _ _ Hex1)|]. split; [|done].
    unfold next_entry in Ht. cbn in Ht. by destruct r as [|z r]; cbn in *; rewrite Ht.
  - destruct (IH (r ++ [x]) k1 _ t p Hm1 (lookup_insert_eq _ _ _)) as (t2 & k2 & Hex2 & Ht2 & Hm2); [done|].
    rewrite insert_insert_eq, <-(assoc_L (++)) in Hm2. rewrite <-(assoc_L (++)) in Ht2. exists t2, k2. split; [|done].
    cbn [length switches]. by rewrite (exec_bind_done _ _ _ _ _ Hex1).
Qed.

(** C12: As long as nobody blocks or is woken no ready task of the highest priority
    starves, if the current task is at the head of its ready list to begin with
    ([may_switch]): each becomes current within as many switches as there are such
    tasks. ([System] has an execution in which the condition does not hold.) *)
Theorem task_switch_no_starvation k C prev p xs t w :
  may_switch k C prev p → C !! ReadyList p = Some xs → (SchedNode t, SchedItem t w) ∈ xs →
  ∃ n k' C', (0 < n ≤ length xs)%nat ∧ exec (switches n) k = Done tt k' ∧ current_task k' = Some t ∧ may_switch k' C' t p.
Proof.
  intros Hm HC (l & r & ->)%list_elem_of_split.
  assert (Hrot : ∀ l' r', l ++ (SchedNode t, SchedItem t w) :: r = l' ++ r' → l' ≠ [] → fst <$> hd_error (r' ++ l') = Some (SchedNode t) →
    ∃ k' C', exec (switches (length l')) k = Done tt k' ∧ current_task k' = Some t ∧ may_switch k' C' t p).
  { intros l' r' E Hne Hhd. rewrite E in HC. destruct (switches_rotate l' r' k C prev p Hm HC Hne) as (t' & k' & Hex & Ht & Hm').
    rewrite Hhd in Ht. injection Ht as <-. exists k', (<[ReadyList p := r' ++ l']> C). split_and!; [done|apply Hm'|done]. }
  rewrite length_app. cbn [length]. destruct l as [|y l].
  - destruct (Hrot ((SchedNode t, SchedItem t w) :: r) []) as (k' & C' & ?); [by rewrite app_nil_r|done|done|].
    exists (S (length r)), k', C'. split; [cbn; lia|done].
  - destruct (Hrot (y :: l) ((SchedNode t, SchedItem t w) :: r)) as (k' & C' & ?); [done..|].
    exists (S (length l)), k', C'. split; [cbn; lia|done].
Qed.
End switch.

Module example.
#[local] Existing Instances cortex_m qemu default_features.

Lemma demo_current_ok : current_ok demo demo_contents.
Proof.
  split.
  - intros t b Hb Hst. cbn in Hb. unfold demo_tasks in Hb.
    apply lookup_insert_Some in Hb as [[<- <-]|[_ [[<- <-]|[_ [[<- <-]|[_ [=]]]%lookup_insert_Some]]%lookup_insert_Some]]; done.
  - intros t b [= <-] Hb _. cbn in Hb. injection Hb as <-. by exists 0; eexists.
Qed.
Lemma demo_top : top_priority demo_contents 1.
Proof.
  split; [lia|]. split; [by do 2 eexists|]. intros q Hq. assert (q = 0)%nat as -> by lia. done.
Qed.
Lemma demo_generation t b : tasks demo !! t = Some b → generation (utask b) = current_generation (boot demo).
Proof.
  intros Hb. cbn in Hb. unfold demo_tasks in Hb.
  apply lookup_insert_Some in Hb as [[<- <-]|[_ [[<- <-]|[_ [[<- <-]|[_ [=]]]%lookup_insert_Some]]%lookup_insert_Some]]; done.
Qed.

(** Task 1 takes over from task 0. *)
Lemma task_switch_correct_witness :
  ∃ k', exec task_switch demo = Done tt k' ∧ current_task k' = Some 1%nat.
Proof.
  destruct (task_switch_correct demo demo_contents 0 (demo_task 1 Running) 1 _ _ demo_kinv demo_current_ok eq_refl eq_refl
    demo_generation demo_top eq_refl) as (t & b & k' & C' & Hex & Ht & _ & _ & _ & _ & Hc & _).
  exists k'. split; [exact Hex|]. injection Ht as <-. exact Hc.
Defined.

(** Task 1 is current after one switch, task 0 again after two. *)
Lemma task_switch_no_starvation_witness :
  ∃ n k', (0 < n ≤ 2)%nat ∧ exec (switches n) demo = Done tt k' ∧ current_task k' = Some 0%nat.
Proof.
  destruct (task_switch_no_starvation demo demo_contents 0 1 _ 0 0
    (Build_may_switch demo demo_contents 0 1 demo_kinv demo_current_ok eq_refl (ltac:(by eexists)) demo_generation demo_top) eq_refl
    ltac:(constructor)) as (n & k' & C' & Hn & Hex & Hc & _).
  exists n, k'. split; [exact Hn|]. split; [exact Hex|exact Hc].
Defined.
End example.
