(* ===== verification/RollForward.v ===== *)
(** * Where the recovery of composite operations falls short

    Executions of the model: an operation on a concrete kernel, a power failure
    after some of its writes, and the recovery that [recover] runs first. *)

From S2P Require Import Prelude Arch Pmem TxCache Transaction Replay UserTx Util PList PListUpd PListSeg PListSorted PListLinear.
From S2P Require Import ListRepr Kernel ListTx Sched SchedInv SchedDemo.

(** The members of a list, as a walk along its [next] pointers finds them. *)
Fixpoint walk (fuel : nat) (s : lstore nid lid item) (stop p : option nid) : list nid :=
  match fuel, p with
  | S fuel, Some n =>
      match nodes s !! n with
      | Some m => n :: (if decide (next m = stop) then [] else walk fuel s stop (next m))
      | None => []
      end
  | _, _ => []
  end.
Definition members (k : kernel) (l : lid) : list nid :=
  let s := ls k in
  match lists s !! l with
  | Some pl =>
      if is_ready_list l then walk (size (nodes s)) s (cursor pl) (cursor pl) else walk (size (nodes s)) s None (head pl)
  | None => []
  end.

Definition state_of (k : kernel) (t : nat) : option TaskState := status <$> tasks k !! t.
Definition result_of (r : result kernel unit) (d : kernel) : kernel := match r with Done _ k => k | Failed _ => d end.
Definition is_failed {A} (e : failure) (r : result kernel A) : bool :=
  match r with Failed e' => match e, e' with Panic, Panic | Undefined, Undefined => true | _, _ => false end | Done _ _ => false end.

(** The kernel that a power failure after [n] writes of [p] leaves. *)
Definition failed_after (n : nat) (p : prog kernel unit) (k : kernel) : kernel := default k (crash_at n p k).

(** A task as [jit_recovery] leaves it: its transactions may be bypassed. *)
Definition recovering (t : nat) (k : kernel) : kernel :=
  with_tasks (alter (λ b, Build_tcb (priority b) (status b)
    (with_user_tx_info (with_user_tx (with_may_bypass true (user_tx (user_tx_info (utask b)))) (user_tx_info (utask b))) (utask b))) t) k.

Section examples.
#[local] Existing Instances cortex_m qemu default_features.

(** The kernel in which task 2 wakes up at time 100 instead. *)
Definition demo_late : kernel :=
  with_tm (λ m, Build_TimeManager (tick_counter m) 100 (next_expiry_time m))
    (result_of (exec (set_value (SchedNode 2) (SchedItem 2 100)) demo) demo).

(** Task 0 blocks, task 1 takes over and blocks, task 2 wakes up: the next switch
    is from a task whose ready list is empty. *)
Definition demo_preempt : kernel :=
  result_of (exec (atomic_roll_forward_insert_into_waitlist (WaitList 0) 0 50;;;
                   atomic_roll_foward_context_switch 1 0 (ReadyList 1);;;
                   atomic_roll_forward_insert_into_waitlist (WaitList 0) 1 50;;;
                   process_tick 32 false) demo) demo.
(** Task 2, of higher priority than the current task 0, has been woken. *)
Definition demo_woken : kernel := result_of (exec (process_tick 32 false) demo) demo.

Definition delay_until (t : nat) (w : Z) : prog kernel unit := set_wakeup_time t w;;; roll_forward_insert_into_delaylist.

(** A wake-up is lost when power fails after its code has been logged and
    before the first list operation has: recovery commits the operation, which
    has not happened, so that its replay is bypassed and the waiter stays in the
    wait list. *)
Theorem pop_remove_lost_wakeup :
  let p := roll_forward_pop_remove_from_waitlist (WaitList 0) in
  let c := failed_after 2 p demo in
  let c' := result_of (exec recover_list_transaction c) demo in
  is_failed Undefined (exec recover_list_transaction c) = false ∧
  op (klog c) = WaitListPopRemoval ∧ op (klog c') = TxInvalid ∧
  list_tx_done <$> (utask <$> tasks c' !! 0%nat) = Some true ∧
  members c' (WaitList 0) = [EventNode 2] ∧ state_of c' 2 = Some Blocked ∧
  (let c2 := result_of (exec p (recovering 0 c')) demo in
   members c2 (WaitList 0) = [EventNode 2] ∧ members c2 (ReadyList 0) = [] ∧ state_of c2 2 = Some Blocked).
Proof. vm_compute. repeat split. Qed.

(** So is a delay: the task that asked for it goes on at once. *)
Theorem delay_lost :
  let c := failed_after 2 (delay_until 0 9) demo in
  let c' := result_of (exec recover_list_transaction c) demo in
  op (klog c) = DelayListInsert ∧ op (klog c') = TxInvalid ∧
  list_tx_done <$> (utask <$> tasks c' !! 0%nat) = Some true ∧ state_of c' 0 = Some Running ∧
  (let c2 := result_of (exec (delay_until 0 9) (recovering 0 c')) demo in
   members c2 DelayList = [SchedNode 2] ∧ members c2 (ReadyList 1) = [SchedNode 0; SchedNode 1]).
Proof. vm_compute. repeat split. Qed.

(** [roll_forward_remove_from_delaylist] never logs the node, which its
    recovery takes from the log unchecked: power failing anywhere in it before
    it ends makes recovery undefined. *)
Theorem delay_removal_recovery_undefined :
  forallb (λ c, implb (bool_decide (op (klog c) = DelayListRemoval)) (is_failed Undefined (exec recover_list_transaction c)))
    (crash_states roll_forward_remove_from_delaylist demo) = true ∧
  length (filter (λ c, op (klog c) = DelayListRemoval) (crash_states roll_forward_remove_from_delaylist demo)) = 19%nat.
Proof. vm_compute. split; reflexivity. Qed.

(** Recovery of the last insertion into the delay list does not lower the
    next unblock time: the task wakes up at time 9 without the failure and is
    still asleep after tick 9 with it. *)
Theorem delay_recovery_late :
  let p := delay_until 0 9 in
  let ticks := process_tick 32 false;;; process_tick 32 false;;; process_tick 32 false;;; process_tick 32 false;;; process_tick 32 false in
  let ok := result_of (exec ticks (result_of (exec p demo_late) demo)) demo in
  let c := failed_after 17 p demo_late in
  let late := result_of (exec ticks (result_of (exec recover_list_transaction c) demo)) demo in
  tick_counter (tm ok) = 9 ∧ state_of ok 0 = Some Ready ∧
  tick_counter (tm late) = 9 ∧ state_of late 0 = Some Blocked ∧
  members late DelayList = [SchedNode 0; SchedNode 2] ∧ next_unblock_time (tm late) = 100.
Proof. vm_compute. repeat split. Qed.

(** The recovery of a context switch looks at the ready list of the task that
    gives up the processor, not at that of the next task: when their priorities
    differ it makes another task current and leaves two tasks running. *)
Theorem context_switch_recovery_wrong_task :
  let p := atomic_roll_foward_context_switch 2 0 (ReadyList 0) in
  let ok := result_of (exec p demo_woken) demo in
  let c := failed_after 3 p demo_woken in
  let c' := result_of (exec recover_list_transaction c) demo in
  current_task ok = Some 2%nat ∧
  current_task c' = Some 1%nat ∧ state_of c' 1 = Some Running ∧ state_of c' 2 = Some Running ∧
  members c' (ReadyList 0) = [SchedNode 2].
Proof. vm_compute. repeat split. Qed.

(** When that list is empty recovery panics, at every boot. *)
Theorem context_switch_recovery_panics :
  let p := atomic_roll_foward_context_switch 2 1 (ReadyList 0) in
  current_task demo_preempt = Some 1%nat ∧ members demo_preempt (ReadyList 0) = [SchedNode 2] ∧
  members demo_preempt (ReadyList 1) = [] ∧
  let c := failed_after 2 p demo_preempt in
  micro (ls c) ≠ 0 ∧ is_failed Panic (exec recover_list_transaction c) = true.
Proof. vm_compute. repeat split. all: discriminate. Qed.
End examples.
