(* ===== verification/Blocking.v ===== *)
(** * Blocking system calls

    The calls of queues, semaphores and event groups are loops: an attempt with
    interrupts off serves the call or puts the caller on a wait list; a caller
    that has been put on one yields, and tries again when it runs. *)

From S2P Require Import Prelude Arch Pmem TxCache Transaction Replay UserTx Util PList Kernel ListTx Sched.

(** A transaction of the current task. *)
Definition kernel_tx `{Arch} {A} (p : prog tx_state A) : prog kernel A :=
  let* t := current in on_task t (zoom (S := tx_state) p).
(** A step on the memory of the kernel's objects, outside of a transaction. *)
Definition kernel_pm `{Arch} {A} (p : prog pmem A) : prog kernel A := kernel_tx (zoom p).

Section blocking.
Context `{Arch} (time_bits : Z).

(** [update_countdown] *)
Definition update_countdown (expiry_time : Z) : prog kernel Z :=
  let* cur_time := get_ticks in
  Ret (if expiry_time <=? cur_time then 0 else expiry_time - cur_time).

(** Whether the loop goes on, after a yield, or ends with a result. *)
Inductive attempt (R : Type) := Exit (r : R) | Yield (wakeup_time : Z).
#[global] Arguments Exit {R} r.
#[global] Arguments Yield {R} wakeup_time.

(** The wake-up time is computed once. *)
Definition wakeup_at (wakeup : option Z) (wait_ticks : Z) : prog kernel Z :=
  match wakeup with
  | Some w => Ret w
  | None => let* now := get_ticks in unwrap (time_checked_add time_bits now wait_ticks)
  end.

(** Blocking on wait list [wl] after a failed attempt, unless it must not wait. *)
Definition block_or_exit {R} (t wl : nat) (wait_ticks : Z) (wakeup : option Z) (r : R) : prog kernel (attempt R) :=
  if wait_ticks =? 0 then Ret (Exit r) else
  let* w := wakeup_at wakeup wait_ticks in
  atomic_roll_forward_insert_into_waitlist (WaitList wl) t w;;;
  Ret (Yield w).

(** The loop around the attempts; [yield] gives up the processor until the task
    runs again. *)
Fixpoint retry {R} (fuel : nat) (yield : prog kernel unit) (a : Z → option Z → prog kernel (attempt R))
    (wait_ticks : Z) (wakeup : option Z) : prog kernel R :=
  match fuel with
  | O => Fail Undefined
  | S fuel =>
      let* r := a wait_ticks wakeup in
      match r with
      | Exit r => Ret r
      | Yield w =>
          yield;;;
          let* wait_ticks := update_countdown w in
          retry fuel yield a wait_ticks (Some w)
      end
  end.
End blocking.
