(* ===== verification/BlockingOps.v ===== *)
(** * Attempts in the kernel

    What an attempt does to the scheduler: the caller goes on, having woken the
    first waiter of the other side, or is blocked, or gets an error. *)

From Stdlib Require Import Sorting.Sorted.
From S2P Require Import Prelude Arch Pmem PmemSpec TxCache Transaction Replay UserTx Util PList PListUpd PListSeg PListSorted.
From S2P Require Import PListLinear ListRepr Kernel ListTx Sched SchedInv SchedDemo SchedSpec SchedVal SchedOps Blocking.

(** The transaction of task [t] that a system call runs. *)
Definition tx_of (k : kernel) (b : tcb) : tx_state := tx (task_with_mem (kmem k) (utask b)).
Definition tx_upd (t : nat) (d : tx_state) (k : kernel) : kernel :=
  with_kmem (bytes (tx_pm d)) (with_tasks (alter (λ b, Build_tcb (priority b) (status b)
    (task_with_mem [] (with_tx d (task_with_mem (kmem k) (utask b))))) t) k).

(** A running task that makes a system call. *)
Record in_syscall (k : kernel) (t : nat) (b : tcb) : Prop := {
  sc_current : current_task k = Some t;
  sc_task : tasks k !! t = Some b;
  sc_running : is_schedulable b = true;
  sc_list_tx : list_tx_done (utask b) = false;
  sc_copy : bytes (tx_pm (tx (utask b))) = [];
}.

Section blocking_ops.
Context `{Arch}.
Implicit Types (k : kernel) (C : contents).

(** A step of a task, whose record has no copy of the memory. *)
Lemma task_lens_same t d b u0 k :
  tasks k !! t = Some b → utask b = task_with_mem [] u0 → kmem k = bytes (tx_pm (tx u0)) →
  lset (Lens := task_lens t d) u0 k = k.
Proof.
  intros Hb Hu Hm. destruct k. cbn in *. unfold with_kmem, with_tasks. cbn. subst. f_equal. apply map_eq. intros t'.
  destruct (decide (t' = t)) as [->|?]; [rewrite lookup_alter_eq, Hb|by rewrite lookup_alter_ne]. cbn. f_equal.
  destruct b as [? ? u]. cbn in *. by subst.
Qed.
Lemma exec_zoom_task {A} (p : prog task A) t d k u0 b :
  tasks k !! t = Some b → utask b = task_with_mem [] u0 → kmem k = bytes (tx_pm (tx u0)) →
  exec (zoom (Lens0 := task_lens t d) p) k =
    match exec p u0 with Done a u => Done a (lset (Lens := task_lens t d) u k) | Failed e => Failed e end.
Proof.
  revert k u0 b. induction p as [a|g IH|f p IH|e]; intros k u0 b Hb Hu Hm; cbn [zoom exec].
  - by rewrite (task_lens_same t d b).
  - assert (lget (Lens := task_lens t d) k = u0) as ->; [|by eapply IH].
    cbn. rewrite Hb. cbn. rewrite Hu, Hm. destruct u0 as [? [[? ?]] ? ? ?]. done.
  - assert (lget (Lens := task_lens t d) k = u0) as ->.
    { cbn. rewrite Hb. cbn. rewrite Hu, Hm. destruct u0 as [? [[? ?]] ? ? ?]. done. }
    rewrite (IH (lset (Lens := task_lens t d) (f u0) k) (f u0) (Build_tcb (priority b) (status b) (task_with_mem [] (f u0)))); [|cbn; by rewrite lookup_alter_eq, Hb|done|done].
    destruct (exec p (f u0)); [|done]. f_equal. cbn. unfold with_kmem, with_tasks. cbn. f_equal.
    by rewrite alter_alter_eq.
  - done.
Qed.

Lemma exec_kernel_tx {A} (p : prog tx_state A) k t b r d :
  in_syscall k t b → exec p (tx_of k b) = Done r d → exec (kernel_tx p) k = Done r (tx_upd t d k).
Proof.
  intros [Hc Hb _ _ Hm] E. unfold kernel_tx. run (exec_current _ _ Hc). unfold on_task. run (exec_deref_task _ _ _ Hb).
  rewrite (exec_zoom_task _ t (utask b) k (task_with_mem (kmem k) (utask b)) b Hb); [|by destruct b as [? ? [? [[? ?]] ? ? ?]]; cbn in *; subst|done].
  rewrite (exec_zoom_done (Lens0 := sys_tx_lens) p (task_with_mem (kmem k) (utask b)) r d E). cbn. unfold tx_upd, with_tasks.
  do 3 f_equal. apply map_eq. intros t'. destruct (decide (t' = t)) as [->|?]; [by rewrite !lookup_alter_eq, Hb|by rewrite !lookup_alter_ne].
Qed.

Lemma tx_upd_status t d k : same_status (tasks k) (tasks (tx_upd t d k)).
Proof.
  intros t'. cbn. destruct (decide (t' = t)) as [->|?]; [rewrite lookup_alter_eq|by rewrite lookup_alter_ne].
  by destruct (tasks k !! t).
Qed.
Lemma kinv_tx_upd t d k C : kinv k C None → kinv (tx_upd t d k) C None.
Proof. intros Hk. eapply sinv_status; [apply (tx_upd_status t d k)|exact Hk]. Qed.
Lemma in_syscall_tx_upd t d k b : in_syscall k t b → ∃ b', in_syscall (tx_upd t d k) t b' ∧ status b' = status b.
Proof.
  intros [Hc Hb Hs Hd Hm]. eexists. split; [split; [done|cbn; by rewrite lookup_alter_eq, Hb|done..]|done].
Qed.
Lemma waiters_status ts ts' C : same_status ts ts' → waiters_blocked ts C → waiters_blocked ts' C.
Proof. intros E Hw t b Hb Hin. destruct (same_status_lookup _ _ _ _ E Hb) as (b0 & Hb0 & <-). by eapply Hw. Qed.

(** The abstract steps depend on the priorities only. *)
Lemma insert_sorted_prio ts ts' l e C :
  same_prio ts ts' → insert_sorted (item_gt ts') l e C = insert_sorted (item_gt ts) l e C.
Proof.
  intros E. unfold insert_sorted. apply map_eq. intros l'. destruct (decide (l' = l)) as [->|?]; [|by rewrite !lookup_alter_ne].
  rewrite !lookup_alter_eq. destruct (C !! l); [|done]. cbn. by rewrite (split_gt_prio ts ts').
Qed.
Lemma block_on_prio ts ts' wl t o w C : same_prio ts ts' → block_on ts' wl t o w C = block_on ts wl t o w C.
Proof. intros E. unfold block_on. by rewrite !(insert_sorted_prio ts ts'). Qed.
Lemma set_state_status st t ts ts' : same_status ts ts' → same_status (set_state st t ts) (set_state st t ts').
Proof.
  intros E t'. unfold set_state. destruct (decide (t' = t)) as [->|?]; [|by rewrite !lookup_alter_ne].
  rewrite !lookup_alter_eq. specialize (E t). destruct (ts !! t), (ts' !! t); cbn in *; congruence.
Qed.
Lemma same_status_trans ts1 ts2 ts3 : same_status ts1 ts2 → same_status ts2 ts3 → same_status ts1 ts3.
Proof. intros E1 E2 t. by rewrite (E2 t), (E1 t). Qed.
Lemma woken_status ts ts' xs C C' ts1 :
  same_status ts ts' → woken ts' xs C C' ts1 → ∃ ts2, woken ts xs C C' ts2 ∧ same_status ts2 ts1.
Proof.
  intros E. destruct xs as [|e xs]; cbn.
  - intros [-> ->]. by exists ts.
  - intros (t & o & w & -> & Hin & -> & ->). exists (set_state Ready t ts). split; [|by apply set_state_status].
    exists t, o, w. rewrite (wake_prio ts ts') by by apply same_status_prio. done.
Qed.

(** Interrupts as they are outside of critical sections, or nested in them. *)
Definition cpu_ok (k : kernel) : Prop :=
  0 ≤ nesting_cnt (kcpu k) < usize_mod - 1 ∧ interrupts (kcpu k) = (nesting_cnt (kcpu k) =? 0).
Definition masked (k : kernel) : kernel := lset {| interrupts := false; nesting_cnt := nesting_cnt (kcpu k) + 1 |} k.

Lemma exec_critical {A} (f : prog kernel A) k k1 v :
  cpu_ok k → exec f (masked k) = Done v k1 → kcpu k1 = kcpu (masked k) → exec (with_no_interrupt f) k = Done v (lset (kcpu k) k1).
Proof.
  intros [Hn Hi] Hf Hc. rewrite (exec_with_no_interrupt (Lens0 := cpu_lens) f k k1 v _ eq_refl Hn Hf Hc). f_equal.
  assert (E : {| interrupts := nesting_cnt (kcpu k) =? 0; nesting_cnt := nesting_cnt (kcpu k) |} = kcpu k)
    by (rewrite <-Hi; by destruct (kcpu k)).
  cbn [lget cpu_lens]. by rewrite E.
Qed.
Lemma exec_critical_fail {A} (f : prog kernel A) k e :
  cpu_ok k → exec f (masked k) = Failed e → exec (with_no_interrupt f) k = Failed e.
Proof. intros [Hn Hi]. by apply (exec_with_no_interrupt_fail (Lens0 := cpu_lens)). Qed.

(** The call is served with [res]: the first waiter [xs] of the other side is woken. *)
Definition served {R} k C (t : nat) (xs : list (nid * item)) (res : R) (M : list Z → Prop) (r : result kernel (attempt R)) : Prop :=
  ∃ k' C' ts', r = Done (Exit res) k' ∧ kinv k' C' None ∧ waiters_blocked (tasks k') C' ∧ woken (tasks k) xs C C' ts' ∧
    same_status ts' (tasks k') ∧ M (kmem k') ∧ kcpu k' = kcpu k ∧ tm k' = tm k ∧ current_task k' = Some t ∧ log_idle k'.
(** The time at which a caller that waits gives up: fixed at its first attempt. *)
Definition wake_time time_bits k (wakeup : option Z) (wait_ticks : Z) : option Z :=
  match wakeup with Some w => Some w | None => time_checked_add time_bits (tick_counter (tm k)) wait_ticks end.

(** It is not: without waiting, the call ends with [refused]; otherwise the caller
    blocks on [wl] until its time, or the kernel panics if that time overflows. *)
Definition turned_away {R} time_bits k C (t : nat) (o : Z) (wl : nat) (wait_ticks : Z) (wakeup : option Z) (refused : R)
    (M : list Z → Prop) (r : result kernel (attempt R)) : Prop :=
  if wait_ticks =? 0 then
    ∃ k', r = Done (Exit refused) k' ∧ kinv k' C None ∧ same_status (tasks k) (tasks k') ∧
      M (kmem k') ∧ kcpu k' = kcpu k ∧ tm k' = tm k ∧ current_task k' = Some t
  else match wake_time time_bits k wakeup wait_ticks with
  | Some w =>
    ∃ k', r = Done (Yield w) k' ∧ kinv k' (block_on (tasks k) wl t o w C) None ∧
      waiters_blocked (tasks k') (block_on (tasks k) wl t o w C) ∧
      same_status (set_state Blocked t (tasks k)) (tasks k') ∧
      M (kmem k') ∧ kcpu k' = kcpu k ∧ tick_counter (tm k') = tick_counter (tm k) ∧
      next_unblock_time (tm k') = Z.min (next_unblock_time (tm k)) w ∧ current_task k' = Some t ∧ log_idle k'
  | None => r = Failed Panic
  end.

(** *** The steps behind the transaction of a call *)
Section steps.
Context (k : kernel) (C : contents) (t : nat) (b : tcb) (d : tx_state).
Hypothesis (Hk : kinv k C None) (Hw : waiters_blocked (tasks k) C) (Hsc : in_syscall k t b).
Notation k1 := (tx_upd t d (masked k)).

Lemma after_tx : kinv k1 C None ∧ waiters_blocked (tasks k1) C ∧ same_status (tasks k) (tasks k1) ∧ ∃ b1, in_syscall k1 t b1.
Proof.
  assert (Hsc0 : in_syscall (masked k) t b) by by destruct Hsc.
  destruct (in_syscall_tx_upd t d (masked k) b Hsc0) as (b1 & Hsc1 & _). pose proof (tx_upd_status t d (masked k)).
  split_and!; [by apply kinv_tx_upd|by eapply waiters_status|done|by exists b1].
Qed.

Lemma wake_step wl xs :
  C !! WaitList wl = Some xs →
  ∃ k2 C' ts', exec (roll_forward_pop_remove_from_waitlist (WaitList wl)) k1 = Done tt k2 ∧
    kinv k2 C' None ∧ waiters_blocked (tasks k2) C' ∧ woken (tasks k) xs C C' ts' ∧ same_status ts' (tasks k2) ∧
    kmem k2 = bytes (tx_pm d) ∧ kcpu k2 = kcpu (masked k) ∧ tm k2 = tm k ∧ current_task k2 = Some t ∧ log_idle k2.
Proof.
  intros HC. destruct after_tx as (Hk1 & Hw1 & Hst & b1 & [Hc1 Hb1 _ Hd1 _]).
  destruct (wake_waiter k1 C wl xs t b1 Hk1 Hw1 HC Hc1 Hb1 Hd1)
    as (k2 & C' & ts & Hex & Hk2 & Hw2 & Hst2 & (Etm & Ec & Ecpu & Em & _) & Hidle & Hwk).
  destruct (woken_status (tasks k) (tasks k1) xs C C' ts Hst Hwk) as (ts2 & Hwk2 & Hst3).
  exists k2, C', ts2. split_and!; try done; [by eapply same_status_trans|]. rewrite Ec. apply Hsc.
Qed.

Lemma block_step wl w xs o :
  C !! WaitList wl = Some xs → free (ls k) (EventNode t) (BlockItem t o) →
  ∃ k2, exec (atomic_roll_forward_insert_into_waitlist (WaitList wl) t w) k1 = Done tt k2 ∧
    kinv k2 (block_on (tasks k) wl t o w C) None ∧ waiters_blocked (tasks k2) (block_on (tasks k) wl t o w C) ∧
    same_status (set_state Blocked t (tasks k)) (tasks k2) ∧ kmem k2 = bytes (tx_pm d) ∧ kcpu k2 = kcpu (masked k) ∧
    tick_counter (tm k2) = tick_counter (tm k) ∧ next_unblock_time (tm k2) = Z.min (next_unblock_time (tm k)) w ∧
    current_task k2 = Some t ∧ log_idle k2.
Proof.
  intros HC Hf. destruct after_tx as (Hk1 & Hw1 & Hst & b1 & [Hc1 Hb1 Hs1 _ _]).
  destruct (insert_into_waitlist_refines k1 C wl t b1 o w xs Hk1 Hb1 Hs1 HC Hf) as (k2 & Hex & Hk2 & Es & Eu & Et & Ec & Ecpu & Em & Hidle).
  assert (Hbl : block_on (tasks k1) wl t o w C = block_on (tasks k) wl t o w C) by by apply block_on_prio, same_status_prio.
  exists k2. rewrite <-Hbl. split_and!; try done.
  - by eapply waiters_blocking.
  - eapply same_status_trans; [apply set_state_status, Hst|exact Es].
  - rewrite Ec. apply Hsc.
Qed.
End steps.

(** *** The attempt: a transaction, then a waiter is woken or the caller blocks *)
Section attempt.
Context (time_bits : Z) {V R : Type} (p : prog tx_state (Result V ErrorCode)).
Context (wl_other wl_own : nat) (ok : V → R) (refused : R).

Definition attempt_body (t : nat) (wait_ticks : Z) (wakeup : option Z) : prog kernel (attempt R) :=
  let* r := kernel_tx p in
  match r with
  | Err _ => block_or_exit time_bits t wl_own wait_ticks wakeup refused
  | Ok v => roll_forward_pop_remove_from_waitlist (WaitList wl_other);;; Ret (Exit (ok v))
  end.

Context (k : kernel) (C : contents) (t : nat) (b : tcb) (d : tx_state).
Hypothesis (Hk : kinv k C None) (Hw : waiters_blocked (tasks k) C) (Hsc : in_syscall k t b) (Hcpu : cpu_ok k).

Lemma attempt_served v xs wait_ticks wakeup :
  exec p (tx_of k b) = Done (Ok v) d → C !! WaitList wl_other = Some xs →
  served k C t xs (ok v) (λ m, m = bytes (tx_pm d)) (exec (with_no_interrupt (attempt_body t wait_ticks wakeup)) k).
Proof.
  intros E HC. assert (Hsc0 : in_syscall (masked k) t b) by by destruct Hsc.
  destruct (wake_step k C t b d Hk Hw Hsc wl_other xs HC) as (k2 & C' & ts & Hex & Hk2 & Hw2 & Hwk & Hst & Em & Ecpu & Hrest).
  exists (lset (kcpu k) k2), C', ts. split_and!; try done; [|apply Hrest..].
  apply exec_critical; [done| |done]. unfold attempt_body. run (exec_kernel_tx p (masked k) t b _ d Hsc0 E). by run Hex.
Qed.

Lemma attempt_refused e xs wait_ticks wakeup o :
  exec p (tx_of k b) = Done (Err e) d → C !! WaitList wl_own = Some xs → free (ls k) (EventNode t) (BlockItem t o) →
  turned_away time_bits k C t o wl_own wait_ticks wakeup refused (λ m, m = bytes (tx_pm d))
    (exec (with_no_interrupt (attempt_body t wait_ticks wakeup)) k).
Proof.
  intros E HC Hf. unfold turned_away. set (k0 := masked k). assert (Hsc0 : in_syscall k0 t b) by by destruct Hsc.
  set (k1 := tx_upd t d k0). destruct (in_syscall_tx_upd t d k0 b Hsc0) as (b1 & Hsc1 & Hb1).
  pose proof (tx_upd_status t d k0) as Hst. fold k1 in Hst.
  assert (Hbody : ∀ q, exec (block_or_exit time_bits t wl_own wait_ticks wakeup refused) k1 = q →
    exec (attempt_body t wait_ticks wakeup) k0 = q).
  { intros q <-. unfold attempt_body. by run (exec_kernel_tx p k0 t b _ d Hsc0 E). }
  assert (Hk1 : kinv k1 C None) by by apply kinv_tx_upd.
  unfold block_or_exit in Hbody. destruct (Z.eqb_spec wait_ticks 0) as [E0|E0].
  - exists (lset (kcpu k) k1). split_and!; try done; [|apply Hsc]. apply exec_critical; [done|by apply Hbody|done].
  - assert (Hat : exec (wakeup_at time_bits wakeup wait_ticks) k1 =
      match wake_time time_bits k wakeup wait_ticks with Some w => Done w k1 | None => Failed Panic end).
    { unfold wakeup_at, wake_time. destruct wakeup; [done|]. rewrite (exec_bind_done _ _ _ (tick_counter (tm k)) k1) by done.
      by destruct (time_checked_add time_bits (tick_counter (tm k)) wait_ticks). }
    destruct (wake_time time_bits k wakeup wait_ticks) as [w|].
    + destruct (block_step k C t b d Hk Hw Hsc wl_own w xs o HC Hf) as (k2 & Hex & Hk2 & Hw2 & Hst2 & Em & Ecpu & Hrest).
      exists (lset (kcpu k) k2). split_and!; try done; [|apply Hrest..].
      apply exec_critical; [done| |done]. apply Hbody. run Hat. by run Hex.
    + apply exec_critical_fail; [done|]. apply Hbody. rewrite exec_bind, Hat. done.
Qed.
End attempt.

Lemma served_mono {R} k C t xs (res : R) (M M' : list Z → Prop) r :
  (∀ m, M m → M' m) → served k C t xs res M r → served k C t xs res M' r.
Proof. intros HM (k' & C' & ts' & H1 & H2 & H3 & H4 & H5 & H6 & H7). exists k', C', ts'. split_and!; try done; [by apply HM|apply H7..]. Qed.
Lemma turned_away_mono {R} time_bits k C t o wl wait_ticks wakeup (res : R) (M M' : list Z → Prop) r :
  (∀ m, M m → M' m) → turned_away time_bits k C t o wl wait_ticks wakeup res M r →
  turned_away time_bits k C t o wl wait_ticks wakeup res M' r.
Proof.
  intros HM. unfold turned_away. destruct (wait_ticks =? 0); [|destruct (wake_time _ _ _ _); [|done]].
  - intros (k' & H1 & H2 & H3 & H4 & H5). exists k'. split_and!; try done; [by apply HM|apply H5..].
  - intros (k' & H1 & H2 & H3 & H4 & H5 & H6). exists k'. split_and!; try done; [by apply HM|apply H6..].
Qed.

(** *** The loop ends *)
Definition remaining (until : Z) (k : kernel) : Z := Z.max 0 (until - tick_counter (tm k)).
Lemma wake_time_remaining time_bits until k wakeup :
  wakeup = None ∧ tick_counter (tm k) ≤ until ∨ wakeup = Some until → until ≤ MAX_DELAY_TIME time_bits → remaining until k ≠ 0 →
  wake_time time_bits k wakeup (remaining until k) = Some until.
Proof.
  intros [[-> Hle]| ->] Hmax Hne; [|done]. unfold wake_time, time_checked_add, remaining in *.
  replace (tick_counter (tm k) + Z.max 0 (until - tick_counter (tm k))) with until by lia. by rewrite (proj2 (Z.leb_le _ _)).
Qed.

Section retry.
Context {R : Type} (yield : prog kernel unit) (a : Z → option Z → prog kernel (attempt R)).
(** [P]: the states in which the call can be attempted; [until]: the time at which
    it gives up; what an attempt returns satisfies [Q]. *)
Context (P : kernel → Prop) (Q : R → Z → Prop) (until : Z).
Hypothesis Hattempt : ∀ k wakeup, P k → wakeup = None ∧ tick_counter (tm k) ≤ until ∨ wakeup = Some until →
  ∃ r k1, exec (a (remaining until k) wakeup) k = Done r k1 ∧ tick_counter (tm k1) = tick_counter (tm k) ∧
    match r with
    | Exit r => Q r (remaining until k)
    | Yield w => w = until ∧ remaining until k ≠ 0 ∧
        ∃ k2, exec yield k1 = Done tt k2 ∧ tick_counter (tm k1) ≤ tick_counter (tm k2) ∧ P k2
    end.

(** [n] attempts block one after the other, each until the same deadline; behind the
    last one the task has been woken in [k']. *)
Inductive waits : nat → option Z → kernel → kernel → Prop :=
| waits_none wakeup k : waits 0 wakeup k k
| waits_again n wakeup k k1 k2 k' :
    exec (a (remaining until k) wakeup) k = Done (Yield until) k1 → exec yield k1 = Done tt k2 →
    waits n (Some until) k2 k' → waits (S n) wakeup k k'.

(** The loop has returned behind [n] waits, or the deadline has not come by then. *)
Lemma retry_progress n k wakeup :
  P k → wakeup = None ∧ tick_counter (tm k) ≤ until ∨ wakeup = Some until →
  (∃ r k', exec (retry (S n) yield a (remaining until k) wakeup) k = Done r k' ∧ Q r (remaining until k')) ∨
  ∃ k', waits n wakeup k k' ∧ tick_counter (tm k') < until.
Proof.
  revert k wakeup; induction n as [|n IH]; intros k wakeup HP Hwk;
    destruct (Hattempt k wakeup HP Hwk) as (r & k1 & Ex & Et & Hr); destruct r as [r|w];
    try (left; exists r, k1; cbn [retry]; run Ex; split; [done|unfold remaining in *; by rewrite Et]).
  - right. exists k. split; [constructor|]. destruct Hr as (_ & Hne & _). unfold remaining in Hne. lia.
  - destruct Hr as (-> & Hne & k2 & Ey & Hle & HP2).
    assert (Eu : exec (update_countdown until) k2 = Done (remaining until k2) k2).
    { unfold update_countdown. rewrite (exec_bind_done _ _ _ (tick_counter (tm k2)) k2) by done. cbn [exec]. f_equal.
      unfold remaining. destruct (Z.leb_spec until (tick_counter (tm k2))); lia. }
    destruct (IH k2 (Some until) HP2 ltac:(by right)) as [(r & k' & E & HQ)|(k' & Hw & Hlt)].
    + left. exists r, k'. split; [|done]. cbn [retry] in E |- *. run Ex. run Ey. by run Eu.
    + right. exists k'. split; [|done]. by eapply waits_again.
Qed.
End retry.
End blocking_ops.

(** The demo kernel with a memory, and a layout of results, for the concrete
    instances. *)
Module calls.
#[local] Existing Instances cortex_m qemu default_features.

Definition err_code (e : ErrorCode) : Z :=
  match e with InvalidCode => 2 | NoSpace => 3 | InvalidParam => 4 | TxRetry => 5 | TxExit => 6 | TxFatal => 7 end.
Definition code_err (z : Z) : ErrorCode :=
  if z =? 2 then InvalidCode else if z =? 3 then NoSpace else if z =? 4 then InvalidParam else if z =? 5 then TxRetry
  else if z =? 6 then TxExit else TxFatal.
#[export] Instance plain_result_bool : Plain (Result bool ErrorCode) := {|
  size_of := 1;
  to_bytes (r : Result bool ErrorCode) := [match r with Ok v => if v : bool then 1 else 0 | Err e => err_code e end];
  of_bytes bs := match bs with [z] => if z =? 0 then Ok false else if z =? 1 then Ok true else Err (code_err z) | _ => Err TxFatal end;
|}.
#[export] Instance plain_result_bool_laws : PlainLaws (Result bool ErrorCode).
Proof. split; [done|]. by intros [[]|[]]. Qed.
#[export] Instance plain_result_unit : Plain (Result unit ErrorCode) := {|
  size_of := 1;
  to_bytes (r : Result unit ErrorCode) := [match r with Ok _ => 0 | Err e => err_code e end];
  of_bytes bs := match bs with [z] => if z =? 0 then Ok tt else Err (code_err z) | _ => Err TxFatal end;
|}.
#[export] Instance plain_result_unit_laws : PlainLaws (Result unit ErrorCode).
Proof. split; [done|]. by intros [[]|[]]. Qed.

Definition demo_with (m : list Z) : kernel := with_kmem m demo.

Lemma demo_ready m : ready false 0 0 0 [] m (fresh_tx m).
Proof.
  split.
  - split; [reflexivity|vm_compute; split; congruence|reflexivity|vm_compute; congruence|reflexivity|].
    exists 0%nat, 0%nat. split_and!; [reflexivity|lia|vm_compute; split; congruence].
  - reflexivity.
  - split_and!; [exact (jrepr_new UserTx.example.board_ok_qemu)|done..].
  - done.
  - intros _ ?. lia.
Qed.
Lemma demo_in_syscall m : in_syscall (demo_with m) 0 (demo_task 1 Running).
Proof. by split. Qed.
Lemma demo_cpu_ok m : cpu_ok (demo_with m).
Proof. split; [by vm_compute|done]. Qed.
Lemma demo_with_kinv m : kinv (demo_with m) demo_contents None.
Proof. exact demo_kinv. Qed.
Lemma demo_opt : opt_tx_cache_space = true.
Proof. reflexivity. Qed.
Lemma demo_cache_ok : cache_ok.
Proof. split; vm_compute; congruence. Qed.
Lemma demo_fits_unit : fits (T := Result unit ErrorCode) 0 0.
Proof. split; vm_compute; [split; congruence|congruence]. Qed.
Lemma demo_fits_bool : fits (T := Result bool ErrorCode) 0 0.
Proof. split; vm_compute; [split; congruence|congruence]. Qed.
Lemma demo_free m : free (ls (demo_with m)) (EventNode 0) (BlockItem 0 0).
Proof. eexists. by split_and!. Qed.
End calls.
