(* ===== verification/Queue.v ===== *)
(** * Message queues ([queue.rs])

    A queue is a ring of items in persistent memory. The positions and the number
    of items are logged words; the items themselves are copied without a log. *)

From S2P Require Import Prelude Arch Pmem PmemSpec TxCache Transaction Replay UserTx Util PVar PList Kernel ListTx Sched.
From S2P Require Import Blocking.

(** [struct Queue]: the constant fields, and the addresses of the variables. *)
Record Queue := {
  q_length : Z;
  q_item_size : Z;
  q_buffer : Z;
  q_tail : Z;
  q_read_pos : Z;
  q_write_pos : Z;
  q_items_enqueued : Z;
  q_blocked_readers : nat;
  q_blocked_writers : nat;
}.

Inductive QueueErr := NoMemory | QInvalidParam | QueueDeleted | QueueFull | QueueEmpty.
#[export] Instance QueueErr_eq_dec : EqDecision QueueErr.
Proof. solve_decision. Defined.

Section queue.
Context `{Arch, Board, TxFeatures} (time_bits : Z).
Implicit Types q : Queue.

Definition queue_is_full q : prog pmem bool :=
  let* n := read_usize (q_items_enqueued q) in Ret (n =? q_length q).
Definition queue_is_empty q : prog pmem bool :=
  let* n := read_usize (q_items_enqueued q) in Ret (n =? 0).

(** The part of [push_back] and [dequeue] that advances a position, around the
    end of the buffer. *)
Definition advance_pos q (pos n : Z) : prog pmem unit :=
  borrow_mut pos;;;
  let* p := read_usize pos in
  write_usize pos (uadd p n);;;
  let* p := read_usize pos in
  when (p =? q_tail q) (write_usize pos 0).

(** [push_back]; [item] are the [item_size] bytes behind [item_ptr]. *)
Definition push_back q (item : list Z) : prog pmem (Result unit QueueErr) :=
  let* full := queue_is_full q in
  if full : bool then Ret (Err QueueFull) else
  let* wp := read_usize (q_write_pos q) in
  write_bytes (uadd (q_buffer q) wp) item;;;
  advance_pos q (q_write_pos q) (q_item_size q);;;
  update_var (q_items_enqueued q) (λ n, uadd n 1);;;
  Ret (Ok tt).

Definition push_front q (item : list Z) : prog pmem (Result unit QueueErr) :=
  let* full := queue_is_full q in
  if full : bool then Ret (Err QueueFull) else
  borrow_mut (q_read_pos q);;;
  let* rp := read_usize (q_read_pos q) in
  write_usize (q_read_pos q) (if rp =? 0 then usub (q_tail q) (q_item_size q) else usub rp (q_item_size q));;;
  let* rp := read_usize (q_read_pos q) in
  write_bytes (uadd (q_buffer q) rp) item;;;
  update_var (q_items_enqueued q) (λ n, uadd n 1);;;
  Ret (Ok tt).

(** [dequeue::<T>]: the bytes of a [T] are read at the position. *)
Definition dequeue {T} `{Plain T} q : prog pmem (Result T QueueErr) :=
  let* empty := queue_is_empty q in
  if empty : bool then Ret (Err QueueEmpty) else
  let* rp := read_usize (q_read_pos q) in
  let* item := read_bytes (uadd (q_buffer q) rp) (size_of T) in
  advance_pos q (q_read_pos q) (Z.of_nat (size_of T));;;
  update_var (q_items_enqueued q) (λ n, usub n 1);;;
  Ret (Ok (of_bytes item)).

(** *** The system calls: one attempt with interrupts off, then the loop *)

(** The closures of the transactions. *)
Definition send_tx q (item : list Z) (is_back : bool) : prog pmem (Result unit ErrorCode) :=
  let* r := if is_back then push_back q item else push_front q item in
  Ret (match r with Err _ => Err TxRetry | Ok _ => Ok tt end).
Definition receive_tx {T} `{Plain T} q : prog pmem (Result T ErrorCode) :=
  let* r := dequeue q in
  Ret (match r with Err _ => Err TxRetry | Ok v => Ok v end).

Definition send_attempt `{!Plain (Result unit ErrorCode)} q (t : nat) (item : list Z) (is_back : bool) (wait_ticks : Z) (wakeup : option Z) :
    prog kernel (attempt (Result unit QueueErr)) :=
  with_no_interrupt (
    let* r := kernel_tx (try_run_relaxed (send_tx q item is_back)) in
    match r with
    | Err _ => block_or_exit time_bits t (q_blocked_writers q) wait_ticks wakeup (Err QueueFull)
    | Ok _ => roll_forward_pop_remove_from_waitlist (WaitList (q_blocked_readers q));;; Ret (Exit (Ok tt))
    end).

Definition receive_attempt {T} `{Plain T, !Plain (Result T ErrorCode)} q (t : nat) (wait_ticks : Z) (wakeup : option Z) :
    prog kernel (attempt (Result T QueueErr)) :=
  with_no_interrupt (
    let* r := kernel_tx (try_run_relaxed (receive_tx q)) in
    match r with
    | Err _ => block_or_exit time_bits t (q_blocked_readers q) wait_ticks wakeup (Err QueueEmpty)
    | Ok v => roll_forward_pop_remove_from_waitlist (WaitList (q_blocked_writers q));;; Ret (Exit (Ok v))
    end).

Definition queue_send_impl `{!Plain (Result unit ErrorCode)} (fuel : nat) (yield : prog kernel unit) q (item : list Z) (wait_ticks : Z) (is_back : bool) :
    prog kernel (Result unit QueueErr) :=
  let* t := current in retry fuel yield (send_attempt q t item is_back) wait_ticks None.
Definition queue_send_back `{!Plain (Result unit ErrorCode)} fuel yield q item wait_ticks := queue_send_impl fuel yield q item wait_ticks true.
Definition queue_send_front `{!Plain (Result unit ErrorCode)} fuel yield q item wait_ticks := queue_send_impl fuel yield q item wait_ticks false.
Definition queue_receive {T} `{Plain T, !Plain (Result T ErrorCode)} (fuel : nat) (yield : prog kernel unit) q (wait_ticks : Z) :
    prog kernel (Result T QueueErr) :=
  let* t := current in retry fuel yield (receive_attempt q t) wait_ticks None.

(** [queue_block_until_not_empty] *)
Definition queue_block_until_not_empty (yield : prog kernel unit) q (wait_ticks : Z) (forever : bool) : prog kernel unit :=
  let* t := current in
  let* yld := with_no_interrupt (
    let* empty := kernel_pm (queue_is_empty q) in
    if empty : bool then
      let* w := if forever then Ret (MAX_DELAY_TIME time_bits)
                else let* now := get_ticks in unwrap (time_checked_add time_bits now wait_ticks) in
      atomic_roll_forward_insert_into_waitlist (WaitList (q_blocked_readers q)) t w;;;
      Ret true
    else Ret false) in
  when yld yield.
End queue.
