(* ===== verification/QueueRing.v ===== *)
(** * Message queues as lists

    What the memory of a queue represents, and that sending to and receiving from
    it add and remove an item of that list, or roll back to it. *)

From S2P Require Import Prelude Arch Pmem PmemSpec TxCache Transaction Replay UserTx Util PVar PList Kernel ListTx Sched.
From S2P Require Import Queue.

(** Where a queue is in memory, and its wait lists. *)
Record qlayout := QLayout {
  ql_length : nat;
  ql_item : nat;
  ql_buf : nat;
  ql_read : nat;
  ql_write : nat;
  ql_count : nat;
  ql_readers : nat;
  ql_writers : nat;
}.
Definition queue_of (l : qlayout) : Queue := {|
  q_length := Z.of_nat (ql_length l);
  q_item_size := Z.of_nat (ql_item l);
  q_buffer := Z.of_nat (ql_buf l);
  q_tail := Z.of_nat (ql_length l * ql_item l);
  q_read_pos := Z.of_nat (ql_read l);
  q_write_pos := Z.of_nat (ql_write l);
  q_items_enqueued := Z.of_nat (ql_count l);
  q_blocked_readers := ql_readers l;
  q_blocked_writers := ql_writers l;
|}.
Definition ql_vars (l : qlayout) : list nat := [ql_read l; ql_write l; ql_count l].

Section ring.
Context `{Arch, Board}.
Implicit Types (l : qlayout) (m x : list Z) (xs : list (list Z)) (s : pmem).

(** The parts of the queue do not overlap in a memory of [N] bytes. *)
Record layout_ok l (N : nat) : Prop := {
  lo_length : (0 < ql_length l)%nat;
  lo_item : (0 < ql_item l)%nat;
  lo_buf : (ql_buf l + ql_length l * ql_item l ≤ N)%nat;
  lo_vars : ∀ a, a ∈ ql_vars l → (a + usize_bytes ≤ N)%nat ∧ apart a usize_bytes (ql_buf l) (ql_length l * ql_item l);
  lo_rw : apart (ql_read l) usize_bytes (ql_write l) usize_bytes;
  lo_rc : apart (ql_read l) usize_bytes (ql_count l) usize_bytes;
  lo_wc : apart (ql_write l) usize_bytes (ql_count l) usize_bytes;
  lo_N : Z.of_nat N < usize_mod;
}.

Definition slot l (i : nat) : nat := (ql_buf l + i mod ql_length l * ql_item l)%nat.
(** The items [xs] are in the slots from number [r] on. *)
Definition slots l m (r : nat) xs : Prop :=
  ∀ i x, xs !! i = Some x → length x = ql_item l ∧ slice (slot l (r + i)) (ql_item l) m = x.
Definition queue_repr l m xs : Prop := ∃ r,
  (r < ql_length l)%nat ∧ (length xs ≤ ql_length l)%nat ∧
  word m (ql_read l) (Z.of_nat (r * ql_item l)) ∧
  word m (ql_write l) (Z.of_nat ((r + length xs) mod ql_length l * ql_item l)) ∧
  word m (ql_count l) (Z.of_nat (length xs)) ∧ slots l m r xs.

(** Bytes outside of the queue. *)
Definition outside l (b k : nat) : Prop :=
  apart b k (ql_buf l) (ql_length l * ql_item l) ∧ ∀ a, a ∈ ql_vars l → apart b k a usize_bytes.
Definition same_outside l m m' : Prop :=
  length m' = length m ∧ ∀ b k, (b + k ≤ length m)%nat → outside l b k → slice b k m' = slice b k m.

(** What a power failure leaves: a store that rolls back to the same items. *)
Definition rolls_back l m xs (c : pmem) : Prop :=
  ∃ es m', undoes es m' c ∧ queue_repr l m' xs ∧ same_outside l m m'.

(** Room for the two records of an operation. *)
Definition room (s : pmem) (n : nat) : Prop :=
  tail (journal s) + Z.of_nat n * Z.of_nat (record_size usize_bytes) ≤ JOURNAL_SIZE.
End ring.

Section arith.
Lemma mod_ne len r i n : (i < n)%nat → (n - i < len)%nat → ((r + i) mod len ≠ (r + n) mod len)%nat.
Proof.
  intros Hi Hn E. pose proof (Nat.div_mod_eq (r + i) len) as E1. pose proof (Nat.div_mod_eq (r + n) len) as E2.
  rewrite E in E1. assert (n - i = len * ((r + n) / len - (r + i) / len))%nat by nia. nia.
Qed.
Lemma mod_shift len r i : (((S r) mod len + i) mod len = (r + S i) mod len)%nat.
Proof. rewrite Nat.Div0.add_mod_idemp_l. f_equal. lia. Qed.
Lemma mod_wrap len i : (i < len)%nat → (S i mod len = if decide (S i = len) then 0 else S i)%nat.
Proof.
  intros Hi. case_decide as E; [|by apply Nat.mod_small; lia]. rewrite E. apply Nat.Div0.mod_same.
Qed.
Lemma mod_succ len i : (S (i mod len) mod len = S i mod len)%nat.
Proof. apply (Nat.Div0.add_mod_idemp_r 1 i len). Qed.
End arith.

Section lemmas.
Context `{Arch, Board}.
Context (l : qlayout) (N : nat) (Hl : layout_ok l N).
Implicit Types (m x : list Z) (xs : list (list Z)) (s : pmem).

Lemma slot_bounds i : (ql_buf l ≤ slot l i ∧ slot l i + ql_item l ≤ ql_buf l + ql_length l * ql_item l)%nat.
Proof.
  unfold slot. pose proof (Nat.mod_upper_bound i (ql_length l)). pose proof (lo_length _ _ Hl). nia.
Qed.
Lemma slot_mod i : slot l (i mod ql_length l) = slot l i.
Proof. unfold slot. by rewrite Nat.Div0.mod_mod. Qed.
Lemma slots_apart i j k : (i mod ql_length l ≠ j mod ql_length l)%nat → (k ≤ ql_item l)%nat →
  apart (slot l i) (ql_item l) (slot l j) k.
Proof. unfold apart, slot. intros Hne Hk. nia. Qed.

(** A store to one of the words keeps the items. *)
Lemma slots_word m r xs a bs :
  length m = N → slots l m r xs → a ∈ ql_vars l → length bs = usize_bytes → slots l (list_inserts a bs m) r xs.
Proof.
  intros HN Hs Ha Hb i x Hx. destruct (Hs i x Hx) as [Hx1 Hx2]. split; [done|].
  destruct (lo_vars _ _ Hl a Ha) as [Hal Hap]. pose proof (slot_bounds (r + i)). pose proof (lo_buf _ _ Hl).
  rewrite slice_inserts_apart; [done|unfold apart in *; lia|lia|lia].
Qed.
(** A store to a slot that holds none of them as well. *)
Lemma slots_free m r xs j bs :
  length m = N → slots l m r xs → (length bs ≤ ql_item l)%nat →
  (∀ i, (i < length xs)%nat → ((r + i) mod ql_length l ≠ j mod ql_length l)%nat) →
  slots l (list_inserts (slot l j) bs m) r xs.
Proof.
  intros HN Hs Hb Hf i x Hx. destruct (Hs i x Hx) as [Hx1 Hx2]. split; [done|].
  pose proof (slot_bounds (r + i)). pose proof (slot_bounds j). pose proof (lo_buf _ _ Hl).
  rewrite slice_inserts_apart; [done| |lia|lia]. apply slots_apart; [|done]. apply Hf. by eapply lookup_lt_Some.
Qed.
Lemma word_slot m a v j bs :
  length m = N → word m a v → a ∈ ql_vars l → (length bs ≤ ql_item l)%nat → word (list_inserts (slot l j) bs m) a v.
Proof.
  intros HN Hw Ha Hb. destruct (lo_vars _ _ Hl a Ha) as [Hal Hap]. pose proof (slot_bounds j). pose proof (lo_buf _ _ Hl).
  apply word_inserts; [done| |lia]. unfold apart in *. lia.
Qed.
Lemma repr_free m r xs j bs :
  length m = N → (r < ql_length l)%nat → (length xs ≤ ql_length l)%nat →
  word m (ql_read l) (Z.of_nat (r * ql_item l)) →
  word m (ql_write l) (Z.of_nat ((r + length xs) mod ql_length l * ql_item l)) →
  word m (ql_count l) (Z.of_nat (length xs)) → slots l m r xs →
  (length bs ≤ ql_item l)%nat → (∀ i, (i < length xs)%nat → ((r + i) mod ql_length l ≠ j mod ql_length l)%nat) →
  queue_repr l (list_inserts (slot l j) bs m) xs.
Proof.
  intros HN Hr Hx Hrd Hwr Hcnt Hs Hb Hf. exists r. split_and!; [done..| | | |by apply slots_free].
  all: apply word_slot; auto; unfold ql_vars; set_solver.
Qed.

Lemma slots_snoc m r xs x :
  slots l m r xs → length x = ql_item l → slice (slot l (r + length xs)) (ql_item l) m = x → slots l m r (xs ++ [x]).
Proof.
  intros Hs Hx Hm i y Hy. apply lookup_app_Some in Hy as [Hy|[Hi Hy]]; [by apply Hs|].
  apply list_lookup_singleton_Some in Hy as [Ei <-]. assert (i = length xs) as -> by lia. done.
Qed.
Lemma slots_cons m r xs x :
  slots l m (S r) xs → length x = ql_item l → slice (slot l r) (ql_item l) m = x → slots l m r (x :: xs).
Proof.
  intros Hs Hx Hm [|i] y Hy; cbn in Hy; [injection Hy as <-; by rewrite Nat.add_0_r|].
  replace (r + S i)%nat with (S r + i)%nat by lia. by apply Hs.
Qed.
Lemma slots_mod m r xs : slots l m (r mod ql_length l) xs ↔ slots l m r xs.
Proof.
  unfold slots. split; intros Hs i x Hx; specialize (Hs i x Hx);
    (rewrite <-slot_mod; rewrite <-slot_mod in Hs; by rewrite Nat.Div0.add_mod_idemp_l in Hs || rewrite Nat.Div0.add_mod_idemp_l).
Qed.
Lemma slot_index r : Z.of_nat (slot l r) = uadd (Z.of_nat (ql_buf l)) (Z.of_nat (r mod ql_length l * ql_item l)).
Proof. pose proof (slot_bounds r). pose proof (lo_buf _ _ Hl). pose proof (lo_N _ _ Hl). unfold slot in *. rewrite uadd_small; lia. Qed.

(** The three words after a store to one of them. *)
Lemma word_here m a w : length m = N → a ∈ ql_vars l → is_usize w → word (list_inserts a (usize_to_bytes w) m) a w.
Proof. intros HN Ha Hw. destruct (lo_vars _ _ Hl a Ha) as [Hal _]. apply word_set; [lia|done]. Qed.
Lemma word_other m a b v w :
  length m = N → a ∈ ql_vars l → b ∈ ql_vars l → a ≠ b → word m a v → word (list_inserts b (usize_to_bytes w) m) a v.
Proof.
  intros HN Ha Hb Hne Hw. destruct (lo_vars _ _ Hl b Hb) as [Hbl _].
  apply word_inserts; [done| |rewrite length_usize_to_bytes; lia]. rewrite length_usize_to_bytes.
  pose proof (lo_rw _ _ Hl). pose proof (lo_rc _ _ Hl). pose proof (lo_wc _ _ Hl).
  unfold ql_vars, apart in *. rewrite !elem_of_cons, elem_of_nil in Ha, Hb.
  destruct Ha as [->|[->|[->|[]]]], Hb as [->|[->|[->|[]]]]; done || lia.
Qed.
Lemma vars_ne : ql_read l ≠ ql_write l ∧ ql_read l ≠ ql_count l ∧ ql_write l ≠ ql_count l.
Proof.
  pose proof (lo_rw _ _ Hl). pose proof (lo_rc _ _ Hl). pose proof (lo_wc _ _ Hl). pose proof usize_bytes_cases.
  unfold apart in *. lia.
Qed.

Lemma same_outside_refl m : same_outside l m m.
Proof. done. Qed.
Lemma same_outside_var m m' a bs :
  same_outside l m m' → length m = N → a ∈ ql_vars l → length bs = usize_bytes → same_outside l m (list_inserts a bs m').
Proof.
  intros [Hlen Hs] HN Ha Hb. split; [by rewrite length_inserts|]. intros b k Hk Ho.
  destruct (lo_vars _ _ Hl a Ha) as [Hal _]. rewrite slice_inserts_apart, <-(Hs b k Hk Ho); [done| |lia..].
  rewrite Hb. by apply Ho.
Qed.
Lemma same_outside_slot m m' j bs :
  same_outside l m m' → length m = N → (length bs ≤ ql_item l)%nat → same_outside l m (list_inserts (slot l j) bs m').
Proof.
  intros [Hlen Hs] HN Hb. split; [by rewrite length_inserts|]. intros b k Hk Ho.
  pose proof (slot_bounds j). pose proof (lo_buf _ _ Hl). destruct Ho as [Hob Hov] eqn:E.
  rewrite slice_inserts_apart, <-(Hs b k Hk Ho); [done| |lia..]. unfold apart in *. lia.
Qed.

Lemma var_object a : a ∈ ql_vars l → is_object (Z.of_nat a) (Z.of_nat usize_bytes).
Proof.
  intros Ha. destruct (lo_vars _ _ Hl a Ha) as [Hal _]. pose proof (lo_N _ _ Hl). pose proof usize_half. pose proof usize_bytes_cases.
  split; lia.
Qed.

(** Advancing a position by one slot. *)
Lemma runs_advance (Hboard : board_ok) (I : pmem → Prop) es m0 s a i (Q : unit → pmem → Prop) :
  undoes es m0 s → length (bytes s) = N → a ∈ ql_vars l → (i < ql_length l)%nat →
  word (bytes s) a (Z.of_nat (i * ql_item l)) →
  tail (journal s) + Z.of_nat (record_size usize_bytes) ≤ JOURNAL_SIZE → (∀ c es', undoes es' m0 c → I c) →
  (∀ s' es', undoes es' m0 s' → bytes s' = list_inserts a (usize_to_bytes (Z.of_nat (S i mod ql_length l * ql_item l))) (bytes s) →
     tail (journal s') = tail (journal s) + Z.of_nat (record_size usize_bytes) → Q tt s') →
  runs I (advance_pos (queue_of l) (Z.of_nat a) (Z.of_nat (ql_item l))) s Q.
Proof.
  intros Hu HN Ha Hi Hw Hsp HI HQ. destruct (lo_vars _ _ Hl a Ha) as [Hal Hap].
  pose proof (lo_buf _ _ Hl). pose proof (lo_N _ _ Hl). pose proof (lo_item _ _ Hl). pose proof (lo_length _ _ Hl).
  set (e := word_entry a (bytes s)).
  unfold advance_pos. eapply runs_bind; [apply (runs_borrow_mut Hboard I es m0 s a
    (λ _ s', bytes s' = bytes s ∧ tail (journal s') = tail (journal s) + Z.of_nat (record_size usize_bytes) ∧ undoes (es ++ [e]) m0 s'));
    auto; [by apply var_object|lia]|].
  intros [] s1 (Hb & Ht & Hu1).
  assert (Hcov : ∀ s2 v, undoes (es ++ [e]) m0 s2 → length (bytes s2) = N →
    undoes (es ++ [e]) m0 (set_bytes (list_inserts a (usize_to_bytes v)) s2)).
  { intros s2 v Hu2 HN2. eapply undoes_covered; [done|apply elem_of_app; right; constructor| |rewrite length_usize_to_bytes; lia].
    apply word_entry_covers; [lia|apply length_usize_to_bytes]. }
  apply (runs_let_read _ _ _ (Z.of_nat (i * ql_item l))); [by eapply HI|by rewrite Hb|].
  rewrite uadd_small by nia. set (v := Z.of_nat (i * ql_item l) + Z.of_nat (ql_item l)).
  set (s2 := set_bytes (list_inserts a (usize_to_bytes v)) s1).
  assert (Hu2 : undoes (es ++ [e]) m0 s2) by (apply Hcov; [done|by rewrite Hb]).
  eapply runs_bind; [apply (runs_write_usize I s1 a v (λ _ s', s' = s2)); [rewrite Hb; lia|by eapply HI|by eapply HI|done]|]. intros [] ? ->.
  assert (Hw2 : word (bytes s2) a v) by (cbn; apply word_set; [rewrite Hb; lia|unfold is_usize, v; nia]).
  apply (runs_let_read _ _ _ v); [by eapply HI|done|].
  cbn [queue_of q_tail]. rewrite (mod_wrap _ i Hi) in HQ. case_decide as E.
  - rewrite (proj2 (Z.eqb_eq v _)) by nia. cbn [when].
    change 0 with (Z.of_nat 0). apply runs_write_usize; [cbn; rewrite length_inserts, Hb; lia|by eapply HI|..].
    { eapply HI, Hcov; [done|]. cbn. by rewrite length_inserts, Hb. }
    eapply HQ; [apply Hcov; [done|]; cbn; by rewrite length_inserts, Hb| |done].
    cbn. rewrite Hb. apply list_eq. intros j. rewrite !lookup_inserts_full;
      rewrite ?length_inserts, !length_usize_to_bytes; try lia. repeat case_decide; done || lia.
  - rewrite (proj2 (Z.eqb_neq v _)) by nia. apply runs_ret; [by eapply HI|].
    eapply HQ; [exact Hu2| |done]. cbn. rewrite Hb. do 2 f_equal. unfold v. lia.
Qed.
End lemmas.

(** The value of a variable after stores to variables and slots. *)
Ltac var := unfold ql_vars; repeat first [apply list_elem_of_here | apply list_elem_of_further].
Ltac words l N Hl :=
  repeat first
    [ assumption
    | apply (word_here l N Hl); [cbn; rewrite ?length_inserts; try done; try congruence|var|]
    | apply (word_other l N Hl); [cbn; rewrite ?length_inserts; try done; try congruence|var|var|congruence|]
    | apply (word_slot l N Hl); [cbn; rewrite ?length_inserts; try done; try congruence| |var|lia] ].

Section operations.
Context `{Arch, Board} (Hboard : board_ok).
Context (l : qlayout) (N : nat) (Hl : layout_ok l N).
Implicit Types (m x : list Z) (xs : list (list Z)) (s : pmem).

Lemma rolls_back_here xs s : undoes [] (bytes s) s → queue_repr l (bytes s) xs → rolls_back l (bytes s) xs s.
Proof. intros Hu Hr. exists [], (bytes s). split_and!; try done; by apply same_outside_refl. Qed.

Lemma runs_let_full {A} (I : pmem → Prop) xs s (k : bool → prog pmem A) (Q : A → pmem → Prop) :
  I s → word (bytes s) (ql_count l) (Z.of_nat (length xs)) → (length xs ≤ ql_length l)%nat →
  runs I (k (bool_decide (length xs = ql_length l))) s Q → runs I (let* b := queue_is_full (queue_of l) in k b) s Q.
Proof.
  intros HI Hw Hlen HQ. eapply (runs_bind _ _ _ _ (λ b s', b = bool_decide (length xs = ql_length l) ∧ s' = s)); [|by intros b s' [-> ->]].
  eapply runs_let_read; [done|exact Hw|]. apply runs_ret; [done|]. split; [|done]. cbn.
  case_bool_decide; [apply Z.eqb_eq|apply Z.eqb_neq]; lia.
Qed.
Lemma runs_let_empty {A} (I : pmem → Prop) xs s (k : bool → prog pmem A) (Q : A → pmem → Prop) :
  I s → word (bytes s) (ql_count l) (Z.of_nat (length xs)) →
  runs I (k (bool_decide (xs = []))) s Q → runs I (let* b := queue_is_empty (queue_of l) in k b) s Q.
Proof.
  intros HI Hw HQ. eapply (runs_bind _ _ _ _ (λ b s', b = bool_decide (xs = []) ∧ s' = s)); [|by intros b s' [-> ->]].
  eapply runs_let_read; [done|exact Hw|]. apply runs_ret; [done|]. split; [|done].
  case_bool_decide as E; [by subst|]. destruct xs; [done|]. by apply Z.eqb_neq.
Qed.

(** The last step of every operation: the number of items is updated. *)
Lemma runs_count (I : pmem → Prop) es m0 s n f n' (Q : unit → pmem → Prop) :
  undoes es m0 s → length (bytes s) = N → word (bytes s) (ql_count l) (Z.of_nat n) →
  tail (journal s) + Z.of_nat (record_size usize_bytes) ≤ JOURNAL_SIZE → (∀ c es', undoes es' m0 c → I c) →
  f (Z.of_nat n) = Z.of_nat n' → 
  (∀ s' es', undoes es' m0 s' → bytes s' = list_inserts (ql_count l) (usize_to_bytes (Z.of_nat n')) (bytes s) → Q tt s') →
  runs I (update_var (Z.of_nat (ql_count l)) f) s Q.
Proof.
  intros Hu HN Hw Hsp HI Hf HQ. destruct (lo_vars _ _ Hl (ql_count l)) as [Hal _]; [set_solver|].
  eapply (runs_update_var Hboard I es m0 s (ql_count l) (Z.of_nat n) f); try done.
  - pose proof (lo_N _ _ Hl). pose proof usize_bytes_cases. lia.
  - intros s' es' Hs' Hb _. eapply HQ; [done|]. by rewrite Hb, Hf.
Qed.

Lemma runs_push_back xs x s :
  undoes [] (bytes s) s → length (bytes s) = N → room s 2 → queue_repr l (bytes s) xs → length x = ql_item l →
  runs (rolls_back l (bytes s) xs) (push_back (queue_of l) x) s (λ r s',
    if decide (length xs = ql_length l) then r = Err QueueFull ∧ s' = s
    else r = Ok tt ∧ queue_repr l (bytes s') (xs ++ [x]) ∧ same_outside l (bytes s) (bytes s')).
Proof.
  intros Hu HN Hroom Hq Hx. pose proof Hq as (r & Hr & Hlen & Hrd & Hwr & Hcnt & Hs).
  pose proof (lo_buf _ _ Hl). pose proof (lo_N _ _ Hl). pose proof (lo_item _ _ Hl). pose proof (rolls_back_here xs s Hu Hq) as HI0.
  unfold room in Hroom. unfold push_back. eapply runs_let_full; [done|exact Hcnt|done|].
  destruct (decide (length xs = ql_length l)) as [Hfull|Hfull];
    [rewrite bool_decide_true by done; by apply runs_ret|rewrite bool_decide_false by done].
  eapply runs_let_read; [done|exact Hwr|]. cbn [queue_of q_buffer q_write_pos q_item_size].
  set (n := length xs) in *. pose proof (Nat.mod_upper_bound (r + n) (ql_length l) ltac:(lia)).
  replace (uadd (Z.of_nat (ql_buf l)) _) with (Z.of_nat (slot l (r + n))) by (unfold slot; rewrite uadd_small; nia).
  assert (Hfree : ∀ bs, (length bs ≤ ql_item l)%nat → queue_repr l (list_inserts (slot l (r + n)) bs (bytes s)) xs).
  { intros bs Hbs. apply (repr_free l N Hl _ r); try done. intros i Hi. apply mod_ne; unfold n in *; lia. }
  pose proof (slot_bounds l N Hl (r + n)).
  set (s1 := set_bytes (list_inserts (slot l (r + n)) x) s).
  assert (Hun : ∀ bs, (length bs ≤ ql_item l)%nat →
    undoes [] (list_inserts (slot l (r + n)) bs (bytes s)) (set_bytes (list_inserts (slot l (r + n)) bs) s)).
  { intros bs Hbs. apply undoes_uncovered; [done|constructor|lia]. }
  eapply runs_bind; [apply (runs_write_bytes _ s _ x (λ _ s', s' = s1)); [lia| |done]|].
  { intros k Hk. exists [], (list_inserts (slot l (r + n)) (take k x) (bytes s)).
    assert (length (take k x) ≤ ql_item l)%nat by (rewrite length_take; lia).
    split_and!; [by apply Hun|by apply Hfree|]. eapply same_outside_slot; [done|apply same_outside_refl|done|done]. }
  intros [] ? ->.
  assert (HI : ∀ c es, undoes es (bytes s1) c → rolls_back l (bytes s) xs c).
  { intros c es Hc. exists es, (bytes s1). split_and!; [done|apply Hfree; lia|].
    eapply same_outside_slot; [done|apply same_outside_refl|done|lia]. }
  eapply runs_bind; [apply (runs_advance l N Hl Hboard _ [] (bytes s1) s1 (ql_write l) ((r + n) mod ql_length l)
    (λ _ s', ∃ es, undoes es (bytes s1) s' ∧ tail (journal s') = tail (journal s) + Z.of_nat (record_size usize_bytes) ∧
       bytes s' = list_inserts (ql_write l) (usize_to_bytes (Z.of_nat ((r + S n) mod ql_length l * ql_item l))) (bytes s1)));
    [by apply Hun; lia|cbn; by rewrite length_inserts|set_solver|done|cbn; eapply (word_slot l N Hl); [done..|set_solver|lia]|cbn; lia|done|]|].
  { intros s' es Hs' Hb Ht. exists es. rewrite mod_succ in Hb. by rewrite Nat.add_succ_r. }
  intros [] s2 (es & Hu2 & Ht & Hb2).
  assert (HN2 : length (bytes s2) = N) by (rewrite Hb2; cbn; by rewrite !length_inserts).
  pose proof (vars_ne l N Hl) as (Hrw & Hrc & Hwc). pose proof (lo_length _ _ Hl).
  assert (Hv : ∀ i, (i ≤ ql_length l)%nat → is_usize (Z.of_nat (i * ql_item l))) by (intros i Hi; unfold is_usize; nia).
  assert (Hcu : ∀ i, (i ≤ ql_length l)%nat → is_usize (Z.of_nat i)) by (intros i Hi; unfold is_usize; nia).
  assert (Hrd2 : word (bytes s2) (ql_read l) (Z.of_nat (r * ql_item l))).
  { rewrite Hb2. cbn. words l N Hl. }
  assert (Hcnt2 : word (bytes s2) (ql_count l) (Z.of_nat n)).
  { rewrite Hb2. cbn. words l N Hl. }
  eapply runs_bind; [apply (runs_count _ es (bytes s1) s2 n _ (S n)
    (λ _ s', rolls_back l (bytes s) xs s' ∧ bytes s' = list_inserts (ql_count l) (usize_to_bytes (Z.of_nat (S n))) (bytes s2))); try done;
    [lia|pose proof (Hcu (S n) ltac:(lia)) as [? ?]; rewrite uadd_small; lia|by split; [eapply HI|]]|].
  intros [] s3 [HI3 Hb3]. apply runs_ret; [done|]. split; [done|]. split.
  - exists r. rewrite length_app, Nat.add_1_r. fold n. rewrite Hb3. split_and!; [done|lia|..].
    + words l N Hl.
    + words l N Hl. rewrite Hb2. words l N Hl. apply Hv, Nat.lt_le_incl, Nat.mod_upper_bound. lia.
    + words l N Hl. apply Hcu. lia.
    + eapply slots_word; try done; [|by var|apply length_usize_to_bytes]. rewrite Hb2.
      eapply slots_word; try done; [cbn; by rewrite length_inserts| |by var|apply length_usize_to_bytes].
      apply slots_snoc; [|done|cbn; rewrite <-Hx; apply slice_inserts; lia].
      apply (slots_free l N Hl); [done..|lia|]. intros i Hi. apply mod_ne; unfold n in *; lia.
  - rewrite Hb3, Hb2. repeat (eapply same_outside_var; [done| |cbn; by rewrite ?length_inserts|by var|apply length_usize_to_bytes]).
    eapply same_outside_slot; [done|apply same_outside_refl|done|lia].
Qed.

Lemma bounds_words : (∀ i, (i ≤ ql_length l)%nat → is_usize (Z.of_nat (i * ql_item l))) ∧ (∀ i, (i ≤ ql_length l)%nat → is_usize (Z.of_nat i)).
Proof.
  pose proof (lo_buf _ _ Hl). pose proof (lo_N _ _ Hl). pose proof (lo_item _ _ Hl).
  split; intros i Hi; unfold is_usize; nia.
Qed.

(** The slot before the first one. *)
Lemma prev_slot r : (r < ql_length l)%nat → ∃ r', (r' < ql_length l)%nat ∧ (S r' mod ql_length l = r)%nat ∧
  (if Z.of_nat (r * ql_item l) =? 0 then usub (Z.of_nat (ql_length l * ql_item l)) (Z.of_nat (ql_item l))
   else usub (Z.of_nat (r * ql_item l)) (Z.of_nat (ql_item l))) = Z.of_nat (r' * ql_item l).
Proof.
  intros Hr. pose proof (lo_buf _ _ Hl). pose proof (lo_N _ _ Hl). pose proof (lo_item _ _ Hl).
  destruct r as [|r].
  - destruct (ql_length l) as [|k] eqn:E; [lia|]. exists k. split_and!; [lia|apply Nat.Div0.mod_same|].
    rewrite (proj2 (Z.eqb_eq _ 0)) by lia. rewrite usub_small; nia.
  - exists r. split_and!; [lia|by apply Nat.mod_small|].
    rewrite (proj2 (Z.eqb_neq _ 0)) by nia. rewrite usub_small; nia.
Qed.

Lemma runs_push_front xs x s :
  undoes [] (bytes s) s → length (bytes s) = N → room s 2 → queue_repr l (bytes s) xs → length x = ql_item l →
  runs (rolls_back l (bytes s) xs) (push_front (queue_of l) x) s (λ r s',
    if decide (length xs = ql_length l) then r = Err QueueFull ∧ s' = s
    else r = Ok tt ∧ queue_repr l (bytes s') (x :: xs) ∧ same_outside l (bytes s) (bytes s')).
Proof.
  intros Hu HN Hroom Hq Hx. pose proof Hq as (r & Hr & Hlen & Hrd & Hwr & Hcnt & Hs).
  pose proof (rolls_back_here xs s Hu Hq) as HI0. unfold room in Hroom. unfold push_front.
  eapply runs_let_full; [done|exact Hcnt|done|].
  destruct (decide (length xs = ql_length l)) as [Hfull|Hfull];
    [rewrite bool_decide_true by done; by apply runs_ret|rewrite bool_decide_false by done].
  cbn [queue_of q_buffer q_read_pos q_item_size q_tail].
  pose proof (lo_buf _ _ Hl). pose proof (vars_ne l N Hl) as (Hrw & Hrc & Hwc). destruct bounds_words as [Hv Hcu].
  destruct (prev_slot r Hr) as (r' & Hr' & Er' & Ev). set (n := length xs) in *.
  destruct (lo_vars _ _ Hl (ql_read l)) as [Hal Hap]; [by var|]. pose proof (slot_bounds l N Hl r') as Hsb.
  set (e := word_entry (ql_read l) (bytes s)).
  assert (HI : ∀ c es bs, (length bs ≤ ql_item l)%nat → undoes es (list_inserts (slot l r') bs (bytes s)) c → rolls_back l (bytes s) xs c).
  { intros c es bs Hbs Hc. exists es, (list_inserts (slot l r') bs (bytes s)). split_and!; [done| |].
    - apply (repr_free l N Hl _ r); try done. intros i Hi. rewrite <-Er', mod_shift.
      apply not_eq_sym. replace r' with (r' + 0)%nat at 1 by lia. apply mod_ne; unfold n in *; lia.
    - eapply same_outside_slot; [done|apply same_outside_refl|done|done]. }
  eapply runs_bind; [apply (runs_borrow_mut Hboard _ [] (bytes s) s (ql_read l)
    (λ _ s', bytes s' = bytes s ∧ tail (journal s') = tail (journal s) + Z.of_nat (record_size usize_bytes) ∧ undoes [e] (bytes s) s'));
    [done|by apply (var_object l N Hl); var|lia|lia|intros c es Hc; by apply (HI c es []); [cbn; lia|]|by auto]|].
  intros [] s1 (Hb1 & Ht1 & Hu1).
  apply (runs_let_read _ _ _ (Z.of_nat (r * ql_item l))); [by apply (HI s1 [e] []); [cbn; lia|]|by rewrite Hb1|].
  rewrite Ev. set (s2 := set_bytes (list_inserts (ql_read l) (usize_to_bytes (Z.of_nat (r' * ql_item l)))) s1).
  assert (Hu2 : undoes [e] (bytes s) s2).
  { eapply undoes_covered; [done|by constructor|apply word_entry_covers; [lia|apply length_usize_to_bytes]|].
    rewrite length_usize_to_bytes, Hb1. lia. }
  eapply runs_bind; [apply (runs_write_usize _ s1 (ql_read l) _ (λ _ s', s' = s2));
    [rewrite Hb1; lia|by apply (HI s1 [e] []); [cbn; lia|]|by apply (HI s2 [e] []); [cbn; lia|]|done]|]. intros [] ? ->.
  assert (HN2 : length (bytes s2) = N) by (cbn; by rewrite length_inserts, Hb1).
  apply (runs_let_read _ _ _ (Z.of_nat (r' * ql_item l))); [by apply (HI s2 [e] []); [cbn; lia|]|cbn; rewrite Hb1; words l N Hl; apply Hv; lia|].
  replace (uadd (Z.of_nat (ql_buf l)) _) with (Z.of_nat (slot l r'))
    by (rewrite (slot_index l N Hl); by rewrite Nat.mod_small).
  assert (Hun : ∀ bs, (length bs ≤ ql_item l)%nat →
    undoes [e] (list_inserts (slot l r') bs (bytes s)) (set_bytes (list_inserts (slot l r') bs) s2)).
  { intros bs Hbs. apply undoes_uncovered; [done| |lia]. apply Forall_singleton. cbn [e word_entry e_addr e_old]. rewrite length_slice by lia. unfold apart in *. lia. }
  set (s3 := set_bytes (list_inserts (slot l r') x) s2).
  eapply runs_bind; [apply (runs_write_bytes _ s2 _ x (λ _ s', s' = s3)); [lia| |done]|].
  { intros k Hk. assert (length (take k x) ≤ ql_item l)%nat by (rewrite length_take; lia). eapply HI; [done|by apply Hun]. }
  intros [] ? ->.
  eapply runs_bind; [apply (runs_count _ [e] (list_inserts (slot l r') x (bytes s)) s3 n _ (S n)
    (λ _ s', rolls_back l (bytes s) xs s' ∧ bytes s' = list_inserts (ql_count l) (usize_to_bytes (Z.of_nat (S n))) (bytes s3)))|].
  - by apply Hun; lia.
  - cbn. by rewrite !length_inserts, Hb1.
  - cbn. rewrite Hb1. words l N Hl.
  - cbn in *. lia.
  - intros c es Hc. eapply HI; [|done]. lia.
  - pose proof (Hcu (S n) ltac:(lia)) as [? ?]. rewrite uadd_small; lia.
  - intros s' es Hs' Hb'. split; [|done]. eapply HI; [|done]. lia.
  - intros [] s4 [HI4 Hb4]. apply runs_ret; [done|]. split; [done|]. split.
    + exists r'. cbn [length]. fold n. rewrite Hb4. cbn. rewrite Hb1.
      split_and!; [done|lia|words l N Hl; apply Hv; lia| |words l N Hl; apply Hcu; lia|].
      * rewrite <-mod_shift, Er'. words l N Hl.
      * eapply slots_word; try done; [by rewrite !length_inserts| |by var|apply length_usize_to_bytes].
        apply slots_cons; [|done|rewrite <-Hx; apply slice_inserts; rewrite length_inserts; lia].
        apply slots_mod. rewrite Er'. apply (slots_free l N Hl); [by rewrite length_inserts| |lia|].
        { eapply slots_word; try done; [by var|apply length_usize_to_bytes]. }
        intros i Hi. rewrite <-Er', mod_shift.
        apply not_eq_sym. replace r' with (r' + 0)%nat at 1 by lia. apply mod_ne; unfold n in *; lia.
    + rewrite Hb4. cbn. rewrite Hb1. eapply same_outside_var; [done| |done|by var|apply length_usize_to_bytes].
      eapply same_outside_slot; [done| |done|lia].
      eapply same_outside_var; [done|apply same_outside_refl|done|by var|apply length_usize_to_bytes].
Qed.

Lemma runs_dequeue {T} `{Plain T} xs s :
  size_of T = ql_item l → undoes [] (bytes s) s → length (bytes s) = N → room s 2 → queue_repr l (bytes s) xs →
  runs (rolls_back l (bytes s) xs) (dequeue (T:=T) (queue_of l)) s (λ r s',
    match xs with
    | [] => r = Err QueueEmpty ∧ s' = s
    | x :: xs => r = Ok (of_bytes x) ∧ queue_repr l (bytes s') xs ∧ same_outside l (bytes s) (bytes s')
    end).
Proof.
  intros Hsz Hu HN Hroom Hq. pose proof Hq as (r & Hr & Hlen & Hrd & Hwr & Hcnt & Hs).
  pose proof (rolls_back_here xs s Hu Hq) as HI0. unfold room in Hroom. unfold dequeue. rewrite Hsz.
  eapply runs_let_empty; [done|exact Hcnt|]. destruct xs as [|x xs]; [by apply runs_ret|]. cbn [bool_decide].
  rewrite bool_decide_false by done. cbn [queue_of q_buffer q_read_pos].
  pose proof (lo_buf _ _ Hl). pose proof (vars_ne l N Hl) as (Hrw & Hrc & Hwc). destruct bounds_words as [Hv Hcu].
  pose proof (slot_bounds l N Hl r) as Hsb. cbn [length] in *. set (n := length xs) in *.
  destruct (Hs 0%nat x eq_refl) as [Hx Hslot]. rewrite Nat.add_0_r in Hslot.
  eapply runs_let_read; [done|exact Hrd|].
  replace (uadd (Z.of_nat (ql_buf l)) _) with (Z.of_nat (slot l r)) by (rewrite (slot_index l N Hl); by rewrite Nat.mod_small).
  eapply runs_bind; [apply (runs_read_bytes _ s _ (ql_item l) (λ y s', y = x ∧ s' = s)); [lia|done|done]|]. intros ? ? [-> ->].
  assert (HI : ∀ c es, undoes es (bytes s) c → rolls_back l (bytes s) (x :: xs) c).
  { intros c es Hc. exists es, (bytes s). split_and!; [done|done|apply same_outside_refl]. }
  eapply runs_bind; [apply (runs_advance l N Hl Hboard _ [] (bytes s) s (ql_read l) r
    (λ _ s', ∃ es, undoes es (bytes s) s' ∧ tail (journal s') = tail (journal s) + Z.of_nat (record_size usize_bytes) ∧
       bytes s' = list_inserts (ql_read l) (usize_to_bytes (Z.of_nat (S r mod ql_length l * ql_item l))) (bytes s)));
    [done|done|by var|done|done|lia|done|by eauto]|].
  intros [] s2 (es & Hu2 & Ht2 & Hb2).
  eapply runs_bind; [apply (runs_count _ es (bytes s) s2 (S n) _ n
    (λ _ s', rolls_back l (bytes s) (x :: xs) s' ∧ bytes s' = list_inserts (ql_count l) (usize_to_bytes (Z.of_nat n)) (bytes s2)))|].
  - done.
  - by rewrite Hb2, length_inserts.
  - rewrite Hb2. words l N Hl.
  - lia.
  - done.
  - pose proof (Hcu (S n) ltac:(lia)) as [? ?]. rewrite usub_small; lia.
  - intros s' es' Hs' Hb'. split; [by eapply HI|done].
  - intros [] s3 [HI3 Hb3]. apply runs_ret; [done|]. split; [done|]. rewrite Hb3, Hb2. split.
    + exists (S r mod ql_length l)%nat. split_and!; [by apply Nat.mod_upper_bound; lia|fold n; lia|words l N Hl| |words l N Hl; apply Hcu; fold n; lia|].
      * apply Hv, Nat.lt_le_incl, Nat.mod_upper_bound. lia.
      * fold n. rewrite mod_shift. words l N Hl.
      * apply slots_mod. do 2 (eapply slots_word; [done|by rewrite ?length_inserts| |by var|apply length_usize_to_bytes]).
        intros i y Hy. specialize (Hs (S i) y Hy). by replace (S r + i)%nat with (r + S i)%nat by lia.
    + do 2 (eapply same_outside_var; [done| |done|by var|apply length_usize_to_bytes]). apply same_outside_refl.
Qed.
End operations.
