(* ===== verification/QueueOps.v ===== *)
(** * Sending and receiving

    The transactions of the queue's system calls are atomic under power failures;
    an attempt, in the kernel, serves the call and wakes a task of the other side,
    or blocks the caller, or fails. *)

From Stdlib Require Import Sorting.Sorted.
From S2P Require Import Prelude Arch Pmem PmemSpec TxCache Transaction TxAttempt Replay UserTx Util PVar PList PListUpd PListSeg.
From S2P Require Import PListSorted PListLinear ListRepr Kernel ListTx Sched SchedInv SchedDemo SchedSpec SchedVal SchedOps.
From S2P Require Import Blocking BlockingOps Queue QueueRing.

(** *** The transactions *)

Section tx.
Context `{Arch, Board, TxFeatures} (Hboard : board_ok).
Context (l : qlayout) (N : nat) (Hl : layout_ok l N).
Implicit Types (xs : list (list Z)) (x m : list Z).

Definition sent (back : bool) xs x : list (list Z) := if back then xs ++ [x] else x :: xs.
Definition two_records : Prop := 2 * Z.of_nat (record_size usize_bytes) ≤ JOURNAL_SIZE.

(** The memory before, and after with the result. *)
Definition holds_items m xs m' : Prop := queue_repr l m' xs ∧ same_outside l m m'.
Definition send_result back m xs x (r : Result unit ErrorCode) m' : Prop :=
  match r with
  | Ok _ => length xs ≠ ql_length l ∧ holds_items m (sent back xs x) m'
  | Err TxRetry => length xs = ql_length l ∧ m' = m ∧ queue_repr l m xs
  | Err _ => False
  end.
Definition receive_result {T} `{Plain T} m xs (r : Result T ErrorCode) m' : Prop :=
  match r with
  | Ok v => ∃ x ys, xs = x :: ys ∧ v = of_bytes x ∧ holds_items m ys m'
  | Err TxRetry => xs = [] ∧ m' = m ∧ queue_repr l m xs
  | Err _ => False
  end.

Lemma runs_map {S A B} (I : S → Prop) (p : prog S A) (g : A → B) s (Q : A → S → Prop) (R : B → S → Prop) :
  runs I p s Q → (∀ a s', Q a s' → R (g a) s') → runs I (let* r := p in Ret (g r)) s (λ r s', R r s' ∧ I s').
Proof.
  intros Hp HR. pose proof (runs_always _ _ _ _ Hp) as Hal. destruct Hp as [_ (a & s' & E & HQ)].
  assert (HI : I s') by by eapply always_final.
  eapply runs_bind; [apply (runs_intro _ _ _ a s' (λ a' s'', a' = a ∧ s'' = s')); done|].
  intros ? ? [-> ->]. apply runs_ret; [done|]. split; [by apply HR|done].
Qed.

Lemma empty_tail m s : undoes [] m s → tail (journal s) = 0.
Proof.
  intros ((_ & _ & _ & l0 & rest & _ & -> & Hr) & _). inversion Hr as [|? es e]; [done|].
  exfalso. by apply (app_cons_not_nil es [] e).
Qed.
Lemma room_two s : undoes [] (bytes s) s → two_records → room s 2.
Proof. intros Hu%empty_tail Htwo. unfold room, two_records in *. rewrite Hu. lia. Qed.

Lemma runs_send_tx back xs x s :
  undoes [] (bytes s) s → two_records → length (bytes s) = N → queue_repr l (bytes s) xs →
  length x = ql_item l →
  runs (rolls_back_ok (holds_items (bytes s) xs)) (send_tx (queue_of l) x back) s
    (λ r s', send_result back (bytes s) xs x r (bytes s') ∧ rolls_back_ok (holds_items (bytes s) xs) s').
Proof.
  intros Hu Htwo HN Hq Hx. pose proof (room_two s Hu Htwo) as Hroom. unfold send_tx.
  apply (runs_map _ _ _ _ (λ r s', if decide (length xs = ql_length l) then r = Err QueueFull ∧ s' = s
    else r = Ok tt ∧ queue_repr l (bytes s') (sent back xs x) ∧ same_outside l (bytes s) (bytes s'))
    (λ r s', send_result back (bytes s) xs x r (bytes s'))).
  - destruct back; [by apply (runs_push_back Hboard l N Hl)|by apply (runs_push_front Hboard l N Hl)].
  - intros r s' Hr. case_decide; [by destruct Hr as [-> ->]|by destruct Hr as (-> & ? & ?)].
Qed.
Lemma runs_receive_tx {T} `{Plain T} xs s :
  undoes [] (bytes s) s → two_records → length (bytes s) = N → queue_repr l (bytes s) xs →
  size_of T = ql_item l →
  runs (rolls_back_ok (holds_items (bytes s) xs)) (receive_tx (T := T) (queue_of l)) s
    (λ r s', receive_result (bytes s) xs r (bytes s') ∧ rolls_back_ok (holds_items (bytes s) xs) s').
Proof.
  intros Hu Htwo HN Hq Hsz. pose proof (room_two s Hu Htwo) as Hroom. unfold receive_tx.
  eapply (runs_map _ _ _ _ _ (λ r s', receive_result (bytes s) xs r (bytes s'))).
  - by apply (runs_dequeue Hboard l N Hl xs).
  - intros r s' Hr. destruct xs as [|y ys]; [by destruct Hr as [-> ->]|].
    destruct Hr as (-> & ? & ?). by exists y, ys.
Qed.
End tx.

(** *** Atomicity *)

Section atomic.
Context `{Arch, Board, TxFeatures} (Hboard : board_ok) (Hopt : opt_tx_cache_space = true) (Hcache : cache_ok).
Context (l : qlayout) (n : nat) (bs : list Z) (xs : list (list Z)).

(** The store before a transaction: [n] results are behind, and the queue holds [xs]. *)
Definition before (b : bool) (c : tx_state) : Prop :=
  layout_ok l (length (bytes (tx_pm c))) ∧ two_records ∧
  ready b n n (length bs) bs (bytes (tx_pm c)) c ∧ queue_repr l (bytes (tx_pm c)) xs.

Lemma send_tx_runs `{PlainLaws (Result unit ErrorCode)} b x back c :
  before b c → fits (T := Result unit ErrorCode) n (length bs) → length x = ql_item l →
  runs (all_or_nothing n bs (holds_items l (bytes (tx_pm c)) xs) (send_result l back (bytes (tx_pm c)) xs x))
    (try_run_relaxed (send_tx (queue_of l) x back)) c
    (attempted n bs (send_result l back (bytes (tx_pm c)) xs x)).
Proof.
  intros (Hl & Htwo & Hr & Hq) Hfit Hx. set (m := bytes (tx_pm c)).
  assert (HJ : holds_items l m xs m) by (split; [done|apply same_outside_refl]).
  eapply (try_run_attempt Hopt Hcache); try done.
  - intros m' (_ & -> & _). done.
  - apply (runs_send_tx Hboard l _ Hl); try done. apply Hr.
Qed.
Lemma receive_tx_runs {T} `{Plain T, PlainLaws (Result T ErrorCode)} b c :
  before b c → fits (T := Result T ErrorCode) n (length bs) → size_of T = ql_item l →
  runs (all_or_nothing n bs (holds_items l (bytes (tx_pm c)) xs) (receive_result l (bytes (tx_pm c)) xs))
    (try_run_relaxed (receive_tx (T := T) (queue_of l))) c
    (attempted n bs (receive_result l (bytes (tx_pm c)) xs)).
Proof.
  intros (Hl & Htwo & Hr & Hq) Hfit Hx. set (m := bytes (tx_pm c)).
  assert (HJ : holds_items l m xs m) by (split; [done|apply same_outside_refl]).
  eapply (try_run_attempt Hopt Hcache); try done.
  - intros m' (_ & -> & _). done.
  - apply (runs_receive_tx Hboard l _ Hl); try done. apply Hr.
Qed.
End atomic.

Lemma attempted_memory `{Arch, Board, TxFeatures} {T} `{Plain (Result T ErrorCode)} n bs K (r : Result T ErrorCode) d :
  attempted n bs K r d → K r (bytes (tx_pm d)).
Proof.
  intros (m' & HK & Hd). assert (bytes (tx_pm d) = m') as ->; [|done].
  destruct (is_retry r); destruct Hd as [_ _ (_ & _ & E') _ _]; by cbn in E'.
Qed.

(** C16: Sending is atomic: the transaction appends (or prepends) the item if the
    queue is not full and asks for a retry, with the memory unchanged, if it is;
    a power failure at any point of it leaves a store from which recovery obtains
    a queue without the item and the transaction not counted, or with the item
    and the transaction counted. Nothing outside of the queue changes. *)
Theorem queue_send_atomic `{Arch, Board, TxFeatures} `{PlainLaws (Result unit ErrorCode)} l n bs xs b x back c :
  board_ok → opt_tx_cache_space = true → cache_ok →
  before l n bs xs b c → fits (T := Result unit ErrorCode) n (length bs) → length x = ql_item l →
  let p := try_run_relaxed (send_tx (queue_of l) x back) in
  let m := bytes (tx_pm c) in
  (∃ r d, exec p c = Done r d ∧ send_result l back m xs x r (bytes (tx_pm d))) ∧
  ∀ c', c' ∈ crash_states p c → ∃ d, exec roll_back_if_uncommitted c' = Done tt d ∧
    same_outside l m (bytes (tx_pm d)) ∧
    (queue_repr l (bytes (tx_pm d)) xs ∧ get_tx_id_of_tail (tx_cache d) = Z.of_nat n ∨
     queue_repr l (bytes (tx_pm d)) (sent back xs x) ∧ get_tx_id_of_tail (tx_cache d) = Z.of_nat (S n)).
Proof.
  intros Hboard Hopt Hcache Hb Hfit Hx p m.
  pose proof (send_tx_runs Hboard Hopt Hcache l n bs xs b x back c Hb Hfit Hx) as Hr. split.
  - destruct (runs_exec _ _ _ _ Hr) as (r & d & E & Hd). exists r, d. split; [done|]. by apply attempted_memory in Hd.
  - intros c' Hc'. destruct (recovered Hboard Hopt Hcache n bs _ _ c' (runs_always _ _ _ _ Hr c' Hc')) as (d & E & HJK).
    exists d. split; [done|]. destruct HJK as [[[Hq Ho] Hid]|(r & Hne & HK & _ & Hid)]; [by split; [|left]|].
    destruct r as [|[]]; try done. destruct HK as (_ & Hq & Ho). split; [done|]. by right.
Qed.

(** C17: So is receiving: it takes the first item, or asks for a retry when there
    is none; a power failure at any point leaves a store from which recovery
    obtains the queue with the item and the transaction not counted, or without
    it, the transaction counted, and the item as its cached result. *)
Theorem queue_receive_atomic `{Arch, Board, TxFeatures} {T} `{Plain T, PlainLaws (Result T ErrorCode)} l n bs xs b c :
  board_ok → opt_tx_cache_space = true → cache_ok →
  before l n bs xs b c → fits (T := Result T ErrorCode) n (length bs) → size_of T = ql_item l →
  let p := try_run_relaxed (receive_tx (T := T) (queue_of l)) in
  let m := bytes (tx_pm c) in
  (∃ r d, exec p c = Done r d ∧ receive_result l m xs r (bytes (tx_pm d))) ∧
  ∀ c', c' ∈ crash_states p c → ∃ d, exec roll_back_if_uncommitted c' = Done tt d ∧
    same_outside l m (bytes (tx_pm d)) ∧
    (queue_repr l (bytes (tx_pm d)) xs ∧ get_tx_id_of_tail (tx_cache d) = Z.of_nat n ∨
     ∃ x ys, xs = x :: ys ∧ queue_repr l (bytes (tx_pm d)) ys ∧
       cache_repr true (S n) (bs ++ to_bytes (Ok (of_bytes x) : Result T ErrorCode)) (tx_cache d)).
Proof.
  intros Hboard Hopt Hcache Hb Hfit Hx p m.
  pose proof (receive_tx_runs Hboard Hopt Hcache l n bs xs b c Hb Hfit Hx) as Hr. split.
  - destruct (runs_exec _ _ _ _ Hr) as (r & d & E & Hd). exists r, d. split; [done|]. by apply attempted_memory in Hd.
  - intros c' Hc'. destruct (recovered Hboard Hopt Hcache n bs _ _ c' (runs_always _ _ _ _ Hr c' Hc')) as (d & E & HJK).
    exists d. split; [done|]. destruct HJK as [[[Hq Ho] Hid]|(r & Hne & HK & Hc & Hid)]; [by split; [|left]|].
    destruct r as [|[]]; try done. destruct HK as (x & ys & -> & -> & Hq & Ho). split; [done|]. right. by exists x, ys.
Qed.

(** *** Attempts in the kernel *)

Section kernel.
Context `{Arch, Board, TxFeatures} (Hboard : board_ok) (Hopt : opt_tx_cache_space = true) (Hcache : cache_ok) (time_bits : Z).
Context (l : qlayout) (n : nat) (bs : list Z) (xs : list (list Z)).

(** Task [t] makes a system call on the queue. *)
Definition queue_call (k : kernel) (C : contents) (t : nat) (b : tcb) (bb : bool) : Prop :=
  kinv k C None ∧ waiters_blocked (tasks k) C ∧ in_syscall k t b ∧ cpu_ok k ∧ before l n bs xs bb (tx_of k b).
End kernel.

Lemma send_attempt_spec `{Arch, Board, TxFeatures} `{PlainLaws (Result unit ErrorCode)}
    time_bits l n bs xs k C t b bb x back wait_ticks wakeup rs ws o :
  board_ok → opt_tx_cache_space = true → cache_ok → queue_call l n bs xs k C t b bb →
  fits (T := Result unit ErrorCode) n (length bs) → length x = ql_item l →
  C !! WaitList (ql_readers l) = Some rs → C !! WaitList (ql_writers l) = Some ws → free (ls k) (EventNode t) (BlockItem t o) →
  let r := exec (send_attempt time_bits (queue_of l) t x back wait_ticks wakeup) k in
  if decide (length xs = ql_length l) then
    turned_away time_bits k C t o (ql_writers l) wait_ticks wakeup (Err QueueFull) (λ m, m = kmem k ∧ queue_repr l m xs) r
  else served k C t rs (Ok tt) (λ m, queue_repr l m (sent back xs x) ∧ same_outside l (kmem k) m) r.
Proof.
  intros Hboard Hopt Hcache (Hk & Hw & Hsc & Hcpu & Hb) Hfit Hx HCr HCw Hf r.
  destruct (runs_exec _ _ _ _ (send_tx_runs Hboard Hopt Hcache l n bs xs bb x back (tx_of k b) Hb Hfit Hx)) as (res & d & E & HK%attempted_memory).
  case_decide as Hfull; destruct res as [[]|[]]; try done; try (by destruct HK as [? _]).
  - destruct HK as (_ & Hm & Hq).
    eapply turned_away_mono; [|by apply (attempt_refused time_bits _ (ql_readers l) (ql_writers l) (λ _, Ok tt) (Err QueueFull) k C t b d Hk Hw Hsc Hcpu _ ws wait_ticks wakeup o E)].
    intros m ->. rewrite Hm. by split.
  - destruct HK as (_ & Hq & Ho).
    eapply served_mono; [|by apply (attempt_served time_bits _ (ql_readers l) (ql_writers l) (λ _, Ok tt) (Err QueueFull) k C t b d Hk Hw Hsc Hcpu _ rs wait_ticks wakeup E)].
    intros m ->. by split.
Qed.

(** C18: An attempt to send: with room in the queue the item is appended (or
    prepended) and the first waiting receiver is woken; without, the call fails
    at once if it must not wait, and else the caller blocks on the senders' wait
    list until the timeout. The queue keeps its items in order in every case. *)
Theorem queue_send_attempt_correct `{Arch, Board, TxFeatures} `{PlainLaws (Result unit ErrorCode)}
    time_bits l n bs xs k C t b bb x back wait_ticks wakeup rs ws o :
  board_ok → opt_tx_cache_space = true → cache_ok → queue_call l n bs xs k C t b bb →
  fits (T := Result unit ErrorCode) n (length bs) → length x = ql_item l →
  C !! WaitList (ql_readers l) = Some rs → C !! WaitList (ql_writers l) = Some ws → free (ls k) (EventNode t) (BlockItem t o) →
  let r := exec (send_attempt time_bits (queue_of l) t x back wait_ticks wakeup) k in
  if decide (length xs = ql_length l) then
    turned_away time_bits k C t o (ql_writers l) wait_ticks wakeup (Err QueueFull) (λ m, m = kmem k ∧ queue_repr l m xs) r
  else served k C t rs (Ok tt) (λ m, queue_repr l m (sent back xs x) ∧ same_outside l (kmem k) m) r.
Proof. apply send_attempt_spec. Qed.

(** C19: An attempt to receive: the first item is taken and returned and the first
    waiting sender is woken; when there is none the call fails at once or the
    caller blocks on the receivers' wait list. *)
Theorem queue_receive_attempt_correct `{Arch, Board, TxFeatures} {T} `{Plain T, PlainLaws (Result T ErrorCode)}
    time_bits l n bs xs k C t b bb wait_ticks wakeup rs ws o :
  board_ok → opt_tx_cache_space = true → cache_ok → queue_call l n bs xs k C t b bb →
  fits (T := Result T ErrorCode) n (length bs) → size_of T = ql_item l →
  C !! WaitList (ql_readers l) = Some rs → C !! WaitList (ql_writers l) = Some ws → free (ls k) (EventNode t) (BlockItem t o) →
  let r := exec (receive_attempt (T := T) time_bits (queue_of l) t wait_ticks wakeup) k in
  match xs with
  | [] => turned_away time_bits k C t o (ql_readers l) wait_ticks wakeup (Err QueueEmpty) (λ m, m = kmem k ∧ queue_repr l m []) r
  | x :: ys => served k C t ws (Ok (of_bytes x)) (λ m, queue_repr l m ys ∧ same_outside l (kmem k) m) r
  end.
Proof.
  intros Hboard Hopt Hcache (Hk & Hw & Hsc & Hcpu & Hb) Hfit Hx HCr HCw Hf r.
  destruct (runs_exec _ _ _ _ (receive_tx_runs Hboard Hopt Hcache l n bs xs bb (tx_of k b) Hb Hfit Hx)) as (res & d & E & HK%attempted_memory).
  destruct res as [v|[]]; try done.
  - destruct HK as (x & ys & -> & -> & Hq & Ho).
    eapply served_mono; [|by apply (attempt_served time_bits _ (ql_writers l) (ql_readers l) (λ v, Ok v) (Err QueueEmpty) k C t b d Hk Hw Hsc Hcpu _ ws wait_ticks wakeup E)].
    intros m ->. by split.
  - destruct HK as (-> & Hm & Hq).
    eapply turned_away_mono; [|by apply (attempt_refused time_bits _ (ql_writers l) (ql_readers l) (λ v, Ok v) (Err QueueEmpty) k C t b d Hk Hw Hsc Hcpu _ rs wait_ticks wakeup o E)].
    intros m ->. rewrite Hm. by split.
Qed.

(** Task [t] may attempt to send. *)
Definition sendable `{Arch, Board, TxFeatures} `{Plain (Result unit ErrorCode)} (l : qlayout) (t : nat) (k : kernel) : Prop :=
  ∃ n bs xs C b bb rs ws o, queue_call l n bs xs k C t b bb ∧ fits (T := Result unit ErrorCode) n (length bs) ∧
    C !! WaitList (ql_readers l) = Some rs ∧ C !! WaitList (ql_writers l) = Some ws ∧ free (ls k) (EventNode t) (BlockItem t o).

(** C22: A send with a timeout. The caller, each time it has given up the processor, runs
    again some time and can attempt to send again; the clock does not go back. Then
    every attempt that blocks sleeps until the same deadline, and behind any number of
    wake-ups the call has returned, with success, or with an error and not before the
    deadline, unless the deadline is still to come. So it returns if the caller is
    woken at most [B] times more often than the clock ticks. *)
Theorem queue_send_returns `{Arch, Board, TxFeatures} `{PlainLaws (Result unit ErrorCode)}
    time_bits l t x back yield wait_ticks (P : kernel → Prop) k :
  board_ok → opt_tx_cache_space = true → cache_ok → length x = ql_item l →
  P k → 0 ≤ wait_ticks → (∀ k, P k → sendable l t k) → current_task k = Some t →
  let until := tick_counter (tm k) + wait_ticks in
  until ≤ MAX_DELAY_TIME time_bits →
  (∀ k0 k1 wakeup, P k0 → tick_counter (tm k0) < until →
     exec (send_attempt time_bits (queue_of l) t x back (until - tick_counter (tm k0)) wakeup) k0 = Done (Yield until) k1 →
     ∃ k2, exec yield k1 = Done tt k2 ∧ tick_counter (tm k1) ≤ tick_counter (tm k2) ∧ P k2) →
  let returns n := ∃ r k', exec (queue_send_impl time_bits (S n) yield (queue_of l) x wait_ticks back) k = Done r k' ∧
    (r = Ok tt ∨ r = Err QueueFull ∧ until ≤ tick_counter (tm k')) in
  let waited n k' := waits yield (send_attempt time_bits (queue_of l) t x back) until n None k k' in
  (∀ n, returns n ∨ ∃ k', waited n k' ∧ tick_counter (tm k') < until) ∧
  (∀ B, (∀ n k', waited n k' → Z.of_nat n ≤ tick_counter (tm k') - tick_counter (tm k) + Z.of_nat B) → returns (Z.to_nat wait_ticks + B)%nat).
Proof.
  intros Hboard Hopt Hcache Hx HP Hw0 Hsend Hcur until Hmax Hyield returns waited.
  assert (Hrem : wait_ticks = remaining until k) by (unfold remaining, until; lia).
  assert (Hall : ∀ n, returns n ∨ ∃ k', waited n k' ∧ tick_counter (tm k') < until).
  { intros n. unfold returns, queue_send_impl. rewrite (exec_bind_done _ _ _ _ _ (exec_current _ _ Hcur)). rewrite Hrem.
    destruct (retry_progress yield (send_attempt time_bits (queue_of l) t x back) P (λ r wt, r = Ok tt ∨ r = Err QueueFull ∧ wt = 0) until) with
      (n := n) (k := k) (wakeup := @None Z) as [(r & k' & Ex & Hr)|Hw]; [|done|left; split; [done|lia]| |by right].
    2:{ left. exists r, k'. split; [exact Ex|]. destruct Hr as [?|[? Hz]]; [by left|right; split; [done|]]. unfold remaining in Hz. lia. }
    clear Hcur Hrem returns waited. clearbody until. clear k HP Hw0. intros k wakeup HP Hwk.
    destruct (Hsend k HP) as (n1 & bs & xs & C & b & bb & rs & ws & o & Hc & Hfit & HCr & HCw & Hf).
    pose proof (send_attempt_spec time_bits l n1 bs xs k C t b bb x back (remaining until k) wakeup rs ws o
      Hboard Hopt Hcache Hc Hfit Hx HCr HCw Hf) as Hatt. cbn zeta in Hatt. case_decide.
    - unfold turned_away in Hatt. destruct (Z.eqb_spec (remaining until k) 0) as [Ez|Ez].
      + destruct Hatt as (k1 & Ex & _ & _ & _ & _ & Etm & _). exists (Exit (Err QueueFull)), k1. split; [done|]. by rewrite Etm; auto.
      + rewrite (wake_time_remaining time_bits until k wakeup Hwk Hmax Ez) in Hatt.
        destruct Hatt as (k1 & Ex & _ & _ & _ & _ & _ & Etm & _). exists (Yield until), k1. split_and!; try done.
        apply (Hyield k k1 wakeup HP); unfold remaining in Ez; [lia|]. rewrite <-Ex. do 2 f_equal. unfold remaining. lia.
    - destruct Hatt as (k1 & C' & ts & Ex & _ & _ & _ & _ & _ & _ & Etm & _). exists (Exit (Ok tt)), k1. rewrite Etm. auto. }
  split; [exact Hall|]. intros B HB. destruct (Hall (Z.to_nat wait_ticks + B)%nat) as [?|(k' & Hw & Hlt)]; [done|].
  specialize (HB _ _ Hw). unfold until in Hlt. lia.
Qed.

(** Waiting for an item: on an empty queue the caller sleeps on the readers' list,
    for the given ticks or as long as possible. *)
Lemma queue_block_spec `{Arch, Board, TxFeatures} time_bits l k C t b yield wait_ticks forever ws o :
  kinv k C None → waiters_blocked (tasks k) C → in_syscall k t b → cpu_ok k → queue_repr l (kmem k) [] →
  C !! WaitList (ql_readers l) = Some ws → free (ls k) (EventNode t) (BlockItem t o) →
  let r := exec (queue_block_until_not_empty time_bits yield (queue_of l) wait_ticks forever) k in
  match (if forever : bool then Some (MAX_DELAY_TIME time_bits) else time_checked_add time_bits (tick_counter (tm k)) wait_ticks) with
  | Some w => ∃ k', r = exec yield k' ∧ kinv k' (block_on (tasks k) (ql_readers l) t o w C) None ∧
      waiters_blocked (tasks k') (block_on (tasks k) (ql_readers l) t o w C) ∧ fell_asleep t w k k'
  | None => r = Failed Panic
  end.
Proof.
  intros Hk Hw Hsc Hcpu (rp & _ & _ & _ & _ & Hcount & _) HC Hf r.
  assert (Hsc0 : in_syscall (masked k) t b) by by destruct Hsc.
  set (d := with_pm (tx_pm (tx_of k b)) (tx_of k b)).
  assert (Ee : exec (zoom (S := pmem) (queue_is_empty (queue_of l))) (tx_of (masked k) b) = Done true d).
  { apply (exec_zoom_done (Lens0 := pm_lens) _ (tx_of k b)). unfold queue_is_empty.
    by rewrite (exec_bind_done _ _ _ _ _ (exec_read_usize (tx_pm (tx_of k b)) (ql_count l) 0 Hcount)). }
  set (k1 := tx_upd t d (masked k)).
  assert (E1 : exec (kernel_pm (queue_is_empty (queue_of l))) (masked k) = Done true k1) by exact (exec_kernel_tx _ (masked k) t b _ _ Hsc0 Ee).
  unfold r, queue_block_until_not_empty. run (exec_current _ _ (sc_current _ _ _ Hsc)).
  assert (Ew : exec (if forever then Ret (MAX_DELAY_TIME time_bits) else
      let* now := get_ticks in unwrap (time_checked_add time_bits now wait_ticks)) k1 =
    match (if forever then Some (MAX_DELAY_TIME time_bits) else time_checked_add time_bits (tick_counter (tm k)) wait_ticks) with
    | Some w => Done w k1 | None => Failed Panic end) by (destruct forever; [done|]; cbn; by destruct (time_checked_add _ _ _)).
  destruct (if forever then Some (MAX_DELAY_TIME time_bits) else _) as [w|].
  - destruct (block_step k C t b d Hk Hw Hsc (ql_readers l) w ws o HC Hf) as (k2 & Ex & Hk2 & Hw2 & Hst & Em & Ecpu & Et & Eu & Ec & Hidle).
    exists (lset (kcpu k) k2). split.
    + rewrite (exec_bind_done _ _ _ true (lset (kcpu k) k2)); [done|]. apply exec_critical; [done| |done].
      run E1. run Ew. by run Ex.
    + split; [done|]. split; [done|]. split_and!; try done. by rewrite (sc_current _ _ _ Hsc).
  - rewrite exec_bind, (exec_critical_fail _ _ Panic); [done|done|]. run E1. by rewrite exec_bind, Ew.
Qed.

Module example.
Import SchedOps.example.
#[local] Existing Instances cortex_m qemu default_features.
Import BlockingOps.calls.
#[local] Existing Instances plain_result_bool plain_result_bool_laws plain_result_unit plain_result_unit_laws.

(** A queue of two one-byte items with one item in it. *)
Definition lay (readers writers : nat) : qlayout := QLayout 2 1 0 4 8 12 readers writers.
Definition words (vs : list Z) : list Z := mjoin (usize_to_bytes <$> vs).
Definition one_item : list Z := [1; 9; 0; 0] ++ words [0; 1; 1].

Lemma lay_ok r w : layout_ok (lay r w) (length one_item).
Proof.
  split; [vm_compute; lia|vm_compute; lia|vm_compute; lia| |left; vm_compute; lia|left; vm_compute; lia|left; vm_compute; lia|by vm_compute].
  intros a Ha. cbn in Ha. repeat (apply elem_of_cons in Ha as [->|Ha]); [..|by inversion Ha];
    (split; [by vm_compute; lia|right; by vm_compute; lia]).
Qed.
Lemma one_item_repr r w : queue_repr (lay r w) one_item [[1]].
Proof.
  exists 0%nat. split_and!; try (vm_compute; lia); try (split_and!; [vm_compute; lia|reflexivity|by vm_compute]).
  intros [|i] x Hx; [|by destruct i]. by injection Hx as <-.
Qed.
Lemma demo_before r w : before (lay r w) 0 [] [[1]] false (fresh_tx one_item).
Proof. split_and!; [exact (lay_ok r w)|by vm_compute|apply demo_ready|exact (one_item_repr r w)]. Qed.
Lemma demo_queue_call r w : queue_call (lay r w) 0 [] [[1]] (demo_with one_item) demo_contents 0 (demo_task 1 Running) false.
Proof.
  split_and!; [apply demo_with_kinv|exact demo_waiters|apply demo_in_syscall|apply demo_cpu_ok|exact (demo_before r w)].
Qed.

Lemma queue_send_atomic_witness :
  ∃ r d, exec (try_run_relaxed (send_tx (queue_of (lay 0 1)) [7] true)) (fresh_tx one_item) = Done r d ∧
    send_result (lay 0 1) true one_item [[1]] [7] r (bytes (tx_pm d)).
Proof.
  exact (proj1 (queue_send_atomic (lay 0 1) 0 [] [[1]] false [7] true (fresh_tx one_item) UserTx.example.board_ok_qemu eq_refl
    demo_cache_ok (demo_before 0 1) demo_fits_unit eq_refl)).
Defined.
Lemma queue_receive_atomic_witness :
  ∃ r d, exec (try_run_relaxed (receive_tx (T := bool) (queue_of (lay 0 1)))) (fresh_tx one_item) = Done r d ∧
    receive_result (lay 0 1) one_item [[1]] r (bytes (tx_pm d)).
Proof.
  exact (proj1 (queue_receive_atomic (T := bool) (lay 0 1) 0 [] [[1]] false (fresh_tx one_item) UserTx.example.board_ok_qemu eq_refl
    demo_cache_ok (demo_before 0 1) demo_fits_bool eq_refl)).
Defined.

(** Task 2 waits for the queue and is woken. *)
Lemma queue_send_attempt_correct_witness :
  served (demo_with one_item) demo_contents 0 [(EventNode 2, BlockItem 2 0)] (Ok tt : Result unit QueueErr)
    (λ m, queue_repr (lay 0 1) m [[1]; [7]] ∧ same_outside (lay 0 1) one_item m)
    (exec (send_attempt 32 (queue_of (lay 0 1)) 0 [7] true 0 None) (demo_with one_item)).
Proof.
  exact (queue_send_attempt_correct 32 (lay 0 1) 0 [] [[1]] (demo_with one_item) demo_contents 0 (demo_task 1 Running) false [7] true 0
    None _ _ 0 UserTx.example.board_ok_qemu eq_refl demo_cache_ok (demo_queue_call 0 1) demo_fits_unit eq_refl eq_refl eq_refl (demo_free _)).
Defined.
Lemma queue_receive_attempt_correct_witness :
  served (demo_with one_item) demo_contents 0 [(EventNode 2, BlockItem 2 0)] (Ok true : Result bool QueueErr)
    (λ m, queue_repr (lay 1 0) m [] ∧ same_outside (lay 1 0) one_item m)
    (exec (receive_attempt (T := bool) 32 (queue_of (lay 1 0)) 0 0 None) (demo_with one_item)).
Proof.
  exact (queue_receive_attempt_correct (T := bool) 32 (lay 1 0) 0 [] [[1]] (demo_with one_item) demo_contents 0 (demo_task 1 Running) false 0
    None _ _ 0 UserTx.example.board_ok_qemu eq_refl demo_cache_ok (demo_queue_call 1 0) demo_fits_bool eq_refl eq_refl eq_refl (demo_free _)).
Defined.

(** A full queue at tick [now]; whoever gives up the processor finds it full
    again at tick 5. *)
Definition two_items : list Z := [1; 2; 0; 0] ++ words [0; 0; 2].
Definition full_at (now : Z) : kernel := with_tm (λ m, Build_TimeManager now (next_unblock_time m) (next_expiry_time m)) (demo_with two_items).
Lemma full_call now : queue_call (lay 0 1) 0 [] [[1]; [2]] (full_at now) demo_contents 0 (demo_task 1 Running) false.
Proof.
  split; [exact demo_kinv|]. split; [exact demo_waiters|]. split; [by split|]. split; [split; [by vm_compute|done]|].
  split; [|split; [by vm_compute|split; [apply demo_ready|]]].
  - exact (lay_ok 0 1).
  - exists 0%nat. split_and!; try (vm_compute; lia); try (split_and!; [vm_compute; lia|reflexivity|by vm_compute]).
    intros [|[|i]] y Hy; [by injection Hy as <-|by injection Hy as <-|by destruct i].
Qed.
Lemma full_free now : free (ls (full_at now)) (EventNode 0) (BlockItem 0 0).
Proof. eexists. by split_and!. Qed.
Lemma full_sendable now : sendable (lay 0 1) 0 (full_at now).
Proof.
  exists 0%nat, [], [[1]; [2]], demo_contents, (demo_task 1 Running), false, [(EventNode 2, BlockItem 2 0)], [], 0.
  split; [apply full_call|]. split; [exact demo_fits_unit|]. split; [reflexivity|]. split; [reflexivity|apply full_free].
Qed.
(** The clock does not move during an attempt. *)
Lemma full_attempt now w wakeup r k1 :
  exec (send_attempt 32 (queue_of (lay 0 1)) 0 [7] true w wakeup) (full_at now) = Done r k1 → tick_counter (tm k1) = now.
Proof.
  pose proof (send_attempt_spec 32 (lay 0 1) 0 [] [[1]; [2]] (full_at now) demo_contents 0 (demo_task 1 Running) false [7] true w wakeup
    _ _ 0 UserTx.example.board_ok_qemu demo_opt demo_cache_ok (full_call now) demo_fits_unit eq_refl eq_refl eq_refl (full_free now)) as Ha.
  cbn zeta in Ha. rewrite decide_True in Ha by done. intros E. rewrite E in Ha. unfold turned_away in Ha.
  destruct (w =? 0); [|destruct (wake_time _ _ _ _); [|done]].
  - destruct Ha as (k' & [= _ ->] & _ & _ & _ & _ & -> & _). done.
  - destruct Ha as (k' & [= _ ->] & _ & _ & _ & _ & _ & -> & _). done.
Qed.

Definition sleep_to_5 : prog kernel unit := modify (λ _, full_at 5).
Lemma full_waits n k' :
  waits sleep_to_5 (send_attempt 32 (queue_of (lay 0 1)) 0 [7] true) 5 n None (full_at 4) k' → Z.of_nat n ≤ tick_counter (tm k') - 4 + 0.
Proof.
  intros Hw. inversion Hw as [|n1 ? ? k1 k2 ? _ E2 Hw1]; subst; [by vm_compute|].
  cbn in E2. injection E2 as <-. inversion Hw1 as [|n2 ? ? k3 k4 ? E3 _ _]; subst; [by vm_compute|]. by vm_compute in E3.
Qed.
Lemma queue_send_returns_witness :
  ∃ r k', exec (queue_send_impl 32 2 sleep_to_5 (queue_of (lay 0 1)) [7] 1 true) (full_at 4) = Done r k' ∧
    (r = Ok tt ∨ r = Err QueueFull ∧ 5 ≤ tick_counter (tm k')).
Proof.
  apply (queue_send_returns 32 (lay 0 1) 0 [7] true sleep_to_5 1 (λ k, k = full_at 4 ∨ k = full_at 5) (full_at 4)
    UserTx.example.board_ok_qemu demo_opt demo_cache_ok eq_refl (or_introl eq_refl) ltac:(lia)) with (B := 0%nat).
  - intros k [-> | ->]; apply full_sendable.
  - reflexivity.
  - by vm_compute.
  - intros k0 k1 wakeup [-> | ->] Hlt Hex; [|by vm_compute in Hlt]. exists (full_at 5). split; [reflexivity|].
    rewrite (full_attempt _ _ _ _ _ Hex). split; [by vm_compute|by right].
  - exact full_waits.
Defined.
End example.
