(* ===== verification/Semaphore.v ===== *)
(** * Semaphores and mutexes ([semaphore.rs])

    A semaphore is a count with a wait list; a mutex is one of size 1. The task
    that took it last is its holder. *)

From S2P Require Import Prelude Arch Pmem TxCache Transaction Replay UserTx Util PVar PList Kernel ListTx Sched Blocking.

(** [struct Semaphore]: the constant fields, and the addresses of the variables. *)
Record Semaphore := {
  sem_count : Z;
  sem_mutex_holder : Z;
  sem_size : Z;
  sem_wait_list : nat;
}.

Section semaphore.
Context `{Arch, Board, TxFeatures} (time_bits : Z).
(** The address of a task; [None] is the null pointer. *)
Context (task_ptr : nat → Z).
Implicit Types sem : Semaphore.

(** [try_take] by task [t] *)
Definition try_take sem (t : nat) : prog pmem (Result unit unit) :=
  let* cnt := read_usize (sem_count sem) in
  if 0 <? cnt then
    update_var (sem_count sem) (λ cnt, usub cnt 1);;;
    borrow_mut (sem_mutex_holder sem);;;
    write_usize (sem_mutex_holder sem) (task_ptr t);;;
    Ret (Ok tt)
  else Ret (Err tt).

Definition give sem : prog pmem bool :=
  let* cnt := read_usize (sem_count sem) in
  if cnt =? sem_size sem then Ret false else
  assert_ (cnt <? sem_size sem);;;
  update_var (sem_count sem) (λ cnt, uadd cnt 1);;;
  Ret true.

(** The body of the loop of [semaphore_take]: done with a result, or again with
    the rest of the time. *)
Inductive take_step := TakeDone (r : Result unit unit) | TakeAgain (wait_ticks wakeup_time : Z).

Definition take_attempt (yield : prog kernel unit) sem (t : nat) (wait_ticks : Z) (wakeup : option Z) : prog kernel take_step :=
  with_no_interrupt (
    let* r := kernel_tx (tx_run_no_replay (try_take sem t)) in
    match r with
    | Err _ =>
        if wait_ticks =? 0 then Ret (TakeDone (Err tt)) else
        let* w := wakeup_at time_bits wakeup wait_ticks in
        atomic_roll_forward_insert_into_waitlist (WaitList (sem_wait_list sem)) t w;;;
        yield;;;
        let* wait_ticks := update_countdown w in
        Ret (TakeAgain wait_ticks w)
    | Ok _ => Ret (TakeDone (Ok tt))
    end).

Fixpoint take_loop (fuel : nat) (yield : prog kernel unit) sem (t : nat) (wait_ticks : Z) (wakeup : option Z) :
    prog kernel (Result unit unit) :=
  match fuel with
  | O => Fail Undefined
  | S fuel =>
      let* r := take_attempt yield sem t wait_ticks wakeup in
      match r with
      | TakeDone r => Ret r
      | TakeAgain wait_ticks w => take_loop fuel yield sem t wait_ticks (Some w)
      end
  end.

Definition semaphore_take (fuel : nat) (yield : prog kernel unit) sem (wait_ticks : Z) : prog kernel (Result unit unit) :=
  let* t := current in
  let* holder := kernel_pm (read_usize (sem_mutex_holder sem)) in
  if holder =? task_ptr t then Ret (Ok tt) else take_loop fuel yield sem t wait_ticks None.

(** Whether the first waiter is ready and more important than the current task. *)
Definition give_yields sem : prog kernel bool :=
  let* v := on_lists (peek_front (WaitList (sem_wait_list sem))) in
  match v with
  | None => Ret false
  | Some v =>
      let* t := unwrap_unchecked (item_task v) in
      let* b := deref_task t in
      let* c := current in
      let* bc := deref_task c in
      Ret (less_important_than bc b && bool_decide (status b = Ready))
  end.

Definition semaphore_give (yield : prog kernel unit) sem : prog kernel unit :=
  let* yield_now := with_no_interrupt (
    let* unblock_task := kernel_tx (tx_run_no_replay (give sem)) in
    if unblock_task : bool then
      let* y := give_yields sem in
      roll_forward_pop_remove_from_waitlist (WaitList (sem_wait_list sem));;;
      Ret y
    else Ret false) in
  when yield_now yield.
End semaphore.
