(* ===== verification/SemaphoreOps.v ===== *)
(** * What semaphores do

    Taking counts down or blocks, giving counts up and wakes the first waiter; and
    where this falls short of mutual exclusion and of surviving power failures. *)

From Stdlib Require Import Sorting.Sorted.
From S2P Require Import Prelude Arch Pmem PmemSpec TxCache Transaction TxAttempt Replay UserTx Util PVar PList PListUpd.
From S2P Require Import PListSeg PListSorted PListLinear ListRepr Kernel ListTx Sched SchedInv SchedDemo SchedSpec SchedVal SchedOps.
From S2P Require Import RollForward Blocking BlockingOps Semaphore.

(** Where a semaphore is in memory, and its wait list. *)
Record semlayout := SemLayout {
  sl_count : nat;
  sl_holder : nat;
  sl_size : Z;
  sl_wait : nat;
}.
Definition sem_of (l : semlayout) : Semaphore := {|
  sem_count := Z.of_nat (sl_count l);
  sem_mutex_holder := Z.of_nat (sl_holder l);
  sem_size := sl_size l;
  sem_wait_list := sl_wait l;
|}.

Section sem.
Context `{Arch, Board, TxFeatures} (Hboard : board_ok).
Context (task_ptr : nat → Z) (Hptr : ∀ t, is_usize (task_ptr t)).
Context (l : semlayout).
Implicit Types (m : list Z) (s : pmem).

(** The words of a semaphore: its count and its holder. *)
Record sem_repr m (count holder : Z) : Prop := {
  sr_count : word m (sl_count l) count;
  sr_holder : word m (sl_holder l) holder;
  sr_apart : apart (sl_count l) usize_bytes (sl_holder l) usize_bytes;
  sr_bounds : Z.of_nat (length m) < usize_mod;
}.
(** Bytes outside of it. *)
Definition sem_frame m m' : Prop :=
  length m' = length m ∧ ∀ b k, (b + k ≤ length m)%nat → apart b k (sl_count l) usize_bytes →
    apart b k (sl_holder l) usize_bytes → slice b k m' = slice b k m.

Lemma sem_set_count m c h c' :
  sem_repr m c h → is_usize c' → sem_repr (list_inserts (sl_count l) (usize_to_bytes c') m) c' h ∧
    sem_frame m (list_inserts (sl_count l) (usize_to_bytes c') m).
Proof.
  intros [Hc Hh Ha Hb] Hu. destruct Hc as (Hcl & _). split; [split|split].
  - by apply word_set.
  - apply word_inserts; rewrite ?length_usize_to_bytes; [done| |done]. unfold apart in *. lia.
  - done.
  - by rewrite length_inserts.
  - apply length_inserts.
  - intros b k Hk Ho1 Ho2. by rewrite slice_inserts_apart; rewrite ?length_usize_to_bytes.
Qed.
Lemma sem_set_holder m c h h' :
  sem_repr m c h → is_usize h' → sem_repr (list_inserts (sl_holder l) (usize_to_bytes h') m) c h' ∧
    sem_frame m (list_inserts (sl_holder l) (usize_to_bytes h') m).
Proof.
  intros [Hc Hh Ha Hb] Hu. destruct Hh as (Hhl & _). split; [split|split].
  - apply word_inserts; rewrite ?length_usize_to_bytes; done.
  - by apply word_set.
  - done.
  - by rewrite length_inserts.
  - apply length_inserts.
  - intros b k Hk Ho1 Ho2. by rewrite slice_inserts_apart; rewrite ?length_usize_to_bytes.
Qed.
Lemma sem_frame_trans m1 m2 m3 : sem_frame m1 m2 → sem_frame m2 m3 → sem_frame m1 m3.
Proof. intros [L1 F1] [L2 F2]. split; [congruence|]. intros b k Hk Ho1 Ho2. rewrite F2, F1; congruence. Qed.

Definition room s (n : nat) : Prop := tail (journal s) + Z.of_nat n * Z.of_nat (record_size usize_bytes) ≤ JOURNAL_SIZE.

Lemma word_object m a v : word m a v → Z.of_nat (length m) < usize_mod → is_object (Z.of_nat a) (Z.of_nat usize_bytes).
Proof. intros (Hl & _) Hb. pose proof usize_half. pose proof usize_bytes_cases. split; lia. Qed.

(** Any crash of the bodies rolls back. *)
Notation rolls s := (λ c, ∃ es, undoes es (bytes s) c).

Lemma runs_try_take s c h t :
  undoes [] (bytes s) s → sem_repr (bytes s) c h → room s 2 →
  runs (rolls s) (try_take task_ptr (sem_of l) t) s (λ r s', (∃ es, undoes es (bytes s) s') ∧
    if 0 <? c then r = Ok tt ∧ sem_repr (bytes s') (c - 1) (task_ptr t) ∧ sem_frame (bytes s) (bytes s')
    else r = Err tt ∧ s' = s).
Proof.
  intros Hu Hr Hroom. pose proof Hr as [Hc Hh Ha Hb]. pose proof Hc as (Hcl & _ & Hcu). pose proof Hh as (Hhl & _).
  unfold room in Hroom. assert (HI0 : rolls s s) by by exists [].
  unfold try_take. cbn [sem_of sem_count sem_mutex_holder]. apply (runs_let_read _ _ _ c); [done|done|].
  destruct (Z.ltb_spec 0 c) as [Hpos|Hpos]; [|by apply runs_ret].
  assert (Hc1 : is_usize (c - 1)) by (unfold is_usize in *; lia).
  eapply runs_bind; [apply (runs_update_var Hboard (rolls s) [] (bytes s) s (sl_count l) c _ (λ _ s', ∃ es,
    undoes es (bytes s) s' ∧ bytes s' = list_inserts (sl_count l) (usize_to_bytes (c - 1)) (bytes s) ∧
    tail (journal s') = tail (journal s) + Z.of_nat (record_size usize_bytes))); [done|done|lia|lia|by eauto|]|].
  { intros s' es Hs' Hb' Ht. exists es. rewrite usub_small in Hb' by (unfold is_usize in *; lia). done. }
  intros [] s1 (es1 & Hu1 & Hb1 & Ht1).
  destruct (sem_set_count _ _ _ _ Hr Hc1) as [Hr1 Hf1]. rewrite <-Hb1 in Hr1, Hf1.
  assert (Hlen1 : length (bytes s1) = length (bytes s)) by by destruct Hf1.
  eapply runs_bind; [apply (runs_borrow_mut Hboard (rolls s) es1 (bytes s) s1 (sl_holder l)
    (λ _ s', bytes s' = bytes s1 ∧ undoes (es1 ++ [word_entry (sl_holder l) (bytes s1)]) (bytes s) s')); [done| |lia|lia|by eauto|by auto]|].
  { by eapply (word_object (bytes s)). }
  intros [] s2 (Hb2 & Hu2).
  assert (Hu3 : undoes (es1 ++ [word_entry (sl_holder l) (bytes s1)]) (bytes s)
    (set_bytes (list_inserts (sl_holder l) (usize_to_bytes (task_ptr t))) s2)).
  { eapply undoes_covered; [done|apply elem_of_app; right; constructor|apply word_entry_covers; [lia|apply length_usize_to_bytes]|].
    rewrite length_usize_to_bytes, Hb2. lia. }
  eapply runs_bind; [apply (runs_write_usize (rolls s) s2 (sl_holder l) _
    (λ _ s', s' = set_bytes (list_inserts (sl_holder l) (usize_to_bytes (task_ptr t))) s2)); [rewrite Hb2; lia|by eauto|by eauto|done]|].
  intros [] ? ->. apply runs_ret; [by eauto|]. split; [by eauto|]. split; [done|]. cbn. rewrite Hb2.
  destruct (sem_set_holder _ _ _ (task_ptr t) Hr1 (Hptr t)) as [Hr2 Hf2]. split; [done|]. by eapply sem_frame_trans.
Qed.

Lemma runs_give s c h :
  undoes [] (bytes s) s → sem_repr (bytes s) c h → room s 1 → c ≤ sl_size l → is_usize (sl_size l) →
  runs (rolls s) (give (sem_of l)) s (λ r s', (∃ es, undoes es (bytes s) s') ∧
    if c =? sl_size l then r = false ∧ s' = s
    else r = true ∧ sem_repr (bytes s') (c + 1) h ∧ sem_frame (bytes s) (bytes s')).
Proof.
  intros Hu Hr Hroom Hle Hsz. pose proof Hr as [Hc Hh Ha Hb]. pose proof Hc as (Hcl & _ & Hcu).
  unfold room in Hroom. assert (HI0 : rolls s s) by by exists [].
  unfold give. cbn [sem_of sem_count sem_size]. apply (runs_let_read _ _ _ c); [done|done|].
  destruct (Z.eqb_spec c (sl_size l)) as [He|He]; [by apply runs_ret|].
  assert (Hc1 : is_usize (c + 1)) by (unfold is_usize in *; lia).
  eapply runs_bind; [apply (runs_assert _ _ _ (λ _ s', s' = s)); [apply Z.ltb_lt; lia|done|done]|]. intros [] ? ->.
  eapply runs_bind; [apply (runs_update_var Hboard (rolls s) [] (bytes s) s (sl_count l) c _ (λ _ s', ∃ es,
    undoes es (bytes s) s' ∧ bytes s' = list_inserts (sl_count l) (usize_to_bytes (c + 1)) (bytes s))); [done|done|lia|lia|by eauto|]|].
  { intros s' es Hs' Hb' Ht. exists es. rewrite uadd_small in Hb' by (unfold is_usize in *; lia). done. }
  intros [] s1 (es1 & Hu1 & Hb1). destruct (sem_set_count _ _ _ _ Hr Hc1) as [Hr1 Hf1]. rewrite <-Hb1 in Hr1, Hf1.
  apply runs_ret; [by eauto|]. split; [by eauto|]. done.
Qed.
End sem.

(** ** In the kernel *)

Section kernel.
Context `{Arch, Board, TxFeatures} (Hcache : cache_ok).

(** Task [t] makes a system call on a semaphore of count [c] and holder [h]. *)
Record sem_call (l : semlayout) (n : nat) (bs : list Z) (c h : Z) (k : kernel) (C : contents) (t : nat) (b : tcb) (bb : bool) : Prop := {
  sl_kinv : kinv k C None;
  sl_waiters : waiters_blocked (tasks k) C;
  sl_caller : in_syscall k t b;
  sl_cpu : cpu_ok k;
  sl_ready : ready bb n n (length bs) bs (kmem k) (tx_of k b);
  sl_journal : 2 * Z.of_nat (record_size usize_bytes) ≤ JOURNAL_SIZE;
  sl_repr : sem_repr l (kmem k) c h;
}.

Lemma ready_empty bb n i k bs m x : ready bb n i k bs m x → undoes [] (bytes (tx_pm x)) (tx_pm x) ∧ tail (journal (tx_pm x)) = 0 ∧ bytes (tx_pm x) = m.
Proof.
  intros [_ _ Hu _ _]. pose proof Hu as (Hj & _ & E). cbn in E. split; [by rewrite E|]. split; [|done].
  destruct Hj as (_ & _ & _ & l0 & rest & _ & -> & Hr). inversion Hr as [|? es e]; [done|].
  exfalso. by apply (app_cons_not_nil es [] e).
Qed.

Lemma exec_sem_tx {T} (f : prog pmem T) l n bs c h k C t b bb (Q : T → pmem → Prop) :
  sem_call l n bs c h k C t b bb →
  (undoes [] (bytes (tx_pm (tx_of k b))) (tx_pm (tx_of k b)) → room (tx_pm (tx_of k b)) 2 →
   runs (λ x, ∃ es, undoes es (kmem k) x) f (tx_pm (tx_of k b)) (λ r s', (∃ es, undoes es (kmem k) s') ∧ Q r s')) →
  ∃ r d p, exec (kernel_tx (tx_run_no_replay f)) (masked k) = Done r (tx_upd t d (masked k)) ∧ bytes (tx_pm d) = bytes p ∧ Q r p.
Proof.
  intros [Hk Hw Hsc Hcpu Hr Hj Hs] Hf. destruct (ready_empty _ _ _ _ _ _ _ Hr) as (Hu & Ht & Hm).
  destruct (runs_exec _ _ _ _ (Hf Hu ltac:(unfold room; rewrite Ht; lia))) as (r & p & Ef & [es (Hj' & _)] & HQ).
  destruct (exec_run_no_replay Hcache f bb n bs (kmem k) (tx_of k b) r p Hr Ef (ex_intro _ es Hj')) as (d & E & Hd & _).
  exists r, d, p. split; [|done]. apply (exec_kernel_tx _ (masked k) t b); [by destruct Hsc|exact E].
Qed.

(** The first waiter is not ready, so giving never yields. *)
Lemma exec_give_yields l k C t b xs :
  kinv k C None → waiters_blocked (tasks k) C → in_syscall k t b → C !! WaitList (sl_wait l) = Some xs →
  exec (give_yields (sem_of l)) k = Done false k.
Proof.
  intros Hk Hw [Hc Hb _ _ _] HC. unfold give_yields. cbn [sem_of sem_wait_list].
  pose proof (exec_peek_front is_ready_list (ls k) C (WaitList (sl_wait l)) xs (k_repr _ _ _ _ Hk) eq_refl HC) as E.
  rewrite (exec_bind_done _ _ _ (snd <$> hd_error xs) k); [|rewrite (exec_on_lists _ _ _ _ E); by destruct k].
  destruct xs as [|e xs]; [done|].
  destruct (k_entries _ _ _ _ Hk _ _ e HC (list_elem_of_here _ _)) as (t' & o & b' & -> & Hb').
  cbn [fmap option_fmap option_map hd_error snd item_task unwrap_unchecked bind].
  run (exec_deref_task _ _ _ Hb'). run (exec_current _ _ Hc). run (exec_deref_task _ _ _ Hb).
  cbn. do 2 f_equal. rewrite bool_decide_false; [by rewrite andb_false_r|].
  rewrite (Hw t' b' Hb'); [done|]. exists (sl_wait l), o. eexists. split; [exact HC|]. constructor.
Qed.
End kernel.

(** C23: Taking a semaphore: with a positive count it is counted down and the
    caller recorded as the holder; otherwise the call fails at once, or panics
    because the timeout overflows, or the caller blocks on the wait list and
    yields in the middle of the critical section, to try again with what remains
    of its time. *)
Theorem take_attempt_correct `{Arch, Board, TxFeatures} time_bits task_ptr l n bs c h k C t b bb yield wait_ticks xs o :
  board_ok → opt_tx_cache_space = true → cache_ok → (∀ t, is_usize (task_ptr t)) →
  sem_call l n bs c h k C t b bb → C !! WaitList (sl_wait l) = Some xs → free (ls k) (EventNode t) (BlockItem t o) →
  let r := exec (take_attempt time_bits task_ptr yield (sem_of l) t wait_ticks None) k in
  let w := tick_counter (tm k) + wait_ticks in
  if 0 <? c then
    ∃ k', r = Done (TakeDone (Ok tt)) k' ∧ kinv k' C None ∧ same_status (tasks k) (tasks k') ∧
      sem_repr l (kmem k') (c - 1) (task_ptr t) ∧ sem_frame l (kmem k) (kmem k') ∧ kcpu k' = kcpu k
  else if wait_ticks =? 0 then
    ∃ k', r = Done (TakeDone (Err tt)) k' ∧ kinv k' C None ∧ same_status (tasks k) (tasks k') ∧ kmem k' = kmem k ∧ kcpu k' = kcpu k
  else if w <=? MAX_DELAY_TIME time_bits then
    ∃ k2, kinv k2 (block_on (tasks k) (sl_wait l) t o w C) None ∧
      same_status (set_state Blocked t (tasks k)) (tasks k2) ∧ kmem k2 = kmem k ∧ kcpu k2 = kcpu (masked k) ∧ log_idle k2 ∧
      ∀ k3, exec yield k2 = Done tt k3 → kcpu k3 = kcpu k2 →
        r = Done (TakeAgain (if w <=? tick_counter (tm k3) then 0 else w - tick_counter (tm k3)) w) (lset (kcpu k) k3)
  else r = Failed Panic.
Proof.
  intros Hboard Hopt Hcache Hp Hcall HC Hf r w. pose proof Hcall as [Hk Hw Hsc Hcpu Hr Hj Hs].
  destruct (exec_sem_tx Hcache (try_take task_ptr (sem_of l) t) l n bs c h k C t b bb _ Hcall
    (λ Hu Hroom, runs_try_take Hboard task_ptr Hp l _ c h t Hu Hs Hroom)) as (res & d & p & E & Em & HQ).
  destruct (after_tx k C t b d Hk Hw Hsc) as (Hk1 & Hw1 & Hst & _).
  unfold r, take_attempt. destruct (0 <? c).
  - destruct HQ as (-> & Hs' & Hfr). exists (lset (kcpu k) (tx_upd t d (masked k))). split_and!; try done.
    + apply exec_critical; [done| |done]. by run E.
    + cbn. by rewrite Em.
    + cbn. by rewrite Em.
  - destruct HQ as (-> & ->). destruct (wait_ticks =? 0).
    + exists (lset (kcpu k) (tx_upd t d (masked k))). split_and!; try done. apply exec_critical; [done| |done]. by run E.
    + assert (Hat : exec (wakeup_at time_bits None wait_ticks) (tx_upd t d (masked k)) =
        if w <=? MAX_DELAY_TIME time_bits then Done w (tx_upd t d (masked k)) else Failed Panic).
      { unfold wakeup_at. rewrite (exec_bind_done _ _ _ (tick_counter (tm k)) (tx_upd t d (masked k))) by done.
        unfold time_checked_add. fold w. by destruct (w <=? MAX_DELAY_TIME time_bits). }
      destruct (w <=? MAX_DELAY_TIME time_bits).
      * destruct (block_step k C t b d Hk Hw Hsc (sl_wait l) w xs o HC Hf) as (k2 & Hex & Hk2 & Hw2 & Hst2 & Em2 & Ecpu & _ & _ & _ & Hidle).
        exists k2. split_and!; try done; [by rewrite Em2, Em|]. intros k3 Ey Ec3.
        apply exec_critical; [done| |by rewrite Ec3]. run E. run Hat. run Hex. by run Ey.
      * apply exec_critical_fail; [done|]. run E. by rewrite exec_bind, Hat.
Qed.

(** C24: Giving a semaphore: below its size the count goes up and the first waiter
    is woken; at its size nothing happens. The caller never yields, also when the
    woken task is more important: the test looks at a task that still blocks. *)
Theorem semaphore_give_correct `{Arch, Board, TxFeatures} l n bs c h k C t b bb yield xs :
  board_ok → opt_tx_cache_space = true → cache_ok →
  sem_call l n bs c h k C t b bb → c ≤ sl_size l → is_usize (sl_size l) → C !! WaitList (sl_wait l) = Some xs →
  let r := exec (semaphore_give yield (sem_of l)) k in
  if c =? sl_size l then
    ∃ k', r = Done tt k' ∧ kinv k' C None ∧ same_status (tasks k) (tasks k') ∧ kmem k' = kmem k ∧ kcpu k' = kcpu k
  else
    ∃ k' C' ts', r = Done tt k' ∧ kinv k' C' None ∧ waiters_blocked (tasks k') C' ∧ woken (tasks k) xs C C' ts' ∧
      same_status ts' (tasks k') ∧ sem_repr l (kmem k') (c + 1) h ∧ sem_frame l (kmem k) (kmem k') ∧ kcpu k' = kcpu k ∧ log_idle k'.
Proof.
  intros Hboard Hopt Hcache Hcall Hle Hsz HC r. pose proof Hcall as [Hk Hw Hsc Hcpu Hr Hj Hs].
  destruct (exec_sem_tx Hcache (give (sem_of l)) l n bs c h k C t b bb _ Hcall
    (λ Hu Hroom, runs_give Hboard l _ c h Hu Hs ltac:(unfold room in *; lia) Hle Hsz)) as (res & d & p & E & Em & HQ).
  destruct (after_tx k C t b d Hk Hw Hsc) as (Hk1 & Hw1 & Hst & b1 & Hsc1).
  unfold r, semaphore_give. destruct (c =? sl_size l).
  - destruct HQ as (-> & ->). exists (lset (kcpu k) (tx_upd t d (masked k))). split_and!; try done.
    rewrite (exec_bind_done _ _ _ false (lset (kcpu k) (tx_upd t d (masked k)))); [done|].
    apply exec_critical; [done| |done]. by run E.
  - destruct HQ as (-> & Hs' & Hfr).
    destruct (wake_step k C t b d Hk Hw Hsc (sl_wait l) xs HC) as (k2 & C' & ts & Hex & Hk2 & Hw2 & Hwk & Hst2 & Em2 & Ecpu & _ & _ & Hidle).
    exists (lset (kcpu k) k2), C', ts. split_and!; try done.
    + rewrite (exec_bind_done _ _ _ false (lset (kcpu k) k2)); [done|]. apply exec_critical; [done| |done].
      run E. run (exec_give_yields l _ C t b1 xs Hk1 Hw1 Hsc1 HC). cbn [sem_of sem_wait_list]. by run Hex.
    + cbn. by rewrite Em2, Em.
    + cbn. by rewrite Em2, Em.
Qed.

(** ** Concrete executions *)

Section runs.
#[local] Existing Instances cortex_m qemu default_features.
Import BlockingOps.calls.

Definition ptr_of (t : nat) : Z := 100 + Z.of_nat t.
(** A semaphore of count [c] and holder [h], on wait list 0. *)
Definition sem_mem (c h : Z) : list Z := usize_to_bytes c ++ usize_to_bytes h.
Definition demo_sem (size : Z) : semlayout := SemLayout 0 4 size 0.

(** Task 0 takes a mutex, gives it, and takes it again; task 1, which becomes
    current, takes it as well. *)
Definition mutex_run : prog kernel (list (Result unit unit)) :=
  let m := sem_of (demo_sem 1) in
  let* r1 := semaphore_take 32 ptr_of 1 (Ret tt) m 0 in
  semaphore_give (Ret tt) m;;;
  let* r2 := semaphore_take 32 ptr_of 1 (Ret tt) m 0 in
  atomic_roll_foward_context_switch 1 0 (ReadyList 1);;;
  let* r3 := semaphore_take 32 ptr_of 1 (Ret tt) m 0 in
  Ret [r1; r2; r3].

(** Giving a mutex does not reset its holder, so that the task that gave it
    last takes it again without counting it down, and another task takes it too:
    both are in the critical section. *)
Theorem mutual_exclusion_violated :
  (∃ k, exec mutex_run (demo_with (sem_mem 1 0)) = Done [Ok tt; Ok tt; Ok tt] k ∧
    current_task k = Some 1%nat ∧ state_of k 0 = Some Ready) ∧
  (** after the second [semaphore_take] the mutex still counts as free *)
  (∃ k, exec (let m := sem_of (demo_sem 1) in
      semaphore_take 32 ptr_of 1 (Ret tt) m 0;;; semaphore_give (Ret tt) m;;; semaphore_take 32 ptr_of 1 (Ret tt) m 0)
    (demo_with (sem_mem 1 0)) = Done (Ok tt) k ∧ kmem k = sem_mem 1 (ptr_of 0)).
Proof. split; eexists; (split; [vm_compute; reflexivity|]); vm_compute; auto. Qed.

(** [semaphore_give] is not atomic: when power fails between its transaction
    and the wake-up, the call, executed again after recovery, finds a mutex given
    already and wakes nobody; a counting semaphore is given twice. *)
Theorem give_lost_wakeup :
  let give size := semaphore_give (Ret tt) (sem_of (demo_sem size)) in
  let again size := result_of (exec (increase_generation;;; recover;;; give size) (failed_after 14 (give size) (demo_with (sem_mem 0 0)))) demo in
  kmem (result_of (exec (give 1) (demo_with (sem_mem 0 0))) demo) = sem_mem 1 0 ∧
  state_of (result_of (exec (give 1) (demo_with (sem_mem 0 0))) demo) 2 = Some Ready ∧
  kmem (again 1) = sem_mem 1 0 ∧ state_of (again 1) 2 = Some Blocked ∧ members (again 1) (WaitList 0) = [EventNode 2] ∧
  kmem (again 2) = sem_mem 2 0.
Proof. vm_compute. repeat split. Qed.
End runs.

Module example.
#[local] Existing Instances cortex_m qemu default_features.
Import BlockingOps.calls.

Lemma demo_sem_call c : c = 0 ∨ c = 1 → sem_call (demo_sem 1) 0 [] c 0 (demo_with (sem_mem c 0)) demo_contents 0 (demo_task 1 Running) false.
Proof.
  intros Hc. split.
  - apply demo_with_kinv.
  - exact SchedOps.example.demo_waiters.
  - apply demo_in_syscall.
  - apply demo_cpu_ok.
  - apply demo_ready.
  - by vm_compute.
  - destruct Hc as [-> | ->]; (split; [split_and!; [vm_compute; lia|reflexivity|by vm_compute]|split_and!; [vm_compute; lia|reflexivity|by vm_compute]|
      left; vm_compute; lia|by vm_compute]).
Qed.

Lemma take_attempt_correct_witness :
  ∃ k', exec (take_attempt 32 (λ _, 100) (Ret tt) (sem_of (demo_sem 1)) 0 0 None) (demo_with (sem_mem 1 0)) = Done (TakeDone (Ok tt)) k' ∧
    sem_repr (demo_sem 1) (kmem k') 0 100.
Proof.
  destruct (take_attempt_correct 32 (λ _, 100) (demo_sem 1) 0 [] 1 0 (demo_with (sem_mem 1 0)) demo_contents 0 (demo_task 1 Running) false
    (Ret tt) 0 _ 0 UserTx.example.board_ok_qemu demo_opt demo_cache_ok ltac:(by vm_compute) (demo_sem_call 1 (or_intror eq_refl)) eq_refl
    (demo_free _)) as (k' & E & _ & _ & Hs & _).
  exists k'. split; [exact E|exact Hs].
Defined.

(** Task 2 waits for the semaphore and is woken. *)
Lemma semaphore_give_correct_witness :
  ∃ k', exec (semaphore_give (Fail Panic) (sem_of (demo_sem 1))) (demo_with (sem_mem 0 0)) = Done tt k' ∧
    kinv k' (wake (tasks demo) 2 5 demo_contents) None ∧ sem_repr (demo_sem 1) (kmem k') 1 0.
Proof.
  destruct (semaphore_give_correct (demo_sem 1) 0 [] 0 0 (demo_with (sem_mem 0 0)) demo_contents 0 (demo_task 1 Running) false
    (Fail Panic) _ UserTx.example.board_ok_qemu demo_opt demo_cache_ok (demo_sem_call 0 (or_introl eq_refl)) ltac:(by vm_compute)
    ltac:(by vm_compute) eq_refl) as (k' & C' & ts' & E & Hk & _ & Hw & _ & Hs & _).
  exists k'. split; [exact E|]. split; [|exact Hs].
  destruct Hw as (t & o & w & Et & (ys & HC & Hin) & EC & _). injection Et as <- _ _. injection HC as <-.
  apply list_elem_of_singleton in Hin. injection Hin as ->. rewrite EC in Hk. exact Hk.
Defined.
End example.
