(* ===== verification/EventGroup.v ===== *)
(** * Event groups ([event_group.rs])

    A word of event bits with the tasks that wait for some of them. The value of a
    waiter's node holds the bits it waits for and, in the control byte, how. *)

From S2P Require Import Prelude Arch Pmem TxCache Transaction Replay UserTx Util PVar PList Kernel ListTx Sched Blocking.

Section event_group.
Context `{Arch, Board, TxFeatures} (time_bits : Z).

Definition CLEAR_EVENTS_ON_EXIT_BIT : Z := if word_bits =? 32 then 0x01000000 else 0x0100.
Definition UNBLOCKED_DUE_TO_BIT_SET : Z := if word_bits =? 32 then 0x02000000 else 0x0200.
Definition WAIT_FOR_ALL_BITS : Z := if word_bits =? 32 then 0x04000000 else 0x0400.
Definition EVENT_BITS_CONTROL_BYTES : Z := if word_bits =? 32 then 0xff000000 else 0xff00.

(** [struct EventGroup]: the addresses of its word and its list. *)
Record EventGroup := {
  event_bits : Z;
  waiting_tasks : nat;
}.
Implicit Types eg : EventGroup.

Definition no_control (bits : Z) : Z := Z.land bits (unot EVENT_BITS_CONTROL_BYTES).
Definition has_bit (bits flag : Z) : bool := negb (Z.land bits flag =? 0).

Definition get_event_bits eg : prog pmem Z :=
  let* bits := read_usize (event_bits eg) in Ret (no_control bits).
Definition set_event_bits eg (bits : Z) : prog pmem unit := update_var (event_bits eg) (λ v, Z.lor v bits).
Definition clear_event_bits eg (bits : Z) : prog pmem unit := update_var (event_bits eg) (λ v, Z.land v (unot bits)).

(** The test of [wait_condition_ok], and of the loop of [set_event_group_bits]. *)
Definition satisfied (bits bits_to_wait_for : Z) (wait_for_all_bits : bool) : bool :=
  if wait_for_all_bits then Z.land bits bits_to_wait_for =? bits_to_wait_for
  else negb (Z.land bits bits_to_wait_for =? 0).
Definition wait_condition_ok eg (bits_to_wait_for : Z) (wait_for_all_bits : bool) : prog pmem bool :=
  let* bits := read_usize (event_bits eg) in Ret (satisfied bits bits_to_wait_for wait_for_all_bits).

(** [list::atomic_roll_forward_insert_into_unsorted_waitlist] after the value
    and the wake-up time of the current task have been set. *)
Definition block_for_bits eg (block_item_val wait_ticks : Z) : prog kernel unit :=
  let* t := current in
  set_block_item_value t block_item_val;;;
  let* now := get_ticks in
  let* w := unwrap (time_checked_add time_bits now wait_ticks) in
  set_wakeup_time t w;;;
  roll_forward_insert_into_unsorted_waitlist (WaitList (waiting_tasks eg)) t.

(** After the yield: the bits are set, or the time is up. *)
Definition after_wait eg (event_bits bits_to_wait_for : Z) (wait_for_all_bits : bool) : prog kernel bool :=
  with_no_interrupt (
    let* ok := kernel_pm (wait_condition_ok eg bits_to_wait_for wait_for_all_bits) in
    when (ok && has_bit event_bits CLEAR_EVENTS_ON_EXIT_BIT) (kernel_tx (run_relaxed (clear_event_bits eg bits_to_wait_for)));;;
    Ret ok).

Definition wait_for_event_group_bits (yield : prog kernel unit) eg (bits_to_wait_for : Z) (clear_on_exit wait_for_all_bits : bool)
    (wait_ticks : Z) : prog kernel (Result Z Z) :=
  let* t := current in
  let* bits := get_block_item_value t in
  if has_bit bits UNBLOCKED_DUE_TO_BIT_SET then Ret (Ok (no_control bits)) else
  let control_bits := Z.lor (if clear_on_exit then CLEAR_EVENTS_ON_EXIT_BIT else 0) (if wait_for_all_bits then WAIT_FOR_ALL_BITS else 0) in
  let* (res, wait_ticks) := with_no_interrupt (
    let* ok := kernel_pm (wait_condition_ok eg bits_to_wait_for wait_for_all_bits) in
    if ok : bool then
      let* res := kernel_pm (get_event_bits eg) in
      when clear_on_exit (kernel_tx (run_relaxed (clear_event_bits eg bits_to_wait_for)));;;
      Ret (res, 0)
    else if 0 <? wait_ticks then
      block_for_bits eg (Z.lor bits_to_wait_for control_bits) wait_ticks;;;
      Ret (0, wait_ticks)
    else
      let* res := kernel_pm (get_event_bits eg) in
      Ret (res, wait_ticks)) in
  if 0 <? wait_ticks then
    yield;;;
    let* t := current in
    let* event_bits := get_block_item_value t in
    if has_bit event_bits UNBLOCKED_DUE_TO_BIT_SET then Ret (Ok (no_control event_bits)) else
    let* ok := after_wait eg event_bits bits_to_wait_for wait_for_all_bits in
    Ret (if ok : bool then Ok (no_control event_bits) else Err (no_control event_bits))
  else Ret (Ok res).

(** The loop of [set_event_group_bits] over the waiting tasks; it yields the bits
    to clear and whether a more important task has been woken. *)
Fixpoint set_loop (fuel : nat) (wl : lid) (bits_set : Z) (p : option nid) (bits_to_clear : Z) (yld : bool) : prog kernel (Z * bool) :=
  match p with
  | None => Ret (bits_to_clear, yld)
  | Some node =>
      match fuel with
      | O => Fail Undefined
      | S fuel =>
          let* m := on_lists (deref node) in
          match value m with
          | BlockItem t bits =>
              if satisfied bits_set (no_control bits) (has_bit bits WAIT_FOR_ALL_BITS) then
                let* b := deref_task t in
                let* c := current in
                let* bc := deref_task c in
                set_value node (BlockItem t (Z.lor bits_set UNBLOCKED_DUE_TO_BIT_SET));;;
                roll_forward_remove_from_unsorted_waitlist wl node;;;
                set_loop fuel wl bits_set (next m)
                  (if has_bit bits CLEAR_EVENTS_ON_EXIT_BIT then Z.lor bits_to_clear (no_control bits) else bits_to_clear)
                  (yld || prio_lt (priority bc) (priority b))
              else set_loop fuel wl bits_set (next m) bits_to_clear yld
          | _ => Fail Undefined
          end
      end
  end.

Definition set_event_group_bits (yield : prog kernel unit) eg (bits_to_set : Z) : prog kernel unit :=
  let* yld := with_no_interrupt (
    kernel_tx (run_relaxed (set_event_bits eg (no_control bits_to_set)));;;
    let* bits_set := kernel_pm (get_event_bits eg) in
    let* l := on_lists (deref_list (WaitList (waiting_tasks eg))) in
    let* k := get in
    let* (bits_to_clear, yld) := set_loop (size (nodes (ls k))) (WaitList (waiting_tasks eg)) bits_set (head l) 0 false in
    kernel_tx (run_relaxed (clear_event_bits eg bits_to_clear));;;
    Ret yld) in
  when yld yield.

Definition sync_event_group_bits `{!Plain Z} (yield : prog kernel unit) eg (bits_to_set bits_to_wait_for wait_ticks : Z) :
    prog kernel (Result Z Z) :=
  let* (ret, wait_ticks) := with_no_interrupt (
    let* original_bits := kernel_tx (run_relaxed (get_event_bits eg)) in
    set_event_group_bits yield eg bits_to_set;;;
    if satisfied (Z.lor original_bits bits_to_set) bits_to_wait_for true then
      kernel_tx (run_relaxed (clear_event_bits eg bits_to_wait_for));;;
      Ret (Z.lor original_bits bits_to_set, 0)
    else if 0 <? wait_ticks then
      block_for_bits eg (Z.lor (Z.lor bits_to_wait_for CLEAR_EVENTS_ON_EXIT_BIT) WAIT_FOR_ALL_BITS) wait_ticks;;;
      Ret (0, wait_ticks)
    else
      let* ret := kernel_pm (get_event_bits eg) in
      Ret (ret, wait_ticks)) in
  if 0 <? wait_ticks then
    yield;;;
    let* t := current in
    let* event_bits := reset_block_item_value t in
    if has_bit event_bits UNBLOCKED_DUE_TO_BIT_SET then Ret (Ok (no_control event_bits)) else
    let* ok := after_wait eg event_bits bits_to_wait_for true in
    Ret (if ok : bool then Ok (no_control event_bits) else Err (no_control event_bits))
  else Ret (Ok ret).

(** The entry points. *)
Definition event_group_wait := wait_for_event_group_bits.
Definition event_group_set := set_event_group_bits.
Definition event_group_sync `{!Plain Z} := sync_event_group_bits.
End event_group.
