(* ===== verification/EventGroupOps.v ===== *)
(** * What event groups do

    Setting bits wakes exactly the tasks that they satisfy, tells each of them the
    bits, and clears what the woken tasks asked to clear; waiting returns the bits
    or blocks. *)

From Stdlib Require Import Sorting.Sorted.
From S2P Require Import Prelude Arch Pmem PmemSpec TxCache Transaction TxAttempt Replay UserTx Util PVar PList PListUpd.
From S2P Require Import PListSeg PListSorted PListLinear ListRepr Kernel ListTx Sched SchedInv SchedDemo SchedSpec SchedVal SchedOps.
From S2P Require Import SchedTick RollForward Blocking BlockingOps EventGroup.

Section set_loop.
Context `{Arch}.
Implicit Types (k : kernel) (C : contents).

(** The waiters that the bits satisfy, with what their nodes hold, and the rest. *)
Definition meets (bits : Z) (e : nid * item) : bool :=
  match e.2 with BlockItem _ o => satisfied bits (no_control o) (has_bit o WAIT_FOR_ALL_BITS) | _ => false end.
Fixpoint met (bits : Z) (xs : list (nid * item)) : list (nat * Z) :=
  match xs with
  | (n, BlockItem t o) :: xs => if meets bits (n, BlockItem t o) then (t, o) :: met bits xs else met bits xs
  | _ :: xs => met bits xs
  | [] => []
  end.
Definition unmet (bits : Z) (xs : list (nid * item)) : list (nid * item) := filter (λ e, meets bits e = false) xs.

(** The bits that they ask to clear, and whether one is more important than a
    task of priority [p]. *)
Definition clears (us : list (nat * Z)) (c : Z) : Z :=
  foldl (λ c u, if has_bit u.2 CLEAR_EVENTS_ON_EXIT_BIT then Z.lor c (no_control u.2) else c) c us.
Definition outranked (ts : gmap nat tcb) (p : nat) (us : list (nat * Z)) : bool :=
  existsb (λ u, match ts !! u.1 with Some b => prio_lt p (priority b) | None => false end) us.

(** Waking a waiter whose value has been set. *)
Lemma wake_reblock ts s C wl xl xr t o o' w :
  repr is_ready_list s C → C !! WaitList wl = Some (xl ++ (EventNode t, BlockItem t o) :: xr) →
  wake ts t w (<[WaitList wl := xl ++ (EventNode t, BlockItem t o') :: xr]> C) = wake ts t w C ∨ ts !! t = None.
Proof.
  intros Hr HC. unfold wake. destruct (ts !! t); [left|by right].
  rewrite <-(retime_mid _ _ _ _ _ _ _ (BlockItem t o') Hr HC).
  by rewrite (drop_node_comm _ (SchedNode t)), drop_retime, (drop_node_comm _ (SchedNode t)).
Qed.

Lemma wait_list_events k C out wl xs n : kinv k C out → C !! WaitList wl = Some xs → SchedNode n ∉ xs.*1.
Proof.
  intros Hk HC ((m & v) & En & Hin)%list_elem_of_fmap. cbn in En. subst m.
  by destruct (k_entries _ _ _ _ Hk _ _ _ HC Hin) as (? & ? & ? & [=] & _).
Qed.

Lemma wake_wait_list k C wl xl xr t o w b :
  kinv k C None → C !! WaitList wl = Some (xl ++ (EventNode t, BlockItem t o) :: xr) → tasks k !! t = Some b →
  wake (tasks k) t w C !! WaitList wl = Some (xl ++ xr).
Proof.
  intros Hk HC Hb. unfold wake, append_to. rewrite Hb, lookup_alter_ne by done.
  rewrite (drop_node_lookup _ _ _ (xl ++ (EventNode t, BlockItem t o) :: xr)).
  - f_equal. by apply (filter_ne_mid xl xr (EventNode t, BlockItem t o)), (repr_NoDup _ _ _ _ (k_repr _ _ _ _ Hk) HC).
  - rewrite (drop_node_lookup _ _ _ _ HC), filter_ne_notin; [done|]. by eapply wait_list_events.
Qed.

Lemma waiters_reblock ts C wl xl xr t o o' :
  C !! WaitList wl = Some (xl ++ (EventNode t, BlockItem t o) :: xr) → waiters_blocked ts C →
  waiters_blocked ts (<[WaitList wl := xl ++ (EventNode t, BlockItem t o') :: xr]> C).
Proof.
  intros HC Hw t' b Hb (wl' & u & Hin). apply (Hw t' b Hb). destruct (decide (wl' = wl)) as [->|Hne].
  - apply in_list_insert_eq in Hin. exists wl.
    apply elem_of_app in Hin as [?|[[= -> _]|?]%elem_of_cons]; [exists u|exists o|exists u];
      (eexists; split; [exact HC|]); set_solver.
  - exists wl', u. apply in_list_insert_ne in Hin; [done|congruence].
Qed.

(** One waiter is told the bits and woken. *)
Lemma wake_one k C wl xl xr t o v :
  kinv k C None → waiters_blocked (tasks k) C → C !! WaitList wl = Some (xl ++ (EventNode t, BlockItem t o) :: xr) →
  ∃ w k', in_list C DelayList (SchedNode t, SchedItem t w) ∧
    exec (set_value (EventNode t) (BlockItem t v);;; roll_forward_remove_from_unsorted_waitlist (WaitList wl) (EventNode t)) k = Done tt k' ∧
    kinv k' (wake (tasks k) t w C) None ∧ tasks k' = set_state Ready t (tasks k) ∧
    waiters_blocked (tasks k') (wake (tasks k) t w C) ∧ wake (tasks k) t w C !! WaitList wl = Some (xl ++ xr) ∧
    same_rest k k' ∧ log_idle k' ∧ free (ls k') (EventNode t) (BlockItem t v) ∧
    (∀ t' u, t' ≠ t → free (ls k) (EventNode t') u → free (ls k') (EventNode t') u).
Proof.
  intros Hk Hw HC. set (C1 := <[WaitList wl := xl ++ (EventNode t, BlockItem t v) :: xr]> C).
  set (k1 := with_ls (value_store (EventNode t) (BlockItem t v) (ls k)) k).
  destruct (in_list_node k C None (WaitList wl) (EventNode t) (BlockItem t o) Hk) as (m & Hm & _ & _).
  { eexists. split; [exact HC|]. set_solver. }
  assert (Hk1 : kinv k1 C1 None) by by apply (sinv_reblock _ _ _ _ _ _ _ _ o).
  assert (Hw1 : waiters_blocked (tasks k1) C1) by by eapply waiters_reblock.
  destruct (waiter_task k C None wl t o _ Hk HC) as [b Hb]; [set_solver|].
  destruct (remove_from_unsorted_refines k1 C1 wl t v xl xr Hk1 Hw1 (lookup_insert_eq _ _ _))
    as (w & k' & Hin & Hex & Hk' & Ets & Hrest & Hidle & Hf & Hfree).
  assert (E : wake (tasks k) t w C1 = wake (tasks k) t w C).
  { destruct (wake_reblock (tasks k) (ls k) C wl xl xr t o v w (k_repr _ _ _ _ Hk) HC) as [?|?]; [done|congruence]. }
  change (tasks k1) with (tasks k) in *. rewrite E in Hk'. exists w, k'. split_and!; try done.
  - by apply in_list_insert_ne in Hin.
  - by run (exec_set_value _ (BlockItem t v) _ _ Hm).
  - rewrite Ets. eapply waiters_woken; [exact Hw|done].
  - by eapply wake_wait_list.
  - intros t' u Hne Hu. apply Hfree; [done|]. apply free_value_ne; [congruence|done].
Qed.

Lemma in_delay_wake ts t w C e : in_list (wake ts t w C) DelayList e → in_list C DelayList e.
Proof.
  unfold wake. destruct (ts !! t); [|done]. intros [[? _]|Hin]%in_list_append; [done|].
  by apply in_list_drop in Hin as [[Hin _]%in_list_drop _].
Qed.

Lemma outranked_prio ts ts' p us : same_prio ts ts' → outranked ts' p us = outranked ts p us.
Proof.
  intros E. induction us as [|u us IH]; [done|]. unfold outranked in *. cbn [existsb]. rewrite IH. f_equal.
  specialize (E u.1). destruct (ts !! u.1), (ts' !! u.1); cbn in E; simplify_eq; [|done]. by rewrite E.
Qed.

Lemma exec_deref_waiter k C wl xl xr t o :
  kinv k C None → C !! WaitList wl = Some (xl ++ (EventNode t, BlockItem t o) :: xr) →
  ∃ m, exec (on_lists (deref (EventNode t))) k = Done m k ∧ value m = BlockItem t o ∧ next m = first_or None xr.
Proof.
  intros Hk HC. destruct (proj1 (k_repr _ _ _ _ Hk) _ _ HC) as (_ & [_ [Hm _]]%seg_app & _).
  eexists. split; [by apply exec_deref_node|done].
Qed.

(** The loop over the waiters: those of [xl] have been passed. *)
Lemma set_loop_spec fuel k C wl xl xr bits btc yld c bc :
  kinv k C None → waiters_blocked (tasks k) C → C !! WaitList wl = Some (xl ++ xr) →
  current_task k = Some c → tasks k !! c = Some bc → (length xr ≤ fuel)%nat →
  ∃ us k', us.*1 = (met bits xr).*1 ∧ (∀ t w, (t, w) ∈ us → in_list C DelayList (SchedNode t, SchedItem t w)) ∧
    exec (set_loop fuel (WaitList wl) bits (first_or None xr) btc yld) k =
      Done (clears (met bits xr) btc, yld || outranked (tasks k) (priority bc) (met bits xr)) k' ∧
    kinv k' (wake_all (tasks k) us C) None ∧ waiters_blocked (tasks k') (wake_all (tasks k) us C) ∧
    tasks k' = ready_all us (tasks k) ∧ wake_all (tasks k) us C !! WaitList wl = Some (xl ++ unmet bits xr) ∧
    same_rest k k' ∧ (log_idle k → log_idle k') ∧
    (∀ t, t ∈ us.*1 → free (ls k') (EventNode t) (BlockItem t (Z.lor bits UNBLOCKED_DUE_TO_BIT_SET))) ∧
    (∀ t u, t ∉ us.*1 → free (ls k) (EventNode t) u → free (ls k') (EventNode t) u).
Proof.
  revert k C xl xr btc yld bc. induction fuel as [|fuel IH]; intros k C xl xr btc yld bc Hk Hw HC Hc Hbc Hf;
    (destruct xr as [|e xr]; [exists [], k; cbn; rewrite orb_false_r; split_and!; try done; set_solver|]); [cbn in Hf; lia|].
  destruct (k_entries _ _ _ _ Hk _ _ e HC ltac:(set_solver)) as (t & o & b & -> & Hb).
  destruct (exec_deref_waiter k C wl xl xr t o Hk HC) as (m & Hm & Hv & Hn). cbn [first_or set_loop fst].
  run Hm. rewrite Hv, Hn. cbn [met]. unfold unmet. rewrite filter_cons.
  change (satisfied bits (no_control o) (has_bit o WAIT_FOR_ALL_BITS)) with (meets bits (EventNode t, BlockItem t o)).
  destruct (meets bits (EventNode t, BlockItem t o)) eqn:Em.
  - rewrite decide_False by done. run (exec_deref_task _ _ _ Hb).
    rewrite (exec_bind_done _ _ _ _ _ (exec_current _ _ Hc)). run (exec_deref_task _ _ _ Hbc).
    destruct (wake_one k C wl xl xr t o (Z.lor bits UNBLOCKED_DUE_TO_BIT_SET) Hk Hw HC)
      as (w & k1 & Hin & Hex & Hk1 & Ets & Hw1 & HC1 & Hr1 & Hi1 & Hf1 & Hfr1).
    pose proof (set_state_prio Ready t (tasks k)) as Ep. rewrite <-Ets in Ep.
    destruct (same_prio_lookup _ _ c bc Ep Hbc) as (bc1 & Hbc1 & Epc).
    assert (Hc1 : current_task k1 = Some c) by (destruct Hr1 as (_ & -> & _); done).
    destruct (IH k1 _ xl xr (if has_bit o CLEAR_EVENTS_ON_EXIT_BIT then Z.lor btc (no_control o) else btc)
      (yld || prio_lt (priority bc) (priority b)) bc1 Hk1 Hw1 HC1 Hc1 Hbc1 ltac:(cbn in Hf; lia))
      as (us & k2 & Eus & Hin2 & Hex2 & Hk2 & Hw2 & Ets2 & HC2 & Hr2 & Hi2 & Hf2 & Hfr2).
    rewrite (wake_all_prio _ _ _ _ Ep) in Hk2, Hw2, HC2. exists ((t, w) :: us), k2.
    apply exec_bind_inv in Hex as ([] & k0 & E1 & E2). split_and!; try done.
    + cbn. by rewrite Eus.
    + intros t' w' [[= -> ->]|Hin']%elem_of_cons; [done|]. by eapply in_delay_wake, Hin2.
    + run E1. run E2. rewrite Hex2, Epc, (outranked_prio _ _ _ _ Ep). unfold clears, outranked. cbn [foldl existsb fst snd].
      by rewrite Hb, orb_assoc.
    + by rewrite Ets2, Ets.
    + unfold same_rest in *. intuition congruence.
    + auto.
    + intros t' [->|Hin']%elem_of_cons; [|by apply Hf2]. destruct (decide (t ∈ us.*1)); [by apply Hf2|by apply Hfr2].
    + intros t' u [Hne Hnin]%not_elem_of_cons Hu. by apply Hfr2, Hfr1.
  - rewrite decide_True by done.
    rewrite (cons_middle (EventNode t, BlockItem t o) xl xr), (assoc_L (++)) in HC.
    destruct (IH k C (xl ++ [(EventNode t, BlockItem t o)]) xr btc yld bc Hk Hw HC Hc Hbc ltac:(cbn in Hf; lia))
      as (us & k2 & Eus & Hin2 & Hex2 & Hk2 & Hw2 & Ets2 & HC2 & Hrest).
    exists us, k2. rewrite <-(assoc_L (++)) in HC2. split_and!; try done; apply Hrest.
Qed.
End set_loop.

(** Where an event group is in memory, and its wait list. *)
Record eglayout := EgLayout { eg_word : nat; eg_wait : nat }.
Definition eg_of (l : eglayout) : EventGroup := {| event_bits := Z.of_nat (eg_word l); waiting_tasks := eg_wait l |}.

Section eg.
Context `{Arch, Board, TxFeatures} (Hboard : board_ok) (Hopt : opt_tx_cache_space = true) (Hcache : cache_ok).
Implicit Types (k : kernel) (C : contents) (m : list Z).

Lemma is_usize_bits z : 0 ≤ z → is_usize z ↔ ∀ i, word_bits ≤ i → Z.testbit z i = false.
Proof.
  intros Hz. pose proof word_bits_cases. unfold is_usize, usize_mod. rewrite <-Z.bounded_iff_bits_nonneg by lia. lia.
Qed.
Lemma is_usize_lor a b : is_usize a → is_usize b → is_usize (Z.lor a b).
Proof.
  intros Ha Hb. pose proof Ha as [Ha0 _]. pose proof Hb as [Hb0 _].
  apply is_usize_bits; [by apply Z.lor_nonneg|]. intros i Hi. rewrite Z.lor_spec.
  apply orb_false_iff. split; by apply (is_usize_bits _).
Qed.
Lemma is_usize_land a b : is_usize a → is_usize (Z.land a b).
Proof.
  intros Ha. pose proof Ha as [Ha0 _]. apply is_usize_bits; [apply Z.land_nonneg; by left|].
  intros i Hi. rewrite Z.land_spec. apply andb_false_iff. left. by apply (is_usize_bits _).
Qed.

(** Task [t] makes a system call on an event group whose bits are [v]; [n] of its
    transactions are behind it. *)
Record eg_call (l : eglayout) (n : nat) (bs : list Z) (v : Z) (k : kernel) (C : contents) (t : nat) (b : tcb) (bb : bool) : Prop := {
  ec_kinv : kinv k C None;
  ec_waiters : waiters_blocked (tasks k) C;
  ec_caller : in_syscall k t b;
  ec_ready : ready bb n n (length bs) bs (kmem k) (tx_of k b);
  ec_word : word (kmem k) (eg_word l) v;
  ec_bounds : Z.of_nat (length (kmem k)) < usize_mod;
  ec_journal : Z.of_nat (record_size usize_bytes) ≤ JOURNAL_SIZE;
}.
(** Bytes outside of it. *)
Definition eg_frame (l : eglayout) m m' : Prop :=
  length m' = length m ∧ ∀ a j, (a + j ≤ length m)%nat → apart a j (eg_word l) usize_bytes → slice a j m' = slice a j m.

Lemma eg_frame_trans l m1 m2 m3 : eg_frame l m1 m2 → eg_frame l m2 m3 → eg_frame l m1 m3.
Proof. intros [L1 F1] [L2 F2]. split; [congruence|]. intros a n Hk Ho. rewrite F2, F1; congruence. Qed.

(** A task after its transaction. *)
Lemma tx_upd_task t d k b :
  tasks k !! t = Some b → ∃ b', tasks (tx_upd t d k) !! t = Some b' ∧ tx_of (tx_upd t d k) b' = d ∧ priority b' = priority b.
Proof.
  intros Hb. eexists. cbn. rewrite lookup_alter_eq, Hb. split; [done|]. split; [|done]. unfold tx_of. cbn.
  by destruct d as [[? ?] ? ? ?].
Qed.
Lemma tx_upd_same t k b : in_syscall k t b → tx_upd t (tx_of k b) k = k.
Proof.
  intros [_ Hb _ _ Hm]. unfold tx_upd, tx_of. destruct k. unfold with_kmem, with_tasks. cbn in *. f_equal.
  apply map_eq. intros t'. destruct (decide (t' = t)) as [->|?]; [|by rewrite lookup_alter_ne].
  rewrite lookup_alter_eq, Hb. destruct b as [? ? [? [[? ?] ? ? ?] ? ? ?]]. cbn in *. by subst.
Qed.

Lemma exec_kernel_pm {A} (p : prog pmem A) k t b a :
  in_syscall k t b → exec p (tx_pm (tx_of k b)) = Done a (tx_pm (tx_of k b)) → exec (kernel_pm p) k = Done a k.
Proof.
  intros Hsc E. unfold kernel_pm. rewrite <-(tx_upd_same t k b Hsc) at 2. apply (exec_kernel_tx _ _ _ _ _ _ Hsc).
  rewrite (exec_zoom_done (Lens0 := pm_lens) p _ _ _ E). by destruct (tx_of k b).
Qed.

(** Reading the bits. *)
Lemma exec_eg_read l n bs v k C t b bb :
  eg_call l n bs v k C t b bb → exec (kernel_pm (get_event_bits (eg_of l))) k = Done (no_control v) k ∧
    ∀ w all, exec (kernel_pm (wait_condition_ok (eg_of l) w all)) k = Done (satisfied v w all) k.
Proof.
  intros Hc. pose proof (exec_read_usize (tx_pm (tx_of k b)) (eg_word l) v (ec_word _ _ _ _ _ _ _ _ _ Hc)) as E.
  split; [|intros w all]; apply (exec_kernel_pm _ k t b); try apply Hc; unfold get_event_bits, wait_condition_ok; by run E.
Qed.

(** A transaction that updates them. *)
Lemma exec_eg_update l n bs v k C t b bb f :
  eg_call l n bs v k C t b bb → is_usize (f v) → id_ok (Z.of_nat (S n)) →
  ∃ k' b', exec (kernel_tx (run_relaxed (update_var (event_bits (eg_of l)) f))) k = Done tt k' ∧
    eg_call l (S n) bs (f v) k' C t b' true ∧ priority b' = priority b ∧ same_status (tasks k) (tasks k') ∧
    eg_frame l (kmem k) (kmem k') ∧ ls k' = ls k ∧ tm k' = tm k ∧ kcpu k' = kcpu k ∧ klog k' = klog k.
Proof.
  intros [Hk Hw Hsc Hr Hword Hb Hj] Hf Hid. pose proof Hr as [Hrepr _ Hu _ _]. pose proof Hword as (Hl & _ & _).
  assert (Hj0 : tail (journal (tx_pm (tx_of k b))) = 0).
  { pose proof Hu as (Hj' & _). destruct Hj' as (_ & _ & _ & l0 & rest & _ & -> & Hlr). inversion Hlr as [|? es e]; [done|].
    exfalso. by apply (app_cons_not_nil es [] e). }
  destruct (runs_exec _ _ _ _ (runs_update_var Hboard (λ _, True) [] (kmem k) (tx_pm (tx_of k b)) (eg_word l) v f
    (λ _ s', (∃ es, jrepr es (journal s')) ∧ bytes s' = list_inserts (eg_word l) (usize_to_bytes (f v)) (kmem k))
    Hu Hword ltac:(lia) ltac:(rewrite Hj0; lia) (λ _ _ _, I) ltac:(intros s' es [Hjr _] Hs _; eauto)))
    as ([] & p & Ef & Hes & Hp).
  assert (Hfit : fits (T := unit) n (length bs)).
  { split; [done|]. pose proof (repr_room _ _ _ _ Hrepr). cbn. lia. }
  destruct (exec_run_relaxed Hopt Hcache _ bb n bs (kmem k) (tx_of k b) tt p Hr Hfit Ef Hes) as (d & E & Hd & Hr').
  cbn [to_bytes plain_unit] in Hr'. rewrite app_nil_r in Hr'.
  destruct (tx_upd_task t d k b ltac:(by destruct Hsc)) as (b' & Hb' & Etx & Epr).
  assert (Hm : kmem (tx_upd t d k) = list_inserts (eg_word l) (usize_to_bytes (f v)) (kmem k)) by by (cbn; rewrite Hd).
  exists (tx_upd t d k), b'. split_and!; try done.
  - by apply (exec_kernel_tx _ _ _ b).
  - destruct (in_syscall_tx_upd t d k b Hsc) as (b2 & Hsc2 & _).
    assert (b2 = b') as -> by (destruct Hsc2; congruence). split; try done.
    + by apply kinv_tx_upd.
    + by eapply waiters_status; [apply tx_upd_status|].
    + rewrite Etx. cbn. by rewrite Hd.
    + rewrite Hm. by apply word_set.
    + by rewrite Hm, length_inserts.
  - apply tx_upd_status.
  - rewrite Hm. split; [apply length_inserts|]. intros a n0 Hk0 Ho.
    rewrite slice_inserts_apart; rewrite ?length_usize_to_bytes; done.
Qed.

(** Waking other tasks. *)
Lemma ready_all_lookup us ts t b :
  ts !! t = Some b →
  ∃ b', ready_all us ts !! t = Some b' ∧ utask b' = utask b ∧ priority b' = priority b ∧
    (is_schedulable b = true → is_schedulable b' = true).
Proof.
  revert ts b; induction us as [|u us IH]; intros ts b Hb; [by exists b|]. cbn [ready_all foldl].
  destruct (decide (u.1 = t)) as [E|Hne].
  - destruct (IH (set_state Ready u.1 ts) (Build_tcb (priority b) Ready (utask b))) as (b' & ? & ? & ? & Hs).
    { unfold set_state. by rewrite E, lookup_alter_eq, Hb. }
    exists b'. split_and!; try done. intros _. by apply Hs.
  - apply (IH (set_state Ready u.1 ts) b). unfold set_state. by rewrite lookup_alter_ne.
Qed.
Lemma ready_all_status us ts ts' : same_status ts ts' → same_status (ready_all us ts) (ready_all us ts').
Proof. revert ts ts'; induction us as [|u us IH]; intros ts ts' E; [done|]. cbn. by apply IH, set_state_status. Qed.

Lemma eg_call_woken l n bs v k C t b bb us k' C' :
  eg_call l n bs v k C t b bb → kinv k' C' None → waiters_blocked (tasks k') C' → tasks k' = ready_all us (tasks k) →
  same_rest k k' → ∃ b', eg_call l n bs v k' C' t b' bb ∧ priority b' = priority b.
Proof.
  intros [_ _ [Hc Hb Hs Hd Hm] Hr Hword Hbd Hj] Hk' Hw' Ets (Etm & Ec & Ecpu & Em & _).
  destruct (ready_all_lookup us (tasks k) t b Hb) as (b' & Hb' & Eu & Ep & Hsch). rewrite <-Ets in Hb'.
  exists b'. split; [|done]. assert (tx_of k' b' = tx_of k b) as Etx by by (unfold tx_of; rewrite Em, Eu).
  split; rewrite ?Em, ?Etx; try done. split; rewrite ?Eu, ?Ec; auto.
Qed.

Lemma eg_call_cpu l n bs v k C t b bb c : eg_call l n bs v k C t b bb → eg_call l n bs v (lset c k) C t b bb.
Proof. intros [? ? [] ? ? ? ?]. by split; [..|split|done|done|done|done]. Qed.

Lemma exec_wait_list k C wl xs :
  kinv k C None → C !! WaitList wl = Some xs →
  exec (on_lists (deref_list (WaitList wl))) k = Done (Build_PList (Z.of_nat (length xs)) None (first_or None xs)) k ∧
  (length xs ≤ size (nodes (ls k)))%nat.
Proof.
  intros Hk HC. destruct (proj1 (k_repr _ _ _ _ Hk) _ _ HC) as (Hl & Hs & Hnd). split.
  - unfold on_lists, deref_list. cbn. by rewrite Hl.
  - rewrite <-(length_fmap fst). apply nodup_length_size; [done|]. intros y Hy. by eapply seg_is_Some.
Qed.

(** C25: Setting bits of an event group, in one critical section: the bits are set;
    exactly the waiters that they satisfy, all bits or any as each asked, move from
    the wait list and the delay list to the ends of their ready lists, in order,
    and the node of each tells it the bits; the others keep waiting; the bits that
    the woken tasks asked to clear are cleared; the caller yields if one of them is
    more important than it. The loop ends. *)
Theorem set_event_group_bits_correct l n bs v k C t b bb yield bits xs :
  eg_call l n bs v k C t b bb → cpu_ok k → id_ok (Z.of_nat (S (S n))) → is_usize bits →
  C !! WaitList (eg_wait l) = Some xs →
  let v1 := Z.lor v (no_control bits) in
  let ms := met (no_control v1) xs in
  ∃ us k' b', us.*1 = ms.*1 ∧ (∀ t w, (t, w) ∈ us → in_list C DelayList (SchedNode t, SchedItem t w)) ∧
    let C' := wake_all (tasks k) us C in
    exec (set_event_group_bits yield (eg_of l) bits) k = exec (when (outranked (tasks k) (priority b) ms) yield) k' ∧
    eg_call l (S (S n)) bs (Z.land v1 (unot (clears ms 0))) k' C' t b' true ∧
    C' !! WaitList (eg_wait l) = Some (unmet (no_control v1) xs) ∧
    (∀ t, t ∈ us.*1 → free (ls k') (EventNode t) (BlockItem t (Z.lor (no_control v1) UNBLOCKED_DUE_TO_BIT_SET))) ∧
    same_status (ready_all us (tasks k)) (tasks k') ∧ eg_frame l (kmem k) (kmem k') ∧ kcpu k' = kcpu k ∧ tm k' = tm k.
Proof.
  intros Hc Hcpu Hid Hbits HC v1 ms.
  assert (Hv1 : is_usize v1) by (apply is_usize_lor; [apply Hc|by apply is_usize_land]).
  assert (Hid1 : id_ok (Z.of_nat (S n))) by (unfold id_ok in *; lia).
  pose proof (eg_call_cpu _ _ _ _ _ _ _ _ _ {| interrupts := false; nesting_cnt := nesting_cnt (kcpu k) + 1 |} Hc) as Hc0.
  destruct (exec_eg_update l n bs v _ C t b bb (λ v, Z.lor v (no_control bits)) Hc0 Hv1 Hid1)
    as (k1 & b1 & Ex1 & Hc1 & Ep1 & Es1 & Hf1 & Els1 & Etm1 & Ecpu1 & _).
  destruct (exec_eg_read _ _ _ _ _ _ _ _ _ Hc1) as [Ex2 _].
  destruct (exec_wait_list k1 C (eg_wait l) xs (ec_kinv _ _ _ _ _ _ _ _ _ Hc1) HC) as [Ex3 Hlen].
  pose proof (ec_caller _ _ _ _ _ _ _ _ _ Hc1) as [Hcur1 Hb1 _ _ _].
  destruct (set_loop_spec (size (nodes (ls k1))) k1 C (eg_wait l) [] xs (no_control v1) 0 false t b1
    (ec_kinv _ _ _ _ _ _ _ _ _ Hc1) (ec_waiters _ _ _ _ _ _ _ _ _ Hc1) HC Hcur1 Hb1 Hlen)
    as (us & k2 & Eus & Hin & Ex4 & Hk2 & Hw2 & Ets2 & HC2 & Hr2 & _ & Hv2 & _).
  pose proof (same_status_prio _ _ Es1) as Esp. rewrite (wake_all_prio _ _ _ _ Esp) in Hk2, Hw2, HC2.
  destruct (eg_call_woken _ _ _ _ _ _ _ _ _ us k2 _ Hc1 Hk2 Hw2 Ets2 Hr2) as (b2 & Hc2 & Ep2).
  destruct (exec_eg_update l (S n) bs v1 k2 _ t b2 true (λ v, Z.land v (unot (clears ms 0))) Hc2 (is_usize_land _ _ Hv1) Hid)
    as (k3 & b3 & Ex5 & Hc3 & Ep3 & Es3 & Hf3 & Els3 & Etm3 & Ecpu3 & _).
  destruct Hr2 as (Etm2 & _ & Ecpu2 & Em2 & _).
  exists us, (lset (kcpu k) k3), b3. split; [done|]. split; [done|]. split_and!.
  - unfold set_event_group_bits. rewrite (exec_bind_done _ _ _ (outranked (tasks k) (priority b) ms) (lset (kcpu k) k3)); [done|].
    apply exec_critical; [done| |by rewrite Ecpu3, Ecpu2, Ecpu1]. run Ex1. run Ex2. run Ex3.
    rewrite (exec_bind_done _ _ _ k1 k1) by done. cbn [head]. run Ex4. run Ex5. cbn [exec].
    by rewrite (outranked_prio _ _ _ _ Esp), Ep1.
  - by apply eg_call_cpu.
  - done.
  - intros t' Ht'. cbn. rewrite Els3. by apply Hv2.
  - cbn. eapply same_status_trans; [by apply ready_all_status|]. by rewrite <-Ets2.
  - cbn. eapply eg_frame_trans; [exact Hf1|]. by rewrite <-Em2.
  - done.
  - cbn. rewrite Etm3, Etm2, Etm1. done.
Qed.

(** *** Waiting *)

Lemma exec_block_value k t o :
  (∃ nd, nodes (ls k) !! EventNode t = Some nd ∧ value nd = BlockItem t o) → exec (get_block_item_value t) k = Done o k.
Proof.
  intros (nd & Hm & Hv). unfold get_block_item_value. by rewrite (exec_bind_done _ _ _ _ _ (exec_deref_node _ _ _ Hm)), Hv.
Qed.

Lemma masked_restore k : lset (kcpu k) (masked k) = k.
Proof. by destruct k. Qed.

(** A critical section that only reads. *)
Lemma exec_critical_read {A} (f : prog kernel A) k v :
  cpu_ok k → exec f (masked k) = Done v (masked k) → exec (with_no_interrupt f) k = Done v k.
Proof. intros Hcpu E. rewrite (exec_critical f k (masked k) v) by done. by rewrite masked_restore. Qed.

Lemma exec_block_for_bits time_bits l k C t b o val wait_ticks xs :
  kinv k C None → in_syscall k t b → C !! WaitList (eg_wait l) = Some xs → free (ls k) (EventNode t) (BlockItem t o) →
  let w := tick_counter (tm k) + wait_ticks in
  if w <=? MAX_DELAY_TIME time_bits then
    ∃ k', exec (block_for_bits time_bits (eg_of l) val wait_ticks) k = Done tt k' ∧
      kinv k' (block_front (tasks k) (eg_wait l) t val w C) None ∧ fell_asleep t w k k'
  else exec (block_for_bits time_bits (eg_of l) val wait_ticks) k = Failed Panic.
Proof.
  intros Hk [Hc Hb Hs _ _] HC Hf w. pose proof Hf as (m & Hm & _).
  set (k1 := with_ls (value_store (EventNode t) (BlockItem t val) (ls k)) k).
  assert (Hk1 : kinv k1 C None) by by eapply sinv_free_value.
  assert (Hf1 : free (ls k1) (EventNode t) (BlockItem t val)) by by eapply free_value_eq.
  unfold block_for_bits. rewrite (exec_bind_done _ _ _ _ _ (exec_current _ _ Hc)).
  unfold set_block_item_value. rewrite (exec_bind_done _ _ _ _ _ (exec_set_value _ (BlockItem t val) _ _ Hm)). fold k1.
  rewrite (exec_bind_done _ _ _ (tick_counter (tm k)) k1) by done. unfold time_checked_add. fold w.
  destruct (w <=? MAX_DELAY_TIME time_bits); [|done].
  destruct (insert_into_unsorted_refines k1 C (eg_wait l) t b val w xs Hk1 Hb Hs HC Hf1) as (k' & Hex & Hk' & Hsl).
  exists k'. split; [|done]. exact Hex.
Qed.

Lemma exec_after_wait l n bs v k C t b bb bits w all :
  eg_call l n bs v k C t b bb → cpu_ok k → id_ok (Z.of_nat (S n)) →
  let ok := satisfied v w all in
  let clear := ok && has_bit bits CLEAR_EVENTS_ON_EXIT_BIT in
  ∃ k' b', exec (after_wait (eg_of l) bits w all) k = Done ok k' ∧
    eg_call l (if clear then S n else n) bs (if clear then Z.land v (unot w) else v) k' C t b' (bb || clear) ∧
    same_status (tasks k) (tasks k') ∧ eg_frame l (kmem k) (kmem k') ∧ kcpu k' = kcpu k.
Proof.
  intros Hc Hcpu Hid ok clear.
  pose proof (eg_call_cpu _ _ _ _ _ _ _ _ _ {| interrupts := false; nesting_cnt := nesting_cnt (kcpu k) + 1 |} Hc) as Hc0.
  destruct (exec_eg_read _ _ _ _ _ _ _ _ _ Hc0) as [_ Er]. unfold after_wait. fold (masked k) in Er.
  destruct clear eqn:Ec.
  - destruct (exec_eg_update l n bs v _ C t b bb (λ v, Z.land v (unot w)) Hc0) as (k1 & b1 & Ex & Hc1 & _ & Es & Hf & _ & _ & Ecpu & _);
      [apply is_usize_land, (ec_word _ _ _ _ _ _ _ _ _ Hc)|done|].
    exists (lset (kcpu k) k1), b1. rewrite orb_true_r. split_and!; try done; [|by apply eg_call_cpu].
    apply exec_critical; [done| |done]. run (Er w all). fold ok. unfold clear in Ec. rewrite Ec. cbn [when]. by run Ex.
  - exists k, b. rewrite orb_false_r. split_and!; try done. apply exec_critical_read; [done|]. run (Er w all).
    fold ok. unfold clear in Ec. by rewrite Ec.
Qed.

(** The rest of a wait once the caller runs again, in [k] with the bits [v]: it was
    woken by bits, or it looks at them once more. *)
Definition resumed (l : eglayout) (t : nat) (w : Z) (all : bool) (r : result kernel (Result Z Z)) (k : kernel) : Prop :=
  ∀ n bs v C b bb o, eg_call l n bs v k C t b bb → cpu_ok k → id_ok (Z.of_nat (S n)) →
    (∃ nd, nodes (ls k) !! EventNode t = Some nd ∧ value nd = BlockItem t o) →
    if has_bit o UNBLOCKED_DUE_TO_BIT_SET then r = Done (Ok (no_control o)) k
    else
      let ok := satisfied v w all in
      let clear := ok && has_bit o CLEAR_EVENTS_ON_EXIT_BIT in
      ∃ k' b', r = Done (if ok : bool then Ok (no_control o) else Err (no_control o)) k' ∧
        eg_call l (if clear then S n else n) bs (if clear then Z.land v (unot w) else v) k' C t b' (bb || clear) ∧
        same_status (tasks k) (tasks k') ∧ eg_frame l (kmem k) (kmem k') ∧ kcpu k' = kcpu k.

Lemma exec_resumed l t w all k :
  resumed l t w all (exec (let* t := current in
    let* event_bits := get_block_item_value t in
    if has_bit event_bits UNBLOCKED_DUE_TO_BIT_SET then Ret (Ok (no_control event_bits)) else
    let* ok := after_wait (eg_of l) event_bits w all in
    Ret (if ok : bool then Ok (no_control event_bits) else Err (no_control event_bits))) k) k.
Proof.
  intros n bs v C b bb o Hc Hcpu Hid Ho. pose proof (ec_caller _ _ _ _ _ _ _ _ _ Hc) as [Hcur _ _ _ _].
  rewrite (exec_bind_done _ _ _ _ _ (exec_current _ _ Hcur)). rewrite (exec_bind_done _ _ _ _ _ (exec_block_value _ _ _ Ho)).
  destruct (has_bit o UNBLOCKED_DUE_TO_BIT_SET); [done|]. cbn zeta.
  destruct (exec_after_wait l n bs v k C t b bb o w all Hc Hcpu Hid) as (k' & b' & Ex & Hrest).
  exists k', b'. split; [|done]. by run Ex.
Qed.

Definition control_bits (clear_on_exit wait_for_all_bits : bool) : Z :=
  Z.lor (if clear_on_exit then CLEAR_EVENTS_ON_EXIT_BIT else 0) (if wait_for_all_bits then WAIT_FOR_ALL_BITS else 0).

(** C26: Waiting for bits [w] of an event group. A task that has been woken by bits
    in an execution before a power failure returns them at once. Otherwise, if the
    bits are set, all or any, they are returned, and cleared if asked; if the call
    must not wait, the bits are returned as they are, as a success; if the timeout
    overflows it panics; else the caller joins the front of the wait list, its node
    holding the bits and how it waits, sleeps until the timeout and yields, and
    what it returns then is told by [resumed]. *)
Theorem event_group_wait_correct time_bits l n bs v k C t b bb yield w clear all wait_ticks xs o :
  eg_call l n bs v k C t b bb → cpu_ok k → id_ok (Z.of_nat (S n)) →
  free (ls k) (EventNode t) (BlockItem t o) → C !! WaitList (eg_wait l) = Some xs →
  let r := exec (event_group_wait time_bits yield (eg_of l) w clear all wait_ticks) k in
  let until := tick_counter (tm k) + wait_ticks in
  if has_bit o UNBLOCKED_DUE_TO_BIT_SET then r = Done (Ok (no_control o)) k
  else if satisfied v w all then
    ∃ k' b', r = Done (Ok (no_control v)) k' ∧
      eg_call l (if clear then S n else n) bs (if clear then Z.land v (unot w) else v) k' C t b' (bb || clear) ∧
      same_status (tasks k) (tasks k') ∧ eg_frame l (kmem k) (kmem k') ∧ kcpu k' = kcpu k
  else if 0 <? wait_ticks then
    if until <=? MAX_DELAY_TIME time_bits then
      ∃ k', kinv k' (block_front (tasks k) (eg_wait l) t (Z.lor w (control_bits clear all)) until C) None ∧
        waiters_blocked (tasks k') (block_front (tasks k) (eg_wait l) t (Z.lor w (control_bits clear all)) until C) ∧
        fell_asleep t until k k' ∧ ∀ k3, exec yield k' = Done tt k3 → resumed l t w all r k3
    else r = Failed Panic
  else r = Done (Ok (no_control v)) k.
Proof.
  intros Hc Hcpu Hid Hf HC r until. pose proof (ec_caller _ _ _ _ _ _ _ _ _ Hc) as Hsc. pose proof Hsc as [Hcur _ _ _ _].
  pose proof (eg_call_cpu _ _ _ _ _ _ _ _ _ {| interrupts := false; nesting_cnt := nesting_cnt (kcpu k) + 1 |} Hc) as Hc0.
  fold (masked k) in Hc0. destruct (exec_eg_read _ _ _ _ _ _ _ _ _ Hc0) as [Eg Er].
  unfold r, event_group_wait, wait_for_event_group_bits. rewrite (exec_bind_done _ _ _ _ _ (exec_current _ _ Hcur)).
  rewrite (exec_bind_done _ _ _ _ _ (exec_block_value k t o (free_node _ _ _ Hf))).
  destruct (has_bit o UNBLOCKED_DUE_TO_BIT_SET); [done|].
  fold (control_bits clear all). destruct (satisfied v w all) eqn:Es.
  - destruct clear.
    + destruct (exec_eg_update l n bs v _ C t b bb (λ v, Z.land v (unot w)) Hc0) as (k1 & b1 & Ex & Hc1 & _ & Es1 & Hf1 & _ & _ & Ecpu & _);
        [apply is_usize_land, (ec_word _ _ _ _ _ _ _ _ _ Hc)|done|].
      exists (lset (kcpu k) k1), b1. rewrite orb_true_r. split_and!; try done; [|by apply eg_call_cpu].
      rewrite (exec_bind_done _ _ _ (no_control v, 0) (lset (kcpu k) k1)); [done|].
      apply exec_critical; [done| |done]. run (Er w all). rewrite Es. run Eg. cbn [when]. by run Ex.
    + exists k, b. rewrite orb_false_r. split_and!; try done.
      rewrite (exec_bind_done _ _ _ (no_control v, 0) k); [done|].
      apply exec_critical_read; [done|]. run (Er w all). rewrite Es. by run Eg.
  - destruct (0 <? wait_ticks) eqn:Ew.
    + pose proof (exec_block_for_bits time_bits l (masked k) C t b o (Z.lor w (control_bits clear all)) wait_ticks xs
        (ec_kinv _ _ _ _ _ _ _ _ _ Hc0) (ec_caller _ _ _ _ _ _ _ _ _ Hc0) HC Hf) as Hblock.
      change (tick_counter (tm (masked k)) + wait_ticks) with until in Hblock. cbn zeta in Hblock.
      destruct (until <=? MAX_DELAY_TIME time_bits).
      * destruct Hblock as (k1 & Ex & Hk1 & Hsl & Hrest). exists (lset (kcpu k) k1). split_and!.
        -- exact Hk1.
        -- eapply waiters_blocking_front; [apply Hc|exact Hsl].
        -- unfold fell_asleep. cbn. split_and!; try apply Hrest; done.
        -- intros k3 Ey. rewrite (exec_bind_done _ _ _ (0, wait_ticks) (lset (kcpu k) k1)).
           2:{ apply exec_critical; [done| |apply Hrest]. run (Er w all). rewrite Es. cbn [negb]. by run Ex. }
           rewrite Ew. run Ey. apply exec_resumed.
      * rewrite exec_bind. rewrite (exec_critical_fail _ _ Panic); [done|done|]. run (Er w all). rewrite Es.
        by rewrite exec_bind, Hblock.
    + rewrite (exec_bind_done _ _ _ (no_control v, wait_ticks) k); [by rewrite Ew|].
      apply exec_critical_read; [done|]. run (Er w all). rewrite Es. by run Eg.
Qed.
End eg.

(** ** Concrete executions *)

Section runs.
#[local] Existing Instances cortex_m qemu default_features.
Import BlockingOps.calls.

Definition demo_eg (wl : nat) : eglayout := EgLayout 0 wl.
(** Task 2 waits with [o]; the bits are [v]. *)
Definition waits_for (o v : Z) : kernel :=
  with_ls (value_store (EventNode 2) (BlockItem 2 o) (ls demo)) (demo_with (usize_to_bytes v)).
(** The system call of task 0. *)
Definition set_call (bits : Z) : prog kernel unit :=
  on_task 0 restart_syscall_tx_cache;;; event_group_set (Ret tt) (eg_of (demo_eg 0)) bits.

(** Setting bits is not atomic: the bits to clear are collected in a local
    variable. When power fails after a waiter that asked to clear them has been
    told, the call that is executed again does not meet this waiter, and the bits
    stay set, for the next waiter as well. *)
Theorem event_bits_not_cleared :
  let k := waits_for (Z.lor 1 CLEAR_EVENTS_ON_EXIT_BIT) 0 in
  let ok := result_of (exec (set_call 1) k) demo in
  let c := failed_after 30 (set_call 1) k in
  let again := result_of (exec (increase_generation;;; recover;;; set_call 1) c) demo in
  (kmem ok = usize_to_bytes 0 ∧ state_of ok 2 = Some Ready) ∧
  op (klog c) = WaitListRemoval ∧
  (kmem again = usize_to_bytes 1 ∧ state_of again 2 = Some Ready ∧
   (λ n, value n) <$> nodes (ls again) !! EventNode 2 = Some (BlockItem 2 (Z.lor 1 UNBLOCKED_DUE_TO_BIT_SET))).
Proof. vm_compute. repeat split. Qed.
End runs.

Module example.
#[local] Existing Instances cortex_m qemu default_features.
Import BlockingOps.calls.

Lemma demo_eg_call wl v : v = 0 ∨ v = 3 → eg_call (demo_eg wl) 0 [] v (demo_with (usize_to_bytes v)) demo_contents 0 (demo_task 1 Running) false.
Proof.
  intros Hv. split.
  - apply demo_with_kinv.
  - exact SchedOps.example.demo_waiters.
  - apply demo_in_syscall.
  - apply demo_ready.
  - destruct Hv as [-> | ->]; split_and!; [vm_compute; lia|reflexivity|by vm_compute|vm_compute; lia|reflexivity|by vm_compute].
  - destruct Hv as [-> | ->]; by vm_compute.
  - by vm_compute.
Qed.

(** Task 2 waits for bit 0, to be cleared; bits 0 and 1 are set. *)
Definition o2 : Z := Z.lor 1 CLEAR_EVENTS_ON_EXIT_BIT.
Lemma waiting_eg_call :
  eg_call (demo_eg 0) 0 [] 0 (waits_for o2 0) (<[WaitList 0 := [(EventNode 2, BlockItem 2 o2)]]> demo_contents) 0 (demo_task 1 Running) false.
Proof.
  destruct (demo_eg_call 0 0 (or_introl eq_refl)) as [Hk Hw [] Hr Hword Hb Hj]. split; try done.
  - by apply (sinv_reblock _ _ _ _ _ [] [] _ 0).
  - by apply (waiters_reblock _ _ _ [] [] 2 0).
Qed.

Lemma set_event_group_bits_correct_witness :
  ∃ us k' b', us.*1 = [2%nat] ∧ exec (set_event_group_bits (Ret tt) (eg_of (demo_eg 0)) 3) (waits_for o2 0) = Done tt k' ∧
    eg_call (demo_eg 0) 2 [] 2 k' (wake_all (tasks demo) us (<[WaitList 0 := [(EventNode 2, BlockItem 2 o2)]]> demo_contents)) 0 b' true.
Proof.
  destruct (set_event_group_bits_correct UserTx.example.board_ok_qemu demo_opt demo_cache_ok (demo_eg 0) 0 [] 0 _ _ 0
    (demo_task 1 Running) false (Ret tt) 3 _ waiting_eg_call (demo_cpu_ok _) ltac:(by vm_compute) ltac:(by vm_compute)
    (lookup_insert_eq _ _ _)) as (us & k' & b' & Eus & _ & E & Hc & _).
  exists us, k', b'. split; [exact Eus|]. split; [exact E|exact Hc].
Defined.

Lemma event_group_wait_correct_witness :
  ∃ k' b', exec (event_group_wait 32 (Ret tt) (eg_of (demo_eg 1)) 1 true true 0) (demo_with (usize_to_bytes 3)) = Done (Ok 3) k' ∧
    eg_call (demo_eg 1) 1 [] 2 k' demo_contents 0 b' true.
Proof.
  destruct (event_group_wait_correct UserTx.example.board_ok_qemu demo_opt demo_cache_ok 32 (demo_eg 1) 0 [] 3 _ _ 0
    (demo_task 1 Running) false (Ret tt) 1 true true 0 _ 0 (demo_eg_call 1 3 (or_intror eq_refl)) (demo_cpu_ok _) ltac:(by vm_compute)
    (demo_free _) eq_refl) as (k' & b' & E & Hc & _).
  exists k', b'. split; [exact E|exact Hc].
Defined.
End example.
