(* ===== verification/Heap.v ===== *)
(** * The heaps ([heap.rs])

    Bump allocators: one over volatile memory, one over persistent memory for
    each task and for booting, and the global one that the heaps of the tasks are
    taken from. *)

From S2P Require Import Prelude Arch Pmem Util Transaction PVar.

(** [core::alloc::Layout] *)
Record Layout := { layout_size : Z; layout_align : Z }.
Record MemStat := { mem_used : Z; mem_left : Z }.

(** [BumpAllocator] in volatile memory. *)
Record BumpAllocator := { heap_start : Z; heap_end : Z; bump_next : Z }.
Definition with_next (n : Z) (b : BumpAllocator) : BumpAllocator :=
  {| heap_start := heap_start b; heap_end := heap_end b; bump_next := n |}.

(** [PMHeap<PerTaskPMBumpAllocator>] and [GlobalPMHeap] in persistent memory: the
    addresses of the object and of its fields. *)
Record PMHeap := { ph_obj : Z; ph_start : Z; ph_end : Z; ph_next : Z }.
Record GlobalPMHeap := { gh_obj : Z; gh_end : Z; gh_next : Z }.

(** The store: [HEAP], persistent memory with the journal of the transaction
    that runs, and the processor. *)
Record heaps := { HEAP : BumpAllocator; hmem : pmem; hcpu : cpu }.
#[export] Instance heap_lens : Lens BumpAllocator heaps :=
  {| lget := HEAP; lset b h := {| HEAP := b; hmem := hmem h; hcpu := hcpu h |} |}.
#[export] Instance hmem_lens : Lens pmem heaps :=
  {| lget := hmem; lset m h := {| HEAP := HEAP h; hmem := m; hcpu := hcpu h |} |}.
#[export] Instance hcpu_lens : Lens cpu heaps :=
  {| lget := hcpu; lset c h := {| HEAP := HEAP h; hmem := hmem h; hcpu := c |} |}.
#[export] Instance heap_lens_laws : LensLaws BumpAllocator heaps.
Proof. by split; try done; intros []. Qed.
#[export] Instance hmem_lens_laws : LensLaws pmem heaps.
Proof. by split; try done; intros []. Qed.
#[export] Instance hcpu_lens_laws : LensLaws cpu heaps.
Proof. by split; try done; intros []. Qed.

Section heap.
Context `{Arch, Board}.

Definition bump_new : BumpAllocator := {| heap_start := 0; heap_end := 0; bump_next := 0 |}.

(** [Allocator for BumpAllocator]; the null pointer is 0. *)
Definition bump_alloc (l : Layout) : prog heaps Z :=
  with_no_interrupt (
    let* b := zoom (S := BumpAllocator) get in
    let alloc_start := align_up (bump_next b) (layout_align l) in
    match checked_add alloc_start (layout_size l) with
    | None => Ret 0
    | Some alloc_end =>
        if heap_end b <? alloc_end then Ret 0
        else zoom (modify (with_next alloc_end));;; Ret alloc_start
    end).
Definition bump_dealloc (ptr : Z) (l : Layout) : prog heaps unit := skip.
Definition bump_init (start size : Z) : prog BumpAllocator unit :=
  modify (λ _, {| heap_start := start; heap_end := uadd start size; bump_next := start |}).
Definition bump_reset : prog BumpAllocator unit := modify (λ b, with_next (heap_start b) b).
Definition bump_stat (b : BumpAllocator) : MemStat :=
  {| mem_used := usub (bump_next b) (heap_start b); mem_left := usub (heap_end b) (bump_next b) |}.

(** [PMAllocator for PerTaskPMBumpAllocator] *)
Definition per_task_alloc (h : PMHeap) (l : Layout) : prog pmem Z :=
  let* next := read_usize (ph_next h) in
  let alloc_start := align_up next (layout_align l) in
  match checked_add alloc_start (layout_size l) with
  | None => Ret 0
  | Some alloc_end =>
      let* heap_end := read_usize (ph_end h) in
      if heap_end <? alloc_end then Ret 0
      else write_usize (ph_next h) alloc_end;;; Ret alloc_start
  end.
Definition pm_alloc (h : PMHeap) (l : Layout) : prog pmem Z :=
  append_log_of (ph_obj h) (Z.of_nat (3 * usize_bytes));;;
  per_task_alloc h l.
Definition pm_dealloc (h : PMHeap) (ptr : Z) (l : Layout) : prog pmem unit := skip.
Definition pm_init (h : PMHeap) (start size : Z) : prog pmem unit :=
  write_usize (ph_start h) start;;;
  write_usize (ph_end h) (uadd start size);;;
  write_usize (ph_next h) start.
Definition pm_reset (h : PMHeap) : prog pmem unit :=
  let* start := read_usize (ph_start h) in write_usize (ph_next h) start.
Definition pm_stat (h : PMHeap) : prog pmem MemStat :=
  let* start := read_usize (ph_start h) in
  let* end_ := read_usize (ph_end h) in
  let* next := read_usize (ph_next h) in
  Ret {| mem_used := usub next start; mem_left := usub end_ next |}.

(** [GlobalPMHeap] *)
Definition global_init (g : GlobalPMHeap) (start size : Z) : prog pmem unit :=
  write_usize (gh_next g) start;;;
  write_usize (gh_end g) (uadd start size).
Definition global_alloc (g : GlobalPMHeap) (size : Z) : prog heaps (Result Z ErrorCode) :=
  with_no_interrupt (
    let* next := zoom (read_usize (gh_next g)) in
    let* end_ := zoom (read_usize (gh_end g)) in
    if end_ <? uadd next size then Ret (Err NoSpace)
    else
      zoom (append_log_of (gh_obj g) (Z.of_nat (2 * usize_bytes)));;;
      let* r := zoom (read_usize (gh_next g)) in
      zoom (write_usize (gh_next g) (uadd r size));;;
      Ret (Ok r)).

Definition create_per_task_pm_heap (g : GlobalPMHeap) (h : PMHeap) (size : Z) : prog heaps (Result unit unit) :=
  if size =? 0 then zoom (pm_init h 0 0);;; Ret (Ok tt)
  else
    let* r := global_alloc g size in
    match r with
    | Ok start => zoom (pm_init h start size);;; Ret (Ok tt)
    | Err _ => Ret (Err tt)
    end.

(** [init]: the heaps are set up once; [first_done] is the address of
    [HEAP_FIRST_INIT_DONE], the areas are given by their addresses. *)
Definition heap_init (boot : PMHeap) (g : GlobalPMHeap) (first_done heap_area boot_area pm_area : Z) : prog heaps unit :=
  when (0 <? HEAP_SIZE) (zoom (bump_init heap_area HEAP_SIZE));;;
  let* done := zoom (read_bytes first_done 1) in
  if decide (done = [0]) then
    zoom (pm_init boot boot_area BOOT_PM_HEAP_SIZE);;;
    zoom (global_init g pm_area PM_HEAP_SIZE);;;
    zoom (write_bytes first_done [1])
  else skip.

(** [get_pm_heap]: the heap of the current task once the scheduler runs. *)
Definition get_pm_heap (scheduler_started : bool) (current_heap boot_heap : PMHeap) : PMHeap :=
  if scheduler_started then current_heap else boot_heap.

(** [palloc], [pm_new_relaxed], [palloc_array] on the heap that [get_pm_heap]
    gives; [None] is a null pointer. *)
Definition non_null (p : Z) : option Z := if p =? 0 then None else Some p.
Definition palloc (h : PMHeap) (l : Layout) : prog pmem (option Z) :=
  let* p := pm_alloc h l in Ret (non_null p).
Definition pm_new_relaxed (h : PMHeap) (l : Layout) (object : list Z) : prog pmem (option Z) :=
  let* ptr := palloc h l in
  match ptr with
  | Some p => write_bytes p object;;; Ret (Some p)
  | None => Ret None
  end.
(** [Layout::array::<u8>(n)]: at most [isize::MAX] bytes, aligned to 1. *)
Definition layout_array_u8 (n : Z) : option Layout :=
  if n <? usize_mod / 2 then Some {| layout_size := n; layout_align := 1 |} else None.
Definition palloc_array (h : PMHeap) (size_of_T n : Z) : prog pmem (option Z) :=
  match layout_array_u8 (umul size_of_T n) with
  | None => Ret None
  | Some l => let* p := pm_alloc h l in Ret (non_null p)
  end.
Definition pfree (h : PMHeap) (ptr : Z) (l : Layout) : prog pmem Z := pm_dealloc h ptr l;;; Ret 0.
Definition pfree_array (h : PMHeap) (ptr size_of_T n : Z) : prog pmem Z :=
  match layout_array_u8 (umul size_of_T n) with
  | None => Ret 0
  | Some l => pm_dealloc h ptr l;;; Ret 0
  end.
End heap.
