(* ===== verification/HeapSpec.v ===== *)
(** * What the heaps promise

    A persistent heap hands out aligned blocks inside of it that never overlap, or
    nothing when there is no room; an allocation rolls back with its transaction. *)

From S2P Require Import Prelude Arch Pmem PmemSpec Util Transaction PVar Heap.

(** Where a heap's record is in memory. *)
Record hlayout := HLayout { hl_obj : nat; hl_start : nat; hl_end : nat; hl_next : nat }.
Definition heap_of (l : hlayout) : PMHeap := {|
  ph_obj := Z.of_nat (hl_obj l); ph_start := Z.of_nat (hl_start l);
  ph_end := Z.of_nat (hl_end l); ph_next := Z.of_nat (hl_next l);
|}.

Section spec.
Context `{Arch, Board} (Hboard : board_ok) (l : hlayout).
Implicit Types (m : list Z) (s : pmem).

(** The heap spans [start, stop) and is used up to [next]. *)
Record heap_repr m (start stop next : Z) : Prop := {
  hr_start : word m (hl_start l) start;
  hr_end : word m (hl_end l) stop;
  hr_next : word m (hl_next l) next;
  hr_order : start ≤ next ≤ stop;
  hr_object : (hl_obj l + 3 * usize_bytes ≤ length m)%nat;
  hr_inside : (hl_obj l ≤ hl_next l)%nat ∧ (hl_next l + usize_bytes ≤ hl_obj l + 3 * usize_bytes)%nat;
  hr_apart : apart (hl_start l) usize_bytes (hl_next l) usize_bytes ∧ apart (hl_end l) usize_bytes (hl_next l) usize_bytes;
  hr_bounds : Z.of_nat (length m) < usize_mod;
}.

(** A block of [size] bytes, aligned to [2 ^ k], behind [next]. *)
Definition aligned (next k : Z) : Z := 2 ^ k * ((next + 2 ^ k - 1) / 2 ^ k).
Lemma aligned_bounds next k : 0 ≤ k → next ≤ aligned next k < next + 2 ^ k ∧ (2 ^ k | aligned next k).
Proof.
  intros Hk. unfold aligned. assert (0 < 2 ^ k) by (apply Z.pow_pos_nonneg; lia).
  pose proof (Z.div_mod (next + 2 ^ k - 1) (2 ^ k)). pose proof (Z.mod_pos_bound (next + 2 ^ k - 1) (2 ^ k)).
  split; [nia|apply Z.divide_factor_l].
Qed.

(** Bytes outside of the field [next]. *)
Definition next_frame m m' : Prop :=
  length m' = length m ∧ ∀ b n, (b + n ≤ length m)%nat → apart b n (hl_next l) usize_bytes → slice b n m' = slice b n m.

Lemma heap_set_next m start stop next next' :
  heap_repr m start stop next → start ≤ next' ≤ stop →
  heap_repr (list_inserts (hl_next l) (usize_to_bytes next') m) start stop next' ∧
    next_frame m (list_inserts (hl_next l) (usize_to_bytes next') m).
Proof.
  intros [Hs He Hn Ho Hob Hi [Ha1 Ha2] Hb] Hle. pose proof Hn as (Hl & _ & Hu).
  assert (is_usize next') by (destruct Hs as (_ & _ & [? _]), He as (_ & _ & [_ ?]); unfold is_usize; lia).
  split; [split|split].
  - apply word_inserts; rewrite ?length_usize_to_bytes; done.
  - apply word_inserts; rewrite ?length_usize_to_bytes; done.
  - by apply word_set.
  - done.
  - by rewrite length_inserts.
  - done.
  - done.
  - by rewrite length_inserts.
  - apply length_inserts.
  - intros b n Hk Hap. by rewrite slice_inserts_apart; rewrite ?length_usize_to_bytes.
Qed.

Definition heap_record : nat := record_size (3 * usize_bytes).
(** The block fits in front of the end of the heap, and the arithmetic does not wrap. *)
Definition layout_ok (stop size k : Z) : Prop := 0 ≤ k < word_bits ∧ 0 ≤ size < usize_mod ∧ stop + 2 ^ k ≤ usize_mod - 1.

Lemma runs_pm_alloc m0 es s start stop next size k :
  undoes es m0 s → heap_repr (bytes s) start stop next → layout_ok stop size k →
  tail (journal s) + Z.of_nat heap_record ≤ JOURNAL_SIZE →
  runs (λ c, ∃ es, undoes es m0 c) (pm_alloc (heap_of l) {| layout_size := size; layout_align := 2 ^ k |}) s
    (λ p s', (∃ es, undoes es m0 s') ∧ tail (journal s') = tail (journal s) + Z.of_nat heap_record ∧
       let p0 := aligned next k in
       if p0 + size <=? stop then p = p0 ∧ heap_repr (bytes s') start stop (p0 + size) ∧ next_frame (bytes s) (bytes s')
       else p = 0 ∧ bytes s' = bytes s).
Proof.
  intros Hu Hr (Hk & Hsz & Htop) Hroom. pose proof Hr as [Hs He Hn Ho Hob [Hi1 Hi2] Hap Hb].
  pose proof Hn as (Hl & _ & Hun). pose proof He as (_ & _ & Hue). pose proof Hs as (_ & _ & Hus).
  pose proof (aligned_bounds next k ltac:(lia)) as [Hp _].
  assert (Ealign : align_up next (2 ^ k) = aligned next k) by (apply align_up_pow2; unfold is_usize in *; lia).
  assert (Hobj : is_object (Z.of_nat (hl_obj l)) (Z.of_nat (3 * usize_bytes))).
  { pose proof usize_half. destruct usize_bytes_cases as [E|[E|E]]; rewrite E in *; split; lia. }
  unfold pm_alloc. cbn [heap_of ph_obj]. eapply runs_bind.
  { apply (runs_append_log Hboard _ es m0 s (hl_obj l) (3 * usize_bytes) (λ _ s', bytes s' = bytes s ∧
      tail (journal s') = tail (journal s) + Z.of_nat heap_record ∧
      undoes (es ++ [{| e_addr := hl_obj l; e_old := slice (hl_obj l) (3 * usize_bytes) (bytes s) |}]) m0 s')); try done; eauto. }
  intros [] s1 (Eb & Et & Hu1). rewrite <-Eb in Hn, He, Hr, Hl, Hob.
  unfold per_task_alloc. cbn [heap_of ph_next ph_end layout_align layout_size].
  apply (runs_let_read _ _ _ next); [by eauto|done|]. rewrite Ealign. unfold checked_add.
  assert (Hfail : runs (λ c, ∃ es, undoes es m0 c) (Ret 0) s1 (λ p s', (∃ es, undoes es m0 s') ∧
    tail (journal s') = tail (journal s) + Z.of_nat heap_record ∧ p = 0 ∧ bytes s' = bytes s)) by (apply runs_ret; eauto).
  destruct (Z.ltb_spec (aligned next k + size) usize_mod) as [Hov|Hov].
  2:{ rewrite (proj2 (Z.leb_gt _ _)) by (unfold is_usize in *; lia). exact Hfail. }
  apply (runs_let_read _ _ _ stop); [by eauto|done|].
  destruct (Z.ltb_spec stop (aligned next k + size)) as [Hno|Hyes].
  { rewrite (proj2 (Z.leb_gt _ _)) by lia. exact Hfail. }
  rewrite (proj2 (Z.leb_le _ _)) by lia.
  destruct (heap_set_next (bytes s1) start stop next (aligned next k + size) Hr ltac:(lia)) as [Hr' Hf'].
  assert (Hu2 : undoes (es ++ [{| e_addr := hl_obj l; e_old := slice (hl_obj l) (3 * usize_bytes) (bytes s) |}]) m0
    (set_bytes (list_inserts (hl_next l) (usize_to_bytes (aligned next k + size))) s1)).
  { eapply undoes_covered; [done|apply elem_of_app; right; constructor| |rewrite length_usize_to_bytes; done].
    unfold covers. cbn [e_addr e_old]. rewrite length_usize_to_bytes, length_slice by (rewrite <-Eb; lia). lia. }
  eapply runs_bind; [apply (runs_write_usize _ s1 (hl_next l) _
    (λ _ s', s' = set_bytes (list_inserts (hl_next l) (usize_to_bytes (aligned next k + size))) s1)); eauto|].
  intros [] ? ->. apply runs_ret; [by eauto|]. split; [by eauto|]. split; [done|]. split; [done|]. cbn. rewrite <-Eb. done.
Qed.
End spec.

(** ** Sequences of allocations *)

Section sequence.
Context `{Arch, Board} (Hboard : board_ok) (l : hlayout).

(** The blocks of a transaction, each with its size. *)
Fixpoint pm_allocs (ls : list Layout) : prog pmem (list (Z * Z)) :=
  match ls with
  | [] => Ret []
  | x :: ls =>
      let* p := pm_alloc (heap_of l) x in
      let* ps := pm_allocs ls in
      Ret ((p, layout_size x) :: ps)
  end.

(** The blocks that are not null lie between [lo] and [stop], in this order. *)
Fixpoint blocks (lo stop : Z) (ps : list (Z * Z)) : Prop :=
  match ps with
  | [] => True
  | (p, size) :: ps => if p =? 0 then blocks lo stop ps else lo ≤ p ∧ p + size ≤ stop ∧ blocks (p + size) stop ps
  end.

Lemma blocks_lookup lo stop ps j q b :
  blocks lo stop ps → Forall (λ x, 0 ≤ x.2) ps → ps !! j = Some (q, b) → q ≠ 0 → lo ≤ q ∧ q + b ≤ stop.
Proof.
  revert lo j; induction ps as [|[p size] ps IH]; intros lo j Hb Hs Hj Hq; [done|].
  apply Forall_cons in Hs as [Hs0 Hs]. cbn in Hb, Hs0. destruct j as [|j]; cbn in Hj.
  - injection Hj as -> ->. destruct (Z.eqb_spec q 0); [done|]. lia.
  - destruct (p =? 0); [by eapply IH|]. destruct Hb as (Hlo & _ & Hb). destruct (IH _ j Hb Hs Hj Hq). lia.
Qed.
Lemma blocks_ordered lo stop ps i j p a q b :
  blocks lo stop ps → Forall (λ x, 0 ≤ x.2) ps → (i < j)%nat → ps !! i = Some (p, a) → ps !! j = Some (q, b) →
  p ≠ 0 → q ≠ 0 → p + a ≤ q.
Proof.
  revert lo i j; induction ps as [|[r size] ps IH]; intros lo i j Hb Hs Hij Hi Hj Hp Hq; [done|].
  apply Forall_cons in Hs as [_ Hs]. cbn in Hb. destruct j as [|j]; [lia|]. cbn in Hj. destruct i as [|i]; cbn in Hi.
  - injection Hi as -> ->. destruct (Z.eqb_spec p 0); [done|]. destruct Hb as (_ & _ & Hb).
    by destruct (blocks_lookup _ _ _ j q b Hb Hs Hj Hq).
  - destruct (r =? 0); [|destruct Hb as (_ & _ & Hb)]; (eapply IH; [done|done| |done..]; lia).
Qed.

Lemma runs_pm_allocs ls m0 s es start stop next :
  undoes es m0 s → heap_repr l (bytes s) start stop next → 0 < next →
  Forall (λ x, ∃ k, layout_align x = 2 ^ k ∧ layout_ok stop (layout_size x) k) ls →
  tail (journal s) + Z.of_nat (length ls * heap_record) ≤ JOURNAL_SIZE →
  runs (λ c, ∃ es, undoes es m0 c) (pm_allocs ls) s
    (λ ps s', (∃ es, undoes es m0 s') ∧ blocks next stop ps ∧ ps.*2 = layout_size <$> ls ∧
       ∃ next', heap_repr l (bytes s') start stop next' ∧ next ≤ next').
Proof.
  revert s es next; induction ls as [|x ls IH]; intros s es next Hu Hr Hn Hls Hroom.
  { apply runs_ret; [by eauto|]. split; [by eauto|]. split_and!; try done. exists next. split; [done|lia]. }
  apply Forall_cons in Hls as [(k & Ek & Hx) Hls]. cbn [length Nat.mul] in Hroom. destruct x as [size align]. cbn in Ek, Hx. subst align.
  cbn [pm_allocs layout_size]. eapply runs_bind; [apply (runs_pm_alloc Hboard l m0 es s start stop next size k Hu Hr Hx ltac:(lia))|].
  intros p s1 ((es1 & Hu1) & Et & Hcase). cbn zeta in Hcase.
  pose proof (aligned_bounds next k ltac:(destruct Hx; lia)) as [Hp _].
  assert (Hstep : ∃ next1, heap_repr l (bytes s1) start stop next1 ∧ next ≤ next1 ∧
    ∀ ps, blocks next1 stop ps → blocks next stop ((p, size) :: ps)).
  { destruct (Z.leb_spec (aligned next k + size) stop) as [Hfit|Hno].
    - destruct Hcase as (-> & Hr1 & _). exists (aligned next k + size). split; [done|]. split; [destruct Hx as (_ & ? & _); lia|].
      intros ps Hps. cbn. destruct (Z.eqb_spec (aligned next k) 0); [lia|]. split_and!; [lia|lia|done].
    - destruct Hcase as (-> & Eb). exists next. rewrite Eb. by split_and!. }
  destruct Hstep as (next1 & Hr1 & Hle & Hblocks).
  eapply runs_bind; [apply (IH s1 es1 next1 Hu1 Hr1 ltac:(lia) Hls ltac:(lia))|].
  intros ps s2 (Hes & Hb & E2 & next2 & Hr2 & Hle2). apply runs_ret; [done|]. split; [done|]. split; [by apply Hblocks|].
  split; [cbn; by rewrite E2|]. exists next2. split; [done|lia].
Qed.
End sequence.

(** ** Theorems *)

(** C27: An allocation from a persistent heap: the next block of the asked size and
    alignment, if it ends inside the heap, which is then used up to its end, or a
    null pointer; nothing else changes. When power fails at any point of it the
    rollback of the transaction restores the heap: no block leaks. *)
Theorem pm_alloc_correct `{Arch, Board} l s start stop next size k :
  board_ok → undoes [] (bytes s) s → heap_repr l (bytes s) start stop next → layout_ok stop size k →
  tail (journal s) + Z.of_nat heap_record ≤ JOURNAL_SIZE →
  let p := pm_alloc (heap_of l) {| layout_size := size; layout_align := 2 ^ k |} in
  let p0 := align_up next (2 ^ k) in
  (∃ s', if p0 + size <=? stop
         then exec p s = Done p0 s' ∧ (2 ^ k | p0) ∧ next ≤ p0 ∧
              heap_repr l (bytes s') start stop (p0 + size) ∧ next_frame l (bytes s) (bytes s')
         else exec p s = Done 0 s' ∧ bytes s' = bytes s) ∧
  ∀ c, c ∈ crash_states p s → ∃ d, exec journal_recover c = Done tt d ∧ bytes d = bytes s.
Proof.
  intros Hboard Hu Hr Hok Hroom p p0. pose proof Hok as (Hk & Hsz & Htop). pose proof Hr as [_ Hstop [_ [_ Hun]] Ho _ _ _ _].
  pose proof (runs_pm_alloc Hboard l (bytes s) [] s start stop next size k Hu Hr Hok Hroom) as Hruns.
  assert (Ep : p0 = aligned next k).
  { destruct Hstop as (_ & _ & Hue). apply align_up_pow2; unfold is_usize in *; lia. }
  destruct (aligned_bounds next k ltac:(lia)) as [Hp Hdiv]. split.
  - destruct (runs_exec _ _ _ _ Hruns) as (a & s' & Ex & _ & _ & Hcase). exists s'. rewrite Ep. cbn zeta in Hcase.
    destruct (aligned next k + size <=? stop); destruct Hcase as (-> & Hrest); [|done]. split_and!; [done|done|lia|apply Hrest..].
  - intros c Hc. destruct (runs_always _ _ _ _ Hruns c Hc) as [es Hes].
    pose proof (exec_journal_recover Hboard es (bytes s) c Hes) as E. eexists. split; [exact E|done].
Qed.

(** The blocks that a transaction allocates are inside of the heap, behind
    everything that was allocated before it, and do not overlap. *)
Theorem allocations_disjoint `{Arch, Board} l ls s start stop next :
  board_ok → undoes [] (bytes s) s → heap_repr l (bytes s) start stop next → 0 < next →
  Forall (λ x, ∃ k, layout_align x = 2 ^ k ∧ layout_ok stop (layout_size x) k) ls →
  tail (journal s) + Z.of_nat (length ls * heap_record) ≤ JOURNAL_SIZE →
  ∃ ps s', exec (pm_allocs l ls) s = Done ps s' ∧ ps.*2 = layout_size <$> ls ∧
    (∀ i p a, ps !! i = Some (p, a) → p ≠ 0 → next ≤ p ∧ p + a ≤ stop) ∧
    (∀ i j p a q b, (i < j)%nat → ps !! i = Some (p, a) → ps !! j = Some (q, b) → p ≠ 0 → q ≠ 0 → p + a ≤ q).
Proof.
  intros Hboard Hu Hr Hn Hls Hroom.
  destruct (runs_exec _ _ _ _ (runs_pm_allocs Hboard l ls (bytes s) s [] start stop next Hu Hr Hn Hls Hroom))
    as (ps & s' & Ex & _ & Hb & E2 & _).
  assert (Hs : Forall (λ x, 0 ≤ x.2) ps).
  { apply Forall_forall. intros x Hx%(list_elem_of_fmap_2 snd). rewrite E2 in Hx. apply list_elem_of_fmap in Hx as (y & -> & Hy).
    rewrite Forall_forall in Hls. by destruct (Hls y Hy) as (k & _ & _ & [? _] & _). }
  exists ps, s'. split; [done|]. split; [done|]. split.
  - intros i p a Hi Hp. by eapply blocks_lookup.
  - intros i j p a q b Hij Hi Hj Hp Hq. by eapply blocks_ordered.
Qed.

(** An array is allocated with the alignment of a byte, whatever the type of its
    elements: behind an odd number of bytes an array of words is not aligned. *)
Theorem palloc_array_misaligned `{Arch, Board} l s start stop next size_of_T n :
  board_ok → undoes [] (bytes s) s → heap_repr l (bytes s) start stop next → 0 < next →
  0 ≤ size_of_T * n < usize_mod / 2 → next + size_of_T * n ≤ stop → stop + 1 ≤ usize_mod - 1 →
  tail (journal s) + Z.of_nat heap_record ≤ JOURNAL_SIZE →
  ∃ s', exec (palloc_array (heap_of l) size_of_T n) s = Done (Some next) s'.
Proof.
  intros Hboard Hu Hr Hn Hsz Hfit Htop Hroom.
  assert (0 < word_bits) by (destruct word_bits_cases as [->|[->| ->]]; lia).
  assert (Hpos : 0 < usize_mod) by (apply Z.pow_pos_nonneg; lia).
  assert (Hhalf : usize_mod / 2 ≤ usize_mod) by (apply Z.div_le_upper_bound; lia).
  unfold palloc_array, umul, wrap. rewrite Z.mod_small by lia. unfold layout_array_u8.
  destruct (Z.ltb_spec (size_of_T * n) (usize_mod / 2)) as [_|]; [|lia].
  destruct (runs_exec _ _ _ _ (runs_pm_alloc Hboard l (bytes s) [] s start stop next (size_of_T * n) 0 Hu Hr
    ltac:(split_and!; lia) Hroom)) as (p & s' & Ex & _ & _ & Hcase).
  assert (E : aligned next 0 = next) by (unfold aligned; rewrite Z.add_simpl_r, Z.div_1_r; lia).
  cbn zeta in Hcase. rewrite E, (proj2 (Z.leb_le _ _)) in Hcase by lia. destruct Hcase as (-> & _).
  exists s'. rewrite exec_bind. change (2 ^ 0) with 1 in Ex. rewrite Ex. cbn. unfold non_null.
  by destruct (Z.eqb_spec next 0); [lia|].
Qed.

Module example.
#[local] Existing Instances cortex_m qemu.

(** A heap of 31 bytes behind its first, of which one is used. *)
Definition demo_heap : hlayout := HLayout 4 4 8 12.
Definition demo_heap_mem (next : Z) : pmem := {|
  bytes := replicate 4 0 ++ usize_to_bytes 32 ++ usize_to_bytes 64 ++ usize_to_bytes next ++ replicate 48 7;
  journal := journal_new |}.

Lemma demo_heap_repr next : next = 33 ∨ next = 40 → heap_repr demo_heap (bytes (demo_heap_mem next)) 32 64 next.
Proof.
  intros [-> | ->]; (split; [split_and!; [vm_compute; lia|reflexivity|by vm_compute]..|lia|vm_compute; lia|vm_compute; lia| |by vm_compute]);
    (split; [left; vm_compute; lia|left; vm_compute; lia]).
Qed.
Lemma demo_heap_undoes next : undoes [] (bytes (demo_heap_mem next)) (demo_heap_mem next).
Proof. split_and!; [apply jrepr_new, example.qemu_ok|done..]. Qed.
Lemma demo_layout_ok size k : (0 <=? size) && (size <? 100) && (0 <=? k) && (k <? 5) = true → layout_ok 64 size k.
Proof.
  rewrite !andb_true_iff, !Z.leb_le, !Z.ltb_lt. intros (((? & ?) & ?) & ?).
  assert (2 ^ k < 2 ^ 5) by (apply Z.pow_lt_mono_r; lia). change (2 ^ 5) with 32 in *.
  split_and!; try (change usize_mod with (2 ^ 32); change word_bits with 32; lia).
Qed.

(** Six bytes at a multiple of four; a block of thirty bytes does not fit. *)
Lemma pm_alloc_correct_witness :
  (∃ s', exec (pm_alloc (heap_of demo_heap) {| layout_size := 6; layout_align := 4 |}) (demo_heap_mem 33) = Done 36 s' ∧
    heap_repr demo_heap (bytes s') 32 64 42) ∧
  ∃ s', exec (pm_alloc (heap_of demo_heap) {| layout_size := 30; layout_align := 4 |}) (demo_heap_mem 33) = Done 0 s'.
Proof.
  split.
  - destruct (pm_alloc_correct demo_heap (demo_heap_mem 33) 32 64 33 6 2 example.qemu_ok (demo_heap_undoes _)
      (demo_heap_repr _ (or_introl eq_refl)) (demo_layout_ok 6 2 ltac:(by vm_compute)) ltac:(by vm_compute)) as [(s' & E & _ & _ & Hr & _) _].
    exists s'. split; [exact E|exact Hr].
  - destruct (pm_alloc_correct demo_heap (demo_heap_mem 33) 32 64 33 30 2 example.qemu_ok (demo_heap_undoes _)
      (demo_heap_repr _ (or_introl eq_refl)) (demo_layout_ok 30 2 ltac:(by vm_compute)) ltac:(by vm_compute)) as [(s' & E & _) _].
    exists s'. exact E.
Defined.

Definition demo_layouts : list Layout :=
  [{| layout_size := 6; layout_align := 4 |}; {| layout_size := 9; layout_align := 8 |}].
Lemma allocations_disjoint_witness :
  ∃ ps s', exec (pm_allocs demo_heap demo_layouts) (demo_heap_mem 33) = Done ps s' ∧ ps.*2 = [6; 9] ∧
    (∀ i j p a q b, (i < j)%nat → ps !! i = Some (p, a) → ps !! j = Some (q, b) → p ≠ 0 → q ≠ 0 → p + a ≤ q).
Proof.
  destruct (allocations_disjoint demo_heap demo_layouts (demo_heap_mem 33) 32 64 33 example.qemu_ok (demo_heap_undoes _)
    (demo_heap_repr _ (or_introl eq_refl)) ltac:(lia)) as (ps & s' & E & Hs & _ & Hd).
  - repeat constructor; [exists 2|exists 3]; (split; [done|by apply demo_layout_ok; vm_compute]).
  - by vm_compute.
  - exists ps, s'. split; [exact E|]. split; [exact Hs|exact Hd].
Defined.

(** An array of words at address 33. *)
Lemma palloc_array_misaligned_witness :
  ∃ s', exec (palloc_array (heap_of demo_heap) 4 3) (demo_heap_mem 33) = Done (Some 33) s'.
Proof.
  apply (palloc_array_misaligned demo_heap (demo_heap_mem 33) 32 64 33 4 3 example.qemu_ok (demo_heap_undoes _)
    (demo_heap_repr _ (or_introl eq_refl))); try lia; by vm_compute.
Defined.

(** The global heap adds the size that is asked for without a check of overflow
    (in a build without overflow checks): a request of almost the whole address
    space is granted, and the next request gets memory in front of the heap. *)
Theorem global_alloc_overflow :
  let g := {| gh_obj := 4; gh_end := 4; gh_next := 8 |} in
  let s := {| HEAP := bump_new; hmem := {| bytes := replicate 4 0 ++ usize_to_bytes 96 ++ usize_to_bytes 64 ++ replicate 84 7;
                                           journal := journal_new |};
              hcpu := {| interrupts := true; nesting_cnt := 0 |} |} in
  ∃ s', exec (global_alloc g (2 ^ 32 - 32)) s = Done (Ok 64) s' ∧
    ∃ s'', exec (global_alloc g 8) s' = Done (Ok 32) s''.
Proof. eexists. split; [vm_compute; reflexivity|]. eexists. vm_compute. reflexivity. Qed.
End example.
