(* ===== verification/Timer.v ===== *)
(** * Software timers ([time.rs])

    A daemon owns the timers: it calls back the expired ones and executes the
    commands that other tasks send through a queue. The active timers are in a list
    sorted by expiry time, which only the daemon changes. *)

From S2P Require Import Prelude Arch Pmem TxCache Transaction Replay UserTx Util PList Kernel ListTx Sched Blocking Queue.

(** [Timer] without its name; its [list_node] is the node [TimerNode] of the list
    store. *)
Record Timer := {
  period_ticks : Z;
  callback : Z;
  param : Z;
  call_back_is_closure : bool;
  active : bool;
  auto_reload : bool;
}.
Definition set_active (b : bool) (t : Timer) : Timer :=
  Build_Timer (period_ticks t) (callback t) (param t) (call_back_is_closure t) b (auto_reload t).
Definition set_period (n : Z) (t : Timer) : Timer :=
  Build_Timer n (callback t) (param t) (call_back_is_closure t) (active t) (auto_reload t).

Inductive TimerCmd := CmdInvalid | CmdStart | CmdStop | CmdReset | CmdDelete | CmdSetPeriod.
Record TimerMessage := { cmd : TimerCmd; msg_timer : option nat; opaque : Z }.
Inductive TimerErr := NoTimerDaemon | CmdQueueBusy.

(** The kernel with the timers and the fields of [TIME_MANAGER] that only the
    daemon uses. *)
Record tstore := {
  kern : kernel;
  timer_objs : gmap nat Timer;
  timer_cmd_queue : option Queue;
  message_buf : TimerMessage;
}.
Definition with_kern (k : kernel) (s : tstore) : tstore :=
  Build_tstore k (timer_objs s) (timer_cmd_queue s) (message_buf s).
Definition with_timers (f : gmap nat Timer → gmap nat Timer) (s : tstore) : tstore :=
  Build_tstore (kern s) (f (timer_objs s)) (timer_cmd_queue s) (message_buf s).
Definition with_message (m : TimerMessage) (s : tstore) : tstore :=
  Build_tstore (kern s) (timer_objs s) (timer_cmd_queue s) m.
#[export] Instance kern_lens : Lens kernel tstore := {| lget := kern; lset := with_kern |}.
#[export] Instance kern_lens_laws : LensLaws kernel tstore.
Proof. by split; try done; intros []. Qed.

(** *** User transactions around a body in the kernel *)

Section daemon_tx.
Context `{Arch, Board, TxFeatures}.
Context {S : Type} `{!Lens kernel S}.

Definition on_kernel {A} (p : prog kernel A) : prog S A := zoom p.
Definition on_current {A} (p : prog task A) : prog S A := on_kernel (let* t := current in on_task t p).

(** [user::transaction::run_once], [run_sys_once] *)
Definition run_once {A} (f : prog S A) : prog S A :=
  on_current (on_user_tx tx_begin);;;
  let* ret := f in
  on_current (on_user_tx tx_commit_no_replay);;;
  Ret ret.
Definition run_sys_once {A} (f : prog S A) : prog S A :=
  on_current user_tx_start;;;
  let* r := run_once f in
  on_current user_tx_end;;;
  Ret r.

(** [syscall_begin!] and [syscall_end!] around a call of the kernel. *)
Definition kernel_syscall {T} `{Plain T} (pad : list Z) (body : prog S T) : prog S T :=
  let* r := on_current (zoom (get_entry (T := T))) in
  match r with
  | Some ret => on_current (on_user_tx debug_may_bypass);;; Ret ret
  | None =>
      on_current restart_syscall_tx_cache;;;
      let* ret := body in
      on_current (
        zoom (add_entry_start pad ret);;;
        commit_syscall_tx_cache;;;
        reset_list_transaction;;;
        zoom add_entry_commit);;;
      Ret ret
  end.
End daemon_tx.

Section timers.
Context `{Arch, Board, TxFeatures} (time_bits : Z).
(** The functions that the timers call back, by their address and parameter. *)
Context (dispatch : Z → Z → prog tstore unit).
(** The layout of the messages in the queue and of what a receive returns; giving
    up the processor. *)
Context `{!Plain TimerMessage, !Plain (Result TimerMessage ErrorCode), !Plain (Result TimerMessage QueueErr)}.
Context (yield : prog kernel unit) (pad : list Z).

Definition deref_timer (i : nat) : prog tstore Timer :=
  let* s := get in unwrap_unchecked (timer_objs s !! i).
Definition update_timer (f : Timer → Timer) (i : nat) : prog tstore unit :=
  let* _ := deref_timer i in modify (with_timers (alter f i)).
Definition get_cmd_queue_ptr : prog tstore (option Queue) := gets timer_cmd_queue.
Definition get_next_expiry_time : prog kernel Z := gets (λ k, next_expiry_time (tm k)).
Definition expired_by_now (time : Z) : prog kernel bool :=
  let* now := get_ticks in Ret (time <=? now).

(** [Timer::set_expiry_time] on the timer's own node. *)
Definition set_expiry_time (i : nat) (time : Z) : prog kernel unit :=
  set_value (TimerNode i) (TimerItem i time).
Definition activate_timer (i : nat) (expiry_time : Z) : prog tstore unit :=
  update_timer (set_active true) i;;;
  on_kernel (set_expiry_time i expiry_time).
Definition deactivate_timer (i : nat) : prog tstore unit := update_timer (set_active false) i.

(** The commands, as [process_receive_timer_cmd] executes them. *)
Definition execute_cmd (msg : TimerMessage) : prog tstore unit :=
  match msg_timer msg with
  | None => skip
  | Some i =>
      match cmd msg with
      | CmdStart | CmdReset =>
          let* timer := deref_timer i in
          let* expiry_time := unwrap (time_checked_add time_bits (opaque msg) (period_ticks timer)) in
          activate_timer i expiry_time;;;
          on_kernel (atomic_roll_forward_remove_reinsert_into_activelist (TimerNode i))
      | CmdStop | CmdDelete =>
          update_timer (set_active false) i;;;
          on_kernel (atomic_roll_forward_remove_from_activelist (TimerNode i))
      | CmdSetPeriod =>
          let new_period := opaque msg in
          if new_period <=? 0 then skip else
          update_timer (set_period new_period) i;;;
          let* cur_time := on_kernel get_ticks in
          let* expiry_time := unwrap (time_checked_add time_bits cur_time new_period) in
          activate_timer i expiry_time;;;
          on_kernel (atomic_roll_forward_remove_reinsert_into_activelist (TimerNode i))
      | CmdInvalid => skip
      end
  end.

(** The transaction that receives a command and executes it. *)
Definition receive_cmd : prog tstore (Result unit ErrorCode) :=
  let* ptr := get_cmd_queue_ptr in
  let* q := unwrap ptr in
  let* r := kernel_syscall (T := Result TimerMessage QueueErr) pad (on_kernel (queue_receive time_bits 1 yield q 0)) in
  match r with
  | Err _ => Ret (Err TxExit)
  | Ok v =>
      modify (with_message v);;;
      let* s := get in
      execute_cmd (message_buf s);;;
      Ret (Ok tt)
  end.

Fixpoint cmd_loop (fuel : nat) : prog tstore unit :=
  match fuel with
  | O => Fail Undefined
  | S fuel =>
      on_kernel timer_log_invalidate;;;
      let* res := run_sys_once receive_cmd in
      match res with
      | Err _ => skip
      | Ok _ => cmd_loop fuel
      end
  end.
Definition process_receive_timer_cmd (fuel : nat) : prog tstore unit :=
  let* q := get_cmd_queue_ptr in
  assert_ (negb debug_assertions || bool_decide (is_Some q));;;
  cmd_loop fuel.

(** The transaction that calls back an expired timer. *)
Definition fire_timer (i : nat) : prog tstore unit :=
  let* timer := deref_timer i in
  when (negb (call_back_is_closure timer)) (dispatch (callback timer) (param timer));;;
  let* timer := deref_timer i in
  if auto_reload timer then
    let* now := on_kernel get_ticks in
    let* next_expiry_time := unwrap (time_checked_add time_bits now (period_ticks timer)) in
    activate_timer i next_expiry_time;;;
    on_kernel atomic_roll_forward_pop_reinsert_into_activelist
  else
    update_timer (set_active false) i;;;
    on_kernel (atomic_roll_forward_remove_from_activelist (TimerNode i)).

Definition process_expired_timer : prog tstore unit :=
  on_kernel timer_log_invalidate;;;
  let* v := on_kernel (on_lists (peek_front ActiveList)) in
  match v with
  | Some (TimerItem i expiry_time) =>
      on_kernel (set_next_expiry_time expiry_time);;;
      let* expired := on_kernel (expired_by_now expiry_time) in
      if expired : bool then run_once (fire_timer i)
      else
        let* now := on_kernel get_ticks in
        let* expiry := on_kernel get_next_expiry_time in
        when (now <? expiry) (
          let* ptr := get_cmd_queue_ptr in
          let* q := unwrap ptr in
          on_kernel (queue_block_until_not_empty time_bits yield q (expiry - now) false))
  | Some _ => Fail Undefined
  | None =>
      let* ptr := get_cmd_queue_ptr in
      let* q := unwrap ptr in
      on_kernel (queue_block_until_not_empty time_bits yield q 0 true)
  end.

(** [daemon_timer_task]: [rounds] rounds of its loop, which never ends. *)
Fixpoint daemon_timer_task (rounds fuel : nat) : prog tstore unit :=
  match rounds with
  | O => skip
  | S rounds =>
      process_expired_timer;;;
      process_receive_timer_cmd fuel;;;
      daemon_timer_task rounds fuel
  end.

(** *** The calls that send commands *)

Definition timer_control `{!Plain (Result unit ErrorCode)} (fuel : nat) (c : TimerCmd) (x : Z) (i : nat) (wait_ticks : Z) :
    prog tstore (Result unit TimerErr) :=
  let* ptr := get_cmd_queue_ptr in
  match ptr with
  | None => Ret (Err NoTimerDaemon)
  | Some cmd_queue =>
      let msg := {| cmd := c; msg_timer := Some i; opaque := x |} in
      let* r := on_kernel (queue_send_back time_bits fuel yield cmd_queue (to_bytes msg) wait_ticks) in
      Ret (match r with Err _ => Err CmdQueueBusy | Ok _ => Ok tt end)
  end.
Definition start_timer `{!Plain (Result unit ErrorCode)} fuel i wait_ticks :=
  let* now := on_kernel get_ticks in timer_control fuel CmdStart now i wait_ticks.
Definition reset_timer `{!Plain (Result unit ErrorCode)} fuel i wait_ticks :=
  let* now := on_kernel get_ticks in timer_control fuel CmdReset now i wait_ticks.
Definition delete_timer `{!Plain (Result unit ErrorCode)} fuel i wait_ticks := timer_control fuel CmdDelete 0 i wait_ticks.
Definition change_timer_period `{!Plain (Result unit ErrorCode)} fuel i new_period wait_ticks :=
  timer_control fuel CmdSetPeriod new_period i wait_ticks.
Definition stop_timer `{!Plain (Result unit ErrorCode)} fuel i wait_ticks := timer_control fuel CmdStop 0 i wait_ticks.
Definition get_time : prog tstore Z := on_kernel get_ticks.
End timers.
