(* ===== verification/TimerOps.v ===== *)
(** * The active timers as a sorted list

    What the list transactions of the daemon do to the list of the active timers,
    and that a power failure at any point of putting a timer back into it is
    recovered from. *)

From Stdlib Require Import Sorting.Sorted.
From S2P Require Import Prelude Arch Pmem TxCache Transaction Replay UserTx Util PList PListUpd PListSeg PListSorted PListSortedSafe.
From S2P Require Import PListRemove PListLinear ListRepr Kernel ListTx Sched SchedInv SchedSpec SchedVal Blocking Timer.

(** ** The abstract list *)

Definition timer_entry (i : nat) (e : Z) : nid * item := (TimerNode i, TimerItem i e).
Lemma timer_entry_inj i e j w : timer_entry i e = timer_entry j w → i = j ∧ e = w.
Proof. by injection 1. Qed.
Definition unschedule (i : nat) (xs : list (nid * item)) : list (nid * item) := filter (λ x, x.1 ≠ TimerNode i) xs.
(** Timer [i] expires at [e]: behind the timers that expire before, in front of
    those that expire at the same time. *)
Definition schedule (i : nat) (e : Z) (xs : list (nid * item)) : list (nid * item) :=
  let '(l, r) := split_gt (item_gt ∅) (TimerItem i e) (unschedule i xs) in l ++ timer_entry i e :: r.

(** The kernel with store [s] and the timer daemon's log [L]. *)
Definition set_timer (k : kernel) (s : lstore nid lid item) (L : ListTxOpLog) : kernel :=
  with_timer_log (λ _, L) (with_ls s k).

Lemma sinv_active `{Arch} s s' ts C out xs ys :
  sinv s ts C out → C !! ActiveList = Some xs → repr is_ready_list s' (<[ActiveList := ys]> C) →
  (∀ x, x ∈ ys → entry_ok ts ActiveList x) →
  (∀ n u, (∀ i, n ≠ TimerNode i) → free s n u → free s' n u) →
  sinv s' ts (<[ActiveList := ys]> C) out.
Proof.
  intros [Hr He Hrd Hd Hs Hev] HC Hr' Hys Hfree.
  assert (Hin : ∀ l x, l ≠ ActiveList → in_list C l x → in_list (<[ActiveList := ys]> C) l x)
    by (intros l x Hne Hin; by apply in_list_insert_ne).
  split; [done|..].
  - intros l zs x [[<- <-]|[? HC']]%lookup_insert_Some Hx; [by apply Hys|by eapply He].
  - intros p Hp. rewrite lookup_insert_ne by done. by apply Hrd.
  - destruct Hd as (dl & Hdl & Ha). exists dl. by rewrite lookup_insert_ne.
  - intros t b Hb. destruct (Hs t b Hb) as [Hp [[? (w & Hw)]|[? Hin']]]; (split; [done|]); [left; eauto|right].
    split; [done|]. destruct Hin' as [[? (w & Hw)]|[? (w & Hw)]]; [left|right]; (split; [done|]); exists w; by apply Hin.
  - intros t b Hb. destruct (Hev t b Hb) as [[o Ho]|(wl & o & Hw)]; [left; eauto|right]. exists wl, o. by apply Hin.
Qed.

Lemma repr_micro `{Arch} b w (s : lstore nid lid item) C : repr is_ready_list s C → repr is_ready_list (apply (UMicro b w) s) C.
Proof.
  intros [Hr Hsz]. split; [|by destruct b]. intros l xs HC. specialize (Hr l xs HC). unfold holds in *.
  destruct (is_ready_list l); [by apply PListRing.micro_circular|by apply micro_linear].
Qed.

(** The codes of the operations fit in front of a length of twelve bits. *)
Lemma encode_micro_decode `{Arch} o n :
  0 ≤ n < 4096 → get_micro_op (encode_micro o n) = Some o ∧ get_old_len (encode_micro o n) = n.
Proof.
  intros Hn. assert (Ho : 0 ≤ op_number o ≤ 7) by (destruct o; cbn; lia).
  assert (Hw : wrap (Z.shiftl (op_number o) OP_CODE_SHIFT) = op_number o * 2 ^ 12).
  { unfold wrap, OP_CODE_SHIFT. rewrite Z.shiftl_mul_pow2 by lia. apply Z.mod_small. split; [lia|].
    assert (2 ^ 16 ≤ usize_mod) by (unfold usize_mod; apply Z.pow_le_mono_r; [lia|]; destruct word_bits_cases as [->|[->| ->]]; lia). lia. }
  assert (E : encode_micro o n = n + op_number o * 2 ^ 12) by (unfold encode_micro; rewrite Hw, Z.lor_comm; apply lor_add_low; lia).
  rewrite E. unfold get_micro_op, get_old_len, OP_CODE_SHIFT. rewrite Z.shiftr_div_pow2, Z.div_add by lia.
  rewrite Z.div_small by lia. split; [by destruct o|].
  change 0xfff with (Z.ones 12). rewrite Z.land_ones, Z.mod_add by lia. by apply Z.mod_small.
Qed.

Lemma item_gt_timer ts ts' i e v : item_gt ts (TimerItem i e) v = item_gt ts' (TimerItem i e) v.
Proof. by destruct v. Qed.
Lemma split_gt_timer ts ts' i e (xs : list (nid * item)) :
  split_gt (item_gt ts) (TimerItem i e) xs = split_gt (item_gt ts') (TimerItem i e) xs.
Proof. induction xs as [|x xs IH]; [done|]. by rewrite !split_gt_cons, (item_gt_timer ts ts'), IH. Qed.

(** The node of timer [i] is in the active list or in no list. *)
Definition placed (i : nat) (e : Z) (s : lstore nid lid item) (ys : list (nid * item)) : Prop :=
  timer_entry i e ∈ ys ∨ free s (TimerNode i) (TimerItem i e).
(** The stores [J] that a removal of node [n] goes through, up to [s1]. *)
Definition removing `{Arch} (n : nid) (ln : Z) (s1 : lstore nid lid item) (J : lstore nid lid item → Prop) : Prop :=
  ∀ c, J c → log_word true c = encode_micro OpRemove ln ∧
    ∃ m, nodes c !! n = Some m ∧
      if bool_decide (nlist m = None) then c = s1
      else runs J (recover_from_failed_remove ActiveList n ln) c (λ _ c', c' = s1).

Section active_list.
Context `{Arch} (C : contents) (i : nat) (e : Z) (ts : gmap nat tcb).
Implicit Types (xs : list (nid * item)) (s : lstore nid lid item).
Notation n := (TimerNode i).
Notation v := (TimerItem i e).

Lemma unlink_timer s0 xs :
  repr is_ready_list s0 C → C !! ActiveList = Some xs → placed i e s0 xs →
  ∃ s1, exec (optimized_remove is_active_list ActiveList n) s0 = Done tt s1 ∧
    repr is_ready_list s1 (<[ActiveList := unschedule i xs]> C) ∧ free s1 n v ∧
    (∀ m u, free s0 m u → free s1 m u) ∧
    ∃ J, (∀ c, c ∈ crash_states (optimized_remove is_active_list ActiveList n) s0 → c = s0 ∨ J c) ∧ J s1 ∧ removing n (Z.of_nat (length xs)) s1 J.
Proof.
  intros Hr HC Hplaced. pose proof (proj1 Hr _ _ HC : linear s0 ActiveList xs) as Hlin.
  pose proof (repr_length is_ready_list s0 _ _ _ Hr HC) as Hl1. destruct Hplaced as [Hin|Hf].
  - apply list_elem_of_split in Hin as (l & r & ->). unfold timer_entry in *.
    assert (Eun : unschedule i (l ++ (n, v) :: r) = l ++ r).
    { apply (filter_ne_mid l r (n, v)). by eapply (repr_NoDup s0 C). }
    destruct (repr_remove_linear is_ready_list is_active_list s0 C ActiveList l (n, v) r Hr eq_refl HC) as (s1 & Ex & Hr1 & Hf1 & Ht).
    destruct (linear_mid _ _ _ _ _ Hlin) as [Hx Hnb]. pose proof Hlin as (Hpl & _).
    destruct (linear_remove_performs is_active_list s0 ActiveList l (n, v) r Hlin) as [Hp _]; [lia|].
    destruct (remove_crash_stores is_active_list s0 ActiveList n _ _ Hx Hpl Hnb) as (Ex' & J & HJ & HJ1 & HR & Hn); [done|exact Hp|].
    cbn [len prev next cursor head fst snd] in *. rewrite Ex in Ex'. injection Ex' as ->.
    eexists. rewrite Eun. split_and!; [exact Ex|exact Hr1|exact Hf1|..].
    { intros m u Hfm. eapply only_touches_free; [exact Ht| |done]. by apply (member_not_free is_ready_list s0 ActiveList _ _ _ Hlin Hfm). }
    exists J. split_and!; [done|done|]. intros c Hc. destruct (HR c Hc) as [Hw Hrun]. split; [exact Hw|].
    destruct (Hn c Hc) as (m & Hm & Hnone). exists m. split; [done|]. case_bool_decide; [by apply Hnone|done].
  - pose proof (member_not_free is_ready_list s0 ActiveList xs n v Hlin Hf) as Hnin.
    assert (Eun : unschedule i xs = xs) by by apply filter_ne_notin.
    destruct Hf as (m & Hm & Hnl & Hv). destruct Hlin as (Hpl & Hrest).
    set (w := encode_micro OpRemove (Z.of_nat (length xs))). set (s1 := apply (UMicro true w) s0).
    assert (Hp : performs (optimized_remove is_active_list ActiveList n) s0 [UMicro true w] tt).
    { unfold optimized_remove. performs_step. eapply performs_assign_bind; [done|]. unfold optimized_remove_impl.
      eapply performs_deref_bind; [exact Hm|]. rewrite bool_decide_eq_true_2 by done. apply performs_ret. }
    exists s1. rewrite Eun. split_and!.
    + exact (proj1 Hp).
    + rewrite insert_id by done. by apply (repr_micro true w).
    + by exists m.
    + done.
    + exists (λ c, c = s1). split_and!; [|done|].
      * intros c Hc. destruct (proj2 Hp c Hc) as ([|k] & Hk & ->); [by left|right]. destruct k; done.
      * intros c ->. split; [done|]. exists m. split; [done|]. by rewrite bool_decide_eq_true_2.
Qed.

Lemma link_timer s1 xs :
  repr is_ready_list s1 (<[ActiveList := unschedule i xs]> C) → free s1 n v →
  ∃ s2, exec (sorted_insert (item_gt ts) is_active_list ActiveList InsertSortedDelayList n) s1 = Done tt s2 ∧
    repr is_ready_list s2 (<[ActiveList := schedule i e xs]> C) ∧ (∀ m u, m ≠ n → free s1 m u → free s2 m u).
Proof.
  intros Hr1 Hf. pose proof (lookup_insert_eq C ActiveList (unschedule i xs)) as HC1.
  destruct (repr_sorted_insert is_ready_list is_active_list (item_gt ts) s1 _ ActiveList InsertSortedDelayList n v _ Hr1 eq_refl HC1 Hf)
    as (l & r & s2 & E & Exs & Ex & Hr2 & Ht).
  rewrite insert_insert_eq in Hr2. unfold schedule. rewrite (split_gt_timer _ ts), E.
  exists s2. split_and!; [done|done|].
  intros m u Hne Hfm. eapply only_touches_free; [exact Ht| |done]. intros [->|Hin]%elem_of_cons; [done|].
  by apply (member_not_free is_ready_list s1 ActiveList _ _ _ (proj1 Hr1 _ _ HC1) Hfm).
Qed.
Lemma link_timer_safe s1 s2 xs :
  debug_assertions = false → repr is_ready_list s1 (<[ActiveList := unschedule i xs]> C) → free s1 n v →
  exec (sorted_insert (item_gt ts) is_active_list ActiveList InsertSortedDelayList n) s1 = Done tt s2 →
  crash_safe true (encode_micro InsertSortedDelayList (Z.of_nat (length (unschedule i xs))))
    (sorted_insert (item_gt ts) is_active_list ActiveList InsertSortedDelayList n)
    (recover_from_failed_insert_sorted (item_gt ts) ActiveList n (Z.of_nat (length (unschedule i xs)))) s1 tt s2.
Proof.
  intros Hdbg Hr1 Hf Ex. pose proof (lookup_insert_eq C ActiveList (unschedule i xs)) as HC1.
  destruct (split_gt (item_gt ts) v (unschedule i xs)) as [l r] eqn:E.
  destruct (sorted_insert_spec (item_gt ts) is_active_list s1 ActiveList InsertSortedDelayList n v _ l r Hdbg (proj1 Hr1 _ _ HC1) Hf
    (repr_length is_ready_list s1 _ _ _ Hr1 HC1) E) as (s' & pl & Hpl & Hsafe & _).
  pose proof (proj1 (proj1 Hr1 _ _ HC1)) as Hpl'. rewrite Hpl in Hpl'. injection Hpl' as ->. cbn [len] in Hsafe.
  destruct Hsafe as [Ex' Hsafe]. rewrite Ex in Ex'. injection Ex' as <-. by split.
Qed.
End active_list.

(** ** Putting a timer back is atomic *)

Section reinsert.
Context `{Arch} (k : kernel) (xs : list (nid * item)) (i : nat) (e : Z).
Notation n := (TimerNode i).
Context (Hlen : Z.of_nat (length xs) < 4095) (Hop : op (timer_log k) = TxInvalid) (Hmicro : timer_micro (ls k) = 0).

Notation L1 := (set_bnp (Some n) (timer_log k)).
Notation L2 := (set_op ActiveListRemoveReInsert L1).
Notation L3 := (set_op ActiveListTxCommitted L2).
Notation ln := (Z.of_nat (length xs)).
Notation ln' := (Z.of_nat (length (unschedule i xs))).
Context (s1 s2 : lstore nid lid item) (J1 J2 : lstore nid lid item → Prop).
Context (Hx1 : exec (optimized_remove is_active_list ActiveList n) (ls k) = Done tt s1).
Context (HJ1 : ∀ c, c ∈ crash_states (optimized_remove is_active_list ActiveList n) (ls k) → c = ls k ∨ J1 c).
Context (HJs : J1 s1) (HR1 : removing n ln s1 J1).
Context (Hx2 : exec (sorted_insert (item_gt (tasks k)) is_active_list ActiveList InsertSortedDelayList n) s1 = Done tt s2).
Context (HJ2 : ∀ c, c ∈ crash_states (sorted_insert (item_gt (tasks k)) is_active_list ActiveList InsertSortedDelayList n) s1 → c = s1 ∨ J2 c).
Context (HR2 : rolls_forward true (encode_micro InsertSortedDelayList ln')
  (recover_from_failed_insert_sorted (item_gt (tasks k)) ActiveList n ln') s2 J2).

Definition reinserted : kernel := set_timer k (apply (UMicro true 0) s2) L3.
Inductive reinserting : kernel → Prop :=
| not_started L : op L ≠ ActiveListTxCommitted → op L = TxInvalid ∨ L = L2 → reinserting (set_timer k (ls k) L)
| removing_node s : J1 s → reinserting (set_timer k s L2)
| inserting_node s : J2 s → reinserting (set_timer k s L2)
| node_inserted : reinserting (set_timer k s2 L3)
| all_done : reinserting reinserted.

Lemma length_unschedule : ln' ≤ ln.
Proof. unfold unschedule. pose proof (length_filter (λ x : nid * item, x.1 ≠ n) xs). lia. Qed.

(** The second half of the operation, which recovery repeats. *)
Lemma runs_commit : reinserting (set_timer k s2 L2) →
  runs reinserting commit_activelist (set_timer k s2 L2) (λ _ k', k' = reinserted).
Proof.
  intros Hs. unfold commit_activelist, set_timer_tx_op. apply runs_write; [done|]. cbn [bind].
  unfold clear_micro, on_lists. apply runs_zoom. unfold assign. apply runs_read. cbn [target_exists bind].
  apply runs_write; [exact node_inserted|]. apply runs_ret; [exact all_done|done].
Qed.
Lemma stage_inserted : reinserting (set_timer k s2 L2).
Proof.
  pose proof (HJ2 s2 (crash_states_final _ _ _ _ Hx2)) as [-> |Hs]; [by apply removing_node|by apply inserting_node].
Qed.
Lemma runs_insert :
  runs reinserting (sorted_list_insert ActiveList n) (set_timer k s1 L2) (λ _ k', k' = set_timer k s2 L2).
Proof.
  unfold sorted_list_insert. apply runs_read. cbn [bind]. apply runs_zoom.
  apply (runs_intro _ _ _ tt s2); [|exact Hx2|done].
  intros c Hc. destruct (HJ2 c Hc) as [-> |HJ]; [by apply removing_node|by apply inserting_node].
Qed.

Lemma reinsert_runs :
  runs reinserting (atomic_roll_forward_remove_reinsert_into_activelist n) k (λ _ k', k' = reinserted).
Proof.
  assert (Hstart : ∀ L, op L = TxInvalid → reinserting (set_timer k (ls k) L)) by (intros L E; apply not_started; [by rewrite E|by left]).
  unfold atomic_roll_forward_remove_reinsert_into_activelist, set_timer_node_ptr, set_timer_tx_op.
  apply runs_write; [destruct k; exact (Hstart _ Hop)|]. cbn [bind]. apply runs_write; [exact (Hstart L1 Hop)|]. cbn [bind].
  apply runs_bind with (Q := λ _ k', k' = set_timer k s1 L2); [|].
  2:{ intros [] ? ->. eapply runs_bind; [exact runs_insert|]. intros [] ? ->. exact (runs_commit stage_inserted). }
  unfold list_remove, on_lists. apply runs_zoom. apply (runs_intro _ _ _ tt s1); [|exact Hx1|done].
  intros c Hc. destruct (HJ1 c Hc) as [-> |HJ]; [|by apply removing_node]. apply not_started; [done|by right].
Qed.

Lemma runs_read_micro (I : kernel → Prop) timer c o w :
  I c → log_word timer (ls c) = encode_micro o w → 0 ≤ w < 4096 →
  runs I (read_micro timer) c (λ a c', a = (o, w) ∧ c' = c).
Proof.
  intros Hi Hw Hlt. destruct (encode_micro_decode o w Hlt) as [E1 E2]. unfold read_micro. apply runs_read. cbn [bind].
  change (if timer then timer_micro (ls c) else micro (ls c)) with (log_word timer (ls c)).
  rewrite Hw, E1. cbn [unwrap_unchecked bind]. apply runs_ret; [done|]. by rewrite E2.
Qed.
Lemma runs_node_list (I : kernel → Prop) c nd m :
  I c → nodes (ls c) !! nd = Some m → runs I (node_list nd) c (λ l c', l = nlist m ∧ c' = c).
Proof.
  intros Hi Hm. apply (runs_intro _ _ _ (nlist m) c); [|unfold node_list; by run (exec_deref_node _ _ _ Hm)|done].
  intros c'. unfold node_list, on_lists, deref. cbn. rewrite Hm. cbn. intros ->%list_elem_of_singleton. by destruct c.
Qed.

Lemma recover_reinsert c :
  reinserting c →
  (∃ L, c = set_timer k (ls k) L ∧ op L ≠ ActiveListTxCommitted ∧
     (op L = TxInvalid ∨ exec recover_and_roll_forward_of_activelist_remove_reinsert c = Done false c)) ∨
  op (timer_log c) = ActiveListTxCommitted ∧ (c = set_timer k s2 L3 ∨ c = reinserted) ∨
  op (timer_log c) = ActiveListRemoveReInsert ∧
    runs reinserting recover_and_roll_forward_of_activelist_remove_reinsert c (λ ok c', ok = true ∧ c' = reinserted).
Proof.
  pose proof length_unschedule as Hle. intros Hc. destruct Hc as [L Hne HL|s HJ|s HJ| |].
  - left. exists L. split; [done|]. split; [done|]. destruct HL as [?| ->]; [by left|right].
    unfold recover_and_roll_forward_of_activelist_remove_reinsert, read_micro. cbn. by rewrite Hmicro.
  - right; right. split; [done|]. destruct (HR1 s HJ) as (Hw & m & Hm & Hcase).
    unfold recover_and_roll_forward_of_activelist_remove_reinsert.
    assert (Hst : reinserting (set_timer k s L2)) by by apply removing_node.
    eapply runs_bind; [apply (runs_read_micro _ true _ OpRemove ln); [done|exact Hw|lia]|]. intros ? ? [-> ->].
    apply runs_read. cbn [bind unwrap_unchecked set_timer with_timer_log timer_log set_op block_node_ptr set_bnp].
    eapply runs_bind; [by apply (runs_node_list _ _ _ m)|]. intros ? ? [-> ->].
    eapply runs_bind with (Q := λ _ c', c' = set_timer k s1 L2).
    { case_bool_decide as Hnone.
      - rewrite bool_decide_eq_false_2 by tauto. subst s. by apply runs_ret.
      - rewrite bool_decide_eq_true_2 by done. unfold on_lists. apply runs_zoom.
        eapply runs_mono; [eapply runs_crash; [exact Hcase|]|]; [intros; by apply removing_node|by intros ? ? ->]. }
    intros [] ? ->. eapply runs_bind; [exact runs_insert|]. intros [] ? ->.
    eapply runs_bind; [exact (runs_commit stage_inserted)|]. intros [] ? ->. apply runs_ret; [exact all_done|done].
  - right; right. split; [done|]. destruct (HR2 s HJ) as [Hw Hrun].
    assert (Hst : reinserting (set_timer k s L2)) by by apply inserting_node.
    unfold recover_and_roll_forward_of_activelist_remove_reinsert.
    eapply runs_bind; [apply (runs_read_micro _ true _ InsertSortedDelayList ln'); [done|exact Hw|lia]|]. intros ? ? [-> ->].
    apply runs_read. cbn [bind unwrap_unchecked set_timer with_timer_log timer_log set_op block_node_ptr set_bnp].
    eapply runs_bind with (Q := λ _ c', c' = set_timer k s2 L2).
    { unfold recover_sorted. apply runs_read. cbn [bind]. unfold on_lists. apply runs_zoom.
      eapply runs_mono; [eapply runs_crash; [exact Hrun|]|]; [intros; by apply inserting_node|by intros ? ? ->]. }
    intros [] ? ->. eapply runs_bind; [exact (runs_commit stage_inserted)|]. intros [] ? ->. apply runs_ret; [exact all_done|done].
  - right; left. by split; [|left].
  - right; left. by split; [|right].
Qed.
End reinsert.

Section timer_lists.
Context `{Arch}.
Implicit Types (k : kernel) (C : contents) (xs : list (nid * item)).

(** Only the timers' list and log change. *)
Definition only_timers k k' : Prop := k' = set_timer k (ls k') (timer_log k').
Lemma only_timers_trans k1 k2 k3 : only_timers k1 k2 → only_timers k2 k3 → only_timers k1 k3.
Proof. unfold only_timers. intros -> ->. done. Qed.
(** Nodes of tasks and of other timers that are in no list stay so. *)
Definition others_free (n : nid) k k' : Prop := ∀ m u, m ≠ n → free (ls k) m u → free (ls k') m u.

Lemma entries_active k C xs : kinv k C None → C !! ActiveList = Some xs → ∀ x, x ∈ xs → ∃ t w, x = timer_entry t w.
Proof. intros Hk HC x Hx. exact (k_entries _ _ _ _ Hk ActiveList xs x HC Hx). Qed.
Lemma elem_unschedule i xs x : x ∈ unschedule i xs ↔ x ∈ xs ∧ x.1 ≠ TimerNode i.
Proof. unfold unschedule. rewrite list_elem_of_filter. tauto. Qed.
Lemma elem_schedule i e xs x : x ∈ schedule i e xs ↔ x = timer_entry i e ∨ x ∈ unschedule i xs.
Proof.
  unfold schedule. destruct (split_gt _ _ _) as [l r] eqn:E. apply split_gt_app in E. rewrite E.
  rewrite !elem_of_app, elem_of_cons. tauto.
Qed.
Lemma schedule_sorted i e xs : ascending (item_gt ∅) (unschedule i xs) → ascending (item_gt ∅) (schedule i e xs).
Proof.
  intros Hs. unfold schedule. destruct (split_gt _ _ _) as [l r] eqn:E. eapply split_gt_sorted; [apply item_gt_asym|done|done].
Qed.
Definition expiry (x : nid * item) : Z := match x.2 with TimerItem _ e => e | _ => 0 end.
Lemma ascending_expiry xs :
  (∀ x, x ∈ xs → ∃ t w, x = timer_entry t w) → ascending (item_gt ∅) xs ↔ StronglySorted Z.le (expiry <$> xs).
Proof.
  intros Hall. assert (E : ascending (item_gt ∅) xs ↔ Sorted Z.le (expiry <$> xs)).
  { unfold ascending. induction xs as [|x xs IH]; [by split; constructor|]. cbn [fmap list_fmap].
    destruct IH as [IH1 IH2]; [intros y Hy; apply Hall; by right|].
    split; intros Hs; inversion Hs as [|? ? Hs' Hh]; subst; (constructor; [auto|]);
      (destruct xs as [|y xs]; [constructor|]); inversion Hh as [|? ? Hle]; subst; constructor;
      destruct (Hall x) as (t & w & ->), (Hall y) as (t' & w' & ->); try (by repeat constructor);
      cbn in *; [apply Z.ltb_ge in Hle; lia|apply Z.ltb_ge; lia]. }
  rewrite E. split; [apply Sorted_StronglySorted; intros ? ? ?; lia|apply StronglySorted_Sorted].
Qed.
Lemma unschedule_sorted i xs :
  (∀ x, x ∈ xs → ∃ t w, x = timer_entry t w) → ascending (item_gt ∅) xs → ascending (item_gt ∅) (unschedule i xs).
Proof.
  intros Hall. rewrite !ascending_expiry; [|by intros x [Hx _]%elem_unschedule; apply Hall|done].
  clear Hall. unfold unschedule. induction xs as [|x xs IH]; [done|]. cbn [fmap list_fmap]. intros Hs.
  inversion Hs as [|? ? Hs' Hf]; subst. rewrite filter_cons. case_decide; [|by apply IH]. cbn [fmap list_fmap].
  constructor; [by apply IH|]. rewrite Forall_fmap, Forall_forall in Hf |- *.
  intros y [_ Hy]%list_elem_of_filter. by apply Hf.
Qed.

Lemma kinv_active k C xs s L ys :
  kinv k C None → C !! ActiveList = Some xs → repr is_ready_list s (<[ActiveList := ys]> C) →
  (∀ x, x ∈ ys → ∃ t w, x = timer_entry t w) → (∀ n u, (∀ i, n ≠ TimerNode i) → free (ls k) n u → free s n u) →
  kinv (set_timer k s L) (<[ActiveList := ys]> C) None.
Proof. intros Hk HC Hr Hys Hf. by eapply sinv_active. Qed.

(** *** The two transactions *)

Lemma reinsert_exec k C xs i e :
  kinv k C None → C !! ActiveList = Some xs → placed i e (ls k) xs →
  ∃ k', exec (atomic_roll_forward_remove_reinsert_into_activelist (TimerNode i)) k = Done tt k' ∧
    kinv k' (<[ActiveList := schedule i e xs]> C) None ∧ only_timers k k' ∧ others_free (TimerNode i) k k'.
Proof.
  intros Hk HC Hp. pose proof (k_repr _ _ _ _ Hk) as Hr.
  destruct (unlink_timer C i e (ls k) xs Hr HC Hp) as (s1 & Ex1 & Hr1 & Hf1 & Hfree1 & _).
  destruct (link_timer C i e (tasks k) s1 xs Hr1 Hf1) as (s2 & Ex2 & Hr2 & Hfree2).
  assert (Hfree : ∀ m u, m ≠ TimerNode i → free (ls k) m u → free (apply (UMicro true 0) s2) m u) by (intros; by apply Hfree2, Hfree1).
  set (L := set_op ActiveListTxCommitted (set_op ActiveListRemoveReInsert (set_bnp (Some (TimerNode i)) (timer_log k)))).
  exists (set_timer k (apply (UMicro true 0) s2) L). split_and!.
  - unfold atomic_roll_forward_remove_reinsert_into_activelist.
    cbn [set_timer_node_ptr set_timer_tx_op modify bind exec].
    run (exec_on_lists _ (with_timer_log (set_op ActiveListRemoveReInsert) (with_timer_log (set_bnp (Some (TimerNode i))) k)) _ _ Ex1).
    unfold sorted_list_insert. cbn [bind exec get].
    run (exec_on_lists _ (set_timer k s1 (set_op ActiveListRemoveReInsert (set_bnp (Some (TimerNode i)) (timer_log k)))) _ _ Ex2).
    reflexivity.
  - apply (kinv_active k C xs); [done|done|apply (repr_micro _ _ _ _ Hr2)|..].
    + intros x [->|[Hx _]%elem_unschedule]%elem_schedule; [by exists i, e|by eapply entries_active].
    + intros m u Hm. by apply Hfree.
  - done.
  - exact Hfree.
Qed.

Lemma remove_exec k C xs i e :
  kinv k C None → C !! ActiveList = Some xs → placed i e (ls k) xs →
  ∃ k', exec (atomic_roll_forward_remove_from_activelist (TimerNode i)) k = Done tt k' ∧
    kinv k' (<[ActiveList := unschedule i xs]> C) None ∧ only_timers k k' ∧ others_free (TimerNode i) k k' ∧
    free (ls k') (TimerNode i) (TimerItem i e).
Proof.
  intros Hk HC Hp. pose proof (k_repr _ _ _ _ Hk) as Hr.
  destruct (unlink_timer C i e (ls k) xs Hr HC Hp) as (s1 & Ex1 & Hr1 & Hf1 & Hfree1 & _).
  exists (set_timer k (apply (UMicro true 0) s1) (set_op ActiveListTxCommitted (set_op ActiveListRemove (set_bnp (Some (TimerNode i)) (timer_log k))))).
  split_and!.
  - unfold atomic_roll_forward_remove_from_activelist. cbn [set_timer_node_ptr set_timer_tx_op modify bind exec].
    by run (exec_on_lists _ (with_timer_log (set_op ActiveListRemove) (with_timer_log (set_bnp (Some (TimerNode i))) k)) _ _ Ex1).
  - apply (kinv_active k C xs); [done|done|apply (repr_micro _ _ _ _ Hr1)|..].
    + intros x [Hx _]%elem_unschedule. by eapply entries_active.
    + intros m u _. by apply Hfree1.
  - done.
  - intros m u _. by apply Hfree1.
  - exact Hf1.
Qed.

Lemma unschedule_hd i e xs : TimerNode i ∉ xs.*1 → unschedule i (timer_entry i e :: xs) = xs.
Proof.
  intros Hn. unfold unschedule. rewrite filter_cons, decide_False by (intros H'; by apply H'). by apply filter_ne_notin.
Qed.
Lemma schedule_unschedule i e xs ys : unschedule i xs = unschedule i ys → schedule i e xs = schedule i e ys.
Proof. intros E. unfold schedule. by rewrite E. Qed.
Lemma unschedule_idemp i xs : unschedule i (unschedule i xs) = unschedule i xs.
Proof. unfold unschedule. apply filter_ne_notin. intros (x & E & [? _]%list_elem_of_filter)%list_elem_of_fmap. congruence. Qed.

(** The timer at the front of the list. *)
Lemma pop_reinsert_exec k C xs i e :
  kinv k C None → C !! ActiveList = Some (timer_entry i e :: xs) →
  ∃ k', exec atomic_roll_forward_pop_reinsert_into_activelist k = Done tt k' ∧
    kinv k' (<[ActiveList := schedule i e xs]> C) None ∧ only_timers k k' ∧ others_free (TimerNode i) k k'.
Proof.
  intros Hk HC. pose proof (k_repr _ _ _ _ Hk) as Hr. pose proof (repr_NoDup _ _ _ _ Hr HC) as [Hn _]%NoDup_cons.
  destruct (repr_pop is_ready_list is_active_list (ls k) C ActiveList _ _ Hr eq_refl HC) as (s1 & Ex1 & Hr1 & Hf1 & Ht1).
  assert (Eun : unschedule i xs = xs) by (by apply filter_ne_notin). rewrite <-Eun in Hr1.
  destruct (link_timer C i e (tasks k) s1 xs Hr1 Hf1) as (s2 & Ex2 & Hr2 & Hfree2).
  assert (Hfree : ∀ m u, m ≠ TimerNode i → free (ls k) m u → free (apply (UMicro true 0) s2) m u).
  { intros m u Hne Hm. apply Hfree2; [done|]. eapply only_touches_free; [exact Ht1| |done].
    exact (member_not_free is_ready_list (ls k) ActiveList _ _ _ (proj1 Hr _ _ HC) Hm). }
  set (L := set_op ActiveListPopReInsert (set_bnp (Some (TimerNode i)) (timer_log k))).
  exists (set_timer k (apply (UMicro true 0) s2) (set_op ActiveListTxCommitted L)). split_and!.
  - unfold atomic_roll_forward_pop_reinsert_into_activelist.
    pose proof (proj1 (proj1 Hr _ _ HC)) as Hpl. cbn [first_or] in Hpl.
    run (exec_on_lists (deref_list ActiveList) k _ _ (proj1 (performs_deref_list _ _ _ Hpl))). cbn [head apply_list].
    replace (with_ls (ls k) k) with k by by destruct k. cbn [set_timer_node_ptr set_timer_tx_op modify bind exec].
    run (exec_on_lists _ (set_timer k (ls k) L) _ _ Ex1). unfold sorted_list_insert. cbn [bind exec get].
    by run (exec_on_lists _ (set_timer k s1 L) _ _ Ex2).
  - apply (kinv_active k C (timer_entry i e :: xs)); [done|done|apply (repr_micro _ _ _ _ Hr2)|..].
    + intros x [->|[Hx _]%elem_unschedule]%elem_schedule; [by exists i, e|]. eapply entries_active; [done..|by right].
    + intros m u Hm. by apply Hfree.
  - done.
  - exact Hfree.
Qed.

(** *** The expiry time *)

Lemma retime_timer k C xs i v :
  kinv k C None → C !! ActiveList = Some xs → retime (TimerNode i) v C = <[ActiveList := revalue (TimerNode i) v <$> xs]> C.
Proof.
  intros Hk HC. apply map_eq. intros l. unfold retime. rewrite lookup_fmap.
  destruct (decide (l = ActiveList)) as [->|Hne]; [by rewrite HC, lookup_insert_eq|].
  rewrite lookup_insert_ne by done. destruct (C !! l) as [ys|] eqn:E; [|done]. cbn. f_equal. apply revalue_notin.
  intros (x & Ex & Hx)%list_elem_of_fmap. pose proof (k_entries _ _ _ _ Hk l ys x E Hx) as He.
  destruct l; cbn in He; naive_solver.
Qed.
Lemma unschedule_revalue i v xs : unschedule i (revalue (TimerNode i) v <$> xs) = unschedule i xs.
Proof.
  unfold unschedule. induction xs as [|x xs IH]; [done|]. cbn [fmap list_fmap]. rewrite !filter_cons, revalue_fst, IH.
  case_decide; [|done]. by rewrite revalue_ne.
Qed.

Lemma set_expiry_exec k C xs i e0 e :
  kinv k C None → C !! ActiveList = Some xs → placed i e0 (ls k) xs →
  let ys := revalue (TimerNode i) (TimerItem i e) <$> xs in
  ∃ k', exec (set_expiry_time i e) k = Done tt k' ∧ kinv k' (<[ActiveList := ys]> C) None ∧ placed i e (ls k') ys ∧
    only_timers k k' ∧ others_free (TimerNode i) k k'.
Proof.
  intros Hk HC Hp ys.
  assert (Hm : ∃ m, nodes (ls k) !! TimerNode i = Some m).
  { destruct Hp as [Hin|(m & Hm & _)]; [|by exists m].
    destruct (in_list_node k C None ActiveList _ _ Hk (ex_intro _ xs (conj HC Hin))) as (m & Hm & _). by exists m. }
  destruct Hm as [m Hm]. exists (with_ls (value_store (TimerNode i) (TimerItem i e) (ls k)) k).
  pose proof (repr_revalue (ls k) C (TimerNode i) (TimerItem i e) (k_repr _ _ _ _ Hk)) as Hr. rewrite (retime_timer k C xs i _ Hk HC) in Hr.
  split_and!; [by apply (exec_set_value _ _ _ m)| | | |].
  - eapply sinv_active; [exact Hk|exact HC|exact Hr|..].
    + intros x (y & -> & Hy)%list_elem_of_fmap. destruct (entries_active k C xs Hk HC y Hy) as (t & w & ->).
      unfold revalue. case_decide as Hd; cbn in Hd; [injection Hd as ->|]; by eexists _, _.
    + intros n u Hn Hf. by apply free_value_ne.
  - destruct Hp as [Hin|Hf]; [left|right; by eapply free_value_eq].
    apply (list_elem_of_fmap_2 (revalue (TimerNode i) (TimerItem i e))) in Hin. unfold revalue in Hin at 1. by rewrite decide_True in Hin.
  - unfold only_timers, set_timer. by destruct k.
  - intros m' u Hne Hf. by apply free_value_ne.
Qed.

(** Setting the expiry time and putting the timer back. *)
Lemma restart_exec k C xs i e0 e :
  kinv k C None → C !! ActiveList = Some xs → placed i e0 (ls k) xs →
  ∃ k', exec (set_expiry_time i e;;; atomic_roll_forward_remove_reinsert_into_activelist (TimerNode i)) k = Done tt k' ∧
    kinv k' (<[ActiveList := schedule i e xs]> C) None ∧ only_timers k k' ∧ others_free (TimerNode i) k k'.
Proof.
  intros Hk HC Hp. destruct (set_expiry_exec k C xs i e0 e Hk HC Hp) as (k1 & Ex1 & Hk1 & Hp1 & Ho1 & Hf1).
  destruct (reinsert_exec k1 _ _ i e Hk1 (lookup_insert_eq _ _ _) Hp1) as (k2 & Ex2 & Hk2 & Ho2 & Hf2).
  rewrite insert_insert_eq, (schedule_unschedule i e _ xs (unschedule_revalue _ _ _)) in Hk2.
  exists k2. split_and!; [by run Ex1|done|by eapply only_timers_trans|]. intros m u Hne Hf. by apply Hf2, Hf1.
Qed.
End timer_lists.
