(* ===== verification/TimerSpec.v ===== *)
(** * What the timer daemon does

    The timers and the sorted list of the active ones refine an abstract state;
    every command and every expiry is a step of it. *)

From Stdlib Require Import Sorting.Sorted.
From S2P Require Import Prelude Arch Pmem TxCache Transaction Replay UserTx Util PList PListUpd PListSeg PListSorted PListLinear.
From S2P Require Import ListRepr Kernel ListTx Sched SchedInv SchedDemo SchedSpec SchedVal RollForward Blocking.
From S2P Require Import PVar BlockingOps Queue SchedOps QueueRing QueueOps Timer TimerOps.

(** The active timers are those in the list, which is sorted by expiry time. *)
Record tinv `{Arch} (s : tstore) (C : contents) (xs : list (nid * item)) : Prop := {
  ti_kinv : kinv (kern s) C None;
  ti_list : C !! ActiveList = Some xs;
  ti_sorted : ascending (item_gt ∅) xs;
  ti_known : ∀ i e, timer_entry i e ∈ xs → is_Some (timer_objs s !! i);
  ti_active : ∀ i t, timer_objs s !! i = Some t →
    if active t then ∃ e, timer_entry i e ∈ xs else ∃ e, free (ls (kern s)) (TimerNode i) (TimerItem i e);
}.

(** The step of a command: the timers and the list behind it, or a panic. *)
Definition cmd_step (time_bits now : Z) (msg : TimerMessage) (ts : gmap nat Timer) (xs : list (nid * item)) :
    option (gmap nat Timer * list (nid * item)) :=
  match msg_timer msg with
  | None => Some (ts, xs)
  | Some i =>
      match ts !! i with
      | None => Some (ts, xs)
      | Some t =>
          let start time t :=
            match time with Some e => Some (<[i := set_active true t]> ts, schedule i e xs) | None => None end in
          match cmd msg with
          | CmdStart | CmdReset => start (time_checked_add time_bits (opaque msg) (period_ticks t)) t
          | CmdStop | CmdDelete => Some (<[i := set_active false t]> ts, unschedule i xs)
          | CmdSetPeriod =>
              if opaque msg <=? 0 then Some (ts, xs)
              else start (time_checked_add time_bits now (opaque msg)) (set_period (opaque msg) t)
          | CmdInvalid => Some (ts, xs)
          end
      end
  end.

(** [s'] is [s] with these timers and another list of active timers. *)
Definition timers_changed (s s' : tstore) (ts : gmap nat Timer) : Prop :=
  timer_objs s' = ts ∧ only_timers (kern s) (kern s') ∧ timer_cmd_queue s' = timer_cmd_queue s ∧ message_buf s' = message_buf s.

Section steps.
Context `{Arch, Board, TxFeatures} (time_bits : Z).
Implicit Types (s : tstore) (C : contents) (xs : list (nid * item)) (i : nat) (t : Timer).

Lemma tinv_placed s C xs i t : tinv s C xs → timer_objs s !! i = Some t → ∃ e, placed i e (ls (kern s)) xs.
Proof. intros Hi Ht. pose proof (ti_active _ _ _ Hi i t Ht) as Ha. destruct (active t), Ha as [e He]; exists e; [by left|by right]. Qed.

Lemma exec_update_timer f i s t :
  timer_objs s !! i = Some t → exec (update_timer f i) s = Done tt (with_timers (<[i := f t]>) s).
Proof.
  intros Ht. unfold update_timer, deref_timer. cbn. rewrite Ht. cbn. unfold with_timers. do 2 f_equal.
  apply map_eq. intros j. destruct (decide (j = i)) as [->|?]; [by rewrite lookup_alter_eq, Ht, lookup_insert_eq|].
  by rewrite lookup_alter_ne, lookup_insert_ne.
Qed.
Lemma exec_deref_timer i s t : timer_objs s !! i = Some t → exec (deref_timer i) s = Done t s.
Proof. intros Ht. unfold deref_timer. cbn. by rewrite Ht. Qed.
Lemma exec_on_kernel {A} (p : prog kernel A) s a k' : exec p (kern s) = Done a k' → exec (on_kernel p) s = Done a (with_kern k' s).
Proof. intros E. exact (exec_zoom_done p s a k' E). Qed.
Lemma exec_on_kernel_fail {A} (p : prog kernel A) s e : exec p (kern s) = Failed e → exec (on_kernel p) s = Failed e.
Proof. intros E. unfold on_kernel. rewrite exec_zoom. cbn. by rewrite E. Qed.

Lemma exec_ticks s : exec (on_kernel get_ticks) s = Done (tick_counter (tm (kern s))) s.
Proof. by destruct s as [[] ? ? ?]. Qed.

(** A timer becomes active, with [e] as its expiry time, or inactive. *)
Lemma tinv_start s C xs i t k' e :
  tinv s C xs → is_Some (timer_objs s !! i) → active t = true →
  kinv k' (<[ActiveList := schedule i e xs]> C) None → others_free (TimerNode i) (kern s) k' →
  tinv (with_kern k' (with_timers (<[i := t]>) s)) (<[ActiveList := schedule i e xs]> C) (schedule i e xs).
Proof.
  intros Hi Hs Ha Hk Hf. pose proof (entries_active _ _ _ (ti_kinv _ _ _ Hi) (ti_list _ _ _ Hi)) as Hall. split.
  - exact Hk.
  - apply lookup_insert_eq.
  - apply schedule_sorted, unschedule_sorted; [done|apply Hi].
  - intros j w [[-> ->]%timer_entry_inj|[Hin _]%elem_unschedule]%elem_schedule; cbn; apply lookup_insert_is_Some'; [by left|right].
    by eapply (ti_known _ _ _ Hi).
  - intros j u. cbn. intros [[<- <-]|[Hne Hj]]%lookup_insert_Some.
    + rewrite Ha. exists e. apply elem_schedule. by left.
    + pose proof (ti_active _ _ _ Hi j u Hj) as Hu. destruct (active u), Hu as [w Hw]; exists w.
      * apply elem_schedule. right. apply elem_unschedule. split; [done|]. cbn. congruence.
      * apply Hf; [congruence|done].
Qed.
Lemma tinv_stop s C xs i t k' e :
  tinv s C xs → active t = false → kinv k' (<[ActiveList := unschedule i xs]> C) None →
  others_free (TimerNode i) (kern s) k' → free (ls k') (TimerNode i) (TimerItem i e) →
  tinv (with_kern k' (with_timers (<[i := t]>) s)) (<[ActiveList := unschedule i xs]> C) (unschedule i xs).
Proof.
  intros Hi Ha Hk Hf Hn. pose proof (entries_active _ _ _ (ti_kinv _ _ _ Hi) (ti_list _ _ _ Hi)) as Hall. split.
  - exact Hk.
  - apply lookup_insert_eq.
  - apply unschedule_sorted; [done|apply Hi].
  - intros j w [Hin _]%elem_unschedule. cbn. apply lookup_insert_is_Some'. right. by eapply (ti_known _ _ _ Hi).
  - intros j u. cbn. intros [[<- <-]|[Hne Hj]]%lookup_insert_Some.
    + rewrite Ha. by exists e.
    + pose proof (ti_active _ _ _ Hi j u Hj) as Hu. destruct (active u), Hu as [w Hw]; exists w.
      * apply elem_unschedule. split; [done|]. cbn. congruence.
      * apply Hf; [congruence|done].
Qed.

(** The end of a command that starts a timer. *)
Lemma exec_start s C xs i t e :
  tinv s C xs → timer_objs s !! i = Some t →
  ∃ s', exec (activate_timer i e;;; on_kernel (atomic_roll_forward_remove_reinsert_into_activelist (TimerNode i))) s = Done tt s' ∧
    tinv s' (<[ActiveList := schedule i e xs]> C) (schedule i e xs) ∧
    timers_changed s s' (<[i := set_active true t]> (timer_objs s)).
Proof.
  intros Hi Ht. destruct (tinv_placed _ _ _ _ _ Hi Ht) as [e0 Hp].
  destruct (restart_exec (kern s) C xs i e0 e (ti_kinv _ _ _ Hi) (ti_list _ _ _ Hi) Hp) as (k' & Ex & Hk & Ho & Hf).
  apply exec_bind_inv in Ex as ([] & k1 & Ex1 & Ex2).
  exists (with_kern k' (with_timers (<[i := set_active true t]>) s)). split; [|split].
  - unfold activate_timer. rewrite (exec_bind_done _ _ _ tt (with_kern k1 (with_timers (<[i := set_active true t]>) s))).
    2:{ run (exec_update_timer (set_active true) i s t Ht). by apply exec_on_kernel. }
    exact (exec_on_kernel _ (with_kern k1 _) _ _ Ex2).
  - apply tinv_start; [done|by exists t|done|done|done].
  - done.
Qed.

Lemma exec_stop s C xs i t :
  tinv s C xs → timer_objs s !! i = Some t →
  ∃ s', exec (update_timer (set_active false) i;;; on_kernel (atomic_roll_forward_remove_from_activelist (TimerNode i))) s = Done tt s' ∧
    tinv s' (<[ActiveList := unschedule i xs]> C) (unschedule i xs) ∧
    timers_changed s s' (<[i := set_active false t]> (timer_objs s)).
Proof.
  intros Hi Ht. destruct (tinv_placed _ _ _ _ _ Hi Ht) as [e0 Hp].
  destruct (remove_exec (kern s) C xs i e0 (ti_kinv _ _ _ Hi) (ti_list _ _ _ Hi) Hp) as (k' & Ex & Hk & Ho & Hf & Hn).
  exists (with_kern k' (with_timers (<[i := set_active false t]>) s)). split; [|split].
  - run (exec_update_timer (set_active false) i s t Ht). by apply exec_on_kernel.
  - by eapply tinv_stop.
  - done.
Qed.

(** The body of [fire_timer] behind the callback. *)
Lemma exec_reload s C xs i e0 e t :
  tinv s C (timer_entry i e0 :: xs) → timer_objs s !! i = Some t →
  ∃ s', exec (activate_timer i e;;; on_kernel atomic_roll_forward_pop_reinsert_into_activelist) s = Done tt s' ∧
    tinv s' (<[ActiveList := schedule i e xs]> C) (schedule i e xs) ∧
    timers_changed s s' (<[i := set_active true t]> (timer_objs s)).
Proof.
  intros Hi Ht. assert (Hp : placed i e0 (ls (kern s)) (timer_entry i e0 :: xs)) by (left; by left).
  pose proof (ti_kinv _ _ _ Hi) as Hk. pose proof (ti_list _ _ _ Hi) as HC.
  pose proof (repr_NoDup _ _ _ _ (k_repr _ _ _ _ Hk) HC) as [Hn _]%NoDup_cons.
  destruct (set_expiry_exec (kern s) C _ i e0 e Hk HC Hp) as (k1 & Ex1 & Hk1 & _ & Ho1 & Hf1).
  assert (Er : revalue (TimerNode i) (TimerItem i e) <$> timer_entry i e0 :: xs = timer_entry i e :: xs).
  { cbn. unfold revalue at 1. rewrite decide_True by done. f_equal. by apply revalue_notin. }
  rewrite Er in Hk1.
  destruct (pop_reinsert_exec k1 _ xs i e Hk1 (lookup_insert_eq _ _ _)) as (k2 & Ex2 & Hk2 & Ho2 & Hf2).
  rewrite insert_insert_eq in Hk2. assert (Es : schedule i e xs = schedule i e (timer_entry i e0 :: xs)).
  { apply schedule_unschedule. rewrite unschedule_hd by done. by apply filter_ne_notin. }
  exists (with_kern k2 (with_timers (<[i := set_active true t]>) s)). split; [|split].
  - unfold activate_timer. rewrite (exec_bind_done _ _ _ tt (with_kern k1 (with_timers (<[i := set_active true t]>) s))).
    2:{ run (exec_update_timer (set_active true) i s t Ht). by apply exec_on_kernel. }
    exact (exec_on_kernel _ (with_kern k1 _) _ _ Ex2).
  - rewrite Es in Hk2 |- *. apply tinv_start; [done|by exists t|done|done|]. intros m u Hne Hm. by apply Hf2, Hf1.
  - split; [done|]. split; [by eapply only_timers_trans|done].
Qed.
End steps.

(** C30: Every command that the daemon executes is a step of the abstract timers:
    start and reset put the timer behind those that expire no later, at the time of
    the command plus the period; a new period, unless it is 0, does so from now;
    stop and delete take it out; a time that overflows panics. The list of the
    active timers stays sorted, and a timer is in it exactly if it is active. *)
Theorem execute_cmd_correct `{Arch, Board, TxFeatures} time_bits msg s C xs :
  tinv s C xs → (∀ i, msg_timer msg = Some i → is_Some (timer_objs s !! i)) →
  let r := exec (execute_cmd time_bits msg) s in
  match cmd_step time_bits (tick_counter (tm (kern s))) msg (timer_objs s) xs with
  | Some (ts, ys) => ∃ s', r = Done tt s' ∧ tinv s' (<[ActiveList := ys]> C) ys ∧ timers_changed s s' ts
  | None => r = Failed Panic
  end.
Proof.
  intros Hi Hknown r. assert (Hsame : ∀ r', r' = Done tt s → ∃ s', r' = Done tt s' ∧
    tinv s' (<[ActiveList := xs]> C) xs ∧ timers_changed s s' (timer_objs s)).
  { intros r' ->. exists s. rewrite insert_id by apply Hi. split_and!; [done|done|].
    split_and!; try done. unfold only_timers, set_timer. by destruct (kern s). }
  unfold cmd_step. subst r. unfold execute_cmd. destruct (msg_timer msg) as [i|]; [|by apply Hsame].
  destruct (Hknown i eq_refl) as [t Ht]. rewrite Ht.
  destruct (cmd msg); [by apply Hsame| | | | |].
  - run (exec_deref_timer i s t Ht). destruct (time_checked_add time_bits (opaque msg) (period_ticks t)) as [e|]; [|done].
    by apply exec_start.
  - by apply exec_stop.
  - run (exec_deref_timer i s t Ht). destruct (time_checked_add time_bits (opaque msg) (period_ticks t)) as [e|]; [|done].
    by apply exec_start.
  - by apply exec_stop.
  - cbn zeta. destruct (opaque msg <=? 0); [by apply Hsame|].
    run (exec_update_timer (set_period (opaque msg)) i s t Ht). set (s1 := with_timers _ s).
    run (exec_ticks s1). change (kern s1) with (kern s).
    destruct (time_checked_add time_bits (tick_counter (tm (kern s))) (opaque msg)) as [e|]; [|done].
    assert (Hi1 : tinv s1 C xs).
    { destruct Hi as [Hk HC Hs Hn Ha]. split; [done..| |].
      - intros j w Hin. cbn. apply lookup_insert_is_Some'. right. by eapply Hn.
      - intros j u. cbn. intros [[<- <-]|[Hne Hj]]%lookup_insert_Some; [exact (Ha i t Ht)|exact (Ha j u Hj)]. }
    destruct (exec_start s1 C xs i (set_period (opaque msg) t) e Hi1) as (s' & Ex & Hi' & Hts & Hrest); [apply lookup_insert_eq|].
    exists s'. split; [exact Ex|]. split; [done|]. split; [|done]. rewrite Hts. cbn. by rewrite insert_insert_eq.
Qed.

(** Calling back an expired timer: when the callback has run, a timer that
    reloads itself is put back, to expire a period from now, and another one is
    taken out and becomes inactive. *)
Lemma fire_timer_correct `{Arch, Board, TxFeatures} time_bits dispatch s s1 C xs i e t :
  timer_objs s !! i = Some t →
  (if call_back_is_closure t then s1 = s else exec (dispatch (callback t) (param t)) s = Done tt s1) →
  tinv s1 C (timer_entry i e :: xs) → timer_objs s1 !! i = Some t →
  let r := exec (fire_timer time_bits dispatch i) s in
  if auto_reload t then
    match time_checked_add time_bits (tick_counter (tm (kern s1))) (period_ticks t) with
    | Some e' => ∃ s', r = Done tt s' ∧ tinv s' (<[ActiveList := schedule i e' xs]> C) (schedule i e' xs) ∧
        timers_changed s1 s' (<[i := set_active true t]> (timer_objs s1))
    | None => r = Failed Panic
    end
  else ∃ s', r = Done tt s' ∧ tinv s' (<[ActiveList := xs]> C) xs ∧
    timers_changed s1 s' (<[i := set_active false t]> (timer_objs s1)).
Proof.
  intros Ht Hcall Hi Ht1 r. subst r. unfold fire_timer. run (exec_deref_timer i s t Ht).
  rewrite (exec_bind_done _ _ _ tt s1); [|by destruct (call_back_is_closure t); [subst|]].
  run (exec_deref_timer i s1 t Ht1). destruct (auto_reload t).
  - run (exec_ticks s1).
    destruct (time_checked_add _ _ _) as [e'|]; [|done]. by eapply exec_reload.
  - pose proof (repr_NoDup _ _ _ _ (k_repr _ _ _ _ (ti_kinv _ _ _ Hi)) (ti_list _ _ _ Hi)) as [Hn _]%NoDup_cons.
    rewrite <-(unschedule_hd i e xs Hn). by apply exec_stop.
Qed.

(** C32: Putting a timer back into the list of the active timers survives power
    failures: wherever power fails, also while recovery is under way, either
    nothing has happened to the list, or the transaction has committed with the
    timer in its place, or recovery completes it to the very same state. *)
Theorem reinsert_crash_safe `{Arch} k C xs i e :
  debug_assertions = false → kinv k C None → C !! ActiveList = Some xs → placed i e (ls k) xs →
  Z.of_nat (length xs) < 4095 → op (timer_log k) = TxInvalid → timer_micro (ls k) = 0 →
  let p := atomic_roll_forward_remove_reinsert_into_activelist (TimerNode i) in
  let rec := recover_and_roll_forward_of_activelist_remove_reinsert in
  let C' := <[ActiveList := schedule i e xs]> C in
  ∃ k' K, exec p k = Done tt k' ∧ kinv k' C' None ∧ op (timer_log k') = ActiveListTxCommitted ∧
    (∀ c, c ∈ crash_states p k → K c) ∧
    ∀ c, K c →
      (ls c = ls k ∧ op (timer_log c) ≠ ActiveListTxCommitted ∧ (op (timer_log c) = TxInvalid ∨ exec rec c = Done false c)) ∨
      (op (timer_log c) = ActiveListTxCommitted ∧ kinv c C' None) ∨
      (op (timer_log c) = ActiveListRemoveReInsert ∧ runs K rec c (λ ok c', ok = true ∧ c' = k')).
Proof.
  intros Hdbg Hk HC Hp Hlen Hop Hmicro p rec C'. pose proof (k_repr _ _ _ _ Hk) as Hr.
  destruct (unlink_timer C i e (ls k) xs Hr HC Hp) as (s1 & Ex1 & Hr1 & Hf1 & Hfree1 & J1 & HJ1 & HJs & HR1).
  destruct (link_timer C i e (tasks k) s1 xs Hr1 Hf1) as (s2 & Ex2 & Hr2 & Hfree2).
  destruct (link_timer_safe C i e (tasks k) s1 s2 xs Hdbg Hr1 Hf1 Ex2) as (_ & J2 & HJ2 & HR2).
  assert (Hinv : ∀ w L, kinv (set_timer k (apply (UMicro true w) s2) L) C' None).
  { intros w L. apply (kinv_active k C xs); [done|done|apply (repr_micro _ _ _ _ Hr2)|..].
    - intros x [->|[Hx _]%elem_unschedule]%elem_schedule; [by exists i, e|by eapply entries_active].
    - intros m u Hm Hf. by apply Hfree2, Hfree1. }
  pose proof (reinsert_runs k xs i Hop Hmicro s1 s2 J1 J2 Ex1 HJ1 HJs Ex2 HJ2 HR2) as Hruns.
  destruct (runs_exec _ _ _ _ Hruns) as ([] & k' & Ex & ->).
  eexists _, (reinserting k i s2 J1 J2). split; [exact Ex|]. split; [apply Hinv|]. split; [done|].
  split; [exact (runs_always _ _ _ _ Hruns)|]. intros c Hc.
  destruct (recover_reinsert k xs i Hlen Hmicro s1 s2 J1 J2 HJs HR1 Ex2 HJ2 HR2 c Hc) as [(L & -> & HL)|[[Eo [-> | ->]]|?]].
  - left. by split.
  - right; left. split; [done|]. replace s2 with (apply (UMicro true (timer_micro s2)) s2) by by destruct s2. apply Hinv.
  - right; left. split; [done|apply Hinv].
  - right; right. done.
Qed.

(** ** The daemon's round *)

(** Task [t] is running and its record has no copy of the memory. *)
Definition runs_as (t : nat) (s : tstore) : Prop :=
  current_task (kern s) = Some t ∧ ∃ b, tasks (kern s) !! t = Some b ∧ bytes (tx_pm (tx (utask b))) = [].
Definition user_upd (t : nat) (x : tx_state) (k : kernel) : kernel :=
  with_tasks (alter (λ b, Build_tcb (priority b) (status b)
    (with_user_tx_info (with_user_tx x (user_tx_info (utask b))) (utask b))) t) k.

Section round.
Context `{Arch, Board, TxFeatures} (Hdbg : debug_assertions = false).
Implicit Types (s : tstore) (C : contents).

Lemma user_upd_status t x k : same_status (tasks k) (tasks (user_upd t x k)).
Proof.
  intros t'. cbn. destruct (decide (t' = t)) as [->|?]; [rewrite lookup_alter_eq|by rewrite lookup_alter_ne].
  by destruct (tasks k !! t).
Qed.
Lemma tinv_user_upd s C xs t x : tinv s C xs → tinv (with_kern (user_upd t x (kern s)) s) C xs.
Proof.
  intros [Hk HC Hs Hn Ha]. split; try done. cbn [kern with_kern]. eapply sinv_status; [apply (user_upd_status t x)|exact Hk].
Qed.
Lemma runs_as_user_upd s t x : runs_as t s → runs_as t (with_kern (user_upd t x (kern s)) s).
Proof. intros (Hc & b & Hb & Hm). split; [done|]. eexists. cbn. rewrite lookup_alter_eq, Hb. by split. Qed.

(** A step of the user transaction of the task that runs. *)
Lemma exec_on_user_tx {A} (p : prog tx_state A) t s :
  runs_as t s → (∀ x, ∃ a y, exec p x = Done a y) →
  ∃ a y, exec (on_current (on_user_tx p)) s = Done a (with_kern (user_upd t y (kern s)) s).
Proof.
  intros (Hc & b & Hb & Hm) Hp. revert Hc Hb. set (k := kern s). intros Hc Hb. set (u0 := task_with_mem (kmem k) (utask b)).
  destruct (Hp (user_tx (user_tx_info u0))) as (a & y & E). exists a, y. unfold on_current. apply exec_on_kernel. fold k. clearbody k.
  run (exec_current k t Hc). unfold on_task. run (exec_deref_task t k b Hb).
  assert (Eu : utask b = task_with_mem [] u0) by (unfold u0; destruct b as [? ? [? [[? ?]] ? ? ?]]; cbn in *; by subst).
  rewrite (exec_zoom_task _ t (utask b) k u0 b Hb Eu eq_refl).
  unfold on_user_tx. rewrite (exec_zoom_done (Lens0 := uinfo_lens) _ u0 a (with_user_tx y (user_tx_info u0)));
    [|by apply (exec_zoom_done (Lens0 := user_tx_lens))].
  f_equal. cbn [lset task_lens]. unfold user_upd, with_tasks, with_kmem. destruct k as [? ts ? ? ? ? ? ? ? ?]. cbn in Hb |- *. f_equal.
  apply map_eq. intros t'. destruct (decide (t' = t)) as [->|?]; [|by rewrite !lookup_alter_ne].
  rewrite !lookup_alter_eq, Hb. cbn. do 2 f_equal. unfold u0. destruct b as [? ? [? [[? ?]] ? ? ?]]; cbn in *. by subst.
Qed.

(** In a release build beginning and committing do not fail. *)
Lemma exec_tx_begin_total x : ∃ a y, exec tx_begin x = Done a y.
Proof. unfold tx_begin, inc_nesting. rewrite Hdbg. cbn. eauto. Qed.
Lemma exec_tx_commit_total x : ∃ a y, exec tx_commit_no_replay x = Done a y.
Proof. unfold tx_commit_no_replay, dec_nesting. rewrite Hdbg. cbn. eauto. Qed.

(** The daemon's log is empty when it looks at the first timer. *)
Definition woken (k : kernel) : kernel := set_timer k (apply (UMicro true 0) (ls k)) (set_op TxInvalid (timer_log k)).
Definition set_next (e : Z) (k : kernel) : kernel :=
  with_tm (λ m, Build_TimeManager (tick_counter m) (next_unblock_time m) e) k.

Lemma kinv_woken k C : kinv k C None → kinv (woken k) C None.
Proof.
  intros Hk. destruct Hk as [Hr He Hrd Hd Hs Hev]. split; [by apply repr_micro|done..].
Qed.
Lemma tinv_woken s C xs : tinv s C xs → tinv (with_kern (woken (kern s)) s) C xs.
Proof. intros [Hk HC Hs Hn Ha]. split; try done. by apply kinv_woken. Qed.
Lemma exec_peek_active k C xs : kinv k C None → C !! ActiveList = Some xs →
  exec (on_lists (peek_front ActiveList)) k = Done (snd <$> hd_error xs) k.
Proof.
  intros Hk HC. rewrite (exec_on_lists _ _ (snd <$> hd_error xs) (ls k)); [by destruct k|].
  eapply exec_peek_front; [exact (k_repr _ _ _ _ Hk)|done|done].
Qed.
(** The daemon looks at the first timer. *)
Lemma exec_daemon_looks {A} s C xs (p : option item → prog tstore A) :
  tinv s C xs →
  exec (on_kernel timer_log_invalidate;;; let* v := on_kernel (on_lists (peek_front ActiveList)) in p v) s =
  exec (p (snd <$> hd_error xs)) (with_kern (woken (kern s)) s).
Proof.
  intros Hi. set (s1 := with_kern (woken (kern s)) s). pose proof (tinv_woken _ _ _ Hi) as Hi1.
  rewrite (exec_bind_done _ _ _ tt s1) by by apply exec_on_kernel.
  by rewrite (exec_bind_done _ _ _ _ _ (exec_on_kernel _ s1 _ _ (exec_peek_active _ _ _ (ti_kinv _ _ _ Hi1) (ti_list _ _ _ Hi1)))).
Qed.
Lemma runs_as_only t s s' : only_timers (kern s) (kern s') → runs_as t s → runs_as t s'.
Proof. unfold runs_as. intros ->. done. Qed.
End round.

(** What a callback may do: it leaves the timers, their list and the clock, and
    the task that runs keeps running. *)
Definition callback_ok `{Arch} (C : contents) (xs : list (nid * item)) (t : nat) (ts : gmap nat Timer) (now : Z) (s : tstore) : Prop :=
  tinv s C xs ∧ runs_as t s ∧ timer_objs s = ts ∧ tick_counter (tm (kern s)) = now.

(** A timer has been called back: behind the beginning of a user transaction its function
    runs on its parameter, then the list and the timers become [ts], and the transaction
    is committed. (Code for closures is stored as a function, so that
    [call_back_is_closure] is never set by a constructor; such a timer would run nothing.) *)
Definition called_back `{Arch, Board, TxFeatures} (dispatch : Z → Z → prog tstore unit) (tm0 : Timer) (ts : gmap nat Timer) (s0 s' : tstore) : Prop :=
  ∃ s1 s2 s3, exec (on_current (on_user_tx tx_begin)) s0 = Done tt s1 ∧
    exec (if call_back_is_closure tm0 then skip else dispatch (callback tm0) (param tm0)) s1 = Done tt s2 ∧
    timers_changed s2 s3 ts ∧ exec (on_current (on_user_tx tx_commit_no_replay)) s3 = Done tt s'.

(** C31: A round of the daemon with a timer at the front whose time has come: its function
    runs on its parameter behind the beginning of a user transaction, what it has changed
    stays, the timer is put back a period later if it reloads itself, or taken out, and
    the transaction is committed; nothing else happens. *)
Theorem process_expired_timer_fires `{Arch, Board, TxFeatures} time_bits dispatch yield s C xs i e t tm0 :
  debug_assertions = false → tinv s C (timer_entry i e :: xs) → runs_as t s →
  timer_objs s !! i = Some tm0 → e ≤ tick_counter (tm (kern s)) →
  let ok := callback_ok C (timer_entry i e :: xs) t (timer_objs s) (tick_counter (tm (kern s))) in
  (∀ s0, ok s0 → ∃ s1, exec (dispatch (callback tm0) (param tm0)) s0 = Done tt s1 ∧ ok s1) →
  let r := exec (process_expired_timer time_bits dispatch yield) s in
  let s0 := with_kern (set_next e (woken (kern s))) s in
  let done_with b ys := ∃ s', r = Done tt s' ∧ called_back dispatch tm0 (<[i := set_active b tm0]> (timer_objs s)) s0 s' ∧
    tinv s' (<[ActiveList := ys]> C) ys ∧ runs_as t s' ∧
    timer_objs s' = <[i := set_active b tm0]> (timer_objs s) ∧ tick_counter (tm (kern s')) = tick_counter (tm (kern s)) in
  if auto_reload tm0 then
    match time_checked_add time_bits (tick_counter (tm (kern s))) (period_ticks tm0) with
    | Some e' => done_with true (schedule i e' xs)
    | None => r = Failed Panic
    end
  else done_with false xs.
Proof.
  intros Hdbg Hi Hrun Ht Hexp ok Hcall r s0 done_with.
  assert (Hok0 : ok s0) by (split; [destruct (tinv_woken _ _ _ Hi); by split|by split_and!]).
  assert (Er : r = exec (run_once (fire_timer time_bits dispatch i)) s0).
  { unfold r, process_expired_timer. rewrite (exec_daemon_looks _ _ _ _ Hi). cbn [fmap option_fmap option_map hd_error snd timer_entry].
    rewrite (exec_bind_done _ _ _ tt s0) by exact (exec_on_kernel (set_next_expiry_time e) (with_kern (woken (kern s)) s) tt (set_next e (woken (kern s))) eq_refl).
    rewrite (exec_bind_done _ _ _ true s0); [done|]. unfold expired_by_now.
    rewrite (exec_on_kernel _ s0 true (kern s0)); [done|]. cbn. do 2 f_equal. by apply Z.leb_le. }
  destruct (exec_on_user_tx tx_begin t s0 Hrun (exec_tx_begin_total Hdbg)) as ([] & x & E1).
  set (s1 := with_kern (user_upd t x (kern s0)) s0) in E1.
  assert (Hok1 : ok s1).
  { destruct Hok0 as (Hx & Hr & Hts & Htk). split; [by apply tinv_user_upd|]. by split; [apply runs_as_user_upd|]. }
  assert (Hin : ∃ s2, exec (if call_back_is_closure tm0 then skip else dispatch (callback tm0) (param tm0)) s1 = Done tt s2 ∧
    (if call_back_is_closure tm0 then s2 = s1 else exec (dispatch (callback tm0) (param tm0)) s1 = Done tt s2) ∧ ok s2).
  { destruct (call_back_is_closure tm0); [by exists s1|]. destruct (Hcall s1 Hok1) as (s2 & E & Hok). by exists s2. }
  destruct Hin as (s2 & Ecall & Hc & (Hi2 & Hr2 & Hts2 & Htk2)).
  assert (Ht2 : timer_objs s2 !! i = Some tm0) by by rewrite Hts2.
  pose proof (fire_timer_correct time_bits dispatch s1 s2 C xs i e tm0 Ht Hc Hi2 Ht2) as Hf. cbn zeta in Hf. rewrite Htk2, Hts2 in Hf.
  assert (Hround : ∀ b ys, (∃ s3, exec (fire_timer time_bits dispatch i) s1 = Done tt s3 ∧ tinv s3 (<[ActiveList := ys]> C) ys ∧
    timers_changed s2 s3 (<[i := set_active b tm0]> (timer_objs s))) → done_with b ys).
  { intros b ys (s3 & Ef & Hi3 & Hch). pose proof Hch as (Ets & Ho & _). pose proof (runs_as_only t s2 s3 Ho Hr2) as Hr3.
    destruct (exec_on_user_tx tx_commit_no_replay t s3 Hr3 (exec_tx_commit_total Hdbg)) as ([] & y & E2).
    eexists. split; [rewrite Er; unfold run_once; run E1; run Ef; by run E2|]. split; [by exists s1, s2, s3|].
    split; [by apply tinv_user_upd|]. split; [by apply runs_as_user_upd|]. split; [done|]. cbn. by rewrite Ho. }
  destruct (auto_reload tm0); [destruct (time_checked_add _ _ _)|]; [by apply Hround| |by apply Hround].
  rewrite Er. unfold run_once. run E1. by rewrite exec_bind, Hf.
Qed.

(** A round of the daemon with no timer whose time has come and no command in
    its queue: the daemon sleeps on the list of the queue's readers, until the
    first timer expires, or as long as possible if none is active. *)
Theorem process_expired_timer_waits `{Arch, Board, TxFeatures} time_bits dispatch yield l s C xs t b ws o :
  tinv s C xs → waiters_blocked (tasks (kern s)) C → in_syscall (kern s) t b → cpu_ok (kern s) →
  timer_cmd_queue s = Some (queue_of l) → queue_repr l (kmem (kern s)) [] →
  C !! WaitList (ql_readers l) = Some ws → free (ls (kern s)) (EventNode t) (BlockItem t o) →
  (∀ x, hd_error xs = Some x → tick_counter (tm (kern s)) < expiry x ≤ MAX_DELAY_TIME time_bits) →
  let w := match xs with [] => MAX_DELAY_TIME time_bits | x :: _ => expiry x end in
  let k0 := match xs with [] => woken (kern s) | x :: _ => set_next (expiry x) (woken (kern s)) end in
  let C' := block_on (tasks (kern s)) (ql_readers l) t o w C in
  ∃ k', exec (process_expired_timer time_bits dispatch yield) s = exec (on_kernel yield) (with_kern k' s) ∧
    kinv k' C' None ∧ waiters_blocked (tasks k') C' ∧ fell_asleep t w k0 k'.
Proof.
  intros Hi Hw Hsc Hcpu Hq Hrep HC Hf Hhd w k0 C'.
  assert (Hk0 : kinv k0 C None) by (pose proof (ti_kinv _ _ _ (tinv_woken _ _ _ Hi)) as Hk; unfold k0; by destruct xs).
  assert (Hsc0 : in_syscall k0 t b) by (unfold k0; destruct xs, Hsc; by split).
  assert (Hf0 : free (ls k0) (EventNode t) (BlockItem t o)) by (unfold k0; by destruct xs).
  pose proof (λ n f, queue_block_spec time_bits l k0 C t b yield n f ws o) as Hspec.
  assert (Hblock : ∀ (p : prog tstore unit) n f, exec p (with_kern k0 s) =
      exec (on_kernel (queue_block_until_not_empty time_bits yield (queue_of l) n f)) (with_kern k0 s) →
    (if f : bool then Some (MAX_DELAY_TIME time_bits) else time_checked_add time_bits (tick_counter (tm k0)) n) = Some w →
    ∃ k', exec p (with_kern k0 s) = exec (on_kernel yield) (with_kern k' s) ∧
      kinv k' C' None ∧ waiters_blocked (tasks k') C' ∧ fell_asleep t w k0 k').
  { intros p n f -> Ew. specialize (Hspec n f). cbn zeta in Hspec. rewrite Ew in Hspec.
    assert (Hw0 : waiters_blocked (tasks k0) C) by (unfold k0; by destruct xs).
    assert (Hcpu0 : cpu_ok k0) by (unfold k0; by destruct xs).
    assert (Hrep0 : queue_repr l (kmem k0) []) by (unfold k0; by destruct xs).
    destruct (Hspec Hk0 Hw0 Hsc0 Hcpu0 Hrep0 HC Hf0) as (k' & Ex & Hk' & Hw' & Hs').
    assert (Ets : tasks k0 = tasks (kern s)) by (unfold k0; by destruct xs). rewrite Ets in Hk', Hw'.
    exists k'. split; [|done]. unfold on_kernel. rewrite !exec_zoom. cbn [lget kern_lens kern with_kern]. by rewrite Ex. }
  unfold process_expired_timer. rewrite (exec_daemon_looks _ _ _ _ Hi).
  pose proof (entries_active _ _ _ (ti_kinv _ _ _ Hi) (ti_list _ _ _ Hi)) as Hall.
  destruct xs as [|x xs].
  - apply (Hblock _ 0 true); [|done]. cbn. unfold get_cmd_queue_ptr. cbn. by rewrite Hq.
  - destruct (Hall x) as (i & e & ->); [by left|]. destruct (Hhd _ eq_refl) as [Hlt Hle]. cbn in Hlt, Hle, w.
    cbn [fmap option_fmap option_map hd_error snd timer_entry].
    set (s0 := with_kern (woken (kern s)) s).
    rewrite (exec_bind_done _ _ _ tt (with_kern k0 s)) by exact (exec_on_kernel (set_next_expiry_time e) s0 tt k0 eq_refl).
    rewrite (exec_bind_done _ _ _ false (with_kern k0 s)).
    2:{ rewrite (exec_on_kernel _ _ false k0); [done|]. cbn. do 2 f_equal. apply Z.leb_gt. lia. }
    apply (Hblock _ (e - tick_counter (tm (kern s))) false).
    2:{ unfold time_checked_add. cbn. rewrite (proj2 (Z.leb_le _ _)) by lia. f_equal. unfold w. cbn. lia. }
    rewrite (exec_bind_done _ _ _ _ _ (exec_ticks (with_kern k0 s))).
    rewrite (exec_bind_done _ _ _ e (with_kern k0 s)) by exact (exec_on_kernel get_next_expiry_time (with_kern k0 s) e k0 eq_refl).
    cbn [with_kern kern]. change (tick_counter (tm k0)) with (tick_counter (tm (kern s))).
    rewrite (proj2 (Z.ltb_lt _ _) Hlt). cbn [when]. unfold get_cmd_queue_ptr. cbn. by rewrite Hq.
Qed.

Module example.
#[local] Existing Instances cortex_m qemu default_features.

(** Timer 1 is active and expires at 20; timer 0 is not active. Task 0 is the
    daemon, the commands are in a queue of two messages. *)
Definition timed_lists : list (lid * list (nid * item)) :=
  filter (λ lx, lx.1 ≠ ActiveList) demo_lists ++ [(WaitList 2, []); (ActiveList, [timer_entry 1 20])].
Definition timed_contents : contents := list_to_map timed_lists.
Definition timed_store : lstore nid lid item :=
  Build_lstore
    (<[TimerNode 0 := Build_Node None None None (TimerItem 0 0)]>
      (<[TimerNode 1 := Build_Node None None (Some ActiveList) (TimerItem 1 20)]> (nodes demo_store)))
    (<[WaitList 2 := Build_PList 0 None None]> (<[ActiveList := Build_PList 1 None (Some (TimerNode 1))]> (lists demo_store)))
    0 0.

Definition cmd_byte (c : TimerCmd) : Z :=
  match c with CmdInvalid => 0 | CmdStart => 1 | CmdStop => 2 | CmdReset => 3 | CmdDelete => 4 | CmdSetPeriod => 5 end.
Definition byte_cmd (z : Z) : TimerCmd :=
  match z with 1 => CmdStart | 2 => CmdStop | 3 => CmdReset | 4 => CmdDelete | 5 => CmdSetPeriod | _ => CmdInvalid end.
Definition msg_bytes (m : TimerMessage) : list Z :=
  [cmd_byte (cmd m); match msg_timer m with Some i => Z.of_nat i + 1 | None => 0 end; opaque m].
Definition bytes_msg (bs : list Z) : TimerMessage :=
  match bs with
  | [c; t; x] => Build_TimerMessage (byte_cmd c) (if t =? 0 then None else Some (Z.to_nat (t - 1))) x
  | _ => Build_TimerMessage CmdInvalid None 0
  end.
Definition plain_msg : Plain TimerMessage := {| size_of := 3; to_bytes := msg_bytes; of_bytes := bytes_msg |}.
Definition plain_msg_or {E} (e : E) : Plain (Result TimerMessage E) := {|
  size_of := 4;
  to_bytes r := match r with Ok m => 0 :: msg_bytes m | Err _ => [1; 0; 0; 0] end;
  of_bytes bs := match bs with 0 :: bs => Ok (bytes_msg bs) | _ => Err e end;
|}.
#[local] Instance plain_msg_code : Plain (Result TimerMessage ErrorCode) := plain_msg_or TxRetry.
#[local] Instance plain_msg_queue : Plain (Result TimerMessage QueueErr) := plain_msg_or QueueEmpty.
#[local] Existing Instance plain_msg.

Definition cmd_queue : Queue := {|
  q_length := 2; q_item_size := 3; q_buffer := 0; q_tail := 6; q_read_pos := 8; q_write_pos := 12; q_items_enqueued := 16;
  q_blocked_readers := 1; q_blocked_writers := 2;
|}.
(** The queue with one message in it, or without. *)
Definition queue_bytes (m : list Z) (n : Z) : list Z :=
  m ++ replicate (8 - length m) 0 ++ usize_to_bytes 0 ++ usize_to_bytes (3 * n) ++ usize_to_bytes n.
Definition timed (m : list Z) : tstore := {|
  kern := with_timer_daemon (Some 0%nat) (with_kmem m (with_ls timed_store demo));
  timer_objs := <[0%nat := Build_Timer 10 0 0 false false true]> (<[1%nat := Build_Timer 7 0 0 false true true]> ∅);
  timer_cmd_queue := Some cmd_queue;
  message_buf := Build_TimerMessage CmdInvalid None 0;
|}.

Lemma timed_repr : repr is_ready_list timed_store timed_contents.
Proof.
  split; [|vm_compute; done]. intros l xs HC. apply elem_of_list_to_map_2 in HC.
  repeat (apply elem_of_cons in HC as [[= -> ->]|HC]); [..|by inversion HC]; unfold holds, is_ready_list, circular, linear.
  all: split_and!; [try (eexists; split; [reflexivity|cbn; by auto])|..|repeat constructor; set_solver]; try reflexivity.
  all: cbn; try split_and!; reflexivity || (eexists; split; [reflexivity|]; right; eexists; split; [reflexivity|]; constructor).
Qed.
Lemma timed_kinv m : kinv (kern (timed m)) timed_contents None.
Proof.
  split.
  - exact timed_repr.
  - intros l xs e HC He. apply elem_of_list_to_map_2 in HC.
    repeat (apply elem_of_cons in HC as [[= -> ->]|HC]); [..|by inversion HC];
      repeat (apply elem_of_cons in He as [->|He]); try (by inversion He); repeat eexists; reflexivity.
  - intros p Hp. do 8 (destruct p as [|p]; [eexists; reflexivity|]). lia.
  - eexists. split; [reflexivity|]. repeat constructor.
  - intros t b Hb. cbn in Hb. unfold demo_tasks in Hb.
    apply lookup_insert_Some in Hb as [[<- <-]|[_ [[<- <-]|[_ [[<- <-]|[_ [=]]]%lookup_insert_Some]]%lookup_insert_Some]];
      (split; [cbn; lia|]); right; (split; [done|]).
    + right. split; [done|]. exists 0. eexists. split; [reflexivity|]. constructor.
    + right. split; [done|]. exists 0. eexists. split; [reflexivity|]. do 2 constructor.
    + left. split; [done|]. exists 5. eexists. split; [reflexivity|]. constructor.
  - intros t b Hb. cbn in Hb. unfold demo_tasks in Hb.
    apply lookup_insert_Some in Hb as [[<- <-]|[_ [[<- <-]|[_ [[<- <-]|[_ [=]]]%lookup_insert_Some]]%lookup_insert_Some]].
    + left. exists 0. eexists. by split_and!.
    + left. exists 0. eexists. by split_and!.
    + right. exists 0%nat, 0. eexists. split; [reflexivity|]. constructor.
Qed.
Lemma timed_tinv m : tinv (timed m) timed_contents [timer_entry 1 20].
Proof.
  split; [apply timed_kinv|reflexivity|repeat constructor| |].
  - intros i e [-> ->]%list_elem_of_singleton%timer_entry_inj. by eexists.
  - intros i t. cbn. intros [[<- <-]|[_ [[<- <-]|[_ [=]]]%lookup_insert_Some]]%lookup_insert_Some; cbn.
    + exists 0. eexists. by split_and!.
    + exists 20. constructor.
Qed.

Lemma timed_waiters m : waiters_blocked (tasks (kern (timed m))) timed_contents.
Proof.
  intros t b Hb (wl & o & zs & HC & Hin). apply elem_of_list_to_map_2 in HC.
  repeat (apply elem_of_cons in HC as [[= -> ->]|HC]); [..|by inversion HC]; try (by inversion Hin);
    apply elem_of_cons in Hin as [[= ->]|Hin]; [|by inversion Hin]. by injection Hb as <-.
Qed.
Lemma timed_runs m : runs_as 0 (timed m).
Proof. split; [done|]. by eexists. Qed.
Definition cmd_layout : qlayout := QLayout 2 3 0 8 12 16 1 2.
Definition no_commands : list Z := queue_bytes [] 0.
Lemma no_commands_repr : queue_repr cmd_layout no_commands [].
Proof. exists 0%nat. split_and!; try (vm_compute; lia); try (split_and!; [vm_compute; lia|reflexivity|by vm_compute]). done. Qed.

Lemma execute_cmd_correct_witness :
  let msg := Build_TimerMessage CmdStart (Some 0%nat) 4 in
  ∃ s', exec (execute_cmd 32 msg) (timed []) = Done tt s' ∧
    tinv s' (<[ActiveList := [timer_entry 0 14; timer_entry 1 20]]> timed_contents) [timer_entry 0 14; timer_entry 1 20] ∧
    timers_changed (timed []) s' (<[0%nat := Build_Timer 10 0 0 false true true]> (timer_objs (timed []))).
Proof.
  intros msg. apply (execute_cmd_correct 32 msg (timed []) timed_contents _ (timed_tinv [])). intros i [= <-]. by eexists.
Defined.

(** At 25 timer 1 is called back and put back, to expire at 32. *)
Definition late : tstore :=
  with_kern (with_tm (λ m, Build_TimeManager 25 (next_unblock_time m) (next_expiry_time m)) (kern (timed []))) (timed []).
Lemma late_tinv : tinv late timed_contents [timer_entry 1 20].
Proof. destruct (timed_tinv []). by split. Qed.
(** The callback stores what it is given; a callback that does so leaves the timers. *)
Definition storing (_ x : Z) : prog tstore unit := on_kernel (modify (with_kmem [x + 5])).
Lemma process_expired_timer_fires_witness :
  let ts := <[1%nat := Build_Timer 7 0 0 false true true]> (timer_objs late) in
  ∃ s', exec (process_expired_timer 32 storing (Ret tt)) late = Done tt s' ∧
    called_back storing (Build_Timer 7 0 0 false true true) ts (with_kern (set_next 20 (woken (kern late))) late) s' ∧
    tinv s' (<[ActiveList := [timer_entry 1 32]]> timed_contents) [timer_entry 1 32] ∧ runs_as 0 s' ∧
    timer_objs s' = ts ∧ tick_counter (tm (kern s')) = 25.
Proof.
  apply (process_expired_timer_fires 32 storing (Ret tt) late timed_contents [] 1 20 0
    (Build_Timer 7 0 0 false true true)); [done|exact late_tinv|exact (timed_runs [])|done|done|].
  intros s0 (Hi & Hr & Hts & Htk). eexists. split; [reflexivity|]. split_and!; [|done..]. destruct Hi as [[] ? ? ? ?]. by split; [split|..].
Defined.
Lemma process_expired_timer_waits_witness :
  let C' := block_on (tasks (kern (timed no_commands))) 1 0 0 20 timed_contents in
  ∃ k', exec (process_expired_timer 32 (λ _ _, skip) (Ret tt)) (timed no_commands) =
      exec (on_kernel (Ret tt)) (with_kern k' (timed no_commands)) ∧
    kinv k' C' None ∧ waiters_blocked (tasks k') C' ∧
    fell_asleep 0 20 (set_next 20 (woken (kern (timed no_commands)))) k'.
Proof.
  apply (process_expired_timer_waits 32 (λ _ _, skip) (Ret tt) cmd_layout (timed no_commands) timed_contents [timer_entry 1 20] 0
    (demo_task 1 Running) [] 0 (timed_tinv _) (timed_waiters _)); [by split|by split; vm_compute|done| |done| |].
  - exact no_commands_repr.
  - eexists. by split_and!.
  - intros x Hx. injection Hx as <-. by vm_compute.
Defined.
Lemma reinsert_crash_safe_witness :
  let k := kern (timed []) in
  let p := atomic_roll_forward_remove_reinsert_into_activelist (TimerNode 1) in
  let rec := recover_and_roll_forward_of_activelist_remove_reinsert in
  let C' := <[ActiveList := [timer_entry 1 20]]> timed_contents in
  ∃ k' K, exec p k = Done tt k' ∧ kinv k' C' None ∧ op (timer_log k') = ActiveListTxCommitted ∧
    (∀ c, c ∈ crash_states p k → K c) ∧
    ∀ c, K c →
      (ls c = ls k ∧ op (timer_log c) ≠ ActiveListTxCommitted ∧ (op (timer_log c) = TxInvalid ∨ exec rec c = Done false c)) ∨
      (op (timer_log c) = ActiveListTxCommitted ∧ kinv c C' None) ∨
      (op (timer_log c) = ActiveListRemoveReInsert ∧ runs K rec c (λ ok c', ok = true ∧ c' = k')).
Proof.
  apply (reinsert_crash_safe (kern (timed [])) timed_contents [timer_entry 1 20] 1 20); try done; [apply timed_kinv|left; by left].
Defined.
End example.

Section restarts.
#[local] Existing Instances cortex_m qemu default_features.
#[local] Existing Instances example.plain_msg example.plain_msg_code example.plain_msg_queue.
Import example.

(** No timer is active, and a command that starts timer 0 is in the queue. *)
Definition idle (m : list Z) : tstore :=
  match exec (execute_cmd 32 (Build_TimerMessage CmdStop (Some 1%nat) 0)) (timed m) with Done _ s => s | Failed _ => timed m end.
Definition start_0 : TimerMessage := Build_TimerMessage CmdStart (Some 0%nat) 4.
Definition sent : tstore := idle (queue_bytes (msg_bytes start_0) 1).
Definition expire : prog tstore unit := process_expired_timer 32 (λ _ _, skip) (Ret tt).
Definition receive : prog tstore unit := process_receive_timer_cmd 32 (Ret tt) [] 5.
(** Power fails after [n] writes of [p]; the system restarts and the daemon begins
    its next round. *)
Definition next_round (n : nat) (p : prog tstore unit) (s : tstore) : kernel :=
  let c := default s (crash_at n p s) in
  let k := result_of (exec (increase_generation;;; recover;;; modify (recovering 0)) (kern c)) demo in
  match exec expire (with_kern k c) with Done _ s' => kern s' | Failed _ => demo end.
Definition after (p : prog tstore unit) (s : tstore) : kernel := match exec p s with Done _ s' => kern s' | Failed _ => demo end.
Definition active_len (k : kernel) : option Z := len <$> lists (ls k) !! ActiveList.
Definition stop_0 : prog kernel unit := atomic_roll_forward_remove_from_activelist (TimerNode 0).

(** The command that starts a timer waits for the next command if power fails
    behind its receipt: the queue is empty by then, and the daemon, which first
    looks at the timers, goes to sleep until the end of time with no timer active. *)
Theorem restart_forgets_received_command :
  (members (after receive sent) ActiveList = [TimerNode 0]) ∧
  let k := next_round 46 receive sent in
  members k ActiveList = [] ∧ state_of k 0 = Some Blocked ∧ members k (WaitList 1) = [EventNode 0] ∧
  value <$> nodes (ls k) !! SchedNode 0 = Some (SchedItem 0 (MAX_DELAY_TIME 32)) ∧ slice 16 4 (kmem k) = usize_to_bytes 0.
Proof. vm_compute. repeat split. Qed.

(** Stopping a timer that is not active changes nothing, but if power fails in
    its log, recovery takes one off the length of the list all the same: a list of
    one timer counts none, and the length of the empty list wraps around. *)
Theorem stop_inactive_recovery_miscounts :
  let again k := result_of (exec (increase_generation;;; recover) (failed_after 3 stop_0 k)) demo in
  let k1 := kern (timed []) in let k0 := kern (idle []) in
  active_len (result_of (exec stop_0 k1) demo) = Some 1 ∧ active_len (result_of (exec stop_0 k0) demo) = Some 0 ∧
  (active_len (again k1) = Some 0 ∧ members (again k1) ActiveList = [TimerNode 1]) ∧
  active_len (again k0) = Some (usize_mod - 1).
Proof. vm_compute. repeat split. Qed.
End restarts.
