(* ===== verification/Containers.v ===== *)
(** * Vectors and queues of applications ([user/pvec.rs], [user/pqueue.rs])

    A vector and a ring in persistent memory. The record of each, behind a
    [PBox], is logged before it changes; the elements are stored without a log.
    An element is its bytes. *)

From S2P Require Import Prelude Arch Pmem PVar.

(** [PVec<T>]: the addresses of its [RawPVec] and of the fields, and the size of
    [T]. *)
Record PVec := { pv_obj : Z; pv_ptr : Z; pv_cap : Z; pv_len : Z; pv_size : Z }.
(** [PQueue<T>] with its [RawPQueue]. *)
Record PQueue := { pq_obj : Z; pq_ptr : Z; pq_cap : Z; pq_head : Z; pq_tail : Z; pq_len : Z; pq_size : Z }.
(** [RawValIter<T>] *)
Record RawValIter := { it_start : Z; it_end : Z }.

Section containers.
Context `{Arch, Board}.
Implicit Types (v : PVec) (q : PQueue) (it : RawValIter).

(** [ptr.add(i)] *)
Definition ptr_add (ptr i size : Z) : Z := uadd ptr (umul i size).

(** *** [PVec] *)

Definition raw_vec_mut v : prog pmem unit := append_log_of (pv_obj v) (Z.of_nat (3 * usize_bytes)).
Definition vec_clear v : prog pmem unit :=
  raw_vec_mut v;;;
  write_usize (pv_len v) 0.
(** [grow] *)
Definition vec_grow : prog pmem unit := Fail Panic.
Definition vec_push v (elem : list Z) : prog pmem unit :=
  raw_vec_mut v;;;
  let* len := read_usize (pv_len v) in
  let* cap := read_usize (pv_cap v) in
  when (len =? cap) vec_grow;;;
  let* ptr := read_usize (pv_ptr v) in
  let* len := read_usize (pv_len v) in
  write_bytes (ptr_add ptr len (pv_size v)) elem;;;
  let* len := read_usize (pv_len v) in
  write_usize (pv_len v) (uadd len 1).
Definition vec_is_full v : prog pmem bool :=
  let* len := read_usize (pv_len v) in
  let* cap := read_usize (pv_cap v) in
  Ret (len =? cap).
Definition vec_len v : prog pmem Z := read_usize (pv_len v).
Definition vec_pop v : prog pmem (option (list Z)) :=
  let* len := read_usize (pv_len v) in
  if len =? 0 then Ret None else
  raw_vec_mut v;;;
  let* len := read_usize (pv_len v) in
  write_usize (pv_len v) (usub len 1);;;
  let* ptr := read_usize (pv_ptr v) in
  let* len := read_usize (pv_len v) in
  let* x := read_bytes (ptr_add ptr len (pv_size v)) (Z.to_nat (pv_size v)) in
  Ret (Some x).
(** [index_mut]: the address of the element, which has been logged. *)
Definition vec_index_mut v (idx : Z) : prog pmem Z :=
  let* len := read_usize (pv_len v) in
  assert_ (idx <? len);;;
  let* ptr := read_usize (pv_ptr v) in
  append_log_of (ptr_add ptr idx (pv_size v)) (pv_size v);;;
  Ret (ptr_add ptr idx (pv_size v)).

(** [RawValIter::new] on the slice that [Deref] gives. *)
Definition raw_val_iter v : prog pmem RawValIter :=
  let* ptr := read_usize (pv_ptr v) in
  let* len := read_usize (pv_len v) in
  Ret {| it_start := ptr; it_end := ptr_add ptr len (pv_size v) |}.
Definition iter_next v it : prog pmem (option (list Z) * RawValIter) :=
  if it_start it =? it_end it then Ret (None, it) else
  let* x := read_bytes (it_start it) (Z.to_nat (pv_size v)) in
  Ret (Some x, {| it_start := uadd (it_start it) (pv_size v); it_end := it_end it |}).
Definition iter_next_back v it : prog pmem (option (list Z) * RawValIter) :=
  if it_start it =? it_end it then Ret (None, it) else
  let end_ := usub (it_end it) (pv_size v) in
  let* x := read_bytes end_ (Z.to_nat (pv_size v)) in
  Ret (Some x, {| it_start := it_start it; it_end := end_ |}).
Definition iter_size_hint v it : Z :=
  usub (it_end it) (it_start it) / (if pv_size v =? 0 then 1 else pv_size v).
Definition vec_drain v : prog pmem RawValIter :=
  let* it := raw_val_iter v in
  raw_vec_mut v;;;
  write_usize (pv_len v) 0;;;
  Ret it.

(** *** [PQueue] *)

Definition raw_mut_pqueue q : prog pmem unit := append_log_of (pq_obj q) (Z.of_nat (5 * usize_bytes)).
(** The index at [idx] is advanced, around the end of the buffer. *)
Definition advance_index q (idx : Z) : prog pmem unit :=
  let* p := read_usize idx in
  write_usize idx (uadd p 1);;;
  let* p := read_usize idx in
  let* cap := read_usize (pq_cap q) in
  when (p =? cap) (write_usize idx 0).
Definition pqueue_push_back q (elem : list Z) : prog pmem unit :=
  raw_mut_pqueue q;;;
  let* len := read_usize (pq_len q) in
  let* cap := read_usize (pq_cap q) in
  assert_ (len <? cap);;;
  let* ptr := read_usize (pq_ptr q) in
  let* tail := read_usize (pq_tail q) in
  write_bytes (ptr_add ptr tail (pq_size q)) elem;;;
  advance_index q (pq_tail q);;;
  let* len := read_usize (pq_len q) in
  write_usize (pq_len q) (uadd len 1).
Definition pqueue_clear q : prog pmem unit :=
  raw_mut_pqueue q;;;
  write_usize (pq_tail q) 0;;;
  write_usize (pq_head q) 0;;;
  write_usize (pq_len q) 0.
Definition pqueue_len q : prog pmem Z := read_usize (pq_len q).
Definition pqueue_peek_front q : prog pmem (option (list Z)) :=
  let* len := read_usize (pq_len q) in
  if len =? 0 then Ret None else
  let* ptr := read_usize (pq_ptr q) in
  let* head := read_usize (pq_head q) in
  let* x := read_bytes (ptr_add ptr head (pq_size q)) (Z.to_nat (pq_size q)) in
  Ret (Some x).
Definition pqueue_pop_front q : prog pmem (option (list Z)) :=
  let* len := read_usize (pq_len q) in
  if len =? 0 then Ret None else
  raw_mut_pqueue q;;;
  let* ptr := read_usize (pq_ptr q) in
  let* head := read_usize (pq_head q) in
  let* x := read_bytes (ptr_add ptr head (pq_size q)) (Z.to_nat (pq_size q)) in
  advance_index q (pq_head q);;;
  let* len := read_usize (pq_len q) in
  write_usize (pq_len q) (usub len 1);;;
  Ret (Some x).
End containers.
