(* ===== verification/ContainersSpec.v ===== *)
(** * What vectors and queues of applications promise

    Their operations are those of lists. A transaction of them rolls back to the
    elements that it began with, but for those over which it has stored others:
    elements are not logged. *)

From S2P Require Import Prelude Arch Pmem PmemSpec PVar QueueRing Containers.

(** The fields in a record of [osz] bytes, and the buffer apart from it. *)
Record obj_ok `{Arch} (l : qlayout) (N obj osz : nat) : Prop := {
  oo_layout : layout_ok l N;
  oo_vars : ∀ a, a ∈ ql_vars l → (obj ≤ a)%nat ∧ (a + usize_bytes ≤ obj + osz)%nat;
  oo_obj : (obj + osz ≤ N)%nat;
  oo_buf : apart obj osz (ql_buf l) (ql_length l * ql_item l);
  oo_object : is_object (Z.of_nat obj) (Z.of_nat osz);
}.

(** Every change of the object is behind a record of all of it. *)
Section logged_object.
Context `{Arch, Board} (Hboard : board_ok) (l : qlayout) (N obj osz : nat) (Ho : obj_ok l N obj osz).
Implicit Types (s : pmem) (es : list entry) (m : list Z).

Definition obj_records es : Prop := Forall (λ e, e_addr e = obj ∧ length (e_old e) = osz) es.

Lemma runs_log (I : pmem → Prop) es m s (Q : unit → pmem → Prop) :
  undoes es m s → obj_records es → length (bytes s) = N →
  tail (journal s) + Z.of_nat (record_size osz) ≤ JOURNAL_SIZE → (∀ c es', undoes es' m c → I c) →
  (∀ s' es', undoes es' m s' → obj_records es' → es' ≠ [] → bytes s' = bytes s →
     tail (journal s') = tail (journal s) + Z.of_nat (record_size osz) → Q tt s') →
  runs I (append_log_of (Z.of_nat obj) (Z.of_nat osz)) s Q.
Proof.
  intros Hu Hr HN Hroom HI HQ. pose proof (oo_obj _ _ _ _ Ho).
  eapply (runs_append_log Hboard I es m); [done|apply Ho|lia|done|done|].
  intros s' Hb Ht Hu'. eapply HQ; [exact Hu'| |by destruct es|done|done].
  apply Forall_app. split; [done|]. constructor; [|done]. split; [done|]. cbn. apply length_slice. lia.
Qed.

(** A store to a field behind the record, and one to a slot. *)
Lemma undoes_var es m s a v :
  undoes es m s → obj_records es → es ≠ [] → length (bytes s) = N → a ∈ ql_vars l →
  undoes es m (set_bytes (list_inserts a (usize_to_bytes v)) s).
Proof.
  intros Hu Hr Hne HN Ha. destruct es as [|e es]; [done|]. apply Forall_cons in Hr as [[E1 E2] _].
  destruct (oo_vars _ _ _ _ Ho a Ha) as [H1 H2]. pose proof (length_usize_to_bytes v) as Hlen. pose proof (oo_obj _ _ _ _ Ho).
  eapply undoes_covered; [exact Hu|by left|split; lia|]. lia.
Qed.
Lemma undoes_slot es m s j bs :
  undoes es m s → obj_records es → length (bytes s) = N → (length bs ≤ ql_item l)%nat →
  undoes es (list_inserts (slot l j) bs m) (set_bytes (list_inserts (slot l j) bs) s).
Proof.
  intros Hu Hr HN Hb. pose proof (slot_bounds l N (oo_layout _ _ _ _ Ho) j). pose proof (lo_buf _ _ (oo_layout _ _ _ _ Ho)).
  pose proof (oo_buf _ _ _ _ Ho).
  apply undoes_uncovered; [done| |lia]. eapply Forall_impl; [exact Hr|]. intros e [-> ->]. unfold apart in *. lia.
Qed.

Lemma elem_addr n : (n < ql_length l)%nat → ptr_add (Z.of_nat (ql_buf l)) (Z.of_nat n) (Z.of_nat (ql_item l)) = Z.of_nat (slot l n).
Proof.
  intros Hn. pose proof (oo_layout _ _ _ _ Ho) as Hl. pose proof (lo_N _ _ Hl). pose proof (lo_buf _ _ Hl).
  unfold ptr_add, umul, slot. rewrite Nat.mod_small by done. unfold wrap. rewrite Z.mod_small by nia. rewrite uadd_small; nia.
Qed.
End logged_object.

(** *** Sequences of operations *)

Fixpoint run_ops {O R} (f : O → prog pmem R) (os : list O) : prog pmem (list R) :=
  match os with
  | [] => Ret []
  | o :: os => let* r := f o in let* rs := run_ops f os in Ret (r :: rs)
  end.
(** The same on an abstract state. *)
Fixpoint spec_ops {O R A} (spec : O → A → R * A) (os : list O) (a : A) : list R * A :=
  match os with
  | [] => ([], a)
  | o :: os => let '(r, a) := spec o a in let '(rs, a) := spec_ops spec os a in (r :: rs, a)
  end.
Fixpoint allowed_ops {O R A} (spec : O → A → R * A) (allowed : O → A → Prop) (os : list O) (a : A) : Prop :=
  match os with
  | [] => True
  | o :: os => allowed o a ∧ allowed_ops spec allowed os (spec o a).2
  end.

Lemma runs_ops `{Arch, Board} {O R A} (f : O → prog pmem R) (spec : O → A → R * A) (allowed : O → A → Prop)
    (I : pmem → Prop) (T : A → pmem → Prop) (cost : Z) :
  0 ≤ cost → (∀ a s, T a s → I s) →
  (∀ o a s, T a s → allowed o a → tail (journal s) + cost ≤ JOURNAL_SIZE →
     runs I (f o) s (λ r s', r = (spec o a).1 ∧ T (spec o a).2 s' ∧ tail (journal s') ≤ tail (journal s) + cost)) →
  ∀ os a s, T a s → allowed_ops spec allowed os a → tail (journal s) + Z.of_nat (length os) * cost ≤ JOURNAL_SIZE →
    runs I (run_ops f os) s (λ rs s', rs = (spec_ops spec os a).1 ∧ T (spec_ops spec os a).2 s').
Proof.
  intros Hcost HI Hstep os. induction os as [|o os IH]; intros a s HT Hall Hroom; [apply runs_ret; [by eapply HI|done]|].
  destruct Hall as [Ho Hall]. cbn [length] in Hroom. cbn [run_ops spec_ops].
  eapply runs_bind; [apply (Hstep o a s HT Ho); nia|]. intros r s1 (-> & HT1 & Ht1).
  eapply runs_bind; [apply (IH _ s1 HT1 Hall); nia|]. intros rs s2 (-> & HT2).
  destruct (spec o a) as [r a1]. cbn in *. destruct (spec_ops spec os a1) as [rs a2]. apply runs_ret; [by eapply HI|done].
Qed.

(** The numbers of the slots to which the operations store. *)
Fixpoint stored_ops {O R A} (spec : O → A → R * A) (stores : O → A → list nat) (os : list O) (a : A) : list nat :=
  match os with
  | [] => []
  | o :: os => stores o a ++ stored_ops spec stores os (spec o a).2
  end.
Lemma allowed_stored {O R A} (spec : O → A → R * A) allowed stores (Q : nat → Prop) os a :
  allowed_ops spec allowed os a → (∀ i, i ∈ stored_ops spec stores os a → Q i) →
  allowed_ops spec (λ o a, allowed o a ∧ ∀ i, i ∈ stores o a → Q i) os a.
Proof.
  revert a; induction os as [|o os IH]; intros a; [done|]. intros [Ho Hos] Hst. cbn in Hst. split.
  - split; [done|]. intros i Hi. apply Hst, elem_of_app. by left.
  - apply IH; [done|]. intros i Hi. apply Hst, elem_of_app. by right.
Qed.

(** As many elements, and the same ones at the places in [P]. *)
Definition kept (P : nat → Prop) (xs ys : list (list Z)) : Prop := length ys = length xs ∧ ∀ i, P i → ys !! i = xs !! i.
Lemma kept_refl P xs : kept P xs xs.
Proof. done. Qed.
Lemma kept_through P xs ys zs : kept P xs ys → kept P ys zs → kept P xs zs.
Proof. intros [E1 H1] [E2 H2]. split; [congruence|]. intros i Hi. by rewrite H2, H1. Qed.
Lemma kept_insert (P : nat → Prop) xs k x : ¬ P k → kept P xs (<[k := x]> xs).
Proof. intros Hk. split; [apply length_insert|]. intros i Hi. apply list_lookup_insert_ne. by intros ->. Qed.
(** Nothing has been stored over: they are all the same. *)
Lemma kept_all P xs ys : (∀ i, (i < length xs)%nat → P i) → kept P xs ys → ys = xs.
Proof.
  intros HP [Hl Hk]. apply list_eq. intros i. destruct (decide (i < length xs)%nat) as [Hi|Hi]; [by apply Hk, HP|].
  by rewrite !lookup_ge_None_2 by lia.
Qed.

(** A store to a slot in which only element [k] may be. *)
Lemma slots_over `{Arch} l N m r xs j k bs :
  layout_ok l N → length m = N → slots l m r xs → (length bs ≤ ql_item l)%nat →
  (∀ i, (i < length xs)%nat → i ≠ k → ((r + i) mod ql_length l ≠ j mod ql_length l)%nat) →
  ∃ x, slots l (list_inserts (slot l j) bs m) r (<[k := x]> xs).
Proof.
  intros Hl HN Hs Hb Hf. exists (slice (slot l (r + k)) (ql_item l) (list_inserts (slot l j) bs m)).
  pose proof (lo_buf _ _ Hl). intros i y Hy. apply list_lookup_insert_Some in Hy as [(<- & <- & Hi)|[Hne Hy]].
  - split; [|done]. pose proof (slot_bounds l N Hl (r + k)). apply length_slice. rewrite length_inserts. lia.
  - destruct (Hs i y Hy) as [Hx1 Hx2]. split; [done|]. pose proof (slot_bounds l N Hl (r + i)). pose proof (slot_bounds l N Hl j).
    rewrite slice_inserts_apart; [done| |lia|lia]. apply slots_apart; [|done]. apply Hf; [by eapply lookup_lt_Some|done].
Qed.

(** ** Vectors *)

Inductive vec_op := VPush (x : list Z) | VPop | VClear.
Definition vec_run `{Arch, Board} (v : PVec) (o : vec_op) : prog pmem (option (list Z)) :=
  match o with
  | VPush x => vec_push v x;;; Ret None
  | VPop => vec_pop v
  | VClear => vec_clear v;;; Ret None
  end.
Definition vec_spec (o : vec_op) (xs : list (list Z)) : option (list Z) * list (list Z) :=
  match o with
  | VPush x => (None, xs ++ [x])
  | VPop => (last xs, removelast xs)
  | VClear => (None, [])
  end.
(** There is room for what is pushed. *)
Definition vec_allowed (l : qlayout) (o : vec_op) (xs : list (list Z)) : Prop :=
  match o with VPush x => (length xs < ql_length l)%nat ∧ length x = ql_item l | _ => True end.
(** Where an element is stored. *)
Definition vec_stores (o : vec_op) (xs : list (list Z)) : list nat := match o with VPush _ => [length xs] | _ => [] end.

(** The fields of the vector are the variables of the layout: the pointer and the
    capacity, which do not change, and the length. *)
Definition vec_of (l : qlayout) (obj : nat) : PVec := {|
  pv_obj := Z.of_nat obj; pv_ptr := Z.of_nat (ql_read l); pv_cap := Z.of_nat (ql_write l); pv_len := Z.of_nat (ql_count l);
  pv_size := Z.of_nat (ql_item l) |}.

Section vectors.
Context `{Arch, Board} (Hboard : board_ok) (l : qlayout) (N obj : nat).
Context (Ho : obj_ok l N obj (3 * usize_bytes)).
Implicit Types (s : pmem) (es : list entry) (m x : list Z) (xs : list (list Z)).

Record vec_repr m xs : Prop := {
  vr_ptr : word m (ql_read l) (Z.of_nat (ql_buf l));
  vr_cap : word m (ql_write l) (Z.of_nat (ql_length l));
  vr_len : word m (ql_count l) (Z.of_nat (length xs));
  vr_slots : slots l m 0 xs;
  vr_fits : (length xs ≤ ql_length l)%nat;
}.

(** A transaction that began in memory [m0] with the elements [xs0]: rolling back
    restores those of them over which nothing is stored, the ones in [P], and now the
    vector has the elements [xs]. *)
Context (P : nat → Prop).
Definition vec_back m0 xs0 m : Prop := vec_repr m xs0 ∧ same_outside l m0 m.
Definition vec_old m0 xs0 m : Prop := ∃ ys, kept P xs0 ys ∧ vec_back m0 ys m.
Definition vec_crash m0 xs0 s : Prop := ∃ es m, undoes es m s ∧ vec_old m0 xs0 m.
Definition vec_tx m0 xs0 xs s : Prop :=
  ∃ es m, undoes es m s ∧ obj_records obj (3 * usize_bytes) es ∧ vec_old m0 xs0 m ∧ vec_back m0 xs (bytes s).

Lemma vec_len_eq m0 xs0 m : length m0 = N → vec_back m0 xs0 m → length m = N.
Proof. intros HN [_ [E _]]. congruence. Qed.

(** The length is stored. *)
Lemma vec_back_len m0 xs m ys :
  length m0 = N → vec_back m0 xs m → slots l m 0 ys → (length ys ≤ ql_length l)%nat →
  vec_back m0 ys (list_inserts (ql_count l) (usize_to_bytes (Z.of_nat (length ys))) m).
Proof.
  intros HN Hb Hs Hf. pose proof (vec_len_eq _ _ _ HN Hb) as Hm. destruct Hb as [[Hp Hc _ _ _] Hout].
  pose proof (oo_layout _ _ _ _ Ho) as Hl. pose proof (vars_ne l N Hl) as (? & ? & ?).
  destruct (bounds_words l N Hl) as [_ Hcu]. split.
  - split; [words l N Hl|words l N Hl|words l N Hl; by apply Hcu| |done].
    eapply slots_word; try done; [by var|apply length_usize_to_bytes].
  - eapply same_outside_var; [done|exact Hout|done|by var|apply length_usize_to_bytes].
Qed.
(** An element is stored behind the last one. *)
Lemma vec_back_slot m0 xs m n bs :
  length m0 = N → vec_back m0 xs m → (length xs ≤ n < ql_length l)%nat → (length bs ≤ ql_item l)%nat →
  vec_back m0 xs (list_inserts (slot l n) bs m).
Proof.
  intros HN Hb Hn Hbs. pose proof (vec_len_eq _ _ _ HN Hb) as Hm. destruct Hb as [[Hp Hc Hl' Hs Hf] Hout].
  pose proof (oo_layout _ _ _ _ Ho) as Hl. split.
  - split; [words l N Hl..| |done]. apply (slots_free l N Hl); [done..|]. intros i Hi. cbn.
    rewrite !Nat.mod_small; lia.
  - eapply same_outside_slot; [done|exact Hout|done|done].
Qed.
(** The old elements, when something is stored to slot [n]. *)
Lemma vec_old_slot m0 xs0 m n bs :
  length m0 = N → vec_old m0 xs0 m → (n < ql_length l)%nat → ¬ P n → (length bs ≤ ql_item l)%nat →
  vec_old m0 xs0 (list_inserts (slot l n) bs m).
Proof.
  intros HN (ys & Hk & Hb) Hn HP Hbs. pose proof (vec_len_eq _ _ _ HN Hb) as Hm. destruct Hb as [[Hp Hc Hl' Hs Hf] Hout].
  pose proof (oo_layout _ _ _ _ Ho) as Hl.
  destruct (slots_over l N m 0 ys n n bs Hl Hm Hs Hbs) as [x Hx]; [intros i Hi Hne; cbn; rewrite !Nat.mod_small; lia|].
  exists (<[n := x]> ys). split; [by eapply kept_through, kept_insert|]. split.
  - split; [words l N Hl|words l N Hl|rewrite length_insert; words l N Hl|done|by rewrite length_insert].
  - eapply same_outside_slot; [done|exact Hout|done|done].
Qed.

Notation rsz := (Z.of_nat (record_size (3 * usize_bytes))).

(** The record of the vector is logged. *)
Definition vec_logged m0 xs0 s s' : Prop := ∃ es m, undoes es m s' ∧ obj_records obj (3 * usize_bytes) es ∧ es ≠ [] ∧
  vec_old m0 xs0 m ∧ bytes s' = bytes s ∧ tail (journal s') = tail (journal s) + rsz.
Lemma runs_vec_log m0 xs0 xs s :
  length m0 = N → vec_tx m0 xs0 xs s → tail (journal s) + rsz ≤ JOURNAL_SIZE →
  runs (vec_crash m0 xs0) (raw_vec_mut (vec_of l obj)) s (λ _ s', vec_logged m0 xs0 s s').
Proof.
  intros HN (es & m & Hu & Hr & Hm & Hb) Hroom.
  eapply (runs_log Hboard l N obj _ Ho _ es m); [done|done|by eapply (vec_len_eq m0)|done|intros c es' Hc; by exists es', m|].
  intros s' es' Hu' Hr' Hne Hb' Ht. by exists es', m.
Qed.

(** The length is stored behind the record: the end of every operation. *)
Lemma runs_vec_set_len m0 xs0 xs ys s es m n (Q : unit → pmem → Prop) :
  length m0 = N → undoes es m s → obj_records obj (3 * usize_bytes) es → es ≠ [] → vec_old m0 xs0 m → vec_back m0 xs (bytes s) →
  slots l (bytes s) 0 ys → (length ys ≤ ql_length l)%nat → n = Z.of_nat (length ys) →
  (∀ s', vec_tx m0 xs0 ys s' → s' = set_bytes (list_inserts (ql_count l) (usize_to_bytes n)) s → Q tt s') →
  runs (vec_crash m0 xs0) (write_usize (pv_len (vec_of l obj)) n) s Q.
Proof.
  intros HN Hu Hr Hne Hm Hb Hs Hf -> HQ. pose proof (oo_layout _ _ _ _ Ho) as Hl.
  assert (Hbs : length (bytes s) = N) by by eapply (vec_len_eq m0).
  destruct (lo_vars _ _ Hl (ql_count l)) as [Hal _]; [by var|].
  assert (Hu' : undoes es m (set_bytes (list_inserts (ql_count l) (usize_to_bytes (Z.of_nat (length ys)))) s))
    by (eapply undoes_var; [done..|by var]).
  apply runs_write_usize; [lia|by exists es, m|by exists es, m|]. apply HQ; [|done].
  exists es, m. split_and!; [done..|]. by eapply vec_back_len.
Qed.

Lemma runs_vec_push m0 xs0 xs x s :
  length m0 = N → vec_tx m0 xs0 xs s → (length xs < ql_length l)%nat → ¬ P (length xs) → length x = ql_item l →
  tail (journal s) + rsz ≤ JOURNAL_SIZE →
  runs (vec_crash m0 xs0) (vec_push (vec_of l obj) x) s
    (λ _ s', vec_tx m0 xs0 (xs ++ [x]) s' ∧ tail (journal s') = tail (journal s) + rsz).
Proof.
  intros HN Htx Hn HP Hx Hroom. unfold vec_push. pose proof (oo_layout _ _ _ _ Ho) as Hl.
  eapply runs_bind; [by eapply runs_vec_log|].
  intros [] s1 (es & m & Hu & Hr & Hne & Hm & Eb & Et). destruct Htx as (_ & _ & _ & _ & _ & Hb). rewrite <-Eb in Hb.
  pose proof Hb as [[Hp Hc Hln Hs Hf] Hout]. assert (Hbs : length (bytes s1) = N) by by eapply (vec_len_eq m0).
  assert (Hcr : vec_crash m0 xs0 s1) by by exists es, m.
  do 2 (eapply runs_let_read; [done|done|]). rewrite (proj2 (Z.eqb_neq _ _)) by lia. cbn [when].
  do 2 (eapply runs_let_read; [done|done|]).
  assert (Ea : ptr_add (Z.of_nat (ql_buf l)) (Z.of_nat (length xs)) (pv_size (vec_of l obj)) = Z.of_nat (slot l (length xs))).
  { apply (elem_addr l N obj _ Ho). lia. }
  rewrite Ea. pose proof (slot_bounds l N Hl (length xs)). pose proof (lo_buf _ _ Hl).
  set (s2 := set_bytes (list_inserts (slot l (length xs)) x) s1). set (m2 := list_inserts (slot l (length xs)) x m).
  assert (Hstore : ∀ bs, (length bs ≤ ql_item l)%nat → undoes es (list_inserts (slot l (length xs)) bs m)
      (set_bytes (list_inserts (slot l (length xs)) bs) s1) ∧ vec_old m0 xs0 (list_inserts (slot l (length xs)) bs m)).
  { intros bs Hbs'. split; [by eapply undoes_slot|by apply vec_old_slot]. }
  eapply runs_bind; [apply (runs_write_bytes _ s1 _ x (λ _ s', s' = s2)); [lia| |done]|].
  { intros k Hk. destruct (Hstore (take k x)) as [? ?]; [rewrite length_take; lia|]. by eexists _, _. }
  intros [] ? ->. destruct (Hstore x) as [Hu2 Hm2]; [lia|].
  assert (Hb2 : vec_back m0 xs (bytes s2)) by (apply vec_back_slot; [done|done|lia|lia]).
  eapply runs_let_read; [by eexists _, _|apply Hb2|].
  eapply (runs_vec_set_len m0 xs0 xs (xs ++ [x]) s2 es m2); try done.
  - apply slots_snoc; [apply Hb2|done|]. cbn. rewrite <-Hx. apply slice_inserts. lia.
  - rewrite length_app. cbn. lia.
  - pose proof (lo_N _ _ Hl). pose proof (lo_item _ _ Hl). rewrite length_app. cbn [length]. rewrite uadd_small by nia. lia.
  - intros s' Htx' ->. by split.
Qed.

Lemma slots_take m r xs ys : slots l m r (xs ++ ys) → slots l m r xs.
Proof. intros Hs i x Hx. apply Hs. by apply lookup_app_l_Some. Qed.

Lemma runs_vec_pop m0 xs0 xs s :
  length m0 = N → vec_tx m0 xs0 xs s → tail (journal s) + rsz ≤ JOURNAL_SIZE →
  runs (vec_crash m0 xs0) (vec_pop (vec_of l obj)) s
    (λ r s', r = last xs ∧ vec_tx m0 xs0 (removelast xs) s' ∧ tail (journal s') ≤ tail (journal s) + rsz).
Proof.
  intros HN Htx Hroom. pose proof Htx as (es0 & m1 & Hu0 & _ & Hm0 & Hb). unfold vec_pop. pose proof (oo_layout _ _ _ _ Ho) as Hl.
  eapply runs_let_read; [by exists es0, m1|apply Hb|].
  destruct xs as [|x xs _] using rev_ind; [cbn; apply runs_ret; [by exists es0, m1|]; split_and!; [done|done|lia]|].
  rewrite last_snoc, removelast_last, (proj2 (Z.eqb_neq _ _)) by (rewrite length_app; cbn; lia).
  eapply runs_bind; [by eapply runs_vec_log|].
  intros [] s1 (es & m & Hu & Hr & Hne & Hm & Eb & Et). rewrite <-Eb in Hb. clear Eb.
  pose proof Hb as [[Hp Hc Hln Hs Hf] Hout]. assert (Hbs : length (bytes s1) = N) by by eapply (vec_len_eq m0).
  rewrite length_app in Hf. cbn [length] in Hf.
  eapply runs_let_read; [by exists es, m|exact Hln|].
  eapply runs_bind; [eapply (runs_vec_set_len m0 xs0 (xs ++ [x]) xs s1 es m _
    (λ _ s', vec_tx m0 xs0 xs s' ∧ journal s' = journal s1 ∧ slice (slot l (length xs)) (ql_item l) (bytes s') = x)); try done|].
  { by eapply slots_take. }
  { lia. }
  { rewrite length_app. pose proof (lo_N _ _ Hl). pose proof (lo_item _ _ Hl). pose proof (lo_buf _ _ Hl). cbn [length]. rewrite usub_small; nia. }
  { intros s' Htx' ->. split; [done|]. split; [done|]. cbn. destruct (lo_vars _ _ Hl (ql_count l)) as [Hal Hap]; [by var|].
    pose proof (slot_bounds l N Hl (length xs)). pose proof (lo_buf _ _ Hl). destruct (Hs (length xs) x) as [Hx Hsl]; [by apply list_lookup_middle|].
    rewrite <-Hsl. apply slice_inserts_apart; rewrite ?length_usize_to_bytes; unfold apart in *; cbn; lia. }
  intros [] s2 (Htx2 & Ej & Hx2). pose proof Htx2 as (es2 & m2 & Hu2 & _ & Hm2 & Hb2).
  eapply runs_let_read; [by exists es2, m2|apply Hb2|]. eapply runs_let_read; [by exists es2, m2|apply Hb2|].
  cbn [vec_of pv_size]. rewrite Nat2Z.id, (elem_addr l N obj _ Ho) by lia. pose proof (slot_bounds l N Hl (length xs)). pose proof (lo_buf _ _ Hl).
  assert (length (bytes s2) = N) by by eapply (vec_len_eq m0).
  eapply runs_bind; [apply (runs_read_bytes _ s2 _ _ (λ y s', y = x ∧ s' = s2)); [lia|by exists es2, m2|done]|].
  intros ? ? [-> ->]. apply runs_ret; [by exists es2, m2|]. split_and!; [done|done|]. rewrite Ej. lia.
Qed.

Lemma runs_vec_clear m0 xs0 xs s :
  length m0 = N → vec_tx m0 xs0 xs s → tail (journal s) + rsz ≤ JOURNAL_SIZE →
  runs (vec_crash m0 xs0) (vec_clear (vec_of l obj)) s
    (λ _ s', vec_tx m0 xs0 [] s' ∧ tail (journal s') = tail (journal s) + rsz ∧
       bytes s' = list_inserts (ql_count l) (usize_to_bytes 0) (bytes s)).
Proof.
  intros HN Htx Hroom. pose proof Htx as (_ & _ & _ & _ & _ & Hb). unfold vec_clear.
  eapply runs_bind; [by eapply runs_vec_log|]. intros [] s1 (es & m & Hu & Hr & Hne & Hm & Eb & Et). rewrite <-Eb in Hb.
  eapply (runs_vec_set_len m0 xs0 xs [] s1 es m); try done; [cbn; lia|]. intros s' Htx' ->. cbn. by rewrite Eb.
Qed.

Lemma vec_tx_crash m0 xs0 xs s : vec_tx m0 xs0 xs s → vec_crash m0 xs0 s.
Proof. intros (es & m & ? & _ & ? & _). by exists es, m. Qed.

Lemma runs_vec_ops m0 xs0 os xs s :
  length m0 = N → vec_tx m0 xs0 xs s → allowed_ops vec_spec (λ o xs, vec_allowed l o xs ∧ ∀ i, i ∈ vec_stores o xs → ¬ P i) os xs →
  tail (journal s) + Z.of_nat (length os) * rsz ≤ JOURNAL_SIZE →
  runs (vec_crash m0 xs0) (run_ops (vec_run (vec_of l obj)) os) s
    (λ rs s', rs = (spec_ops vec_spec os xs).1 ∧ vec_tx m0 xs0 (spec_ops vec_spec os xs).2 s').
Proof.
  intros HN. apply runs_ops; [lia|apply vec_tx_crash|]. clear s xs os. intros [x| |] xs s Htx Hall Hroom.
  - destruct Hall as [[Hn Hx] HP]. eapply runs_bind; [apply (runs_vec_push m0 xs0 xs); [done..| |done|done]; by apply HP, list_elem_of_here|]. intros [] s' [Htx' Ht].
    apply runs_ret; [by eapply vec_tx_crash|]. split_and!; [done|done|lia].
  - by apply runs_vec_pop.
  - eapply runs_bind; [by apply (runs_vec_clear m0 xs0 xs)|]. intros [] s' (Htx' & Ht & _).
    apply runs_ret; [by eapply vec_tx_crash|]. split_and!; [done|done|lia].
Qed.
End vectors.

(** C33: A transaction of operations on a vector: whatever is pushed, popped and cleared,
    the results and the elements are those of a list; and when power fails at any
    point, rolling back gives a vector of the old length, with the old elements but for
    those over which the transaction has pushed others, behind popping them. *)
Theorem pvec_transaction_correct `{Arch, Board} l N obj s xs os :
  board_ok → obj_ok l N obj (3 * usize_bytes) → length (bytes s) = N → undoes [] (bytes s) s → vec_repr l (bytes s) xs →
  allowed_ops vec_spec (vec_allowed l) os xs →
  tail (journal s) + Z.of_nat (length os) * Z.of_nat (record_size (3 * usize_bytes)) ≤ JOURNAL_SIZE →
  let p := run_ops (vec_run (vec_of l obj)) os in
  let '(rs, ys) := spec_ops vec_spec os xs in
  (∃ s', exec p s = Done rs s' ∧ vec_repr l (bytes s') ys ∧ same_outside l (bytes s) (bytes s')) ∧
  ∀ c, c ∈ crash_states p s →
    ∃ d zs, exec journal_recover c = Done tt d ∧ vec_repr l (bytes d) zs ∧
      kept (λ i, i ∉ stored_ops vec_spec vec_stores os xs) xs zs ∧ same_outside l (bytes s) (bytes d).
Proof.
  intros Hboard Ho HN Hu Hr Hall Hroom p. set (P := λ i, i ∉ stored_ops vec_spec vec_stores os xs).
  assert (Hb : vec_back l (bytes s) xs (bytes s)) by (split; [done|apply same_outside_refl]).
  assert (Htx : vec_tx l obj P (bytes s) xs xs s) by (exists [], (bytes s); split_and!; [done|constructor|by exists xs|done]).
  assert (Hall' : allowed_ops vec_spec (λ o xs, vec_allowed l o xs ∧ ∀ i, i ∈ vec_stores o xs → ¬ P i) os xs)
    by (apply allowed_stored; [done|]; unfold P; naive_solver).
  pose proof (runs_vec_ops Hboard l N obj Ho P (bytes s) xs os xs s HN Htx Hall' Hroom) as Hruns.
  destruct (spec_ops vec_spec os xs) as [rs ys]. split.
  - destruct (runs_exec _ _ _ _ Hruns) as (? & s' & Ex & -> & (es & m & _ & _ & _ & Hr' & Hs')). by exists s'.
  - intros c Hc. destruct (runs_always _ _ _ _ Hruns c Hc) as (es & m & Hes & zs & Hk & Hr' & Hs').
    eexists _, zs. split; [exact (exec_journal_recover Hboard es m c Hes)|]. by split_and!.
Qed.

(** C37: A reference to an element: beyond the last one it panics; otherwise the element
    is logged, so that whatever is stored through the reference is rolled back. *)
Theorem pvec_index_mut_correct `{Arch, Board} l N obj s xs i :
  board_ok → obj_ok l N obj (3 * usize_bytes) → length (bytes s) = N → undoes [] (bytes s) s → vec_repr l (bytes s) xs →
  tail (journal s) + Z.of_nat (record_size (ql_item l)) ≤ JOURNAL_SIZE → is_object (Z.of_nat (slot l i)) (Z.of_nat (ql_item l)) →
  let r := exec (vec_index_mut (vec_of l obj) (Z.of_nat i)) s in
  if decide (i < length xs)%nat then
    ∃ s', r = Done (Z.of_nat (slot l i)) s' ∧ bytes s' = bytes s ∧
      ∀ y, length y = ql_item l → let s'' := set_bytes (list_inserts (slot l i) y) s' in
        vec_repr l (bytes s'') (<[i := y]> xs) ∧ ∃ d, exec journal_recover s'' = Done tt d ∧ bytes d = bytes s
  else r = Failed Panic.
Proof.
  intros Hboard Ho HN Hu Hr Hroom His r. pose proof (oo_layout _ _ _ _ Ho) as Hl. pose proof Hr as [Hp Hc Hln Hs Hf].
  subst r. unfold vec_index_mut. rewrite (exec_bind_done _ _ _ _ _ (exec_read_usize _ _ _ Hln)). case_decide as Hi.
  2:{ by rewrite (proj2 (Z.ltb_ge _ _)) by lia. }
  rewrite (proj2 (Z.ltb_lt _ _)) by lia. rewrite (exec_bind_done (assert_ true) _ s tt s) by done.
  rewrite (exec_bind_done _ _ _ _ _ (exec_read_usize _ _ _ Hp)). cbn [vec_of pv_size].
  rewrite (elem_addr l N obj _ Ho) by lia. pose proof (slot_bounds l N Hl i) as Hsb. pose proof (lo_buf _ _ Hl).
  destruct (append_log_of_spec Hboard [] (bytes s) s (slot l i) (ql_item l) Hu His ltac:(lia) Hroom) as (s1 & E1 & Eb & _ & Hu1).
  exists s1. rewrite (exec_bind_done _ _ _ _ _ E1). split; [done|]. split; [done|]. intros y Hy. set (s2 := set_bytes _ s1). split.
  - assert (Hvar : ∀ a v, a ∈ ql_vars l → word (bytes s) a v → word (bytes s2) a v).
    { intros a v Ha Hw. cbn. rewrite Eb. apply (word_slot l N Hl); [done|done|done|lia]. }
    split; [apply Hvar; [by var|done]|apply Hvar; [by var|done]|rewrite length_insert; apply Hvar; [by var|done]| |by rewrite length_insert].
    intros j x Hj. cbn. rewrite Eb. apply list_lookup_insert_Some in Hj as [(<- & <- & _)|[Hne Hj]].
    + split; [done|]. cbn. rewrite <-Hy at 1. apply slice_inserts. lia.
    + destruct (Hs j x Hj) as [Hx Hsl]. split; [done|]. rewrite <-Hsl. apply lookup_lt_Some in Hj. cbn.
      apply slice_inserts_apart; [|pose proof (slot_bounds l N Hl j); lia|lia].
      apply slots_apart; [rewrite !Nat.mod_small; lia|lia].
  - assert (Hu2 : undoes [{| e_addr := slot l i; e_old := slice (slot l i) (ql_item l) (bytes s) |}] (bytes s) s2).
    { eapply undoes_covered; [exact Hu1|by constructor|split; cbn; [lia|rewrite length_slice; lia]|rewrite Eb; lia]. }
    eexists. split; [exact (exec_journal_recover Hboard _ _ _ Hu2)|done].
Qed.

(** ** Iterators over a vector *)

(** Elements taken from the front and, with [true], from the back. *)
Fixpoint iter_run `{Arch, Board} (v : PVec) (backs : list bool) (it : RawValIter) : prog pmem (list (option (list Z)) * RawValIter) :=
  match backs with
  | [] => Ret ([], it)
  | b :: backs =>
      let* r := (if b : bool then iter_next_back v it else iter_next v it) in
      let* rs := iter_run v backs r.2 in
      Ret (r.1 :: rs.1, rs.2)
  end.
Definition deque_spec (b : bool) (xs : list (list Z)) : option (list Z) * list (list Z) :=
  if b then (last xs, removelast xs) else (hd_error xs, tl xs).

Section iterators.
Context `{Arch, Board} (l : qlayout) (N obj : nat) (Ho : obj_ok l N obj (3 * usize_bytes)).
Implicit Types (s : pmem) (xs : list (list Z)).

(** The iterator is over the slots [r, r + length xs), which hold [xs]. *)
Definition iter_over (it : RawValIter) (m : list Z) (r : nat) xs : Prop :=
  length m = N ∧ (r + length xs ≤ ql_length l)%nat ∧
  it_start it = Z.of_nat (ql_buf l + r * ql_item l) ∧ it_end it = Z.of_nat (ql_buf l + (r + length xs) * ql_item l) ∧
  ∀ i x, xs !! i = Some x → slice (ql_buf l + (r + i) * ql_item l) (ql_item l) m = x.

Lemma iter_arith r : (r ≤ ql_length l)%nat → is_usize (Z.of_nat (ql_buf l + r * ql_item l)) ∧ (ql_buf l + r * ql_item l ≤ N)%nat.
Proof.
  intros Hr. pose proof (oo_layout _ _ _ _ Ho) as Hl. pose proof (lo_N _ _ Hl). pose proof (lo_buf _ _ Hl).
  unfold is_usize. nia.
Qed.

Lemma iter_step (b : bool) it s r xs :
  iter_over it (bytes s) r xs →
  ∃ it' r', exec (if b then iter_next_back (vec_of l obj) it else iter_next (vec_of l obj) it) s = Done ((deque_spec b xs).1, it') s ∧
    iter_over it' (bytes s) r' (deque_spec b xs).2.
Proof.
  intros (HN & Hfit & Es & Ee & Hx). pose proof (oo_layout _ _ _ _ Ho) as Hl. pose proof (lo_item _ _ Hl) as Hi. pose proof (lo_N _ _ Hl) as HNb.
  assert (Eq : (it_start it =? it_end it) = bool_decide (xs = [])).
  { rewrite Es, Ee. case_bool_decide as E; [subst; apply Z.eqb_eq; cbn; lia|apply Z.eqb_neq]. destruct xs; [done|cbn; nia]. }
  unfold iter_next_back, iter_next. rewrite Eq. case_bool_decide as E.
  { subst xs. exists it, r. by destruct b. }
  cbn [vec_of pv_size]. rewrite Nat2Z.id.
  destruct (iter_arith (r + length xs)) as [[_ Hu] Hle]; [lia|]. destruct b.
  - destruct xs as [|x xs _] using rev_ind; [done|]. clear E Eq. rewrite length_app in *. cbn [length deque_spec fst snd] in *.
    rewrite last_snoc, removelast_last.
    assert (Em : ((r + (length xs + 1)) * ql_item l = (r + length xs) * ql_item l + ql_item l)%nat) by lia. rewrite Em in *.
    assert (Ea : usub (it_end it) (Z.of_nat (ql_item l)) = Z.of_nat (ql_buf l + (r + length xs) * ql_item l))
      by (rewrite Ee, usub_small; lia).
    rewrite Ea, (exec_bind_done _ _ _ _ _ (exec_read_bytes s (ql_buf l + (r + length xs) * ql_item l) (ql_item l) ltac:(lia))).
    rewrite (Hx (length xs) x) by by apply list_lookup_middle.
    eexists _, r. split; [done|]. split_and!; [done|lia|done|done|].
    intros i y Hy. apply Hx. by apply lookup_app_l_Some.
  - destruct xs as [|x xs]; [done|]. clear E Eq. cbn [length deque_spec fst snd hd_error tl] in *.
    rewrite Es, (exec_bind_done _ _ _ _ _ (exec_read_bytes s (ql_buf l + r * ql_item l) (ql_item l) ltac:(nia))).
    specialize (Hx 0%nat x eq_refl) as Hx0. rewrite Nat.add_0_r in Hx0. rewrite Hx0.
    eexists _, (S r). split; [done|]. split_and!; [done|lia|cbn; rewrite uadd_small; nia|cbn; rewrite Ee; do 2 f_equal; lia|].
    intros i y Hy. specialize (Hx (S i) y Hy). by replace (S r + i)%nat with (r + S i)%nat by lia.
Qed.

Lemma iter_run_spec backs it s r xs :
  iter_over it (bytes s) r xs →
  ∃ it' r', exec (iter_run (vec_of l obj) backs it) s = Done ((spec_ops deque_spec backs xs).1, it') s ∧
    iter_over it' (bytes s) r' (spec_ops deque_spec backs xs).2.
Proof.
  revert it r xs. induction backs as [|b backs IH]; intros it r xs Hit; [by exists it, r|].
  destruct (iter_step b it s r xs Hit) as (it1 & r1 & E1 & H1). destruct (IH it1 r1 _ H1) as (it2 & r2 & E2 & H2).
  exists it2, r2. cbn [iter_run spec_ops]. rewrite (exec_bind_done _ _ _ _ _ E1). cbn [fst snd].
  rewrite (exec_bind_done _ _ _ _ _ E2). cbn [fst snd].
  destruct (deque_spec b xs) as [x ys]. cbn [fst snd] in *. by destruct (spec_ops deque_spec backs ys).
Qed.

Lemma iter_hint it s r xs : iter_over it (bytes s) r xs → iter_size_hint (vec_of l obj) it = Z.of_nat (length xs).
Proof.
  intros (HN & Hfit & Es & Ee & _). pose proof (oo_layout _ _ _ _ Ho) as Hl. pose proof (lo_item _ _ Hl) as Hi.
  destruct (iter_arith (r + length xs)) as [[_ Hu] Hle]; [lia|]. unfold iter_size_hint. cbn [vec_of pv_size].
  rewrite (proj2 (Z.eqb_neq _ _)) by lia. rewrite Es, Ee, usub_small by nia.
  replace (_ - _) with (Z.of_nat (length xs) * Z.of_nat (ql_item l)) by nia. apply Z.div_mul. lia.
Qed.
End iterators.

(** C36: Draining a vector empties it; the iterator that is returned yields what was in
    it, in order from the front and in reverse from the back, each element once, and
    says how many are left. *)
Theorem pvec_drain_correct `{Arch, Board} l N obj s xs backs :
  board_ok → obj_ok l N obj (3 * usize_bytes) → length (bytes s) = N → undoes [] (bytes s) s → vec_repr l (bytes s) xs →
  tail (journal s) + Z.of_nat (record_size (3 * usize_bytes)) ≤ JOURNAL_SIZE →
  ∃ it s', exec (vec_drain (vec_of l obj)) s = Done it s' ∧ vec_repr l (bytes s') [] ∧
    let '(rs, ys) := spec_ops deque_spec backs xs in
    ∃ it', exec (iter_run (vec_of l obj) backs it) s' = Done (rs, it') s' ∧
      iter_size_hint (vec_of l obj) it' = Z.of_nat (length ys).
Proof.
  intros Hboard Ho HN Hu Hr Hroom. pose proof (oo_layout _ _ _ _ Ho) as Hl.
  assert (Hb : vec_back l (bytes s) xs (bytes s)) by (split; [done|apply same_outside_refl]).
  assert (Htx : vec_tx l obj (λ _, True) (bytes s) xs xs s) by (exists [], (bytes s); split_and!; [done|constructor|by exists xs|done]).
  pose proof Hr as [Hp Hc Hln Hs Hf].
  set (it := {| it_start := Z.of_nat (ql_buf l); it_end := ptr_add (Z.of_nat (ql_buf l)) (Z.of_nat (length xs)) (Z.of_nat (ql_item l)) |}).
  assert (Eit : exec (raw_val_iter (vec_of l obj)) s = Done it s).
  { unfold raw_val_iter. rewrite (exec_bind_done _ _ _ _ _ (exec_read_usize _ _ _ Hp)).
    by rewrite (exec_bind_done _ _ _ _ _ (exec_read_usize _ _ _ Hln)). }
  destruct (runs_exec _ _ _ _ (runs_vec_clear Hboard l N obj Ho (λ _, True) (bytes s) xs xs s HN Htx Hroom)) as ([] & s' & Ex & Htx' & _ & Eb).
  exists it, s'. split; [|split].
  - unfold vec_drain. rewrite (exec_bind_done _ _ _ _ _ Eit). apply exec_bind_inv in Ex as ([] & s1 & E1 & E2).
    rewrite (exec_bind_done _ _ _ _ _ E1). by rewrite (exec_bind_done _ _ _ _ _ E2).
  - by destruct Htx' as (_ & _ & _ & _ & _ & ? & _).
  - assert (Hover : iter_over l N it (bytes s') 0 xs).
    { rewrite Eb. split; [by rewrite length_inserts|]. split; [done|]. split; [cbn; lia|]. pose proof (lo_N _ _ Hl). pose proof (lo_buf _ _ Hl).
      split; [cbn; unfold ptr_add, umul, wrap; rewrite Z.mod_small by nia; rewrite uadd_small; nia|].
      assert (Hs' : slots l (list_inserts (ql_count l) (usize_to_bytes 0) (bytes s)) 0 xs)
        by (eapply slots_word; [exact Hl|exact HN|exact Hs|by var|apply length_usize_to_bytes]).
      intros i x Hx. destruct (Hs' i x Hx) as [_ Hsl]. apply lookup_lt_Some in Hx.
      unfold slot in Hsl. by rewrite Nat.mod_small in Hsl by lia. }
    destruct (iter_run_spec l N obj Ho backs it s' 0 xs Hover) as (it' & r' & Ei & Hi').
    destruct (spec_ops deque_spec backs xs) as [rs ys]. exists it'. split; [exact Ei|]. by eapply (iter_hint l N obj Ho).
Qed.

(** ** Queues *)

Inductive pq_op := QPush (x : list Z) | QPop | QPeek.
Definition pq_run `{Arch, Board} (q : PQueue) (o : pq_op) : prog pmem (option (list Z)) :=
  match o with
  | QPush x => pqueue_push_back q x;;; Ret None
  | QPop => pqueue_pop_front q
  | QPeek => pqueue_peek_front q
  end.
(** The elements, and how many have been pushed so far. *)
Definition pq_spec (o : pq_op) (a : list (list Z) * nat) : option (list Z) * (list (list Z) * nat) :=
  match o with
  | QPush x => (None, (a.1 ++ [x], S a.2))
  | QPop => (hd_error a.1, (tl a.1, a.2))
  | QPeek => (hd_error a.1, a)
  end.
(** There is room for what is pushed. *)
Definition pq_allowed (l : qlayout) (o : pq_op) (a : list (list Z) * nat) : Prop :=
  match o with QPush x => (length a.1 < ql_length l)%nat ∧ length x = ql_item l | _ => True end.
(** Where an element is stored, counted from the first one of [n0] at the beginning. *)
Definition pq_stores (l : qlayout) (n0 : nat) (o : pq_op) (a : list (list Z) * nat) : list nat :=
  match o with QPush _ => [((n0 + a.2) mod ql_length l)%nat] | _ => [] end.

Definition pqueue_of (l : qlayout) (obj pa ca : nat) : PQueue := {|
  pq_obj := Z.of_nat obj; pq_ptr := Z.of_nat pa; pq_cap := Z.of_nat ca; pq_head := Z.of_nat (ql_read l);
  pq_tail := Z.of_nat (ql_write l); pq_len := Z.of_nat (ql_count l); pq_size := Z.of_nat (ql_item l) |}.

Section queues.
Context `{Arch, Board} (Hboard : board_ok) (l : qlayout) (N obj pa ca : nat).
Context (Ho : obj_ok l N obj (5 * usize_bytes)) (Hpa : outside l pa usize_bytes) (Hca : outside l ca usize_bytes).
Implicit Types (s : pmem) (es : list entry) (m x : list Z) (xs : list (list Z)).
Notation rsz := (Z.of_nat (record_size (5 * usize_bytes))).

(** The elements [xs] are in the slots from number [r] on. *)
Record pq_at m (r : nat) xs : Prop := {
  pr_ptr : word m pa (Z.of_nat (ql_buf l));
  pr_cap : word m ca (Z.of_nat (ql_length l));
  pr_head : word m (ql_read l) (Z.of_nat r);
  pr_tail : word m (ql_write l) (Z.of_nat ((r + length xs) mod ql_length l));
  pr_len : word m (ql_count l) (Z.of_nat (length xs));
  pr_slots : slots l m r xs;
  pr_order : (r < ql_length l)%nat;
  pr_fits : (length xs ≤ ql_length l)%nat;
}.

Lemma word_outside m a v b bs :
  outside l a usize_bytes → length m = N → word m a v →
  (b ∈ ql_vars l ∧ length bs = usize_bytes) ∨ (∃ j, b = slot l j ∧ (length bs ≤ ql_item l)%nat) →
  word (list_inserts b bs m) a v.
Proof.
  intros [H1 H2] HN Hw Hb. pose proof (oo_layout _ _ _ _ Ho) as Hl. pose proof (lo_buf _ _ Hl). apply word_inserts; [done|..].
  - destruct Hb as [[Hb ->]|(j & -> & Hj)]; [by apply H2|]. pose proof (slot_bounds l N Hl j). unfold apart in *. lia.
  - destruct Hb as [[Hb Hlen]|(j & -> & Hj)]; [destruct (lo_vars _ _ Hl b Hb); lia|]. pose proof (slot_bounds l N Hl j). lia.
Qed.

(** A field is stored behind the record. *)
Lemma runs_field (I : pmem → Prop) es m s a v (Q : unit → pmem → Prop) :
  undoes es m s → obj_records obj (5 * usize_bytes) es → es ≠ [] → length (bytes s) = N → a ∈ ql_vars l →
  (∀ c, undoes es m c → I c) →
  (∀ s', undoes es m s' → s' = set_bytes (list_inserts a (usize_to_bytes v)) s → Q tt s') →
  runs I (write_usize (Z.of_nat a) v) s Q.
Proof.
  intros Hu Hr Hne HN Ha HI HQ. pose proof (oo_layout _ _ _ _ Ho) as Hl. destruct (lo_vars _ _ Hl a Ha) as [Hal _].
  assert (Hu' : undoes es m (set_bytes (list_inserts a (usize_to_bytes v)) s)) by (by eapply undoes_var).
  apply runs_write_usize; [lia|by apply HI|by apply HI|by apply HQ].
Qed.

(** The index [i] is advanced around the end. *)
Lemma runs_index (I : pmem → Prop) es m s a i (Q : unit → pmem → Prop) :
  undoes es m s → obj_records obj (5 * usize_bytes) es → es ≠ [] → length (bytes s) = N → a ∈ ql_vars l →
  word (bytes s) a (Z.of_nat i) → word (bytes s) ca (Z.of_nat (ql_length l)) → (i < ql_length l)%nat →
  (∀ c, undoes es m c → I c) →
  (∀ s', undoes es m s' → bytes s' = list_inserts a (usize_to_bytes (Z.of_nat (S i mod ql_length l))) (bytes s) →
     journal s' = journal s → Q tt s') →
  runs I (advance_index (pqueue_of l obj pa ca) (Z.of_nat a)) s Q.
Proof.
  intros Hu Hr Hne HN Ha Hw Hcap Hi HI HQ. pose proof (oo_layout _ _ _ _ Ho) as Hl.
  pose proof (lo_N _ _ Hl). pose proof (lo_buf _ _ Hl). pose proof (lo_item _ _ Hl).
  destruct (lo_vars _ _ Hl a Ha) as [Hal _].
  eapply runs_let_read; [by apply HI|exact Hw|].
  eapply runs_bind; [eapply (runs_field I es m s a _ (λ _ s', undoes es m s' ∧ s' = set_bytes (list_inserts a (usize_to_bytes (Z.of_nat (S i)))) s)); try done|].
  { intros s' Hu' ->. split; [done|]. do 3 f_equal. rewrite uadd_small by nia. lia. }
  intros [] s1 [Hu1 E1]. assert (HN1 : length (bytes s1) = N) by (rewrite E1; cbn; by rewrite length_inserts).
  eapply (runs_let_read I s1 a (Z.of_nat (S i))); [by apply HI|rewrite E1; cbn; apply word_set; [lia|unfold is_usize; nia]|].
  eapply (runs_let_read I s1 ca (Z.of_nat (ql_length l))); [by apply HI|rewrite E1; cbn; apply word_outside; [done..|]; left; by rewrite length_usize_to_bytes|].
  rewrite (mod_wrap _ i Hi) in HQ. case_decide as E.
  - rewrite (proj2 (Z.eqb_eq _ _)) by lia. eapply runs_field; [done..|]. intros s' Hu' ->. apply HQ; [done| |by rewrite E1].
    rewrite E1. cbn. apply list_eq. intros j. rewrite !lookup_inserts_full;
      rewrite ?length_inserts, !length_usize_to_bytes; try lia. repeat case_decide; done || lia.
  - rewrite (proj2 (Z.eqb_neq _ _)) by lia. apply runs_ret; [by apply HI|]. apply HQ; [done|by rewrite E1|by rewrite E1].
Qed.

(** A transaction that began with [xs0] from slot [r0] on, of which it stores over none
    in [P]: it has pushed [np] elements and now has [xs]. *)
Context (P : nat → Prop).
Definition pq_back m0 r xs m : Prop := pq_at m r xs ∧ same_outside l m0 m.
Definition pq_old m0 r0 xs0 m : Prop := ∃ ys, kept P xs0 ys ∧ pq_back m0 r0 ys m.
Definition pq_crash m0 r0 xs0 s : Prop := ∃ es m, undoes es m s ∧ pq_old m0 r0 xs0 m.
Definition pq_tx m0 r0 xs0 (a : list (list Z) * nat) s : Prop :=
  ∃ es m popped, undoes es m s ∧ obj_records obj (5 * usize_bytes) es ∧ pq_old m0 r0 xs0 m ∧
    pq_back m0 ((r0 + popped) mod ql_length l) a.1 (bytes s) ∧ (popped + length a.1 = length xs0 + a.2)%nat.

Lemma pq_len_eq m0 r xs m : length m0 = N → pq_back m0 r xs m → length m = N.
Proof. intros HN [_ [E _]]. congruence. Qed.
Lemma pq_tx_crash m0 r0 xs0 a s : pq_tx m0 r0 xs0 a s → pq_crash m0 r0 xs0 s.
Proof. intros (es & m & ? & ? & _ & ? & _). by exists es, m. Qed.

(** An element is stored in a free slot. *)
Lemma pq_back_slot m0 r xs m j bs :
  length m0 = N → pq_back m0 r xs m → (length bs ≤ ql_item l)%nat →
  (∀ i, (i < length xs)%nat → ((r + i) mod ql_length l ≠ j mod ql_length l)%nat) →
  pq_back m0 r xs (list_inserts (slot l j) bs m).
Proof.
  intros HN Hb Hbs Hf. pose proof (pq_len_eq _ _ _ _ HN Hb) as Hm. destruct Hb as [[Hp Hc Hh Ht Hn Hs Hr Hx] Hout].
  pose proof (oo_layout _ _ _ _ Ho) as Hl. split; [|by eapply same_outside_slot].
  split; [apply word_outside; [done..|right; by eexists]|apply word_outside; [done..|right; by eexists]|words l N Hl..| |done|done].
  by apply (slots_free l N Hl).
Qed.
(** The old elements, when something is stored to the slot of number [k] of them. *)
Lemma pq_old_slot m0 r0 xs0 m j k bs :
  length m0 = N → pq_old m0 r0 xs0 m → (k < ql_length l)%nat → ¬ P k → (length bs ≤ ql_item l)%nat →
  (j mod ql_length l = (r0 + k) mod ql_length l)%nat → pq_old m0 r0 xs0 (list_inserts (slot l j) bs m).
Proof.
  intros HN (ys & Hk & Hb) Hkl HP Hbs Ej. pose proof (pq_len_eq _ _ _ _ HN Hb) as Hm. destruct Hb as [[Hp Hc Hh Ht Hn Hs Hr Hx] Hout].
  pose proof (oo_layout _ _ _ _ Ho) as Hl.
  destruct (slots_over l N m r0 ys j k bs Hl Hm Hs Hbs) as [x Hsl].
  { intros i Hi Hne. rewrite Ej. destruct (decide (i < k)%nat); [apply mod_ne; lia|apply not_eq_sym, mod_ne; lia]. }
  exists (<[k := x]> ys). split; [by eapply kept_through, kept_insert|]. split; [|by eapply same_outside_slot].
  split; rewrite ?length_insert; [apply word_outside; [done..|right; by eexists]|apply word_outside; [done..|right; by eexists]|words l N Hl..|done|done|done].
Qed.

(** The record of the queue is logged. *)
Definition pq_logged m0 r0 xs0 s s' : Prop := ∃ es m, undoes es m s' ∧ obj_records obj (5 * usize_bytes) es ∧ es ≠ [] ∧
  pq_old m0 r0 xs0 m ∧ bytes s' = bytes s ∧ tail (journal s') = tail (journal s) + rsz.
Lemma runs_pq_log m0 r0 xs0 a s :
  length m0 = N → pq_tx m0 r0 xs0 a s → tail (journal s) + rsz ≤ JOURNAL_SIZE →
  runs (pq_crash m0 r0 xs0) (raw_mut_pqueue (pqueue_of l obj pa ca)) s (λ _ s', pq_logged m0 r0 xs0 s s').
Proof.
  intros HN (es & m & popped & Hu & Hr & Hm & Hb & _) Hroom.
  eapply (runs_log Hboard l N obj _ Ho _ es m); [done|done|by eapply (pq_len_eq m0)|done|intros c es' Hc; by exists es', m|].
  intros s' es' Hu' Hr' Hne Hb' Ht. by exists es', m.
Qed.


Lemma runs_pqueue_push_back m0 r0 xs0 xs np x s :
  length m0 = N → pq_tx m0 r0 xs0 (xs, np) s → (length xs < ql_length l)%nat → ¬ P ((length xs0 + np) mod ql_length l)%nat →
  length x = ql_item l → tail (journal s) + rsz ≤ JOURNAL_SIZE →
  runs (pq_crash m0 r0 xs0) (pqueue_push_back (pqueue_of l obj pa ca) x) s
    (λ _ s', pq_tx m0 r0 xs0 (xs ++ [x], S np) s' ∧ tail (journal s') = tail (journal s) + rsz).
Proof.
  intros HN Htx Hn HP Hx Hroom. unfold pqueue_push_back. pose proof (oo_layout _ _ _ _ Ho) as Hl.
  eapply runs_bind; [by eapply runs_pq_log|].
  intros [] s1 (es & m & Hu & Hr & Hne & Hm & Eb & Et). destruct Htx as (_ & _ & popped & _ & _ & _ & Hb & Hcnt). cbn [fst snd] in Hb, Hcnt.
  rewrite <-Eb in Hb. set (r := ((r0 + popped) mod ql_length l)%nat) in *.
  pose proof Hb as [[Hp Hc Hh Htl Hln Hs Hro Hf] Hout]. assert (Hbs : length (bytes s1) = N) by by eapply (pq_len_eq m0).
  assert (HI : ∀ c es', undoes es' m c → pq_crash m0 r0 xs0 c) by (intros c es' Hc'; by exists es', m).
  do 2 (eapply runs_let_read; [by eapply HI|done|]). rewrite (proj2 (Z.ltb_lt _ _)) by lia. cbn [assert_ bind].
  eapply runs_let_read; [by eapply HI|exact Hp|]. eapply runs_let_read; [by eapply HI|exact Htl|].
  pose proof (Nat.mod_upper_bound (r + length xs) (ql_length l) ltac:(lia)) as Hmod.
  cbn [pqueue_of pq_size]. rewrite (elem_addr l N obj _ Ho) by done. rewrite slot_mod. set (j := (r + length xs)%nat) in *.
  pose proof (slot_bounds l N Hl j). pose proof (lo_buf _ _ Hl).
  assert (Ejk : (j mod ql_length l = (r0 + (length xs0 + np) mod ql_length l) mod ql_length l)%nat).
  { unfold j, r. rewrite Nat.Div0.add_mod_idemp_l, Nat.Div0.add_mod_idemp_r. f_equal. lia. }
  assert (Hj : ∀ i, (i < length xs)%nat → ((r + i) mod ql_length l ≠ j mod ql_length l)%nat) by (intros i Hi; apply mod_ne; lia).
  set (s2 := set_bytes (list_inserts (slot l j) x) s1). set (m2 := list_inserts (slot l j) x m).
  assert (Hstore : ∀ bs, (length bs ≤ ql_item l)%nat → undoes es (list_inserts (slot l j) bs m)
      (set_bytes (list_inserts (slot l j) bs) s1) ∧ pq_old m0 r0 xs0 (list_inserts (slot l j) bs m)).
  { intros bs Hbs'. split; [by eapply undoes_slot|]. eapply pq_old_slot; [done|done| |exact HP|done|exact Ejk]. apply Nat.mod_upper_bound. lia. }
  eapply runs_bind; [apply (runs_write_bytes _ s1 _ x (λ _ s', s' = s2)); [lia| |done]|].
  { intros k Hk. destruct (Hstore (take k x)) as [? ?]; [rewrite length_take; lia|]. by eexists _, _. }
  intros [] ? ->. destruct (Hstore x) as [Hu2 Hm2]; [lia|]. fold m2 in Hu2, Hm2.
  assert (Hb2 : pq_back m0 r xs (bytes s2)) by (apply pq_back_slot; [done|done|lia|done]).
  assert (Hbs2 : length (bytes s2) = N) by by eapply (pq_len_eq m0).
  assert (HI2 : ∀ c, undoes es m2 c → pq_crash m0 r0 xs0 c) by (intros c Hc'; by exists es, m2).
  eapply runs_bind; [apply (runs_index _ es m2 s2 (ql_write l) (j mod ql_length l)
    (λ _ s', undoes es m2 s' ∧ bytes s' = list_inserts (ql_write l) (usize_to_bytes (Z.of_nat (S j mod ql_length l))) (bytes s2) ∧ journal s' = journal s2));
    [done|done|done|done|by var|apply Hb2|apply Hb2|done|done|]|].
  { intros s' Hs' Eb' Ej. split; [done|]. split; [|done]. by rewrite Eb', mod_succ. }
  intros [] s3 (Hu3 & Eb3 & Ej3). pose proof Hb2 as [[Hp2 Hc2 Hh2 Htl2 Hln2 Hs2 _ _] Hout2].
  destruct (bounds_words l N Hl) as [_ Hcu]. pose proof (lo_N _ _ Hl). pose proof (lo_item _ _ Hl). pose proof (lo_length _ _ Hl).
  pose proof (vars_ne l N Hl) as (Hrw & Hrc & Hwc).
  eapply (runs_let_read _ s3 (ql_count l) (Z.of_nat (length xs))); [by apply HI2|rewrite Eb3; words l N Hl|].
  eapply (runs_field _ es m2 s3); [done|done|done|by rewrite Eb3, length_inserts|by var|done|].
  intros s4 Hu4 ->. split; [|cbn; by rewrite Ej3].
  exists es, m2, popped. split_and!; [done..| |cbn; rewrite length_app; cbn; lia]. cbn [fst snd]. fold r.
  assert (HSj : is_usize (Z.of_nat (S j mod ql_length l))) by (apply Hcu, Nat.lt_le_incl, Nat.mod_upper_bound; lia).
  assert (Ev : uadd (Z.of_nat (length xs)) 1 = Z.of_nat (length (xs ++ [x]))).
  { rewrite length_app. cbn [length]. rewrite uadd_small by nia. lia. }
  assert (Hlx : (length (xs ++ [x]) ≤ ql_length l)%nat) by (rewrite length_app; cbn; lia).
  rewrite Ev. cbn. rewrite Eb3. split.
  - split; [| | | | | |done|done].
    + do 2 (apply word_outside; [done|by rewrite ?length_inserts| |left; split; [by var|apply length_usize_to_bytes]]). done.
    + do 2 (apply word_outside; [done|by rewrite ?length_inserts| |left; split; [by var|apply length_usize_to_bytes]]). done.
    + words l N Hl.
    + rewrite length_app, Nat.add_1_r, <-plus_n_Sm. fold j. words l N Hl.
    + words l N Hl. by apply Hcu.
    + do 2 (eapply slots_word; [done|by rewrite ?length_inserts| |by var|apply length_usize_to_bytes]).
      apply slots_snoc; [done|done|]. fold j. cbn. rewrite <-Hx. apply slice_inserts. lia.
  - do 2 (eapply same_outside_var; [done| |by rewrite ?length_inserts|by var|apply length_usize_to_bytes]). done.
Qed.

Lemma runs_pqueue_pop_front m0 r0 xs0 xs np s :
  length m0 = N → pq_tx m0 r0 xs0 (xs, np) s → tail (journal s) + rsz ≤ JOURNAL_SIZE →
  runs (pq_crash m0 r0 xs0) (pqueue_pop_front (pqueue_of l obj pa ca)) s
    (λ y s', y = hd_error xs ∧ pq_tx m0 r0 xs0 (tl xs, np) s' ∧ tail (journal s') ≤ tail (journal s) + rsz).
Proof.
  intros HN Htx Hroom. unfold pqueue_pop_front. pose proof (oo_layout _ _ _ _ Ho) as Hl.
  pose proof (pq_tx_crash _ _ _ _ _ Htx) as Hcr. pose proof Htx as (_ & _ & popped & _ & _ & _ & Hb & Hcnt). cbn [fst snd] in Hb, Hcnt.
  set (r := ((r0 + popped) mod ql_length l)%nat) in *.
  eapply runs_let_read; [done|apply Hb|].
  destruct xs as [|x xs]; [cbn; apply runs_ret; [done|]; split_and!; [done|done|lia]|].
  rewrite (proj2 (Z.eqb_neq _ _)) by (cbn; lia). cbn [hd_error tl length] in *.
  eapply runs_bind; [by eapply runs_pq_log|].
  intros [] s1 (es & m & Hu & Hr & Hne & Hm & Eb & Et). rewrite <-Eb in Hb.
  pose proof Hb as [[Hp Hc Hh Htl Hln Hs Hro Hf] Hout]. assert (Hbs : length (bytes s1) = N) by by eapply (pq_len_eq m0).
  assert (HI : ∀ c, undoes es m c → pq_crash m0 r0 xs0 c) by (intros c Hc'; by exists es, m).
  cbn [length] in *. eapply runs_let_read; [by apply HI|exact Hp|]. eapply runs_let_read; [by apply HI|exact Hh|].
  cbn [pqueue_of pq_size]. rewrite Nat2Z.id, (elem_addr l N obj _ Ho) by done.
  pose proof (slot_bounds l N Hl r). pose proof (lo_buf _ _ Hl). pose proof (lo_N _ _ Hl). pose proof (lo_item _ _ Hl).
  destruct (Hs 0%nat x eq_refl) as [Hx Hslot]. rewrite Nat.add_0_r in Hslot.
  eapply runs_bind; [apply (runs_read_bytes _ s1 _ (ql_item l) (λ y s', y = x ∧ s' = s1)); [lia|by apply HI|done]|]. intros ? ? [-> ->].
  eapply runs_bind; [apply (runs_index _ es m s1 (ql_read l) r
    (λ _ s', undoes es m s' ∧ bytes s' = list_inserts (ql_read l) (usize_to_bytes (Z.of_nat (S r mod ql_length l))) (bytes s1) ∧ journal s' = journal s1));
    [done|done|done|done|by var|done|done|done|done|by auto]|].
  intros [] s2 (Hu2 & Eb2 & Ej2). destruct (bounds_words l N Hl) as [_ Hcu]. pose proof (lo_length _ _ Hl).
  pose proof (vars_ne l N Hl) as (Hrw & Hrc & Hwc).
  eapply (runs_let_read _ s2 (ql_count l) (Z.of_nat (S (length xs)))); [by apply HI|rewrite Eb2; words l N Hl|].
  eapply runs_bind; [eapply (runs_field _ es m s2 _ _ (λ _ s', undoes es m s' ∧
    s' = set_bytes (list_inserts (ql_count l) (usize_to_bytes (Z.of_nat (length xs)))) s2)); [done|done|done|by rewrite Eb2, length_inserts|by var|done|]|].
  { intros s' Hs' ->. split; [done|]. do 3 f_equal. rewrite usub_small by nia. lia. }
  intros [] s3 [Hu3 ->]. apply runs_ret; [by apply HI|]. split; [done|]. split; [|rewrite <-Et, <-Ej2; apply Z.le_refl].
  exists es, m, (S popped). split_and!; [done..| |cbn; lia]. cbn [fst snd].
  assert (Er : ((r0 + S popped) mod ql_length l = S r mod ql_length l)%nat).
  { unfold r. rewrite mod_succ. f_equal. lia. }
  assert (HSr : is_usize (Z.of_nat (S r mod ql_length l))) by (apply Hcu, Nat.lt_le_incl, Nat.mod_upper_bound; lia).
  rewrite Er. cbn. rewrite Eb2. split.
  - split.
    + do 2 (apply word_outside; [done|by rewrite ?length_inserts| |left; split; [by var|apply length_usize_to_bytes]]). done.
    + do 2 (apply word_outside; [done|by rewrite ?length_inserts| |left; split; [by var|apply length_usize_to_bytes]]). done.
    + words l N Hl.
    + rewrite mod_shift. words l N Hl.
    + words l N Hl. apply Hcu. lia.
    + apply slots_mod. do 2 (eapply slots_word; [done|by rewrite ?length_inserts| |by var|apply length_usize_to_bytes]).
      intros i y Hy. specialize (Hs (S i) y Hy). by replace (S r + i)%nat with (r + S i)%nat by lia.
    + apply Nat.mod_upper_bound. lia.
    + lia.
  - do 2 (eapply same_outside_var; [done| |by rewrite ?length_inserts|by var|apply length_usize_to_bytes]). done.
Qed.

Lemma runs_pqueue_peek_front m0 r0 xs0 xs np s :
  length m0 = N → pq_tx m0 r0 xs0 (xs, np) s →
  runs (pq_crash m0 r0 xs0) (pqueue_peek_front (pqueue_of l obj pa ca)) s (λ y s', y = hd_error xs ∧ s' = s).
Proof.
  intros HN Htx. unfold pqueue_peek_front. pose proof (oo_layout _ _ _ _ Ho) as Hl.
  pose proof (pq_tx_crash _ _ _ _ _ Htx) as Hcr. pose proof Htx as (_ & _ & popped & _ & _ & _ & Hb & _). cbn [fst snd] in Hb.
  eapply runs_let_read; [done|apply Hb|].
  destruct xs as [|x xs]; [cbn; by apply runs_ret|]. rewrite (proj2 (Z.eqb_neq _ _)) by (cbn; lia).
  pose proof Hb as [[Hp Hc Hh Htl Hln Hs Hro Hf] Hout]. assert (Hbs : length (bytes s) = N) by by eapply (pq_len_eq m0).
  eapply runs_let_read; [done|exact Hp|]. eapply runs_let_read; [done|exact Hh|].
  cbn [pqueue_of pq_size]. rewrite Nat2Z.id, (elem_addr l N obj _ Ho) by done.
  set (r := ((r0 + popped) mod ql_length l)%nat) in *. pose proof (slot_bounds l N Hl r). pose proof (lo_buf _ _ Hl).
  destruct (Hs 0%nat x eq_refl) as [Hx Hslot]. rewrite Nat.add_0_r in Hslot.
  eapply runs_bind; [apply (runs_read_bytes _ s _ (ql_item l) (λ y s', y = x ∧ s' = s)); [lia|done|done]|]. intros ? ? [-> ->].
  by apply runs_ret.
Qed.

Lemma runs_pq_ops m0 r0 xs0 os a s :
  length m0 = N → pq_tx m0 r0 xs0 a s → allowed_ops pq_spec (λ o a, pq_allowed l o a ∧ ∀ i, i ∈ pq_stores l (length xs0) o a → ¬ P i) os a →
  tail (journal s) + Z.of_nat (length os) * rsz ≤ JOURNAL_SIZE →
  runs (pq_crash m0 r0 xs0) (run_ops (pq_run (pqueue_of l obj pa ca)) os) s
    (λ rs s', rs = (spec_ops pq_spec os a).1 ∧ pq_tx m0 r0 xs0 (spec_ops pq_spec os a).2 s').
Proof.
  intros HN. apply runs_ops; [lia|apply pq_tx_crash|]. clear s a os. intros [x| |] [xs np] s Htx Hall Hroom.
  - destruct Hall as [[Hn Hx] HP]. eapply runs_bind; [apply (runs_pqueue_push_back m0 r0 xs0 xs np); [done..| |done|done]; by apply HP, list_elem_of_here|]. intros [] s' [Htx' Ht].
    apply runs_ret; [by eapply pq_tx_crash|]. split_and!; [done|done|lia].
  - by apply runs_pqueue_pop_front.
  - eapply runs_mono; [by apply (runs_pqueue_peek_front m0 r0 xs0 xs np)|]. intros y s' [-> ->]. split_and!; [done|done|lia].
Qed.
End queues.

(** C34: A transaction of operations on a queue: the results and the elements are those
    of a list, and when power fails at any point rolling back gives a queue of the old
    length, with the old elements but for those over which the transaction has pushed
    others, around the end of the buffer, behind popping them. *)
Theorem pqueue_transaction_correct `{Arch, Board} l N obj pa ca s r xs os :
  board_ok → obj_ok l N obj (5 * usize_bytes) → outside l pa usize_bytes → outside l ca usize_bytes →
  length (bytes s) = N → undoes [] (bytes s) s → pq_at l pa ca (bytes s) r xs →
  allowed_ops pq_spec (pq_allowed l) os (xs, 0%nat) →
  tail (journal s) + Z.of_nat (length os) * Z.of_nat (record_size (5 * usize_bytes)) ≤ JOURNAL_SIZE →
  let p := run_ops (pq_run (pqueue_of l obj pa ca)) os in
  let '(rs, (ys, _)) := spec_ops pq_spec os (xs, 0%nat) in
  (∃ s' r', exec p s = Done rs s' ∧ pq_at l pa ca (bytes s') r' ys ∧ same_outside l (bytes s) (bytes s')) ∧
  ∀ c, c ∈ crash_states p s →
    ∃ d zs, exec journal_recover c = Done tt d ∧ pq_at l pa ca (bytes d) r zs ∧
      kept (λ i, i ∉ stored_ops pq_spec (pq_stores l (length xs)) os (xs, 0%nat)) xs zs ∧ same_outside l (bytes s) (bytes d).
Proof.
  intros Hboard Ho Hpa Hca HN Hu Hr Hall Hroom p. set (P := λ i, i ∉ stored_ops pq_spec (pq_stores l (length xs)) os (xs, 0%nat)).
  assert (Hb : pq_back l pa ca (bytes s) r xs (bytes s)) by (split; [done|apply same_outside_refl]).
  assert (Htx : pq_tx l obj pa ca P (bytes s) r xs (xs, 0%nat) s).
  { exists [], (bytes s), 0%nat. rewrite Nat.add_0_r, Nat.mod_small by apply Hr. split_and!; [done|constructor|by exists xs|done|cbn; lia]. }
  assert (Hall' : allowed_ops pq_spec (λ o a, pq_allowed l o a ∧ ∀ i, i ∈ pq_stores l (length xs) o a → ¬ P i) os (xs, 0%nat))
    by (apply allowed_stored; [done|]; unfold P; naive_solver).
  pose proof (runs_pq_ops Hboard l N obj pa ca Ho Hpa Hca P (bytes s) r xs os _ s HN Htx Hall' Hroom) as Hruns.
  destruct (spec_ops pq_spec os (xs, 0%nat)) as [rs [ys np]]. split.
  - destruct (runs_exec _ _ _ _ Hruns) as (? & s' & Ex & -> & (es & m & popped & _ & _ & _ & [Hr' Hs'] & _)). by eexists s', _.
  - intros c Hc. destruct (runs_always _ _ _ _ Hruns c Hc) as (es & m & Hes & zs & Hk & Hr' & Hs').
    eexists _, zs. split; [exact (exec_journal_recover Hboard es m c Hes)|]. by split_and!.
Qed.

Module example.
#[local] Existing Instances cortex_m qemu.
Definition words (vs : list Z) : list Z := mjoin (usize_to_bytes <$> vs).

(** A vector of at most three elements of one byte, at 16, with its record in front. *)
Definition vl : qlayout := QLayout 3 1 16 4 8 12 0 0.
Definition vec_mem (xs : list Z) : pmem := {|
  bytes := words [0; 16; 3; Z.of_nat (length xs)] ++ xs ++ replicate (4 - length xs) 0; journal := journal_new |}.
Lemma vl_ok : obj_ok vl 20 4 12.
Proof.
  assert (Hlay : layout_ok vl 20).
  { split; [vm_compute; lia|vm_compute; lia|vm_compute; lia| |left; vm_compute; lia|left; vm_compute; lia|left; vm_compute; lia|by vm_compute].
    intros a Ha. cbn in Ha. repeat (apply elem_of_cons in Ha as [->|Ha]); [..|by inversion Ha];
      (split; [by vm_compute; lia|left; by vm_compute; lia]). }
  split; [done| |vm_compute; lia|left; vm_compute; lia|split; vm_compute; done].
  intros a Ha. cbn in Ha. repeat (apply elem_of_cons in Ha as [->|Ha]); [..|by inversion Ha]; vm_compute; lia.
Qed.
Lemma vec_mem_repr : vec_repr vl (bytes (vec_mem [1; 2])) [[1]; [2]].
Proof.
  split; try (split_and!; [vm_compute; lia|reflexivity|by vm_compute]); [|vm_compute; lia].
  intros [|[|i]] y Hy; [by injection Hy as <-|by injection Hy as <-|by destruct i].
Qed.
Lemma undoes_new m : undoes [] m {| bytes := m; journal := journal_new |}.
Proof. split_and!; [apply jrepr_new, example.qemu_ok|done..]. Qed.

(** The last element is popped and another one pushed in its place. *)
Lemma pvec_transaction_correct_witness :
  let p := run_ops (vec_run (vec_of vl 4)) [VPop; VPush [7]; VPush [9]] in
  (∃ s', exec p (vec_mem [1; 2]) = Done [Some [2]; None; None] s' ∧ vec_repr vl (bytes s') [[1]; [7]; [9]] ∧
     same_outside vl (bytes (vec_mem [1; 2])) (bytes s')) ∧
  ∀ c, c ∈ crash_states p (vec_mem [1; 2]) →
    ∃ d zs, exec journal_recover c = Done tt d ∧ vec_repr vl (bytes d) zs ∧ kept (λ i, i ∉ [1; 2]%nat) [[1]; [2]] zs ∧
      same_outside vl (bytes (vec_mem [1; 2])) (bytes d).
Proof.
  apply (pvec_transaction_correct vl 20 4 (vec_mem [1; 2]) [[1]; [2]] [VPop; VPush [7]; VPush [9]] example.qemu_ok vl_ok eq_refl
    (undoes_new _) vec_mem_repr).
  - split_and!; vm_compute; lia || done.
  - by vm_compute.
Defined.
Lemma pvec_index_mut_correct_witness :
  ∃ s', exec (vec_index_mut (vec_of vl 4) 1) (vec_mem [1; 2]) = Done 17 s' ∧ bytes s' = bytes (vec_mem [1; 2]) ∧
    ∀ y, length y = 1%nat → let s'' := set_bytes (list_inserts 17 y) s' in
      vec_repr vl (bytes s'') [[1]; y] ∧ ∃ d, exec journal_recover s'' = Done tt d ∧ bytes d = bytes (vec_mem [1; 2]).
Proof.
  apply (pvec_index_mut_correct vl 20 4 (vec_mem [1; 2]) [[1]; [2]] 1 example.qemu_ok vl_ok eq_refl (undoes_new _) vec_mem_repr);
    [by vm_compute|by split; vm_compute].
Defined.
Lemma pvec_drain_correct_witness :
  ∃ it s', exec (vec_drain (vec_of vl 4)) (vec_mem [1; 2]) = Done it s' ∧ vec_repr vl (bytes s') [] ∧
    ∃ it', exec (iter_run (vec_of vl 4) [true; false; true] it) s' = Done ([Some [2]; Some [1]; None], it') s' ∧
      iter_size_hint (vec_of vl 4) it' = 0.
Proof.
  apply (pvec_drain_correct vl 20 4 (vec_mem [1; 2]) [[1]; [2]] [true; false; true] example.qemu_ok vl_ok eq_refl
    (undoes_new _) vec_mem_repr). by vm_compute.
Defined.

(** A queue of at most two elements. *)
Definition ql : qlayout := QLayout 2 1 24 12 16 20 0 0.
Definition pq_mem (xs : list Z) : pmem := {|
  bytes := words [0; 24; 2; 0; Z.of_nat (length xs mod 2); Z.of_nat (length xs)] ++ xs ++ replicate (4 - length xs) 0; journal := journal_new |}.
Lemma ql_ok : obj_ok ql 28 4 20 ∧ outside ql 4 4 ∧ outside ql 8 4.
Proof.
  assert (Hlay : layout_ok ql 28).
  { split; [vm_compute; lia|vm_compute; lia|vm_compute; lia| |left; vm_compute; lia|left; vm_compute; lia|left; vm_compute; lia|by vm_compute].
    intros a Ha. cbn in Ha. repeat (apply elem_of_cons in Ha as [->|Ha]); [..|by inversion Ha];
      (split; [by vm_compute; lia|left; by vm_compute; lia]). }
  assert (Hout : outside ql 4 4 ∧ outside ql 8 4).
  { split; (split; [left; vm_compute; lia|]); intros a Ha; cbn in Ha;
      repeat (apply elem_of_cons in Ha as [->|Ha]); [..|by inversion Ha| | | |by inversion Ha]; left; vm_compute; lia. }
  split; [|done]. split; [done| |vm_compute; lia|left; vm_compute; lia|split; vm_compute; done].
  intros a Ha. cbn in Ha. repeat (apply elem_of_cons in Ha as [->|Ha]); [..|by inversion Ha]; vm_compute; lia.
Qed.
Lemma pq_mem_at : pq_at ql 4 8 (bytes (pq_mem [1; 2])) 0 [[1]; [2]].
Proof.
  split; try (split_and!; [vm_compute; lia|reflexivity|by vm_compute]); [|vm_compute; lia|vm_compute; lia].
  intros [|[|i]] y Hy; [by injection Hy as <-|by injection Hy as <-|by destruct i].
Qed.
(** The first element of a full queue is popped and another one pushed in its place. *)
Lemma pqueue_transaction_correct_witness :
  let p := run_ops (pq_run (pqueue_of ql 4 4 8)) [QPop; QPush [7]; QPeek] in
  (∃ s' r', exec p (pq_mem [1; 2]) = Done [Some [1]; None; Some [2]] s' ∧ pq_at ql 4 8 (bytes s') r' [[2]; [7]] ∧
     same_outside ql (bytes (pq_mem [1; 2])) (bytes s')) ∧
  ∀ c, c ∈ crash_states p (pq_mem [1; 2]) →
    ∃ d zs, exec journal_recover c = Done tt d ∧ pq_at ql 4 8 (bytes d) 0 zs ∧ kept (λ i, i ∉ [0]%nat) [[1]; [2]] zs ∧
      same_outside ql (bytes (pq_mem [1; 2])) (bytes d).
Proof.
  apply (pqueue_transaction_correct ql 28 4 4 8 (pq_mem [1; 2]) 0 [[1]; [2]] [QPop; QPush [7]; QPeek] example.qemu_ok (proj1 ql_ok)
    (proj1 (proj2 ql_ok)) (proj2 (proj2 ql_ok)) eq_refl (undoes_new _) pq_mem_at).
  - split_and!; vm_compute; lia || done.
  - by vm_compute.
Defined.

(** The memory when power fails after [n] stores of a transaction and it is rolled
    back. *)
Definition rolled_back {A} (n : nat) (p : prog pmem A) (s : pmem) : option (list Z) :=
  match crash_at n p s with
  | Some c => match exec journal_recover c with Done _ d => Some (bytes d) | Failed _ => None end
  | None => None
  end.

(** A transaction that pops an element and pushes another one is not undone: when
    power fails behind the store of the element, rolling back gives a vector, or a
    full queue, in which the element that was pushed is in the place of the one
    popped. *)
Theorem pop_push_not_rolled_back :
  rolled_back 32 (run_ops (vec_run (vec_of vl 4)) [VPop; VPush [9]]) (vec_mem [1; 2]) = Some (bytes (vec_mem [1; 9])) ∧
  rolled_back 49 (run_ops (pq_run (pqueue_of ql 4 4 8)) [QPop; QPush [9]]) (pq_mem [1; 2]) = Some (bytes (pq_mem [9; 2])).
Proof. by vm_compute. Qed.

Lemma push_full_panics :
  exec (vec_push (vec_of vl 4) [7]) (vec_mem [1; 2; 3]) = Failed Panic ∧
  exec (pqueue_push_back (pqueue_of ql 4 4 8) [7]) (pq_mem [1; 2]) = Failed Panic.
Proof. by vm_compute. Qed.
End example.
