(* ===== verification/Refs.v ===== *)
(** * Typed pointers of applications ([user/pbox.rs], [user/pstatics.rs])

    A transaction changes persistent memory through pointers whose types say what it
    has done to the object so far. What it writes before it reads needs no log,
    because the transaction writes it again when it is executed again; what it has
    read is logged before it is written. *)

From S2P Require Import Prelude Arch Pmem PVar.

(** A pointer to an object of type [T]: the address and the size of [T]. It is the data
    of [PBox], [Ptr], [PRef] and of all that they turn into. An object is its bytes. *)
Record PBox := { pb_ptr : Z; pb_size : nat }.

Section pointers.
Context `{Arch, Board}.
Implicit Types (p : PBox) (x : list Z).

(** What a dereferenced pointer does: a load, a store, and both. *)
Definition load p : prog pmem (list Z) := read_bytes (pb_ptr p) (pb_size p).
Definition store p x : prog pmem unit := write_bytes (pb_ptr p) x.
Definition update {R} p (f : list Z → R * list Z) : prog pmem R :=
  let* old := load p in
  store p (f old).2;;;
  Ret (f old).1.
(** [create_log], [append_log_of] of the object *)
Definition create_log p : prog pmem unit := append_log_of (pb_ptr p) (Z.of_nat (pb_size p)).

(** *** [PBox] *)

Definition pbox_as_mut p : prog pmem PBox := create_log p;;; Ret p.
Definition pbox_as_ref p : prog pmem (list Z) := load p.
Definition pbox_as_mut_no_logging p : PBox := p.

(** *** [Ptr], [PtrRO], [PtrWLog] and [PtrRW] *)

Definition ptr_write p x : prog pmem unit := store (pbox_as_mut_no_logging p) x.
Definition ptr_read {R} p (f : list Z → R) : prog pmem R := let* x := pbox_as_ref p in Ret (f x).
Definition ptr_wlog_write {R} p (f : list Z → R * list Z) : prog pmem R := let* r := pbox_as_mut p in update r f.
Definition ptr_wlog_as_mut p : prog pmem PBox := pbox_as_mut p.
Definition ptr_wlog_as_ref p : prog pmem (list Z) := pbox_as_ref p.
Definition ptr_ro_as_ref p : prog pmem (list Z) := pbox_as_ref p.
Definition ptr_rw_deref p : prog pmem (list Z) := load p.
Definition ptr_rw_deref_mut p : PBox := pbox_as_mut_no_logging p.

(** *** [PRef], [PRefWLog] and [PRefRW] *)

Definition pref_read {R} p (f : list Z → R) : prog pmem R := let* x := load p in Ret (f x).
Definition pref_write p x : prog pmem unit := store p x.
(** [off] is where the field is that the selector gives. *)
Definition pref_partial_write p (off : nat) x : prog pmem unit := write_bytes (pb_ptr p + Z.of_nat off) x.
Definition pref_read_wr {R} p (f : list Z → R * list Z) : prog pmem R := create_log p;;; update p f.
Definition pref_wlog_read {R} p (f : list Z → R) : prog pmem R := let* x := load p in Ret (f x).
Definition pref_wlog_as_ref p : prog pmem (list Z) := load p.
Definition pref_wlog_as_mut p : prog pmem PBox := create_log p;;; Ret p.
Definition pref_wlog_write {R} p (f : list Z → R * list Z) : prog pmem R := create_log p;;; update p f.
Definition pref_wlog_into_pref_rw p : prog pmem unit := create_log p.
Definition pref_wlog_read_wr {R} p (f : list Z → R * list Z) : prog pmem R := create_log p;;; update p f.
Definition pref_rw_as_ref p : prog pmem (list Z) := load p.
Definition pref_rw_as_mut p : PBox := p.

(** *** [PStatic] and [PLoopCounter] *)

Definition pstatic_as_mut p : prog pmem PBox := create_log p;;; Ret p.
Definition pstatic_as_ref p : prog pmem (list Z) := load p.
Definition pstatic_as_pref p : PBox := p.
Definition pstatic_set p x : prog pmem unit := store p x.
Definition loop_counter_inc (cnt n : Z) : prog pmem unit :=
  append_log_of cnt (Z.of_nat usize_bytes);;;
  let* v := read_usize cnt in
  write_usize cnt (uadd v n).
Definition loop_counter_get (cnt : Z) : prog pmem Z := read_usize cnt.
Definition loop_counter_set (cnt v : Z) : prog pmem unit := write_usize cnt v.

(** *** [PMutexGuard], with a pointer to the data of the mutex *)

Definition guard_as_mut p : prog pmem PBox := create_log p;;; Ret p.
Definition guard_as_ref p : prog pmem (list Z) := load p.
End pointers.

(** ** The types, and the methods that each of them has *)

Inductive ref_type := PRef | PRefWLog | PRefRW | Ptr | PtrRO | PtrWLog | PtrRW | Boxed.
#[export] Instance ref_type_eq_dec : EqDecision ref_type.
Proof. solve_decision. Defined.

(** A closure that is given a shared reference yields a result; one that is given a
    mutable reference yields a result and the new object. *)
Inductive method :=
| MRead (f : list Z → list Z) | MIntoReadable | MWrite (x : list Z) | MPartialWrite (off : nat) (x : list Z)
| MReadWr (f : list Z → list Z * list Z) | MWriteWith (f : list Z → list Z * list Z) | MIntoPrefRw
| MAsRef | MAsMut (f : list Z → list Z * list Z) | MIntoPtrRo | MDownCast | MIntoPtr | MIntoPbox.

(** The type of the pointer behind a call, which takes the old one away or borrows it;
    [None] when the type has no such method. *)
Definition signature (m : method) (t : ref_type) : option ref_type :=
  match m, t with
  | MRead _, PRef => Some PRefWLog
  | MRead _, Ptr => Some PtrWLog
  | MRead _, PRefWLog => Some PRefWLog
  | MIntoReadable, PRef => Some PRefWLog
  | MWrite _, PRef => Some PRefRW
  | MWrite _, Ptr => Some PtrRW
  | MPartialWrite _ _, PRef => Some PRef
  | MReadWr _, (PRef | PRefWLog) => Some PRefRW
  | MWriteWith _, PRefWLog => Some PRefRW
  | MWriteWith _, PtrWLog => Some PtrRW
  | MIntoPrefRw, PRefWLog => Some PRefRW
  | MAsRef, (PRefWLog | PRefRW | PtrRO | PtrWLog | PtrRW | Boxed) => Some t
  | MAsMut _, (PRefWLog | PRefRW | PtrWLog | PtrRW | Boxed) => Some t
  | MIntoPtrRo, Ptr => Some PtrRO
  | MDownCast, PtrRW => Some PtrWLog
  | MIntoPtr, PtrRW => Some Ptr
  | MIntoPbox, (Ptr | PtrWLog | PtrRW) => Some Boxed
  | _, _ => None
  end.

(** A call of [m] on a pointer of type [t]; what [as_mut] returns is updated at once. *)
Definition invoke `{Arch, Board} (t : ref_type) (m : method) (p : PBox) : prog pmem (list Z) :=
  match m, t with
  | MRead f, PRef => pref_read p f
  | MRead f, PRefWLog => pref_wlog_read p f
  | MRead f, _ => ptr_read p f
  | MWrite x, PRef => pref_write p x;;; Ret []
  | MWrite x, _ => ptr_write p x;;; Ret []
  | MPartialWrite off x, _ => pref_partial_write p off x;;; Ret []
  | MReadWr f, PRef => pref_read_wr p f
  | MReadWr f, _ => pref_wlog_read_wr p f
  | MWriteWith f, PRefWLog => pref_wlog_write p f
  | MWriteWith f, _ => ptr_wlog_write p f
  | MIntoPrefRw, _ => pref_wlog_into_pref_rw p;;; Ret []
  | MAsRef, PRefWLog => pref_wlog_as_ref p
  | MAsRef, PRefRW => pref_rw_as_ref p
  | MAsRef, PtrRO => ptr_ro_as_ref p
  | MAsRef, PtrWLog => ptr_wlog_as_ref p
  | MAsRef, PtrRW => ptr_rw_deref p
  | MAsRef, _ => pbox_as_ref p
  | MAsMut f, PRefWLog => let* r := pref_wlog_as_mut p in update r f
  | MAsMut f, PRefRW => update (pref_rw_as_mut p) f
  | MAsMut f, PtrWLog => let* r := ptr_wlog_as_mut p in update r f
  | MAsMut f, PtrRW => update (ptr_rw_deref_mut p) f
  | MAsMut f, _ => let* r := pbox_as_mut p in update r f
  | (MIntoReadable | MIntoPtrRo | MDownCast | MIntoPtr | MIntoPbox), _ => Ret []
  end.
