(* ===== verification/RefsSpec.v ===== *)
(** * Transactions over typed pointers can be executed again

    Rolling a transaction back does not restore what it has written without reading
    it first. The types of the pointers see to it that it can be executed again all
    the same: what rolling back does not restore it writes before it reads. *)

From stdpp Require Import functions.
From S2P Require Import Prelude Arch Pmem PmemSpec PVar Refs.

(** ** Programs with the same stores *)

Definition same {S A} (p q : prog S A) : Prop := ∀ s, exec p s = exec q s ∧ crash_states p s = crash_states q s.
Infix "≈" := same (at level 70).
#[export] Instance same_equivalence {S A} : Equivalence (@same S A).
Proof. split; [by split|intros p q Hpq s; by destruct (Hpq s)|intros p q r Hpq Hqr s; destruct (Hpq s), (Hqr s); split; congruence]. Qed.
Lemma runs_same {S A} (I : S → Prop) (p q : prog S A) s Q : p ≈ q → runs I p s Q → runs I q s Q.
Proof. intros Hpq. destruct (Hpq s) as [E1 E2]. unfold runs, always. by rewrite E1, E2. Qed.
Lemma same_bind_ret {S A} (p : prog S A) : (let* x := p in Ret (id x)) ≈ p.
Proof. induction p as [a|k IH|f p IH|e]; intros s; [done|apply IH| |done]. destruct (IH (f s)) as [E1 E2]. split; [exact E1|exact (f_equal (cons s) E2)]. Qed.
Lemma same_assoc_ret {S A B C} (p : prog S A) (b : B) (k : B → prog S C) : (let* x := (p;;; Ret b) in k x) ≈ (p;;; k b).
Proof. induction p as [a|g IH|f p IH|e]; intros s; [done|apply IH| |done]. destruct (IH (f s)) as [E1 E2]. split; [exact E1|exact (f_equal (cons s) E2)]. Qed.

(** ** Clients *)

(** A transaction: calls of methods on pointers, each with its type, on whose results the
    rest depends. *)
Inductive client (A : Type) :=
| CRet (a : A)
| CCall (i : nat) (t : ref_type) (m : method) (k : list Z → client A).
Arguments CRet {A} a.
Arguments CCall {A} i t m k.

Section clients.
Context `{Arch, Board} {A : Type} (objs : nat → nat * nat).
Implicit Types (c : client A) (i a : nat) (t : ref_type) (m : method) (w x : list Z) (T W D : gset nat).

(** The object of the pointer [i] lies at [(objs i).1] and has [(objs i).2] bytes. *)
Definition pointer i : PBox := {| pb_ptr := Z.of_nat (objs i).1; pb_size := (objs i).2 |}.
Fixpoint run c : prog pmem A :=
  match c with
  | CRet a => Ret a
  | CCall i t m k => let* x := invoke t m (pointer i) in run (k x)
  end.

(** The bytes that a value has are those of its type. *)
Definition sized m (n : nat) : Prop :=
  match m with
  | MWrite x => length x = n
  | MPartialWrite off x => (off + length x ≤ n)%nat
  | MReadWr f | MWriteWith f | MAsMut f => ∀ x, length (f x).2 = n
  | _ => True
  end.
(** The calls type-check: every pointer is used at the type that it has by then. *)
Fixpoint typed (st : nat → ref_type) c : Prop :=
  match c with
  | CRet _ => True
  | CCall i t m k => st i = t ∧ sized m (objs i).2 ∧
      match signature m t with Some t' => ∀ x, typed (<[i := t']> st) (k x) | None => False end
  end.

(** ** What a call does to memory *)

Inductive access := ANone | AGet (f : list Z → list Z) | APut (off : nat) (x : list Z) | AUpdate (f : list Z → list Z * list Z).
Definition logs t m : bool :=
  match m, t with
  | MReadWr _, _ | MWriteWith _, _ | MIntoPrefRw, _ => true
  | MAsMut _, (PRefRW | PtrRW) => false
  | MAsMut _, _ => true
  | _, _ => false
  end.
Definition access_of m : access :=
  match m with
  | MRead f => AGet f
  | MWrite x => APut 0 x
  | MPartialWrite off x => APut off x
  | MReadWr f | MWriteWith f | MAsMut f => AUpdate f
  | MAsRef => AGet id
  | MIntoReadable | MIntoPrefRw | MIntoPtrRo | MDownCast | MIntoPtr | MIntoPbox => ANone
  end.
Definition run_access (ac : access) (p : PBox) : prog pmem (list Z) :=
  match ac with
  | ANone => Ret []
  | AGet f => let* x := load p in Ret (f x)
  | APut off x => write_bytes (pb_ptr p + Z.of_nat off) x;;; Ret []
  | AUpdate f => update p f
  end.

(** The log, if there is one, and the access. *)
Definition effect t m (p : PBox) : prog pmem (list Z) :=
  (if logs t m then create_log p else skip);;; run_access (access_of m) p.

Lemma invoke_effect t m t' (p : PBox) : signature m t = Some t' → effect t m p ≈ invoke t m p.
Proof.
  intros Hs. destruct m, t; try discriminate Hs; unfold effect; cbn -[create_log bind];
    rewrite ?Z.add_0_r; try reflexivity; apply same_bind_ret || exact (symmetry (same_assoc_ret (create_log p) p (λ r, update r _))).
Qed.

(** ** What a client computes, what it writes first, and what it logs *)

Definition range i : gset nat := set_seq (objs i).1 (objs i).2.
Definition object i w : list Z := slice (objs i).1 (objs i).2 w.
Definition result_of (ac : access) x : list Z :=
  match ac with ANone | APut _ _ => [] | AGet f => f x | AUpdate f => (f x).1 end.
Definition stored (ac : access) i w : list Z :=
  match ac with
  | APut off x => list_inserts ((objs i).1 + off) x w
  | AUpdate f => list_inserts (objs i).1 (f (object i w)).2 w
  | _ => w
  end.
(** The bytes on which the call depends, and those that it stores. *)
Definition reads_of t m i : gset nat :=
  if logs t m then range i else match access_of m with AGet _ | AUpdate _ => range i | _ => ∅ end.
Definition writes_of m i : gset nat :=
  match access_of m with APut off x => set_seq ((objs i).1 + off) (length x) | AUpdate _ => range i | _ => ∅ end.

Fixpoint eval c w : A * list Z :=
  match c with
  | CRet a => (a, w)
  | CCall i t m k => eval (k (result_of (access_of m) (object i w))) (stored (access_of m) i w)
  end.
(** The bytes that are stored before anything depends on them; [T] has been touched. *)
Fixpoint first_writes c w T : gset nat :=
  match c with
  | CRet _ => ∅
  | CCall i t m k => writes_of m i ∖ (T ∪ reads_of t m i) ∪
      first_writes (k (result_of (access_of m) (object i w))) (stored (access_of m) i w) (T ∪ reads_of t m i ∪ writes_of m i)
  end.
Fixpoint log_space c w : nat :=
  match c with
  | CRet _ => 0
  | CCall i t m k => (if logs t m then record_size (objs i).2 else 0) +
      log_space (k (result_of (access_of m) (object i w))) (stored (access_of m) i w)
  end.

(** The objects of a memory of [N] bytes. *)
Record objs_ok (N : nat) : Prop := {
  oo_bound : ∀ i, ((objs i).1 + (objs i).2 ≤ N)%nat;
  oo_object : ∀ i, is_object (Z.of_nat (objs i).1) (Z.of_nat (objs i).2);
  oo_apart : ∀ i j, i ≠ j → range i ## range j;
}.

(** Memories that agree but for the bytes in [D]. *)
Definition agree_off D w1 w2 : Prop := length w1 = length w2 ∧ ∀ p, p ∉ D → w1 !! p = w2 !! p.

Lemma elem_of_range i p : p ∈ range i ↔ ((objs i).1 ≤ p < (objs i).1 + (objs i).2)%nat.
Proof. apply elem_of_set_seq. Qed.
Lemma writes_in_range m i : sized m (objs i).2 → writes_of m i ⊆ range i.
Proof.
  intros Hs p. unfold writes_of. destruct m; cbn in *; try done; rewrite ?elem_of_set_seq, elem_of_range; lia.
Qed.
Lemma first_writes_untouched c w T : first_writes c w T ## T.
Proof. revert w T. induction c as [a|i t m k IH]; intros w T; cbn; [set_solver|]. specialize (IH (result_of (access_of m) (object i w)) (stored (access_of m) i w) (T ∪ reads_of t m i ∪ writes_of m i)). set_solver. Qed.

Lemma length_stored ac i w : length (stored ac i w) = length w.
Proof. destruct ac; cbn; [done|done|apply length_inserts..]. Qed.

Lemma inserts_agree D a x w1 w2 : (a + length x ≤ length w1)%nat → agree_off D w1 w2 →
  agree_off (D ∖ set_seq a (length x)) (list_inserts a x w1) (list_inserts a x w2).
Proof.
  intros Hl [Hlen Hag]. split; [by rewrite !length_inserts|]. intros p Hp.
  rewrite !lookup_inserts_full by lia. case_decide; [done|]. apply Hag. intros HD. apply Hp.
  apply elem_of_difference. split; [done|]. rewrite elem_of_set_seq. lia.
Qed.
Lemma slice_agree D a n w1 w2 : (a + n ≤ length w1)%nat → agree_off D w1 w2 → set_seq a n ## D → slice a n w1 = slice a n w2.
Proof.
  intros Hl [Hlen Hag] Hd. apply list_eq. intros j. destruct (decide (j < n)%nat) as [Hj|Hj].
  - rewrite !lookup_slice by done. apply Hag. intros HD. apply (Hd (a + j)%nat); [|done]. apply elem_of_set_seq. lia.
  - rewrite !lookup_ge_None_2; [done|rewrite length_slice; lia..].
Qed.

Lemma object_agree N D i w1 w2 : objs_ok N → length w1 = N → agree_off D w1 w2 → range i ## D → object i w1 = object i w2.
Proof. intros Ho HN Hag Hd. pose proof (oo_bound _ Ho i). apply (slice_agree D); [lia|done..]. Qed.

(** ** A client that starts from other bytes where it writes first *)

Lemma stored_agree N D i m w1 w2 : objs_ok N → length w1 = N → sized m (objs i).2 → agree_off D w1 w2 →
  match access_of m with AUpdate _ => range i ## D | _ => True end →
  agree_off (D ∖ writes_of m i) (stored (access_of m) i w1) (stored (access_of m) i w2).
Proof.
  intros Ho HN Hs Hag Hd. pose proof (oo_bound _ Ho i) as Hb. unfold writes_of.
  assert (Hno : agree_off (D ∖ ∅) w1 w2) by (by rewrite difference_empty_L).
  assert (Hup : ∀ f, (∀ x, length (f x).2 = (objs i).2) → range i ## D →
    agree_off (D ∖ range i) (stored (AUpdate f) i w1) (stored (AUpdate f) i w2)).
  { intros f Hf Hr. cbn. rewrite <-(object_agree N D i w1 w2) by done.
    unfold range. rewrite <-(Hf (object i w1)). apply inserts_agree; [rewrite Hf; lia|done]. }
  destruct m; cbn in *; try done; try (apply Hup; done).
  - apply inserts_agree; [lia|done].
  - apply inserts_agree; [lia|done].
Qed.

Lemma eval_agree N c : objs_ok N → ∀ st w1 w2 T D, typed st c → length w1 = N → agree_off D w1 w2 → D ⊆ first_writes c w1 T →
  eval c w1 = eval c w2 ∧ first_writes c w1 T = first_writes c w2 T ∧ log_space c w1 = log_space c w2.
Proof.
  intros Ho. induction c as [a|i t m k IH]; intros st w1 w2 T D Ht HN Hag HD; cbn in *.
  - split; [|done]. f_equal. destruct Hag as [Hlen Hag]. apply list_eq. intros p. apply Hag. set_solver.
  - destruct Ht as (_ & Hs & Ht). destruct (signature m t) as [t'|]; [|done].
    set (r1 := result_of (access_of m) (object i w1)) in *. set (v1 := stored (access_of m) i w1) in *.
    pose proof (first_writes_untouched (k r1) v1 (T ∪ reads_of t m i ∪ writes_of m i)) as Hunt.
    assert (Hrd : reads_of t m i ## D) by set_solver.
    assert (Hobj : match access_of m with AGet _ | AUpdate _ => range i ## D | _ => True end).
    { unfold reads_of in Hrd. destruct (logs t m), (access_of m); done. }
    assert (Er : r1 = result_of (access_of m) (object i w2)).
    { unfold r1. destruct (access_of m); try done; cbn; by rewrite (object_agree N D i w1 w2). }
    rewrite <-Er. assert (Hag' : agree_off (D ∖ writes_of m i) v1 (stored (access_of m) i w2)).
    { apply (stored_agree N); try done. by destruct (access_of m). }
    destruct (IH r1 _ v1 _ (T ∪ reads_of t m i ∪ writes_of m i) _ (Ht r1) ltac:(unfold v1; by rewrite length_stored) Hag' ltac:(set_solver)) as (E1 & E2 & E3).
    split_and!; [exact E1|exact (f_equal (union _) E2)|exact (f_equal (Nat.add _) E3)].
Qed.

(** ** What a power failure leaves *)

(** A byte may be stored without a log if a record has it, or if it is written first. *)
Definition recorded_byte (es : list entry) (p : nat) : Prop := ∃ e, e ∈ es ∧ (e_addr e ≤ p < e_addr e + length (e_old e))%nat.
Definition safe (es : list entry) W (p : nat) : Prop := recorded_byte es p ∨ p ∈ W.

Lemma undo_at es w1 w2 p : length w1 = length w2 → Forall (entry_fits w1) es → recorded_byte es p ∨ w1 !! p = w2 !! p →
  undo es w1 !! p = undo es w2 !! p.
Proof.
  intros Hlen Hf. induction Hf as [|e es He Hf IH]; intros Hp.
  - destruct Hp as [(e & He & _)|Hp]; [by apply elem_of_nil in He|done].
  - cbn. fold (undo es w1) (undo es w2). unfold entry_fits in He. rewrite !lookup_restore by (unfold entry_fits; rewrite length_undo; lia).
    case_decide as Hd; [done|]. apply IH. destruct Hp as [(e' & [->|He']%elem_of_cons & Hr)|Hp]; [done|left; by exists e'|by right].
Qed.

(** The memories to which a store may be rolled back. *)
Definition rolls_back W w0 (s : pmem) : Prop := ∃ es w, undoes es w s ∧ agree_off W w0 w.

Lemma undoes_stored es w s W w0 a x : undoes es w s → agree_off W w0 w → (a + length x ≤ length (bytes s))%nat →
  (∀ p, (a ≤ p < a + length x)%nat → safe es W p) →
  ∃ w', undoes es w' (set_bytes (list_inserts a x) s) ∧ agree_off W w0 w'.
Proof.
  intros (Hj & Hf & Hu) [Hlen Hag] Hl Hs. exists (undo es (list_inserts a x (bytes s))). split.
  - split; [done|]. split; [|done]. cbn. eapply Forall_impl; [exact Hf|]. intros e. unfold entry_fits. by rewrite length_inserts.
  - split; [rewrite length_undo, length_inserts, Hlen, <-Hu; apply length_undo|]. intros p Hp. rewrite Hag, <-Hu by done.
    apply undo_at; [by rewrite length_inserts|done|]. rewrite lookup_inserts_full by done. case_decide as Hd; [|by right].
    left. by destruct (Hs p Hd).
Qed.

(** What the types say of the bytes that have been touched. *)
Definition consistent (st : nat → ref_type) es T W : Prop :=
  ∀ i p, p ∈ range i →
    match st i with PRefRW | PtrRW => safe es W p | PRef | Ptr => p ∈ T → safe es W p | _ => True end.

Lemma writes_safe st es es' T W i m t t' : consistent st es T W → st i = t → signature m t = Some t' → sized m (objs i).2 →
  (∀ p, safe es W p → safe es' W p) → (logs t m = true → ∀ p, p ∈ range i → safe es' W p) →
  writes_of m i ∖ (T ∪ reads_of t m i) ⊆ W → ∀ p, p ∈ writes_of m i → safe es' W p.
Proof.
  intros Hc Hst Hsig Hs Hmono Hlog HW p Hp. pose proof (writes_in_range m i Hs p Hp) as Hr.
  destruct (logs t m) eqn:El; [by apply Hlog|]. specialize (Hc i p Hr). rewrite Hst in Hc.
  destruct (decide (p ∈ T)) as [HT|HT].
  - destruct m, t; try discriminate Hsig; try discriminate El; cbn in Hp; first [done|by apply Hmono, Hc|by apply Hmono].
  - destruct m, t; try discriminate Hsig; try discriminate El; cbn in Hp; try done; try (by apply Hmono);
      right; apply HW; unfold reads_of; cbn; set_solver.
Qed.

Lemma consistent_step st es es' T W i m t t' : (∀ i j, i ≠ j → range i ## range j) →
  consistent st es T W → st i = t → signature m t = Some t' → sized m (objs i).2 →
  (∀ p, safe es W p → safe es' W p) → (logs t m = true → ∀ p, p ∈ range i → safe es' W p) →
  writes_of m i ∖ (T ∪ reads_of t m i) ⊆ W →
  consistent (<[i := t']> st) es' (T ∪ reads_of t m i ∪ writes_of m i) W.
Proof.
  intros Hap Hc Hst Hsig Hs Hmono Hlog HW. pose proof (writes_safe _ _ _ _ _ _ _ _ _ Hc Hst Hsig Hs Hmono Hlog HW) as Hws.
  pose proof (writes_in_range m i Hs) as Hwr.
  intros j p Hp. specialize (Hc j p Hp). destruct (decide (j = i)) as [->|Hj].
  - rewrite fn_lookup_insert. rewrite Hst in Hc. specialize (Hlog). specialize (Hws p). unfold reads_of in *.
    destruct m, t; try discriminate Hsig; injection Hsig as <-; cbn in *; try done; intros; try (by apply Hmono); try (by apply Hlog);
      try (apply Hws; cbn in Hs; rewrite ?elem_of_set_seq; rewrite elem_of_range in Hp; lia); set_solver.
  - rewrite fn_lookup_insert_ne by done. assert (Hni : p ∉ range i) by (intros Hi; exact (Hap j i Hj p Hp Hi)).
    assert (Hrd : p ∉ reads_of t m i) by (unfold reads_of; destruct (logs t m), (access_of m); set_solver).
    destruct (st j); try done; [|by apply Hmono| |by apply Hmono]; intros HT; apply Hmono, Hc; set_solver.
Qed.

Context (Hboard : board_ok) (N : nat) (Ho : objs_ok N).

(** The access, once every byte that it stores is safe. *)
Lemma runs_access es w s w0 W i m (Q : list Z → pmem → Prop) :
  undoes es w s → agree_off W w0 w → length (bytes s) = N → sized m (objs i).2 → (∀ p, p ∈ writes_of m i → safe es W p) →
  (∀ s' w', bytes s' = stored (access_of m) i (bytes s) → tail (journal s') = tail (journal s) → undoes es w' s' →
     agree_off W w0 w' → Q (result_of (access_of m) (object i (bytes s))) s') →
  runs (rolls_back W w0) (run_access (access_of m) (pointer i)) s Q.
Proof.
  intros Hu Hag HN Hs Hw HQ. pose proof (oo_bound _ Ho i) as Hb.
  assert (HI : rolls_back W w0 s) by by exists es, w.
  assert (Hload : ∀ P, P (object i (bytes s)) s → runs (rolls_back W w0) (load (pointer i)) s P)
    by (intros P HP; apply (runs_read_bytes _ s (objs i).1 (objs i).2); [lia|done|exact HP]).
  assert (Hstore : ∀ a x (P : unit → pmem → Prop), (a + length x ≤ N)%nat → (∀ p, (a ≤ p < a + length x)%nat → safe es W p) →
    (∀ w', undoes es w' (set_bytes (list_inserts a x) s) → agree_off W w0 w' → P tt (set_bytes (list_inserts a x) s)) →
    runs (rolls_back W w0) (write_bytes (Z.of_nat a) x) s P).
  { intros a x P Hl Hsafe HP. apply runs_write_bytes; [lia| |].
    - intros n Hn. destruct (undoes_stored es w s W w0 a (take n x)) as (w' & Hu' & Hag'); try done; rewrite ?length_take; [lia| |by exists es, w'].
      intros p Hp. apply Hsafe. lia.
    - destruct (undoes_stored es w s W w0 a x) as (w' & Hu' & Hag'); [done..|lia|done|by eapply HP]. }
  assert (Hup : ∀ f, access_of m = AUpdate f → (∀ x, length (f x).2 = (objs i).2) → runs (rolls_back W w0) (update (pointer i) f) s Q).
  { intros f Ef Hf. unfold writes_of in Hw. rewrite Ef in *. eapply runs_bind; [apply (Hload (λ x s', x = object i (bytes s) ∧ s' = s)); done|].
    intros ? ? [-> ->]. eapply runs_bind; [apply (Hstore (objs i).1 _ (λ _ s', s' = set_bytes (list_inserts (objs i).1 (f (object i (bytes s))).2) s ∧ ∃ w', undoes es w' s' ∧ agree_off W w0 w'))|].
    - rewrite Hf. lia.
    - intros p Hp. apply Hw, elem_of_range. rewrite Hf in Hp. lia.
    - intros w' Hu' Hag'. eauto.
    - intros [] s' (-> & w' & Hu' & Hag'). apply runs_ret; [by exists es, w'|]. by eapply HQ. }
  assert (Hput : ∀ off x, access_of m = APut off x → (off + length x ≤ (objs i).2)%nat →
    runs (rolls_back W w0) (write_bytes (pb_ptr (pointer i) + Z.of_nat off) x;;; Ret []) s Q).
  { intros off x Ep Hl. unfold writes_of in Hw. rewrite Ep in *. cbn [pb_ptr pointer]. rewrite <-Nat2Z.inj_add.
    eapply runs_bind; [apply (Hstore _ _ (λ _ s', s' = set_bytes (list_inserts ((objs i).1 + off) x) s ∧ ∃ w', undoes es w' s' ∧ agree_off W w0 w'))|].
    - lia.
    - intros p Hp. apply Hw, elem_of_set_seq. lia.
    - intros w' Hu' Hag'. eauto.
    - intros [] s' (-> & w' & Hu' & Hag'). apply runs_ret; [by exists es, w'|]. by eapply HQ. }
  assert (Hget : ∀ f, access_of m = AGet f → runs (rolls_back W w0) (let* x := load (pointer i) in Ret (f x)) s Q).
  { intros f Eg. rewrite Eg in HQ. eapply runs_bind; [apply (Hload (λ x s', x = object i (bytes s) ∧ s' = s)); done|].
    intros ? ? [-> ->]. apply runs_ret; [done|]. by eapply HQ. }
  destruct (access_of m) as [|f|off x|f] eqn:Em; cbn [run_access].
  - apply runs_ret; [done|]. by eapply HQ.
  - by apply Hget.
  - apply Hput; [done|]. destruct m; try discriminate Em; injection Em as <- <-; cbn in Hs; lia.
  - apply Hup; [done|]. destruct m; try discriminate Em; by injection Em as <-.
Qed.

(** The log, which makes every byte of the object safe. *)
Lemma runs_effect_log es w s w0 W i t m (Q : unit → pmem → Prop) :
  undoes es w s → agree_off W w0 w → length (bytes s) = N →
  tail (journal s) + Z.of_nat (if logs t m then record_size (objs i).2 else 0) ≤ JOURNAL_SIZE →
  (∀ s' es', bytes s' = bytes s → tail (journal s') = tail (journal s) + Z.of_nat (if logs t m then record_size (objs i).2 else 0) →
     undoes es' w s' → (∀ p, safe es W p → safe es' W p) → (logs t m = true → ∀ p, p ∈ range i → safe es' W p) → Q tt s') →
  runs (rolls_back W w0) (if logs t m then create_log (pointer i) else skip) s Q.
Proof.
  intros Hu Hag HN Hroom HQ. pose proof (oo_bound _ Ho i). destruct (logs t m).
  - apply (runs_append_log Hboard _ es w s (objs i).1 (objs i).2); [done|apply Ho|lia|done|by intros c es' Hc; exists es', w|].
    intros s' Hb Ht Hu'. eapply HQ; [done|done|exact Hu'| |].
    + intros p [(e & He & Hp)|Hp]; [|by right]. left. exists e. split; [apply elem_of_app; by left|done].
    + intros _ p Hp. left. eexists. split; [apply elem_of_app; right; by left|]. cbn. rewrite length_slice by lia. by apply elem_of_range.
  - apply runs_ret; [by exists es, w|]. apply (HQ s es); [done|lia|done..].
Qed.

Lemma runs_client c : ∀ st T W es w w0 s, typed st c → consistent st es T W → undoes es w s → agree_off W w0 w → length (bytes s) = N →
  first_writes c (bytes s) T ⊆ W → tail (journal s) + Z.of_nat (log_space c (bytes s)) ≤ JOURNAL_SIZE →
  runs (rolls_back W w0) (run c) s (λ r s', (r, bytes s') = eval c (bytes s) ∧ rolls_back W w0 s').
Proof.
  induction c as [a|i t m k IH]; intros st T W es w w0 s Ht Hc Hu Hag HN HW Hroom; cbn [run eval first_writes log_space typed] in *.
  - apply runs_ret; [by exists es, w|]. split; [done|by exists es, w].
  - destruct Ht as (Hst & Hs & Ht). destruct (signature m t) as [t'|] eqn:Hsig; [|done].
    set (x := result_of (access_of m) (object i (bytes s))) in *. set (v := stored (access_of m) i (bytes s)) in *.
    eapply runs_bind with (Q := λ y s', y = x ∧ bytes s' = v ∧ tail (journal s') = tail (journal s) + Z.of_nat (if logs t m then record_size (objs i).2 else 0) ∧
      ∃ es' w', undoes es' w' s' ∧ agree_off W w0 w' ∧ consistent (<[i:=t']> st) es' (T ∪ reads_of t m i ∪ writes_of m i) W).
    { apply (runs_same _ _ _ _ _ (invoke_effect t m t' (pointer i) Hsig)). unfold effect. eapply runs_bind.
      { apply (runs_effect_log es w s w0 W i t m) with (Q := λ _ s1, bytes s1 = bytes s ∧
          tail (journal s1) = tail (journal s) + Z.of_nat (if logs t m then record_size (objs i).2 else 0) ∧
          ∃ es', undoes es' w s1 ∧ (∀ p, safe es W p → safe es' W p) ∧ (logs t m = true → ∀ p, p ∈ range i → safe es' W p)); [done..|lia|].
        intros s1 es' H1 H2 H3 H4 H5. split_and!; [done..|by exists es']. }
      intros [] s1 (Hb & Htl & es' & Hu1 & Hmono & Hlog).
      assert (HW1 : writes_of m i ∖ (T ∪ reads_of t m i) ⊆ W) by set_solver.
      apply (runs_access es' w s1 w0 W i m); [done|done|by rewrite Hb|done|by eapply writes_safe|].
      intros s' w' Hb' Ht' Hu' Hag'. rewrite Hb in *. split_and!; [done|done|lia|]. exists es', w'. split_and!; [done..|].
      eapply consistent_step; try done. apply Ho. }
    intros y s' (-> & Hb & Htl & es' & w' & Hu' & Hag' & Hc').
    rewrite <-Hb. eapply (IH x); [apply Ht|exact Hc'|done|done|by rewrite Hb; unfold v; rewrite length_stored|rewrite Hb; set_solver|rewrite Hb; lia].
Qed.
End clients.

(** ** Executing it again *)

(** [interrupted p s s']: power has failed any number of times while [p] was executed from
    [s], also during recovery, and the journal has been rolled back to [s']. *)
Inductive interrupted `{Arch, Board} {A} (p : prog pmem A) (s : pmem) : pmem → Prop :=
| int_none : interrupted p s s
| int_again s1 c c' s2 : interrupted p s s1 → c ∈ crash_states p s1 → recoveries c c' →
    exec journal_recover c' = Done tt s2 → interrupted p s s2.

Section reexecution.
Context `{Arch, Board} {A : Type} (Hboard : board_ok) (objs : nat → nat * nat) (N : nat) (Ho : objs_ok objs N).
Implicit Types (c : client A).

Lemma jrepr_nil_tail j : jrepr [] j → tail j = 0.
Proof. intros (_ & _ & _ & l & rest & _ & Ht & Hl). inversion Hl as [E|l' es' e pad ? ? ? E1 E2]; subst; [done|by destruct es']. Qed.

(** Where the client may start again. *)
Definition restartable c (w0 : list Z) (s : pmem) : Prop :=
  jrepr [] (journal s) ∧ length (bytes s) = N ∧ agree_off (first_writes objs c w0 ∅) w0 (bytes s).

Lemma restartable_runs st c w0 s : length w0 = N → typed objs st c → (∀ i, st i = PRef ∨ st i = Ptr ∨ st i = Boxed) →
  Z.of_nat (log_space objs c w0) ≤ JOURNAL_SIZE → restartable c w0 s →
  runs (rolls_back (first_writes objs c w0 ∅) w0) (run objs c) s (λ r s', (r, bytes s') = eval objs c w0).
Proof.
  intros HN0 Ht Hst Hroom (Hj & HN & Hag).
  destruct (eval_agree objs N c Ho st w0 (bytes s) ∅ _ Ht HN0 Hag ltac:(done)) as (E1 & E2 & E3).
  eapply runs_mono; [apply (runs_client objs Hboard N Ho c st ∅ _ [] (bytes s) w0 s); [done| |done|done|done|by rewrite E2|]|].
  - intros i p _. destruct (Hst i) as [->|[->| ->]]; set_solver.
  - rewrite (jrepr_nil_tail _ Hj), <-E3. lia.
  - intros r s' [E _]. by rewrite E1.
Qed.

Lemma rolls_back_restartable c w0 x y : length w0 = N → rolls_back (first_writes objs c w0 ∅) w0 x → recoveries x y →
  ∃ s, exec journal_recover y = Done tt s ∧ restartable c w0 s.
Proof.
  intros HN (es & w & Hu & Hag) Hr. destruct (recoveries_undoes Hboard _ _ _ _ Hu Hr) as [es' Hu'].
  eexists. split; [by apply (exec_journal_recover Hboard es' w)|]. split_and!; cbn.
  - eapply jrepr_empty. apply Hu'.
  - destruct Hag as [<- _]. done.
  - done.
Qed.
End reexecution.

(** C3: A transaction over typed pointers can be executed again: when power has failed
    any number of times, also during recovery, recovery ends, and the next execution
    has the result and leaves the memory of an execution without failures, although
    what was written before it was read has not been rolled back. *)
Theorem typed_pointers_reexecutable `{Arch, Board} {A} (objs : nat → nat * nat) (N : nat) (st : nat → ref_type) (c : client A) (s0 : pmem) :
  board_ok → objs_ok objs N → jrepr [] (journal s0) → length (bytes s0) = N →
  typed objs st c → (∀ i, st i = PRef ∨ st i = Ptr ∨ st i = Boxed) → Z.of_nat (log_space objs c (bytes s0)) ≤ JOURNAL_SIZE →
  ∃ r w, ∀ s, interrupted (run objs c) s0 s →
    (∃ s', exec (run objs c) s = Done r s' ∧ bytes s' = w) ∧
    ∀ x y, x ∈ crash_states (run objs c) s → recoveries x y → ∃ s', exec journal_recover y = Done tt s'.
Proof.
  intros Hboard Ho Hj HN Ht Hst Hroom. destruct (eval objs c (bytes s0)) as [r w] eqn:Ev. exists r, w. intros s Hs.
  assert (Hre : restartable objs N c (bytes s0) s).
  { induction Hs as [|s1 x y s2 _ IH Hx Hy Hrec]; [done|].
    pose proof (runs_always _ _ _ _ (restartable_runs Hboard objs N Ho st c _ s1 HN Ht Hst Hroom IH) x Hx) as Hrb.
    destruct (rolls_back_restartable Hboard objs N c _ x y HN Hrb Hy) as (s3 & E & Hs3). rewrite E in Hrec. by injection Hrec as <-. }
  pose proof (restartable_runs Hboard objs N Ho st c _ s HN Ht Hst Hroom Hre) as Hruns. split.
  - destruct (runs_exec _ _ _ _ Hruns) as (r' & s' & E & Hr). rewrite Ev in Hr. injection Hr as -> <-. eauto.
  - intros x y Hx Hy. destruct (rolls_back_restartable Hboard objs N c _ x y HN (runs_always _ _ _ _ Hruns x Hx) Hy) as (s' & E & _). eauto.
Qed.

Module example.
#[local] Existing Instances cortex_m qemu.

(** Two bytes: the second becomes one more than the first, then the first becomes nine;
    and a memory in which they are 5 and 0. *)
Definition demo_objs (i : nat) : nat * nat := match i with 0 => (0, 1) | 1 => (1, 1) | _ => (0, 0) end%nat.
Definition demo_client : client (list Z) :=
  CCall 0 PRef (MRead id) (λ x, CCall 1 PRef (MWrite [default 0 (head x) + 1]) (λ _, CCall 0 PRefWLog (MWriteWith (λ _, ([], [9]))) (λ _, CRet x))).
Definition mem_of (w : list Z) : pmem := {| bytes := w; journal := journal_new |}.
Definition demo_rolled_back : pmem :=
  match crash_at 6 (run demo_objs demo_client) (mem_of [5; 0]) with
  | Some x => match exec journal_recover x with Done _ s => s | Failed _ => mem_of [] end
  | None => mem_of []
  end.
Lemma demo_objs_ok : objs_ok demo_objs 2.
Proof.
  split.
  - intros [|[|i]]; cbn; lia.
  - intros [|[|i]]; repeat split; vm_compute; congruence.
  - intros i j Hij p Hi Hj. apply elem_of_range in Hi, Hj. destruct i as [|[|i]], j as [|[|j]]; cbn in *; lia.
Qed.
Lemma demo_typed : typed demo_objs (λ _, PRef) demo_client.
Proof. cbn. split_and!; [done..|]. intros x. split_and!; [done..|]. intros y. by split_and!. Qed.
Lemma demo_interrupted : interrupted (run demo_objs demo_client) (mem_of [5; 0]) demo_rolled_back.
Proof.
  destruct (crash_at 6 (run demo_objs demo_client) (mem_of [5; 0])) as [x|] eqn:E; [|by vm_compute in E].
  assert (Er : exec journal_recover x = Done tt demo_rolled_back).
  { unfold demo_rolled_back. rewrite E. vm_compute in E. injection E as <-. by vm_compute. }
  eapply int_again; [apply int_none|by eapply (list_elem_of_lookup_2 _ 6)|apply rec_none|exact Er].
Qed.

(** Power fails when both bytes have been stored. The first one is rolled back, the
    second one is not. *)
Lemma typed_pointers_reexecutable_witness :
  bytes demo_rolled_back = [5; 6] ∧ interrupted (run demo_objs demo_client) (mem_of [5; 0]) demo_rolled_back ∧
  ∃ s', exec (run demo_objs demo_client) demo_rolled_back = Done [5] s' ∧ bytes s' = [9; 6].
Proof.
  split; [by vm_compute|]. split; [exact demo_interrupted|].
  destruct (typed_pointers_reexecutable demo_objs 2 (λ _, PRef) demo_client (mem_of [5; 0]) PmemSpec.example.qemu_ok demo_objs_ok
    (jrepr_new PmemSpec.example.qemu_ok) ltac:(reflexivity) demo_typed ltac:(by left) ltac:(vm_compute; congruence)) as (r & w & Hall).
  destruct (proj1 (Hall _ (int_none _ _))) as (s1 & E1 & Hw). vm_compute in E1. injection E1 as <- <-. cbn in Hw. subst w.
  exact (proj1 (Hall _ demo_interrupted)).
Defined.

(** [PStatic::as_pref] gives a new reference whenever it is called, also inside of a
    transaction: the value is read through one of them, and written through the next
    one without a log. After a power failure it is incremented twice. *)
Definition increment : prog pmem unit :=
  let counter := {| pb_ptr := 0; pb_size := 1 |} in
  let* n := pref_read (pstatic_as_pref counter) (λ x, default 0 (head x)) in
  pref_write (pstatic_as_pref counter) [n + 1].
Theorem two_references_increment_twice :
  exec increment (mem_of [5]) = Done tt (mem_of [6]) ∧
  ∃ s, interrupted increment (mem_of [5]) s ∧ exec increment s = Done tt (mem_of [7]).
Proof.
  split; [reflexivity|]. exists (mem_of [6]). split; [|reflexivity].
  apply (int_again _ _ (mem_of [5]) (mem_of [6]) (mem_of [6])); [apply int_none| |apply rec_none|by vm_compute].
  apply (list_elem_of_lookup_2 _ 1). by vm_compute.
Qed.
End example.
