(* ===== verification/System.v ===== *)
(** * The kernel as a system

    The routines of the scheduler, interleaved: a tick interrupt may come whenever
    the processor accepts interrupts, a switch may be pending, and the current task
    makes the list operations of its system calls. In every reachable state the
    lists are well formed, and no routine panics or does something undefined. *)

From Stdlib Require Import Sorting.Sorted.
From stdpp Require Import relations.
From S2P Require Import Prelude Arch Pmem TxCache Transaction Replay UserTx Util PList PListUpd PListSeg PListSorted PListLinear.
From S2P Require Import ListRepr Kernel ListTx Sched SchedInv SchedDemo SchedSpec SchedVal SchedOps SchedTick SchedSwitch Blocking BlockingOps.

(** ** What every step of a program keeps

    [Keeps R p]: whatever [p] does, the states before and after it are related. The
    proofs follow the syntax of the program. *)
Definition Keeps {S A} (R : relation S) (p : prog S A) : Prop := ∀ s a s', exec p s = Done a s' → R s s'.

Section keeps.
Context {S : Type} (R : relation S) `{!PreOrder R}.

Lemma keeps_ret {A} (a : A) : Keeps R (Ret a).
Proof. intros s b s' [= <- <-]. reflexivity. Qed.
Lemma keeps_fail {A} e : Keeps R (Fail e : prog S A).
Proof. by intros s b s'. Qed.
Lemma keeps_read {A} (g : S → prog S A) : (∀ s, Keeps R (g s)) → Keeps R (Read g).
Proof. intros Hg s b s' E. exact (Hg s s b s' E). Qed.
Lemma keeps_bind {A B} (p : prog S A) (g : A → prog S B) : Keeps R p → (∀ a, Keeps R (g a)) → Keeps R (bind p g).
Proof. intros Hp Hg s b s' (a & s1 & E1 & E2)%exec_bind_inv. etrans; [by eapply Hp|by eapply Hg]. Qed.
Lemma keeps_modify (f : S → S) : (∀ s, R s (f s)) → Keeps R (modify f).
Proof. intros Hf s b s' [= <- <-]. apply Hf. Qed.
Lemma keeps_zoom {T A} `{!Lens T S} `{!LensLaws T S} (p : prog T A) : (∀ x s, R s (lset x s)) → Keeps R (zoom p).
Proof. intros Hl s b s' E. rewrite exec_zoom in E. destruct (exec p (lget s)); [|done]. injection E as <- <-. apply Hl. Qed.
End keeps.

(** Nobody touches the generations of the tasks and the state of the boot. *)
Definition same_generation (k k' : kernel) : Prop :=
  boot k' = boot k ∧ ∀ t, (generation ∘ utask) <$> tasks k' !! t = (generation ∘ utask) <$> tasks k !! t.
#[export] Instance same_generation_preorder : PreOrder same_generation.
Proof.
  split; [done|]. intros k1 k2 k3 [E1 G1] [E2 G2]. split; [congruence|]. intros t. by rewrite G2.
Qed.

Lemma generation_alter f t k :
  (∀ b, generation (utask (f b)) = generation (utask b)) → same_generation k (with_tasks (alter f t) k).
Proof.
  intros Hf. split; [done|]. intros t'. cbn. destruct (decide (t' = t)) as [->|?]; [rewrite lookup_alter_eq|by rewrite lookup_alter_ne].
  destruct (tasks k !! t); [|done]. cbn. by rewrite Hf.
Qed.

Create HintDb keeps discriminated.

Section generation.
Context `{Arch, Board, TxFeatures} (time_bits : Z).

(** Follow the program down to the steps of the hint database. *)
Ltac solve_keeps :=
  repeat match goal with
    | |- Keeps _ (bind _ _) => apply (keeps_bind _); [|intros ?]
    | |- Keeps _ (Read _) => apply (keeps_read _); intros ?
    | |- Keeps _ (Ret _) => apply (keeps_ret _)
    | |- Keeps _ (Fail _) => apply (keeps_fail _)
    | |- Keeps _ (modify _) => apply (keeps_modify _); intros ?; by (split; [|intros ?])
    | |- Keeps _ (match ?x with _ => _ end) => destruct x
    | |- Keeps _ ?p => first [solve [auto 2 with keeps nocore] | let h := get_head p in unfold h]
  end.

Lemma keeps_on_lists {A} (p : prog _ A) : Keeps same_generation (on_lists p).
Proof. by apply (keeps_zoom _). Qed.
#[local] Hint Resolve keeps_on_lists : keeps.
Lemma keeps_cpu {A} (p : prog cpu A) : Keeps same_generation (zoom p).
Proof. by apply (keeps_zoom _). Qed.
#[local] Hint Resolve keeps_cpu : keeps.
Lemma keeps_set_status t st : Keeps same_generation (set_status t st).
Proof. unfold set_status. apply (keeps_bind _); [solve_keeps|]. intros _. apply (keeps_modify _). intros k. by apply generation_alter. Qed.
#[local] Hint Resolve keeps_set_status : keeps.
Lemma keeps_set_list_tx_done t d : Keeps same_generation (set_list_tx_done t d).
Proof.
  intros k a k' E. destruct (tasks k !! t) as [b|] eqn:Hb.
  - rewrite (exec_set_list_tx_done t d k b Hb) in E. injection E as <- <-. by apply generation_alter.
  - unfold set_list_tx_done, on_task in E. rewrite exec_bind in E. unfold deref_task in E. cbn in E. by rewrite Hb in E.
Qed.
#[local] Hint Resolve keeps_set_list_tx_done : keeps.

Lemma keeps_wake_loop fuel now : Keeps same_generation (wake_loop fuel now).
Proof. induction fuel as [|fuel IH]; cbn [wake_loop]; solve_keeps. Qed.
#[local] Hint Resolve keeps_wake_loop : keeps.

Lemma generation_tick : Keeps same_generation (process_tick time_bits false).
Proof. solve_keeps. Qed.
Lemma generation_delay yield n : Keeps same_generation (task_delay time_bits yield n false).
Proof. solve_keeps. Qed.
Lemma generation_block t wl n : Keeps same_generation (with_no_interrupt (block_or_exit time_bits t wl n None tt)).
Proof. solve_keeps. Qed.
Lemma generation_wake wl : Keeps same_generation (with_no_interrupt (roll_forward_pop_remove_from_waitlist wl)).
Proof. solve_keeps. Qed.
End generation.

(** ** The system *)

(** What happens next: the interrupt of the timer, the switch that it or a yield
    has made pending, or a call of the current task: it delays itself, blocks on a
    wait list after an attempt, wakes the first waiter, or ends a system call. *)
Inductive event := ETick | ESwitch | EDelay (n : Z) | EBlock (wl : nat) (n : Z) | EWake (wl : nat) | EEnd.

Section system.
Context `{Arch, Board, TxFeatures} (time_bits : Z).
(** The wait lists of the objects, and the idle task. *)
Context (waitlists : list nat) (idle : nat).
Implicit Types (k : kernel) (C : contents).

Definition perform (e : event) : prog kernel unit :=
  match e with
  | ETick => process_tick time_bits false
  | ESwitch => task_switch
  | EDelay n => task_delay time_bits skip n false
  | EBlock wl n =>
      let* t := current in
      let* _ := with_no_interrupt (block_or_exit time_bits t wl n None tt) in
      skip
  | EWake wl => with_no_interrupt (roll_forward_pop_remove_from_waitlist (WaitList wl))
  | EEnd => let* t := current in on_task t reset_list_transaction
  end.

(** A task makes a list operation when it runs and has not made one in this
    system call; the idle task does not wait; times do not overflow. *)
Definition may_call k (waits : bool) : bool :=
  match current_task k with
  | Some t => negb (waits && (t =? idle)%nat) &&
      match tasks k !! t with Some b => is_schedulable b && negb (list_tx_done (utask b)) | None => false end
  | None => false
  end.
Definition enabled (e : event) k : bool :=
  match e with
  | ETick => tick_counter (tm k) + 1 <? 2 ^ time_bits
  | ESwitch | EEnd => true
  | EDelay n => may_call k true && (tick_counter (tm k) + n <=? MAX_DELAY_TIME time_bits)
  | EBlock wl n => may_call k true && bool_decide (wl ∈ waitlists) && (tick_counter (tm k) + n <=? MAX_DELAY_TIME time_bits)
  | EWake wl => may_call k false && bool_decide (wl ∈ waitlists)
  end.

Definition step k k' : Prop := ∃ e, enabled e k = true ∧ exec (perform e) k = Done tt k'.

(** The invariant. *)
Record sys_ok k C : Prop := {
  so_kinv : kinv k C None;
  so_waiters : waiters_blocked (tasks k) C;
  so_unblock : unblock_ok k C;
  so_running : ∀ t b, tasks k !! t = Some b → status b = Running → current_task k = Some t;
  so_current : ∃ t b, current_task k = Some t ∧ tasks k !! t = Some b;
  so_generation : ∀ t b, tasks k !! t = Some b → generation (utask b) = current_generation (boot k);
  so_idle : ∃ b, tasks k !! idle = Some b ∧ is_schedulable b = true;
  so_cpu : cpu_ok k;
  so_time : 0 ≤ tick_counter (tm k);
  so_lists : ∀ wl, wl ∈ waitlists → is_Some (C !! WaitList wl);
}.

(** *** Lists are not lost *)

Definition lists_kept C C' : Prop := ∀ l, is_Some (C !! l) → is_Some (C' !! l).
Lemma kept_drop n C : lists_kept C (drop_node n C).
Proof. intros l [xs HC]. rewrite (drop_node_lookup _ _ _ _ HC). eauto. Qed.
Lemma kept_alter f l C : lists_kept C (alter f l C).
Proof. intros l' Hs. by apply lookup_alter_is_Some. Qed.
Lemma kept_trans C1 C2 C3 : lists_kept C1 C2 → lists_kept C2 C3 → lists_kept C1 C3.
Proof. unfold lists_kept. eauto. Qed.
Lemma kept_sorted gt l e C : lists_kept C (insert_sorted gt l e C).
Proof. apply kept_alter. Qed.
Lemma kept_sleep ts t w C : lists_kept C (sleep ts t w C).
Proof. eapply kept_trans; [apply kept_drop|apply kept_sorted]. Qed.
Lemma kept_block_on ts wl t o w C : lists_kept C (block_on ts wl t o w C).
Proof. do 2 (eapply kept_trans; [|apply kept_sorted]). apply kept_drop. Qed.
Lemma kept_wake ts t w C : lists_kept C (wake ts t w C).
Proof.
  unfold wake. destruct (ts !! t); [|by intros ?]. eapply kept_trans; [|apply kept_alter].
  eapply kept_trans; apply kept_drop.
Qed.
Lemma kept_wake_all ts us C : lists_kept C (wake_all ts us C).
Proof. revert C; induction us as [|u us IH]; intros C; [by intros ?|]. eapply kept_trans; [apply kept_wake|apply IH]. Qed.

(** *** The steps *)

(** What the states [ts] of the tasks must satisfy. *)
Definition states_ok (c : option nat) (ts : gmap nat tcb) : Prop :=
  (∀ t b, ts !! t = Some b → status b = Running → c = Some t) ∧
  (∃ b, ts !! idle = Some b ∧ is_schedulable b = true) ∧ ∃ t b, c = Some t ∧ ts !! t = Some b.

Lemma ok_states k C : sys_ok k C → states_ok (current_task k) (tasks k).
Proof. intros []. by split_and!. Qed.

Lemma states_set c st t ts :
  states_ok c ts → st ≠ Running → (st = Ready ∨ idle ≠ t) → states_ok c (set_state st t ts).
Proof.
  intros (Hrun & (b & Hb & Hs) & (t' & b' & Hc & Hb')) Hst Hi. split_and!.
  - intros t1 b1 Hb1 Hr. rewrite set_state_lookup in Hb1. case_decide; [|by eapply Hrun].
    destruct (ts !! t1); [|done]. by injection Hb1 as <-.
  - rewrite set_state_lookup, Hb. case_decide; [|by eauto]. eexists. split; [done|]. unfold is_schedulable. cbn.
    by destruct Hi as [->|?].
  - exists t'. rewrite set_state_lookup, Hb'. case_decide; eauto.
Qed.

Lemma states_same c ts ts' : same_status ts ts' → states_ok c ts → states_ok c ts'.
Proof.
  intros E (Hrun & (b & Hb & Hs) & (t' & b' & Hc & Hb')). split_and!.
  - intros t1 b1 Hb1 Hr. destruct (same_status_lookup _ _ _ _ E Hb1) as (b0 & Hb0 & Es). eapply Hrun; [done|congruence].
  - specialize (E idle). rewrite Hb in E. destruct (ts' !! idle) as [b2|] eqn:Eb; [|done]. injection E as _ E.
    exists b2. split; [done|]. unfold is_schedulable in *. by rewrite E.
  - specialize (E t'). rewrite Hb' in E. destruct (ts' !! t') as [b2|] eqn:Eb; [|done]. by exists t', b2.
Qed.

(** A step that leaves the states [ts] of the tasks and the lists [C']. *)
Lemma ok_step k k' C C' ts :
  sys_ok k C → same_generation k k' → states_ok (current_task k) ts → same_status ts (tasks k') → lists_kept C C' →
  kinv k' C' None → waiters_blocked (tasks k') C' → unblock_ok k' C' →
  current_task k' = current_task k → kcpu k' = kcpu k → tick_counter (tm k) ≤ tick_counter (tm k') → sys_ok k' C'.
Proof.
  intros [Hk Hw Hu _ _ Hgen _ Hcpu Ht Hwl] [Eb Eg] Hts Est Hl Hk' Hw' Hu' Ec Ecpu Et.
  destruct (states_same _ _ _ Est Hts) as (? & ? & ?). split; rewrite ?Ec; try done.
  - intros t' b' Hb'. specialize (Eg t'). rewrite Hb' in Eg. destruct (tasks k !! t') as [b|] eqn:Hb; [|done].
    cbn in Eg. injection Eg as ->. rewrite Eb. by eapply Hgen.
  - unfold cpu_ok. by rewrite Ecpu.
  - lia.
  - intros wl Hin. by apply Hl, Hwl.
Qed.

(** A task of a system that may make a call has its event node free. *)
Lemma may_call_spec k C waits :
  sys_ok k C → may_call k waits = true →
  ∃ t b o, current_task k = Some t ∧ tasks k !! t = Some b ∧ is_schedulable b = true ∧ list_tx_done (utask b) = false ∧
    (waits = true → idle ≠ t) ∧ free (ls k) (EventNode t) (BlockItem t o).
Proof.
  intros [Hk Hw _ _ _ _ _ _ _ _] Hm. unfold may_call in Hm. destruct (current_task k) as [t|]; [|done].
  apply andb_true_iff in Hm as [Hi Hm]. destruct (tasks k !! t) as [b|] eqn:Hb; [|done]. apply andb_true_iff in Hm as [Hs Hd].
  destruct (k_event _ _ _ _ Hk t b Hb) as [[o Ho]|Hwait].
  - exists t, b, o. split_and!; try done; [by destruct (list_tx_done (utask b))|]. intros ->. cbn in Hi.
    by destruct (Nat.eqb_spec t idle).
  - exfalso. unfold is_schedulable in Hs. by rewrite (Hw t b Hb Hwait) in Hs.
Qed.

Lemma asleep_unblock k k' C C' w :
  unblock_ok k C → next_unblock_time (tm k') = Z.min (next_unblock_time (tm k)) w →
  (∀ t' w', in_list C' DelayList (SchedNode t', SchedItem t' w') → w' = w ∨ in_list C DelayList (SchedNode t', SchedItem t' w')) →
  unblock_ok k' C'.
Proof.
  intros Hu En Hin t' w' [->|Hd]%Hin; rewrite En; [lia|]. specialize (Hu _ _ Hd). lia.
Qed.
Lemma in_list_asleep gt t w C t' w' :
  in_list (insert_sorted gt DelayList (SchedNode t, SchedItem t w) C) DelayList (SchedNode t', SchedItem t' w') →
  w' = w ∨ in_list C DelayList (SchedNode t', SchedItem t' w').
Proof. intros [[_ [= _ ->]]|?]%in_list_sorted; auto. Qed.

Lemma delay_step_ok k C n :
  sys_ok k C → enabled (EDelay n) k = true → ∃ k' C', exec (perform (EDelay n)) k = Done tt k' ∧ sys_ok k' C'.
Proof.
  intros Hok [Hm Hmax]%andb_true_iff. destruct (may_call_spec k C true Hok Hm) as (t & b & o & Hc & Hb & Hs & Hd & Hi & Hf).
  pose proof Hok as [Hk Hw Hu _ _ _ _ Hcpu _ _]. set (w := tick_counter (tm k) + n).
  destruct (delay_current (masked k) C t b w Hk Hc Hb Hs Hd) as (k1 & Hex & Hk1 & Hsl).
  pose proof Hsl as (Est & En & Et & Ec & Ecpu & Em & Hl).
  assert (Hex' : exec (perform (EDelay n)) k = Done tt (lset (kcpu k) k1)).
  { cbn [perform]. unfold task_delay. rewrite (exec_bind_done _ _ _ tt (lset (kcpu k) k1)); [done|].
    apply exec_critical; [done| |done]. run (exec_current (masked k) t Hc).
    rewrite (exec_bind_done _ _ _ (tick_counter (tm k)) (masked k)) by done. unfold time_checked_add. by rewrite Hmax. }
  assert (Hu1 : unblock_ok (lset (kcpu k) k1) (sleep (tasks k) t w C)).
  { eapply asleep_unblock; [exact Hu|exact En|]. intros t' w' [->|[Hin _]%in_list_drop]%in_list_asleep; auto. }
  exists (lset (kcpu k) k1), (sleep (tasks k) t w C). split; [done|].
  apply (ok_step k _ C _ (set_state Blocked t (tasks k)) Hok); try done;
    [by eapply generation_delay|apply states_set; [by apply (ok_states k C)|done|by right; apply Hi]|apply kept_sleep| |by cbn; rewrite Et].
  eapply waiters_join; [exact Hw|exact Est|]. intros t' Hwt. right. by eapply waiting_dropped, waiting_asleep.
Qed.

Lemma block_ok k C wl n :
  sys_ok k C → enabled (EBlock wl n) k = true → ∃ k' C', exec (perform (EBlock wl n)) k = Done tt k' ∧ sys_ok k' C'.
Proof.
  intros Hok [[Hm Hin]%andb_true_iff Hmax]%andb_true_iff. apply bool_decide_eq_true in Hin.
  destruct (may_call_spec k C true Hok Hm) as (t & b & o & Hc & Hb & Hs & Hd & Hi & Hf).
  pose proof Hok as [Hk Hw Hu _ _ _ _ Hcpu _ Hwl]. destruct (Hwl wl Hin) as [xs HC].
  set (p := with_no_interrupt (block_or_exit time_bits t wl n None tt)).
  assert (Hp : ∀ a k', exec p k = Done a k' → exec (perform (EBlock wl n)) k = Done tt k').
  { intros a k' E. cbn [perform]. run (exec_current k t Hc). fold p. by run E. }
  destruct (Z.eqb_spec n 0) as [->|Hn].
  - exists (lset (kcpu k) (masked k)), C. split.
    + eapply Hp. apply exec_critical; done.
    + by destruct k.
  - set (w := tick_counter (tm k) + n).
    destruct (insert_into_waitlist_refines (masked k) C wl t b o w xs Hk Hb Hs HC Hf) as (k1 & Hex & Hk1 & Hsl).
    pose proof Hsl as (Est & En & Et & Ec & Ecpu & Em & Hl).
    assert (Hex' : exec p k = Done (Yield w) (lset (kcpu k) k1)).
    { apply exec_critical; [done| |done]. unfold block_or_exit. rewrite (proj2 (Z.eqb_neq n 0)) by done.
      rewrite (exec_bind_done _ _ _ w (masked k)); [by run Hex|]. unfold wakeup_at, get_ticks, time_checked_add. cbn.
      unfold w in *. by rewrite Hmax. }
    exists (lset (kcpu k) k1), (block_on (tasks k) wl t o w C). split; [by eapply Hp|].
    apply (ok_step k _ C _ (set_state Blocked t (tasks k)) Hok); try done;
      [by eapply generation_block|apply states_set; [by apply (ok_states k C)|done|by right; apply Hi]|apply kept_block_on
      |by eapply waiters_blocking| |by cbn; rewrite Et].
    eapply asleep_unblock; [exact Hu|exact En|].
    intros t' w' [->|[[[=] _]|[Hd' _]%in_list_drop]%in_list_sorted]%in_list_asleep; auto.
Qed.

(** Waking a task. *)
Lemma wake_unblock k k' C ts t w :
  unblock_ok k C → next_unblock_time (tm k') = next_unblock_time (tm k) → unblock_ok k' (wake ts t w C).
Proof.
  intros Hu En t' w' Hin. rewrite En. apply (Hu t'). unfold wake in Hin. destruct (ts !! t); [|done].
  apply in_list_append in Hin as [[[=] _]|[[Hin _]%in_list_drop _]%in_list_drop]. exact Hin.
Qed.

Lemma wake_ok k C wl :
  sys_ok k C → enabled (EWake wl) k = true → ∃ k' C', exec (perform (EWake wl)) k = Done tt k' ∧ sys_ok k' C'.
Proof.
  intros Hok [Hm Hin]%andb_true_iff. apply bool_decide_eq_true in Hin.
  destruct (may_call_spec k C false Hok Hm) as (c & bc & _ & Hc & Hbc & _ & Hd & _).
  pose proof Hok as [Hk Hw Hu _ _ _ _ Hcpu _ Hwl]. destruct (Hwl wl Hin) as [xs HC].
  destruct (wake_waiter (masked k) C wl xs c bc Hk Hw HC Hc Hbc Hd)
    as (k1 & C' & ts & Hex & Hk1 & Hw1 & Est & (Etm & Ec & Ecpu & Em & _) & _ & Hwk).
  assert (Hex' : exec (perform (EWake wl)) k = Done tt (lset (kcpu k) k1)) by (by apply exec_critical).
  exists (lset (kcpu k) k1), C'. split; [done|]. pose proof (generation_wake _ _ _ _ Hex') as Hg.
  destruct xs as [|e xs].
  - destruct Hwk as [-> ->]. apply (ok_step k _ C _ (tasks k) Hok); try done;
      [by apply (ok_states k C)|by intros ?| |by cbn; rewrite Etm].
    intros t w. cbn. rewrite Etm. apply Hu.
  - destruct Hwk as (t & o & w & -> & Hin' & -> & ->). apply (ok_step k _ C _ (set_state Ready t (tasks k)) Hok); try done;
      [apply states_set; [by apply (ok_states k C)|done|by left]|apply kept_wake| |by cbn; rewrite Etm].
    apply (wake_unblock k); [done|]. by cbn; rewrite Etm.
Qed.

(** The tick. *)
Lemma states_ready_all c us : ∀ ts, states_ok c ts → states_ok c (ready_all us ts).
Proof. induction us as [|u us IH]; intros ts Hts; [done|]. apply IH, states_set; [done..|by left]. Qed.
Lemma waiters_ready_all us : ∀ ts C, waiters_blocked ts C → waiters_blocked (ready_all us ts) (wake_all ts us C).
Proof.
  induction us as [|[t w] us IH]; intros ts C Hw; [done|].
  change (waiters_blocked (ready_all us (set_state Ready t ts)) (wake_all ts us (wake ts t w C))).
  rewrite <-(wake_all_prio ts (set_state Ready t ts)) by apply set_state_prio. apply IH. by eapply waiters_woken.
Qed.

Lemma tick_ok k C :
  sys_ok k C → enabled ETick k = true → ∃ k' C', exec (perform ETick) k = Done tt k' ∧ sys_ok k' C' ∧
    ∀ t w, in_list C' DelayList (SchedNode t, SchedItem t w) → tick_counter (tm k') < w.
Proof.
  intros Hok Hlt%Z.ltb_lt. pose proof Hok as [Hk Hw Hu _ _ _ _ Hcpu Ht _].
  destruct (k_delay _ _ _ _ Hk) as (dl & HC & _). set (us := due (tick_counter (tm k) + 1) dl).
  destruct (process_tick_body_correct time_bits (masked k) C dl Hk HC Hu Ht Hlt)
    as (k1 & Hex & Hk1 & Ets & Etick & Hu1 & Hlate & Ec & Ecpu & _). change (tasks (masked k)) with (tasks k) in *.
  assert (Hex' : exec (perform ETick) k = Done tt (lset (kcpu k) k1)).
  { apply exec_critical; [done| |done]. by run Hex. }
  exists (lset (kcpu k) k1), (wake_all (tasks k) us C). split; [done|]. fold us in Ets.
  split; [|intros t w Hin; cbn; rewrite Etick; by eapply Hlate].
  apply (ok_step k _ C _ (ready_all us (tasks k)) Hok); try done.
  - by eapply generation_tick.
  - by apply states_ready_all, (ok_states k C).
  - cbn. by rewrite Ets.
  - apply kept_wake_all.
  - cbn. rewrite Ets. by apply waiters_ready_all.
  - cbn. rewrite Etick. cbn. lia.
Qed.

(** The end of a system call. *)
Lemma end_ok k C :
  sys_ok k C → ∃ k' C', exec (perform EEnd) k = Done tt k' ∧ sys_ok k' C'.
Proof.
  intros Hok. pose proof Hok as [Hk Hw Hu _ (t & b & Hc & Hb) _ _ _ _ _].
  pose proof (exec_set_list_tx_done t false k b Hb) as Hex. pose proof (flagged_status t false k) as Est.
  exists (flagged t false k), C. split; [cbn [perform]; by run (exec_current k t Hc)|].
  apply (ok_step k _ C _ (tasks k) Hok); try done.
  - by eapply keeps_set_list_tx_done.
  - by apply (ok_states k C).
  - by intros ?.
  - by eapply sinv_status.
  - by eapply waiters_status.
Qed.

(** *** The switch *)

(** Some priority is the highest, because the idle task is ready. *)
Lemma top_exists k C t b :
  kinv k C None → tasks k !! t = Some b → is_schedulable b = true → ∃ p x xs, top_priority C p ∧ C !! ReadyList p = Some (x :: xs).
Proof.
  intros Hk Hb Hs.
  assert (Hq : ∃ e xs, (priority b < 8)%nat ∧ C !! ReadyList (priority b) = Some xs ∧ e ∈ xs).
  { destruct (k_sched _ _ _ _ Hk t b Hb) as [? [[? _]|[_ [[Hst _]|[_ (w & xs & ? & ?)]]]]]; [done| |by eexists _, xs].
    unfold is_schedulable in Hs. by rewrite Hst in Hs. }
  destruct Hq as (e & xs & Hp & HC & He).
  assert (Hmin : ∀ n, (n ≤ 8)%nat → (∀ q, (q < n)%nat → C !! ReadyList q = Some []) ∨
    ∃ p x xs, top_priority C p ∧ C !! ReadyList p = Some (x :: xs)).
  { induction n as [|n IH]; intros Hn; [left; lia|]. destruct IH as [Hlow|?]; [lia| |by right].
    destruct (k_ready _ _ _ _ Hk n) as [[|x ys] HCn]; [lia| |].
    - left. intros q Hq. destruct (decide (q = n)) as [->|?]; [done|]. apply Hlow. lia.
    - right. exists n, x, ys. split; [|done]. split; [lia|]. split; [by eauto|done]. }
  destruct (Hmin 8%nat) as [Hlow|?]; [done| |done]. rewrite Hlow in HC by done. injection HC as <-. by inversion He.
Qed.

(** Rotating a ready list. *)
Lemma in_list_rotate C p x xs l e :
  C !! ReadyList p = Some (x :: xs) → in_list (<[ReadyList p := xs ++ [x]]> C) l e → in_list C l e.
Proof.
  intros HC (ys & HC' & He). apply lookup_insert_Some in HC' as [[<- <-]|[_ HC']]; [|by exists ys].
  exists (x :: xs). split; [done|]. set_solver.
Qed.

(** The states after a switch to [t]. *)
Lemma switch_states_is_Some t prev ts i : is_Some (ts !! i) → is_Some (switch_states t prev ts !! i).
Proof.
  intros Hi. unfold switch_states, set_state. destruct (alter _ t ts !! prev); [case_decide|]; by rewrite ?lookup_alter_is_Some.
Qed.
Lemma states_switch c t prev b ts :
  states_ok (Some c) ts → c = prev → ts !! t = Some b → is_schedulable b = true → t ≠ prev →
  states_ok (Some t) (switch_states t prev ts).
Proof.
  intros (Hrun & (bi & Hbi & Hsi) & _) -> Hb Hs Hne.
  pose proof (switch_states_is_Some t prev ts) as Hdom.
  split_and!.
  - intros t1 b1 Hb1 Hr. apply switch_states_lookup in Hb1 as (b0 & Hb0 & _ & _ & E); [|done]. rewrite Hr in E.
    repeat case_decide; subst; try done. specialize (Hrun t1 b0 Hb0 (eq_sym E)). congruence.
  - destruct (Hdom idle) as [b' Hb']; [by eauto|]. exists b'. split; [done|].
    apply switch_states_lookup in Hb' as (b0 & Hb0 & _ & _ & E); [|done]. rewrite Hbi in Hb0. injection Hb0 as <-.
    unfold is_schedulable in *. rewrite E. destruct (decide (idle = t)); [done|]. destruct (decide (idle = prev)); [|done].
    destruct (status bi); done.
  - destruct (Hdom t) as [b' Hb']; [by eauto|]. by exists t, b'.
Qed.

Lemma switch_ok k C :
  debug_assertions = false → sys_ok k C → ∃ k' C', exec task_switch k = Done tt k' ∧ sys_ok k' C' ∧
    ∃ t b, current_task k' = Some t ∧ tasks k' !! t = Some b ∧ is_schedulable b = true ∧
      ∀ t' b', tasks k' !! t' = Some b' → is_schedulable b' = true → (priority b ≤ priority b')%nat.
Proof.
  intros Hdebug Hok. pose proof (ok_states k C Hok) as Hst.
  pose proof Hok as [Hk Hw Hu _ (prev & bp & Hc & Hbp) Hgen (bi & Hbi & Hsi) Hcpu Ht Hwl].
  destruct (top_exists k C idle bi Hk Hbi Hsi) as (p & x & xs & Htop & HC).
  destruct (task_switch_cases k C prev bp p x xs Hk Hc Hbp Hgen Htop HC) as (t & w & b & Ee & Hb & Hpb & Hs & Hcase).
  assert (Hmin : ∀ t' b', tasks k !! t' = Some b' → is_schedulable b' = true → (priority b ≤ priority b')%nat)
    by (rewrite Hpb; intros; by eapply queued_top).
  case_decide as Hne.
  { rewrite Hdebug in Hcase. subst t. exists k, C. do 2 (split; [done|]). by exists prev, b. }
  destruct Hcase as (k' & Hex & Hk' & Ets & Hc' & Etm & Ecpu & Eb). rewrite Hc in Hst.
  destruct (states_switch prev t prev b (tasks k) Hst eq_refl Hb Hs Hne) as (? & ? & ?). 
  exists k', (<[ReadyList p := xs ++ [x]]> C). split; [done|]. split; [split; rewrite ?Hc', ?Ets; try done|].
  - intros t' b' Hb' (wl & o & Hin%(in_list_rotate C p x xs)); [|done].
    apply switch_states_lookup in Hb' as (b0 & Hb0 & _ & _ & E); [|done].
    assert (Hbl : status b0 = Blocked) by (eapply Hw; [done|by exists wl, o]). rewrite E, Hbl.
    repeat case_decide; try done. subst. rewrite Hb in Hb0. injection Hb0 as <-. unfold is_schedulable in Hs. by rewrite Hbl in Hs.
  - intros t' w' Hin%(in_list_rotate C p x xs); [|done]. rewrite Etm. by eapply Hu.
  - intros t' b' Hb'. apply switch_states_lookup in Hb' as (b0 & Hb0 & _ & -> & _); [|done].
    rewrite Eb. by eapply Hgen.
  - unfold cpu_ok. by rewrite Ecpu.
  - by rewrite Etm.
  - intros wl Hin. apply lookup_insert_is_Some'. right. by apply Hwl.
  - destruct (switch_states_is_Some t prev (tasks k) t) as [b1 Hb1]; [by eauto|]. rewrite Ets, Hc'. exists t, b1.
    pose proof Hb1 as (b0 & Hb0 & Ep & _ & E)%switch_states_lookup; [|done]. rewrite decide_True in E by done.
    rewrite Hb in Hb0. injection Hb0 as <-. do 2 (split; [done|]). split; [unfold is_schedulable; by rewrite E|].
    intros t' b' Hb' Hs'. apply switch_states_lookup in Hb' as (b2 & Hb2 & Ep' & _ & E'); [|done]. rewrite Ep, Ep'.
    destruct (decide (t' = t)) as [->|?]; [rewrite Hb in Hb2; injection Hb2 as <-; lia|]. apply (Hmin t'); [done|].
    unfold is_schedulable in *. rewrite E' in Hs'. destruct (decide (t' = t)); [done|].
    destruct (decide (t' = prev)); [|done]. destruct (k_sched _ _ _ _ Hk t' b2 Hb2) as [_ [[? _]|[_ [[Hst2 _]|[? _]]]]]; [done| |done].
    by rewrite Hst2 in Hs'.
Qed.

(** *** Reachable states *)

Lemma step_ok e k C :
  debug_assertions = false → sys_ok k C → enabled e k = true → ∃ k' C', exec (perform e) k = Done tt k' ∧ sys_ok k' C'.
Proof.
  intros Hdebug Hok He. destruct e.
  - destruct (tick_ok k C Hok He) as (k' & C' & ? & ? & _). eauto.
  - destruct (switch_ok k C Hdebug Hok) as (k' & C' & ? & ? & _). eauto.
  - by apply delay_step_ok with C.
  - by apply block_ok with C.
  - by apply wake_ok with C.
  - by apply end_ok with C.
Qed.

Lemma reachable_ok k0 C0 k : debug_assertions = false → sys_ok k0 C0 → rtc step k0 k → ∃ C, sys_ok k C.
Proof.
  intros Hdebug Hok Hr. revert C0 Hok. induction Hr as [k|k0 k1 k (e & He & Hex) _ IH]; intros C0 Hok; [eauto|].
  destruct (step_ok e k0 C0 Hdebug Hok He) as (k' & C' & Hex' & Hok'). rewrite Hex in Hex'. injection Hex' as <-. eauto.
Qed.

(** C5: Whatever ticks, switches and calls are interleaved, no reachable state fails:
    every routine that may run next runs to its end without panic or undefined
    behaviour and without running out of fuel (in a build without debug assertions). *)
Theorem system_never_fails k0 C0 k e :
  debug_assertions = false → sys_ok k0 C0 → rtc step k0 k → enabled e k = true →
  ∃ k', exec (perform e) k = Done tt k' ∧ step k k'.
Proof.
  intros Hdebug Hok Hr He. destruct (reachable_ok k0 C0 k Hdebug Hok Hr) as [C HokC].
  destruct (step_ok e k C Hdebug HokC He) as (k' & C' & Hex & _). exists k'. split; [done|]. by exists e.
Qed.

(** C6: In every reachable state the lists are well typed and agree with the states
    of the tasks: a ready list holds the schedulable tasks of its priority, the
    delay list the blocked ones, by time; a task is in one of them only; who waits
    on a wait list is also in the delay list; at most the current task is running. *)
Theorem system_well_typed k0 C0 k :
  debug_assertions = false → sys_ok k0 C0 → rtc step k0 k →
  ∃ C, repr is_ready_list (ls k) C ∧ (∀ l xs e, C !! l = Some xs → e ∈ xs → entry_ok (tasks k) l e) ∧
    (∃ dl, C !! DelayList = Some dl ∧ ascending (item_gt (tasks k)) dl) ∧
    ∀ t b, tasks k !! t = Some b →
      (delayed C t ↔ status b = Blocked) ∧ (∀ p, queued C p t ↔ is_schedulable b = true ∧ p = priority b) ∧
      (waiting C t → delayed C t) ∧ (status b = Running → current_task k = Some t).
Proof.
  intros Hdebug Hok Hr. destruct (reachable_ok k0 C0 k Hdebug Hok Hr) as [C [Hk Hw _ Hrun _ _ _ _ _ _]].
  exists C. split; [apply Hk|]. split; [apply (k_entries _ _ _ _ Hk)|]. split; [apply (k_delay _ _ _ _ Hk)|].
  intros t b Hb.
  assert (Hone : ∀ l l' w w', in_list C l (SchedNode t, SchedItem t w) → in_list C l' (SchedNode t, SchedItem t w') → l = l').
  { intros l l' w w' (xs & HC & Hin) (xs' & HC' & Hin').
    by destruct (repr_unique _ _ _ _ _ _ _ _ _ (k_repr _ _ _ _ Hk) HC HC' Hin Hin'). }
  destruct (k_sched _ _ _ _ Hk t b Hb) as [_ [[? _]|[_ Hcase]]]; [done|].
  assert (Hd : status b = Blocked → delayed C t ∧ is_schedulable b = false).
  { intros Hst. unfold is_schedulable in *. rewrite Hst in *. by destruct Hcase as [[_ ?]|[? _]]. }
  assert (Hq : is_schedulable b = true → queued C (priority b) t) by (intros Hs; destruct Hcase as [[Hst _]|[_ ?]];
    [destruct (Hd Hst); congruence|done]).
  assert (Hnot : ∀ p, delayed C t → queued C p t → False).
  { intros p (w & Hin) (w' & Hin'). by specialize (Hone _ _ _ _ Hin Hin'). }
  split_and!.
  - split; [|by intros [? _]%Hd]. intros Hdel. destruct Hcase as [[? _]|[_ Hqu]]; [done|]. by destruct (Hnot _ Hdel Hqu).
  - intros p. split; [|intros [Hs ->]; by apply Hq]. intros Hqu. destruct Hcase as [[_ Hdel]|[Hs (w & Hin)]]; [by destruct (Hnot _ Hdel Hqu)|].
    split; [done|]. destruct Hqu as (w' & Hin'). by injection (Hone _ _ _ _ Hin' Hin).
  - intros Hwt. by apply Hd, (Hw t b).
  - by apply Hrun.
Qed.

(** C9: From every reachable state a tick leaves nobody overdue in the delay list,
    and a switch makes a schedulable task of the highest priority current. *)
Theorem system_schedules k0 C0 k :
  debug_assertions = false → sys_ok k0 C0 → rtc step k0 k →
  (∀ k', enabled ETick k = true → exec (perform ETick) k = Done tt k' →
     ∃ C', kinv k' C' None ∧ ∀ t w, in_list C' DelayList (SchedNode t, SchedItem t w) → tick_counter (tm k') < w) ∧
  (∀ k', exec (perform ESwitch) k = Done tt k' →
     ∃ t b, current_task k' = Some t ∧ tasks k' !! t = Some b ∧ is_schedulable b = true ∧
       ∀ t' b', tasks k' !! t' = Some b' → is_schedulable b' = true → (priority b ≤ priority b')%nat).
Proof.
  intros Hdebug Hok Hr. destruct (reachable_ok k0 C0 k Hdebug Hok Hr) as [C HokC]. split.
  - intros k' He Hex. destruct (tick_ok k C HokC He) as (k1 & C' & Hex' & Hok' & Hlate). rewrite Hex in Hex'. injection Hex' as <-.
    exists C'. split; [apply Hok'|done].
  - intros k' Hex. destruct (switch_ok k C Hdebug HokC) as (k1 & C' & Hex' & _ & Htop). change (perform ESwitch) with task_switch in Hex. rewrite Hex in Hex'.
    by injection Hex' as <-.
Qed.
End system.

Module example.
#[local] Existing Instances cortex_m qemu default_features.

Lemma release : debug_assertions = false.
Proof. done. Qed.
Lemma demo_ok : sys_ok [0%nat; 1%nat] 1 demo demo_contents.
Proof.
  split.
  - exact demo_kinv.
  - exact SchedOps.example.demo_waiters.
  - exact SchedTick.example.demo_unblock.
  - apply SchedSwitch.example.demo_current_ok.
  - by exists 0%nat, (demo_task 1 Running).
  - exact SchedSwitch.example.demo_generation.
  - by exists (demo_task 1 Ready).
  - by vm_compute.
  - by vm_compute.
  - intros wl [->|[->|[]%not_elem_of_nil]%elem_of_cons]%elem_of_cons; by eexists.
Qed.

(** The current task falls asleep, and the other one takes over. *)
Lemma system_never_fails_witness :
  ∃ k1 k2, exec (perform 32 (EDelay 1)) demo = Done tt k1 ∧ exec (perform 32 ESwitch) k1 = Done tt k2.
Proof.
  destruct (system_never_fails 32 [0%nat; 1%nat] 1 demo demo_contents demo (EDelay 1) release demo_ok (rtc_refl _ _)
    ltac:(by vm_compute)) as (k1 & E1 & Hs1).
  destruct (system_never_fails 32 [0%nat; 1%nat] 1 demo demo_contents k1 ESwitch release demo_ok (rtc_once _ _ Hs1) ltac:(reflexivity))
    as (k2 & E2 & _).
  exists k1, k2. split; [exact E1|exact E2].
Defined.
Lemma system_well_typed_witness : ∃ C, repr is_ready_list (ls demo) C ∧ (delayed C 2 ↔ Blocked = Blocked).
Proof.
  destruct (system_well_typed 32 [0%nat; 1%nat] 1 demo demo_contents demo release demo_ok (rtc_refl _ _)) as (C & Hr & _ & _ & Ht).
  exists C. split; [exact Hr|exact (proj1 (Ht 2%nat (demo_task 0 Blocked) eq_refl))].
Defined.
(** The tick wakes task 2, the switch takes task 1. *)
Lemma system_schedules_witness :
  (∃ k' C', exec (perform 32 ETick) demo = Done tt k' ∧ kinv k' C' None) ∧
  ∃ k' t, exec (perform 32 ESwitch) demo = Done tt k' ∧ current_task k' = Some t.
Proof.
  destruct (system_schedules 32 [0%nat; 1%nat] 1 demo demo_contents demo release demo_ok (rtc_refl _ _)) as [Ht Hs]. split.
  - destruct (exec (perform 32 ETick) demo) as [[] k'|] eqn:E; [|by vm_compute in E].
    destruct (Ht k' ltac:(by vm_compute) eq_refl) as (C' & Hk & _). by exists k', C'.
  - destruct (exec (perform 32 ESwitch) demo) as [[] k'|] eqn:E; [|by vm_compute in E].
    destruct (Hs k' eq_refl) as (t & b & Hc & _). by exists k', t.
Defined.

Fixpoint events `{Arch, Board, TxFeatures} (es : list event) : prog kernel unit :=
  match es with [] => skip | e :: es => perform 32 e;;; events es end.

(** Task 2 has run and sleeps; task 1 delays itself by a tick, which passes at once. *)
Definition race : list event := [ETick; ESwitch; EDelay 100; ESwitch; EDelay 1; ETick; ESwitch].
Definition starved : kernel := Eval vm_compute in match exec (events race) demo with Done _ k => k | Failed _ => demo end.

(** A tick between a delay and the switch that the task then asks for: the task
    is put behind the other one in their ready list. The switch looks behind the
    head, finds the task that is current and keeps it without turning the list; so
    does every switch after it, and task 0, which is ready and as important, never
    runs. (A debug build panics in the first switch.) *)
Theorem tick_before_switch_starves :
  exec (events race) demo = Done tt starved ∧ current_task starved = Some 1%nat ∧
  (∃ b b', tasks starved !! 0%nat = Some b ∧ status b = Ready ∧ tasks starved !! 1%nat = Some b' ∧ priority b = priority b') ∧
  ∀ n, exec (switches n) starved = Done tt starved.
Proof.
  assert (Hs : exec task_switch starved = Done tt starved) by by vm_compute.
  split; [by vm_compute|]. split; [done|]. split; [do 2 eexists; by split_and!|].
  induction n as [|n IH]; [done|]. cbn [switches]. by rewrite (exec_bind_done _ _ _ _ _ Hs).
Qed.
End example.
