(* ===== verification/Syscall.v ===== *)
(** * System calls inside of user transactions ([syscalls.rs])

    What the macros around every call do with its result, and what recovery makes
    of a power failure between the call and its return. *)

From S2P Require Import Prelude Arch Pmem PmemSpec PVar TxCache Transaction TxAttempt Replay ReplaySpec UserTx.
From S2P Require Import Util PList Kernel ListTx Sched SchedInv SchedSpec SchedVal SchedOps Blocking Queue Semaphore EventGroup Timer BlockingOps.

(** ** The calls

    [pad] is what follows a result in memory. *)
Section calls.
Context `{Arch, Board, TxFeatures} (time_bits : Z) (task_ptr : nat → Z) (yield : prog kernel unit) (pad : list Z).
Context {S : Type} `{!Lens kernel S}.

(** [syscall_begin!] and [syscall_end!] with an epilogue. *)
Definition kernel_syscall_then {T} `{Plain T} (body : prog S T) (epilogue : prog S unit) : prog S T :=
  let* ret := kernel_syscall pad body in
  epilogue;;;
  Ret ret.
(** The form without a result; a recorded call has no epilogue. *)
Definition kernel_syscall_noret (body epilogue : prog S unit) : prog S unit :=
  let* r := on_current (zoom get_empty_entry) in
  if (r : bool) then on_current (on_user_tx debug_may_bypass)
  else
    on_current restart_syscall_tx_cache;;;
    body;;;
    on_current (
      zoom add_empty_entry_start;;;
      commit_syscall_tx_cache;;;
      reset_list_transaction;;;
      zoom add_entry_commit);;;
    epilogue.
(** [syscall_begin_outside_tx!] and [syscall_end_outside_tx!] *)
Definition kernel_syscall_outside_tx {A} (body : prog S A) : prog S A :=
  let* r := body in
  on_current syscall_end_outside_tx;;;
  Ret r.

Definition sys_task_delay_in_tx (nticks : Z) : prog S unit :=
  kernel_syscall_noret (on_kernel (task_delay time_bits yield nticks false)) (on_kernel yield).
Definition sys_task_delay (nticks : Z) : prog S unit :=
  kernel_syscall_outside_tx (on_kernel (task_delay time_bits yield nticks true)).

Definition sys_queue_send_back `{!Plain (Result unit ErrorCode), !Plain (Result unit QueueErr)} fuel q (item : list Z) (wait_ticks : Z) :
    prog S (Result unit QueueErr) :=
  kernel_syscall pad (on_kernel (queue_send_back time_bits fuel yield q item wait_ticks)).
Definition sys_queue_send_front `{!Plain (Result unit ErrorCode), !Plain (Result unit QueueErr)} fuel q (item : list Z) (wait_ticks : Z) :
    prog S (Result unit QueueErr) :=
  kernel_syscall pad (on_kernel (queue_send_front time_bits fuel yield q item wait_ticks)).
Definition sys_queue_receive {T} `{Plain T, !Plain (Result T ErrorCode), !Plain (Result T QueueErr)} fuel q (wait_ticks : Z) :
    prog S (Result T QueueErr) :=
  kernel_syscall pad (on_kernel (queue_receive time_bits fuel yield q wait_ticks)).

Definition sys_semaphore_take fuel sem (wait_ticks : Z) : prog S (Result unit unit) :=
  kernel_syscall_outside_tx (on_kernel (semaphore_take time_bits task_ptr fuel yield sem wait_ticks)).
Definition sys_semaphore_give sem : prog S unit :=
  kernel_syscall_outside_tx (on_kernel (semaphore_give yield sem)).

Definition sys_event_group_wait `{!Plain (Result Z Z)} eg (bits_to_wait_for : Z) (clear_on_exit wait_for_all_bits : bool) (wait_ticks : Z) :
    prog S (Result Z Z) :=
  kernel_syscall_then (on_kernel (event_group_wait time_bits yield eg bits_to_wait_for clear_on_exit wait_for_all_bits wait_ticks))
    (on_kernel (let* t := current in reset_block_item_value t;;; skip)).
Definition sys_event_group_set eg (bits_to_set : Z) : prog S unit :=
  kernel_syscall_noret (on_kernel (event_group_set yield eg bits_to_set)) skip.
Definition sys_event_group_sync `{!Plain Z, !Plain (Result Z Z)} eg (bits_to_set bits_to_wait_for wait_ticks : Z) : prog S (Result Z Z) :=
  kernel_syscall pad (on_kernel (event_group_sync time_bits yield eg bits_to_set bits_to_wait_for wait_ticks)).

Definition sys_get_time `{!Plain Z} : prog S Z := kernel_syscall pad (on_kernel get_ticks).
End calls.

Section timer_calls.
Context `{Arch, Board, TxFeatures} (time_bits : Z) (yield : prog kernel unit) (pad : list Z).
Context `{!Plain TimerMessage, !Plain (Result unit ErrorCode), !Plain (Result unit TimerErr)} (fuel : nat).

Definition sys_start_timer (timer : nat) (wait_ticks : Z) : prog tstore (Result unit TimerErr) :=
  kernel_syscall pad (start_timer time_bits yield fuel timer wait_ticks).
Definition sys_reset_timer (timer : nat) (wait_ticks : Z) : prog tstore (Result unit TimerErr) :=
  kernel_syscall pad (reset_timer time_bits yield fuel timer wait_ticks).
Definition sys_delete_timer (timer : nat) (wait_ticks : Z) : prog tstore (Result unit TimerErr) :=
  kernel_syscall pad (delete_timer time_bits yield fuel timer wait_ticks).
Definition sys_change_timer_period (timer : nat) (new_period wait_ticks : Z) : prog tstore (Result unit TimerErr) :=
  kernel_syscall pad (change_timer_period time_bits yield fuel timer new_period wait_ticks).
Definition sys_stop_timer (timer : nat) (wait_ticks : Z) : prog tstore (Result unit TimerErr) :=
  kernel_syscall pad (stop_timer time_bits yield fuel timer wait_ticks).
End timer_calls.

(** ** The return of a call *)

Section call_return.
Context `{Arch, Board, TxFeatures}.
Context {T : Type} `{PlainLaws T}.
Implicit Types (t c d : task) (r : SyscallReplayCache) (bs : list Z).

(** What [syscall_end!] does, and its result on the transaction of the kernel. *)
Definition syscall_return (pad : list Z) (ret : T) : prog task T :=
  zoom (add_entry_start pad ret);;;
  commit_syscall_tx_cache;;;
  reset_list_transaction;;;
  zoom add_entry_commit;;;
  Ret ret.
Definition forget_tx t : task :=
  with_tx (lset (with_ctail (λ _, TX_COMMITTED) (tx_cache (tx t))) (tx t)) t.

(** The call has not happened: everything is as its body has left it, so that the
    transactions in it are replayed. Or it has: its result is recorded, and the
    results of its transactions are forgotten. *)
Definition not_returned bs t d : Prop :=
  ∃ r, d = with_replay r t ∧ holds bs r ∧ rptr r = Z.of_nat (length bs).
Definition returned bs t d : Prop :=
  ∃ r, d = with_list_tx_done false (forget_tx (with_replay r t)) ∧ holds bs r.
Definition decided bs pad (v : T) t d : Prop := not_returned bs t d ∨ returned (bs ++ entry_bytes pad v) t d.

Lemma with_replay_same t : with_replay (syscall_replay_cache t) t = t.
Proof. by destruct t. Qed.

(** The stores on the way. *)
Lemma finish_nothing c : rtail (syscall_replay_cache c) ≤ rptr (syscall_replay_cache c) → exec finish_syscall_return c = Done tt c.
Proof.
  intros Hp. unfold finish_syscall_return. cbn [gets bind exec]. unfold get_ptr, get_tail.
  by rewrite (proj2 (Z.ltb_ge _ _)).
Qed.
Lemma finish_return c :
  rptr (syscall_replay_cache c) < rtail (syscall_replay_cache c) →
  exec finish_syscall_return c = Done tt (with_list_tx_done false (forget_tx c)).
Proof.
  intros Hp. unfold finish_syscall_return. cbn [gets bind exec]. unfold get_ptr, get_tail.
  rewrite (proj2 (Z.ltb_lt _ _)) by done. reflexivity.
Qed.

Lemma syscall_return_runs t bs pad v :
  holds bs (syscall_replay_cache t) → rptr (syscall_replay_cache t) = Z.of_nat (length bs) → entry_fits (T := T) (length bs) pad →
  runs (λ c, ∃ d, exec finish_syscall_return c = Done tt d ∧ decided bs pad v t d) (syscall_return pad v) t
    (λ a t', a = v ∧ returned (bs ++ entry_bytes pad v) t t' ∧ rptr (syscall_replay_cache t') = rtail (syscall_replay_cache t')).
Proof.
  intros Hh Hp Hf. destruct (add_entry_start_spec bs _ pad v Hh Hf) as (r & Hex & Hr & Hrp & Hal).
  pose proof (length_entry_bytes _ _ v Hf) as Hlen. destruct Hf as [Hpos _].
  set (bs' := bs ++ entry_bytes pad v) in *.
  assert (Hlt : rptr r < rtail r).
  { destruct Hr as [-> _]. rewrite Hrp, Hp. unfold bs'. rewrite length_app, Hlen. lia. }
  assert (Hin : ∀ t1, exec finish_syscall_return t1 = Done tt (with_list_tx_done false (forget_tx (with_replay r t))) →
    ∃ d, exec finish_syscall_return t1 = Done tt d ∧ decided bs pad v t d).
  { intros t1 E. eexists. split; [exact E|]. right. by exists r. }
  eapply runs_bind.
  - apply (runs_zoom _ _ _ (λ _ t1, t1 = with_replay r t)). eapply runs_intro; [|exact Hex|done].
    eapply always_impl; [|exact Hal]. cbn beta. intros r' [[Hh'|Hh'] Hrp'].
    + exists (with_replay r' t). split; [apply finish_nothing; cbn; destruct Hh' as [-> _]; lia|].
      left. exists r'. split_and!; [done|done|congruence].
    + exists (with_list_tx_done false (forget_tx (with_replay r' t))). split.
      * apply finish_return. cbn. destruct Hh' as [-> _]. unfold bs'. rewrite length_app, Hlen. lia.
      * right. by exists r'.
  - intros [] ? ->. cbn beta. apply runs_write; [by apply Hin, finish_return|].
    apply runs_write; [by apply Hin; rewrite finish_return|].
    apply runs_read. apply runs_write; [by apply Hin; rewrite finish_return|].
    apply runs_ret.
    + eexists. split; [apply finish_nothing; cbn; lia|]. right. exists (with_rptr (λ _, rtail r) r). split; [done|]. by destruct Hr as (?&?&?).
    + split; [done|]. split; [|done]. exists (with_rptr (λ _, rtail r) r). split; [done|]. by destruct Hr as (?&?&?).
Qed.

(** C4: A call that is not recorded runs its body once and returns its result. If
    power fails before the body has ended, the store is one of the body. If it fails
    between that and the return, recovery decides: either nothing is recorded and the
    results of the kernel's transactions are kept, so that the body is replayed when
    the call is made again, or the result is recorded and they are forgotten. *)
Theorem syscall_return_atomic pad (body : prog task T) t t1 bs v :
  holds bs (syscall_replay_cache t) → rptr (syscall_replay_cache t) = Z.of_nat (length bs) → entry_fits (T := T) (length bs) pad →
  exec (restart_syscall_tx_cache;;; body) t = Done v t1 → syscall_replay_cache t1 = syscall_replay_cache t →
  (∃ t', exec (syscall pad body) t = Done v t' ∧ returned (bs ++ entry_bytes pad v) t1 t' ∧
     rptr (syscall_replay_cache t') = rtail (syscall_replay_cache t')) ∧
  ∀ c, c ∈ crash_states (syscall pad body) t →
    c ∈ crash_states (restart_syscall_tx_cache;;; body) t ∨
    ∃ d, exec finish_syscall_return c = Done tt d ∧ decided bs pad v t1 d.
Proof.
  intros Hh Hp Hf Hbody Hsame.
  assert (Hruns : runs (λ c, c ∈ crash_states (restart_syscall_tx_cache;;; body) t ∨
      ∃ d, exec finish_syscall_return c = Done tt d ∧ decided bs pad v t1 d) (syscall pad body) t
      (λ a t', a = v ∧ returned (bs ++ entry_bytes pad v) t1 t' ∧ rptr (syscall_replay_cache t') = rtail (syscall_replay_cache t'))).
  { unfold syscall. eapply (runs_bind _ _ _ _ (λ (r : option T) t', r = None ∧ t' = t)).
    - apply runs_zoom. apply (runs_mono _ _ _ (λ (r : option T) s, r = None ∧ s = syscall_replay_cache t)).
      + change (lget t) with (syscall_replay_cache t). unfold get_entry. apply runs_read. cbn [get bind]. destruct Hh as [Ht _]. rewrite Hp, Ht, Z.ltb_irrefl.
        apply runs_ret; [left|done]. cbn. rewrite with_replay_same. left.
      + intros r s [-> ->]. split; [done|]. cbn. apply with_replay_same.
    - intros r t' [-> ->]. cbn beta iota. apply runs_write; [left; by left|].
      eapply runs_bind; [eapply (runs_intro _ _ _ v t1 (λ a t', a = v ∧ t' = t1)); [|exact Hbody|done]|].
      + intros c Hc. left. by right.
      + intros a t' [-> ->]. rewrite <-Hsame in Hh, Hp. eapply runs_crash; [by apply syscall_return_runs|]. by right. }
  destruct Hruns as [Hal (a & t' & E & -> & Hret)]. split; [|exact Hal]. by exists t'.
Qed.
End call_return.

(** ** Recorded calls *)
Section recorded.
Context `{Arch, Board, TxFeatures} (time_bits : Z) (yield : prog kernel unit) (pad : list Z).
Context {S : Type} `{!Lens kernel S, !LensLaws kernel S} (Hdbg : debug_assertions = false).

(** Task [t] is current, and [b] is its record, which has no copy of the memory. *)
Definition is_current (k : kernel) (t : nat) (b : tcb) : Prop :=
  current_task k = Some t ∧ tasks k !! t = Some b ∧ bytes (tx_pm (tx (utask b))) = [].

(** Task [t] with the fields [u]. *)
Definition task_upd (t : nat) (u : task) (k : kernel) : kernel :=
  with_kmem (bytes (tx_pm (tx u)))
    (with_tasks (alter (λ b, Build_tcb (priority b) (status b) (task_with_mem [] u)) t) k).
Definition task_of (k : kernel) (b : tcb) : task := task_with_mem (kmem k) (utask b).

Lemma exec_on_current {A} (p : prog task A) (s : S) t b a u :
  is_current (lget s) t b → exec p (task_of (lget s) b) = Done a u → exec (on_current p) s = Done a (lset (task_upd t u (lget s)) s).
Proof.
  intros (Hc & Hb & Hm) E. unfold on_current, on_kernel. apply exec_zoom_done.
  run (exec_current _ _ Hc). unfold on_task. run (exec_deref_task _ _ _ Hb).
  rewrite (exec_zoom_task p t (utask b) (lget s) (task_of (lget s) b) b Hb), E; [done| |done].
  by destruct b as [? ? [? [[? ?]] ? ? ?]]; cbn in *; subst.
Qed.

Lemma is_current_upd t u k b :
  is_current k t b → is_current (task_upd t u k) t (Build_tcb (priority b) (status b) (task_with_mem [] u)).
Proof. intros (Hc & Hb & _). split; [done|]. split; [|done]. cbn. by rewrite lookup_alter_eq, Hb. Qed.
Lemma task_upd_twice t u k : task_upd t u (task_upd t u k) = task_upd t u k.
Proof. unfold task_upd, with_kmem, with_tasks. cbn. by rewrite alter_alter_eq. Qed.
Lemma task_of_upd t u k b : task_of (task_upd t u k) (Build_tcb (priority b) (status b) (task_with_mem [] u)) = u.
Proof. by destruct u as [? [[? ?]] ? ? ?]. Qed.

(** The current call is recorded with the result of [p]: the store behind it differs
    in the pointer to the next record only. *)
Definition recorded {A} (p : prog SyscallReplayCache A) (v : A) (s s' : S) : Prop :=
  ∃ t b r, is_current (lget s) t b ∧ exec p (syscall_replay_cache (utask b)) = Done v r ∧
    s' = lset (task_upd t (with_replay r (task_of (lget s) b)) (lget s)) s.

Lemma recorded_exec {A} (p : prog SyscallReplayCache A) v s s' :
  recorded p v s s' → exec (on_current (zoom p)) s = Done v s' ∧ exec (on_current (on_user_tx debug_may_bypass)) s' = Done tt s'.
Proof.
  intros (t & b & r & Hsc & E & ->). set (u := with_replay r (task_of (lget s) b)).
  split; [eapply exec_on_current; [done|]; exact (exec_zoom_done p (task_of (lget s) b) v r E)|].
  pose proof (is_current_upd t u _ b Hsc) as Hsc'. rewrite <-(lget_lset (task_upd t u (lget s)) s) in Hsc'.
  erewrite exec_on_current; [|exact Hsc'|].
  - rewrite lget_lset, lset_lset, task_upd_twice. done.
  - rewrite lget_lset, task_of_upd. unfold on_user_tx, debug_may_bypass. rewrite Hdbg. cbn [negb orb]. by destruct u as [[] ? ? ? ?].
Qed.

Lemma recorded_call {T} `{Plain T} (body : prog S T) v s s' :
  recorded (get_entry (T := T)) (Some v) s s' → exec (kernel_syscall pad body) s = Done v s'.
Proof.
  intros [E1 E2]%recorded_exec. unfold kernel_syscall. run E1. by run E2.
Qed.
Lemma recorded_call_noret (body epilogue : prog S unit) s s' :
  recorded get_empty_entry true s s' → exec (kernel_syscall_noret body epilogue) s = Done tt s'.
Proof. intros [E1 E2]%recorded_exec. unfold kernel_syscall_noret. by run E1. Qed.
End recorded.

(** ** Concrete executions

    A user transaction makes two calls; the second one increments a counter of the
    kernel. *)
Section runs.
#[local] Existing Instances cortex_m qemu default_features.

Definition increment : prog pmem bool := update_body 0 1 (map (λ x, x + 1)) (λ _, true).
Definition two_calls : prog task bool :=
  user_run_sys (
    syscall (replicate 8 0) (Ret true);;;
    syscall (replicate 8 0) (zoom (S := tx_state) (run_relaxed increment))).
Definition ran (o : result task bool) : option (bool * list Z) :=
  match o with Done v t => Some (v, bytes (tx_pm (tx t))) | Failed _ => None end.
Definition restarted (g : Z) : prog task bool := jit_recovery g;;; two_calls.
Definition crashed_in (p : prog task bool) (n : nat) (t : task) : task := default t (crash_states p t !! n).

(** A call is executed twice when power fails a second time while the calls
    before it are replayed. The replay moves the pointer to the records back, and
    recovery takes a pointer before the end for a call that was about to return: it
    forgets the results of the transactions of the call that was interrupted first.
    After a single power failure, wherever it is, the call is executed once. *)
Theorem call_repeated :
  let t0 := fresh_task (replicate 8 0) in
  Forall (λ c, ran (exec (restarted 1) c) = Some (true, [1; 0; 0])) (crash_states two_calls t0) ∧
  ∃ n1 n2, let c1 := crashed_in two_calls n1 t0 in let c2 := crashed_in (restarted 1) n2 c1 in
    bytes (tx_pm (tx c1)) = [1; 0; 0] ∧ ran (exec (restarted 2) c2) = Some (true, [2; 0; 0]).
Proof.
  cbn zeta. split; [apply (bool_decide_unpack _); vm_compute; exact I|].
  exists 20%nat, 9%nat. split; vm_compute; reflexivity.
Qed.
End runs.

Module example.
#[local] Existing Instances cortex_m qemu default_features.

Definition idle : task := fresh_task (replicate 8 0).
Definition body : prog task bool := zoom (S := tx_state) (run_relaxed increment).
Definition incremented : task := match exec (restart_syscall_tx_cache;;; body) idle with Done _ t => t | Failed _ => idle end.

Lemma syscall_return_atomic_witness :
  length (crash_states (syscall (replicate 8 0) body) idle) = 20%nat ∧
  (∃ t', exec (syscall (replicate 8 0) body) idle = Done true t' ∧ returned (entry_bytes (replicate 8 0) true) incremented t' ∧
     rptr (syscall_replay_cache t') = rtail (syscall_replay_cache t')) ∧
  ∀ c, c ∈ crash_states (syscall (replicate 8 0) body) idle →
    c ∈ crash_states (restart_syscall_tx_cache;;; body) idle ∨
    ∃ d, exec finish_syscall_return c = Done tt d ∧ decided [] (replicate 8 0) true incremented d.
Proof.
  split; [vm_compute; reflexivity|].
  apply (syscall_return_atomic (replicate 8 0) body idle incremented [] true).
  - split_and!; reflexivity.
  - reflexivity.
  - split_and!; vm_compute; congruence.
  - vm_compute. reflexivity.
  - vm_compute. reflexivity.
Defined.
End example.
