(* ===== verification/SyscallSpec.v ===== *)
(** * A transaction that is executed again repeats no system call

    A user transaction makes calls one after the other. When it is executed again from
    its start, the calls that have completed return what they returned, and it goes on
    where it was. *)

From S2P Require Import Prelude Arch Pmem PmemSpec PVar TxCache Transaction TxAttempt Replay ReplaySpec UserTx.
From S2P Require Import Util PList Kernel ListTx Sched SchedInv SchedSpec SchedVal SchedOps Blocking Queue Semaphore EventGroup Timer BlockingOps EventGroupOps Syscall.

(** ** Transactions that make system calls *)

Section callers.
Context `{Arch, Board, TxFeatures} {S : Type} `{!Lens kernel S, !LensLaws kernel S} {A : Type}.







(** *** The first execution *)








(** *** The next execution *)





End callers.

Module example.
#[local] Existing Instances cortex_m qemu default_features.








End example.
