(* ===== verification/Create.v ===== *)
(** * Creating the objects of the kernel

    The constructors of queues ([queue.rs]), semaphores ([semaphore.rs]), event
    groups ([event_group.rs]) and timers ([time.rs]): a transaction allocates the
    object from a persistent heap and writes its fields. The offsets of the fields,
    which the compiler chooses, are parameters. *)

From S2P Require Import Prelude Arch Pmem PmemSpec PVar TxCache Transaction Replay UserTx.
From S2P Require Import Util PList Kernel ListTx Sched Blocking Queue Semaphore EventGroup Heap Timer.

(** The kernel with the timers, [SCHEDULER_STARTED], [CUR_MAX_PRIORITY] and the
    volatile [HEAP]. *)
Record statics := {
  st_timers : tstore;
  scheduler_started : bool;
  cur_max_priority : nat;
  volatile_heap : BumpAllocator;
}.
Definition with_ts (t : tstore) (s : statics) : statics :=
  Build_statics t (scheduler_started s) (cur_max_priority s) (volatile_heap s).
Definition with_started (b : bool) (s : statics) : statics :=
  Build_statics (st_timers s) b (cur_max_priority s) (volatile_heap s).
Definition with_max (p : nat) (s : statics) : statics :=
  Build_statics (st_timers s) (scheduler_started s) p (volatile_heap s).
Definition with_volatile_heap (b : BumpAllocator) (s : statics) : statics :=
  Build_statics (st_timers s) (scheduler_started s) (cur_max_priority s) b.
Definition the_kernel (s : statics) : kernel := kern (st_timers s).

#[export] Instance ts_lens : Lens tstore statics := {| lget := st_timers; lset := with_ts |}.
#[export] Instance ts_lens_laws : LensLaws tstore statics.
Proof. by split; try done; intros []. Qed.
#[export] Instance statics_kern_lens : Lens kernel statics :=
  {| lget := the_kernel; lset k s := with_ts (with_kern k (st_timers s)) s |}.
#[export] Instance statics_kern_laws : LensLaws kernel statics.
Proof. by split; try done; intros [[] ? ? ?]. Qed.
#[export] Instance statics_cpu_lens : Lens cpu statics :=
  {| lget s := kcpu (the_kernel s); lset c s := lset (with_cpu (λ _, c) (the_kernel s)) s |}.
#[export] Instance statics_cpu_laws : LensLaws cpu statics.
Proof. by split; try done; intros [[[]] ? ? ?]. Qed.

Section tx.
Context `{Arch, Board, TxFeatures}.

(** [get_current_tx]: the boot transaction until the scheduler has started, then
    that of the current task. *)
Definition tx_of_boot : Lens tx_state statics := {|
  lget s := lget (Lens := boot_tx_lens) (the_kernel s);
  lset x s := lset (lset (Lens := boot_tx_lens) x (the_kernel s)) s;
|}.
Definition tx_of_task (t : nat) (d : task) : Lens tx_state statics := {|
  lget s := tx (lget (Lens := task_lens t d) (the_kernel s));
  lset x s := lset (lset (Lens := task_lens t d) (with_tx x (lget (Lens := task_lens t d) (the_kernel s))) (the_kernel s)) s;
|}.
Definition get_current_tx : prog statics (Lens tx_state statics) :=
  let* s := get in
  if scheduler_started s then
    let* t := on_kernel current in
    let* b := on_kernel (deref_task t) in
    Ret (tx_of_task t (utask b))
  else Ret tx_of_boot.

(** The persistent memory with the journal of a transaction; with the volatile
    heap and the processor. *)
Definition journal_of (L : Lens tx_state statics) : Lens pmem statics :=
  {| lget s := tx_pm (lget s); lset p s := lset (with_pm p (lget s)) s |}.
Definition heaps_of (J : Lens pmem statics) : Lens heaps statics := {|
  lget s := Build_heaps (volatile_heap s) (lget s) (kcpu (the_kernel s));
  lset h s := lset (hcpu h) (lset (hmem h) (with_volatile_heap (HEAP h) s));
|}.

(** [transaction::run] on the current transaction; the closure gets its journal. *)
Definition transaction_run {T} `{Plain T} (f : Lens pmem statics → prog statics T) : prog statics T :=
  let* L := get_current_tx in
  zoom (Lens0 := L) debug_level_zero;;;
  let* r := zoom (Lens0 := L) try_get_cached_result in
  match r with
  | Some cache_res => zoom (Lens0 := L) debug_may_bypass;;; Ret cache_res
  | None =>
      zoom (Lens0 := L) tx_begin;;;
      let* ret := f (journal_of L) in
      zoom (Lens0 := L) (tx_commit ret);;;
      Ret ret
  end.
End tx.

(** The layouts of the objects: size, alignment, the offsets of the fields. *)
Record layouts := {
  queue_layout : Layout;
  qo_length : Z; qo_item_size : Z; qo_buffer : Z; qo_buffer_size : Z; qo_read_pos : Z; qo_write_pos : Z; qo_tail : Z;
  qo_items_enqueued : Z; qo_blocked_readers : Z; qo_blocked_writers : Z;
  semaphore_layout : Layout;
  so_count : Z; so_mutex_holder : Z; so_is_mutex : Z; so_size : Z; so_wait_list : Z;
  event_group_layout : Layout;
  eo_event_bits : Z; eo_waiting_tasks : Z;
  timer_layout : Layout;
}.

(** The wait list in memory at address [p]. *)
Definition wait_list_at (p : Z) : nat := Z.to_nat p.
(** The timer in memory at address [p]. *)
Definition timer_at (p : Z) : nat := Z.to_nat p.

Section create.
Context `{Arch, Board, TxFeatures} (Lay : layouts).
(** The heap of a task and that of booting. *)
Context (task_heap : nat → PMHeap) (BOOT_PM_HEAP : PMHeap).

Definition current_pm_heap : prog statics PMHeap :=
  let* s := get in
  if scheduler_started s then
    let* t := on_kernel current in Ret (get_pm_heap true (task_heap t) BOOT_PM_HEAP)
  else Ret (get_pm_heap false BOOT_PM_HEAP BOOT_PM_HEAP).

(** [SortedPList::new], [UnsortedPList::new] stored at address [p]. *)
Definition new_list_at (p : Z) : prog statics unit :=
  on_kernel (on_lists (modify (with_lists (<[WaitList (wait_list_at p) := plist_new]>)))).

(** [PArray::new] *)
Definition parray_new (J : Lens pmem statics) (size_of_T size : Z) : prog statics (option PArray) :=
  let* h := current_pm_heap in
  let* ptr := zoom (Lens0 := J) (palloc_array h size_of_T size) in
  Ret (match ptr with Some p => Some {| pa_ptr := p; pa_size := size |} | None => None end).

(** The assignments to the fields of the structure at [p], each with its offset. *)
Fixpoint store_fields (p : Z) (fields : list (Z * Z)) : prog pmem unit :=
  match fields with
  | [] => skip
  | (o, v) :: fields => write_usize (p + o) v;;; store_fields p fields
  end.

(** *** Queues *)

(** The stores of [Queue::new] to the queue at [q]. *)
Definition init_queue (J : Lens pmem statics) (q : Z) (buffer : PArray) (length item_size : Z) : prog statics unit :=
  zoom (Lens0 := J) (store_fields q [
    (qo_length Lay, length); (qo_item_size Lay, item_size);
    (qo_read_pos Lay, 0); (qo_write_pos Lay, 0); (qo_items_enqueued Lay, 0);
    (qo_buffer Lay, pa_ptr buffer); (qo_buffer_size Lay, pa_size buffer);
    (qo_tail Lay, umul item_size length)]);;;
  new_list_at (q + qo_blocked_readers Lay);;;
  new_list_at (q + qo_blocked_writers Lay).

Definition queue_new_tx (length item_size : Z) (J : Lens pmem statics) : prog statics (Result (option Z) ErrorCode) :=
  let* h := current_pm_heap in
  let* r := zoom (Lens0 := J) (palloc h (queue_layout Lay)) in
  match r with
  | None => Ret (Err NoSpace)
  | Some q =>
      let* buffer := parray_new J 1 (umul length item_size) in
      match buffer with
      | None => Ret (Err NoSpace)
      | Some b => init_queue J q b length item_size;;; Ret (Ok r)
      end
  end.
(** [Queue::new] *)
Definition queue_new `{!Plain (Result (option Z) ErrorCode)} (length item_size : Z) : prog statics (option Z) :=
  if length =? 0 then Ret None else
  let* r := transaction_run (queue_new_tx length item_size) in
  Ret (match r with Err _ => None | Ok v => v end).
Definition queue_create `{!Plain (Result (option Z) ErrorCode)} (length item_size : Z) : prog statics (option Z) :=
  queue_new length item_size.

(** A pointer to a queue, dereferenced: the constant fields are read from memory. *)
Definition queue_at (q : Z) : prog pmem Queue :=
  let* length := read_usize (q + qo_length Lay) in
  let* item_size := read_usize (q + qo_item_size Lay) in
  let* buffer := read_usize (q + qo_buffer Lay) in
  let* tail := read_usize (q + qo_tail Lay) in
  Ret {|
    q_length := length; q_item_size := item_size; q_buffer := buffer; q_tail := tail;
    q_read_pos := q + qo_read_pos Lay; q_write_pos := q + qo_write_pos Lay; q_items_enqueued := q + qo_items_enqueued Lay;
    q_blocked_readers := wait_list_at (q + qo_blocked_readers Lay);
    q_blocked_writers := wait_list_at (q + qo_blocked_writers Lay);
  |}.

(** *** Semaphores *)

(** [pm_new] of a structure whose fields are stored by [init]. *)
Definition pm_new_object (J : Lens pmem statics) (l : Layout) (init : Z → prog statics unit) : prog statics (option Z) :=
  let* h := current_pm_heap in
  let* ptr := zoom (Lens0 := J) (palloc h l) in
  match ptr with
  | Some p => init p;;; Ret (Some p)
  | None => Ret None
  end.

Definition init_semaphore (J : Lens pmem statics) (count sem : Z) : prog statics unit :=
  zoom (Lens0 := J) (store_fields sem [(so_count Lay, count); (so_size Lay, count); (so_mutex_holder Lay, 0)]);;;
  new_list_at (sem + so_wait_list Lay);;;
  zoom (Lens0 := J) (write_bytes (sem + so_is_mutex Lay) [Z.b2z (count =? 1)]).
(** The [unwrap] of a null pointer panics. *)
Definition semaphore_new (J : Lens pmem statics) (count : Z) : prog statics (option Z) :=
  let* ptr := pm_new_object J (semaphore_layout Lay) (init_semaphore J count) in
  let* sm := unwrap ptr in
  Ret ptr.
Definition create_semaphore `{!Plain (option Z)} (n : Z) : prog statics (option Z) :=
  transaction_run (λ J, semaphore_new J n).

Definition semaphore_at (sem : Z) : prog pmem Semaphore :=
  let* size := read_usize (sem + so_size Lay) in
  Ret {|
    sem_count := sem + so_count Lay; sem_mutex_holder := sem + so_mutex_holder Lay; sem_size := size;
    sem_wait_list := wait_list_at (sem + so_wait_list Lay);
  |}.

(** *** Event groups *)

Definition init_event_group (J : Lens pmem statics) (eg : Z) : prog statics unit :=
  zoom (Lens0 := J) (store_fields eg [(eo_event_bits Lay, 0)]);;;
  new_list_at (eg + eo_waiting_tasks Lay).
Definition event_group_new_from_heap (J : Lens pmem statics) : prog statics (option Z) :=
  pm_new_object J (event_group_layout Lay) (init_event_group J).
Definition create_event_group `{!Plain (option Z)} : prog statics (option Z) :=
  transaction_run event_group_new_from_heap.
Definition event_group_at (eg : Z) : EventGroup :=
  {| event_bits := eg + eo_event_bits Lay; waiting_tasks := wait_list_at (eg + eo_waiting_tasks Lay) |}.

(** *** Timers *)

(** [Timer::new_from_heap]; the timer's node becomes part of the list store when
    it points to its timer. *)
Definition init_timer (period : Z) (reload : bool) (cb arg : Z) (timer : Z) : prog statics unit :=
  zoom (S := tstore) (modify (with_timers (<[timer_at timer := {|
    period_ticks := period; callback := cb; param := arg; call_back_is_closure := false; active := false; auto_reload := reload;
  |}]>))).
Definition timer_new_from_heap (J : Lens pmem statics) (period : Z) (reload : bool) (cb arg : Z) : prog statics (option Z) :=
  pm_new_object J (timer_layout Lay) (init_timer period reload cb arg).
(** The timer, and its node that points to it. *)
Definition timer_new_linked (J : Lens pmem statics) (period : Z) (reload : bool) (cb arg : Z) : prog statics (option Z) :=
  let* r := timer_new_from_heap J period reload cb arg in
  match r with
  | Some p =>
      on_kernel (on_lists (modify (with_nodes (<[TimerNode (timer_at p) := node_new (TimerItem (timer_at p) 0)]>))));;;
      Ret (Some p)
  | None => Ret None
  end.
Definition create_timer `{!Plain (option Z)} (period : Z) (reload : bool) (cb arg : Z) : prog statics (option Z) :=
  transaction_run (λ J, timer_new_linked J period reload cb arg).

(** [RelaxedPBox::try_new_for_kernel] of an object with its bytes. *)
Definition try_new_for_kernel (J : Lens pmem statics) (l : Layout) (object : list Z) : prog statics (option Z) :=
  let* h := current_pm_heap in
  zoom (Lens0 := J) (pm_new_relaxed h l object).
(** The closure, [object], is boxed; [runner] is [timer_closure_runner], which calls
    the closure in the box that is its parameter. *)
Definition create_timer_with_closure `{!Plain (option Z)} (period : Z) (reload : bool) (runner : Z) (l : Layout) (object : list Z) :
    prog statics (option Z) :=
  transaction_run (λ J,
    let* boxed_f := try_new_for_kernel J l object in
    match boxed_f with
    | None => Ret None
    | Some box => timer_new_linked J period reload runner box
    end).
End create.
