(* ===== verification/CreateTx.v ===== *)
(** * Transactions that change more than memory

    The closure of a transaction that creates an object or a task works on the
    whole kernel; its journal is that of the current transaction. Its rules. *)

From S2P Require Import Prelude Arch Pmem PmemSpec PVar TxCache Transaction TxAttempt Replay UserTx.
From S2P Require Import Util PList Kernel ListTx Sched SchedInv SchedSpec SchedVal Blocking Queue Heap Timer Create.

(** ** Lenses that are lawful on a part of the stores *)

Section lawful.
Context {S T : Type}.

Record lawful (L : Lens S T) (I : T → Prop) : Prop := {
  lw_keep : ∀ x t, I t → I (lset x t);
  lw_get : ∀ x t, I t → lget (lset x t) = x;
  lw_same : ∀ t, I t → lset (lget t) t = t;
  lw_twice : ∀ x y t, I t → lset x (lset y t) = lset x t;
}.

Lemma exec_zoom_lawful {A} (L : Lens S T) I (p : prog S A) t :
  lawful L I → I t →
  exec (zoom (Lens0 := L) p) t = match exec p (lget t) with Done a x => Done a (lset x t) | Failed e => Failed e end.
Proof.
  intros HL. revert t; induction p as [a|g IH|f p IH|e]; intros t Ht; cbn [zoom exec].
  - by rewrite (lw_same L I HL).
  - by apply IH.
  - rewrite IH by (by apply (lw_keep L I HL)). rewrite (lw_get L I HL) by done.
    destruct (exec p (f (lget t))); [by rewrite (lw_twice L I HL)|done].
  - done.
Qed.
Lemma exec_zoom_lawful_done {A} (L : Lens S T) I (p : prog S A) t a x :
  lawful L I → I t → exec p (lget t) = Done a x → exec (zoom (Lens0 := L) p) t = Done a (lset x t).
Proof. intros HL Ht E. by rewrite (exec_zoom_lawful L I), E. Qed.
End lawful.

(** ** Journals with room *)

Section journal.
Context `{Arch, Board} (Hboard : board_ok).
Implicit Types p : pmem.

(** The journal holds records of ranges inside of the memory. *)
Definition jgood p : Prop := ∃ es, jrepr es (journal p) ∧ Forall (PmemSpec.entry_fits (bytes p)) es.

Lemma jgood_undoes p : jgood p → ∃ es, undoes es (undo es (bytes p)) p.
Proof. intros (es & Hj & Hf). by exists es. Qed.
Lemma undoes_jgood es m p : undoes es m p → jgood p.
Proof. intros (Hj & Hf & _). by exists es. Qed.
Lemma jgood_bytes p m : jgood p → length m = length (bytes p) → jgood {| bytes := m; journal := journal p |}.
Proof.
  intros (es & Hj & Hf) Hl. exists es. split; [done|]. eapply Forall_impl; [exact Hf|]. intros e. unfold PmemSpec.entry_fits. cbn. by rewrite Hl.
Qed.
Lemma jgood_jrepr p : jgood p → ∃ es, jrepr es (journal p).
Proof. intros (es & Hj & _). by exists es. Qed.

Lemma exec_append_log p a n :
  jgood p → is_object (Z.of_nat a) (Z.of_nat n) → (a + n ≤ length (bytes p))%nat →
  Pmem.tail (journal p) + Z.of_nat (record_size n) ≤ JOURNAL_SIZE →
  ∃ p', exec (append_log_of (Z.of_nat a) (Z.of_nat n)) p = Done tt p' ∧ bytes p' = bytes p ∧
    Pmem.tail (journal p') = Pmem.tail (journal p) + Z.of_nat (record_size n) ∧ jgood p'.
Proof.
  intros [es Hu]%jgood_undoes Ho Hl Hr.
  destruct (append_log_of_spec Hboard es _ p a n Hu Ho Hl Hr) as (p' & Hex & Hb & Ht & Hu').
  exists p'. split_and!; try done. by eapply undoes_jgood.
Qed.

Lemma exec_write_usize p a v :
  (Z.to_nat a + usize_bytes ≤ length (bytes p))%nat →
  exec (write_usize a v) p = Done tt {| bytes := list_inserts (Z.to_nat a) (usize_to_bytes v) (bytes p); journal := journal p |}.
Proof. intros Hl. unfold write_usize. cbn. by rewrite decide_True by done. Qed.
Lemma exec_read_word p a v : 0 ≤ a → word (bytes p) (Z.to_nat a) v → exec (read_usize a) p = Done v p.
Proof. intros Ha Hw. rewrite <-(Z2Nat.id a) by done. by apply exec_read_usize. Qed.

Lemma word_is_object a : (a + usize_bytes < Z.to_nat usize_mod)%nat → is_object (Z.of_nat a) (Z.of_nat usize_bytes).
Proof. intros Ha. split; [lia|]. destruct usize_half. pose proof usize_bytes_cases. lia. Qed.
End journal.

(** ** The wrapper *)

Section run.
Context `{Arch, Board, TxFeatures} (Hopt : opt_tx_cache_space = true) (Hcache : cache_ok).
Implicit Types s : statics.

(** A transaction over a closure: when the closure, started behind [tx_begin], ends
    with a good journal and leaves the rest of the transaction alone, its result is
    committed. *)
Lemma exec_transaction_run {T} `{PlainLaws T} (L : Lens tx_state statics) I (f : Lens pmem statics → prog statics T) s n b bs m r :
  exec get_current_tx s = Done L s → lawful L I → I s → ready b n n (length bs) bs m (lget s) → fits (T := T) n (length bs) →
  ∃ c1, tx_pm c1 = tx_pm (lget s) ∧
    ∀ s2 p, exec (f (journal_of L)) (lset c1 s) = Done r s2 → I s2 → lget s2 = with_pm p c1 → jgood p →
    ∃ d, exec (transaction_run f) s = Done r (lset d s2) ∧ bytes (tx_pm d) = bytes p ∧
      ready true (S n) (S n) (length (bs ++ to_bytes r)) (bs ++ to_bytes r) (bytes p) d.
Proof.
  intros Hcur HL Hs Hr Hfit. destruct (exec_tx_begin Hcache _ _ _ _ _ Hr) as (c1 & E1 & Hc1 & Hpm & Hptr & Hl1).
  exists c1. split; [done|]. intros s2 p Ef Hs2 Hg [es Hes]%jgood_jrepr.
  destruct (exec_tx_commit Hopt Hcache r n bs (with_pm p c1) Hc1 Hptr Hl1 Hfit) as (d & E2 & Hd & Hrd); [by exists es|].
  exists d. split; [|done]. unfold transaction_run. rewrite (exec_bind_done _ _ _ _ _ Hcur).
  run (exec_zoom_lawful_done L I _ _ _ _ HL Hs (exec_debug_level_zero _ _ _ _ _ Hr)). rewrite (lw_same L I HL s Hs).
  run (exec_zoom_lawful_done L I _ _ _ _ HL Hs (exec_try_get_none Hopt Hcache _ _ _ _ _ Hr)). rewrite (lw_same L I HL s Hs).
  run (exec_zoom_lawful_done L I _ _ _ _ HL Hs E1). run Ef.
  rewrite <-Hg in E2. by run (exec_zoom_lawful_done L I _ _ _ _ HL Hs2 E2).
Qed.

(** A closure that fails. *)
Lemma exec_transaction_fail {T} `{PlainLaws T} (L : Lens tx_state statics) I (f : Lens pmem statics → prog statics T) s n b bs m e :
  exec get_current_tx s = Done L s → lawful L I → I s → ready b n n (length bs) bs m (lget s) →
  (∀ c1, tx_pm c1 = tx_pm (lget s) → exec (f (journal_of L)) (lset c1 s) = Failed e) → exec (transaction_run f) s = Failed e.
Proof.
  intros Hcur HL Hs Hr Ef. destruct (exec_tx_begin Hcache _ _ _ _ _ Hr) as (c1 & E1 & _ & Hpm & _).
  unfold transaction_run. rewrite (exec_bind_done _ _ _ _ _ Hcur).
  run (exec_zoom_lawful_done L I _ _ _ _ HL Hs (exec_debug_level_zero _ _ _ _ _ Hr)). rewrite (lw_same L I HL s Hs).
  run (exec_zoom_lawful_done L I _ _ _ _ HL Hs (exec_try_get_none Hopt Hcache _ _ _ _ _ Hr)). rewrite (lw_same L I HL s Hs).
  run (exec_zoom_lawful_done L I _ _ _ _ HL Hs E1). by rewrite exec_bind, (Ef c1 Hpm).
Qed.
End run.

(** ** The transactions of the kernel *)

Section lenses.
Context `{Arch, Board, TxFeatures}.
Implicit Types (s : statics) (k : kernel).

Lemma journal_of_lawful L I : lawful L I → lawful (journal_of L) I.
Proof.
  intros HL. split; cbn.
  - intros p s Hs. by apply (lw_keep L I HL).
  - intros p s Hs. by rewrite (lw_get L I HL).
  - intros s Hs. rewrite <-(lw_same L I HL s Hs) at 4. f_equal. by destruct (lget s).
  - intros p q s Hs. rewrite (lw_get L I HL), (lw_twice L I HL) by done. by destruct (lget s).
Qed.

(** The bytes of a transaction are kept in [kmem] only. *)
Definition boot_normal k : Prop := bytes (tx_pm (boot_tx (boot k))) = [].
Definition boot_upd (x : tx_state) k : kernel := lset (Lens := boot_tx_lens) x k.
Definition boot_of k : tx_state := lget (Lens := boot_tx_lens) k.
Lemma boot_of_upd x k : boot_of (boot_upd x k) = x.
Proof. by destruct x as [[] ? ? ?]. Qed.
Lemma boot_upd_same k : boot_normal k → boot_upd (boot_of k) k = k.
Proof.
  intros E. unfold boot_normal in E. destruct k as [? ? ? ? ? ? ? ? [bt ? ? ?] ?]. cbn in *.
  unfold boot_upd, boot_of. cbn. unfold with_kmem, with_boot. cbn. do 2 f_equal. destruct bt as [[by0 ?] ? ? ?]. cbn in *. by subst.
Qed.
Lemma boot_upd_twice x y k : boot_upd x (boot_upd y k) = boot_upd x k.
Proof. done. Qed.

Lemma tx_of_boot_lawful : lawful tx_of_boot (λ s, boot_normal (the_kernel s)).
Proof.
  split.
  - done.
  - intros x s Hs. exact (boot_of_upd x (the_kernel s)).
  - intros s Hs. cbn. change (lset (Lens := statics_kern_lens) (boot_upd (boot_of (the_kernel s)) (the_kernel s)) s = s).
    rewrite boot_upd_same by done. by destruct s as [[] ? ? ?].
  - done.
Qed.
Lemma exec_on_the_kernel {X} (p : prog kernel X) s a k :
  exec p (the_kernel s) = Done a k → exec (on_kernel p) s = Done a (lset k s).
Proof. exact (exec_zoom_done (Lens0 := statics_kern_lens) p s a k). Qed.
Lemma kernel_same s : lset (the_kernel s) s = s.
Proof. by destruct s as [[] ? ? ?]. Qed.
Lemma exec_on_kernel_same {X} (p : prog kernel X) s a :
  exec p (the_kernel s) = Done a (the_kernel s) → exec (on_kernel p) s = Done a s.
Proof. intros E. by rewrite (exec_on_the_kernel _ _ _ _ E), kernel_same. Qed.
Lemma exec_boot_tx s : scheduler_started s = false → exec get_current_tx s = Done tx_of_boot s.
Proof. intros E. unfold get_current_tx. cbn. by rewrite E. Qed.

(** The transaction of task [t]. *)
Definition task_normal t k : Prop := ∃ b, tasks k !! t = Some b ∧ bytes (tx_pm (tx (utask b))) = [].
Lemma tx_of_task_lawful t d : lawful (tx_of_task t d) (λ s, task_normal t (the_kernel s)).
Proof.
  split.
  - intros x s (b & Hb & _). eexists. cbn. rewrite lookup_alter_eq, Hb. cbn. by eauto.
  - intros x s (b & Hb & _). cbn. rewrite lookup_alter_eq, Hb. by destruct x as [[] ? ? ?].
  - intros s (b & Hb & E). destruct s as [[k ? ? ?] ? ? ?]. cbn in *. unfold with_ts, with_kern. cbn. do 2 f_equal.
    rewrite Hb. cbn. unfold with_kmem, with_tasks. destruct k. cbn in *. f_equal. apply map_eq. intros t'.
    destruct (decide (t' = t)) as [->|?]; [rewrite lookup_alter_eq, Hb|by rewrite lookup_alter_ne]. cbn. f_equal.
    destruct b as [? ? [? [[? ?]] ? ? ?]]. cbn in *. by subst.
  - intros x y s (b & Hb & _). cbn. unfold with_ts, with_kern. cbn. do 2 f_equal. unfold with_kmem, with_tasks. cbn. f_equal.
    rewrite lookup_alter_eq, Hb. cbn. by rewrite alter_alter_eq.
Qed.
Lemma exec_task_tx s t b :
  scheduler_started s = true → current_task (the_kernel s) = Some t → tasks (the_kernel s) !! t = Some b →
  exec get_current_tx s = Done (tx_of_task t (utask b)) s.
Proof.
  intros E Hc Hb. unfold get_current_tx. cbn [get bind exec]. rewrite E. unfold on_kernel.
  by run (exec_on_kernel_same current s t (exec_current _ _ Hc)); run (exec_on_kernel_same _ s b (exec_deref_task _ _ _ Hb)).
Qed.
End lenses.
