(* ===== verification/CreateOps.v ===== *)
(** * What the constructors promise

    A queue, a semaphore or an event group that has been created represents an
    empty one; when there is no room for it nothing is created. The transaction of
    the creation may be that of booting or that of a task. *)

From S2P Require Import Prelude Arch Pmem PmemSpec PVar TxCache Transaction TxAttempt Replay UserTx.
From S2P Require Import Util PList PListUpd PListSeg ListRepr Kernel ListTx Sched SchedInv SchedSpec SchedVal Blocking Queue QueueRing.
From S2P Require Import SchedDemo BlockingOps Heap HeapSpec Timer SemaphoreOps EventGroup EventGroupOps Create CreateTx.

(** ** New lists *)

Definition new_lists (ids : list nat) (k : kernel) : kernel :=
  with_ls (with_lists (λ m, foldl (λ m w, <[WaitList w := plist_new]> m) m ids) (ls k)) k.
Definition on_the_kernel (f : kernel → kernel) (s : statics) : statics := lset (f (the_kernel s)) s.

Lemma new_lists_snoc ids w k : new_lists [w] (new_lists ids k) = new_lists (ids ++ [w]) k.
Proof. unfold new_lists, with_ls, with_lists. cbn. by rewrite foldl_app. Qed.
Lemma new_lists_nil k : new_lists [] k = k.
Proof. by destruct k as [[] ? ? ? ? ? ? ? ? ?]. Qed.

(** The lens of a current transaction, on the stores [I] where it is that, and the
    heap that it allocates from; it is independent of the lists. *)
Record tx_lens `{Arch, Board, TxFeatures} (task_heap : nat → PMHeap) (boot_heap h : PMHeap)
    (L : Lens tx_state statics) (I : statics → Prop) : Prop := {
  tl_lawful : lawful L I;
  tl_heap : ∀ s, I s → exec (current_pm_heap task_heap boot_heap) s = Done h s;
  tl_keep : ∀ ids s, I s → I (on_the_kernel (new_lists ids) s);
  tl_get : ∀ ids s, I s → lget (on_the_kernel (new_lists ids) s) = lget s;
  tl_set : ∀ ids x s, I s → lset x (on_the_kernel (new_lists ids) s) = on_the_kernel (new_lists ids) (lset x s);
  tl_sched : ∀ x s, I s → ls (the_kernel (lset x s)) = ls (the_kernel s) ∧ same_status (tasks (the_kernel s)) (tasks (the_kernel (lset x s)));
}.

Section instances.
Context `{Arch, Board, TxFeatures} (task_heap : nat → PMHeap) (boot_heap : PMHeap).

(** Where the current transaction is that of booting, or that of task [t]. *)
Definition in_boot (s : statics) : Prop := scheduler_started s = false ∧ boot_normal (the_kernel s).
Definition in_task (t : nat) (s : statics) : Prop :=
  (scheduler_started s = true ∧ current_task (the_kernel s) = Some t) ∧ task_normal t (the_kernel s).

Lemma boot_is_tx_lens : tx_lens task_heap boot_heap boot_heap tx_of_boot in_boot.
Proof.
  destruct tx_of_boot_lawful as [K1 K2 K3 K4]. split; [split|..].
  - intros x t [? ?]. by split; [|apply (K1 x t)].
  - intros x t [? ?]. by apply K2.
  - intros t [? ?]. by apply K3.
  - done.
  - intros s [E _]. unfold current_pm_heap. cbn. by rewrite E.
  - done.
  - done.
  - done.
  - intros x s _. by split; [|intros ?].
Qed.

(** The transaction of a task; [u] are its fields when it starts. *)
Lemma task_is_tx_lens t u : tx_lens task_heap boot_heap (task_heap t) (tx_of_task t u) (in_task t).
Proof.
  destruct (tx_of_task_lawful t u) as [K1 K2 K3 K4]. split; [split|..]; [..|shelve|done|done|done|].
  - intros x s [? ?]. by split; [|apply K1].
  - intros x s [? ?]. by apply K2.
  - intros s [? ?]. by apply K3.
  - intros x y s [? ?]. by apply K4.
  - intros x s _. split; [done|]. intros t'. cbn. destruct (decide (t' = t)) as [->|?]; [rewrite lookup_alter_eq|by rewrite lookup_alter_ne].
    destruct (tasks (the_kernel s) !! t); reflexivity.
  Unshelve.
  intros s [[E Hc] _]. unfold current_pm_heap. cbn [get bind exec]. rewrite E.
  by run (exec_on_kernel_same current s t (exec_current _ _ Hc)).
Qed.
End instances.

(** *** The new lists are empty *)

Definition new_contents (ids : list nat) (C : contents) : contents := foldl (λ C w, <[WaitList w := []]> C) C ids.

Lemma sinv_new_list `{Arch} s ts C out w :
  sinv s ts C out → C !! WaitList w = None →
  sinv (with_lists (<[WaitList w := plist_new]>) s) ts (<[WaitList w := []]> C) out.
Proof.
  intros [Hr He Hrd Hd Hs Hev] HC. set (s' := with_lists (<[WaitList w := plist_new]>) s).
  assert (Ht : only_touches (WaitList w) [] s s').
  { split; [done|]. intros l Hl. cbn. by rewrite lookup_insert_ne. }
  assert (Hin : ∀ l e, in_list C l e → in_list (<[WaitList w := []]> C) l e).
  { intros l e (xs & Hl & Hx). exists xs. split; [|done]. rewrite lookup_insert_ne; [done|congruence]. }
  split.
  - destruct Hr as [Hr Hsz]. split; [|done]. intros l xs [[<- <-]|[Hne Hl]]%lookup_insert_Some.
    + split; [cbn; by rewrite lookup_insert_eq|]. by split; [|constructor].
    + specialize (Hr l xs Hl). unfold holds in *.
      destruct (is_ready_list l); [eapply only_touches_circular|eapply only_touches_linear]; try done; set_solver.
  - intros l xs e [[<- <-]|[_ Hl]]%lookup_insert_Some Hx; [by inversion Hx|by eapply He].
  - intros p Hp. apply lookup_insert_is_Some'. right. auto.
  - destruct Hd as (dl & Hdl & ?). exists dl. by rewrite lookup_insert_ne.
  - intros t b Hb. destruct (Hs t b Hb) as [Hp [[? ?]|[? [[? (u & ?)]|[? (u & ?)]]]]]; (split; [done|]); [by left|right..];
      (split; [done|]); [left|right]; (split; [done|]); exists u; auto.
  - intros t b Hb. destruct (Hev t b Hb) as [?|(wl & o & ?)]; [by left|right]. exists wl, o. auto.
Qed.

Lemma kinv_new_lists `{Arch} ids k C out :
  kinv k C out → NoDup ids → (∀ w, w ∈ ids → C !! WaitList w = None) → kinv (new_lists ids k) (new_contents ids C) out.
Proof.
  revert k C; induction ids as [|w ids IH]; intros k C Hk Hnd Hids; [by rewrite new_lists_nil|].
  apply NoDup_cons in Hnd as [Hw Hnd].
  change (kinv (new_lists ids (new_lists [w] k)) (new_contents ids (<[WaitList w := []]> C)) out). apply IH; [|done|].
  - apply sinv_new_list; [done|]. apply Hids. constructor.
  - intros w' Hw'. rewrite lookup_insert_ne by congruence. apply Hids. by constructor.
Qed.

(** ** The body of a creation

    Its states: the memory is [p], and the lists [ids] have been created. *)
Section body.
Context `{Arch, Board, TxFeatures} (Hboard : board_ok) (Hopt : opt_tx_cache_space = true) (Hcache : cache_ok).
Context (th : nat → PMHeap) (bh h : PMHeap) (L : Lens tx_state statics) (I : statics → Prop) (HL : tx_lens th bh h L I).
Context (s : statics) (Hs : I s) (Hcur : exec get_current_tx s = Done L s).

Definition creating (c1 : tx_state) (p : pmem) (ids : list nat) : statics :=
  on_the_kernel (new_lists ids) (lset (Lens := L) (with_pm p c1) s).

Lemma creating_nil c1 p : creating c1 p [] = lset (Lens := L) (with_pm p c1) s.
Proof. unfold creating, on_the_kernel. rewrite new_lists_nil. apply kernel_same. Qed.
Lemma creating_I c1 p ids : I (creating c1 p ids).
Proof. apply (tl_keep _ _ _ _ _ HL). by apply (lw_keep _ _ (tl_lawful _ _ _ _ _ HL)). Qed.
Lemma creating_set c1 p ids d : lset (Lens := L) d (creating c1 p ids) = on_the_kernel (new_lists ids) (lset (Lens := L) d s).
Proof.
  unfold creating. rewrite (tl_set _ _ _ _ _ HL), (lw_twice _ _ (tl_lawful _ _ _ _ _ HL)); [done..|].
  by apply (lw_keep _ _ (tl_lawful _ _ _ _ _ HL)).
Qed.
Lemma creating_get c1 p ids : lget (Lens := L) (creating c1 p ids) = with_pm p c1.
Proof.
  unfold creating. rewrite (tl_get _ _ _ _ _ HL) by (by apply (lw_keep _ _ (tl_lawful _ _ _ _ _ HL))).
  by rewrite (lw_get _ _ (tl_lawful _ _ _ _ _ HL)).
Qed.

Lemma exec_creating {A} (q : prog pmem A) c1 p ids a p' :
  exec q p = Done a p' → exec (zoom (Lens0 := journal_of L) q) (creating c1 p ids) = Done a (creating c1 p' ids).
Proof.
  intros E. rewrite (exec_zoom_lawful_done (journal_of L) I _ _ a p' (journal_of_lawful _ _ (tl_lawful _ _ _ _ _ HL)) (creating_I c1 p ids)).
  - cbn [journal_of lset]. by rewrite creating_get, creating_set.
  - cbn [journal_of lget]. by rewrite creating_get.
Qed.
Lemma exec_new_list c1 p ids a :
  exec (new_list_at a) (creating c1 p ids) = Done tt (creating c1 p (ids ++ [wait_list_at a])).
Proof.
  unfold new_list_at. erewrite exec_on_the_kernel; [|apply exec_on_lists; reflexivity]. unfold creating, on_the_kernel. rewrite <-new_lists_snoc. done.
Qed.
Lemma exec_heap c1 p ids : exec (current_pm_heap th bh) (creating c1 p ids) = Done h (creating c1 p ids).
Proof. apply (tl_heap _ _ _ _ _ HL), creating_I. Qed.

(** From the body to its transaction. *)
Lemma exec_creation {T} `{PlainLaws T} (f : Lens pmem statics → prog statics T) n b bs m r p ids :
  ready b n n (length bs) bs m (lget (Lens := L) s) → fits (T := T) n (length bs) → jgood p →
  (∀ c1, exec (f (journal_of L)) (creating c1 (tx_pm (lget (Lens := L) s)) []) = Done r (creating c1 p ids)) →
  ∃ d, exec (transaction_run f) s = Done r (on_the_kernel (new_lists ids) (lset (Lens := L) d s)) ∧ bytes (tx_pm d) = bytes p ∧
    ready true (S n) (S n) (length (bs ++ to_bytes r)) (bs ++ to_bytes r) (bytes p) d.
Proof.
  intros Hr Hfit Hg Hf.
  destruct (exec_transaction_run Hopt Hcache L I f s n b bs m r Hcur (tl_lawful _ _ _ _ _ HL) Hs Hr Hfit) as (c1 & Epm & Hrun).
  specialize (Hf c1). rewrite creating_nil, <-Epm in Hf. replace (with_pm (tx_pm c1) c1) with c1 in Hf by (by destruct c1).
  destruct (Hrun _ p Hf (creating_I c1 p ids) (creating_get c1 p ids) Hg) as (d & E & ? & ?).
  exists d. by rewrite <-(creating_set c1 p ids d).
Qed.

Lemma creation_fails {T} `{PlainLaws T} (f : Lens pmem statics → prog statics T) n b bs m e :
  ready b n n (length bs) bs m (lget (Lens := L) s) →
  (∀ c1, exec (f (journal_of L)) (creating c1 (tx_pm (lget (Lens := L) s)) []) = Failed e) →
  exec (transaction_run f) s = Failed e.
Proof.
  intros Hr Hf. eapply (exec_transaction_fail Hopt Hcache L I); [exact Hcur|apply HL|exact Hs|exact Hr|].
  intros c1 E. specialize (Hf c1). rewrite creating_nil, <-E in Hf. by replace (with_pm (tx_pm c1) c1) with c1 in Hf by (by destruct c1).
Qed.

(** The scheduler does not notice a creation. *)
Lemma created_kinv d ids C out :
  kinv (the_kernel s) C out → NoDup ids → (∀ w, w ∈ ids → C !! WaitList w = None) →
  kinv (the_kernel (on_the_kernel (new_lists ids) (lset (Lens := L) d s))) (new_contents ids C) out.
Proof.
  intros Hk Hnd Hids. destruct (tl_sched _ _ _ _ _ HL d s Hs) as [El Est]. apply kinv_new_lists; [|done..].
  unfold kinv. change (the_kernel (lset d s)) with (the_kernel (lset (Lens := L) d s)). rewrite El. by eapply sinv_status.
Qed.
End body.

(** ** The memory of a new object *)

Section memory.
Context `{Arch, Board} (Hboard : board_ok).
Implicit Types (m : list Z) (p : pmem) (fs : list (Z * Z)).

(** Fields at the offsets [os] of an object of [size] bytes that do not overlap. *)
Fixpoint fields_ok (size : Z) (os : list Z) : Prop :=
  match os with
  | [] => True
  | o :: os => 0 ≤ o ∧ o + Z.of_nat usize_bytes ≤ size ∧
      Forall (λ o', o + Z.of_nat usize_bytes ≤ o' ∨ o' + Z.of_nat usize_bytes ≤ o) os ∧ fields_ok size os
  end.
Definition fields_mem (q : Z) fs m : list Z := foldl (λ m f, list_inserts (Z.to_nat (q + f.1)) (usize_to_bytes f.2) m) m fs.

Lemma length_fields_mem q fs m : length (fields_mem q fs m) = length m.
Proof. revert m; induction fs as [|f fs IH]; intros m; [done|]. unfold fields_mem in *. cbn. by rewrite IH, length_inserts. Qed.

Lemma fields_ok_all size os : fields_ok size os → Forall (λ o, 0 ≤ o ∧ o + Z.of_nat usize_bytes ≤ size) os.
Proof. induction os as [|o os IH]; [done|]. intros (? & ? & _ & ?). constructor; auto. Qed.

Lemma exec_store_fields q size fs p :
  0 ≤ q → q + size ≤ Z.of_nat (length (bytes p)) → fields_ok size fs.*1 →
  exec (store_fields q fs) p = Done tt {| bytes := fields_mem q fs (bytes p); journal := journal p |}.
Proof.
  intros Hq. revert p; induction fs as [|[o v] fs IH]; intros p Hl Hf; [by destruct p|]. destruct Hf as (? & ? & _ & Hf). cbn in *.
  erewrite exec_bind_done; [|apply exec_write_usize; lia]. cbn. rewrite IH; [done| |done]. cbn. by rewrite length_inserts.
Qed.

(** A slice apart from all fields is kept. *)
Lemma fields_mem_slice q size fs m b k :
  0 ≤ q → q + size ≤ Z.of_nat (length m) → fields_ok size fs.*1 → (b + k ≤ length m)%nat →
  Forall (λ o, apart b k (Z.to_nat (q + o)) usize_bytes) fs.*1 → slice b k (fields_mem q fs m) = slice b k m.
Proof.
  intros Hq. revert m; induction fs as [|[o v] fs IH]; intros m Hl Hf Hb Ha; [done|].
  destruct Hf as (? & ? & _ & Hf). apply Forall_cons in Ha as [Ha Has]. cbn in *.
  change (slice b k (fields_mem q fs (list_inserts (Z.to_nat (q + o)) (usize_to_bytes v) m)) = slice b k m). rewrite IH by (rewrite ?length_inserts; done). apply slice_inserts_apart; rewrite ?length_usize_to_bytes; [done|lia|lia].
Qed.
Lemma fields_mem_outside q size fs m b k :
  0 ≤ q → q + size ≤ Z.of_nat (length m) → fields_ok size fs.*1 → (b + k ≤ length m)%nat →
  apart b k (Z.to_nat q) (Z.to_nat size) → slice b k (fields_mem q fs m) = slice b k m.
Proof.
  intros Hq Hl Hf Hb Ha. eapply fields_mem_slice; [done..|]. eapply Forall_impl; [by apply fields_ok_all|].
  intros o [? ?]. unfold apart in *. lia.
Qed.

Lemma fields_mem_word q size fs m o v :
  0 ≤ q → q + size ≤ Z.of_nat (length m) → fields_ok size fs.*1 → (o, v) ∈ fs → is_usize v →
  word (fields_mem q fs m) (Z.to_nat (q + o)) v.
Proof.
  intros Hq. revert m; induction fs as [|[o' v'] fs IH]; intros m Hl Hf Hin Hv; [by inversion Hin|].
  destruct Hf as (Ho & Hos & Ha & Hf). cbn in Ho, Hos, Ha. change (fields_mem q ((o', v') :: fs) m) with (fields_mem q fs (list_inserts (Z.to_nat (q + o')) (usize_to_bytes v') m)).
  apply elem_of_cons in Hin as [[= <- <-]|Hin].
  - assert (Hw : word (list_inserts (Z.to_nat (q + o)) (usize_to_bytes v) m) (Z.to_nat (q + o)) v) by (apply word_set; [lia|done]).
    destruct Hw as (Hlw & Hsw & _). split; [by rewrite length_fields_mem|]. split; [|done]. etrans; [|exact Hsw].
    eapply fields_mem_slice; [done|by rewrite length_inserts|done|done|].
    pose proof (fields_ok_all _ _ Hf) as Hall. rewrite !Forall_forall in *. intros o' Hin.
    specialize (Ha o' Hin). specialize (Hall o' Hin). cbn beta in *. unfold apart. lia.
  - apply IH; [by rewrite length_inserts|done..].
Qed.

(** *** Allocating *)

Definition heap_outside (l : hlayout) (start stop : Z) : Prop :=
  apart (hl_start l) usize_bytes (Z.to_nat start) (Z.to_nat (stop - start)) ∧
  apart (hl_end l) usize_bytes (Z.to_nat start) (Z.to_nat (stop - start)) ∧
  apart (hl_next l) usize_bytes (Z.to_nat start) (Z.to_nat (stop - start)).

(** A heap whose area is in the memory and apart from its record. *)
Record arena (l : hlayout) m (start stop next : Z) : Prop := {
  ar_repr : heap_repr l m start stop next;
  ar_next : 0 < next;
  ar_outside : heap_outside l start stop;
  ar_inside : stop ≤ Z.of_nat (length m);
}.

(** Stores to a block of the heap keep it. *)
Lemma heap_repr_block l m m' start stop next :
  arena l m start stop next → length m' = length m →
  (∀ b k, (b + k ≤ length m)%nat → apart b k (Z.to_nat start) (Z.to_nat (stop - start)) → slice b k m' = slice b k m) →
  heap_repr l m' start stop next.
Proof.
  intros [[Hs He Hn Ho Hob Hi Ha Hb] _ (O1 & O2 & O3) _] Hl Hsl.
  assert (Hw : ∀ a v, apart a usize_bytes (Z.to_nat start) (Z.to_nat (stop - start)) → word m a v → word m' a v).
  { intros a v Hap (Hla & Hsa & Hv). split; [by rewrite Hl|]. split; [|done]. rewrite <-Hsa. by apply Hsl. }
  split; [by apply Hw..|done|by rewrite Hl|done|done|by rewrite Hl].
Qed.

Lemma exec_palloc l p start stop next size k :
  jgood p → arena l (bytes p) start stop next → layout_ok stop size k →
  tail (journal p) + Z.of_nat heap_record ≤ JOURNAL_SIZE →
  let q := aligned next k in
  ∃ p', exec (pm_alloc (heap_of l) {| layout_size := size; layout_align := 2 ^ k |}) p = Done (if q + size <=? stop then q else 0) p' ∧
    jgood p' ∧ tail (journal p') = tail (journal p) + Z.of_nat heap_record ∧
    if q + size <=? stop then arena l (bytes p') start stop (q + size) ∧ next_frame l (bytes p) (bytes p') else bytes p' = bytes p.
Proof.
  intros [es Hu]%jgood_undoes Har Hok Hroom q. pose proof Har as [Hr Hn Hout Hin].
  destruct (runs_exec _ _ _ _ (runs_pm_alloc Hboard l _ es p start stop next size k Hu Hr Hok Hroom)) as (a & p' & Ex & [es' Hu'] & Ht & Hcase).
  exists p'. cbn zeta in Hcase. fold q in Hcase. rewrite Ex.
  destruct Hok as (Hk & Hsz & _). pose proof (aligned_bounds next k ltac:(lia)) as [Hq _]. fold q in Hq.
  destruct (q + size <=? stop).
  - destruct Hcase as (-> & Hr' & Hf). split; [done|]. split; [by eapply undoes_jgood|]. split; [done|]. split; [|done].
    split; [done|lia|done|]. destruct Hf as [-> _]. done.
  - destruct Hcase as (-> & Hb). split; [done|]. split; [by eapply undoes_jgood|]. done.
Qed.
End memory.

(** ** Queues *)

Section queues.
Context `{Arch, Board, TxFeatures} (Hboard : board_ok) (Hopt : opt_tx_cache_space = true) (Hcache : cache_ok).
Context (Lay : layouts) (sz k : Z) (Hlay : queue_layout Lay = {| layout_size := sz; layout_align := 2 ^ k |}).
(** The words of a queue and its lists lie in it. *)
Context (Hfields : fields_ok sz [qo_length Lay; qo_item_size Lay; qo_read_pos Lay; qo_write_pos Lay; qo_items_enqueued Lay;
  qo_buffer Lay; qo_buffer_size Lay; qo_tail Lay]).
Context (th : nat → PMHeap) (bh : PMHeap) (hl : hlayout) (L : Lens tx_state statics) (I : statics → Prop).
Context (HL : tx_lens th bh (heap_of hl) L I).
Context `{PT : !Plain (Result (option Z) ErrorCode), !PlainLaws (Result (option Z) ErrorCode)}.

(** The queue at address [q] with its buffer behind it. *)
Definition created_queue (q : Z) (len isz : nat) : qlayout := {|
  ql_length := len; ql_item := isz; ql_buf := Z.to_nat (q + sz);
  ql_read := Z.to_nat (q + qo_read_pos Lay); ql_write := Z.to_nat (q + qo_write_pos Lay); ql_count := Z.to_nat (q + qo_items_enqueued Lay);
  ql_readers := wait_list_at (q + qo_blocked_readers Lay); ql_writers := wait_list_at (q + qo_blocked_writers Lay);
|}.
Definition queue_fields (q : Z) (len isz : nat) : list (Z * Z) := [
  (qo_length Lay, Z.of_nat len); (qo_item_size Lay, Z.of_nat isz);
  (qo_read_pos Lay, 0); (qo_write_pos Lay, 0); (qo_items_enqueued Lay, 0);
  (qo_buffer Lay, q + sz); (qo_buffer_size Lay, Z.of_nat (len * isz)); (qo_tail Lay, Z.of_nat (len * isz))].

(** The memory in which the fields of the queue have been stored. *)
Lemma created_queue_repr m q len isz :
  0 ≤ q → (0 < len)%nat → (0 < isz)%nat → q + sz + Z.of_nat (len * isz) ≤ Z.of_nat (length m) → Z.of_nat (length m) < usize_mod →
  let m' := fields_mem q (queue_fields q len isz) m in
  queue_repr (created_queue q len isz) m' [] ∧ QueueRing.layout_ok (created_queue q len isz) (length m) ∧
  ∀ j, exec (queue_at Lay q) {| bytes := m'; journal := j |} = Done (queue_of (created_queue q len isz)) {| bytes := m'; journal := j |}.
Proof.
  intros Hq Hlen Hisz Hl Hm m'.
  pose proof (fields_ok_all _ _ Hfields) as Hall. rewrite !Forall_cons in Hall. destruct Hall as (F1 & F2 & F3 & F4 & F5 & F6 & F7 & F8 & _).
  assert (Hw : ∀ o v, (o, v) ∈ queue_fields q len isz → is_usize v → word m' (Z.to_nat (q + o)) v).
  { intros o v Hin Hv. eapply fields_mem_word; [done| |exact Hfields|done|done]. lia. }
  assert (Hap : apart (Z.to_nat (q + qo_read_pos Lay)) usize_bytes (Z.to_nat (q + qo_write_pos Lay)) usize_bytes ∧
    apart (Z.to_nat (q + qo_read_pos Lay)) usize_bytes (Z.to_nat (q + qo_items_enqueued Lay)) usize_bytes ∧
    apart (Z.to_nat (q + qo_write_pos Lay)) usize_bytes (Z.to_nat (q + qo_items_enqueued Lay)) usize_bytes).
  { destruct Hfields as (_ & _ & _ & _ & _ & _ & _ & _ & A3 & _ & _ & A4 & _).
    rewrite !Forall_cons in A3, A4. destruct A3 as (A1 & A2 & _), A4 as (A3 & _). clear -A1 A2 A3 F3 F4 F5 Hq. unfold apart. lia. }
  clear Hfields. split; [|split].
  - exists 0%nat. split; [done|]. split; [cbn; lia|]. cbn. rewrite Nat.Div0.mod_0_l.
    assert (Hz : is_usize 0) by (unfold is_usize; lia).
    split; [apply Hw; [repeat constructor|done]|]. split; [apply Hw; [repeat constructor|done]|]. split; [apply Hw; [repeat constructor|done]|].
    intros i x Hx. by rewrite lookup_nil in Hx.
  - destruct Hap as (? & ? & ?). split; cbn; try done; [lia|].
    intros a Ha. unfold ql_vars in Ha. cbn in Ha. rewrite !elem_of_cons, elem_of_nil in Ha. unfold apart.
    destruct Ha as [->|[->|[->|[]]]]; lia.
  - intros j. set (p := {| bytes := m'; journal := j |}).
    assert (Hr : ∀ o v, (o, v) ∈ queue_fields q len isz → 0 ≤ o → is_usize v → exec (read_usize (q + o)) p = Done v p).
    { intros o v Hin Ho Hv. apply exec_read_word; [lia|by apply Hw]. }
    assert (len ≤ len * isz ∧ isz ≤ len * isz)%nat as [? ?] by nia. unfold is_usize in Hr. unfold queue_at.
    run (Hr (qo_length Lay) (Z.of_nat len) ltac:(repeat constructor) ltac:(lia) ltac:(lia)).
    run (Hr (qo_item_size Lay) (Z.of_nat isz) ltac:(repeat constructor) ltac:(lia) ltac:(lia)).
    run (Hr (qo_buffer Lay) (q + sz) ltac:(repeat constructor) ltac:(lia) ltac:(lia)).
    run (Hr (qo_tail Lay) (Z.of_nat (len * isz)) ltac:(repeat constructor) ltac:(lia) ltac:(lia)).
    unfold queue_of, created_queue. cbn [ql_length ql_item ql_buf ql_read ql_write ql_count ql_readers ql_writers]. rewrite !Z2Nat.id by lia. done.
Qed.

(** What a creation has come to: no room for the queue; none for its buffer, and
    the block of the queue is lost; or an empty queue. *)
Definition queue_result (m m' : list Z) (start stop next : Z) (len isz : nat) (r : option Z) (ids : list nat) : Prop :=
  let q := aligned next k in
  if q + sz <=? stop then
    if q + sz + Z.of_nat (len * isz) <=? stop then
      r = Some q ∧ ids = [wait_list_at (q + qo_blocked_readers Lay); wait_list_at (q + qo_blocked_writers Lay)] ∧
      arena hl m' start stop (q + sz + Z.of_nat (len * isz)) ∧
      queue_repr (created_queue q len isz) m' [] ∧ QueueRing.layout_ok (created_queue q len isz) (length m') ∧
      ∀ j, exec (queue_at Lay q) {| bytes := m'; journal := j |} = Done (queue_of (created_queue q len isz)) {| bytes := m'; journal := j |}
    else r = None ∧ ids = [] ∧ arena hl m' start stop (q + sz)
  else r = None ∧ ids = [] ∧ m' = m.

Lemma sz_pos : 0 < sz.
Proof. destruct Hfields as (? & ? & _). pose proof usize_bytes_cases. lia. Qed.

Lemma queue_tx_exec s (Hs : I s) p start stop next len isz :
  jgood p → arena hl (bytes p) start stop next → HeapSpec.layout_ok stop sz k → (0 < len)%nat → (0 < isz)%nat →
  Z.of_nat (len * isz) < usize_mod / 2 → tail (journal p) + 2 * Z.of_nat heap_record ≤ JOURNAL_SIZE →
  ∃ r p' ids, (∀ c1, exec (queue_new_tx Lay th bh (Z.of_nat len) (Z.of_nat isz) (journal_of L)) (creating L s c1 p []) =
      Done r (creating L s c1 p' ids)) ∧ jgood p' ∧
    queue_result (bytes p) (bytes p') start stop next len isz (match r with Ok v => v | Err _ => None end) ids.
Proof.
  intros Hg Har Hok Hlen Hisz Hhalf Hroom. pose proof sz_pos as Hsz. pose proof Har as [_ Hn _ _].
  pose proof Hok as (Hk & _ & Htop). pose proof (aligned_bounds next k ltac:(lia)) as [Hq _]. set (q := aligned next k) in *.
  assert (Hpow : 0 < 2 ^ k) by (apply Z.pow_pos_nonneg; lia).
  destruct (exec_palloc Hboard hl p start stop next sz k Hg Har Hok ltac:(lia)) as (p1 & E1 & Hg1 & Ht1 & Hc1). fold q in E1, Hc1.
  assert (Ep : exec (palloc (heap_of hl) (queue_layout Lay)) p = Done (if q + sz <=? stop then Some q else None) p1).
  { unfold palloc. rewrite Hlay. run E1. cbn. unfold non_null. destruct (q + sz <=? stop); [|done]. by destruct (Z.eqb_spec q 0); [lia|]. }
  assert (Hstart : ∀ c1, exec (queue_new_tx Lay th bh (Z.of_nat len) (Z.of_nat isz) (journal_of L)) (creating L s c1 p []) =
    exec (match (if q + sz <=? stop then Some q else None) with
      | None => Ret (Err NoSpace)
      | Some q0 =>
          let* buffer := parray_new th bh (journal_of L) 1 (umul (Z.of_nat len) (Z.of_nat isz)) in
          match buffer with
          | None => Ret (Err NoSpace)
          | Some b => init_queue Lay (journal_of L) q0 b (Z.of_nat len) (Z.of_nat isz);;; Ret (Ok (if q + sz <=? stop then Some q else None))
          end
      end) (creating L s c1 p1 [])).
  { intros c1. unfold queue_new_tx. run (exec_heap th bh (heap_of hl) L I HL s Hs c1 p []).
    by run (exec_creating th bh _ L I HL s Hs _ c1 p [] _ _ Ep). }
  unfold queue_result. fold q.
  destruct (q + sz <=? stop); [|by exists (Err NoSpace), p1, []].
  destruct Hc1 as [Har1 Hf1]. assert (Hal : aligned (q + sz) 0 = q + sz) by (unfold aligned; rewrite Z.add_simpl_r, Z.div_1_r; lia).
  assert (Hmul : umul (Z.of_nat len) (Z.of_nat isz) = Z.of_nat (len * isz)).
  { unfold umul, wrap. assert (usize_mod / 2 ≤ usize_mod) by (pose proof usize_mod_pos; apply Z.div_le_upper_bound; lia).
    rewrite Z.mod_small; lia. }
  destruct (exec_palloc Hboard hl p1 start stop (q + sz) (Z.of_nat (len * isz)) 0 Hg1 Har1) as (p2 & E2 & Hg2 & Ht2 & Hc2).
  { split; [split; [lia|apply word_bits_pos]|]. assert (usize_mod / 2 ≤ usize_mod) by (pose proof usize_mod_pos; apply Z.div_le_upper_bound; lia).
    change (2 ^ 0) with 1. lia. }
  { lia. }
  rewrite Hal in E2, Hc2. change (2 ^ 0) with 1 in E2.
  assert (Ea : exec (palloc_array (heap_of hl) 1 (umul (Z.of_nat len) (Z.of_nat isz))) p1 =
    Done (if q + sz + Z.of_nat (len * isz) <=? stop then Some (q + sz) else None) p2).
  { assert (Hmul1 : umul 1 (Z.of_nat (len * isz)) = Z.of_nat (len * isz)).
    { unfold umul, wrap. assert (usize_mod / 2 ≤ usize_mod) by (pose proof usize_mod_pos; apply Z.div_le_upper_bound; lia).
      rewrite Z.mod_small; lia. }
    unfold palloc_array, layout_array_u8. rewrite Hmul, Hmul1. rewrite (proj2 (Z.ltb_lt _ _)) by done. run E2. cbn. unfold non_null.
    destruct (_ <=? stop); [|done]. by destruct (Z.eqb_spec (q + sz) 0); [lia|]. }
  assert (Hbuf : ∀ c1, exec (parray_new th bh (journal_of L) 1 (umul (Z.of_nat len) (Z.of_nat isz))) (creating L s c1 p1 []) =
    Done (if q + sz + Z.of_nat (len * isz) <=? stop then Some {| pa_ptr := q + sz; pa_size := Z.of_nat (len * isz) |} else None) (creating L s c1 p2 [])).
  { intros c1. unfold parray_new. run (exec_heap th bh (heap_of hl) L I HL s Hs c1 p1 []).
    run (exec_creating th bh _ L I HL s Hs _ c1 p1 [] _ _ Ea). rewrite Hmul. by destruct (_ <=? stop). }
  destruct (q + sz + Z.of_nat (len * isz) <=? stop) eqn:Hfit.
  2:{ exists (Err NoSpace), p2, []. split; [|by rewrite Hc2]. intros c1. rewrite Hstart. by run (Hbuf c1). }
  destruct Hc2 as [Har2 Hf2]. apply Z.leb_le in Hfit.
  pose proof (ar_inside _ _ _ _ _ Har2) as Hin2. pose proof (hr_bounds _ _ _ _ _ (ar_repr _ _ _ _ _ Har2)) as Hb2.
  destruct (created_queue_repr (bytes p2) q len isz ltac:(lia) Hlen Hisz ltac:(lia) Hb2) as (Q1 & Q2 & Q3).
  set (m' := fields_mem q (queue_fields q len isz) (bytes p2)) in *.
  assert (Es : exec (store_fields q (queue_fields q len isz)) p2 = Done tt {| bytes := m'; journal := journal p2 |}).
  { apply (exec_store_fields q sz); [lia|lia|exact Hfields]. }
  assert (Hmul' : umul (Z.of_nat isz) (Z.of_nat len) = Z.of_nat (len * isz)) by (rewrite <-Hmul; unfold umul; by rewrite Z.mul_comm).
  eexists (Ok (Some q)), _, _. split.
  { intros c1. rewrite Hstart. run (Hbuf c1). unfold init_queue. cbn [pa_ptr pa_size]. rewrite Hmul', exec_bind.
    run (exec_creating th bh _ L I HL s Hs _ c1 p2 [] _ _ Es).
    run (exec_new_list L s c1 {| bytes := m'; journal := journal p2 |} [] (q + qo_blocked_readers Lay)).
    rewrite exec_new_list. cbn [app exec]. reflexivity. }
  cbn [bytes].
  assert (Hl' : length m' = length (bytes p2)) by apply length_fields_mem.
  split; [by apply jgood_bytes|]. split; [done|]. split; [done|]. split; [|by rewrite Hl'].
  split; [|lia|apply Har2|by rewrite Hl'].
  apply (heap_repr_block hl (bytes p2)); [done|done|]. intros b0 k0 Hb0 Hap.
  eapply fields_mem_outside; [lia| |exact Hfields|done|]; [lia|]. pose proof (hr_order _ _ _ _ _ (ar_repr _ _ _ _ _ Har)).
  assert (0 ≤ start). { destruct (hr_start _ _ _ _ _ (ar_repr _ _ _ _ _ Har)) as (_ & _ & [? _]). done. }
  unfold apart in *. lia.
Qed.
End queues.

(** ** Structures with words and one list *)

Section objects.
Context `{Arch, Board, TxFeatures} (Hboard : board_ok).
Context (th : nat → PMHeap) (bh : PMHeap) (hl : hlayout) (L : Lens tx_state statics) (I : statics → Prop).
Context (HL : tx_lens th bh (heap_of hl) L I) (s : statics) (Hs : I s).

Lemma exec_pm_new_object p start stop next size k (init : Z → prog statics unit) :
  jgood p → arena hl (bytes p) start stop next → HeapSpec.layout_ok stop size k →
  tail (journal p) + Z.of_nat heap_record ≤ JOURNAL_SIZE →
  let q := aligned next k in
  ∃ p1, jgood p1 ∧ (∀ c1, exec (pm_new_object th bh (journal_of L) {| layout_size := size; layout_align := 2 ^ k |} init) (creating L s c1 p []) =
      exec (if q + size <=? stop then init q;;; Ret (Some q) else Ret None) (creating L s c1 p1 [])) ∧
    if q + size <=? stop then arena hl (bytes p1) start stop (q + size) ∧ next_frame hl (bytes p) (bytes p1) else bytes p1 = bytes p.
Proof.
  intros Hg Har Hok Hroom q. pose proof Har as [_ Hn _ _]. pose proof Hok as (Hk & _).
  pose proof (aligned_bounds next k ltac:(lia)) as [Hq _]. fold q in Hq.
  destruct (exec_palloc Hboard hl p start stop next size k Hg Har Hok Hroom) as (p1 & E1 & Hg1 & _ & Hc1). fold q in E1, Hc1.
  exists p1. split; [done|]. split; [|done]. intros c1. unfold pm_new_object.
  run (exec_heap th bh (heap_of hl) L I HL s Hs c1 p []).
  assert (Ep : exec (palloc (heap_of hl) {| layout_size := size; layout_align := 2 ^ k |}) p = Done (if q + size <=? stop then Some q else None) p1).
  { unfold palloc. run E1. cbn. unfold non_null. destruct (q + size <=? stop); [|done]. by destruct (Z.eqb_spec q 0); [lia|]. }
  run (exec_creating th bh _ L I HL s Hs _ c1 p [] _ _ Ep). by destruct (q + size <=? stop).
Qed.

(** Storing the fields of a new structure keeps the heap. *)
Lemma fields_arena m q size fs start stop next :
  arena hl m start stop next → start ≤ q → 0 ≤ size → q + size ≤ next → fields_ok size fs.*1 → arena hl (fields_mem q fs m) start stop next.
Proof.
  intros Har Hq Hsz0 Hsz Hf. pose proof Har as [Hr Hn Ho Hin]. split; [|done..|by rewrite length_fields_mem].
  pose proof (hr_order _ _ _ _ _ Hr). destruct (hr_start _ _ _ _ _ Hr) as (_ & _ & [? _]).
  apply (heap_repr_block hl m); [done|apply length_fields_mem|]. intros b k Hb Hap.
  eapply fields_mem_outside; [lia| |exact Hf|done|]; [lia|]. unfold apart in *. lia.
Qed.

(** *** Event groups *)

Definition created_event_group (Lay : layouts) (q : Z) : eglayout :=
  EgLayout (Z.to_nat (q + eo_event_bits Lay)) (wait_list_at (q + eo_waiting_tasks Lay)).
Definition event_group_result (Lay : layouts) (sz k : Z) (m m' : list Z) (start stop next : Z) (r : option Z) (ids : list nat) : Prop :=
  let q := aligned next k in
  if q + sz <=? stop then
    r = Some q ∧ ids = [wait_list_at (q + eo_waiting_tasks Lay)] ∧ arena hl m' start stop (q + sz) ∧
    event_group_at Lay q = eg_of (created_event_group Lay q) ∧ word m' (eg_word (created_event_group Lay q)) 0
  else r = None ∧ ids = [] ∧ m' = m.

Lemma event_group_tx_exec (Lay : layouts) sz k p start stop next :
  event_group_layout Lay = {| layout_size := sz; layout_align := 2 ^ k |} → fields_ok sz [eo_event_bits Lay] →
  jgood p → arena hl (bytes p) start stop next → HeapSpec.layout_ok stop sz k →
  tail (journal p) + Z.of_nat heap_record ≤ JOURNAL_SIZE →
  ∃ r p' ids, (∀ c1, exec (event_group_new_from_heap Lay th bh (journal_of L)) (creating L s c1 p []) = Done r (creating L s c1 p' ids)) ∧
    jgood p' ∧ event_group_result Lay sz k (bytes p) (bytes p') start stop next r ids.
Proof.
  intros Hlay Hf Hg Har Hok Hroom. unfold event_group_new_from_heap, event_group_result. rewrite Hlay.
  destruct (exec_pm_new_object p start stop next sz k (init_event_group Lay (journal_of L)) Hg Har Hok Hroom) as (p1 & Hg1 & Hex & Hc1).
  pose proof Har as [Hrep Hn _ _]. pose proof Hok as (Hk & Hsz & _). pose proof (aligned_bounds next k ltac:(lia)) as [Hq _].
  pose proof (hr_order _ _ _ _ _ Hrep).
  set (q := aligned next k) in *. destruct (q + sz <=? stop); [|by exists None, p1, []].
  destruct Hc1 as [Har1 _]. pose proof (ar_inside _ _ _ _ _ Har1) as Hin. pose proof (hr_order _ _ _ _ _ (ar_repr _ _ _ _ _ Har1)).
  set (fs := [(eo_event_bits Lay, 0)]). set (m' := fields_mem q fs (bytes p1)).
  assert (Es : exec (store_fields q fs) p1 = Done tt {| bytes := m'; journal := journal p1 |}) by (apply (exec_store_fields q sz); [lia|lia|exact Hf]).
  eexists (Some q), _, _. split; [|split; [apply (jgood_bytes p1 m' Hg1), length_fields_mem|]].
  - intros c1. rewrite Hex, exec_bind. unfold init_event_group. fold fs.
    run (exec_creating th bh _ L I HL s Hs _ c1 p1 [] _ _ Es). rewrite exec_new_list. cbn [app exec]. reflexivity.
  - split; [done|]. split; [done|]. split; [by apply (fields_arena (bytes p1) q sz); [done|lia|lia|lia|exact Hf]|].
    split; [unfold event_group_at, eg_of, created_event_group; cbn; by rewrite Z2Nat.id by (destruct Hf; lia)|].
    apply (fields_mem_word q sz fs (bytes p1) (eo_event_bits Lay) 0); [lia|lia|exact Hf|constructor|]. pose proof usize_mod_pos. unfold is_usize. lia.
Qed.

(** *** Semaphores *)

Definition created_semaphore (Lay : layouts) (q count : Z) : semlayout :=
  SemLayout (Z.to_nat (q + so_count Lay)) (Z.to_nat (q + so_mutex_holder Lay)) count (wait_list_at (q + so_wait_list Lay)).
(** The flag of a mutex is a byte beside the words. *)
Definition byte_beside (sz o : Z) (os : list Z) : Prop :=
  0 ≤ o < sz ∧ Forall (λ o', o + 1 ≤ o' ∨ o' + Z.of_nat usize_bytes ≤ o) os.
Definition semaphore_result (Lay : layouts) (sz k count : Z) (m' : list Z) (start stop next : Z) (r : option Z) (ids : list nat) : Prop :=
  let q := aligned next k in
  r = Some q ∧ ids = [wait_list_at (q + so_wait_list Lay)] ∧ arena hl m' start stop (q + sz) ∧
  sem_repr (created_semaphore Lay q count) m' count 0 ∧
  ∀ j, exec (semaphore_at Lay q) {| bytes := m'; journal := j |} = Done (sem_of (created_semaphore Lay q count)) {| bytes := m'; journal := j |}.

Lemma semaphore_tx_exec (Lay : layouts) sz k p start stop next count :
  semaphore_layout Lay = {| layout_size := sz; layout_align := 2 ^ k |} →
  fields_ok sz [so_count Lay; so_size Lay; so_mutex_holder Lay] → byte_beside sz (so_is_mutex Lay) [so_count Lay; so_size Lay; so_mutex_holder Lay] →
  is_usize count → jgood p → arena hl (bytes p) start stop next → HeapSpec.layout_ok stop sz k →
  tail (journal p) + Z.of_nat heap_record ≤ JOURNAL_SIZE →
  if aligned next k + sz <=? stop then
    ∃ r p' ids, (∀ c1, exec (semaphore_new Lay th bh (journal_of L) count) (creating L s c1 p []) = Done r (creating L s c1 p' ids)) ∧
      jgood p' ∧ semaphore_result Lay sz k count (bytes p') start stop next r ids
  else ∀ c1, exec (semaphore_new Lay th bh (journal_of L) count) (creating L s c1 p []) = Failed Panic.
Proof.
  intros Hlay Hf Hby Hcount Hg Har Hok Hroom. unfold semaphore_new, semaphore_result. rewrite Hlay.
  destruct (exec_pm_new_object p start stop next sz k (init_semaphore Lay (journal_of L) count) Hg Har Hok Hroom) as (p1 & Hg1 & Hex & Hc1).
  pose proof Har as [Hrep Hn _ _]. pose proof Hok as (Hk & Hsz & _). pose proof (aligned_bounds next k ltac:(lia)) as [Hq _].
  pose proof (hr_order _ _ _ _ _ Hrep).
  set (q := aligned next k) in *. destruct (q + sz <=? stop); [|intros c1; by rewrite exec_bind, Hex].
  destruct Hc1 as [Har1 _]. pose proof (ar_inside _ _ _ _ _ Har1) as Hin. pose proof (hr_order _ _ _ _ _ (ar_repr _ _ _ _ _ Har1)).
  set (fs := [(so_count Lay, count); (so_size Lay, count); (so_mutex_holder Lay, 0)]). set (m1 := fields_mem q fs (bytes p1)).
  assert (Hl1 : length m1 = length (bytes p1)) by apply length_fields_mem.
  assert (Es : exec (store_fields q fs) p1 = Done tt {| bytes := m1; journal := journal p1 |}) by (apply (exec_store_fields q sz); [lia|lia|exact Hf]).
  destruct Hby as [Hby0 Hby1]. set (a := Z.to_nat (q + so_is_mutex Lay)). set (m' := list_inserts a [Z.b2z (count =? 1)] m1).
  assert (Eb : exec (write_bytes (q + so_is_mutex Lay) [Z.b2z (count =? 1)]) {| bytes := m1; journal := journal p1 |} =
    Done tt {| bytes := m'; journal := journal p1 |}).
  { rewrite <-(Z2Nat.id (q + so_is_mutex Lay)) by lia. rewrite exec_write_bytes; [done|]. cbn [length bytes]. rewrite Hl1. lia. }
  assert (Hw : ∀ o v, (o, v) ∈ fs → is_usize v → word m' (Z.to_nat (q + o)) v).
  { intros o v Hin' Hv. apply word_inserts; [apply (fields_mem_word q sz); [lia|lia|exact Hf|done|done]| |cbn [length]; rewrite Hl1; lia].
    assert (Ho : o ∈ fs.*1) by (apply list_elem_of_fmap; by exists (o, v)).
    pose proof (fields_ok_all _ _ Hf) as Hall. rewrite Forall_forall in Hby1, Hall. specialize (Hby1 o Ho). specialize (Hall o Ho).
    cbn beta in *. unfold apart, a. cbn [length]. lia. }
  assert (Hz : is_usize 0) by (pose proof usize_mod_pos; unfold is_usize; lia).
  eexists (Some q), _, _. split; [|split; [apply (jgood_bytes p1 m' Hg1); unfold m'; by rewrite length_inserts|]].
  - intros c1. rewrite exec_bind, Hex, exec_bind. unfold init_semaphore. fold fs.
    run (exec_creating th bh _ L I HL s Hs _ c1 p1 [] _ _ Es). run (exec_new_list L s c1 {| bytes := m1; journal := journal p1 |} [] (q + so_wait_list Lay)).
    rewrite (exec_creating th bh _ L I HL s Hs _ c1 _ _ _ _ Eb). cbn [app exec bind unwrap]. reflexivity.
  - cbn [bytes]. assert (Har2 : arena hl m1 start stop (q + sz)) by (apply (fields_arena (bytes p1) q sz); [done|lia|lia|lia|exact Hf]).
    split; [done|]. split; [done|]. destruct Hf as (? & ? & Ha & ? & ? & _ & ? & ? & _). rewrite !Forall_cons in Ha.
    destruct Ha as (_ & Ha & _).
    split; [|split].
    + split; [|lia|apply Har2|unfold m'; rewrite length_inserts; apply Har2].
      destruct (hr_start _ _ _ _ _ Hrep) as (_ & _ & [? _]).
      apply (heap_repr_block hl m1); [done|apply length_inserts|]. intros b k0 Hb Hap.
      apply slice_inserts_apart; [unfold apart, a in *; cbn [length]; lia|lia|cbn [length]; unfold a; lia].
    + split; cbn [created_semaphore sl_count sl_holder]; [apply Hw; [repeat constructor|done]|apply Hw; [repeat constructor|done]|unfold apart; lia|].
      unfold m'. rewrite length_inserts, Hl1. apply (ar_repr _ _ _ _ _ Har1).
    + intros j. unfold semaphore_at.
      rewrite (exec_bind_done _ _ _ _ _ (exec_read_word {| bytes := m'; journal := j |} (q + so_size Lay) count ltac:(lia) (Hw (so_size Lay) count ltac:(right; left) Hcount))).
      cbn. unfold sem_of, created_semaphore. cbn. by rewrite !Z2Nat.id by lia.
Qed.
End objects.

(** C20: Creating a queue in a transaction that has not been executed yet: when the
    heap of the task (or of booting) has room for the structure and the buffer, the
    pointer leads to a queue that is empty, whose parts do not overlap and whose wait
    lists are empty; nothing else changes. Otherwise the result is [None]. If only the
    buffer does not fit, the block of the structure is lost, because the transaction
    commits. *)
Theorem queue_create_correct `{Arch, Board, TxFeatures} (Lay : layouts) sz k th bh hl L I
    `{!Plain (Result (option Z) ErrorCode), !PlainLaws (Result (option Z) ErrorCode)}
    s C n b bs m start stop next (len isz : nat) :
  board_ok → opt_tx_cache_space = true → cache_ok →
  queue_layout Lay = {| layout_size := sz; layout_align := 2 ^ k |} →
  fields_ok sz [qo_length Lay; qo_item_size Lay; qo_read_pos Lay; qo_write_pos Lay; qo_items_enqueued Lay;
    qo_buffer Lay; qo_buffer_size Lay; qo_tail Lay] →
  tx_lens th bh (heap_of hl) L I → I s → exec get_current_tx s = Done L s →
  ready b n n (length bs) bs m (lget (Lens := L) s) → fits (T := Result (option Z) ErrorCode) n (length bs) →
  arena hl m start stop next → HeapSpec.layout_ok stop sz k → (0 < len)%nat → (0 < isz)%nat →
  Z.of_nat (len * isz) < usize_mod / 2 → 2 * Z.of_nat heap_record ≤ JOURNAL_SIZE → kinv (the_kernel s) C None →
  ∃ r d ids, let s' := on_the_kernel (new_lists ids) (lset (Lens := L) d s) in
    exec (queue_create Lay th bh (Z.of_nat len) (Z.of_nat isz)) s = Done r s' ∧
    queue_result Lay sz k hl m (bytes (tx_pm d)) start stop next len isz r ids ∧
    (∃ bs', ready true (S n) (S n) (length bs') bs' (bytes (tx_pm d)) d) ∧
    (NoDup ids → (∀ w, w ∈ ids → C !! WaitList w = None) → kinv (the_kernel s') (new_contents ids C) None).
Proof.
  intros Hboard Hopt Hcache Hlay Hfields HL Hs Hcur Hr Hfit Har Hok Hlen Hisz Hhalf Hroom Hk.
  pose proof (ready_pm _ _ _ _ _ _ _ Hr) as Hu. pose proof (undoes_jgood _ _ _ Hu) as Hg.
  destruct (ready_empty _ _ _ _ _ _ _ Hr) as (_ & Ht & Hm).
  set (p := tx_pm (lget (Lens := L) s)) in *. rewrite <-Hm in Har.
  destruct (queue_tx_exec Hboard Lay sz k Hlay Hfields th bh hl L I HL s Hs p start stop next len isz Hg Har Hok Hlen Hisz Hhalf ltac:(lia))
    as (r & p' & ids & Hbody & Hg' & Hres).
  destruct (exec_creation Hopt Hcache th bh _ L I HL s Hs Hcur (queue_new_tx Lay th bh (Z.of_nat len) (Z.of_nat isz)) n b bs m r p' ids Hr Hfit Hg' Hbody)
    as (d & E & Ed & Hd).
  exists (match r with Ok v => v | Err _ => None end), d, ids. cbn zeta. split; [|split; [by rewrite Ed, <-Hm|split]].
  - unfold queue_create, queue_new. rewrite (proj2 (Z.eqb_neq (Z.of_nat len) 0)) by lia. by run E.
  - rewrite Ed. eauto.
  - by eapply created_kinv.
Qed.

(** The same for a structure of words and one list. *)
Section objects_created.
Context `{Arch, Board, TxFeatures} (Lay : layouts) (sz k : Z) (th : nat → PMHeap) (bh : PMHeap) (hl : hlayout) (L : Lens tx_state statics) (I : statics → Prop).
Context `{!Plain (option Z), !PlainLaws (option Z)} (s : statics) (C : contents) (n : nat) (b : bool) (bs m : list Z) (start stop next : Z).
Context (Hboard : board_ok) (Hopt : opt_tx_cache_space = true) (Hcache : cache_ok).
Context (HL : tx_lens th bh (heap_of hl) L I) (Hs : I s) (Hcur : exec get_current_tx s = Done L s).
Context (Hr : ready b n n (length bs) bs m (lget (Lens := L) s)) (Hfit : fits (T := option Z) n (length bs)).
Context (Har : arena hl m start stop next) (Hok : HeapSpec.layout_ok stop sz k) (Hroom : Z.of_nat heap_record ≤ JOURNAL_SIZE).
Context (Hk : kinv (the_kernel s) C None).

(** Creating an event group: when the heap has room for it the pointer leads to
    an event group without events and without waiting tasks, and the heap goes on
    behind it; otherwise the result is [None] and the memory is as before. The
    scheduler does not notice. *)
Theorem event_group_create_correct :
  event_group_layout Lay = {| layout_size := sz; layout_align := 2 ^ k |} → fields_ok sz [eo_event_bits Lay] →
  ∃ r d ids, let s' := on_the_kernel (new_lists ids) (lset (Lens := L) d s) in
    exec (create_event_group Lay th bh) s = Done r s' ∧
    event_group_result hl Lay sz k m (bytes (tx_pm d)) start stop next r ids ∧
    (∃ bs', ready true (S n) (S n) (length bs') bs' (bytes (tx_pm d)) d) ∧
    (NoDup ids → (∀ w, w ∈ ids → C !! WaitList w = None) → kinv (the_kernel s') (new_contents ids C) None).
Proof using All.
  intros Hlay Hfields. pose proof (undoes_jgood _ _ _ (ready_pm _ _ _ _ _ _ _ Hr)) as Hg.
  destruct (ready_empty _ _ _ _ _ _ _ Hr) as (_ & Ht & Hm).
  set (p := tx_pm (lget (Lens := L) s)) in *. rewrite <-Hm in Har.
  destruct (event_group_tx_exec Hboard th bh hl L I HL s Hs Lay sz k p start stop next Hlay Hfields Hg Har Hok ltac:(lia)) as (r & p' & ids & Hbody & Hg' & Hres).
  destruct (exec_creation Hopt Hcache th bh _ L I HL s Hs Hcur (event_group_new_from_heap Lay th bh) n b bs m r p' ids Hr Hfit Hg' Hbody) as (d & E & Ed & Hd).
  exists r, d, ids. cbn zeta. split; [exact E|split; [by rewrite Ed, <-Hm|split]]; [rewrite Ed; eauto|by eapply created_kinv].
Qed.

(** C21: Creating a semaphore of [count] units: when the heap has room for it the
    pointer leads to a semaphore whose counter is full, that nobody holds and nobody
    waits for. When there is no room the kernel panics: the constructor unwraps the
    pointer that it would return. *)
Theorem semaphore_create_correct count :
  semaphore_layout Lay = {| layout_size := sz; layout_align := 2 ^ k |} →
  fields_ok sz [so_count Lay; so_size Lay; so_mutex_holder Lay] → byte_beside sz (so_is_mutex Lay) [so_count Lay; so_size Lay; so_mutex_holder Lay] →
  is_usize count →
  if aligned next k + sz <=? stop then
    ∃ r d ids, let s' := on_the_kernel (new_lists ids) (lset (Lens := L) d s) in
      exec (create_semaphore Lay th bh count) s = Done r s' ∧
      semaphore_result hl Lay sz k count (bytes (tx_pm d)) start stop next r ids ∧
      (∃ bs', ready true (S n) (S n) (length bs') bs' (bytes (tx_pm d)) d) ∧
      (NoDup ids → (∀ w, w ∈ ids → C !! WaitList w = None) → kinv (the_kernel s') (new_contents ids C) None)
  else exec (create_semaphore Lay th bh count) s = Failed Panic.
Proof using All.
  intros Hlay Hfields Hby Hcount. pose proof (undoes_jgood _ _ _ (ready_pm _ _ _ _ _ _ _ Hr)) as Hg.
  destruct (ready_empty _ _ _ _ _ _ _ Hr) as (_ & Ht & Hm).
  set (p := tx_pm (lget (Lens := L) s)) in *. rewrite <-Hm in Har.
  pose proof (semaphore_tx_exec Hboard th bh hl L I HL s Hs Lay sz k p start stop next count Hlay Hfields Hby Hcount Hg Har Hok ltac:(lia)) as Hbody.
  destruct (aligned next k + sz <=? stop).
  - destruct Hbody as (r & p' & ids & Hbody & Hg' & Hres).
    destruct (exec_creation Hopt Hcache th bh _ L I HL s Hs Hcur (λ J, semaphore_new Lay th bh J count) n b bs m r p' ids Hr Hfit Hg' Hbody) as (d & E & Ed & Hd).
    exists r, d, ids. cbn zeta. split; [exact E|split; [by rewrite Ed|split]]; [rewrite Ed; eauto|by eapply created_kinv].
  - apply (creation_fails Hopt Hcache th bh _ L I HL s Hs Hcur (λ J, semaphore_new Lay th bh J count) n b bs m Panic Hr Hbody).
Qed.
End objects_created.

Module example.
#[local] Existing Instances cortex_m qemu default_features.

#[local] Instance plain_pointer : Plain (Result (option Z) ErrorCode) := {|
  size_of := 2;
  to_bytes (r : Result (option Z) ErrorCode) :=
    match r with Ok None => [0; 0] | Ok (Some p) => [1; p] | Err e => [2; BlockingOps.calls.err_code e] end;
  of_bytes bs := match bs with [0; _] => Ok None | [1; p] => Ok (Some p) | [_; e] => Err (BlockingOps.calls.code_err e) | _ => Ok None end;
|}.
#[local] Instance plain_pointer_laws : PlainLaws (Result (option Z) ErrorCode).
Proof. split; [by intros [[]|]|]. by intros [[]|[]]. Qed.

(** A queue has 48 bytes; its lists are the last fields. *)
Definition layouts_with (sem_bytes : Z) : layouts := {|
  queue_layout := {| layout_size := 48; layout_align := 4 |};
  qo_length := 0; qo_item_size := 4; qo_buffer := 8; qo_buffer_size := 12; qo_read_pos := 16; qo_write_pos := 20; qo_tail := 24;
  qo_items_enqueued := 28; qo_blocked_readers := 32; qo_blocked_writers := 40;
  semaphore_layout := {| layout_size := sem_bytes; layout_align := 4 |};
  so_count := 0; so_mutex_holder := 4; so_is_mutex := 8; so_size := 12; so_wait_list := 16;
  event_group_layout := {| layout_size := 12; layout_align := 4 |};
  eo_event_bits := 0; eo_waiting_tasks := 4;
  timer_layout := {| layout_size := 32; layout_align := 4 |};
|}.
Definition demo_layouts : layouts := layouts_with 24.

(** The heap of task 0 spans 96 bytes; one is used. *)
Definition demo_mem : list Z :=
  replicate 4 0 ++ usize_to_bytes 32 ++ usize_to_bytes 128 ++ usize_to_bytes 33 ++ replicate 112 7.
Definition heap_0 : hlayout := HLayout 4 4 8 12.
Definition demo_statics (m : list Z) : statics :=
  Build_statics (Build_tstore (BlockingOps.calls.demo_with m) ∅ None (Build_TimerMessage CmdInvalid None 0)) true 8 bump_new.

Lemma demo_arena : arena heap_0 demo_mem 32 128 33.
Proof.
  split.
  - split; [split_and!; [vm_compute; lia|reflexivity|by vm_compute]..|lia|vm_compute; lia|vm_compute; lia| |by vm_compute].
    split; left; vm_compute; lia.
  - lia.
  - split_and!; left; vm_compute; lia.
  - by vm_compute.
Qed.
Lemma demo_fields : fields_ok 48 [0; 4; 16; 20; 28; 8; 12; 24].
Proof. cbn [fields_ok]. change (Z.of_nat usize_bytes) with 4. rewrite !Forall_cons, !Forall_nil. split_and!; try done; lia. Qed.

(** Task 0 creates a queue of two items of three bytes at address 36; there would be
    no room for twenty of them. *)
Lemma queue_create_correct_witness :
  (∃ s' m', exec (queue_create demo_layouts (λ _, heap_of heap_0) (heap_of heap_0) 2 3) (demo_statics demo_mem) = Done (Some 36) s' ∧
    queue_repr (created_queue demo_layouts 48 36 2 3) m' []) ∧
  ∃ s', exec (queue_create demo_layouts (λ _, heap_of heap_0) (heap_of heap_0) 20 3) (demo_statics demo_mem) = Done None s'.
Proof.
  set (L := tx_of_task 0 (utask (demo_task 1 Running))).
  pose proof (task_is_tx_lens (λ _, heap_of heap_0) (heap_of heap_0) 0 (utask (demo_task 1 Running))) as HL.
  assert (Hs : in_task 0 (demo_statics demo_mem)).
  { split; [done|]. eexists. by split. }
  assert (Hfit : fits (T := Result (option Z) ErrorCode) 0 (length (@nil Z))) by (split; vm_compute; [split; congruence|congruence]).
  assert (Hcur : exec get_current_tx (demo_statics demo_mem) = Done L (demo_statics demo_mem)) by (by apply exec_task_tx).
  pose proof (queue_create_correct demo_layouts 48 2 (λ _, heap_of heap_0) (heap_of heap_0) heap_0 L (in_task 0) (demo_statics demo_mem) demo_contents 0 false [] demo_mem 32 128 33) as Hcr.
  split.
  - destruct (Hcr 2%nat 3%nat UserTx.example.board_ok_qemu BlockingOps.calls.demo_opt BlockingOps.calls.demo_cache_ok eq_refl demo_fields HL Hs Hcur
      (BlockingOps.calls.demo_ready demo_mem) Hfit demo_arena) as (r & d & ids & E & Hres & _); try lia.
    + split_and!; vm_compute; congruence.
    + by vm_compute.
    + by vm_compute.
    + apply BlockingOps.calls.demo_with_kinv.
    + destruct Hres as (-> & _ & _ & Hq & _). eexists _, _. split; [exact E|exact Hq].
  - destruct (Hcr 20%nat 3%nat UserTx.example.board_ok_qemu BlockingOps.calls.demo_opt BlockingOps.calls.demo_cache_ok eq_refl demo_fields HL Hs Hcur
      (BlockingOps.calls.demo_ready demo_mem) Hfit demo_arena) as (r & d & ids & E & Hres & _); try lia.
    + split_and!; vm_compute; congruence.
    + by vm_compute.
    + by vm_compute.
    + apply BlockingOps.calls.demo_with_kinv.
    + destruct Hres as (-> & _). eexists. exact E.
Defined.
#[local] Instance plain_some : Plain (option Z) := {|
  size_of := 2;
  to_bytes (r : option Z) := match r with None => [0; 0] | Some p => [1; p] end;
  of_bytes bs := match bs with [1; p] => Some p | _ => None end;
|}.
#[local] Instance plain_some_laws : PlainLaws (option Z).
Proof. split; [by intros []|by intros []]. Qed.

Lemma demo_fits : fits (T := option Z) 0 (length (@nil Z)).
Proof. split; vm_compute; [split; congruence|congruence]. Qed.
Lemma demo_in_task : in_task 0 (demo_statics demo_mem).
Proof. split; [done|]. eexists. by split. Qed.

Lemma demo_current : exec get_current_tx (demo_statics demo_mem) = Done (tx_of_task 0 (utask (demo_task 1 Running))) (demo_statics demo_mem).
Proof. by apply exec_task_tx. Qed.

(** Task 0 creates an event group at address 36. *)
Lemma event_group_create_correct_witness :
  ∃ s' m', exec (create_event_group demo_layouts (λ _, heap_of heap_0) (heap_of heap_0)) (demo_statics demo_mem) = Done (Some 36) s' ∧
    word m' (eg_word (created_event_group demo_layouts 36)) 0.
Proof.
  destruct (event_group_create_correct demo_layouts 12 2 (λ _, heap_of heap_0) (heap_of heap_0) heap_0
    (tx_of_task 0 (utask (demo_task 1 Running))) (in_task 0) (demo_statics demo_mem) demo_contents 0 false [] demo_mem 32 128 33
    UserTx.example.board_ok_qemu BlockingOps.calls.demo_opt BlockingOps.calls.demo_cache_ok (task_is_tx_lens _ _ 0 _) demo_in_task
    demo_current (BlockingOps.calls.demo_ready demo_mem) demo_fits demo_arena) as (r & d & ids & E & Hres & _).
  - split_and!; vm_compute; congruence.
  - by vm_compute.
  - apply BlockingOps.calls.demo_with_kinv.
  - done.
  - cbn [fields_ok]. change (Z.of_nat usize_bytes) with 4. rewrite Forall_nil. split_and!; try done; lia.
  - destruct Hres as (-> & _ & _ & _ & Hq). eexists _, _. split; [exact E|exact Hq].
Defined.
(** A semaphore of two units at address 36; if it took 200 bytes it would be a panic. *)
Lemma semaphore_create_correct_witness :
  (∃ s' m', exec (create_semaphore demo_layouts (λ _, heap_of heap_0) (heap_of heap_0) 2) (demo_statics demo_mem) = Done (Some 36) s' ∧
    sem_repr (created_semaphore demo_layouts 36 2) m' 2 0) ∧
  exec (create_semaphore (layouts_with 200) (λ _, heap_of heap_0) (heap_of heap_0) 2) (demo_statics demo_mem) = Failed Panic.
Proof.
  assert (Hf : ∀ sz, 24 ≤ sz → fields_ok sz [0; 12; 4]).
  { intros sz ?. cbn [fields_ok]. change (Z.of_nat usize_bytes) with 4. rewrite !Forall_cons, !Forall_nil. split_and!; try done; lia. }
  assert (Hb : ∀ sz, 24 ≤ sz → byte_beside sz 8 [0; 12; 4]).
  { intros sz ?. split; [lia|]. change (Z.of_nat usize_bytes) with 4. rewrite !Forall_cons, Forall_nil. split_and!; try done; lia. }
  assert (Hc : is_usize 2) by (split; vm_compute; congruence).
  pose proof (λ sz Hok Hroom, semaphore_create_correct (layouts_with sz) sz 2 (λ _, heap_of heap_0) (heap_of heap_0) heap_0
    (tx_of_task 0 (utask (demo_task 1 Running))) (in_task 0) (demo_statics demo_mem) demo_contents 0 false [] demo_mem 32 128 33
    UserTx.example.board_ok_qemu BlockingOps.calls.demo_opt BlockingOps.calls.demo_cache_ok (task_is_tx_lens _ _ 0 _) demo_in_task
    demo_current (BlockingOps.calls.demo_ready demo_mem) demo_fits demo_arena Hok Hroom (BlockingOps.calls.demo_with_kinv demo_mem) 2 eq_refl) as Hcr.
  split.
  - destruct (Hcr 24) as (r & d & ids & E & Hres & _); [split_and!; vm_compute; congruence|by vm_compute|by apply Hf|by apply Hb|done|].
    destruct Hres as (-> & _ & _ & Hq & _). eexists _, _. split; [exact E|exact Hq].
  - apply (Hcr 200); [split_and!; vm_compute; congruence|by vm_compute|by apply Hf|by apply Hb|done].
Defined.

(** The size of the buffer is a product of machine words: for 2^31 items of two
    bytes it is zero. The queue is created all the same, and its buffer is the next
    block of the heap, here that of an event group. *)
Theorem queue_create_overflow :
  ∃ Q s', exec (let* q := queue_create demo_layouts (λ _, heap_of heap_0) (heap_of heap_0) (2 ^ 31) 2 in
      let* eg := create_event_group demo_layouts (λ _, heap_of heap_0) (heap_of heap_0) in
      let* Q := zoom (Lens0 := journal_of (tx_of_task 0 (utask (demo_task 1 Running)))) (queue_at demo_layouts 36) in
      Ret (q, eg, Q)) (demo_statics demo_mem) = Done (Some 36, Some 84, Q) s' ∧
    q_length Q = 2 ^ 31 ∧ q_buffer Q = EventGroup.event_bits (event_group_at demo_layouts 84).
Proof. eexists _, _. split; [by vm_compute|done]. Qed.
End example.
