(* ===== verification/Boot.v ===== *)
(** * Creating tasks and booting ([task.rs], [time.rs], [arch.rs])

    A new task gets a structure, a heap and a place in its ready list. Booting runs
    the recovery and then, until it has succeeded once, the boot sequence: the heaps,
    the idle task, the timer daemon, and [main], which creates the other tasks. *)

From S2P Require Import Prelude Arch Pmem PmemSpec PVar TxCache Transaction Replay UserTx.
From S2P Require Import Util PList Kernel ListTx Sched Blocking Queue Heap Timer Create.

(** The addresses of the static variables in persistent memory. *)
Record addresses := {
  TASK_CNT : Z;
  TASK_PM_HEAP : nat → PMHeap;
  GLOBAL_PM_HEAP : GlobalPMHeap;
  BOOT_PM_HEAP : PMHeap;
  HEAP_FIRST_INIT_DONE : Z;
  HEAP_AREA : Z;
  BOOT_PM_HEAP_AREA : Z;
  PM_HEAP_AREA : Z;
}.

Section boot.
Context `{Arch, Board, TxFeatures} (A : addresses) (Lay : layouts).
Context `{!Plain (Result nat ErrorCode), !Plain (Result (option Z) ErrorCode)}.

Definition MIN_PRIORITY : nat := NUM_PRIORITY_LEVELS.

(** *** Creating a task *)

(** A structure in memory that was never written to. *)
Definition zeroed_journal : Journal :=
  {| magic_header := 0; Pmem.tail := 0; logs := replicate (Z.to_nat JOURNAL_SIZE) 0; magic_footer := 0 |}.
Definition zeroed_tx : tx_state :=
  {| tx_pm := {| bytes := []; journal := zeroed_journal |}; tx_cache := txcache_new; nesting_level := 0; may_bypass := false |}.
Definition zeroed_task : tcb := {|
  priority := 0; status := Ready;
  utask := {|
    user_tx_info := {| user_tx := zeroed_tx; UserTx.stack_top := 0; tail_stack := replicate DEFAULT_STACK_DEPTH 0;
      loop_cnt_log := 0; loop_cnt_ptr := None; step := 0 |};
    tx := zeroed_tx; syscall_replay_cache := replay_new; list_tx_done := false; generation := 0;
  |};
|}.

(** [Task::alloc_static]: the structure [TASK_STRUCTS[id]] enters [TASK_ARRAY]; the
    tasks of the model are those in the array. A structure that is there already
    keeps its contents. *)
Definition alloc_static (id : nat) : prog kernel unit :=
  assert_ (id <? TASK_NUM_LIMIT)%nat;;;
  modify (with_tasks (λ ts, match ts !! id with Some _ => ts | None => <[id := zeroed_task]> ts end)).

Definition set_node (n : nid) (v : item) : prog kernel unit :=
  on_lists (modify (with_nodes (<[n := node_new v]>))).
(** A step of the kernel transaction of a task. *)
Definition on_task_tx {X} (t : nat) (p : prog tx_state X) : prog kernel X := on_task t (zoom p).
Definition set_priority (t prio : nat) : prog kernel unit :=
  let* _ := deref_task t in
  modify (with_tasks (alter (λ b, Build_tcb prio (status b) (utask b)) t)).
(** [recovery_mode] of the task. *)
Definition set_recovery (b : bool) : prog task unit :=
  modify (λ t, with_tx (with_may_bypass b (tx t))
                 (with_user_tx_info (with_user_tx (with_may_bypass b (user_tx (user_tx_info t))) (user_tx_info t)) t)).

(** [PMHeap::new(PerTaskPMBumpAllocator::new())] stored to the heap of a task. *)
Definition heap_new_at (h : PMHeap) : prog pmem unit :=
  write_usize (ph_start h) 0;;;
  write_usize (ph_end h) 0;;;
  write_usize (ph_next h) 0.

(** [Task::initialize_task]; the stack, the name, the function and its parameter
    are not part of a task of the model. *)
Definition initialize_task (t prio : nat) : prog kernel unit :=
  set_node (SchedNode t) (SchedItem t 0);;;
  set_node (EventNode t) (BlockItem t 0);;;
  on_task_tx t (zoom (heap_new_at (TASK_PM_HEAP A t)));;;
  on_task_tx t (zoom journal_init);;;
  on_task_tx t reset_nesting_level;;;
  on_task_tx t (zoom txcache_init);;;
  on_task t (zoom replay_reset);;;
  on_task t (modify (with_list_tx_done false));;;
  on_task t (zoom utx_init);;;
  set_priority t prio;;;
  set_status t Ready;;;
  on_task t (set_recovery false);;;
  let* k := get in
  on_task t (modify (with_generation (current_generation (boot k)))).

(** The closure of [create_task_static]. *)
Definition create_task_tx (prio : nat) (pmem_heap_sz : Z) (J : Lens pmem statics) : prog statics (Result nat ErrorCode) :=
  zoom (Lens0 := J) (borrow_mut (TASK_CNT A));;;
  let* tid := zoom (Lens0 := J) (read_usize (TASK_CNT A)) in
  if Z.of_nat TASK_NUM_LIMIT <=? tid then Ret (Err NoSpace)
  else if (MIN_PRIORITY <=? prio)%nat then Ret (Err InvalidParam)
  else
    zoom (Lens0 := J) (write_usize (TASK_CNT A) (uadd tid 1));;;
    let t := Z.to_nat tid in
    on_kernel (alloc_static t);;;
    on_kernel (initialize_task t prio);;;
    zoom (Lens0 := heaps_of J) (create_per_task_pm_heap (GLOBAL_PM_HEAP A) (TASK_PM_HEAP A t) pmem_heap_sz);;;
    let* s := get in
    when (negb (scheduler_started s)) (
      let* b := on_kernel (deref_task t) in
      when (is_higher_than (priority b) (cur_max_priority s)) (
        on_kernel (modify (with_current (Some t)));;;
        modify (with_max (priority b))));;;
    Ret (Ok t).

(** [create_task_static] *)
Definition create_task_static (prio : nat) (pmem_heap_sz : Z) : prog statics (Result nat ErrorCode) :=
  with_no_interrupt (
    let* r := transaction_run (create_task_tx prio pmem_heap_sz) in
    match r with
    | Ok t => on_kernel (roll_forward_insert_into_readylist t)
    | Err _ => skip
    end;;;
    Ret r).

(** The forms of registering an application: the result is only printed. The
    parameter of its function has the size of a word. *)
Definition register_app_no_param_custom (prio : nat) (pm_heap_sz : Z) : prog statics unit :=
  create_task_static prio pm_heap_sz;;; skip.
Definition register_app_no_param (prio : nat) : prog statics unit := register_app_no_param_custom prio PM_HEAP_SIZE_PER_TASK.
Definition register_app_custom (size_of_T : nat) (prio : nat) (pm_heap_sz : Z) : prog statics unit :=
  assert_ (size_of_T =? usize_bytes)%nat;;;
  create_task_static prio pm_heap_sz;;; skip.
Definition register_app (size_of_T : nat) (prio : nat) : prog statics unit := register_app_custom size_of_T prio PM_HEAP_SIZE_PER_TASK.

(** *** The boot sequence *)

(** The endless loop of [create_idle_task] when there is no idle task. *)
Context (hang : prog statics unit).
Definition create_idle_task : prog statics unit :=
  let* res := create_task_static (MIN_PRIORITY - 1) 0 in
  match res with Err _ => hang | Ok _ => skip end.

Definition CMD_QUEUE_SIZE : Z := 32.
(** [TimeManager::create_daemon_timer_task]; [msg_size] is the size of a message. *)
Definition create_daemon_timer_task (msg_size : Z) : prog statics unit :=
  let* q := queue_create Lay (TASK_PM_HEAP A) (BOOT_PM_HEAP A) CMD_QUEUE_SIZE msg_size in
  match q with
  | None => skip
  | Some p =>
      let* L := get_current_tx in
      let* q := zoom (Lens0 := journal_of L) (queue_at Lay p) in
      zoom (S := tstore) (modify (λ s, Build_tstore (kern s) (timer_objs s) (Some q) (message_buf s)));;;
      let* r := create_task_static 1 0 in
      match r with
      | Err _ => skip
      | Ok t => on_kernel (modify (with_timer_daemon (Some t)))
      end
  end.

(** [heap::init] *)
Definition heaps_init : prog statics unit :=
  let* L := get_current_tx in
  zoom (Lens0 := heaps_of (journal_of L))
    (heap_init (BOOT_PM_HEAP A) (GLOBAL_PM_HEAP A) (HEAP_FIRST_INIT_DONE A) (HEAP_AREA A) (BOOT_PM_HEAP_AREA A) (PM_HEAP_AREA A)).

(** [start_kernel]: after it the current task runs. *)
Definition start_kernel : prog statics unit :=
  modify (with_started true);;;
  on_kernel complete_first_boot.

(** [run_boot_sequence]; [timer_daemon] is the size of a message when the daemon is
    configured. *)
Definition run_boot_sequence (timer_daemon : option Z) (main : prog statics unit) : prog statics unit :=
  idempotent_boot (
    heaps_init;;;
    create_idle_task;;;
    match timer_daemon with Some msg_size => create_daemon_timer_task msg_size | None => skip end;;;
    main);;;
  start_kernel.

(** [recover_and_boot]; the pointers that [init_boot_tx] stores are not modelled. *)
Definition recover_and_boot (timer_daemon : option Z) (main : prog statics unit) : prog statics unit :=
  modify (with_started false);;;
  on_kernel increase_generation;;;
  on_kernel recover;;;
  run_boot_sequence timer_daemon main.

(** A power failure: the processor starts with interrupts on, and the volatile
    heap is lost; everything else is in persistent memory. *)
Definition power_cycle (s : statics) : statics :=
  with_volatile_heap bump_new (lset (Lens := statics_cpu_lens) {| interrupts := true; nesting_cnt := nesting_cnt (kcpu (the_kernel s)) |} s).
End boot.
