(* ===== verification/BootOps.v ===== *)
(** * What booting promises

    A task that is created while booting gets an empty journal and empty caches, a
    heap of its own and the last place in its ready list; when the boot sequence has
    run once, the invariant of the running system holds, and the task with the
    highest priority that was created first is current. *)

From S2P Require Import Prelude Arch Pmem PmemSpec PVar TxCache Transaction TxAttempt Replay UserTx.
From S2P Require Import Util PList PListUpd PListSeg PListLinear ListRepr Kernel ListTx Sched SchedInv SchedSpec SchedVal SchedTick SchedOps Blocking Queue QueueRing.
From S2P Require Import SchedDemo BlockingOps Heap HeapSpec Timer SemaphoreOps Create CreateTx CreateOps Boot.

(** ** The nodes of a new task *)

Definition new_nodes (t : nat) (x : lstore nid lid item) : lstore nid lid item :=
  with_nodes (<[EventNode t := node_new (BlockItem t 0)]>) (with_nodes (<[SchedNode t := node_new (SchedItem t 0)]>) x).

Lemma new_nodes_free t x :
  free (new_nodes t x) (SchedNode t) (SchedItem t 0) ∧ free (new_nodes t x) (EventNode t) (BlockItem t 0).
Proof.
  split; eexists; cbn; [rewrite lookup_insert_ne by done|]; rewrite lookup_insert_eq; done.
Qed.

Lemma size_new_nodes t x : (size (nodes (new_nodes t x)) ≤ size (nodes x) + 2)%nat.
Proof.
  assert (Hs : ∀ (m : gmap nid (Node nid lid item)) i v, (size (<[i := v]> m) ≤ S (size m))%nat).
  { intros m i v. rewrite map_size_insert. destruct (m !! i); cbn; lia. }
  cbn. etrans; [apply Hs|]. pose proof (Hs (nodes x) (SchedNode t) (node_new (SchedItem t 0))). lia.
Qed.

(** The order of the delay list does not depend on the tasks. *)
Lemma ascending_sched {P} ts ts' (xs : list (P * item)) :
  Forall (λ e, ∃ t w, e.2 = SchedItem t w) xs → ascending (item_gt ts) xs → ascending (item_gt ts') xs.
Proof.
  unfold ascending. induction 1 as [|[p v] xs (t & w & E) Hxs IH]; cbn; [done|]. intros Ha. apply Sorted.Sorted_inv in Ha as [Ha Hh].
  constructor; [by apply IH|]. destruct Hxs as [|[p' v'] xs (t' & w' & E') _]; constructor. cbn in *. subst. by inversion Hh.
Qed.

Lemma sinv_new_task `{Arch} x ts C t b :
  sinv x ts C None → ts !! t = None → (priority b < 8)%nat → Z.of_nat (size (nodes x)) + 3 < usize_mod →
  sinv (new_nodes t x) (<[t := b]> ts) C (Some t).
Proof.
  intros [Hr He Hrd Hd Hs Hev] Hnew Hp Hsz. destruct (new_nodes_free t x) as [Hf1 Hf2].
  assert (Ht : ∀ l, only_touches l [SchedNode t; EventNode t] x (new_nodes t x)).
  { intros l. split; [|done]. intros n Hn. cbn. rewrite !lookup_insert_ne by set_solver. done. }
  assert (Hout : ∀ l xs y, C !! l = Some xs → y ∈ xs.*1 → y ∉ [SchedNode t; EventNode t]).
  { intros l xs y HC ([n v] & -> & Hy)%list_elem_of_fmap. pose proof (He _ _ _ HC Hy) as Hok. cbn.
    rewrite !not_elem_of_cons, elem_of_nil.
    assert (n ≠ SchedNode t ∧ n ≠ EventNode t) as [? ?]; [|naive_solver]. split; intros ->; destruct l; cbn in Hok; naive_solver. }
  assert (Hfree : ∀ t' v, t' ≠ t → free x (SchedNode t') v → free (new_nodes t x) (SchedNode t') v).
  { intros t' v Hne. apply (only_touches_free DelayList _ _ _ _ _ (Ht DelayList)). set_solver. }
  assert (Hfree' : ∀ t' v, t' ≠ t → free x (EventNode t') v → free (new_nodes t x) (EventNode t') v).
  { intros t' v Hne. apply (only_touches_free DelayList _ _ _ _ _ (Ht DelayList)). set_solver. }
  assert (Hts : ∀ t' b', <[t := b]> ts !! t' = Some b' → t' = t ∧ b' = b ∨ t' ≠ t ∧ ts !! t' = Some b').
  { intros t' b' [[<- <-]|[? ?]]%lookup_insert_Some; auto. }
  assert (Hkeep : ∀ t' b', ts !! t' = Some b' → <[t := b]> ts !! t' = Some b').
  { intros t' b' Hb. rewrite lookup_insert_ne; [done|congruence]. }
  split.
  - destruct Hr as [Hr _]. split.
    + intros l xs HC. specialize (Hr l xs HC). unfold holds in *. pose proof (Hout l xs) as Ho.
      destruct (is_ready_list l) eqn:El.
      * destruct Hr as ((h & E & Hh) & Hs0 & Hnd). split; [exists h; done|]. split; [|done].
        eapply seg_ext; [|done]. intros y Hy. apply (proj1 (Ht l)). auto.
      * destruct Hr as (E & Hs0 & Hnd). split; [done|]. split; [|done].
        eapply seg_ext; [|done]. intros y Hy. apply (proj1 (Ht l)). auto.
    + pose proof (size_new_nodes t x). lia.
  - intros l xs e HC Hin. pose proof (He _ _ _ HC Hin) as Hok. destruct l; cbn in *; naive_solver.
  - done.
  - destruct Hd as (dl & Hdl & Ha). exists dl. split; [done|]. eapply ascending_sched, Ha. apply Forall_forall. intros e Hin.
    pose proof (He _ _ _ Hdl Hin). cbn in *. naive_solver.
  - intros t' b' [[-> ->]|[Hne Hb]]%Hts; [split; [done|]; left; eauto|].
    destruct (Hs t' b' Hb) as [Hp' [[? _]|[_ Hin]]]; [done|]. split; [done|]. right. split; [congruence|done].
  - intros t' b' [[-> ->]|[Hne Hb]]%Hts; [left; eauto|].
    destruct (Hev t' b' Hb) as [[o Ho]|?]; [left; exists o; auto|by right].
Qed.

(** ** The fields of a new task *)

Section fields.
Context `{Arch, Board, TxFeatures}.

Definition new_tx : tx_state :=
  {| tx_pm := {| bytes := []; journal := journal_new |}; tx_cache := txcache_new; nesting_level := 0; may_bypass := false |}.
Definition new_task (gen : Z) : task := {|
  user_tx_info := {| user_tx := new_tx; UserTx.stack_top := 0; tail_stack := replicate DEFAULT_STACK_DEPTH 0;
    loop_cnt_log := 0; loop_cnt_ptr := None; UserTx.step := 0 |};
  tx := new_tx; syscall_replay_cache := replay_new; list_tx_done := false; generation := gen;
|}.

(** Such a task may run its first transaction. *)
Lemma new_task_ready gen m : cache_ok → board_ok → ready false 0 0 0 [] m (tx (task_with_mem m (new_task gen))).
Proof.
  intros [Hc Hc'] [Hj _].
  assert (Hid : id_ok 0 ∧ cp_ok 0).
  { unfold id_ok, cp_ok. destruct tx_masks as [[->| ->] _]; cbn; lia. }
  split; cbn; try done.
  - split; cbn; try done; [apply Hid|rewrite length_replicate; lia|lia|]. exists 0%nat, 0%nat. split; [done|]. split; [done|apply Hid].
  - split; [|done]. split; [done|]. split; [done|]. cbn. rewrite length_replicate. split; [lia|].
    exists [], (replicate (Z.to_nat JOURNAL_SIZE) 0). split; [done|]. split; [done|constructor].
  - intros _ ?. lia.
Qed.

(** ** A task under construction

    The transaction of booting has begun in [s]; the lists are [x], the memory and
    journal [p], and the new task [t] is [b]. *)
Section construction.
Context (s : statics) (t : nat).
Implicit Types (c : tx_state) (p : pmem) (b : tcb) (x : lstore nid lid item).

Definition made c p x b : kernel := with_ls x (with_tasks (<[t := b]>) (boot_upd (with_pm p c) (the_kernel s))).
Definition making c p x b : statics := lset (made c p x b) s.
Lemma exec_making {X} (q : prog kernel X) c p x b a c' p' x' b' :
  exec q (made c p x b) = Done a (made c' p' x' b') → exec (on_kernel q) (making c p x b) = Done a (making c' p' x' b').
Proof. intros E. by rewrite (exec_on_the_kernel q (making c p x b) a _ E). Qed.

Lemma making_boot c p x b : lget (Lens := tx_of_boot) (making c p x b) = with_pm p c.
Proof. cbn. by destruct p. Qed.
Lemma making_normal c p x b : boot_normal (the_kernel (making c p x b)).
Proof. done. Qed.
Lemma making_set c p x b d : lset (Lens := tx_of_boot) d (making c p x b) = making d (tx_pm d) x b.
Proof. by destruct d as [[] ? ? ?]. Qed.
Lemma exec_making_tx {X} (q : prog tx_state X) c p x b a d :
  exec q (with_pm p c) = Done a d → exec (zoom (Lens0 := tx_of_boot) q) (making c p x b) = Done a (making d (tx_pm d) x b).
Proof.
  intros E. rewrite <-(making_boot c p x b) in E. rewrite (exec_zoom_lawful_done _ _ _ _ _ _ tx_of_boot_lawful (making_normal c p x b) E).
  by rewrite making_set.
Qed.
Lemma exec_making_pm {X} (q : prog pmem X) c p x b a p' :
  exec q p = Done a p' → exec (zoom (Lens0 := journal_of tx_of_boot) q) (making c p x b) = Done a (making c p' x b).
Proof.
  intros E.
  rewrite (exec_zoom_lawful (journal_of tx_of_boot) _ q (making c p x b) (journal_of_lawful _ _ tx_of_boot_lawful) (making_normal c p x b)).
  cbn [journal_of lget lset]. rewrite !making_boot. change (tx_pm (with_pm p c)) with p. by rewrite E, making_set.
Qed.

(** A step on the fields [u] of the new task. *)
Definition tcb_of (prio : nat) (st : TaskState) (u : task) : tcb := Build_tcb prio st (task_with_mem [] u).
Definition memory_of p (u : task) : pmem := {| bytes := bytes (tx_pm (tx u)); journal := journal p |}.
Lemma made_task c p x b : tasks (made c p x b) !! t = Some b.
Proof. cbn. by rewrite lookup_insert_eq. Qed.
Lemma exec_made_task {X} (q : prog task X) c p x prio st u a u' :
  bytes (tx_pm (tx u)) = bytes p → exec q u = Done a u' →
  exec (on_task t q) (made c p x (tcb_of prio st u)) = Done a (made c (memory_of p u') x (tcb_of prio st u')).
Proof.
  intros Hm E. set (b := tcb_of prio st u). set (k := made c p x b).
  pose proof (made_task c p x b) as Hb. fold k in Hb. unfold on_task. run (exec_deref_task _ _ b Hb).
  rewrite (exec_zoom_task q t (utask b) k u b Hb), E; [|done|by cbn; destruct p]. f_equal. unfold k, made.
  cbn. destruct c as [? ? ? ?]. unfold with_tasks, with_kmem, with_ls, boot_upd. cbn. f_equal. rewrite alter_insert_eq. done.
Qed.
Lemma exec_made_node n v c p x b :
  exec (set_node n v) (made c p x b) = Done tt (made c p (with_nodes (<[n := node_new v]>) x) b).
Proof. done. Qed.
Lemma exec_made_priority prio c p x prio' st u :
  exec (set_priority t prio) (made c p x (tcb_of prio' st u)) = Done tt (made c p x (tcb_of prio st u)).
Proof.
  unfold set_priority. run (exec_deref_task _ _ _ (made_task c p x (tcb_of prio' st u))). cbn.
  unfold made, with_tasks. cbn. by rewrite alter_insert_eq.
Qed.
Lemma exec_made_status st c p x prio st' u :
  exec (set_status t st) (made c p x (tcb_of prio st' u)) = Done tt (made c p x (tcb_of prio st u)).
Proof.
  unfold set_status. run (exec_deref_task _ _ _ (made_task c p x (tcb_of prio st' u))). cbn.
  unfold made, with_tasks. cbn. by rewrite alter_insert_eq.
Qed.

(** The record of the heap [hl] when it is new. *)
Definition heap_set (hl : hlayout) (start stop next : Z) (m : list Z) : list Z :=
  list_inserts (hl_next hl) (usize_to_bytes next) (list_inserts (hl_end hl) (usize_to_bytes stop)
    (list_inserts (hl_start hl) (usize_to_bytes start) m)).
Definition heap_in (hl : hlayout) (m : list Z) : Prop :=
  (hl_start hl + usize_bytes ≤ length m)%nat ∧ (hl_end hl + usize_bytes ≤ length m)%nat ∧ (hl_next hl + usize_bytes ≤ length m)%nat.
Lemma exec_heap_set hl (start stop next : Z) p : heap_in hl (bytes p) →
  exec (write_usize (Z.of_nat (hl_start hl)) start;;; write_usize (Z.of_nat (hl_end hl)) stop;;; write_usize (Z.of_nat (hl_next hl)) next) p =
    Done tt {| bytes := heap_set hl start stop next (bytes p); journal := journal p |}.
Proof.
  intros (? & ? & ?). run (exec_write_usize p (Z.of_nat (hl_start hl)) start ltac:(rewrite Nat2Z.id; done)).
  erewrite exec_bind_done; [|apply exec_write_usize; cbn [bytes]; rewrite length_inserts, Nat2Z.id; done].
  rewrite exec_write_usize by (cbn [bytes]; rewrite !length_inserts, Nat2Z.id; done). cbn [bytes journal]. by rewrite !Nat2Z.id.
Qed.

(** The next step leads to the fields [u]. *)
Ltac task_to u := erewrite exec_bind_done;
  [|unfold on_task_tx; apply exec_made_task with (u' := u); [reflexivity|unfold utx_init; by try destruct opt_loop_end]]; cbn [memory_of tx tx_pm bytes journal].

Lemma exec_initialize_task A prio hl c p x :
  TASK_PM_HEAP A t = heap_of hl → heap_in hl (bytes p) →
  exec (initialize_task A t prio) (made c p x zeroed_task) =
    Done tt (made c {| bytes := heap_set hl 0 0 0 (bytes p); journal := journal p |} (new_nodes t x)
      (tcb_of prio Ready (new_task (current_generation (boot (the_kernel s)))))).
Proof.
  intros Hh Hin. unfold initialize_task. run (exec_made_node (SchedNode t) (SchedItem t 0) c p x zeroed_task).
  run (exec_made_node (EventNode t) (BlockItem t 0) c p (with_nodes (<[SchedNode t := node_new (SchedItem t 0)]>) x) zeroed_task).
  change (with_nodes _ (with_nodes _ x)) with (new_nodes t x). rewrite Hh.
  set (p' := {| bytes := heap_set hl 0 0 0 (bytes p); journal := journal p |}).
  change zeroed_task with (tcb_of 0 Ready (task_with_mem (bytes p) (utask zeroed_task))).
  assert (E : exec (on_task_tx t (zoom (heap_new_at (heap_of hl)))) (made c p (new_nodes t x) (tcb_of 0 Ready (task_with_mem (bytes p) (utask zeroed_task)))) =
    Done tt (made c p' (new_nodes t x) (tcb_of 0 Ready (task_with_mem (bytes p') (utask zeroed_task))))).
  { unfold on_task_tx. erewrite exec_made_task; [|done|]; [|apply (exec_zoom_done (Lens0 := sys_tx_lens)), (exec_zoom_done (Lens0 := pm_lens)), (exec_heap_set hl 0 0 0 {| bytes := bytes p; journal := zeroed_journal |} Hin)].
    reflexivity. }
  run E. clear E.
  set (z1 := task_with_mem (bytes p') (utask zeroed_task)).
  set (z2 := with_tx (with_pm {| bytes := bytes p'; journal := journal_new |} (tx z1)) z1).
  set (z3 := with_user_tx_info (with_user_tx new_tx (user_tx_info z2)) z2).
  task_to z2. task_to z2. task_to z2. task_to z2. task_to z2. task_to z3.
  run (exec_made_priority prio c (memory_of p' z3) (new_nodes t x) 0 Ready z3).
  run (exec_made_status Ready c (memory_of p' z3) (new_nodes t x) prio Ready z3). task_to z3.
  cbn [get bind exec].
  rewrite (exec_made_task _ c (memory_of p' z3) (new_nodes t x) prio Ready z3 tt (with_generation (current_generation (boot (the_kernel s))) z3)); done.
Qed.
End construction.
End fields.

(** ** The heap of a new task *)

Section task_heap.
Context `{Arch, Board, TxFeatures}.
Implicit Types (p : pmem) (m : list Z).

(** Words apart from those at [ws] are kept. *)
Definition words_kept (ws : list nat) m m' : Prop :=
  length m' = length m ∧ ∀ a v, Forall (λ w, apart a usize_bytes w usize_bytes) ws → word m a v → word m' a v.
Lemma words_kept_refl ws m : words_kept ws m m.
Proof. by split. Qed.
Lemma words_kept_trans ws m1 m2 m3 : words_kept ws m1 m2 → words_kept ws m2 m3 → words_kept ws m1 m3.
Proof. intros [E1 H1'] [E2 H2']. split; [congruence|auto]. Qed.
Lemma words_kept_insert ws m w v : w ∈ ws → (w + usize_bytes ≤ length m)%nat → words_kept ws m (list_inserts w (usize_to_bytes v) m).
Proof.
  intros Hw Hl. split; [apply length_inserts|]. intros a x Ha Hx. rewrite Forall_forall in Ha.
  apply word_inserts; rewrite ?length_usize_to_bytes; [done|by apply Ha|done].
Qed.
Lemma words_kept_weaken ws ws' m m' : (∀ w, w ∈ ws → w ∈ ws') → words_kept ws m m' → words_kept ws' m m'.
Proof.
  intros Hs [E Hk]. split; [done|]. intros a v Ha. apply Hk. rewrite Forall_forall in Ha |- *. auto.
Qed.

Definition heap_words (hl : hlayout) : list nat := [hl_start hl; hl_end hl; hl_next hl].
Definition heap_fields_apart (hl : hlayout) : Prop :=
  apart (hl_start hl) usize_bytes (hl_end hl) usize_bytes ∧ apart (hl_start hl) usize_bytes (hl_next hl) usize_bytes ∧
  apart (hl_end hl) usize_bytes (hl_next hl) usize_bytes.
(** The heap spans from [a] to [b] and nothing of it is used. *)
Definition heap_is (hl : hlayout) m (a b : Z) : Prop := word m (hl_start hl) a ∧ word m (hl_end hl) b ∧ word m (hl_next hl) a.

Lemma heap_set_kept hl a b c m : heap_in hl m → words_kept (heap_words hl) m (heap_set hl a b c m).
Proof.
  intros (? & ? & ?). unfold heap_set. eapply words_kept_trans; [|eapply words_kept_trans];
    apply words_kept_insert; rewrite ?length_inserts; set_solver.
Qed.
Lemma heap_set_is hl a b m : heap_in hl m → heap_fields_apart hl → is_usize a → is_usize b → heap_is hl (heap_set hl a b a m) a b.
Proof.
  intros (? & ? & ?) (A1 & A2 & A3) Ha Hb. unfold heap_set.
  assert (Hw : ∀ m0 w v u, word m0 u v → apart u usize_bytes w usize_bytes → (w + usize_bytes ≤ length m0)%nat → ∀ x, word (list_inserts w (usize_to_bytes x) m0) u v).
  { intros m0 w v u Hv Hap Hl x. apply word_inserts; rewrite ?length_usize_to_bytes; done. }
  split_and!; repeat first [apply word_set; rewrite ?length_inserts; done|apply Hw; rewrite ?length_inserts; [|done|done]].
Qed.
Lemma exec_pm_init hl a size p : heap_in hl (bytes p) → is_usize (a + size) →
  exec (pm_init (heap_of hl) a size) p = Done tt {| bytes := heap_set hl a (a + size) a (bytes p); journal := journal p |}.
Proof.
  intros Hin Hu. unfold pm_init. rewrite uadd_small by done. by apply exec_heap_set.
Qed.

(** Where the record of the global heap is. *)
Record glayout := GLayout { gl_obj : nat; gl_end : nat; gl_next : nat }.
Definition global_of (g : glayout) : GlobalPMHeap :=
  {| gh_obj := Z.of_nat (gl_obj g); gh_end := Z.of_nat (gl_end g); gh_next := Z.of_nat (gl_next g) |}.

(** A new task gets [size] bytes behind [gn] if the global heap has them; otherwise
    its heap stays empty. *)
Definition new_range (size gn ge : Z) : Z * Z := if (size =? 0) || (ge <? gn + size) then (0, 0) else (gn, gn + size).
Definition new_next (size gn ge : Z) : Z := if (size =? 0) || (ge <? gn + size) then gn else gn + size.

Context (Hboard : board_ok).
Lemma exec_create_heap g hl size V p cp gn ge :
  jgood p → heap_is hl (bytes p) 0 0 → heap_in hl (bytes p) → heap_fields_apart hl →
  word (bytes p) (gl_next g) gn → word (bytes p) (gl_end g) ge → 0 ≤ size → gn + size < usize_mod →
  (gl_obj g + 2 * usize_bytes ≤ length (bytes p))%nat → Z.of_nat (length (bytes p)) < usize_mod →
  tail (journal p) + Z.of_nat (record_size (2 * usize_bytes)) ≤ JOURNAL_SIZE →
  Forall (λ w, apart (gl_next g) usize_bytes w usize_bytes) (heap_words hl) → 
  0 ≤ nesting_cnt cp < usize_mod - 1 → interrupts cp = (nesting_cnt cp =? 0) →
  let (a, b) := new_range size gn ge in
  ∃ r p', exec (create_per_task_pm_heap (global_of g) (heap_of hl) size) (Build_heaps V p cp) = Done r (Build_heaps V p' cp) ∧
    jgood p' ∧ heap_is hl (bytes p') a b ∧ word (bytes p') (gl_next g) (new_next size gn ge) ∧
    words_kept (gl_next g :: heap_words hl) (bytes p) (bytes p').
Proof.
  intros Hg Hh Hin Hap Hn He Hsz Hov Hob Hlen Hroom Hgap Hnest Hint. unfold new_range, new_next.
  pose proof (proj2 (proj2 Hn)) as [? ?]. assert (Hz : is_usize 0) by (unfold is_usize; lia).
  unfold create_per_task_pm_heap. destruct (Z.eqb_spec size 0) as [->|Hne]; cbn [orb].
  { eexists _, {| bytes := heap_set hl 0 0 0 (bytes p); journal := journal p |}. split.
    - run (exec_zoom_done (Lens0 := hmem_lens) _ (Build_heaps V p cp) tt _ (exec_pm_init hl 0 0 p Hin Hz)). done.
    - pose proof (heap_set_kept hl 0 0 0 (bytes p) Hin) as Hk. split; [by apply jgood_bytes; [|apply Hk]|].
      split; [by apply heap_set_is|]. split; [by apply Hk|]. eapply words_kept_weaken; [|exact Hk]. intros w Hw. by right. }
  assert (Hcp : {| interrupts := nesting_cnt cp =? 0; nesting_cnt := nesting_cnt cp |} = cp) by (destruct cp; cbn in *; by subst).
  set (cp' := {| interrupts := false; nesting_cnt := nesting_cnt cp + 1 |}).
  assert (Hread : ∀ w v, word (bytes p) w v → exec (zoom (Lens0 := hmem_lens) (read_usize (Z.of_nat w))) (Build_heaps V p cp') = Done v (Build_heaps V p cp')).
  { intros w v Hw. rewrite (exec_zoom_done (Lens0 := hmem_lens) (read_usize (Z.of_nat w)) (Build_heaps V p cp') v p); [done|]. by apply exec_read_usize. }
  assert (Hsum : uadd gn size = gn + size) by (apply uadd_small; lia).
  destruct (ge <? gn + size) eqn:Hfull.
  { eexists _, p. split.
    - unfold global_alloc. erewrite exec_bind_done; [|apply (exec_with_no_interrupt (Lens0 := hcpu_lens)); [reflexivity|done| |]].
      2:{ change (lset _ _) with (Build_heaps V p cp'). cbn [global_of gh_next gh_end]. run (Hread _ _ Hn). run (Hread _ _ He).
          rewrite Hsum, Hfull. reflexivity. }
      + cbn [lset hcpu_lens lget hcpu HEAP hmem]. rewrite Hcp. reflexivity.
      + done.
    - split; [done|]. split; [done|]. split; [done|]. apply words_kept_refl. }
  destruct (exec_append_log Hboard p (gl_obj g) (2 * usize_bytes) Hg) as (p1 & E1 & Hb1 & Ht1 & Hg1); [|lia|done|].
  { split; [lia|]. destruct usize_half. pose proof usize_bytes_cases. lia. }
  set (p2 := {| bytes := list_inserts (gl_next g) (usize_to_bytes (gn + size)) (bytes p); journal := journal p1 |}).
  assert (Hnl : (gl_next g + usize_bytes ≤ length (bytes p))%nat) by apply Hn.
  assert (Hg2 : jgood p2) by (apply (jgood_bytes p1); [done|]; cbn; by rewrite length_inserts, Hb1).
  assert (Hin2 : heap_in hl (bytes p2)) by (unfold heap_in; cbn; by rewrite length_inserts).
  assert (Hu : is_usize (gn + size)) by (unfold is_usize; lia).
  eexists _, {| bytes := heap_set hl gn (gn + size) gn (bytes p2); journal := journal p2 |}. split.
  - unfold global_alloc. erewrite exec_bind_done; [|apply (exec_with_no_interrupt (Lens0 := hcpu_lens)); [reflexivity|done| |]].
    2:{ change (lset _ _) with (Build_heaps V p cp'). cbn [global_of gh_next gh_end gh_obj]. run (Hread _ _ Hn). run (Hread _ _ He).
        rewrite Hsum, Hfull. run (exec_zoom_done (Lens0 := hmem_lens) _ (Build_heaps V p cp') _ _ E1).
        cbn [lset hmem_lens HEAP hcpu]. rewrite <-Hb1 in Hn.
        run (exec_zoom_done (Lens0 := hmem_lens) _ (Build_heaps V p1 cp') _ _ (exec_read_usize _ _ _ Hn)). cbn [lset hmem_lens HEAP hcpu].
        rewrite Hsum. erewrite exec_bind_done; [|apply (exec_zoom_done (Lens0 := hmem_lens)), exec_write_usize; cbn; by rewrite Hb1, Nat2Z.id].
        cbn [lset hmem_lens HEAP hcpu lget hmem]. rewrite Hb1, Nat2Z.id. fold p2. reflexivity. }
    + cbn [lset hcpu_lens lget hcpu HEAP hmem]. rewrite Hcp.
      run (exec_zoom_done (Lens0 := hmem_lens) _ (Build_heaps V p2 cp) tt _ (exec_pm_init hl gn size p2 Hin2 Hu)). reflexivity.
    + done.
  - pose proof (heap_set_kept hl gn (gn + size) gn (bytes p2) Hin2) as Hk.
    split; [by apply jgood_bytes; [|apply Hk]|]. split; [by apply heap_set_is|].
    split; [apply Hk; [done|]; by apply word_set|].
    eapply words_kept_trans; [apply (words_kept_insert _ _ (gl_next g) (gn + size)); [left|done]|].
    eapply words_kept_weaken; [|exact Hk]. intros w Hw. by right.
Qed.
End task_heap.

(** ** The transaction that creates a task *)

(** Where the static variables are in the memory of [n] bytes: none overlaps with
    another one. *)
Record placed `{Arch, Board} (A : addresses) (cnt : nat) (g : glayout) (hls : nat → hlayout) (n : nat) : Prop := {
  pl_cnt : TASK_CNT A = Z.of_nat cnt;
  pl_global : GLOBAL_PM_HEAP A = global_of g;
  pl_heaps : ∀ t, TASK_PM_HEAP A t = heap_of (hls t);
  pl_length : Z.of_nat n < usize_mod;
  pl_cnt_in : (cnt + usize_bytes ≤ n)%nat;
  pl_global_in : (gl_obj g + 2 * usize_bytes ≤ n)%nat;
  pl_heaps_in : ∀ t, (t < TASK_NUM_LIMIT)%nat → Forall (λ w, w + usize_bytes ≤ n)%nat (heap_words (hls t)) ∧ heap_fields_apart (hls t);
  pl_cnt_apart : ∀ t, (t < TASK_NUM_LIMIT)%nat → Forall (λ w, apart cnt usize_bytes w usize_bytes) (gl_next g :: heap_words (hls t));
  pl_end_apart : ∀ t, (t < TASK_NUM_LIMIT)%nat → Forall (λ w, apart (gl_end g) usize_bytes w usize_bytes) (cnt :: gl_next g :: heap_words (hls t));
  pl_next_apart : ∀ t, (t < TASK_NUM_LIMIT)%nat → Forall (λ w, apart (gl_next g) usize_bytes w usize_bytes) (cnt :: heap_words (hls t));
  pl_heap_apart : ∀ t t', (t < TASK_NUM_LIMIT)%nat → (t' < TASK_NUM_LIMIT)%nat → t ≠ t' →
    Forall (λ a, Forall (λ w, apart a usize_bytes w usize_bytes) (heap_words (hls t'))) (heap_words (hls t));
}.

Section create_task.
Context `{Arch, Board, TxFeatures} (Hboard : board_ok) (A : addresses) (cnt : nat) (g : glayout) (hls : nat → hlayout).

(** The first task, or one of a higher priority than the others, becomes current. *)
Definition elect (t prio : nat) (s : statics) : statics :=
  if is_higher_than prio (cur_max_priority s) then with_max prio (on_the_kernel (with_current (Some t)) s) else s.

Lemma exec_boot_pm {X} (q : prog pmem X) s c p a p' :
  boot_normal (the_kernel s) → exec q p = Done a p' →
  exec (zoom (Lens0 := journal_of tx_of_boot) q) (lset (Lens := tx_of_boot) (with_pm p c) s) = Done a (lset (Lens := tx_of_boot) (with_pm p' c) s).
Proof.
  intros Hs E. rewrite (exec_zoom_lawful (journal_of tx_of_boot) _ q (lset (Lens := tx_of_boot) (with_pm p c) s) (journal_of_lawful _ _ tx_of_boot_lawful) ltac:(done)).
  cbn [journal_of lget lset]. rewrite (lw_get _ _ tx_of_boot_lawful) by done. change (tx_pm (with_pm p c)) with p. by rewrite E.
Qed.

Lemma making_same s t c p b : lset (with_tasks (<[t := b]>) (the_kernel (lset (Lens := tx_of_boot) (with_pm p c) s))) (lset (Lens := tx_of_boot) (with_pm p c) s)
  = making s t c p (ls (the_kernel s)) b.
Proof. done. Qed.

Lemma heaps_of_boot_lawful : lawful (heaps_of (journal_of tx_of_boot)) (λ s, boot_normal (the_kernel s)).
Proof.
  split.
  - done.
  - intros [V [by0 j] cp] s Hs. done.
  - intros s Hs. change (lset (Lens := statics_cpu_lens) (lget s) (lset (Lens := journal_of tx_of_boot) (lget (Lens := journal_of tx_of_boot) s) (with_volatile_heap (volatile_heap s) s)) = s).
    replace (with_volatile_heap (volatile_heap s) s) with s by (by destruct s).
    rewrite (lw_same _ _ (journal_of_lawful _ _ tx_of_boot_lawful) s Hs). apply lset_lget.
  - done.
Qed.
Lemma exec_making_heaps {X} (q : prog heaps X) s t c p x b a p' :
  exec q (Build_heaps (volatile_heap s) p (kcpu (the_kernel s))) = Done a (Build_heaps (volatile_heap s) p' (kcpu (the_kernel s))) →
  exec (zoom (Lens0 := heaps_of (journal_of tx_of_boot)) q) (making s t c p x b) = Done a (making s t c p' x b).
Proof.
  intros E. rewrite (exec_zoom_lawful (heaps_of (journal_of tx_of_boot)) _ q (making s t c p x b) heaps_of_boot_lawful (making_normal s t c p x b)).
  replace (lget (making s t c p x b)) with (Build_heaps (volatile_heap s) p (kcpu (the_kernel s))) by (by destruct p). by rewrite E.
Qed.

Context (s : statics) (c : tx_state) (p : pmem) (t prio : nat) (size gn ge : Z).
Context (Hpl : placed A cnt g hls (length (bytes p))) (Hstart : scheduler_started s = false) (Hnormal : boot_normal (the_kernel s)).
Context (Hg : jgood p) (Hcnt : word (bytes p) cnt (Z.of_nat t)) (Hroom : tail (journal p) + Z.of_nat (record_size usize_bytes) + Z.of_nat (record_size (2 * usize_bytes)) ≤ JOURNAL_SIZE).

Lemma exec_borrow_cnt : ∃ p1, exec (borrow_mut (Z.of_nat cnt)) p = Done tt p1 ∧ bytes p1 = bytes p ∧ jgood p1 ∧
  tail (journal p1) = tail (journal p) + Z.of_nat (record_size usize_bytes).
Proof.
  pose proof (pl_cnt_in _ _ _ _ _ Hpl). pose proof (pl_length _ _ _ _ _ Hpl).
  destruct (exec_append_log Hboard p cnt usize_bytes Hg) as (p1 & E1 & Hb1 & Ht1 & Hg1); [|done|lia|by exists p1].
  apply word_is_object. lia.
Qed.

(** No task is created when there are too many or the priority is not one. *)
Lemma exec_create_refused e :
  (TASK_NUM_LIMIT ≤ t ∧ e = NoSpace ∨ t < TASK_NUM_LIMIT ∧ MIN_PRIORITY ≤ prio ∧ e = InvalidParam)%nat →
  ∃ p', exec (create_task_tx A prio size (journal_of tx_of_boot)) (lset (Lens := tx_of_boot) (with_pm p c) s) =
    Done (Err e) (lset (Lens := tx_of_boot) (with_pm p' c) s) ∧ bytes p' = bytes p ∧ jgood p'.
Proof.
  intros He. destruct exec_borrow_cnt as (p1 & E1 & Hb1 & Hg1 & _). exists p1. split; [|done].
  unfold create_task_tx. rewrite (pl_cnt _ _ _ _ _ Hpl). run (exec_boot_pm _ s c p _ _ Hnormal E1).
  rewrite <-Hb1 in Hcnt. run (exec_boot_pm _ s c p1 _ _ Hnormal (exec_read_usize _ _ _ Hcnt)).
  destruct He as [[? ->]|(? & ? & ->)].
  - by rewrite (proj2 (Z.leb_le _ _)) by lia.
  - rewrite (proj2 (Z.leb_gt _ _)) by lia. by rewrite (proj2 (Nat.leb_le _ _)) by lia.
Qed.

Context (Hlimits : Z.of_nat TASK_NUM_LIMIT < usize_mod) (Hlimit : (t < TASK_NUM_LIMIT)%nat) (Hprio : (prio < MIN_PRIORITY)%nat) (Hnew : tasks (the_kernel s) !! t = None).
Context (Hgn : word (bytes p) (gl_next g) gn) (Hge : word (bytes p) (gl_end g) ge) (Hsize : 0 ≤ size) (Hfit : gn + size < usize_mod).
Context (Hnest : 0 ≤ nesting_cnt (kcpu (the_kernel s)) < usize_mod - 1) (Hint : interrupts (kcpu (the_kernel s)) = (nesting_cnt (kcpu (the_kernel s)) =? 0)).

Definition created_tcb : tcb := tcb_of prio Ready (new_task (current_generation (boot (the_kernel s)))).
Lemma exec_create_body :
  let (a, b) := new_range size gn ge in
  ∃ p', exec (create_task_tx A prio size (journal_of tx_of_boot)) (lset (Lens := tx_of_boot) (with_pm p c) s) =
      Done (Ok t) (elect t prio (making s t c p' (new_nodes t (ls (the_kernel s))) created_tcb)) ∧
    jgood p' ∧ word (bytes p') cnt (Z.of_nat (S t)) ∧ heap_is (hls t) (bytes p') a b ∧ word (bytes p') (gl_next g) (new_next size gn ge) ∧
    words_kept (cnt :: gl_next g :: heap_words (hls t)) (bytes p) (bytes p').
Proof.
  destruct exec_borrow_cnt as (p1 & E1 & Hb1 & Hg1 & Ht1). pose proof (proj1 Hcnt) as Hcl.
  pose proof (pl_length _ _ _ _ _ Hpl) as Hlen. set (hl := hls t). pose proof (proj2 (proj2 Hgn)) as [? _].
  destruct (pl_heaps_in _ _ _ _ _ Hpl t Hlimit) as [Hin Hfa]. fold hl in Hin, Hfa. unfold heap_words in Hin. rewrite !Forall_cons in Hin.
  destruct Hin as (Hin1 & Hin2 & Hin3 & _).
  set (p2 := {| bytes := list_inserts cnt (usize_to_bytes (Z.of_nat (S t))) (bytes p); journal := journal p1 |}).
  assert (Hl2 : length (bytes p2) = length (bytes p)) by apply length_inserts.
  assert (Hg2 : jgood p2) by (apply (jgood_bytes p1); [done|]; by rewrite Hb1).
  assert (Hi2 : heap_in hl (bytes p2)) by (unfold heap_in; by rewrite Hl2).
  set (p3 := {| bytes := heap_set hl 0 0 0 (bytes p2); journal := journal p2 |}).
  pose proof (heap_set_kept hl 0 0 0 (bytes p2) Hi2) as Hk3.
  assert (Hl3 : length (bytes p3) = length (bytes p)) by (rewrite <-Hl2; apply Hk3).
  assert (Hk2 : words_kept [cnt] (bytes p) (bytes p2)) by (apply words_kept_insert; [left|done]).
  pose proof (pl_cnt_apart _ _ _ _ _ Hpl t Hlimit) as Hca. pose proof (pl_next_apart _ _ _ _ _ Hpl t Hlimit) as Hna.
  pose proof (pl_end_apart _ _ _ _ _ Hpl t Hlimit) as Hea. fold hl in Hca, Hna, Hea.
  apply Forall_cons in Hca as [Hca1 Hca2]. apply Forall_cons in Hna as [Hna1 Hna2].
  apply Forall_cons in Hea as [Hea1 Hea]. apply Forall_cons in Hea as [Hea2 Hea3].
  assert (Hz : is_usize 0) by (unfold is_usize; lia).
  pose proof (exec_create_heap Hboard g hl size (volatile_heap s) p3 (kcpu (the_kernel s)) gn ge) as Hheap.
  destruct (new_range size gn ge) as [a b].
  destruct Hheap as (r & p' & E4 & Hg4 & Hh4 & Hn4 & Hk4).
  { apply (jgood_bytes p2 _ Hg2), Hk3. }
  { by apply heap_set_is. }
  { unfold heap_in. by rewrite Hl3. }
  { done. }
  { apply Hk3; [done|]. apply Hk2; [by rewrite Forall_singleton|done]. }
  { apply Hk3; [done|]. apply Hk2; [by rewrite Forall_singleton|done]. }
  { done. }
  { done. }
  { rewrite Hl3. apply (pl_global_in _ _ _ _ _ Hpl). }
  { by rewrite Hl3. }
  { cbn [journal p3 p2]. lia. }
  { done. }
  { done. }
  { done. }
  exists p'. split; [|split; [done|split; [|split; [done|split; [done|]]]]].
  - unfold create_task_tx. rewrite (pl_cnt _ _ _ _ _ Hpl). run (exec_boot_pm _ s c p _ _ Hnormal E1).
    pose proof Hcnt as Hcnt1. rewrite <-Hb1 in Hcnt1. run (exec_boot_pm _ s c p1 _ _ Hnormal (exec_read_usize _ _ _ Hcnt1)).
    rewrite (proj2 (Z.leb_gt _ _)) by lia. rewrite (proj2 (Nat.leb_gt _ _)) by lia.
    rewrite uadd_small by lia. replace (Z.of_nat t + 1) with (Z.of_nat (S t)) by lia.
    assert (E2 : exec (write_usize (Z.of_nat cnt) (Z.of_nat (S t))) p1 = Done tt p2).
    { rewrite exec_write_usize by (by rewrite Nat2Z.id, Hb1). by rewrite Nat2Z.id, Hb1. }
    run (exec_boot_pm _ s c p1 _ _ Hnormal E2). rewrite Nat2Z.id.
    set (s2 := lset (with_pm p2 c) s).
    assert (E3 : exec (on_kernel (alloc_static t)) s2 = Done tt (making s t c p2 (ls (the_kernel s)) zeroed_task)).
    { rewrite (exec_on_the_kernel _ s2 tt (with_tasks (<[t := zeroed_task]>) (the_kernel s2))); [by rewrite <-making_same|].
      unfold alloc_static, assert_. rewrite (proj2 (Nat.ltb_lt _ _) Hlimit).
      change (Done tt (with_tasks (λ ts, match ts !! t with Some _ => ts | None => <[t := zeroed_task]> ts end) (the_kernel s2))
        = Done tt (with_tasks (<[t := zeroed_task]>) (the_kernel s2))).
      unfold with_tasks. cbn beta. change (tasks (the_kernel s2)) with (tasks (the_kernel s)). by rewrite Hnew. }
    run E3. erewrite exec_bind_done; [|apply exec_making, (exec_initialize_task s t A prio hl c p2 (ls (the_kernel s)) (pl_heaps _ _ _ _ _ Hpl t) Hi2)].
    rewrite (pl_global _ _ _ _ _ Hpl), (pl_heaps _ _ _ _ _ Hpl t). fold hl p3.
    run (exec_making_heaps _ s t c p3 (new_nodes t (ls (the_kernel s))) created_tcb _ _ E4).
    set (sm := making s t c p' (new_nodes t (ls (the_kernel s))) created_tcb).
    change (exec (bind get ?f) sm) with (exec (f sm) sm). cbn beta.
    replace (scheduler_started sm) with false by (by rewrite <-Hstart). cbn [negb when].
    assert (Hd : exec (on_kernel (deref_task t)) sm = Done created_tcb sm).
    { unfold sm. rewrite (exec_making s t (deref_task t) c p' (new_nodes t (ls (the_kernel s))) created_tcb created_tcb c p' (new_nodes t (ls (the_kernel s))) created_tcb);
        [done|apply exec_deref_task, made_task]. }
    unfold elect. change (cur_max_priority sm) with (cur_max_priority s). rewrite exec_bind, exec_bind, Hd.
    change (priority created_tcb) with prio. by destruct (is_higher_than prio (cur_max_priority s)).
  - apply Hk4; [by constructor|]. apply Hk3; [done|]. apply word_set; [done|]. unfold is_usize. lia.
  - eapply words_kept_trans; [|eapply words_kept_trans]; (eapply words_kept_weaken; [|first [exact Hk2|exact Hk3|exact Hk4]]); set_solver.
Qed.
End create_task.

(** ** While the kernel boots *)

(** The tasks of the priorities [ps], numbered. *)
Definition numbered (ps : list nat) : list (nat * nat) := imap pair ps.
Lemma numbered_snoc ps p : numbered (ps ++ [p]) = numbered ps ++ [(length ps, p)].
Proof. unfold numbered. rewrite imap_app. cbn. by rewrite Nat.add_0_r. Qed.

(** They are in their ready lists in the order of their creation; the first one of
    the highest priority is current. *)
Definition boot_contents (C0 : contents) (ps : list nat) : contents :=
  foldl (λ C tp, append_to (ReadyList tp.2) (SchedNode tp.1, SchedItem tp.1 0) C) C0 (numbered ps).
Definition elected (ps : list nat) : option nat * nat :=
  foldl (λ e tp, if is_higher_than tp.2 e.2 then (Some tp.1, tp.2) else e) (None, MIN_PRIORITY) (numbered ps).

Lemma boot_contents_snoc C0 ps p :
  boot_contents C0 (ps ++ [p]) = append_to (ReadyList p) (SchedNode (length ps), SchedItem (length ps) 0) (boot_contents C0 ps).
Proof. unfold boot_contents. by rewrite numbered_snoc, foldl_app. Qed.
Lemma elected_snoc ps p :
  elected (ps ++ [p]) = if is_higher_than p (elected ps).2 then (Some (length ps), p) else elected ps.
Proof. unfold elected. by rewrite numbered_snoc, foldl_app. Qed.

(** What a registration leads to. *)
Definition registration `{Board} (ps : list nat) (prio : nat) : Result nat ErrorCode :=
  if (TASK_NUM_LIMIT <=? length ps)%nat then Err NoSpace
  else if (MIN_PRIORITY <=? prio)%nat then Err InvalidParam else Ok (length ps).
Definition registered `{Board} (ps : list nat) (prio : nat) : list nat :=
  match registration ps prio with Ok _ => ps ++ [prio] | Err _ => ps end.

Definition empty_range (r : Z * Z) : Prop := r = (0, 0).

(** After [j] transactions of booting the tasks [ps] have been created, on top of
    the lists [C0]; their heaps are the [ranges]; the area of the heaps is used from
    [lo] to [gn]. *)
Record booting `{Arch, Board} (size_of_res n : nat) (cnt : nat) (g : glayout) (hls : nat → hlayout) (lo ge : Z) (C0 : contents)
    (j : nat) (ps : list nat) (ranges : list (Z * Z)) (gn : Z) (s : statics) : Prop := {
  bo_started : scheduler_started s = false;
  bo_normal : boot_normal (the_kernel s);
  bo_cpu : kcpu (the_kernel s) = {| interrupts := true; nesting_cnt := 0 |};
  bo_kinv : kinv (the_kernel s) (boot_contents C0 ps) None;
  bo_size : (size (nodes (ls (the_kernel s))) ≤ 2 * length ps)%nat;
  bo_limit : (length ps ≤ TASK_NUM_LIMIT)%nat;
  bo_tasks : ∀ t, tasks (the_kernel s) !! t = (λ p, tcb_of p Ready (new_task (current_generation (boot (the_kernel s))))) <$> ps !! t;
  bo_current : (current_task (the_kernel s), cur_max_priority s) = elected ps;
  bo_tx : ∃ b bs, length bs = (j * size_of_res)%nat ∧ ready b j j (length bs) bs (kmem (the_kernel s)) (boot_of (the_kernel s));
  bo_length : length (kmem (the_kernel s)) = n;
  bo_count : word (kmem (the_kernel s)) cnt (Z.of_nat (length ps));
  bo_next : word (kmem (the_kernel s)) (gl_next g) gn;
  bo_end : word (kmem (the_kernel s)) (gl_end g) ge;
  bo_area : 0 < lo ≤ gn ∧ gn ≤ ge;
  bo_ranges : length ranges = length ps;
  bo_heaps : ∀ t r, ranges !! t = Some r → heap_is (hls t) (kmem (the_kernel s)) r.1 r.2;
  bo_inside : Forall (λ r, empty_range r ∨ lo ≤ r.1 ≤ r.2 ∧ r.2 ≤ gn) ranges;
  bo_disjoint : ∀ t t' r r', (t < t')%nat → ranges !! t = Some r → ranges !! t' = Some r' → empty_range r ∨ empty_range r' ∨ r.2 ≤ r'.1;
}.

(** Inserting the new task does not add nodes. *)
Lemma insert_ready_size `{Arch, Board, TxFeatures} k C t b w k' :
  kinv k C (Some t) → tasks k !! t = Some b → free (ls k) (SchedNode t) (SchedItem t w) →
  exec (roll_forward_insert_into_readylist t) k = Done tt k' → size (nodes (ls k')) = size (nodes (ls k)).
Proof.
  intros Hk Hb Hf E. set (k1 := with_klog (set_op ReadyListInsert) (with_klog (set_tp (Some t)) k)).
  destruct (k_sched _ _ _ _ Hk t b Hb) as [Hp _]. destruct (k_ready _ _ _ _ Hk _ Hp) as [xs HC].
  pose proof (k_repr _ _ _ _ Hk) as Hr.
  destruct (repr_insert_before_cursor is_ready_list is_active_list _ _ (ReadyList (priority b)) _ _ _ Hr eq_refl HC Hf) as (s' & Hex & Hr' & Ht).
  assert (E1 : exec (add_to_ready_list t) k1 = Done tt (status_upd t Ready (with_ls s' k1))).
  { unfold add_to_ready_list, ready_list_of. rewrite (exec_bind_done _ _ _ (ReadyList (priority b)) k1).
    2:{ by rewrite (exec_bind_done _ _ _ _ _ (exec_deref_task t k1 b Hb)). }
    unfold circular_insert. run (exec_on_lists _ k1 _ _ Hex). by apply (exec_set_status _ _ _ b). }
  unfold roll_forward_insert_into_readylist in E.
  rewrite (exec_bind_done _ _ _ tt (with_klog (set_tp (Some t)) k)) in E by done.
  rewrite (exec_bind_done _ _ _ _ _ (exec_set_tx_op ReadyListInsert (with_klog (set_tp (Some t)) k))) in E. fold k1 in E.
  rewrite (exec_bind_done _ _ _ _ _ E1), exec_log_invalidate in E. injection E as <-. cbn.
  assert (Hdom : dom (nodes s') = dom (nodes (ls k))).
  { apply set_eq. intros n. rewrite !elem_of_dom. destruct (decide (n ∈ SchedNode t :: xs.*1)) as [Hin|Hin].
    - split; intros _.
      + apply elem_of_cons in Hin as [->|Hin]; [destruct Hf as (m & Em & _); by exists m|].
        apply list_elem_of_fmap in Hin as ([n' v] & -> & Hin). destruct (holds_seg _ _ _ _ (proj1 Hr _ _ HC)) as (? & ? & Hs & _).
        destruct (seg_elem _ _ _ _ _ _ _ Hin Hs) as (? & ? & Em). by eexists.
      + assert (Hin' : ∃ v, (n, v) ∈ xs ++ [(SchedNode t, SchedItem t w)]).
        { apply elem_of_cons in Hin as [->|Hin]; [exists (SchedItem t w); set_solver|].
          apply list_elem_of_fmap in Hin as ([n' v] & -> & Hin). exists v. set_solver. }
        destruct Hin' as [v Hin']. destruct (holds_seg _ _ _ _ (proj1 Hr' _ _ (lookup_insert_eq _ _ _))) as (? & ? & Hs & _).
        destruct (seg_elem _ _ _ _ _ _ _ Hin' Hs) as (? & ? & Em). by eexists.
    - by rewrite (proj1 Ht n Hin). }
  rewrite <-!size_dom. by rewrite Hdom.
Qed.

Section create_static.
Context `{Arch, Board, TxFeatures} (Hboard : board_ok) (Hopt : opt_tx_cache_space = true) (Hcache : cache_ok).
Context `{PT : !Plain (Result nat ErrorCode), !PlainLaws (Result nat ErrorCode)}.
Context (A : addresses) (cnt : nat) (g : glayout) (hls : nat → hlayout) (lo ge : Z) (C0 : contents) (n : nat).
Context (Hpl : placed A cnt g hls n) (Hlimits : 2 * Z.of_nat TASK_NUM_LIMIT + 3 < usize_mod).
Context (Hroom : Z.of_nat (record_size usize_bytes) + Z.of_nat (record_size (2 * usize_bytes)) ≤ JOURNAL_SIZE).
Notation booting := (booting (size_of (Result nat ErrorCode)) n cnt g hls lo ge C0).

Definition masked_statics (s : statics) : statics := lset (Lens := statics_cpu_lens) {| interrupts := false; nesting_cnt := 1 |} s.

(** The transaction in the critical section. *)
Lemma create_tx_step s j ps ranges gn prio size :
  booting j ps ranges gn s → fits (T := Result nat ErrorCode) j (j * size_of (Result nat ErrorCode)) → 0 ≤ size → ge + size < usize_mod →
  ∃ s2 d bs, exec (transaction_run (create_task_tx A prio size)) (masked_statics s) = Done (registration ps prio) (lset (Lens := tx_of_boot) d s2) ∧
    length bs = (S j * size_of (Result nat ErrorCode))%nat ∧ ready true (S j) (S j) (length bs) bs (bytes (tx_pm d)) d ∧
    match registration ps prio with
    | Err _ => s2 = masked_statics s ∧ bytes (tx_pm d) = kmem (the_kernel s)
    | Ok t =>
        let (a, b) := new_range size gn ge in
        ∃ c p, s2 = elect t prio (making (masked_statics s) t c p (new_nodes t (ls (the_kernel s))) (created_tcb s prio)) ∧ bytes (tx_pm d) = bytes p ∧
          word (bytes p) cnt (Z.of_nat (S t)) ∧ heap_is (hls t) (bytes p) a b ∧ word (bytes p) (gl_next g) (new_next size gn ge) ∧
          words_kept (cnt :: gl_next g :: heap_words (hls t)) (kmem (the_kernel s)) (bytes p)
    end.
Proof.
  intros [Hst Hno Hcpu Hk Hsz Hlim Hts Hcur (b & bs & Hbs & Hr) Hlen Hcnt Hgn Hge Harea Hrl Hh Hins Hdis] Hfit Hsize Hge2.
  set (sm := masked_statics s). pose proof (ready_pm _ _ _ _ _ _ _ Hr) as Hu. pose proof (undoes_jgood _ _ _ Hu) as Hg.
  destruct (ready_empty _ _ _ _ _ _ _ Hr) as (_ & Ht0 & Hm). set (p := tx_pm (boot_of (the_kernel s))) in *.
  rewrite <-Hbs in Hfit.
  destruct (exec_transaction_run Hopt Hcache tx_of_boot (λ s, boot_normal (the_kernel s)) (create_task_tx A prio size) sm j b bs _ (registration ps prio)
    (exec_boot_tx sm Hst) tx_of_boot_lawful Hno Hr Hfit) as (c1 & Epm & Hrun).
  assert (Ec : with_pm p c1 = c1) by (unfold p; change (boot_of (the_kernel s)) with (lget (Lens := tx_of_boot) sm); rewrite <-Epm; by destruct c1).
  assert (Hplp : placed A cnt g hls (length (bytes p))) by (by rewrite Hm, Hlen).
  assert (Hcp : 0 ≤ nesting_cnt (kcpu (the_kernel sm)) < usize_mod - 1) by (pose proof usize_mod_ge; cbn; lia).
  assert (Hroom1 : tail (journal p) + Z.of_nat (record_size usize_bytes) + Z.of_nat (record_size (2 * usize_bytes)) ≤ JOURNAL_SIZE) by lia.
  rewrite <-Hm in Hcnt, Hgn, Hge. unfold registration in *.
  assert (Hrefused : ∀ e, (TASK_NUM_LIMIT ≤ length ps ∧ e = NoSpace ∨ length ps < TASK_NUM_LIMIT ∧ MIN_PRIORITY ≤ prio ∧ e = InvalidParam)%nat →
    registration ps prio = Err e → ∃ s2 d bs', exec (transaction_run (create_task_tx A prio size)) sm = Done (Err e) (lset (Lens := tx_of_boot) d s2) ∧
      length bs' = (S j * size_of (Result nat ErrorCode))%nat ∧ ready true (S j) (S j) (length bs') bs' (bytes (tx_pm d)) d ∧
      s2 = sm ∧ bytes (tx_pm d) = kmem (the_kernel s)).
  { intros e He Ea. unfold registration in Ea. rewrite Ea in Hrun.
    destruct (exec_create_refused Hboard A cnt g hls sm c1 p (length ps) prio size Hplp Hno Hg Hcnt Hroom1 e He) as (p' & E & Hb & Hg').
    rewrite Ec in E. destruct (Hrun _ p' E eq_refl (lw_get _ _ tx_of_boot_lawful _ sm Hno) Hg') as (d & E' & Ed & Hd).
    exists sm, d, (bs ++ to_bytes (Err e)). split; [exact E'|]. split; [rewrite length_app, length_to_bytes; lia|].
    rewrite Ed. split; [done|]. by rewrite Hb, Hm. }
  unfold registration in Hrefused.
  destruct (Nat.leb_spec TASK_NUM_LIMIT (length ps)) as [Hl|Hl]; [apply Hrefused; [left|]; done|].
  destruct (Nat.leb_spec MIN_PRIORITY prio) as [Hq|Hq]; [apply Hrefused; [right|]; done|]. clear Hrefused.
  assert (Hnew : tasks (the_kernel sm) !! length ps = None).
  { change (tasks (the_kernel sm)) with (tasks (the_kernel s)). rewrite Hts. by rewrite lookup_ge_None_2. }
  pose proof (exec_create_body Hboard A cnt g hls sm c1 p (length ps) prio size gn ge Hplp Hst Hno Hg Hcnt Hroom1 ltac:(lia) Hl Hq Hnew
    Hgn Hge Hsize ltac:(lia) Hcp eq_refl) as Hbody.
  destruct (new_range size gn ge) as [a0 b0]. destruct Hbody as (p' & E & Hg' & Hw1 & Hh1 & Hw2 & Hkeep). rewrite Ec in E.
  set (mk := making sm (length ps) c1 p' (new_nodes (length ps) (ls (the_kernel s))) (created_tcb s prio)).
  assert (Hno2 : boot_normal (the_kernel (elect (length ps) prio mk))) by (unfold elect; by destruct (is_higher_than _ _)).
  assert (Hget2 : lget (Lens := tx_of_boot) (elect (length ps) prio mk) = with_pm p' c1).
  { etrans; [|apply (making_boot sm (length ps) c1 p' (new_nodes (length ps) (ls (the_kernel s))) (created_tcb s prio))].
    unfold elect. by destruct (is_higher_than _ _). }
  destruct (Hrun _ p' E Hno2 Hget2 Hg') as (d & E' & Ed & Hd).
  exists (elect (length ps) prio mk), d, (bs ++ to_bytes (Ok (length ps))). split; [exact E'|]. split; [rewrite length_app, length_to_bytes; lia|].
  rewrite Ed. split; [done|]. exists c1, p'. split; [done|]. split; [done|]. split; [done|]. split; [done|]. split; [done|].
  by rewrite <-Hm.
Qed.

Lemma new_range_inside size gn : 0 ≤ size → gn ≤ ge →
  gn ≤ new_next size gn ge ≤ ge ∧
  (empty_range (new_range size gn ge) ∨ gn ≤ (new_range size gn ge).1 ≤ (new_range size gn ge).2 ∧ (new_range size gn ge).2 ≤ new_next size gn ge).
Proof.
  intros Hs Hg. unfold new_range, new_next, empty_range. destruct (Z.eqb_spec size 0), (Z.ltb_spec ge (gn + size)); cbn; try (split; [lia|by left]).
  split; [lia|right; lia].
Qed.

(** A new task on top of the others. *)
Lemma ready_insert ts t b : status b = Ready → set_state Ready t (<[t := b]> ts) = <[t := b]> ts.
Proof.
  intros E. unfold set_state. rewrite alter_insert_eq. f_equal. destruct b. cbn in *. by subst.
Qed.

(** What booting does not touch. *)
Definition boot_rest (k k' : kernel) : Prop :=
  tm k' = tm k ∧ timer_daemon_task k' = timer_daemon_task k ∧ first_boot_done (boot k') = first_boot_done (boot k) ∧
  current_generation (boot k') = current_generation (boot k).

Lemma create_static_step s j ps ranges gn prio size :
  booting j ps ranges gn s → fits (T := Result nat ErrorCode) j (j * size_of (Result nat ErrorCode)) → 0 ≤ size → ge + size < usize_mod →
  ∃ s' ranges' gn', exec (create_task_static A prio size) s = Done (registration ps prio) s' ∧
    booting (S j) (registered ps prio) ranges' gn' s' ∧ boot_rest (the_kernel s) (the_kernel s').
Proof.
  intros Hbo Hfit Hsize Hge2. destruct (create_tx_step s j ps ranges gn prio size Hbo Hfit Hsize Hge2) as (s2 & d & bs & E & Hbs & Hrd & Hcase).
  destruct Hbo as [Hst Hno Hcpu Hk Hsz Hlim Hts Hcur _ Hlen Hcnt Hgn Hge Harea Hrl Hh Hins Hdis].
  assert (Hcrit : ∀ f v s', exec f (masked_statics s) = Done v s' → kcpu (the_kernel s') = {| interrupts := false; nesting_cnt := 1 |} →
    exec (with_no_interrupt (S := statics) (A := Result nat ErrorCode) f) s = Done v (lset (Lens := statics_cpu_lens) {| interrupts := true; nesting_cnt := 0 |} s')).
  { intros f v s' Ef Ec. apply (exec_with_no_interrupt (Lens0 := statics_cpu_lens) f s s' v 0); [cbn; by rewrite Hcpu|pose proof usize_mod_ge; lia|exact Ef|exact Ec]. }
  unfold registered. destruct (registration ps prio) as [t|e] eqn:Ead.
  2:{ destruct Hcase as [-> Hm].
    set (s' := lset (Lens := statics_cpu_lens) {| interrupts := true; nesting_cnt := 0 |} (lset (Lens := tx_of_boot) d (masked_statics s))).
    assert (Hmem : kmem (the_kernel s') = kmem (the_kernel s)) by exact Hm.
    assert (Hbt : boot_of (the_kernel s') = d) by (unfold s'; by destruct d as [[] ? ? ?]).
    exists s', ranges, gn. split; [|split; [|done]]; [apply Hcrit; [by run E|done]|].
    split; rewrite ?Hmem, ?Hbt; try done. exists true, bs. by rewrite Hm in Hrd. }
  set (b := created_tcb s prio) in *. destruct (new_range size gn ge) as [r0 r1] eqn:Hrange.
  destruct Hcase as (c & p & -> & Hm & Hw1 & Hh1 & Hw2 & Hkeep). set (s3 := lset (Lens := tx_of_boot) d (elect _ _ _)) in *.
  assert (Ht : t = length ps ∧ (t < TASK_NUM_LIMIT)%nat ∧ (prio < MIN_PRIORITY)%nat).
  { unfold registration in Ead. destruct (Nat.leb_spec TASK_NUM_LIMIT (length ps)); [done|]. destruct (Nat.leb_spec MIN_PRIORITY prio); [done|].
    by injection Ead as <-. }
  destruct Ht as (Et & Hlt & Hlp).
  assert (Hs3 : ls (the_kernel s3) = new_nodes t (ls (the_kernel s)) ∧ tasks (the_kernel s3) = <[t := b]> (tasks (the_kernel s)) ∧
    kcpu (the_kernel s3) = {| interrupts := false; nesting_cnt := 1 |} ∧ kmem (the_kernel s3) = bytes p ∧ boot_of (the_kernel s3) = d ∧
    (current_task (the_kernel s3), cur_max_priority s3) = elected (ps ++ [prio]) ∧ boot_rest (the_kernel s) (the_kernel s3) ∧
    scheduler_started s3 = false ∧ boot_normal (the_kernel s3)).
  { rewrite elected_snoc, <-Hcur, <-Et. unfold s3, elect. cbn [snd]. change (cur_max_priority (making _ _ _ _ _ _)) with (cur_max_priority s).
    rewrite <-Hm. destruct (is_higher_than prio (cur_max_priority s)); by destruct d as [[] ? ? ?]. }
  destruct Hs3 as (El & Etk & Ec & Emem & Ebt & Ecur & Erest & Est & Eno).
  assert (Hnew : tasks (the_kernel s) !! t = None) by (rewrite Hts, Et; by rewrite lookup_ge_None_2).
  destruct (new_nodes_free t (ls (the_kernel s))) as [Hf _]. rewrite <-El in Hf.
  assert (Hk3 : kinv (the_kernel s3) (boot_contents C0 ps) (Some t)).
  { unfold kinv. rewrite El, Etk. apply sinv_new_task; [exact Hk|done|exact Hlp|lia]. }
  assert (Hb3 : tasks (the_kernel s3) !! t = Some b) by (rewrite Etk; apply lookup_insert_eq).
  destruct (insert_ready_refines (the_kernel s3) _ t b 0 Hk3 Hb3 Hf) as (k' & Ex & Hk' & Etk' & Hrest & _).
  pose proof (insert_ready_size _ _ _ _ _ _ Hk3 Hb3 Hf Ex) as Hsize'. rewrite El in Hsize'.
  pose proof (size_new_nodes t (ls (the_kernel s))) as Hsize2.
  rewrite Etk, ready_insert in Etk' by done. destruct Hrest as (R1 & R2 & R3 & R4 & R5 & R6 & R7).
  set (s' := lset (Lens := statics_cpu_lens) {| interrupts := true; nesting_cnt := 0 |} (lset (Lens := statics_kern_lens) k' s3)).
  assert (Hmem : kmem (the_kernel s') = bytes p) by (by rewrite <-Emem, <-R4).
  destruct Erest as (Er1 & Er2 & Er3 & Er4).
  exists s', (ranges ++ [(r0, r1)]), (new_next size gn ge). split; [|split].
  - apply Hcrit; [|by rewrite <-Ec, <-R3]. run E. rewrite exec_bind. by rewrite (exec_on_the_kernel _ _ _ _ Ex).
  -
    pose proof (new_range_inside size gn Hsize ltac:(lia)) as [Hnn Hrr]. rewrite Hrange in Hrr. cbn [fst snd] in Hrr.
    pose proof (pl_end_apart _ _ _ _ _ Hpl t Hlt) as Hea.
    assert (Eg : current_generation (boot (the_kernel s')) = current_generation (boot (the_kernel s))) by (by rewrite <-Er4, <-R5).
    split; rewrite ?Hmem, ?length_app; cbn [length]; try done.
    + unfold boot_normal in Eno |- *. rewrite <-R5 in Eno. exact Eno.
    + rewrite boot_contents_snoc, <-Et. exact Hk'.
    + change (ls (the_kernel s')) with (ls k'). lia.
    + lia.
    + intros t'. rewrite Eg. change (tasks (the_kernel s')) with (tasks k'). rewrite Etk'. destruct (decide (t' = t)) as [->|Hne].
      * rewrite lookup_insert_eq, Et, lookup_app_r, Nat.sub_diag by lia. done.
      * rewrite lookup_insert_ne by done. rewrite Hts. destruct (decide (t' < length ps)%nat); [by rewrite lookup_app_l|].
        rewrite !lookup_ge_None_2; [done|rewrite length_app; cbn; lia|lia].
    + rewrite <-Ecur, <-R2. done.
    + exists true, bs. split; [done|]. rewrite <-Hm. replace (boot_of (the_kernel s')) with (boot_of (the_kernel s3)); [by rewrite Ebt|].
      change (boot_of (the_kernel s')) with (boot_of k'). unfold boot_of, boot_tx_lens. cbn [lget]. by rewrite R4, R5.
    + by rewrite (proj1 Hkeep).
    + replace (length ps + 1)%nat with (S t) by lia. done.
    + apply Hkeep; [exact Hea|done].
    + lia.
    + lia.
    + intros t' r Hr. rewrite lookup_app_Some in Hr. destruct Hr as [Hr|[Hge' Hr]].
      * assert (t' < length ps)%nat by (rewrite <-Hrl; by eapply lookup_lt_Some). destruct (Hh t' r Hr) as (W1 & W2 & W3).
        assert (Hap : ∀ w, w ∈ heap_words (hls t') → Forall (λ w', apart w usize_bytes w' usize_bytes) (cnt :: gl_next g :: heap_words (hls t))).
        { intros w Hw. pose proof (pl_cnt_apart _ _ _ _ _ Hpl t' ltac:(lia)) as Hc. pose proof (pl_next_apart _ _ _ _ _ Hpl t' ltac:(lia)) as Hn.
          pose proof (pl_heap_apart _ _ _ _ _ Hpl t' t ltac:(lia) Hlt ltac:(lia)) as Hw'. rewrite Forall_forall in Hc, Hn, Hw'.
          constructor; [|constructor; [|by apply Hw']].
          - specialize (Hc w ltac:(by right)). unfold apart in *. lia.
          - specialize (Hn w ltac:(by right)). unfold apart in *. lia. }
        split_and!; (apply Hkeep; [apply Hap; unfold heap_words; set_solver|done]).
      * assert (t' = t) as ->. { apply lookup_lt_Some in Hr as Hl'. cbn in Hl'. lia. }
        replace (t - length ranges)%nat with 0%nat in Hr by lia. injection Hr as <-. exact Hh1.
    + apply Forall_app. split.
      * eapply Forall_impl; [exact Hins|]. intros r [?|?]; [by left|right; lia].
      * apply Forall_singleton. cbn [fst snd]. destruct Hrr; [by left|right; lia].
    + intros t1 t2 ra rb H12 Ha Hb. rewrite lookup_app_Some in Ha, Hb. destruct Hb as [Hb|[Hg2 Hb]].
      * destruct Ha as [Ha|[Hg1 Ha]]; [by eapply Hdis|]. apply lookup_lt_Some in Hb. lia.
      * apply lookup_lt_Some in Hb as Hl2. cbn in Hl2. replace (t2 - length ranges)%nat with 0%nat in Hb by lia. injection Hb as <-.
        destruct Ha as [Ha|[Hg1 Ha]]; [|apply lookup_lt_Some in Ha; cbn in Ha; lia].
        rewrite Forall_forall in Hins. destruct (Hins ra ltac:(by eapply list_elem_of_lookup_2)) as [?|[? ?]]; [by left|right].
        cbn [fst snd]. destruct Hrr as [?|[? ?]]; [by left|right; lia].
  - split_and!; [by rewrite <-Er1, <-R1|by rewrite <-Er2, <-R7|by rewrite <-Er3, <-R5|by rewrite <-Er4, <-R5].
Qed.
End create_static.
