(* ===== verification/BootSystem.v ===== *)
(** * The boot sequence establishes the invariant of the system

    The first boot, from blank memory: the heaps, the idle task, the tasks of the
    application. Behind it is the system whose steps never fail. *)

From S2P Require Import Prelude Arch Pmem PmemSpec PVar TxCache Transaction TxAttempt Replay UserTx.
From S2P Require Import Util PList PListUpd PListSeg PListLinear ListRepr Kernel ListTx Sched SchedInv SchedSpec SchedVal SchedTick SchedOps Blocking Queue QueueRing.
From S2P Require Import SchedDemo BlockingOps Heap HeapSpec Timer SemaphoreOps System Create CreateTx CreateOps Boot BootOps.

(** ** The application registers its tasks *)

(** Each with a parameter of a word. *)
Definition register_apps `{Arch, Board, TxFeatures} `{!Plain (Result nat ErrorCode)} (A : addresses) (apps : list (nat * Z)) : prog statics unit :=
  foldr (λ app rest, register_app_custom A usize_bytes app.1 app.2;;; rest) skip apps.

(** ** The tasks that have been registered *)

Lemma registered_prefix `{Board} ps apps : ps `prefix_of` foldl registered ps apps.
Proof.
  revert ps; induction apps as [|p apps IH]; intros ps; [done|]. cbn. etrans; [|apply IH].
  unfold registered. destruct (registration ps p); [by apply prefix_app_r|done].
Qed.
Lemma registered_valid `{Board} ps apps : Forall (λ p, p < MIN_PRIORITY)%nat ps → Forall (λ p, p < MIN_PRIORITY)%nat (foldl registered ps apps).
Proof.
  revert ps; induction apps as [|p apps IH]; intros ps Hps; [done|]. cbn. apply IH. unfold registered, registration.
  destruct (_ <=? _)%nat; [done|]. destruct (Nat.leb_spec MIN_PRIORITY p); [done|]. apply Forall_app. split; [done|]. by apply Forall_singleton.
Qed.

(** The first task of the highest priority. *)
Definition first_best (ps : list nat) (t p : nat) : Prop :=
  ps !! t = Some p ∧ ∀ t' p', ps !! t' = Some p' → (p ≤ p' ∧ (p' = p → t ≤ t'))%nat.
Lemma elected_first ps : Forall (λ p, p < MIN_PRIORITY)%nat ps →
  match elected ps with (Some t, p) => first_best ps t p | (None, p) => ps = [] ∧ p = MIN_PRIORITY end.
Proof.
  induction ps as [|q ps IH] using rev_ind; intros Hps; [done|]. apply Forall_app in Hps as [Hps Hq]. rewrite Forall_singleton in Hq.
  specialize (IH Hps). rewrite elected_snoc. destruct (elected ps) as [[t|] p]; cbn [snd].
  - destruct IH as [Ht Hb]. unfold is_higher_than. destruct (Nat.ltb_spec q p) as [Hlt|Hge]; split.
    + by rewrite lookup_app_r, Nat.sub_diag by lia.
    + intros t' p' Hp'. rewrite lookup_app_Some in Hp'. destruct Hp' as [Hp'|[Hl Hp']]; [destruct (Hb _ _ Hp'); lia|].
      apply list_lookup_singleton_Some in Hp' as [? <-]. lia.
    + apply lookup_app_Some. by left.
    + intros t' p' Hp'. rewrite lookup_app_Some in Hp'. destruct Hp' as [Hp'|[Hl Hp']]; [by eapply Hb|].
      apply list_lookup_singleton_Some in Hp' as [? <-]. apply lookup_lt_Some in Ht. lia.
  - destruct IH as [-> ->]. unfold is_higher_than. rewrite (proj2 (Nat.ltb_lt _ _)) by done. split; [done|]. intros t' p' Hp'.
    destruct t'; [by injection Hp' as <-|done].
Qed.
Lemma boot_contents_ne C0 ps l : is_ready_list l = false → boot_contents C0 ps !! l = C0 !! l.
Proof.
  intros Hl. induction ps as [|q ps IH] using rev_ind; [done|]. rewrite boot_contents_snoc. unfold append_to.
  rewrite lookup_alter_ne; [done|]. by intros <-.
Qed.

Section boot.
Context `{Arch, Board, TxFeatures} (Hboard : board_ok) (Hopt : opt_tx_cache_space = true) (Hcache : cache_ok).
Context `{PT : !Plain (Result nat ErrorCode), !PlainLaws (Result nat ErrorCode)}.
Context (A : addresses) (cnt : nat) (g : glayout) (hls : nat → hlayout) (lo ge : Z) (C0 : contents) (n : nat).
Context (Hpl : placed A cnt g hls n) (Hlimits : 2 * Z.of_nat TASK_NUM_LIMIT + 3 < usize_mod).
Context (Hroom : Z.of_nat (record_size usize_bytes) + Z.of_nat (record_size (2 * usize_bytes)) ≤ JOURNAL_SIZE).
Notation res_size := (size_of (Result nat ErrorCode)).
Notation booting := (booting res_size n cnt g hls lo ge C0).

Lemma register_apps_step apps s j ps ranges gn :
  booting j ps ranges gn s → (∀ i, (i < j + length apps)%nat → fits (T := Result nat ErrorCode) i (i * res_size)) →
  Forall (λ app, 0 ≤ app.2 ∧ ge + app.2 < usize_mod) apps →
  ∃ s' ranges' gn', exec (register_apps A apps) s = Done tt s' ∧
    booting (j + length apps) (foldl registered ps apps.*1) ranges' gn' s' ∧ boot_rest (the_kernel s) (the_kernel s').
Proof using All.
  revert s j ps ranges gn; induction apps as [|[prio size] apps IH]; intros s j ps ranges gn Hbo Hfit Hsizes.
  { exists s, ranges, gn. split; [done|]. split; [by rewrite Nat.add_0_r|done]. }
  apply Forall_cons in Hsizes as [[Hs1 Hs2] Hsizes]. cbn [fst snd length] in *.
  destruct (create_static_step Hboard Hopt Hcache A cnt g hls lo ge C0 n Hpl Hlimits Hroom s j ps ranges gn prio size Hbo (Hfit j ltac:(lia)) Hs1 Hs2)
    as (s1 & ranges1 & gn1 & E1 & Hbo1 & R1).
  destruct (IH s1 (S j) (registered ps prio) ranges1 gn1 Hbo1) as (s' & ranges' & gn' & E & Hbo' & R'); [intros i ?; apply Hfit; lia|done|].
  exists s', ranges', gn'. split; [|split].
  - assert (Ereg : exec (register_app_custom A usize_bytes prio size) s = Done tt s1).
    { unfold register_app_custom. rewrite Nat.eqb_refl. cbn [assert_ skip bind]. by run E1. }
    cbn [register_apps foldr fst snd]. by run Ereg.
  - by replace (j + S (length apps))%nat with (S j + length apps)%nat by lia.
  - destruct R1 as (? & ? & ? & ?), R' as (? & ? & ? & ?). split_and!; congruence.
Qed.

(** ** Blank memory *)

(** Where the flag of [heap::init] and the heap of booting are. *)
Record boot_placed (bhl : hlayout) (flag : nat) : Prop := {
  bp_heap : BOOT_PM_HEAP A = heap_of bhl;
  bp_flag : HEAP_FIRST_INIT_DONE A = Z.of_nat flag;
  bp_heap_in : Forall (λ w, w + usize_bytes ≤ n)%nat (heap_words bhl);
  bp_flag_in : (flag < n)%nat;
  bp_flag_heap : Forall (λ w, apart flag 1 w usize_bytes) (cnt :: gl_next g :: gl_end g :: heap_words bhl);
  bp_cnt_heap : Forall (λ w, apart cnt usize_bytes w usize_bytes) (gl_next g :: gl_end g :: heap_words bhl);
  bp_global : apart (gl_next g) usize_bytes (gl_end g) usize_bytes;
  bp_global_in : (gl_next g + usize_bytes ≤ n)%nat ∧ (gl_end g + usize_bytes ≤ n)%nat;
  bp_boot_area : is_usize (BOOT_PM_HEAP_AREA A + BOOT_PM_HEAP_SIZE);
  bp_area : PM_HEAP_AREA A = lo ∧ 0 < lo ∧ lo ≤ ge ∧ lo + PM_HEAP_SIZE = ge ∧ ge < usize_mod;
}.

(** The state before the first boot: no task, no node, and a journal and a cache
    without entries. *)
Record blank (flag : nat) (s : statics) : Prop := {
  bl_started : scheduler_started s = false;
  bl_normal : boot_normal (the_kernel s);
  bl_first : first_boot_done (boot (the_kernel s)) = false;
  bl_cpu : kcpu (the_kernel s) = {| interrupts := true; nesting_cnt := 0 |};
  bl_kinv : kinv (the_kernel s) C0 None;
  bl_nodes : nodes (ls (the_kernel s)) = ∅;
  bl_tasks : tasks (the_kernel s) = ∅;
  bl_current : current_task (the_kernel s) = None;
  bl_max : cur_max_priority s = MIN_PRIORITY;
  bl_tx : ready false 0 0 0 [] (kmem (the_kernel s)) (boot_of (the_kernel s));
  bl_length : length (kmem (the_kernel s)) = n;
  bl_count : word (kmem (the_kernel s)) cnt 0;
  bl_flag : slice flag 1 (kmem (the_kernel s)) = [0];
  bl_time : 0 ≤ tick_counter (tm (the_kernel s));
}.

Context (bhl : hlayout) (flag : nat) (Hbp : boot_placed bhl flag).

Definition init_mem (m : list Z) : list Z :=
  list_inserts flag [1] (list_inserts (gl_end g) (usize_to_bytes ge) (list_inserts (gl_next g) (usize_to_bytes lo)
    (heap_set bhl (BOOT_PM_HEAP_AREA A) (BOOT_PM_HEAP_AREA A + BOOT_PM_HEAP_SIZE) (BOOT_PM_HEAP_AREA A) m))).

Lemma exec_heap_init V p cp :
  length (bytes p) = n → slice flag 1 (bytes p) = [0] →
  ∃ V', exec (heap_init (BOOT_PM_HEAP A) (GLOBAL_PM_HEAP A) (HEAP_FIRST_INIT_DONE A) (HEAP_AREA A) (BOOT_PM_HEAP_AREA A) (PM_HEAP_AREA A))
    (Build_heaps V p cp) = Done tt (Build_heaps V' {| bytes := init_mem (bytes p); journal := journal p |} cp).
Proof using All.
  intros Hl Hflag. destruct Hbp as [Eh Ef Hin Hfin _ _ _ [Hg1 Hg2] Hba (Ea & Hlo & Hle & Hge & Hgm)].
  unfold heap_words in Hin. rewrite !Forall_cons in Hin. destruct Hin as (Hi1 & Hi2 & Hi3 & _).
  assert (Hhi : heap_in bhl (bytes p)) by (unfold heap_in; by rewrite Hl).
  set (V' := if 0 <? HEAP_SIZE then {| heap_start := HEAP_AREA A; heap_end := uadd (HEAP_AREA A) HEAP_SIZE; bump_next := HEAP_AREA A |} else V).
  exists V'. unfold heap_init.
  rewrite (exec_bind_done _ _ _ tt (Build_heaps V' p cp)) by (unfold V'; by destruct (0 <? HEAP_SIZE)).
  rewrite Ef. erewrite exec_bind_done; [|apply (exec_zoom_done (Lens0 := hmem_lens)), exec_read_bytes; cbn; lia].
  cbn [lget lset hmem_lens hmem HEAP hcpu]. rewrite Hflag, decide_True by done.
  rewrite Eh. erewrite exec_bind_done; [|apply (exec_zoom_done (Lens0 := hmem_lens)), (exec_pm_init bhl _ _ p Hhi Hba)].
  cbn [lget lset hmem_lens hmem HEAP hcpu].
  set (m1 := heap_set bhl (BOOT_PM_HEAP_AREA A) (BOOT_PM_HEAP_AREA A + BOOT_PM_HEAP_SIZE) (BOOT_PM_HEAP_AREA A) (bytes p)).
  assert (Hl1 : length m1 = n) by (rewrite <-Hl; by apply heap_set_kept).
  erewrite exec_bind_done; [|apply (exec_zoom_done (Lens0 := hmem_lens))].
  2:{ unfold global_init. rewrite (pl_global _ _ _ _ _ Hpl), Ea. cbn [global_of gh_next gh_end lget hmem_lens hmem].
      erewrite exec_bind_done; [|apply exec_write_usize; cbn; rewrite Nat2Z.id; lia]. cbn [bytes journal].
      rewrite exec_write_usize by (cbn; rewrite length_inserts, Nat2Z.id; lia). cbn [bytes journal]. rewrite uadd_small by lia. reflexivity. }
  cbn [lget lset hmem_lens hmem HEAP hcpu].
  erewrite (exec_zoom_done (Lens0 := hmem_lens)); [|cbn [lget hmem_lens hmem]; apply exec_write_bytes; cbn; rewrite !length_inserts; lia].
  cbn [lset hmem_lens HEAP hcpu set_bytes bytes journal]. rewrite !Nat2Z.id, Hge. done.
Qed.

Lemma init_mem_words m : length m = n → word m cnt 0 →
  length (init_mem m) = n ∧ word (init_mem m) cnt 0 ∧ word (init_mem m) (gl_next g) lo ∧ word (init_mem m) (gl_end g) ge.
Proof using All.
  intros Hl Hw. destruct Hbp as [_ _ Hin Hfin Hfa Hca Hga [Hg1 Hg2] _ (_ & Hlo & Hle & _ & Hgm)].
  unfold heap_words in Hin. rewrite !Forall_cons in Hin. destruct Hin as (Hi1 & Hi2 & Hi3 & _).
  assert (Hhi : heap_in bhl m) by (unfold heap_in; by rewrite Hl).
  apply Forall_cons in Hfa as [Hf1 Hfa]. apply Forall_cons in Hfa as [Hf2 Hfa]. apply Forall_cons in Hfa as [Hf3 _].
  apply Forall_cons in Hca as [Hc1 Hca]. apply Forall_cons in Hca as [Hc2 Hca].
  unfold init_mem. set (m1 := heap_set _ _ _ _ m). pose proof (heap_set_kept bhl (BOOT_PM_HEAP_AREA A) (BOOT_PM_HEAP_AREA A + BOOT_PM_HEAP_SIZE) (BOOT_PM_HEAP_AREA A) m Hhi) as [Hl1 Hk1].
  fold m1 in Hl1, Hk1. set (m2 := list_inserts (gl_next g) _ m1). set (m3 := list_inserts (gl_end g) _ m2).
  assert (Hl2 : length m2 = n) by (unfold m2; rewrite length_inserts; lia).
  assert (Hl3 : length m3 = n) by (unfold m3; rewrite length_inserts; lia).
  assert (Hflag : ∀ a v, apart flag 1 a usize_bytes → word m3 a v → word (list_inserts flag [1] m3) a v).
  { intros a v Ha Hv. apply word_inserts; [done| |cbn; lia]. unfold apart in *. cbn. lia. }
  assert (Hset : ∀ m a v, length m = n → (a + usize_bytes ≤ n)%nat → is_usize v → word (list_inserts a (usize_to_bytes v) m) a v).
  { intros m0 a v Hlm Ha Hv. apply word_set; [by rewrite Hlm|done]. }
  assert (Hkeep : ∀ m a b v x, length m = n → (b + usize_bytes ≤ n)%nat → apart a usize_bytes b usize_bytes → word m a v → word (list_inserts b (usize_to_bytes x) m) a v).
  { intros m0 a b v x Hlm Hb Ha Hv. apply word_inserts; rewrite ?length_usize_to_bytes, ?Hlm; done. }
  split; [by rewrite length_inserts|]. split_and!; (apply Hflag; [done|]).
  - apply Hkeep; [done..|]. apply Hkeep; [lia|done|done|]. by apply Hk1.
  - apply Hkeep; [done..|]. apply Hset; [lia|done|]. unfold is_usize. lia.
  - apply Hset; [done..|]. unfold is_usize. lia.
Qed.

Lemma heaps_init_booting s : blank flag s →
  ∃ s', exec (heaps_init A) s = Done tt s' ∧ booting 0 [] [] lo s' ∧ boot_rest (the_kernel s) (the_kernel s') ∧
    klog (the_kernel s') = klog (the_kernel s).
Proof using All.
  intros [Hst Hno _ Hcpu Hk Hnodes Htasks Hcur Hmax Htx Hlen Hcnt Hflag _].
  set (p := tx_pm (boot_of (the_kernel s))).
  destruct (exec_heap_init (volatile_heap s) p (kcpu (the_kernel s)) Hlen Hflag) as (V' & E).
  destruct (init_mem_words (bytes p) Hlen Hcnt) as (Hl' & Hw1 & Hw2 & Hw3). set (p' := {| bytes := init_mem (bytes p); journal := journal p |}) in *.
  destruct Hbp as [_ _ _ _ _ _ _ _ _ (_ & Hlo & Hle & _ & Hgm)].
  exists (lset (Lens := heaps_of (journal_of tx_of_boot)) (Build_heaps V' p' (kcpu (the_kernel s))) s). split; [|split; [|done]].
  - unfold heaps_init. run (exec_boot_tx s Hst). by apply (exec_zoom_lawful_done _ _ _ _ _ _ heaps_of_boot_lawful Hno).
  - split; try done.
    + change (size (nodes (ls (the_kernel s))) ≤ 0)%nat. by rewrite Hnodes.
    + cbn. lia.
    + intros t. change (tasks (the_kernel s) !! t = None). by rewrite Htasks.
    + change ((current_task (the_kernel s), cur_max_priority s) = (None, MIN_PRIORITY)). by rewrite Hcur, Hmax.
    + exists false, []. split; [done|]. destruct Htx as [T1 T2 T3 T4 T5]. split; [exact T1|exact T2| |exact T4|exact T5].
      destruct T3 as (Hj & _ & _). by split.
Qed.

(** *** From the end of the first boot to the invariant of the system *)

(** Nothing is in the lists of blank memory. *)
Lemma blank_empty s l xs : blank flag s → C0 !! l = Some xs → xs = [].
Proof.
  intros Hb HC. destruct xs as [|[x v] xs]; [done|].
  destruct (holds_seg _ _ _ _ (proj1 (k_repr _ _ _ _ (bl_kinv _ _ Hb)) _ _ HC)) as (? & ? & Hs & _).
  destruct (seg_elem _ _ _ _ _ x v ltac:(left) Hs) as (? & ? & E). by rewrite (bl_nodes _ _ Hb) in E.
Qed.

(** All tasks are ready, and none waits. *)
Lemma booting_system waitlists s0 s j ps ranges gn :
  blank flag s0 → (∀ wl, wl ∈ waitlists → is_Some (C0 !! WaitList wl)) → booting j ps ranges gn s →
  Forall (λ p, p < MIN_PRIORITY)%nat ps → ps !! 0%nat = Some (MIN_PRIORITY - 1)%nat → 0 ≤ tick_counter (tm (the_kernel s)) →
  sys_ok waitlists 0 (the_kernel s) (boot_contents C0 ps) ∧ ∃ t p, current_task (the_kernel s) = Some t ∧ first_best ps t p.
Proof.
  intros Hb Hwl Hbo Hps Hidle Htime. pose proof Hbo as [Hst Hno Hcpu Hk Hsz Hlim Hts Hcur _ _ _ _ _ _ _ _ _ _].
  pose proof (elected_first ps Hps) as He. rewrite <-Hcur in He.
  assert (Hc : ∃ t, current_task (the_kernel s) = Some t ∧ first_best ps t (cur_max_priority s)).
  { destruct (current_task (the_kernel s)) as [t|]; [eauto|]. destruct He as [-> _]. done. }
  destruct Hc as (t & Ec & Hf). split; [|eauto].
  assert (Hnone : ∀ l e, is_ready_list l = false → ¬ in_list (boot_contents C0 ps) l e).
  { intros l e Hl (xs & HC & Hin). rewrite boot_contents_ne in HC by done. rewrite (blank_empty s0 l xs Hb HC) in Hin. by inversion Hin. }
  split; try done.
  - intros t' b Hb' (wl & o & Hin). by apply Hnone in Hin.
  - intros t' w Hin. by apply Hnone in Hin.
  - intros t' b Hb' Hr. rewrite Hts in Hb'. destruct (ps !! t'); [|done]. by injection Hb' as <-.
  - exists t. destruct Hf as [Hf _]. eexists. split; [done|]. by rewrite Hts, Hf.
  - intros t' b Hb'. rewrite Hts in Hb'. destruct (ps !! t'); [|done]. by injection Hb' as <-.
  - eexists. rewrite Hts, Hidle. done.
  - split; rewrite Hcpu; [|done]. pose proof usize_mod_ge. cbn. lia.
  - intros wl Hin. rewrite boot_contents_ne by done. by apply Hwl.
Qed.

(** *** The first boot *)

Context (Lay : layouts) `{!Plain (Result (option Z) ErrorCode)} (hang : prog statics unit).
(** The application and the results that the boot transaction caches for it. *)
Context (apps : list (nat * Z)) (Happs : Forall (λ app, 0 ≤ app.2 ∧ ge + app.2 < usize_mod) apps).
Context (Hfit : ∀ i, (i ≤ length apps)%nat → fits (T := Result nat ErrorCode) i (i * res_size)) (Hone : (0 < TASK_NUM_LIMIT)%nat).

Definition booted_tasks : list nat := foldl registered [(MIN_PRIORITY - 1)%nat] apps.*1.
(** The heaps of the tasks are inside of the area, and do not overlap. *)
Definition heaps_placed (m : list Z) (ps : list nat) : Prop :=
  ∃ ranges, length ranges = length ps ∧ (∀ t r, ranges !! t = Some r → heap_is (hls t) m r.1 r.2) ∧
    Forall (λ r, empty_range r ∨ lo ≤ r.1 ≤ r.2 ∧ r.2 ≤ ge) ranges ∧
    ∀ t t' r r', (t < t')%nat → ranges !! t = Some r → ranges !! t' = Some r' → empty_range r ∨ empty_range r' ∨ r.2 ≤ r'.1.

Lemma booting_heaps s j ps ranges gn : booting j ps ranges gn s → heaps_placed (kmem (the_kernel s)) ps.
Proof.
  intros Hbo. exists ranges. split_and!; [apply Hbo|apply Hbo| |apply Hbo]. pose proof (bo_area _ _ _ _ _ _ _ _ _ _ _ _ _ Hbo).
  eapply Forall_impl; [apply Hbo|]. intros r [?|?]; [by left|right; lia].
Qed.

Lemma exec_boot_reset s : blank flag s → exec (zoom (Lens0 := statics_kern_lens) (on_boot_tx (zoom reset_ptr))) s = Done tt s.
Proof.
  intros Hb. change (Done tt (lset (Lens := statics_kern_lens) (boot_upd (with_tx_cache (with_ptr (λ _, 0) (tx_cache (boot_of (the_kernel s)))) (boot_of (the_kernel s))) (the_kernel s)) s) = Done tt s).
  assert (E : with_tx_cache (with_ptr (λ _, 0) (tx_cache (boot_of (the_kernel s)))) (boot_of (the_kernel s)) = boot_of (the_kernel s)).
  { pose proof (ready_ptr _ _ _ _ _ _ _ (bl_tx _ _ Hb)) as Hp. destruct (boot_of (the_kernel s)) as [? [? ? ?] ? ?]. cbn in Hp. by subst. }
  rewrite E, boot_upd_same by apply Hb. by rewrite kernel_same.
Qed.

Lemma boot_sequence_runs s : blank flag s →
  ∃ s1 ranges gn, exec (run_boot_sequence A Lay hang None (register_apps A apps)) s =
      Done tt (with_started true (on_the_kernel (λ k, with_boot (λ b, Build_boot_state (boot_tx b) true (current_generation b) (in_context_switch_tx b)) k) s1)) ∧
    booting (S (length apps)) booted_tasks ranges gn s1 ∧ boot_rest (the_kernel s) (the_kernel s1).
Proof using All.
  intros Hb. destruct (heaps_init_booting s Hb) as (s1 & E1 & Hbo1 & R1 & _).
  assert (Hge : ge + 0 < usize_mod). { destruct (bp_area _ _ Hbp) as (? & ? & ? & ? & ?). lia. }
  destruct (create_static_step Hboard Hopt Hcache A cnt g hls lo ge C0 n Hpl Hlimits Hroom s1 0 [] [] lo (MIN_PRIORITY - 1) 0 Hbo1 (Hfit 0 ltac:(lia)) ltac:(lia) Hge)
    as (s2 & ranges2 & gn2 & E2 & Hbo2 & R2).
  assert (Ereg : registration [] (MIN_PRIORITY - 1) = Ok 0%nat).
  { unfold registration. by rewrite (proj2 (Nat.leb_gt _ _)) by (cbn; lia). }
  unfold registered in Hbo2. rewrite Ereg in E2, Hbo2.
  destruct (register_apps_step apps s2 1 _ _ _ Hbo2) as (s3 & ranges3 & gn3 & E3 & Hbo3 & R3); [intros i ?; apply Hfit; lia|done|].
  exists s3, ranges3, gn3. split; [|split; [exact Hbo3|]].
  - unfold run_boot_sequence, idempotent_boot.
    assert (E : exec (heaps_init A;;; create_idle_task A hang;;; skip;;; register_apps A apps) s = Done tt s3).
    { run E1. unfold create_idle_task. rewrite !exec_bind, E2. exact E3. }
    rewrite exec_bind. erewrite exec_bind_done; [|reflexivity].
    change (lget s) with (the_kernel s). rewrite (bl_first _ _ Hb).
    run (exec_boot_reset s Hb). run E. cbn. by destruct s3 as [[[]] ? ? ?].
  - destruct R1 as (? & ? & ? & ?), R2 as (? & ? & ? & ?), R3 as (? & ? & ? & ?). split_and!; congruence.
Qed.

Lemma boot_sequence_system waitlists s : blank flag s → (∀ wl, wl ∈ waitlists → is_Some (C0 !! WaitList wl)) →
  ∃ s', exec (run_boot_sequence A Lay hang None (register_apps A apps)) s = Done tt s' ∧
    scheduler_started s' = true ∧ first_boot_done (boot (the_kernel s')) = true ∧
    (∀ t, tasks (the_kernel s') !! t = (λ p, tcb_of p Ready (new_task (current_generation (boot (the_kernel s))))) <$> booted_tasks !! t) ∧
    (∃ t p, current_task (the_kernel s') = Some t ∧ first_best booted_tasks t p) ∧
    heaps_placed (kmem (the_kernel s')) booted_tasks ∧
    sys_ok waitlists 0 (the_kernel s') (boot_contents C0 booted_tasks).
Proof using All.
  intros Hb Hwl. destruct (boot_sequence_runs s Hb) as (s1 & ranges & gn & E & Hbo & (R1 & R2 & R3 & R4)).
  assert (Hvalid : Forall (λ p, p < MIN_PRIORITY)%nat booted_tasks).
  { apply registered_valid, Forall_singleton. unfold MIN_PRIORITY, NUM_PRIORITY_LEVELS. lia. }
  assert (Hidle : booted_tasks !! 0%nat = Some (MIN_PRIORITY - 1)%nat).
  { eapply prefix_lookup_Some; [|apply registered_prefix]. done. }
  destruct (booting_system waitlists s s1 _ _ _ _ Hb Hwl Hbo Hvalid Hidle) as [Hok Hcur].
  { rewrite R1. apply (bl_time _ _ Hb). }
  eexists. split; [exact E|]. split; [done|]. split; [done|]. split; [|split; [exact Hcur|split; [exact (booting_heaps _ _ _ _ _ Hbo)|]]].
  - intros t. rewrite <-R4. apply (bo_tasks _ _ _ _ _ _ _ _ _ _ _ _ _ Hbo).
  - destruct Hok as [K1 K2 K3 K4 K5 K6 K7 K8 K9 K10]. by split.
Qed.

(** C8: The first boot from blank memory: the sequence runs to its end. The tasks are
    the idle task and those of the application whose registration was valid while
    there was room, ready, with fresh transactions, each at the end of the ready list of
    its priority; the first one of the highest priority is current. Each has a heap of
    its own, inside of the area and apart from the others, or an empty one. *)
Theorem first_boot_correct s : blank flag s →
  ∃ s', exec (run_boot_sequence A Lay hang None (register_apps A apps)) s = Done tt s' ∧
    scheduler_started s' = true ∧ first_boot_done (boot (the_kernel s')) = true ∧
    (∀ t, tasks (the_kernel s') !! t = (λ p, tcb_of p Ready (new_task (current_generation (boot (the_kernel s))))) <$> booted_tasks !! t) ∧
    kinv (the_kernel s') (boot_contents C0 booted_tasks) None ∧
    (∃ t p, current_task (the_kernel s') = Some t ∧ first_best booted_tasks t p) ∧
    heaps_placed (kmem (the_kernel s')) booted_tasks.
Proof using All.
  intros Hb. destruct (boot_sequence_system [] s Hb) as (s' & E & ? & ? & ? & ? & ? & Hok); [by intros wl ?%elem_of_nil|].
  exists s'. split_and!; try done. apply Hok.
Qed.

(** C7: From power-up to any time later: after the first boot, whatever ticks, switches
    and calls are interleaved, every routine that may run next runs to its end, without
    panic or undefined behaviour (in a build without debug assertions). *)
Theorem booted_system_never_fails time_bits waitlists s : blank flag s → (∀ wl, wl ∈ waitlists → is_Some (C0 !! WaitList wl)) →
  debug_assertions = false →
  ∃ s', exec (run_boot_sequence A Lay hang None (register_apps A apps)) s = Done tt s' ∧
    ∀ k e, rtc (System.step time_bits waitlists 0) (the_kernel s') k → enabled time_bits waitlists 0 e k = true →
      ∃ k', exec (perform time_bits e) k = Done tt k'.
Proof using All.
  intros Hb Hwl Hdebug. destruct (boot_sequence_system waitlists s Hb Hwl) as (s' & E & _ & _ & _ & _ & _ & Hok).
  exists s'. split; [exact E|]. intros k e Hr He.
  destruct (reachable_ok time_bits waitlists 0 _ _ k Hdebug Hok Hr) as [C HC].
  destruct (step_ok time_bits waitlists 0 e k C Hdebug HC He) as (k' & C' & Ek & _). eauto.
Qed.
End boot.

(** ** Instances *)

Module example.
#[local] Existing Instances cortex_m qemu default_features.

#[local] Instance plain_handle : Plain (Result nat ErrorCode) := {|
  size_of := 2;
  to_bytes (r : Result nat ErrorCode) := match r with Ok t => [0; Z.of_nat t] | Err e => [1; BlockingOps.calls.err_code e] end;
  of_bytes bs := match bs with [0; t] => Ok (Z.to_nat t) | [_; e] => Err (BlockingOps.calls.code_err e) | _ => Err NoSpace end;
|}.
#[local] Instance plain_handle_laws : PlainLaws (Result nat ErrorCode).
Proof. split; [by intros []|]. intros [t|[]]; [|done..]. cbn. by rewrite Nat2Z.id. Qed.
#[local] Existing Instances CreateOps.example.plain_pointer.

(** The static variables are the first 104 bytes. *)
Definition task_heap_at (t : nat) : hlayout := HLayout (32 + 12 * t) (32 + 12 * t) (36 + 12 * t) (40 + 12 * t).
Definition boot_heap_at : hlayout := HLayout 16 16 20 24.
Definition global_at : glayout := GLayout 8 8 12.
Definition demo_addresses : addresses := {|
  TASK_CNT := 4; TASK_PM_HEAP t := heap_of (task_heap_at t); GLOBAL_PM_HEAP := global_of global_at; BOOT_PM_HEAP := heap_of boot_heap_at;
  HEAP_FIRST_INIT_DONE := 28; HEAP_AREA := 0x1000; BOOT_PM_HEAP_AREA := 0x2000; PM_HEAP_AREA := 0x3000;
|}.

Definition blank_ids : list lid := (ReadyList <$> seq 0 8) ++ [DelayList; ActiveList; WaitList 0].
Definition blank_contents : contents := list_to_map ((λ l, (l, [])) <$> blank_ids).
Definition blank_store : lstore nid lid item := Build_lstore ∅ (list_to_map ((λ l, (l, plist_new)) <$> blank_ids)) 0 0.
Definition blank_kernel : kernel := Build_kernel blank_store ∅ demo_log demo_log None (Build_TimeManager 0 1000 1000)
  {| interrupts := true; nesting_cnt := 0 |} (replicate 104 0) (Build_boot_state new_tx false 0 0) None.
Definition blank_statics : statics := Build_statics (Build_tstore blank_kernel ∅ None (Build_TimerMessage CmdInvalid None 0)) false 8 bump_new.

Lemma blank_lists l xs : blank_contents !! l = Some xs → l ∈ blank_ids ∧ xs = [].
Proof.
  intros HC%elem_of_list_to_map_2. apply list_elem_of_fmap in HC as (l' & [= -> ->] & Hin). done.
Qed.
Lemma blank_kinv : kinv blank_kernel blank_contents None.
Proof.
  split.
  - split; [|vm_compute; done]. intros l xs HC. apply blank_lists in HC as [Hin ->].
    unfold blank_ids in Hin. cbn in Hin. unfold holds, circular, linear.
    repeat (apply elem_of_cons in Hin as [->|Hin]); [..|by inversion Hin]; cbn [is_ready_list];
      (split_and!; [try (eexists; split; [reflexivity|cbn; by auto])|..|constructor]); reflexivity.
  - intros l xs e HC He. apply blank_lists in HC as [_ ->]. by inversion He.
  - intros p Hp. do 8 (destruct p as [|p]; [eexists; reflexivity|]). lia.
  - eexists. split; [reflexivity|]. constructor.
  - done.
  - done.
Qed.

Lemma demo_placed : placed demo_addresses 4 global_at task_heap_at 104.
Proof.
  assert (Hu : usize_bytes = 4%nat) by done.
  split; unfold heap_words, heap_fields_apart, apart, task_heap_at, global_at; cbn [gl_obj gl_end gl_next hl_start hl_end hl_next TASK_NUM_LIMIT qemu]; rewrite ?Hu; try done; try lia.
  - intros t Ht. rewrite !Forall_cons, Forall_nil. lia.
  - intros t Ht. rewrite !Forall_cons, Forall_nil. lia.
  - intros t Ht. rewrite !Forall_cons, Forall_nil. lia.
  - intros t Ht. rewrite !Forall_cons, Forall_nil. lia.
  - intros t t' Ht Ht' Hne. rewrite !Forall_cons, !Forall_nil. lia.
Qed.
Lemma demo_boot_placed : boot_placed demo_addresses 4 global_at 0x3000 (0x3000 + 4000) 104 boot_heap_at 28.
Proof.
  assert (Hu : usize_bytes = 4%nat) by done.
  split; unfold heap_words, boot_heap_at, global_at; cbn [gl_obj gl_end gl_next hl_start hl_end hl_next]; rewrite ?Hu, ?Forall_cons, ?Forall_nil; unfold apart; try done; try lia; split_and!; try lia; vm_compute; done.
Qed.
Lemma demo_blank : blank 4 blank_contents 104 28 blank_statics.
Proof.
  split; try done.
  - apply blank_kinv.
  - apply (new_task_ready 0 (replicate 104 0)); [apply BlockingOps.calls.demo_cache_ok|apply UserTx.example.board_ok_qemu].
  - split; [vm_compute; lia|]. split; [by vm_compute|]. vm_compute. done.
Qed.

(** Two tasks of priority 1; a task of priority 9 is refused. *)
Definition demo_apps : list (nat * Z) := [(1%nat, 800); (9%nat, 800); (1%nat, 800)].
Lemma demo_sizes : Forall (λ app : nat * Z, 0 ≤ app.2 ∧ 0x3000 + 4000 + app.2 < usize_mod) demo_apps.
Proof. unfold demo_apps. rewrite !Forall_cons, Forall_nil. split_and!; vm_compute; done. Qed.
Lemma demo_results i : (i ≤ length demo_apps)%nat → fits (T := Result nat ErrorCode) i (i * size_of (Result nat ErrorCode)).
Proof. intros Hi. cbn in Hi. do 4 (destruct i as [|i]; [split; vm_compute; [split; congruence|congruence]|]). lia. Qed.
Lemma demo_limits : 2 * Z.of_nat TASK_NUM_LIMIT + 3 < usize_mod.
Proof. by vm_compute. Qed.
Lemma demo_room : Z.of_nat (record_size usize_bytes) + Z.of_nat (record_size (2 * usize_bytes)) ≤ JOURNAL_SIZE.
Proof. by vm_compute. Qed.

Lemma first_boot_correct_witness :
  ∃ s', exec (run_boot_sequence demo_addresses CreateOps.example.demo_layouts skip None (register_apps demo_addresses demo_apps)) blank_statics = Done tt s' ∧
    current_task (the_kernel s') = Some 1%nat ∧
    boot_contents blank_contents (booted_tasks demo_apps) !! ReadyList 1 = Some [(SchedNode 1, SchedItem 1 0); (SchedNode 2, SchedItem 2 0)].
Proof.
  destruct (first_boot_correct UserTx.example.board_ok_qemu BlockingOps.calls.demo_opt BlockingOps.calls.demo_cache_ok demo_addresses 4 global_at task_heap_at
    0x3000 (0x3000 + 4000) blank_contents 104 demo_placed demo_limits demo_room boot_heap_at 28 demo_boot_placed CreateOps.example.demo_layouts skip
    demo_apps demo_sizes demo_results ltac:(cbn; lia) blank_statics demo_blank) as (s' & E & _ & _ & _ & _ & (t & p & Hc & Hp & Hb) & _).
  exists s'. split; [exact E|]. split; [|by vm_compute]. rewrite Hc. change (booted_tasks demo_apps) with [7; 1; 1]%nat in *.
  destruct (Hb 1%nat 1%nat eq_refl) as [H1 H2]. do 3 (destruct t as [|t]; [injection Hp as <-; f_equal; lia|]). done.
Defined.

Lemma booted_system_never_fails_witness :
  ∃ s', exec (run_boot_sequence demo_addresses CreateOps.example.demo_layouts skip None (register_apps demo_addresses demo_apps)) blank_statics = Done tt s' ∧
    ∃ k', exec (perform 32 ESwitch) (the_kernel s') = Done tt k'.
Proof.
  destruct (booted_system_never_fails UserTx.example.board_ok_qemu BlockingOps.calls.demo_opt BlockingOps.calls.demo_cache_ok demo_addresses 4 global_at task_heap_at
    0x3000 (0x3000 + 4000) blank_contents 104 demo_placed demo_limits demo_room boot_heap_at 28 demo_boot_placed CreateOps.example.demo_layouts skip
    demo_apps demo_sizes demo_results ltac:(cbn; lia) 32 [0%nat] blank_statics demo_blank) as (s' & E & Hall).
  - intros wl ->%list_elem_of_singleton. by eexists.
  - reflexivity.
  - exists s'. split; [exact E|]. by apply (Hall _ ESwitch (rtc_refl _ _)).
Defined.

(** ** Power failures while booting *)

Definition demo_boot : prog statics unit :=
  recover_and_boot demo_addresses CreateOps.example.demo_layouts skip None (register_apps demo_addresses [(1%nat, 800); (1%nat, 800)]).
Definition interrupted : list statics := crash_states demo_boot blank_statics.

(** What the tasks and the memory are; and the rings of the ready lists. *)
Definition outcome (s : statics) :=
  (kmem (the_kernel s), (λ t, (λ b, (priority b, status b)) <$> tasks (the_kernel s) !! t) <$> seq 0 TASK_NUM_LIMIT, current_task (the_kernel s), cur_max_priority s,
   scheduler_started s, first_boot_done (boot (the_kernel s))).
Definition rings (s : statics) :=
  (len <$> lists (ls (the_kernel s)) !! ReadyList 7, len <$> lists (ls (the_kernel s)) !! ReadyList 1,
   (λ t, next <$> nodes (ls (the_kernel s)) !! SchedNode t) <$> seq 0 3).
Definition after {X} (p : prog statics unit) (f : statics → X) (s : statics) : option X :=
  match exec p s with Done _ s' => Some (f s') | Failed _ => None end.
Lemma after_same {X} `{EqDecision X} (p : prog statics unit) (f : statics → X) cs s :
  after p (λ _, tt) s = Some tt → forallb (λ c, bool_decide (after p f (power_cycle c) = after p f s)) cs = true →
  ∃ s0, exec p s = Done tt s0 ∧ ∀ c, c ∈ cs → ∃ s', exec p (power_cycle c) = Done tt s' ∧ f s' = f s0.
Proof.
  unfold after. destruct (exec p s) as [[] s0|]; [|done]. intros _ Hall. exists s0. split; [done|]. intros c Hc.
  rewrite forallb_forall in Hall. apply list_elem_of_In in Hc. specialize (Hall c Hc). apply bool_decide_eq_true in Hall.
  destruct (exec p (power_cycle c)) as [[] s'|]; [|done]. exists s'. split; [done|]. by injection Hall.
Qed.

Lemma demo_boot_runs : after demo_boot (λ _, tt) blank_statics = Some tt.
Proof. by vm_compute. Qed.
Lemma demo_boot_reboots :
  forallb (λ c, bool_decide (after demo_boot outcome (power_cycle c) = after demo_boot outcome blank_statics)) interrupted = true.
Proof. by vm_compute. Qed.

(** Executed for two tasks and a single failure, wherever it is: the next boot runs to
    its end, and the memory, the tasks, their states and the current task are as if
    nothing had happened. The rings of the ready lists and the nesting of critical
    sections may differ, as the next theorems show. *)
Example first_boot_interrupted :
  ∃ s0, exec demo_boot blank_statics = Done tt s0 ∧
    ∀ c, c ∈ interrupted → ∃ s', exec demo_boot (power_cycle c) = Done tt s' ∧ outcome s' = outcome s0.
Proof. exact (after_same demo_boot outcome interrupted blank_statics demo_boot_runs demo_boot_reboots). Qed.

(** What is seen when power fails in state [i]. *)
Definition after_failure {X} (f : statics → X) (i : nat) : option X :=
  match interrupted !! i with Some c => after demo_boot f (power_cycle c) | None => None end.

(** Finishing the insertion of a new task into its ready list does not store the list
    in the node. The next boot creates no second task, but inserts the node again: the
    list is one too long, and the node of the last task is its own successor, so that
    task 1 of the same priority is never reached again. *)
Theorem boot_inserts_twice :
  length (filter (λ c, after demo_boot rings (power_cycle c) ≠ after demo_boot rings blank_statics) interrupted) = 3%nat ∧
  after demo_boot rings blank_statics = Some (Some 1, Some 2, [Some (Some (SchedNode 0)); Some (Some (SchedNode 2)); Some (Some (SchedNode 1))]) ∧
  after_failure rings 214 = Some (Some 1, Some 3, [Some (Some (SchedNode 0)); Some (Some (SchedNode 2)); Some (Some (SchedNode 2))]).
Proof. by vm_compute. Qed.

(** The recovery of the first boot does not reset the nesting count of critical
    sections, which is in persistent memory: after a failure inside of one the count is
    never zero again, and the end of a critical section leaves interrupts off. *)
Theorem boot_leaves_interrupts_off :
  after_failure (λ s, (nesting_cnt (kcpu (the_kernel s)),
    match exec (with_no_interrupt skip) (the_kernel s) with Done _ k => Some (interrupts (kcpu k)) | Failed _ => None end)) 30 = Some (1, Some false).
Proof. by vm_compute. Qed.

(** When the insertion of a task is finished by the recovery, the task that is current
    then is marked as having done its list transaction: its first delay returns at once. *)
Theorem boot_skips_first_delay :
  let delay s := match exec (task_delay 32 skip 10 false) (the_kernel s) with Done _ k => status <$> tasks k !! 1%nat | Failed _ => None end in
  after_failure delay 150 = Some (Some Blocked) ∧ after_failure delay 140 = Some (Some Ready).
Proof. by vm_compute. Qed.
End example.
