(* ===== verification/SysCreate.v ===== *)
(** * The system calls that create and allocate ([syscalls.rs])

    Tasks, queues, semaphores, event groups, timers and blocks of the caller's
    persistent heap. Each is a recorded call, but for the statistics. *)

From S2P Require Import Prelude Arch Pmem PmemSpec PVar TxCache Transaction TxAttempt Replay ReplaySpec UserTx.
From S2P Require Import Util PList Kernel ListTx Sched Blocking BlockingOps Queue Semaphore EventGroup Heap Timer Syscall Create CreateOps Boot BootSystem.

Section calls.
Context `{Arch, Board, TxFeatures} (A : addresses) (Lay : layouts) (pad : list Z).
Notation task_heap := (TASK_PM_HEAP A).
Notation boot_heap := (BOOT_PM_HEAP A).

(** *** Creating *)

Definition sys_create_task_unsafe `{!Plain (Result nat ErrorCode)} (prio : nat) (pm_heap_sz : Z) : prog statics (Result nat ErrorCode) :=
  kernel_syscall pad (create_task_static A prio pm_heap_sz).
(** [size_of_T] is the size of the parameter of the task. *)
Definition sys_create_task_custom `{!Plain (Result nat ErrorCode)} (size_of_T prio : nat) (pm_heap_sz : Z) : prog statics (Result nat ErrorCode) :=
  assert_ (size_of_T =? usize_bytes)%nat;;;
  kernel_syscall pad (create_task_static A prio pm_heap_sz).
Definition sys_create_task `{!Plain (Result nat ErrorCode)} (size_of_T prio : nat) : prog statics (Result nat ErrorCode) :=
  sys_create_task_custom size_of_T prio PM_HEAP_SIZE_PER_TASK.

(** [item_size] is the size of the type of the items. *)
Definition sys_queue_create `{!Plain (option Z), !Plain (Result (option Z) ErrorCode)} (item_size length : Z) : prog statics (option Z) :=
  kernel_syscall pad (queue_create Lay task_heap boot_heap length item_size).
Definition sys_create_semaphore `{!Plain (option Z)} (n : Z) : prog statics (option Z) :=
  kernel_syscall pad (create_semaphore Lay task_heap boot_heap n).
Definition sys_event_group_create `{!Plain (option Z)} : prog statics (option Z) :=
  kernel_syscall pad (create_event_group Lay task_heap boot_heap).
Definition sys_timer_create `{!Plain (option Z)} (period : Z) (reload : bool) (cb arg : Z) : prog statics (option Z) :=
  kernel_syscall pad (create_timer Lay task_heap boot_heap period reload cb arg).
Definition sys_timer_create_with_closure `{!Plain (option Z)} (period : Z) (reload : bool) (runner : Z) (l : Layout) (object : list Z) : prog statics (option Z) :=
  kernel_syscall pad (create_timer_with_closure Lay task_heap boot_heap period reload runner l object).

(** *** Allocating *)

(** A transaction over the current heap. *)
Definition heap_transaction {T} `{Plain T} (f : PMHeap → prog pmem T) : prog statics T :=
  transaction_run (λ J, let* h := current_pm_heap task_heap boot_heap in zoom (Lens0 := J) (f h)).

Definition sys_palloc_relaxed `{!Plain (option Z)} (l : Layout) (object : list Z) : prog statics (option Z) :=
  kernel_syscall pad (heap_transaction (λ h, pm_new_relaxed h l object)).
Definition sys_palloc `{!Plain (option Z)} (l : Layout) (object : list Z) : prog statics (option Z) :=
  sys_palloc_relaxed l object.
Definition sys_palloc_uninit `{!Plain (option Z)} (l : Layout) : prog statics (option Z) :=
  kernel_syscall pad (heap_transaction (λ h, palloc h l)).
Definition sys_palloc_array `{!Plain (option Z)} (size_of_T size : Z) : prog statics (option Z) :=
  kernel_syscall pad (heap_transaction (λ h, palloc_array h size_of_T size)).
Definition sys_pfree_array (ptr size_of_T size : Z) : prog statics unit :=
  kernel_syscall_noret (heap_transaction (λ h, pfree_array h ptr size_of_T size;;; skip)) skip.
Definition sys_pfree (ptr : Z) (l : Layout) : prog statics unit :=
  kernel_syscall_noret (heap_transaction (λ h, pfree h ptr l;;; skip)) skip.

(** [sys_get_pmem_stat] is not recorded. *)
Definition sys_get_pmem_stat : prog statics MemStat :=
  let* t := on_kernel current in
  on_kernel (on_task t (zoom (zoom (pm_stat (task_heap t))))).
End calls.
