(* ===== verification/UserNew.v ===== *)
(** * The constructors of applications' objects, and the mutex ([user/])

    Boxes, vectors, queues, shared pointers and mutexes are made by system calls, so
    that a transaction that is executed again gets those that it made before. *)

From S2P Require Import Prelude Arch Pmem PmemSpec PVar TxCache Transaction TxAttempt Replay ReplaySpec UserTx.
From S2P Require Import Util PList Kernel ListTx Sched SchedSpec Blocking BlockingOps Queue Semaphore EventGroup Heap Timer Syscall Create CreateOps Boot BootSystem SysCreate.

(** How the compiler lays out [RawPVec] (pointer, capacity, length) and [RawPQueue]
    (pointer, capacity, head, tail, length), and the size of [RelaxedPBox]. *)
Record user_layouts := {
  raw_vec_layout : Layout;
  raw_vec_bytes : Z → Z → Z → list Z;
  raw_queue_layout : Layout;
  raw_queue_bytes : Z → Z → Z → Z → Z → list Z;
}.
Record RawPVec := { rv_ptr : Z; rv_cap : Z; rv_len : Z }.
Record RawPQueue := { rq_ptr : Z; rq_cap : Z; rq_head : Z; rq_tail : Z; rq_len : Z }.
Inductive AllocError := OutOfMemory.
Inductive PMutexError := NoMemory | Poisoned.

Section constructors.
Context `{Arch, Board, TxFeatures} (A : addresses) (Lay : layouts) (ULay : user_layouts) (pad : list Z) `{!Plain (option Z)}.

(** *** [PBox], [RelaxedPBox] and [PArc] *)

Definition pbox_new (l : Layout) (x : list Z) : prog statics Z :=
  let* ptr := sys_palloc A pad l x in unwrap ptr.
Definition pbox_try_new (l : Layout) (x : list Z) : prog statics (Result Z AllocError) :=
  let* ptr := sys_palloc A pad l x in
  match ptr with None => Ret (Err OutOfMemory) | Some p => Ret (Ok p) end.
Definition relaxed_pbox_new (l : Layout) (x : list Z) : prog statics Z :=
  let* ptr := sys_palloc_relaxed A pad l x in unwrap ptr.
Definition relaxed_pbox_try_new (l : Layout) (x : list Z) : prog statics (Result Z AllocError) :=
  let* ptr := sys_palloc_relaxed A pad l x in
  match ptr with None => Ret (Err OutOfMemory) | Some p => Ret (Ok p) end.
(** The object is copied out of the box. *)
Definition pbox_into_inner (l : Layout) (ptr : Z) : prog statics (list Z) :=
  let* t := on_kernel current in
  let* x := on_kernel (on_task t (zoom (zoom (read_bytes ptr (Z.to_nat (layout_size l)))))) in
  sys_pfree A ptr l;;;
  Ret x.
(** [rc_data] lays out the counter in front of the data. Nothing counts the clones. *)
Definition parc_new (l : Layout) (rc_data : Z → list Z → list Z) (x : list Z) : prog statics Z := pbox_new l (rc_data 1 x).
Definition parc_clone (ptr : Z) : Z := ptr.

(** *** [PVec] *)

Definition raw_pvec_try_new_empty (size_of_T cap : Z) : prog statics (Result RawPVec AllocError) :=
  assert_ (negb (cap =? 0));;;
  let* ptr := sys_palloc_array A pad size_of_T cap in
  match ptr with
  | None => Ret (Err OutOfMemory)
  | Some p => Ret (Ok {| rv_ptr := p; rv_cap := cap; rv_len := 0 |})
  end.
(** The array [x] of [n] elements has the layout [l]. *)
Definition raw_pvec_try_new (l : Layout) (x : list Z) (n : Z) : prog statics (Result RawPVec AllocError) :=
  let* ptr := sys_palloc A pad l x in
  match ptr with
  | None => Ret (Err OutOfMemory)
  | Some p => Ret (Ok {| rv_ptr := p; rv_cap := n; rv_len := n |})
  end.
Definition box_raw_pvec (v : RawPVec) : list Z := raw_vec_bytes ULay (rv_ptr v) (rv_cap v) (rv_len v).
(** The common end of both [try_new]: when there is no room for the record the buffer is
    freed again. *)
Definition pvec_boxed (size_of_T : Z) (buf : Result RawPVec AllocError) : prog statics (Result Z AllocError) :=
  match buf with
  | Ok v =>
      let* res := pbox_try_new (raw_vec_layout ULay) (box_raw_pvec v) in
      match res with
      | Err _ => sys_pfree_array A (rv_ptr v) size_of_T (rv_cap v);;; Ret (Err OutOfMemory)
      | Ok boxed => Ret (Ok boxed)
      end
  | Err e => Ret (Err e)
  end.
Definition pvec_try_new_empty (size_of_T cap : Z) : prog statics (Result Z AllocError) :=
  let* buf := raw_pvec_try_new_empty size_of_T cap in pvec_boxed size_of_T buf.
Definition pvec_try_new (l : Layout) (x : list Z) (size_of_T n : Z) : prog statics (Result Z AllocError) :=
  let* buf := raw_pvec_try_new l x n in pvec_boxed size_of_T buf.
Definition unwrap_ok {T E} (r : Result T E) : prog statics T := match r with Ok x => Ret x | Err _ => Fail Panic end.
Definition pvec_new_with (l : Layout) (x : list Z) (n : Z) : prog statics Z :=
  let* r := raw_pvec_try_new l x n in
  let* buf := unwrap_ok r in
  pbox_new (raw_vec_layout ULay) (box_raw_pvec buf).
Definition pvec_new (size_of_T cap : Z) : prog statics Z :=
  let* r := raw_pvec_try_new_empty size_of_T cap in
  let* buf := unwrap_ok r in
  pbox_new (raw_vec_layout ULay) (box_raw_pvec buf).

(** *** [PQueue] *)

Definition raw_pqueue_try_new (size_of_T cap : Z) : prog statics (Result RawPQueue AllocError) :=
  assert_ (negb (cap =? 0));;;
  let* ptr := sys_palloc_array A pad size_of_T cap in
  match ptr with
  | None => Ret (Err OutOfMemory)
  | Some p => Ret (Ok {| rq_ptr := p; rq_cap := cap; rq_head := 0; rq_tail := 0; rq_len := 0 |})
  end.
Definition pqueue_new (size_of_T cap : Z) : prog statics Z :=
  let* r := raw_pqueue_try_new size_of_T cap in
  let* q := unwrap_ok r in
  pbox_new (raw_queue_layout ULay) (raw_queue_bytes ULay (rq_ptr q) (rq_cap q) (rq_head q) (rq_tail q) (rq_len q)).

(** *** [PMutex] and [pthread] *)

Definition pmutex_new : prog statics Z := let* sem := sys_create_semaphore A Lay pad 1 in unwrap sem.
Definition pmutex_try_new : prog statics (Result Z PMutexError) :=
  let* sem := sys_create_semaphore A Lay pad 1 in
  match sem with None => Ret (Err NoMemory) | Some s => Ret (Ok s) end.
(** [pthread::create]: the closure lives in a box of the caller, whose pointer is the
    parameter of the task. *)
Definition pthread_create `{!Plain (Result nat ErrorCode)} (prio : nat) (l : Layout) (f : list Z) : prog statics (Result nat ErrorCode) :=
  relaxed_pbox_new l f;;;
  sys_create_task A pad usize_bytes prio.
End constructors.

(** *** Locking a mutex *)

Section mutex.
Context `{Arch, Board} (time_bits : Z) (task_ptr : nat → Z) (yield : prog kernel unit) {S : Type} `{!Lens kernel S}.

Definition DEFAULT_MUTEX_WAIT_TIME : Z := Z.shiftr (2 ^ time_bits - 1) 2.
(** [sys_lock] waits again when the time is over; [rounds] bounds how often. *)
Fixpoint sys_lock (rounds fuel : nat) (sem : Semaphore) : prog S unit :=
  match rounds with
  | O => Fail Undefined
  | Datatypes.S rounds =>
      let* r := sys_semaphore_take time_bits task_ptr yield fuel sem DEFAULT_MUTEX_WAIT_TIME in
      match r with Err _ => sys_lock rounds fuel sem | Ok _ => skip end
  end.
(** [PMutex::lock] wraps a guard around it, whose [drop] unlocks. *)
Definition pmutex_lock (rounds fuel : nat) (sem : Semaphore) : prog S unit := sys_lock rounds fuel sem.
Definition pmutex_unlock (sem : Semaphore) : prog S unit := sys_semaphore_give yield sem.
Definition guard_drop (sem : Semaphore) : prog S unit := sys_semaphore_give yield sem.
End mutex.

(** Inside of a transaction that is executed again a constructor makes nothing: a box is
    the one that was made; a vector or a queue is the box behind the second record, or
    there is none, and the buffer is freed again by a call that is recorded, too. *)
Theorem recorded_constructors `{Arch, Board, TxFeatures} (A : addresses) (Lay : layouts) (ULay : user_layouts) (pad : list Z) `{!Plain (option Z)} s s1 s2 buf obj :
  debug_assertions = false → recorded get_entry (Some (Some buf)) s s1 → recorded get_entry (Some (Some obj)) s1 s2 →
  (∀ l x, exec (pbox_new A pad l x) s = Done buf s1) ∧ exec (pmutex_new A Lay pad) s = Done buf s1 ∧
  (∀ size cap, cap ≠ 0 → exec (pvec_new A ULay pad size cap) s = Done obj s2 ∧ exec (pqueue_new A ULay pad size cap) s = Done obj s2 ∧
     exec (pvec_try_new_empty A ULay pad size cap) s = Done (Ok obj) s2) ∧
  (∀ s2' s3 size cap, cap ≠ 0 → recorded (get_entry (T := option Z)) (Some None) s1 s2' → recorded get_empty_entry true s2' s3 →
     exec (pvec_try_new_empty A ULay pad size cap) s = Done (Err OutOfMemory) s3).
Proof.
  intros Hdbg Hr1 Hr2.
  assert (Hempty : ∀ size cap, cap ≠ 0 → exec (raw_pvec_try_new_empty A pad size cap) s = Done (Ok (Build_RawPVec buf cap 0)) s1).
  { intros size cap Hcap. unfold raw_pvec_try_new_empty. rewrite (proj2 (Z.eqb_neq _ _) Hcap). cbn [negb assert_ skip bind].
    by run (recorded_call pad Hdbg _ _ _ _ Hr1 : exec (sys_palloc_array A pad size cap) s = _). }
  assert (Hbox : ∀ l x, exec (pbox_new A pad l x) s1 = Done obj s2).
  { intros l x. unfold pbox_new. by run (recorded_call pad Hdbg _ _ _ _ Hr2 : exec (sys_palloc A pad l x) s1 = _). }
  assert (Htry : ∀ o s' l x, recorded get_entry (Some o) s1 s' →
    exec (pbox_try_new A pad l x) s1 = Done (match o with Some p => Ok p | None => Err OutOfMemory end) s').
  { intros o s' l x Hr. unfold pbox_try_new. run (recorded_call pad Hdbg _ _ _ _ Hr : exec (sys_palloc A pad l x) s1 = _). by destruct o. }
  split_and!.
  - intros l x. unfold pbox_new. by run (recorded_call pad Hdbg _ _ _ _ Hr1 : exec (sys_palloc A pad l x) s = _).
  - unfold pmutex_new. by run (recorded_call pad Hdbg _ _ _ _ Hr1 : exec (sys_create_semaphore A Lay pad 1) s = _).
  - intros size cap Hcap. split_and!.
    + unfold pvec_new. run (Hempty size cap Hcap). apply Hbox.
    + assert (Hq : exec (raw_pqueue_try_new A pad size cap) s = Done (Ok (Build_RawPQueue buf cap 0 0 0)) s1).
      { unfold raw_pqueue_try_new. rewrite (proj2 (Z.eqb_neq _ _) Hcap). cbn [negb assert_ skip bind].
        by run (recorded_call pad Hdbg _ _ _ _ Hr1 : exec (sys_palloc_array A pad size cap) s = _). }
      unfold pqueue_new. run Hq. apply Hbox.
    + unfold pvec_try_new_empty. run (Hempty size cap Hcap). unfold pvec_boxed. cbn beta iota.
      by run (Htry (Some obj) s2 (raw_vec_layout ULay) (box_raw_pvec ULay (Build_RawPVec buf cap 0)) Hr2).
  - intros s2' s3 size cap Hcap Hr2' Hr3. unfold pvec_try_new_empty. run (Hempty size cap Hcap). unfold pvec_boxed. cbn beta iota.
    run (Htry None s2' (raw_vec_layout ULay) (box_raw_pvec ULay (Build_RawPVec buf cap 0)) Hr2'). cbn beta iota.
    by run (recorded_call_noret Hdbg _ _ _ _ Hr3 : exec (sys_pfree_array A buf size cap) s2' = _).
Qed.
